(* ===== verification/_CoqProject ===== *)
-Q . S2P
Prelude.v
Paths.v
Errdefs.v
Archive.v
Copies.v
Naming.v
Health.v
Token.v
Addr.v
Network.v
NetworkManager.v
Instance.v
Definitions.v
Codec.v
FileStore.v
Conc.v
Firewall.v
Chains.v
Entrance.v
Isolation.v
Dns.v
Images.v
Pulls.v
Collect.v
Sha256.v
Resources.v
Files.v
Networks.v
Auth.v
EventLog.v
Interpolate.v
Compose.v
Host.v
Manager.v
Names.v
Safety.v
Races.v
Lifecycle.v
