(* ===== verification/Prelude.v ===== *)
(** * A verification of dicer

    dicer is a daemon that runs virtual machines from container images, the
    client library and command line that call it, and the agent it starts in
    each guest. This development is about the daemon: what its definitions
    mean, what its store, its address tables and its image store keep through
    failures and restarts, what holds of its operations when they run beside
    each other, how it keeps guests apart and answers their queries, who may
    call it, and what its event log promises; and about two things of the
    command line, compose projects and copies of files. All paths below are
    under [src/].

    ** The parts of the program

    Clients call the daemon over gRPC ([internal/grpcserver]): over a Unix
    socket, or over TCP with a token ([internal/token]). A handler calls one of
    the managers. The instance manager ([internal/instance]) starts, stops,
    pauses, freezes, snapshots, resizes, renames and deletes instances, and
    looks after those that run: it admits them to the host's CPU and memory,
    gives them an address of their network ([internal/network]), has the host
    network ([internal/hostnet]) attach them to its bridge and publish their
    ports, starts their hypervisor, probes their health ([internal/health]),
    restarts them as their policy says, and adopts them when the daemon starts
    again. Images are pulled and kept by the image manager ([internal/image],
    [internal/registry]); networks, volumes and kernels have managers of their
    own. The guests of each network are answered by a DNS server
    ([internal/dns]), which asks the instance manager for names and addresses.
    What instances, networks, volumes, kernels, snapshots and tokens are is kept
    by the definition store ([internal/filestore]). What happens is recorded in
    the event log ([internal/event]). Files are copied to and from guests as
    archives ([internal/archive]). Errors have classes ([internal/errdefs]),
    each of which is a gRPC status.

    ** How it is modelled

    Pure code is a function. An error is a value of [Errdefs.error], and a Go
    function that returns one returns a [result]. Code that fails on its own
    account fails here for the same reasons; what the world outside answers (a
    file operation, a hypervisor, the clock, random bytes) is an argument, or
    the answer to a question a program asks. Code under one mutex from end to
    end is one step: the definition store, the address tables, the calls of the
    event log. Code that takes several steps is a program of [Conc]: atomic
    steps on a shared state, questions to the world, and mutexes, which run
    beside each other by a step relation. A program is written as its source
    is, with the source's early returns, clean-ups and deferred calls.

    Integers are unbounded ([Z]) where the code cannot overflow or the values
    are checked to be small, and are wrapped to their width where it matters
    ([int64_wrap], [uint32_wrap]). A Go time is a number of nanoseconds since
    the zero time. Strings are byte strings. A Go map is a [gmap]; where the
    code sorts its keys, so does [sorted_keys]. A definition's file holds a tree
    of YAML, which [Codec] writes the fields of its type to, and reads them
    from, under the tags of the source; the text of the tree is the library's.

    Some records have a field that the program does not have and never reads,
    in which a theorem finds what happened: in [Firewall], [failures] counts the
    commands that failed, [walls] are the bridges whose isolation is set up and
    [doors] those whose access to the host is; in [Images], [callers] are those
    that wait for a pull and [spoiled] the directories whose files were removed
    beside a pull; in [Resources], [retired] are the IDs of what was deleted.

    ** Files

    - [Prelude]: strings, integers, times and sorted maps as Go has them, with
      lemmas and tactics ([simpl_bools]) that every file uses. [Paths]: what is
      used of [path] and [path/filepath].
    - [Errdefs]: [internal/errdefs/errdefs.go], [internal/grpcserver/status.go].
    - [Archive]: [internal/archive/archive.go] over a tree of files;
      [Copies]: theorems about it.
    - [Naming]: [internal/naming/naming.go], with a derivative matcher for its
      regular expression.
    - [Health]: [internal/health], [internal/guest/probe.go].
    - [Token]: [internal/token/token.go].
    - [Addr]: what is used of [net] and [net/netip].
    - [Network]: [internal/network] without its manager, and how the API keeps
      a mapping of ports; [NetworkManager]: [internal/network/manager.go].
    - [Instance]: the data and the pure decisions of [internal/instance];
      [Definitions]: the records of volumes, kernels and snapshots.
    - [Codec]: the fields and tags of every definition in its YAML document.
    - [FileStore]: [internal/filestore]; [Kind] is what the six kinds of
      definition have in common, [Store] the store. [Named] is the interface
      between them.
    - [Conc]: concurrent programs, run on their own ([exec]), beside others
      ([step]) and by a schedule ([play]). What holds of a program on its own is
      shown by [run], by [run_given] where the answers are constrained, and by
      [run_through] where states on the way matter; what it asks, by
      [asks_only]. What holds of every interleaving is shown one program at a
      time, by a rely-guarantee logic ([wp], whose interface is
      [RelyGuarantee]) with triples, and [inside] for critical sections.
    - [Firewall]: [iptables.go], [published_ports.go], [gateway_access.go],
      [firewalld.go], [bridge.go] and [host.go] of [internal/hostnet];
      [Chains], [Entrance], [Isolation]: theorems about it, the first of the
      chains that keep guests apart, the second of the way into the chain that
      guards the host, the third of what packets meet.
    - [Dns]: [internal/dns], with theorems; [Names]: [internal/instance/dns.go],
      and theorems about both together.
    - [Images]: [internal/image], and the cache of [internal/registry];
      [Pulls], [Collect]: theorems about them.
    - [Sha256]: SHA-256, hexadecimal and base32, checked against published
      values.
    - [Resources]: the managers of networks, volumes and kernels; [Files],
      [Networks]: theorems about them.
    - [Auth]: [internal/token/manager.go], and [authentication.go],
      [authorization.go] and [token_handler.go] of [internal/grpcserver].
    - [EventLog]: [internal/event], [internal/atomicfile].
    - [Interpolate]: [interpolate.go] and [env_file.go] of [internal/compose];
      [Compose]: its [project.go], [subnet.go] and the checks of its [build.go].
    - [Host]: the state of the instance manager and of the host, and the
      questions it asks; [Manager]: its operations, a definition for each
      function of [internal/instance] that changes state, and those of
      [internal/hostnet] that they call for the device and the ports of an
      instance, as the instance manager sees them.
    - [Safety], [Races], [Lifecycle]: theorems about [Manager].

    ** What the theorems show

    - Safety under concurrency ([Safety]). In every interleaving of operations
      other than forks, whatever they are answered, and through crashes of the
      daemon and reboots of the host: instances hold no more than the host
      allows; no two that have a virtual machine publish ports that overlap, or
      share a volume that one of them may write; and operations never deadlock.
    - One operation at a time ([Lifecycle]). Whatever it is answered, a start
      brings all of an instance up or takes down what it brought up, and a stop
      that succeeds takes it all down. A device or a rule that the host fails to
      remove stays, and so does a status that cannot be written: the code logs
      this and goes on, and the theorems say so.
    - Guests are kept apart ([Isolation]). In every interleaving, with commands
      that fail and crashes, a packet to another network is dropped; and while
      no command has failed, what becomes in the host's chain [INPUT] of a
      packet to the host is what its network allows.
    - Names ([Dns], [Names]). Names and addresses agree; what is of a network's
      own is not asked upstream; a query is answered if an upstream answers;
      each network has one server.
    - Images ([Pulls], [Collect]). Callers share a pull, and get what they asked
      for; an image has a whole disk; a collection removes only what may go.
    - Files of definitions ([Files], [Networks]). A volume has its disk and a
      kernel its binary, in every interleaving; one at a time, networks are
      created beside the others and deleted whole.
    - Copies ([Copies]). A copy is what was copied, and an archive changes
      nothing outside one directory.
    - Who may do what ([Auth]). In every interleaving no token comes to allow
      more than one that there was; a call is handled only for a token that it
      presents and whose scopes open its method; a value that is issued works.
    - The event log ([EventLog]). The file is true to what was recorded through
      failures, overload and crashes, and complete once the writer has caught
      up; subscribers miss nothing.
    - Kept state ([FileStore], [NetworkManager]). References by name stay valid,
      a restart changes nothing, a write that fails changes nothing, lookups
      find what they mean; addresses are given once, if and only if one is free,
      and held until they are given back.
    - Data ([Network], [Instance], [Token], [Naming], [Health], [Errdefs]):
      what validation guarantees, what parsing reads, when mappings and subnets
      overlap, how restarts back off, what a monitor concludes.
    - Projects ([Compose], [Interpolate]): dependencies are accepted if and only
      if they are all there and not circular, and services come after what they
      depend on; subnets that are picked are free; variables are replaced as
      documented, and environment files are read as written.
    - Defects ([Races], and theorems of [Names], [Networks], [Pulls], [Copies]
      and [FileStore]): runs of the code in which it does not do what it means
      to.

    ** Bounds, fuel and assumptions

    - Recursion that is not structural has fuel, and the theorems show that it
      is enough: [Network.freeIP] tries each address of a subnet once;
      [Compose.depth] is one more than the number of services; IPv6 addresses
      have 8 groups; a trimmed string gets shorter; a message has no more blocks
      than words; a round of [Interpolate.interpolate_fuel] and of
      [Dns.serveConn] takes at least one byte.
    - The links that are followed in [Archive] are as many as Linux, an
      [os.Root] and [filepath.EvalSymlinks] follow: 40, 8 and 255.
    - [rounds] of [Manager.snapshotVM] is how often a hypervisor is asked again
      before the caller's context is done. The theorems are for every number.
    - What is not under [src/] is a parameter, with what it documents as laws:
      [iptables] (class [IPTables]), the messages of DNS (class [Messages]), the
      parser of image references, the size of an OCI layout, the kernel that a
      build embeds, Unicode's case tables.
    - In [Safety] and [Auth], generated IDs are new, and in [Safety] they are no
      name that a client gives ([generated]). Forks are not among the operations
      of [Safety]: [Races] shows that what it shows does not hold of them.
    - In [Safety] a crash keeps the files and loses what is in memory; a reboot
      also loses the runtime directory, processes and devices. The waits of
      [Manager.Close] for its goroutines are not steps of it.
    - In [FileStore], definitions refer to others by name. The store accepts IDs
      as well, but does not look for them when something is deleted.
    - In [Codec] a document is as the daemon writes it, or any other tree; what
      the library makes of a scalar of another type, and the widths of integers
      in documents written by hand, are not modelled.
    - In [EventLog] a line of the file is one event, or cannot be read; that
      JSON reads back what it wrote is not modelled. A crash may leave part of a
      line, but loses none that was written.

    ** Not modelled

    - The client library and the command line (conversion of messages, flags,
      tables, terminals), the handlers that convert messages and call a manager,
      daemon start and configuration, metrics, audit and other logs.
    - Netlink beyond whether a device is there, how traffic is shaped, the
      signals of firewalld, registries and the unpacking of layers, the making
      of disk images, the hypervisors' processes and HTTP clients, the guest's
      init and agent, virtiofs, the checks of [dicer doctor]: system calls,
      network and file I/O, which the managers ask as questions to the world.
    - The loops in which DNS servers accept datagrams and connections, with
      their limits and deadlines; how an archive is sent over a stream.
    - The YAML of compose files and the conversion of each key of a service.
    - [Wait] of the instance manager, beyond waking up who waits; the sockets a
      waker listens on; when a goroutine probes a guest or notices the end of a
      hypervisor. What these goroutines then do is modelled.
    - Generated protocol code and the documentation generator. *)

From Stdlib Require Export Ascii String Lia.
From stdpp Require Export base tactics list gmap strings sorting pretty.


(** ** Machine integers *)

(** Go's [int] and [int64] are two's-complement 64-bit integers, [uint32] and
    [uint16] unsigned ones; arithmetic on them wraps around. *)
Definition int64_wrap (z : Z) : Z := ((z + 2 ^ 63) `mod` 2 ^ 64 - 2 ^ 63)%Z.

Definition uint32_wrap (z : Z) : Z := (z `mod` 2 ^ 32)%Z.

Definition is_int64 (z : Z) : Prop := (- 2 ^ 63 ≤ z < 2 ^ 63)%Z.

Definition is_uint32 (z : Z) : Prop := (0 ≤ z < 2 ^ 32)%Z.

#[global] Instance is_int64_dec z : Decision (is_int64 z).
Proof. unfold is_int64. apply _. Defined.

#[global] Instance is_uint32_dec z : Decision (is_uint32 z).
Proof. unfold is_uint32. apply _. Defined.

(** [time.Duration] arithmetic: a time is a number of nanoseconds, and
    [Time.Sub] saturates at the ends of [time.Duration]'s range. *)
Definition second : Z := 1000000000.

Definition time_sub (t u : Z) : Z := Z.max (- 2 ^ 63) (Z.min (2 ^ 63 - 1) (t - u)).

(** ** Byte strings

    A Go [string] is a sequence of bytes, and so is Rocq's [string] of
    [ascii]. These are the functions of package [strings] the modelled code
    calls, on bytes. *)
Module Str.

Fixpoint to_list (s : string) : list ascii :=
  match s with
  | EmptyString => []
  | String c s => c :: to_list s
  end.

Fixpoint of_list (l : list ascii) : string :=
  match l with
  | [] => EmptyString
  | c :: l => String c (of_list l)
  end.

Definition len (s : string) : nat := length (to_list s).

(** [strings.CutPrefix]. *)
Fixpoint cut_prefix (p s : string) : option string :=
  match p, s with
  | EmptyString, _ => Some s
  | String a p, String b s => if decide (a = b) then cut_prefix p s else None
  | String _ _, EmptyString => None
  end.

(** [strings.HasPrefix]. *)
Definition has_prefix (p s : string) : bool :=
  match cut_prefix p s with Some _ => true | None => false end.

(** [strings.CutSuffix]. *)
Fixpoint cut_suffix (suf s : string) : option string :=
  if decide (s = suf) then Some EmptyString
  else match s with
       | EmptyString => None
       | String c s => String c <$> cut_suffix suf s
       end.

(** [strings.Cut] at a one-byte separator: what is before the first one, and
    what is after it if there is one. *)
Fixpoint cut (sep : ascii) (s : string) : string * option string :=
  match s with
  | EmptyString => (EmptyString, None)
  | String c s =>
      if decide (c = sep) then (EmptyString, Some s)
      else let '(before, after) := cut sep s in (String c before, after)
  end.

(** [strings.Split] at a one-byte separator. *)
Fixpoint split_list (sep : ascii) (l : list ascii) : list (list ascii) :=
  match l with
  | [] => [[]]
  | c :: l =>
      if decide (c = sep) then [] :: split_list sep l
      else match split_list sep l with
           | [] => [[c]]
           | part :: parts => (c :: part) :: parts
           end
  end.

Definition split (sep : ascii) (s : string) : list string :=
  of_list <$> split_list sep (to_list s).

(** [strings.IndexByte] as a test. *)
Definition contains_byte (c : ascii) (s : string) : bool :=
  bool_decide (c ∈ to_list s).

(** The UTF-8 encodings of the characters [unicode.IsSpace] accepts, which
    [strings.TrimSpace] removes from both ends. *)
Definition space_sequences : list (list ascii) :=
  map (map ascii_of_N)
   ([[9]; [10]; [11]; [12]; [13]; [32]; [194; 133]; [194; 160]; [225; 154; 128];
    [226; 128; 128]; [226; 128; 129]; [226; 128; 130]; [226; 128; 131]; [226; 128; 132];
    [226; 128; 133]; [226; 128; 134]; [226; 128; 135]; [226; 128; 136]; [226; 128; 137];
    [226; 128; 138]; [226; 128; 168]; [226; 128; 169]; [226; 128; 175]; [226; 129; 159];
    [227; 128; 128]]%N).

Fixpoint cut_prefix_list (p l : list ascii) : option (list ascii) :=
  match p, l with
  | [], _ => Some l
  | a :: p, b :: l => if decide (a = b) then cut_prefix_list p l else None
  | _ :: _, [] => None
  end.

Fixpoint cut_one_of (seqs : list (list ascii)) (l : list ascii) : option (list ascii) :=
  match seqs with
  | [] => None
  | p :: seqs =>
      match cut_prefix_list p l with
      | Some rest => Some rest
      | None => cut_one_of seqs l
      end
  end.

(** Each step removes at least one byte, so the length is fuel enough. *)
Fixpoint trim_left_fuel (seqs : list (list ascii)) (fuel : nat) (l : list ascii) : list ascii :=
  match fuel with
  | 0 => l
  | S fuel =>
      match cut_one_of seqs l with
      | Some rest => trim_left_fuel seqs fuel rest
      | None => l
      end
  end.

Definition trim_left (seqs : list (list ascii)) (l : list ascii) : list ascii :=
  trim_left_fuel seqs (length l) l.

(** [strings.TrimSpace]: from the left, then from the right, where the bytes
    of a character come in reverse. *)
Definition trim_space_list (l : list ascii) : list ascii :=
  let l := trim_left space_sequences l in
  reverse (trim_left (reverse <$> space_sequences) (reverse l)).

Definition trim_space (s : string) : string := of_list (trim_space_list (to_list s)).

Definition in_range (lo hi c : ascii) : bool :=
  (N_of_ascii lo <=? N_of_ascii c)%N && (N_of_ascii c <=? N_of_ascii hi)%N.

Definition is_digit (c : ascii) : bool := in_range "0" "9" c.

Definition is_lower (c : ascii) : bool := in_range "a" "z" c.

Definition is_upper (c : ascii) : bool := in_range "A" "Z" c.

(** An ASCII letter or digit. *)
Definition is_alnum (c : ascii) : bool := is_lower c || is_upper c || is_digit c.

(** Printable and not a blank. *)
Definition is_graphic (c : ascii) : bool := in_range "!" "~" c.

(** [strings.ToLower] of an ASCII byte. *)
Definition lower_byte (c : ascii) : ascii :=
  if is_upper c then ascii_of_N (N_of_ascii c + 32) else c.

Definition to_lower (s : string) : string := of_list (lower_byte <$> to_list s).

(** [strings.Join] *)
Fixpoint join (sep : string) (parts : list string) : string :=
  match parts with
  | [] => ""
  | [part] => part
  | part :: parts => part +:+ sep +:+ join sep parts
  end.

(** [%d] and [strconv.Itoa] *)
Definition itoa (z : Z) : string := pretty z.

(** [s[:n]] *)
Definition take (n : nat) (s : string) : string := of_list (list.take n (to_list s)).

(** *** Lemmas *)

Lemma of_to_list s : of_list (to_list s) = s.
Proof. induction s; simpl; congruence. Qed.

Lemma to_of_list l : to_list (of_list l) = l.
Proof. induction l; simpl; congruence. Qed.

Lemma to_list_inj s1 s2 : to_list s1 = to_list s2 → s1 = s2.
Proof. intros H. by rewrite <-(of_to_list s1), H, of_to_list. Qed.

Lemma to_list_app s1 s2 : to_list (s1 +:+ s2) = to_list s1 ++ to_list s2.
Proof. induction s1 as [|c s1 IH]; [done|]. simpl. by rewrite <-IH. Qed.

Lemma cut_prefix_app p s : cut_prefix p (p +:+ s) = Some s.
Proof.
  induction p as [|a p IH]; [done|]. change (String a p +:+ s) with (String a (p +:+ s)). simpl.
  by rewrite decide_True.
Qed.

Lemma cut_prefix_Some p s t : cut_prefix p s = Some t ↔ s = p +:+ t.
Proof.
  split; [|intros ->; apply cut_prefix_app].
  revert s; induction p as [|a p IH]; intros s; simpl; [by intros [= ->]|].
  destruct s as [|b s]; [done|]. case_decide; [subst|done]. intros ->%IH. done.
Qed.

Lemma cut_Some sep s a b :
  cut sep s = (a, Some b) ↔ s = a +:+ String sep b ∧ sep ∉ to_list a.
Proof.
  revert a; induction s as [|c s IH]; intros a; simpl.
  { split; [done|]. intros [H _]. by destruct a. }
  case_decide as Hc.
  - subst. split.
    + intros [= <- ->]. split; [done|]. apply not_elem_of_nil.
    + intros [H Hn]. destruct a as [|c' a]; injection H as ->; [by subst|].
      subst. simpl in Hn. set_solver.
  - destruct (cut sep s) as [x y] eqn:Hcut. split.
    + intros [= <- ->]. destruct (IH x) as [[-> Hn] _]; [done|].
      split; [done|]. simpl. set_solver.
    + intros [H Hn]. destruct a as [|c' a]; injection H as <- ->; [done|].
      simpl in Hn. assert ((x, y) = (a, Some b)) as [= -> ->]; [|done].
      apply IH. split; [done|set_solver].
Qed.

Lemma to_list_take n s : to_list (take n s) = list.take n (to_list s).
Proof. apply to_of_list. Qed.

(** A byte no space starts with is not trimmed. *)
Lemma cut_one_of_None seqs c l :
  Forall (λ p, ∃ a q, p = a :: q ∧ a ≠ c) seqs → cut_one_of seqs (c :: l) = None.
Proof.
  induction 1 as [|p seqs (a & q & -> & Ha) _ IH]; simpl; [done|]. by rewrite decide_False.
Qed.

Lemma trim_left_id seqs c l :
  Forall (λ p, ∃ a q, p = a :: q ∧ a ≠ c) seqs → trim_left seqs (c :: l) = c :: l.
Proof. intros H. unfold trim_left. simpl. by rewrite cut_one_of_None. Qed.

Lemma first_bytes (P : ascii → bool) seqs c :
  P c = true → forallb (λ p, match p with a :: _ => negb (P a) | [] => false end) seqs = true →
  Forall (λ p, ∃ a q, p = a :: q ∧ a ≠ c) seqs.
Proof.
  intros Hc Hs. apply Forall_forall. intros p Hp. rewrite forallb_forall in Hs.
  specialize (Hs p (proj1 (list_elem_of_In _ _) Hp)). destruct p as [|a q]; [done|].
  exists a, q. split; [done|]. intros ->. by rewrite Hc in Hs.
Qed.

Lemma space_first_byte c :
  is_graphic c = true →
  Forall (λ p, ∃ a q, p = a :: q ∧ a ≠ c) space_sequences ∧
  Forall (λ p, ∃ a q, p = a :: q ∧ a ≠ c) (reverse <$> space_sequences).
Proof. intros Hc. split; apply (first_bytes is_graphic); first [exact Hc|vm_compute; reflexivity]. Qed.

(** A string with no blank at either end has no space to trim. *)
Lemma trim_space_graphic s c d :
  head (to_list s) = Some c → last (to_list s) = Some d →
  is_graphic c = true → is_graphic d = true → trim_space s = s.
Proof.
  intros Hh Hl Hc Hd. apply to_list_inj. unfold trim_space, trim_space_list. rewrite to_of_list.
  destruct (to_list s) as [|c' l]; [done|]. injection Hh as ->.
  rewrite trim_left_id by by apply space_first_byte.
  rewrite <-head_reverse in Hl. destruct (reverse (c :: l)) as [|d' r] eqn:Hr; [done|].
  injection Hl as ->. rewrite trim_left_id by by apply space_first_byte.
  by rewrite <-Hr, reverse_involutive.
Qed.

Lemma alnum_graphic c : is_alnum c = true → is_graphic c = true.
Proof. by destruct c as [[] [] [] [] [] [] [] []]. Qed.

Lemma trim_space_id s c d :
  head (to_list s) = Some c → last (to_list s) = Some d →
  is_alnum c = true → is_alnum d = true → trim_space s = s.
Proof. eauto using trim_space_graphic, alnum_graphic. Qed.

Lemma cut_suffix_app s suf : cut_suffix suf (s +:+ suf) = Some s.
Proof.
  induction s as [|c s IH].
  - destruct suf; [done|]. simpl. by rewrite decide_True.
  - simpl. rewrite decide_False; [by rewrite IH|].
    intros E%(f_equal (length ∘ to_list)). simpl in E. rewrite to_list_app, length_app in E. lia.
Qed.

Lemma cut_suffix_Some suf s t : cut_suffix suf s = Some t ↔ s = t +:+ suf.
Proof.
  split; [|intros ->; apply cut_suffix_app]. revert t. induction s as [|c s IH]; intros t; cbn [cut_suffix].
  - case_decide; [by intros [= <-]|done].
  - case_decide; [by intros [= <-]|]. destruct (cut_suffix suf s) as [u|]; [|done]. intros [= <-]. cbn. by rewrite (IH u).
Qed.

Lemma split_list_no_sep sep l : sep ∉ l → split_list sep l = [l].
Proof.
  induction l as [|c l IH]; simpl; [done|]. intros Hn.
  rewrite decide_False by set_solver. by rewrite IH by set_solver.
Qed.

Lemma split_list_app sep a b :
  sep ∉ a → split_list sep (a ++ sep :: b) = a :: split_list sep b.
Proof.
  induction a as [|c a IH]; simpl; intros Hn.
  - by rewrite decide_True.
  - rewrite decide_False by set_solver. by rewrite IH by set_solver.
Qed.

(** The parts of a split, joined again. *)
Lemma split_list_join sep l :
  ∃ part parts, split_list sep l = part :: parts ∧
    l = part ++ concat (cons sep <$> parts) ∧ Forall (λ p, sep ∉ p) (part :: parts).
Proof.
  induction l as [|c l (part & parts & Hs & Hl & Hf)]; simpl.
  - exists [], []. split_and!; [done..|]. repeat constructor. apply not_elem_of_nil.
  - case_decide as Hc.
    + subst c. exists [], (part :: parts). rewrite Hs. csimpl. rewrite <-Hl.
      split_and!; [done..|]. constructor; [apply not_elem_of_nil|done].
    + rewrite Hs. exists (c :: part), parts. csimpl. rewrite <-Hl.
      split_and!; [done..|]. apply Forall_cons in Hf as [Hp Hf].
      constructor; [set_solver|done].
Qed.

(** A number in at least [n] decimal digits. *)
Definition padded (n : nat) (z : Z) : string :=
  let digits := itoa z in of_list (repeat "0"%char (n - len digits)) +:+ digits.

End Str.

(** ** Calendar time

    A [time.Time] is a number of nanoseconds since the zero time, which is the
    start of the year 1 in UTC. *)

(** The year, month and day that is so many days after the zero time. Years are
    counted from March, in eras of 400 years. *)
Definition civil (days : Z) : Z * Z * Z :=
  (let z := days + 306 in
   let era := z / 146097 in
   let doe := z `mod` 146097 in
   let yoe := (doe - doe / 1460 + doe / 36524 - doe / 146096) / 365 in
   let doy := doe - (365 * yoe + yoe / 4 - yoe / 100) in
   let mp := (5 * doy + 2) / 153 in
   let d := doy - (153 * mp + 2) / 5 + 1 in
   let m := if mp <? 10 then mp + 3 else mp - 9 in
   (yoe + era * 400 + (if m <=? 2 then 1 else 0), m, d))%Z.

(** [strings.ToLower(t.UTC().Format("20060102t150405z"))] *)
Definition time_stamp (t : Z) : string :=
  let secs := (t / second)%Z in
  let '(y, m, d) := civil (secs / 86400) in
  let in_day := (secs `mod` 86400)%Z in
  Str.padded 4 y +:+ Str.padded 2 m +:+ Str.padded 2 d +:+ "t" +:+
  Str.padded 2 (in_day / 3600) +:+ Str.padded 2 ((in_day `mod` 3600) / 60) +:+ Str.padded 2 (in_day `mod` 60) +:+ "z".

(** ** Integers *)

Lemma int64_wrap_id z : is_int64 z → int64_wrap z = z.
Proof. unfold is_int64, int64_wrap. intros H. rewrite Z.mod_small by lia. lia. Qed.

Lemma int64_wrap_range z : is_int64 (int64_wrap z).
Proof. unfold is_int64, int64_wrap. pose proof (Z.mod_pos_bound (z + 2 ^ 63) (2 ^ 64)). lia. Qed.

(** ** Boolean conditions *)

(** Turns boolean hypotheses, which is what the conditions of the code are,
    into propositions. *)
Ltac simpl_bools :=
  repeat match goal with
  | H : (_ || _) = false |- _ => apply orb_false_iff in H as []
  | H : (_ && _) = true |- _ => apply andb_true_iff in H as []
  | H : (_ || _) = true |- _ => apply orb_true_iff in H
  | H : (_ && _) = false |- _ => apply andb_false_iff in H
  | H : negb _ = false |- _ => apply negb_false_iff in H
  | H : negb _ = true |- _ => apply negb_true_iff in H
  | H : (_ =? _) = true |- _ => apply Nat.eqb_eq in H
  | H : (_ =? _) = false |- _ => apply Nat.eqb_neq in H
  | H : (_ <? _) = true |- _ => apply Nat.ltb_lt in H
  | H : (_ <? _) = false |- _ => apply Nat.ltb_ge in H
  | H : (_ <=? _) = true |- _ => apply Nat.leb_le in H
  | H : (_ <=? _) = false |- _ => apply Nat.leb_gt in H
  | H : (_ =? _)%Z = true |- _ => apply Z.eqb_eq in H
  | H : (_ =? _)%Z = false |- _ => apply Z.eqb_neq in H
  | H : (_ <? _)%Z = true |- _ => apply Z.ltb_lt in H
  | H : (_ <? _)%Z = false |- _ => apply Z.ltb_ge in H
  | H : (_ <=? _)%Z = true |- _ => apply Z.leb_le in H
  | H : (_ <=? _)%Z = false |- _ => apply Z.leb_gt in H
  | H : bool_decide _ = true |- _ => apply bool_decide_eq_true in H
  | H : bool_decide _ = false |- _ => apply bool_decide_eq_false in H
  end.

(** ** Sorted maps *)

(** [slices.Sorted(maps.Keys(m))]. *)
Definition sorted_keys {A} (m : gmap string A) : list string :=
  merge_sort String.le (elements (dom m)).

Lemma elem_of_sorted_keys {A} (m : gmap string A) n : n ∈ sorted_keys m ↔ is_Some (m !! n).
Proof. unfold sorted_keys. by rewrite merge_sort_Permutation, elem_of_elements, elem_of_dom. Qed.

(** The values of a map in the order of their keys, which is how the store
    lists its definitions. *)
Definition sorted_values {A} (m : gmap string A) : list A :=
  omap (λ k, m !! k) (sorted_keys m).
