(* ===== verification/Paths.v ===== *)
(** * Paths

    What the repository uses of [path] and [path/filepath], on a system whose
    separator is a slash: cleaning, joining and taking apart paths, and which
    of them are local. *)

From S2P Require Import Prelude.

Module Path.

(** An element that stands for itself: a name a directory may have an entry
    under. *)
Definition is_name (e : string) : Prop := e ≠ "" ∧ e ≠ "." ∧ e ≠ ".." ∧ ("/"%char ∉ Str.to_list e).

#[global] Instance is_name_dec e : Decision (is_name e).
Proof. unfold is_name. apply _. Defined.

Definition elements (path : string) : list string := Str.split "/" path.

Definition IsAbs (path : string) : bool := Str.has_prefix "/" path.

(** The elements of a clean path: [out] is what was kept so far, the last
    first. *)
Fixpoint clean (rooted : bool) (out todo : list string) : list string :=
  match todo with
  | [] => reverse out
  | e :: todo =>
      if bool_decide (e = "") || bool_decide (e = ".") then clean rooted out todo
      else if bool_decide (e = "..") then
        match out with
        | [] => clean rooted (if rooted then [] else [".."]) todo
        | ".." :: _ => clean rooted (".." :: out) todo
        | _ :: out => clean rooted out todo
        end
      else clean rooted (e :: out) todo
  end.

(** [Clean] of both packages. *)
Definition Clean (path : string) : string :=
  let out := Str.join "/" (clean (IsAbs path) [] (elements path)) in
  if IsAbs path then "/" +:+ out else if bool_decide (out = "") then "." else out.

(** [path.Join] *)
Definition Join (elems : list string) : string :=
  match filter (λ e, e ≠ "") elems with
  | [] => ""
  | elems => Clean (Str.join "/" elems)
  end.

Fixpoint drop_slashes (l : list ascii) : list ascii :=
  match l with
  | [] => []
  | c :: l' => if bool_decide (c = "/"%char) then drop_slashes l' else l
  end.

(** [Base]: the last element, without the slashes that follow it. *)
Definition Base (path : string) : string :=
  if bool_decide (path = "") then "."
  else
    let stripped := Str.of_list (reverse (drop_slashes (reverse (Str.to_list path)))) in
    if bool_decide (stripped = "") then "/" else List.last (elements stripped) "".

(** [filepath.Dir]: all but what follows the last slash. *)
Definition Dir (path : string) : string :=
  match elements path with
  | [] | [_] => "."
  | es => Clean (Str.join "/" (removelast es) +:+ "/")
  end.

(** [filepath.IsLocal] *)
Definition IsLocal (path : string) : bool :=
  if IsAbs path || bool_decide (path = "") then false
  else
    let dots := existsb (λ e, bool_decide (e = ".") || bool_decide (e = "..")) (elements path) in
    let path := if dots then Clean path else path in
    negb (bool_decide (path = "..") || Str.has_prefix "../" path).

(** ** Paths of names *)

Lemma elements_join es : es ≠ [] → Forall is_name es → elements (Str.join "/" es) = es.
Proof.
  intros Hne Hes. unfold elements, Str.split. induction Hes as [|e es (_ & _ & _ & He) Hes IH]; [done|]. destruct es as [|e' es].
  - simpl. by rewrite Str.split_list_no_sep, fmap_cons, Str.of_to_list.
  - change (Str.join "/" (e :: e' :: es)) with (e +:+ "/" +:+ Str.join "/" (e' :: es)).
    rewrite !Str.to_list_app. change (Str.to_list "/") with ["/"%char]. cbn [app]. rewrite Str.split_list_app by done.
    rewrite fmap_cons, Str.of_to_list. f_equal. by apply IH.
Qed.

Lemma clean_names rooted out es : Forall is_name es → clean rooted out es = reverse out ++ es.
Proof.
  intros Hes. revert out. induction Hes as [|e es (H1 & H2 & H3 & _) _ IH]; intros out; simpl; [by rewrite app_nil_r|].
  rewrite !bool_decide_false by done. simpl. rewrite IH, reverse_cons, <-app_assoc. done.
Qed.

Lemma IsAbs_name e s : is_name e → IsAbs (e +:+ s) = false.
Proof.
  intros (H1 & _ & _ & H4). unfold IsAbs, Str.has_prefix. destruct e as [|c e]; [done|]. simpl in *.
  case_decide as E; [|done]. set_solver.
Qed.

Lemma string_app_nil s : s +:+ "" = s.
Proof. apply Str.to_list_inj. by rewrite Str.to_list_app, app_nil_r. Qed.

Lemma string_app_assoc s1 s2 s3 : s1 +:+ (s2 +:+ s3) = (s1 +:+ s2) +:+ s3.
Proof. apply Str.to_list_inj. by rewrite !Str.to_list_app, app_assoc. Qed.

Lemma join_cons sep e es : Str.join sep (e :: es) = e +:+ Str.join sep ("" :: es).
Proof. destruct es; simpl; [by rewrite string_app_nil|done]. Qed.

Lemma IsAbs_join es : es ≠ [] → Forall is_name es → IsAbs (Str.join "/" es) = false.
Proof. destruct es as [|e es]; [done|]. intros _ [He _]%Forall_cons. rewrite join_cons. by apply IsAbs_name. Qed.

Lemma join_nonempty es : es ≠ [] → Forall is_name es → Str.join "/" es ≠ "".
Proof.
  destruct es as [|e es]; [done|]. intros _ [(He & _) _]%Forall_cons. rewrite join_cons. by destruct e.
Qed.

(** A path of names is clean, with or without a slash at its end. *)
Lemma Clean_names es : es ≠ [] → Forall is_name es → Clean (Str.join "/" es) = Str.join "/" es.
Proof.
  intros Hne Hes. unfold Clean. rewrite IsAbs_join, elements_join, clean_names by done. simpl.
  by rewrite bool_decide_false by by apply join_nonempty.
Qed.

Lemma elements_app_slash es : es ≠ [] → Forall is_name es → elements (Str.join "/" es +:+ "/") = es ++ [""].
Proof.
  intros Hne Hes. unfold elements, Str.split. induction Hes as [|e es (_ & _ & _ & He) Hes IH]; [done|]. destruct es as [|e' es].
  - cbn [Str.join]. rewrite Str.to_list_app. change (Str.to_list "/") with ["/"%char].
    rewrite Str.split_list_app by done. by rewrite fmap_cons, Str.of_to_list.
  - change (Str.join "/" (e :: e' :: es)) with (e +:+ "/" +:+ Str.join "/" (e' :: es)).
    rewrite <-!string_app_assoc, Str.to_list_app, Str.to_list_app. change (Str.to_list "/") with ["/"%char]. cbn [app].
    rewrite Str.split_list_app by done. rewrite fmap_cons, Str.of_to_list. cbn [app]. f_equal. by apply IH.
Qed.

Lemma clean_names_end rooted out es : Forall is_name es → clean rooted out (es ++ [""]) = reverse out ++ es.
Proof.
  intros Hes. revert out. induction Hes as [|e es (H1 & H2 & H3 & _) _ IH]; intros out; simpl; [by rewrite app_nil_r|].
  rewrite !bool_decide_false by done. simpl. rewrite IH, reverse_cons, <-app_assoc. done.
Qed.

Lemma Clean_names_slash es : es ≠ [] → Forall is_name es → Clean (Str.join "/" es +:+ "/") = Str.join "/" es.
Proof.
  intros Hne Hes. unfold Clean. rewrite elements_app_slash by done.
  assert (IsAbs (Str.join "/" es +:+ "/") = false) as ->.
  { destruct es as [|e es]; [done|]. apply Forall_cons in Hes as [He _]. rewrite join_cons, <-string_app_assoc. by apply IsAbs_name. }
  rewrite clean_names_end by done. simpl. by rewrite bool_decide_false by by apply join_nonempty.
Qed.

Lemma IsLocal_names es : es ≠ [] → Forall is_name es → IsLocal (Str.join "/" es) = true.
Proof.
  intros Hne Hes. unfold IsLocal. rewrite IsAbs_join, elements_join by done.
  rewrite bool_decide_false by by apply join_nonempty. simpl.
  assert (existsb (λ e, bool_decide (e = ".") || bool_decide (e = "..")) es = false) as ->.
  { rewrite <-not_true_iff_false, existsb_exists. intros (e & He & H). apply list_elem_of_In in He.
    rewrite Forall_forall in Hes. destruct (Hes e He) as (_ & ? & ? & _). by rewrite !bool_decide_false in H. }
  apply negb_true_iff, orb_false_iff. split.
  - apply bool_decide_false. intros E. apply (f_equal elements) in E. rewrite elements_join in E by done.
    change (elements "..") with [".."] in E. subst es. apply Forall_cons in Hes as [(_ & _ & ? & _) _]. done.
  - destruct es as [|e es]; [done|]. apply Forall_cons in Hes as [(He1 & He2 & He3 & He4) _]. rewrite join_cons.
    unfold Str.has_prefix. destruct (Str.cut_prefix "../" _) as [t|] eqn:E; [|done].
    apply Str.cut_prefix_Some in E. destruct e as [|c1 [|c2 [|c3 e]]]; simpl in *; simplify_eq.
    set_solver.
Qed.

(** The first element of a path of names. *)
Lemma cut_first e es : is_name e → Forall is_name es → (Str.cut "/" (Str.join "/" (e :: es))).1 = e.
Proof.
  intros (_ & _ & _ & He) _. destruct es as [|e' es].
  - simpl. clear -He. induction e as [|c e IH]; [done|]. simpl in *. rewrite decide_False by set_solver.
    destruct (Str.cut "/" e) as [x y]. simpl in *. by rewrite IH by set_solver.
  - change (Str.join "/" (e :: e' :: es)) with (e +:+ "/" +:+ Str.join "/" (e' :: es)).
    by rewrite (proj2 (Str.cut_Some "/" _ e (Str.join "/" (e' :: es)))).
Qed.

Lemma Join_names e es : is_name e → Forall is_name es → Join [e; Str.join "/" es] = Str.join "/" (e :: es).
Proof.
  intros He Hes. pose proof He as (Hne & _). unfold Join. rewrite filter_cons_True by done. destruct es as [|e' es].
  - apply (Clean_names [e]); [done|by constructor].
  - rewrite filter_cons_True by by apply join_nonempty. rewrite filter_nil.
    change (Str.join "/" [e; Str.join "/" (e' :: es)]) with (Str.join "/" (e :: e' :: es)).
    apply Clean_names; [done|by constructor].
Qed.

Lemma drop_slashes_none l c : last l = Some c → c ≠ "/"%char → drop_slashes (reverse l) = reverse l.
Proof.
  rewrite <-head_reverse. destruct (reverse l) as [|d r]; [done|]. intros [= ->] Hc. simpl. by rewrite bool_decide_false.
Qed.

Lemma last_name e : is_name e → ∃ c, last (Str.to_list e) = Some c ∧ c ≠ "/"%char.
Proof.
  intros (Hne & _ & _ & He). destruct (last (Str.to_list e)) as [c|] eqn:E.
  - exists c. split; [done|]. intros ->. apply last_Some_elem_of in E. done.
  - apply last_None in E. apply (f_equal Str.of_list) in E. by rewrite Str.of_to_list in E.
Qed.

End Path.
