(* ===== verification/Errdefs.v ===== *)
(** * Errors

    The error values of [internal/errdefs], and the gRPC status each becomes
    ([internal/grpcserver/status.go]).

    A Go error is a tree: [fmt.Errorf] with [%w] wraps one, [errors.Join]
    holds several, and the [classified] type of [errdefs] adds its class.
    [errors.Is] searches the tree. An error built from a format string is
    identified by that string: the arguments formatted into a message are not
    kept, since no code reads a message back. *)

From S2P Require Import Prelude.

(** Error values held in package variables, compared by identity. The first
    eight are the classes of [errdefs]; the others are the standard
    library's, and those other packages declare and test for. *)
Inductive sentinel :=
  | ErrNotFound
  | ErrExists
  | ErrInvalidState
  | ErrInvalidArgument
  | ErrResourceExhausted
  | ErrUnavailable
  | ErrUnauthenticated
  | ErrPermissionDenied
  | ErrUnsupported
  | Canceled
  | DeadlineExceeded
  | ErrNotExist
  | ErrInvalidToken
  | ErrInvalidReference
  | ErrFellBehind
  | ErrNoAvailableIPs
  | ErrRestoringMemory.

#[global] Instance sentinel_eq_dec : EqDecision sentinel.
Proof. solve_decision. Defined.

(** [codes.Code] of gRPC. *)
Inductive Code :=
  | CodeOK
  | CodeCanceled
  | CodeUnknown
  | CodeInvalidArgument
  | CodeDeadlineExceeded
  | CodeNotFound
  | CodeAlreadyExists
  | CodePermissionDenied
  | CodeResourceExhausted
  | CodeFailedPrecondition
  | CodeAborted
  | CodeOutOfRange
  | CodeUnimplemented
  | CodeInternal
  | CodeUnavailable
  | CodeDataLoss
  | CodeUnauthenticated.

#[global] Instance Code_eq_dec : EqDecision Code.
Proof. solve_decision. Defined.

(** An error value. [Classified] is [errdefs.classified]; [Errorf] is
    [fmt.Errorf] with one [%w]; [New] is an error that wraps nothing;
    [GRPCStatus] is one a gRPC call returned. *)
Inductive error :=
  | Sentinel (s : sentinel)
  | New (message : string)
  | Errorf (format : string) (wrapped : error)
  | Classified (class : sentinel) (err : error)
  | Join (first second : error)
  | GRPCStatus (code : Code) (message : string).

#[global] Instance error_eq_dec : EqDecision error.
Proof. solve_decision. Defined.

(** [errors.Is]: a search of the tree, following [classified.Unwrap] to both
    the wrapped error and the class. *)
Fixpoint Is (err : error) (target : sentinel) : bool :=
  match err with
  | Sentinel s => bool_decide (s = target)
  | New _ => false
  | Errorf _ wrapped => Is wrapped target
  | Classified class err => Is err target || bool_decide (class = target)
  | Join first second => Is first target || Is second target
  | GRPCStatus _ _ => false
  end.

(** [errors.Join], of the errors so far and one more. *)
Definition joined (errs : option error) (e : error) : option error :=
  Some (if errs is Some errs then Join errs e else e).

Definition classify (class : sentinel) (format : string) : error :=
  Classified class (New format).

(** [classify] with a format that wraps an error with [%w]. *)
Definition classifyWrapped (class : sentinel) (format : string) (wrapped : error) : error :=
  Classified class (Errorf format wrapped).

Definition NotFound (format : string) : error := classify ErrNotFound format.

Definition Exists (format : string) : error := classify ErrExists format.

Definition InvalidState (format : string) : error := classify ErrInvalidState format.

Definition InvalidArgument (format : string) : error := classify ErrInvalidArgument format.

Definition ResourceExhausted (format : string) : error := classify ErrResourceExhausted format.

Definition Unavailable (format : string) : error := classify ErrUnavailable format.

Definition Unauthenticated (format : string) : error := classify ErrUnauthenticated format.

Definition PermissionDenied (format : string) : error := classify ErrPermissionDenied format.

(** The class and status code pairs of [status.go], in their order. *)
Definition classes : list (sentinel * Code) :=
  [ (ErrNotFound, CodeNotFound);
    (ErrExists, CodeAlreadyExists);
    (ErrInvalidState, CodeFailedPrecondition);
    (ErrInvalidArgument, CodeInvalidArgument);
    (ErrResourceExhausted, CodeResourceExhausted);
    (ErrUnavailable, CodeUnavailable);
    (ErrUnauthenticated, CodeUnauthenticated);
    (ErrPermissionDenied, CodePermissionDenied);
    (ErrUnsupported, CodeUnimplemented);
    (Canceled, CodeCanceled);
    (DeadlineExceeded, CodeDeadlineExceeded) ].

(** The loop of [toStatus] over [classes]. *)
Fixpoint firstClass (cs : list (sentinel * Code)) (err : error) : option Code :=
  match cs with
  | [] => None
  | (class, code) :: cs => if Is err class then Some code else firstClass cs err
  end.

(** ** Results

    A fallible Go function returns a value and an error, one of which is
    meant: [Ok] or [Err]. *)
Inductive result (A : Type) :=
  | Ok (a : A)
  | Err (e : error).

Arguments Ok {A} a.
Arguments Err {A} e.

#[global] Instance result_ret : MRet result := λ A a, Ok a.

#[global] Instance result_bind : MBind result := λ A B k r,
  match r with Ok a => k a | Err e => Err e end.

#[global] Instance result_fmap : FMap result := λ A B f r,
  match r with Ok a => Ok (f a) | Err e => Err e end.

Definition is_ok {A} (r : result A) : bool :=
  match r with Ok _ => true | Err _ => false end.

(** [if cond { return err }]. *)
Definition refuse_if (b : bool) (e : error) : result unit :=
  if b then Err e else Ok tt.

(** [fmt.Errorf("...: %w", err)] of what a call returned. *)
Definition wrap_err {A} (f : error → error) (r : result A) : result A :=
  match r with Ok a => Ok a | Err e => Err (f e) end.

(** Running a check on each element, stopping at the first that fails. *)
Fixpoint for_each {A} (f : A → result unit) (l : list A) : result unit :=
  match l with
  | [] => Ok tt
  | x :: l => match f x with Ok _ => for_each f l | Err e => Err e end
  end.

Section ToStatus.

(** [status.FromError] of gRPC: the code of the status [err] carries, if it
    carries one. *)
Context (FromError : error → option Code).

(** The status an error is sent as; [None] is the nil error, which is also
    what [s.Err()] is for a status whose code is [OK]. *)
Definition toStatus (err : option error) : option Code :=
  match err with
  | None => None
  | Some err =>
      match firstClass classes err with
      | Some code => Some code
      | None =>
          match FromError err with
          | Some CodeOK => None
          | Some code => Some code
          | None => Some CodeInternal
          end
      end
  end.

End ToStatus.

(** ** Lemmas on results and classes *)

Lemma bind_Ok {A B} (k : A → result B) (r : result A) b :
  (r ≫= k) = Ok b ↔ ∃ a, r = Ok a ∧ k a = Ok b.
Proof. destruct r; naive_solver. Qed.

Lemma refuse_if_Ok b e u : refuse_if b e = Ok u ↔ b = false.
Proof. destruct b, u; naive_solver. Qed.

Lemma wrap_err_Ok {A} f (r : result A) a : wrap_err f r = Ok a ↔ r = Ok a.
Proof. destruct r; naive_solver. Qed.

Lemma for_each_Ok {A} (f : A → result unit) l u :
  for_each f l = Ok u ↔ ∀ x, x ∈ l → f x = Ok tt.
Proof.
  destruct u. induction l as [|x l IH]; simpl.
  - split; [intros _ x Hx; inversion Hx | done].
  - destruct (f x) as [[]|e] eqn:Hf; rewrite ?IH.
    + split; [intros H y [->|Hy]%elem_of_cons; auto | intros H y Hy; apply H; by right].
    + split; [done | intros H; specialize (H x ltac:(left)); congruence].
Qed.

(** An [if cond { return err }] that was passed. *)
Lemma result_if_Ok {A} (b : bool) e (k : result A) a :
  (if b then Err e else k) = Ok a ↔ b = false ∧ k = Ok a.
Proof. destruct b; naive_solver. Qed.

Create Rewrite HintDb errdefs.
#[export] Hint Rewrite @bind_Ok @refuse_if_Ok @wrap_err_Ok @for_each_Ok @result_if_Ok : errdefs.

(** Turns "this returned [Ok]" hypotheses into what each check established. *)
Ltac inv_ok :=
  repeat (progress autorewrite with errdefs in * ||
          match goal with
          | H : ∃ _, _ |- _ => destruct H
          | H : _ ∧ _ |- _ => destruct H
          | H : Ok _ = Ok _ |- _ => injection H as H
          | H : Err _ = Ok _ |- _ => discriminate H
          | H : Ok _ = Err _ |- _ => discriminate H
          | u : unit |- _ => destruct u
          | H : tt = tt |- _ => clear H
          end); subst.

Lemma Is_classify class format target :
  Is (classify class format) target = bool_decide (class = target).
Proof. done. Qed.

Lemma firstClass_None cs err :
  firstClass cs err = None ↔ ∀ p, p ∈ cs → Is err p.1 = false.
Proof.
  induction cs as [|[class code] cs IH]; simpl.
  - split; [intros _ p Hp; inversion Hp | done].
  - destruct (Is err class) eqn:Hi.
    + split; [done | intros H; specialize (H (class, code) ltac:(left)); simpl in H; congruence].
    + rewrite IH. split; [intros H p [->|Hp]%elem_of_cons; auto | intros H p Hp; apply H; by right].
Qed.

Lemma firstClass_Some cs err code :
  firstClass cs err = Some code ↔
  ∃ i class, cs !! i = Some (class, code) ∧ Is err class = true ∧
    ∀ j p, j < i → cs !! j = Some p → Is err p.1 = false.
Proof.
  induction cs as [|[class code'] cs IH]; simpl; [naive_solver|].
  destruct (Is err class) eqn:Hi; [|rewrite IH]; split.
  - intros [= ->]. exists 0, class. split_and!; [done..|lia].
  - intros ([|i] & class' & Hl & Hc & Hbefore); simpl in *; [congruence|].
    specialize (Hbefore 0 (class, code') ltac:(lia) eq_refl). simpl in Hbefore. congruence.
  - intros (i & class' & Hl & Hc & Hbefore). exists (S i), class'. split_and!; [done..|].
    intros [|j] p Hj Hp; simpl in Hp; [by simplify_eq|]. apply (Hbefore j); [lia|done].
  - intros ([|i] & class' & Hl & Hc & Hbefore); simpl in *; [congruence|].
    exists i, class'. split_and!; [done..|]. intros j p Hj. apply (Hbefore (S j)). lia.
Qed.

(** Wrapping with [%w] keeps every class. *)
Lemma firstClass_Errorf cs format err :
  firstClass cs (Errorf format err) = firstClass cs err.
Proof. induction cs as [|[class code] cs IH]; simpl; [done|]. by rewrite IH. Qed.

Section ToStatusProperties.

Context (FromError : error → option Code).

(** The status code an error is sent with is the code of the first
    class, in the order of [classes], that it is in; an error in no class is
    sent with the code of the status it carries, or else as [Internal], and
    is a success only if that status says so. *)
Theorem toStatus_spec err code :
  toStatus FromError (Some err) = Some code ↔
  (∃ i class, classes !! i = Some (class, code) ∧ Is err class = true ∧
     ∀ j p, j < i → classes !! j = Some p → Is err p.1 = false) ∨
  ((∀ p, p ∈ classes → Is err p.1 = false) ∧
   (FromError err = Some code ∧ code ≠ CodeOK ∨ FromError err = None ∧ code = CodeInternal)).
Proof.
  rewrite <-firstClass_Some, <-firstClass_None. unfold toStatus.
  destruct (firstClass classes err) as [c|]; [naive_solver|].
  destruct (FromError err) as [[]|]; naive_solver.
Qed.

End ToStatusProperties.
