(* ===== verification/Archive.v ===== *)
(** * Copies as archives

    [internal/archive/archive.go]: a file or a directory is packed on one
    machine and unpacked on another, as [cp] would place it. A machine's files
    are a tree by their paths, with modes and modification times; the archive
    is its headers, each with what follows it. What the code uses of [os] and
    [os.Root] is modelled as it resolves paths and changes the tree: links are
    followed, permissions are those of the owner, and an entry that is made or
    removed is the last change of its directory. *)

From S2P Require Import Prelude Paths Errdefs.

Module Archive.
Open Scope Z_scope.

(** ** Files *)

Inductive node :=
  | File (content : string) (mode mtime : Z)
  | Dir (mode mtime : Z)
  | Link (target : string)
  | Special (mode mtime : Z).

Abbreviation FS := (gmap (list string) node).

Inductive errno := ENOENT | ENOTDIR | EEXIST | EACCES | ELOOP | EESCAPES.

#[global] Instance errno_eq_dec : EqDecision errno.
Proof. solve_decision. Defined.

Definition os_error (e : errno) : error :=
  New match e with
      | ENOENT => "no such file or directory"
      | ENOTDIR => "not a directory"
      | EEXIST => "file exists"
      | EACCES => "permission denied"
      | ELOOP => "too many levels of symbolic links"
      | EESCAPES => "path escapes from parent"
      end.

Definition is_dir (n : node) : bool := match n with Dir _ _ => true | _ => false end.

(** The bits of a mode that [Perm] keeps. *)
Definition Perm (mode : Z) : Z := Z.land mode 511.

(** Who copies, and where: whether permissions do not apply to them, what
    their umask takes off a new file's mode, the directory they are in, and
    the time. *)
Record User := mkUser { superuser : bool; umask : Z; cwd : list string; now : Z }.

Section User.

Context (user : User).

Definition readable (mode : Z) : bool := superuser user || Z.testbit mode 8.

Definition writable (mode : Z) : bool := superuser user || Z.testbit mode 7.

Definition searchable (mode : Z) : bool := superuser user || Z.testbit mode 6.

(** ** Resolving a path *)

(** From the directory [here] beneath [base], the elements of [todo] in turn,
    following no more than [links] links. [rooted] is resolution in an
    [os.Root], which does not leave its directory; [follow] is whether a link
    that is the last element is followed. *)
Fixpoint walk (fs : FS) (rooted : bool) (base : list string) (follow : bool) (links : nat) (here todo : list string)
  : errno + list string :=
  (fix go (here todo : list string) : errno + list string :=
    match todo with
    | [] => inr here
    | e :: rest =>
        if bool_decide (e = "") || bool_decide (e = ".") then go here rest
        else if bool_decide (e = "..") then
          if bool_decide (here = []) && rooted then inl EESCAPES else go (removelast here) rest
        else
          match fs !! (base ++ here) with
          | Some (Dir mode _) =>
              if negb (searchable mode) then inl EACCES
              else
                match fs !! (base ++ here ++ [e]) with
                | Some (Link target) =>
                    if bool_decide (rest = []) && negb follow then inr (here ++ [e])
                    else
                      match links with
                      | O => inl ELOOP
                      | S links =>
                          if Path.IsAbs target then
                            if rooted then inl EESCAPES else walk fs rooted base follow links [] (Path.elements target ++ rest)
                          else walk fs rooted base follow links here (Path.elements target ++ rest)
                      end
                | Some (Dir _ _) => go (here ++ [e]) rest
                | Some _ => if bool_decide (rest = []) then inr (here ++ [e]) else inl ENOTDIR
                | None => if bool_decide (rest = []) then inr (here ++ [e]) else inl ENOENT
                end
          | _ => inl ENOTDIR
          end
    end) here todo.

(** Where a path leads: links in it are followed, and [follow] says whether
    one that it ends in is. *)
Definition locate (fs : FS) (follow : bool) (path : string) : errno + list string :=
  walk fs false [] follow 40 (if Path.IsAbs path then [] else cwd user) (Path.elements path).

(** [filepath.EvalSymlinks] takes the steps itself, and follows more links. *)
Definition EvalSymlinks (fs : FS) (path : string) : errno + list string :=
  walk fs false [] true 255 (if Path.IsAbs path then [] else cwd user) (Path.elements path).

(** The same in the [os.Root] of the directory [root]. *)
Definition locateIn (fs : FS) (root : list string) (follow : bool) (rel : string) : errno + list string :=
  match walk fs true root follow 8 [] (Path.elements rel) with
  | inl e => inl e
  | inr here => inr (root ++ here)
  end.

(** What is there. *)
Definition lookup_at (fs : FS) (p : errno + list string) : errno + node :=
  match p with
  | inl e => inl e
  | inr p => match fs !! p with Some n => inr n | None => inl ENOENT end
  end.

Definition Stat (fs : FS) (path : string) : errno + node := lookup_at fs (locate fs true path).

Definition LstatIn (fs : FS) (root : list string) (rel : string) : errno + node := lookup_at fs (locateIn fs root false rel).

(** ** Changing the tree *)

(** A program on the tree that returns early on an error. *)
Definition M (A : Type) : Type := FS → result A * FS.

#[global] Instance M_ret : MRet M := λ A a fs, (Ok a, fs).

#[global] Instance M_bind : MBind M := λ A B k p fs,
  match p fs with
  | (Ok a, fs) => k a fs
  | (Err e, fs) => (Err e, fs)
  end.

Definition throw {A} (e : error) : M A := λ fs, (Err e, fs).

Definition get : M FS := λ fs, (Ok fs, fs).

(** A change of the tree, or why there is none. *)
Definition change (f : FS → errno + FS) : M unit := λ fs,
  match f fs with
  | inl e => (Err (os_error e), fs)
  | inr fs => (Ok tt, fs)
  end.

(** The directory that [p] is an entry of may be changed, and is. *)
Definition in_parent (p : list string) (f : FS → FS) (fs : FS) : errno + FS :=
  match fs !! removelast p with
  | Some (Dir mode _) =>
      if writable mode && searchable mode then inr (f (<[removelast p := Dir mode (now user)]> fs)) else inl EACCES
  | _ => inl ENOTDIR
  end.

Definition create (p : list string) (n : node) (fs : FS) : errno + FS :=
  match fs !! p with
  | Some _ => inl EEXIST
  | None => in_parent p (<[p := n]>) fs
  end.

Definition unlink (p : list string) (fs : FS) : errno + FS :=
  match fs !! p with
  | None => inl ENOENT
  | Some _ => in_parent p (delete p) fs
  end.

(** A file's content, mode or time. *)
Definition alter_node (p : list string) (f : node → node) (fs : FS) : errno + FS :=
  match fs !! p with
  | None => inl ENOENT
  | Some n => inr (<[p := f n]> fs)
  end.

Definition set_mode (mode : Z) (n : node) : node :=
  match n with
  | File content _ mtime => File content mode mtime
  | Dir _ mtime => Dir mode mtime
  | Link target => Link target
  | Special _ mtime => Special mode mtime
  end.

Definition set_mtime (mtime : Z) (n : node) : node :=
  match n with
  | File content mode _ => File content mode mtime
  | Dir mode _ => Dir mode mtime
  | Link target => Link target
  | Special mode _ => Special mode mtime
  end.

(** An operation of an [os.Root] on the file at [rel]. *)
Definition in_root (root : list string) (follow : bool) (rel : string) (f : list string → FS → errno + FS) : M unit :=
  change (λ fs, match locateIn fs root follow rel with inl e => inl e | inr p => f p fs end).

(** What a new file's mode is of the one asked for. *)
Definition masked (mode : Z) : Z := Z.land mode (Z.lnot (umask user)).

Definition MkdirIn (root : list string) (rel : string) (mode : Z) : M unit :=
  in_root root false rel (λ p, create p (Dir (masked mode) (now user))).

(** [OpenFile] of a new file, with what is written to it before it is closed. *)
Definition CreateIn (root : list string) (rel : string) (mode : Z) (content : string) : M unit :=
  in_root root false rel (λ p, create p (File content (masked mode) (now user))).

Definition SymlinkIn (root : list string) (target rel : string) : M unit :=
  in_root root false rel (λ p, create p (Link target)).

Definition RemoveIn (root : list string) (rel : string) : M unit := in_root root false rel unlink.

Definition ChmodIn (root : list string) (rel : string) (mode : Z) : M unit :=
  in_root root true rel (λ p, alter_node p (set_mode mode)).

Definition ChtimesIn (root : list string) (rel : string) (mtime : Z) : M unit :=
  in_root root true rel (λ p, alter_node p (set_mtime mtime)).

(** ** Archives *)

Inductive Typeflag := TypeReg | TypeDir | TypeSymlink | TypeOther.

#[global] Instance Typeflag_eq_dec : EqDecision Typeflag.
Proof. solve_decision. Defined.

(** A header, and what is read after it: the content, or what there is of it
    before an error. *)
Record Header := mkHeader {
  Name : string;
  Type_ : Typeflag;
  Mode : Z;
  ModTime : Z;
  Linkname : string;
  Body : string;
  BodyError : option error;
}.

(** The headers that are read, and the error that ends them, if it is not the
    archive's end. *)
Record Stream := mkStream { headers : list Header; ends : option error }.

(** *** Packing *)

(** What [tar.Writer] keeps of a time: it is rounded to the second. *)
Definition round_second (t : Z) : Z := (t + second `div` 2) `div` second * second.

(** [addEntry]: the entry, none for what is skipped, or the error of reading
    what is to be packed. *)
Definition addEntry (name : string) (n : node) : result (option Header) :=
  match n with
  | File content mode mtime =>
      if readable mode then Ok (Some (mkHeader name TypeReg (Perm mode) (round_second mtime) "" content None))
      else Err (os_error EACCES)
  | Dir mode mtime => Ok (Some (mkHeader (name +:+ "/") TypeDir (Perm mode) (round_second mtime) "" "" None))
  | Link target => Ok (Some (mkHeader name TypeSymlink 511 0 target "" None))
  | Special _ _ => Ok None
  end.

(** [a] is at or before [b] in the order that [WalkDir] visits a tree in. *)
Fixpoint path_le (a b : list string) : Prop :=
  match a, b with
  | [], _ => True
  | _ :: _, [] => False
  | x :: a, y :: b => if decide (x = y) then path_le a b else String.le x y
  end.

#[global] Instance path_le_dec a b : Decision (path_le a b).
Proof. revert b. induction a as [|x a IH]; intros [|y b]; simpl; try apply _. destruct (decide (x = y)); apply _. Defined.

(** The path of [k] beneath [p]. *)
Fixpoint beneath (p k : list string) : option (list string) :=
  match p, k with
  | [], _ => Some k
  | x :: p, y :: k => if decide (x = y) then beneath p k else None
  | _ :: _, [] => None
  end.

(** What [WalkDir] visits of the directory [p]. *)
Definition WalkDir (fs : FS) (p : list string) : list (list string) :=
  merge_sort path_le (omap (beneath p) (elements (dom fs))).

(** The visit of one file: its entry, and that what comes next can be read. *)
Definition visit (fs : FS) (p : list string) (root : string) (rel : list string) : result (option Header) :=
  match fs !! (p ++ rel) with
  | None => Err (os_error ENOENT)
  | Some n =>
      match (if bool_decide (rel = []) then None else fs !! removelast (p ++ rel)) with
      | Some (Dir mode _) => refuse_if (negb (searchable mode)) (os_error EACCES)
      | _ => Ok tt
      end ;;
      h ← addEntry (Path.Join [root; if bool_decide (rel = []) then "." else Str.join "/" rel]) n;
      match n with
      | Dir mode _ => refuse_if (negb (readable mode)) (os_error EACCES)
      | _ => Ok tt
      end ;;
      Ok h
  end.

Fixpoint visit_all (fs : FS) (p : list string) (root : string) (rels : list (list string)) : result (list Header) :=
  match rels with
  | [] => Ok []
  | rel :: rels =>
      h ← visit fs p root rel;
      hs ← visit_all fs p root rels;
      Ok (option_list h ++ hs)
  end.

(** The archive, if all of it can be packed. *)
Definition Pack (fs : FS) (src : string) : result (list Header) :=
  let src := Path.Clean src in
  let root := Path.Base src in
  match EvalSymlinks fs src with
  | inl e => Err (os_error e)
  | inr p =>
      match fs !! p with
      | None => Err (os_error ENOENT)
      | Some (Dir _ _) => visit_all fs p root (WalkDir fs p)
      | Some n => h ← addEntry root n; Ok (option_list h)
      end
  end.

(** *** Unpacking *)

(** [strings.TrimPrefix] *)
Definition TrimPrefix (s prefix : string) : string := default s (Str.cut_prefix prefix s).

Definition topLevel (name : string) : string := (Str.cut "/" (TrimPrefix name "./")).1.

Definition entryPath (entry top to : string) : result string :=
  let clean := Path.Clean (TrimPrefix entry "./") in
  if negb (Path.IsLocal clean) || negb (bool_decide (topLevel clean = top))
  then Err (New "archive entry %q is outside %q")
  else Ok (if bool_decide (to = "") then clean else to +:+ TrimPrefix clean top).

Definition placement (fs : FS) (dest : string) (isDir : bool) : result (string * string) :=
  let beside :=
    let parent := Path.Dir dest in
    match Stat fs parent with
    | inr (Dir _ _) => Ok (parent, Path.Base dest)
    | _ => Err (New "%s is not a directory")
    end in
  match Stat fs dest with
  | inr (Dir _ _) => Ok (dest, "")
  | inr _ => if isDir then Err (New "cannot copy a directory over the file %s") else beside
  | inl ENOENT => beside
  | inl e => Err (os_error e)
  end.

Definition removeUnlessDir (root : list string) (rel : string) : M unit :=
  fs ← get;
  match LstatIn fs root rel with
  | inl ENOENT => mret tt
  | inl e => throw (os_error e)
  | inr n => if is_dir n then throw (New "cannot replace directory %s with a file") else RemoveIn root rel
  end.

Definition makeDir (root : list string) (rel : string) : M bool :=
  fs ← get;
  match LstatIn fs root rel with
  | inr n => if is_dir n then mret false else throw (New "cannot replace %s with a directory")
  | inl ENOENT => MkdirIn root rel 448 ;; mret true
  | inl e => throw (os_error e)
  end.

Definition unpackEntry (root : list string) (h : Header) (rel : string) : M bool :=
  match Type_ h with
  | TypeDir => makeDir root rel
  | TypeReg =>
      removeUnlessDir root rel ;;
      CreateIn root rel (Perm (Mode h)) (Body h) ;;
      match BodyError h with
      | Some e => throw e
      | None =>
          ChmodIn root rel (Perm (Mode h)) ;;
          ChtimesIn root rel (ModTime h) ;;
          mret true
      end
  | TypeSymlink =>
      removeUnlessDir root rel ;;
      SymlinkIn root (Linkname h) rel ;;
      mret true
  | TypeOther => mret false
  end.

Definition finishDir (root : list string) (h : Header) (rel : string) : M unit :=
  ChmodIn root rel (Perm (Mode h)) ;;
  ChtimesIn root rel (ModTime h).

(** The deferred loop: the first error is kept, and the rest is done. *)
Fixpoint finishDirs (root : list string) (dirs : list (Header * string)) (r : result unit) (fs : FS) : result unit * FS :=
  match dirs with
  | [] => (r, fs)
  | (h, rel) :: dirs =>
      let '(r', fs) := finishDir root h rel fs in
      finishDirs root dirs (match r, r' with Ok _, Err e => Err (Errorf "%s: %w" e) | _, _ => r end) fs
  end.

(** The loop of [Unpack]: the directories it created, the last first, and how
    it ended. *)
Fixpoint unpackAll (root : list string) (top name : string) (hs : list Header) (end_ : option error)
  (dirs : list (Header * string)) (fs : FS) : list (Header * string) * result unit * FS :=
  match hs with
  | [] => (dirs, match end_ with None => Ok tt | Some e => Err (Errorf "read archive: %w" e) end, fs)
  | h :: hs =>
      match entryPath (Name h) top name with
      | Err e => (dirs, Err e, fs)
      | Ok rel =>
          match unpackEntry root h rel fs with
          | (Err e, fs) => (dirs, Err (Errorf "%s: %w" e), fs)
          | (Ok created, fs) =>
              unpackAll root top name hs end_
                (if created && bool_decide (Type_ h = TypeDir) then (h, rel) :: dirs else dirs) fs
          end
      end
  end.

(** [os.OpenRoot] *)
Definition OpenRoot (fs : FS) (dir : string) : errno + list string :=
  match locate fs true dir with
  | inl e => inl e
  | inr p => match fs !! p with Some (Dir _ _) => inr p | Some _ => inl ENOTDIR | None => inl ENOENT end
  end.

Definition Unpack (r : Stream) (dest : string) : M unit := λ fs,
  match headers r with
  | [] => (Err (match ends r with None => New "the archive is empty" | Some e => Errorf "read archive: %w" e end), fs)
  | first :: _ =>
      match placement fs (Path.Clean dest) (bool_decide (Type_ first = TypeDir)) with
      | Err e => (Err e, fs)
      | Ok (dir, name) =>
          match OpenRoot fs dir with
          | inl e => (Err (os_error e), fs)
          | inr root =>
              let '(dirs, r, fs) := unpackAll root (topLevel (Name first)) name (headers r) (ends r) [] fs in
              finishDirs root dirs r fs
          end
      end
  end.

End User.

End Archive.
