(* ===== verification/Copies.v ===== *)
(** * What copies keep, and where they stay

    A copy by [Archive] is what was copied; whatever an archive holds, it
    changes nothing outside the directory it is unpacked in; and two things
    that archives do not do as they should. *)

From S2P Require Import Prelude Paths Errdefs Archive.

Module Copies.
Import Archive.

(** ** Paths in a tree *)

Lemma path_le_refl a : path_le a a.
Proof. induction a as [|x a IH]; simpl; [done|]. by rewrite decide_True. Qed.

Lemma path_le_antisym a b : path_le a b → path_le b a → a = b.
Proof.
  revert b. induction a as [|x a IH]; intros [|y b]; simpl; try done. do 2 case_decide; try done; subst; intros H1 H2.
  - f_equal. by apply IH.
  - destruct H. by apply (anti_symm String.le).
Qed.

#[local] Instance path_le_trans : Transitive path_le.
Proof.
  intros a. induction a as [|x a IH]; intros [|y b] [|z c]; simpl; try done.
  intros Hxy Hyz. repeat case_decide; subst; try done; [by eapply IH| |by etrans].
  by destruct (anti_symm String.le _ _ Hxy Hyz).
Qed.

#[local] Instance path_le_total : Total path_le.
Proof.
  intros a. induction a as [|x a IH]; intros [|y b]; simpl; [by left..|by right|].
  repeat case_decide; subst; try done. destruct (total String.le x y); auto.
Qed.

Lemma path_le_prefix a b : path_le a (a ++ b).
Proof. induction a as [|x a IH]; simpl; [done|]. by rewrite decide_True. Qed.

Lemma beneath_Some p k rel : beneath p k = Some rel ↔ k = p ++ rel.
Proof.
  revert k. induction p as [|x p IH]; intros [|y k]; simpl; try (split; congruence).
  case_decide as E; [subst; rewrite IH; split; [by intros ->|by intros [= ->]]|]. split; [done|]. by intros [= -> _].
Qed.

Lemma beneath_app p rel : beneath p (p ++ rel) = Some rel.
Proof. by apply beneath_Some. Qed.

(** A tree: what has a path has a directory there to be an entry of. *)
Definition tree_ok (fs : FS) : Prop :=
  ∀ p e n, fs !! (p ++ [e]) = Some n → Path.is_name e ∧ ∃ mode mtime, fs !! p = Some (Dir mode mtime).

(** ** Visiting a tree *)

Section Walk.

Context (fs : FS) (p : list string).

Lemma elem_of_WalkDir rel : rel ∈ WalkDir fs p ↔ is_Some (fs !! (p ++ rel)).
Proof.
  unfold WalkDir. rewrite merge_sort_Permutation, list_elem_of_omap. split.
  - intros (k & Hk & ->%beneath_Some). by apply elem_of_elements, elem_of_dom in Hk.
  - intros Hs. exists (p ++ rel). split; [by apply elem_of_elements, elem_of_dom|apply beneath_app].
Qed.

Lemma NoDup_WalkDir : NoDup (WalkDir fs p).
Proof.
  unfold WalkDir. rewrite merge_sort_Permutation.
  induction (NoDup_elements (dom fs)) as [|k l Hk _ IH]; simpl; [constructor|].
  destruct (beneath p k) as [rel|] eqn:E; [|done]. apply beneath_Some in E as ->. constructor; [|done].
  intros (k' & Hk' & ->%beneath_Some)%list_elem_of_omap. done.
Qed.

Lemma sorted_WalkDir : StronglySorted path_le (WalkDir fs p).
Proof. apply (StronglySorted_merge_sort path_le). Qed.

(** A directory is visited before what is in it. *)
Lemma WalkDir_parents done rel todo q r :
  tree_ok fs → WalkDir fs p = done ++ rel :: todo → rel = q ++ r → r ≠ [] → q ∈ done.
Proof.
  intros Hok E -> Hr.
  assert (q ∈ WalkDir fs p) as Hq.
  { assert (is_Some (fs !! (p ++ q ++ r))) as Hs by (apply elem_of_WalkDir; rewrite E; set_solver).
    clear E. induction r as [|e r IH] using rev_ind; [done|]. apply elem_of_WalkDir.
    rewrite !app_assoc in Hs. destruct Hs as [n Hn]. destruct (Hok _ _ _ Hn) as (_ & m & t & Hd). rewrite <-app_assoc in Hd.
    destruct r as [|e' r]; [rewrite app_nil_r in Hd; eauto|]. apply elem_of_WalkDir, IH; [done|eauto]. }
  pose proof sorted_WalkDir as Hs. rewrite E in Hq, Hs. apply elem_of_app in Hq as [?|Hq]; [done|].
  apply StronglySorted_app in Hs as (_ & _ & Hs). apply StronglySorted_cons in Hs as [Hs _].
  apply elem_of_cons in Hq as [Hq|Hq].
  - apply (f_equal length) in Hq. rewrite length_app in Hq. destruct r; [done|simpl in Hq; lia].
  - rewrite Forall_forall in Hs. specialize (Hs q Hq). pose proof (path_le_antisym _ _ Hs (path_le_prefix q r)) as Hq'.
    apply (f_equal length) in Hq'. rewrite length_app in Hq'. destruct r; [done|simpl in Hq'; lia].
Qed.

Lemma WalkDir_head : is_Some (fs !! p) → ∃ rels, WalkDir fs p = [] :: rels.
Proof.
  intros Hs. assert ([] ∈ WalkDir fs p) as Hin by (apply elem_of_WalkDir; by rewrite app_nil_r).
  pose proof sorted_WalkDir as Hsort. destruct (WalkDir fs p) as [|rel rels]; [by apply elem_of_nil in Hin|].
  apply elem_of_cons in Hin as [<-|Hin]; [eauto|]. apply StronglySorted_cons in Hsort as [Hsort _].
  rewrite Forall_forall in Hsort. specialize (Hsort _ Hin). destruct rel; [eauto|done].
Qed.

End Walk.

(** ** Where an archive stays *)

Section Stays.

Context (user : User) (root : list string).

Definition dir_at (fs : FS) : Prop := ∃ mode mtime, fs !! root = Some (Dir mode mtime).

(** Nothing but what is beneath [root] is changed, and [root] is a directory
    still. *)
Definition contained (fs fs' : FS) : Prop := (∀ k, beneath root k = None → fs' !! k = fs !! k) ∧ dir_at fs'.

Definition stays {A} (p : M A) : Prop := ∀ fs, dir_at fs → contained fs (p fs).2.

Lemma contained_refl fs : dir_at fs → contained fs fs.
Proof. done. Qed.

Lemma contained_trans fs1 fs2 fs3 : contained fs1 fs2 → contained fs2 fs3 → contained fs1 fs3.
Proof. intros [H1 _] [H2 ?]. split; [|done]. intros k Hk. by rewrite H2, H1. Qed.

Lemma contained_insert fs here n : dir_at fs → (here ≠ [] ∨ is_dir n = true) → contained fs (<[root ++ here := n]> fs).
Proof.
  intros (m & t & Hd) Hn. split.
  - intros k Hk. apply lookup_insert_ne. intros <-. by rewrite beneath_app in Hk.
  - unfold dir_at. destruct (decide (here = [])) as [->|Hne].
    + destruct Hn as [?|Hn]; [done|]. destruct n as [|m' t'| |]; try done. exists m', t'. by rewrite app_nil_r, lookup_insert_eq.
    + exists m, t. rewrite lookup_insert_ne; [done|]. intros E. apply (f_equal length) in E. rewrite length_app in E.
      destruct here; [done|simpl in E; lia].
Qed.

Lemma contained_delete fs here : dir_at fs → here ≠ [] → contained fs (delete (root ++ here) fs).
Proof.
  intros (m & t & Hd) Hne. split.
  - intros k Hk. apply lookup_delete_ne. intros <-. by rewrite beneath_app in Hk.
  - exists m, t. rewrite lookup_delete_ne; [done|]. intros E. apply (f_equal length) in E. rewrite length_app in E.
    destruct here; [done|simpl in E; lia].
Qed.

(** An entry beneath [root] that is made or removed. *)
Lemma contained_in_parent fs here f fs' :
  dir_at fs → here ≠ [] → (∀ fs, dir_at fs → contained fs (f fs)) →
  in_parent user (root ++ here) f fs = inr fs' → contained fs fs'.
Proof.
  intros Hd Hne Hf. unfold in_parent. rewrite removelast_app by done. destruct (fs !! _) as [[| | |]|]; try done.
  destruct (_ && _); [|done]. intros [= <-].
  assert (contained fs (<[root ++ removelast here := Dir mode (now user)]> fs)) as Hc by (by apply contained_insert; [|right]).
  eapply contained_trans; [exact Hc|]. apply Hf, Hc.
Qed.

Lemma contained_create fs here n fs' : dir_at fs → create user (root ++ here) n fs = inr fs' → contained fs fs'.
Proof.
  intros Hd. unfold create. destruct (fs !! (root ++ here)) eqn:E; [done|]. assert (here ≠ []) as Hne.
  { intros ->. rewrite app_nil_r in E. destruct Hd as (? & ? & ?). congruence. }
  apply contained_in_parent; [done..|]. intros fs1 Hd1. apply contained_insert; auto.
Qed.

Lemma contained_alter fs here f fs' :
  dir_at fs → (∀ n, is_dir (f n) = is_dir n) → alter_node (root ++ here) f fs = inr fs' → contained fs fs'.
Proof.
  intros Hd Hf. unfold alter_node. destruct (fs !! (root ++ here)) as [n|] eqn:E; [|done]. intros [= <-].
  apply contained_insert; [done|]. destruct (decide (here = [])) as [->|]; [right|by left].
  rewrite app_nil_r in E. destruct Hd as (? & ? & ?). rewrite Hf. by simplify_eq.
Qed.

Lemma locateIn_root fs follow rel p : locateIn user fs root follow rel = inr p → ∃ here, p = root ++ here.
Proof. unfold locateIn. destruct (walk _ _ _ _ _ _ _ _); [done|]. intros [= <-]. eauto. Qed.

Lemma stays_in_root follow rel f :
  (∀ here fs fs', dir_at fs → f (root ++ here) fs = inr fs' → contained fs fs') → stays (in_root user root follow rel f).
Proof.
  intros Hf fs Hd. unfold in_root, change. destruct (locateIn _ _ _ _ _) as [e|p] eqn:E; [done|].
  destruct (locateIn_root _ _ _ _ E) as [here ->]. destruct (f (root ++ here) fs) as [e|fs'] eqn:Ef; [done|]. by eapply Hf.
Qed.

Lemma stays_bind {A B} (p : M A) (g : A → M B) : stays p → (∀ a, stays (g a)) → stays (p ≫= g).
Proof.
  intros Hp Hg fs Hd. specialize (Hp fs Hd). unfold mbind, M_bind. destruct (p fs) as [[a|e] fs1]; [|done].
  eapply contained_trans; [exact Hp|]. apply Hg, Hp.
Qed.

Lemma stays_ret {A} (a : A) : stays (mret a).
Proof. intros fs Hd. by apply contained_refl. Qed.

Lemma stays_throw {A} e : stays (throw (A:=A) e).
Proof. intros fs Hd. by apply contained_refl. Qed.

Lemma stays_create rel (n : node) : stays (in_root user root false rel (λ p, create user p n)).
Proof. apply stays_in_root. intros here fs fs'. apply contained_create. Qed.

Lemma stays_Chmod rel mode : stays (ChmodIn user root rel mode).
Proof. apply stays_in_root. intros here fs fs' Hd. apply contained_alter; [done|]. by intros []. Qed.

Lemma stays_Chtimes rel mtime : stays (ChtimesIn user root rel mtime).
Proof. apply stays_in_root. intros here fs fs' Hd. apply contained_alter; [done|]. by intros []. Qed.

(** What is removed is not a directory, so it is not [root]. *)
Lemma stays_removeUnlessDir rel : stays (removeUnlessDir user root rel).
Proof.
  intros fs Hd. unfold removeUnlessDir, get, mbind, M_bind, LstatIn, lookup_at.
  destruct (locateIn user fs root false rel) as [e|p] eqn:E; [by destruct e|].
  destruct (fs !! p) as [n|] eqn:En; [|done]. destruct (is_dir n) eqn:Ed; [done|].
  unfold RemoveIn, in_root, change. rewrite E. destruct (locateIn_root _ _ _ _ E) as [here ->].
  unfold unlink. rewrite En. destruct (in_parent _ _ _ _) as [e|fs'] eqn:Ep; [done|]. assert (here ≠ []) as Hne.
  { intros ->. rewrite app_nil_r in En. destruct Hd as (? & ? & ?). by simplify_eq. }
  eapply contained_in_parent; [done|exact Hne| |exact Ep]. intros fs1 Hd1. by apply contained_delete.
Qed.

Create HintDb stays.
#[local] Hint Resolve stays_bind stays_ret stays_throw stays_create stays_Chmod stays_Chtimes stays_removeUnlessDir : stays.

Lemma stays_makeDir rel : stays (makeDir user root rel).
Proof.
  intros fs Hd. unfold makeDir, get, mbind at 1, M_bind at 1. destruct (LstatIn user fs root rel) as [[]|n]; try done.
  - apply stays_bind; [apply stays_create| |done]. intros _. apply stays_ret.
  - by destruct (is_dir n).
Qed.

Lemma stays_unpackEntry h rel : stays (unpackEntry user root h rel).
Proof.
  unfold unpackEntry. destruct (Type_ h); [| |auto with stays..]; [|apply stays_makeDir|].
  - apply stays_bind; [auto with stays|]. intros _. apply stays_bind; [apply stays_create|]. intros _.
    destruct (BodyError h); auto 6 with stays.
  - apply stays_bind; [auto with stays|]. intros _. apply stays_bind; [apply stays_create|auto with stays].
Qed.

Lemma stays_finishDirs dirs r fs : dir_at fs → contained fs (finishDirs user root dirs r fs).2.
Proof.
  revert r fs. induction dirs as [|[h rel] dirs IH]; intros r fs Hd; simpl; [by apply contained_refl|].
  assert (stays (finishDir user root h rel)) as Hf by (unfold finishDir; auto with stays). specialize (Hf fs Hd).
  destruct (finishDir user root h rel fs) as [r' fs1]. eapply contained_trans; [exact Hf|]. apply IH, Hf.
Qed.

Lemma stays_unpackAll top name hs end_ dirs fs : dir_at fs → contained fs (unpackAll user root top name hs end_ dirs fs).2.
Proof.
  revert dirs fs. induction hs as [|h hs IH]; intros dirs fs Hd; simpl; [by apply contained_refl|].
  destruct (entryPath _ _ _) as [rel|e]; [|done]. pose proof (stays_unpackEntry h rel fs Hd) as He.
  destruct (unpackEntry user root h rel fs) as [[created|e] fs1]; [|done].
  eapply contained_trans; [exact He|]. apply IH, He.
Qed.

Lemma stays_unpacked top name hs end_ fs : dir_at fs →
  contained fs (let '(dirs, r, fs) := unpackAll user root top name hs end_ [] fs in finishDirs user root dirs r fs).2.
Proof.
  intros Hd. pose proof (stays_unpackAll top name hs end_ [] fs Hd) as Hc.
  destruct (unpackAll _ _ _ _ _ _ _ _) as [[dirs res] fs1]. eapply contained_trans; [exact Hc|]. apply stays_finishDirs, Hc.
Qed.

End Stays.

Lemma OpenRoot_dir user fs dir root : OpenRoot user fs dir = inr root → dir_at root fs.
Proof.
  unfold OpenRoot. destruct (locate _ _ _ _) as [|p]; [done|]. destruct (fs !! p) as [[]|] eqn:E; try done.
  intros [= ->]. unfold dir_at. eauto.
Qed.

(** Beside what is not a directory, or in the destination. *)
Lemma placement_dir user fs dest isDir dir name :
  placement user fs dest isDir = Ok (dir, name) →
  dir = dest ∨ (∀ mode mtime, Stat user fs dest ≠ inr (Dir mode mtime)) ∧ dir = Path.Dir dest.
Proof.
  unfold placement. intros H.
  assert (∀ r, (match Stat user fs (Path.Dir dest) with inr (Dir _ _) => Ok (Path.Dir dest, Path.Base dest) | _ => Err r end)
    = Ok (dir, name) → dir = Path.Dir dest) as Hb.
  { intros r. destruct (Stat user fs (Path.Dir dest)) as [|[]]; naive_solver. }
  destruct (Stat user fs dest) as [e|n].
  - right. destruct e; try done. split; [done|]. by eapply Hb.
  - destruct n; [right|left|right|right]; try (destruct isDir; [done|]); [split; [done|by eapply Hb]|by injection H|split; [done|by eapply Hb]..].
Qed.

(** C13: whatever an archive holds, and whatever links are there or are made
    by it, unpacking it changes nothing but the tree of one directory: the
    destination, if that is a directory, and else the one that it is in. *)
Theorem archives_stay_in_one_directory user r dest fs :
  (Unpack user r dest fs).2 = fs ∨
  ∃ root, (OpenRoot user fs (Path.Clean dest) = inr root ∨
           (∀ mode mtime, Stat user fs (Path.Clean dest) ≠ inr (Dir mode mtime)) ∧
           OpenRoot user fs (Path.Dir (Path.Clean dest)) = inr root) ∧
    contained root fs (Unpack user r dest fs).2.
Proof.
  unfold Unpack. destruct (headers r) as [|first hs]; [by left|].
  destruct (placement _ _ _ _) as [[dir name]|e] eqn:Ep; [|by left].
  destruct (OpenRoot user fs dir) as [e|root] eqn:Er; [by left|]. right. exists root. split.
  - destruct (placement_dir _ _ _ _ _ _ Ep) as [->|[? ->]]; auto.
  - apply stays_unpacked. by eapply OpenRoot_dir.
Qed.

(** ** What an archive may do beside its destination *)

Definition example_user : User := mkUser false 18 ["home"] 9000000000.

Definition example_home : FS :=
  <[[] := Dir 493 0]> (<[["home"] := Dir 448 0]> (<[["home"; ".profile"] := File "mine" 420 0]> ∅)).

(** A directory, a link in it to the directory it is in, and a file through
    that link. *)
Definition hostile : Stream := mkStream
  [ mkHeader "x/" TypeDir 493 0 "" "" None;
    mkHeader "x/up" TypeSymlink 511 0 ".." "" None;
    mkHeader "x/up/.profile" TypeReg 420 0 "" "theirs" None ] None.

(** An archive that is unpacked at a path that does not exist is kept in
    the directory that path is in, and not at the path: it can replace the
    files beside its destination, through a link that it brings along. *)
Theorem archive_escapes_its_destination :
  let '(r, fs') := Unpack example_user hostile "copy" example_home in
  r = Ok tt ∧ example_home !! ["home"; "copy"] = None ∧
  example_home !! ["home"; ".profile"] = Some (File "mine" 420 0) ∧
  fs' !! ["home"; ".profile"] = Some (File "theirs" 420 0).
Proof. vm_compute. split_and!; reflexivity. Qed.

(** The names that [Base] gives what is not named by a path's last element. *)
Definition unnamed (root : string) : bool := bool_decide (root ∈ ["."; ".."; "/"]).

Lemma unnamed_entry root to :
  unnamed root = true → let name := Path.Join [root; "."] +:+ "/" in ∃ e, entryPath name (topLevel name) to = Err e.
Proof.
  unfold unnamed. intros H%bool_decide_eq_true. rewrite !elem_of_cons, elem_of_nil in H.
  destruct H as [->|[->|[->|[]]]]; eexists; vm_compute; reflexivity.
Qed.

(** The entry of the directory itself. *)
Lemma visit_top user fs p root h mode mtime :
  fs !! p = Some (Dir mode mtime) → visit user fs p root [] = Ok h →
  ∃ h', h = Some h' ∧ Name h' = Path.Join [root; "."] +:+ "/".
Proof.
  intros Hp. unfold visit. rewrite app_nil_r, Hp. cbn [bool_decide]. intros (? & _ & H)%bind_Ok.
  apply bind_Ok in H as (h0 & [= <-] & H). apply bind_Ok in H as (? & _ & [= <-]). eexists. split; [done|]. done.
Qed.

(** A directory that is packed under a name of its path alone, as the
    current directory is, makes an archive that nothing can unpack: every
    [Unpack] of it fails, and changes nothing. *)
Theorem unnamed_archive_cannot_be_unpacked user user' fs src p mode mtime hs dest fs' :
  EvalSymlinks user fs (Path.Clean src) = inr p → fs !! p = Some (Dir mode mtime) →
  unnamed (Path.Base (Path.Clean src)) = true → Pack user fs src = Ok hs →
  ∃ e, Unpack user' (mkStream hs None) dest fs' = (Err e, fs').
Proof.
  intros Hl Hp Hun. unfold Pack. rewrite Hl, Hp. destruct (WalkDir_head fs p) as [rels ->]; [eauto|].
  intros (h & Hv & (hs' & _ & [= <-])%bind_Ok)%bind_Ok. destruct (visit_top _ _ _ _ _ _ _ Hp Hv) as (h' & -> & Hname).
  change (option_list (Some h') ++ hs') with (h' :: hs'). unfold Unpack. cbn [headers ends].
  destruct (placement _ _ _ _) as [[dir name]|e]; [|eauto]. destruct (OpenRoot _ _ _) as [e|root]; [eauto|].
  cbn [unpackAll]. destruct (unnamed_entry _ name Hun) as [e He]. rewrite Hname, He. simpl. eauto.
Qed.

(** ** A copy is what was copied *)

(** A file as it is copied: what it holds, its permissions, and its time to the
    second. *)
Definition copied (n : node) : option node :=
  match n with
  | File content mode mtime => Some (File content (Perm mode) (round_second mtime))
  | Dir mode mtime => Some (Dir (Perm mode) (round_second mtime))
  | Link target => Some (Link target)
  | Special _ _ => None
  end.

Section Resolve.

Context (user : User).

Definition open_dir (fs : FS) (p : list string) : Prop :=
  ∃ mode mtime, fs !! p = Some (Dir mode mtime) ∧ searchable user mode = true ∧ writable user mode = true.

Lemma walk_into fs rooted base follow links here e rest m t :
  Path.is_name e → fs !! (base ++ here) = Some (Dir m t) → searchable user m = true →
  is_dir <$> fs !! (base ++ here ++ [e]) = Some true →
  walk user fs rooted base follow links here (e :: rest) = walk user fs rooted base follow links (here ++ [e]) rest.
Proof.
  intros (H1 & H2 & H3 & _) Hm Hs He. destruct (fs !! (base ++ here ++ [e])) as [[]|] eqn:E; simplify_eq.
  destruct links; cbn [walk]; rewrite !bool_decide_false by done; cbn [orb]; by rewrite Hm, Hs, E.
Qed.

Lemma walk_last fs rooted base follow links here e m t :
  Path.is_name e → fs !! (base ++ here) = Some (Dir m t) → searchable user m = true →
  (follow = true → ∀ t, fs !! (base ++ here ++ [e]) ≠ Some (Link t)) →
  walk user fs rooted base follow links here [e] = inr (here ++ [e]).
Proof.
  intros (H1 & H2 & H3 & _) Hm Hs Hl. destruct links; cbn [walk]; rewrite !bool_decide_false by done; cbn [orb];
    rewrite Hm, Hs; cbn [negb]; destruct (fs !! (base ++ here ++ [e])) as [[| |target|]|] eqn:E; try done;
    (destruct follow; [by destruct (Hl eq_refl target)|done]).
Qed.

(** A path of names through directories leads where it says. *)
Lemma walk_names fs rooted base follow links here es :
  es ≠ [] → Forall Path.is_name es →
  (∀ q r, es = q ++ r → r ≠ [] → open_dir fs (base ++ here ++ q)) →
  (follow = true → ∀ t, fs !! (base ++ here ++ es) ≠ Some (Link t)) →
  walk user fs rooted base follow links here es = inr (here ++ es).
Proof.
  intros Hne Hes. revert here Hne. induction Hes as [|e es He _ IH]; intros here Hne Hd Hl; [done|].
  destruct (Hd [] (e :: es)) as (m & t & Hm & Hsearch & _); [done..|]. rewrite app_nil_r in Hm.
  destruct es as [|e' es]; [by eapply walk_last|]. destruct (Hd [e] (e' :: es)) as (m' & t' & Hm' & _); [done..|].
  rewrite (walk_into _ _ _ _ _ _ _ _ m t) by (done || by rewrite Hm'). rewrite IH; [by rewrite <-app_assoc|done|..].
  - intros q r E Hr. rewrite <-!app_assoc. apply (Hd (e :: q) r); [by rewrite E|done].
  - intros Hf. rewrite <-!app_assoc. by apply Hl.
Qed.

Lemma locateIn_names fs root follow es :
  es ≠ [] → Forall Path.is_name es →
  (∀ q r, es = q ++ r → r ≠ [] → open_dir fs (root ++ q)) →
  (follow = true → ∀ t, fs !! (root ++ es) ≠ Some (Link t)) →
  locateIn user fs root follow (Str.join "/" es) = inr (root ++ es).
Proof. intros Hne Hes Hd Hl. unfold locateIn. by rewrite Path.elements_join, walk_names. Qed.

Lemma masked_private : Z.land (umask user) 448 = 0%Z → masked user 448 = 448%Z.
Proof.
  intros Hu. unfold masked. apply Z.bits_inj'. intros i Hi. rewrite Z.land_spec, Z.lnot_spec by done.
  destruct (Z.testbit 448 i) eqn:E; [|done]. apply (f_equal (λ z, Z.testbit z i)) in Hu.
  rewrite Z.land_spec, E, Z.bits_0, andb_true_r in Hu. by rewrite Hu.
Qed.

Lemma private_access : searchable user 448 = true ∧ writable user 448 = true.
Proof. unfold searchable, writable. split; by rewrite orb_true_r. Qed.

End Resolve.

(** *** The names of entries *)

Section Names.

Context (root : string) (Hroot : Path.is_name root).

Lemma TrimPrefix_dot rel : TrimPrefix (Str.join "/" (root :: rel)) "./" = Str.join "/" (root :: rel).
Proof.
  unfold TrimPrefix. destruct (Str.cut_prefix "./" _) as [t|] eqn:E; [|done]. exfalso. apply Str.cut_prefix_Some in E.
  destruct Hroot as (H1 & H2 & _ & H4). rewrite Path.join_cons in E.
  destruct root as [|c [|c' r]]; simpl in *; simplify_eq; set_solver.
Qed.

Lemma TrimPrefix_dot_slash rel :
  TrimPrefix (Str.join "/" (root :: rel) +:+ "/") "./" = Str.join "/" (root :: rel) +:+ "/".
Proof.
  unfold TrimPrefix. destruct (Str.cut_prefix "./" _) as [t|] eqn:E; [|done]. exfalso. apply Str.cut_prefix_Some in E.
  destruct Hroot as (H1 & H2 & _ & H4). rewrite Path.join_cons in E.
  destruct root as [|c [|c' r]]; simpl in *; simplify_eq; set_solver.
Qed.

Lemma topLevel_names rel : Forall Path.is_name rel → topLevel (Str.join "/" (root :: rel)) = root.
Proof. intros Hrel. unfold topLevel. rewrite TrimPrefix_dot. by apply Path.cut_first. Qed.

Lemma topLevel_dir : topLevel (root +:+ "/") = root.
Proof.
  unfold topLevel. change (root +:+ "/") with (Str.join "/" [root] +:+ "/"). rewrite TrimPrefix_dot_slash. simpl.
  rewrite (proj2 (Str.cut_Some "/" _ root "")); [done|]. split; [done|apply Hroot].
Qed.

Context (to : string) (Hto : to = "" ∨ Path.is_name to).

(** The name that [root] is unpacked under. *)
Definition landed : string := if bool_decide (to = "") then root else to.

Lemma landed_name : Path.is_name landed.
Proof. unfold landed. case_bool_decide; [done|]. by destruct Hto. Qed.

(** An entry lands where it was beneath [root], at the name it is given. *)
Lemma entryPath_names name rel :
  Forall Path.is_name rel → name = Str.join "/" (root :: rel) ∨ name = Str.join "/" (root :: rel) +:+ "/" →
  entryPath name root to = Ok (Str.join "/" (landed :: rel)).
Proof.
  intros Hrel Hname. unfold entryPath.
  assert (Path.Clean (TrimPrefix name "./") = Str.join "/" (root :: rel)) as ->.
  { destruct Hname as [->| ->].
    - rewrite TrimPrefix_dot. apply Path.Clean_names; [done|by constructor].
    - rewrite TrimPrefix_dot_slash. apply Path.Clean_names_slash; [done|by constructor]. }
  rewrite Path.IsLocal_names, topLevel_names by (done || by constructor). rewrite bool_decide_true by done.
  cbn [negb orb]. unfold landed. case_bool_decide as E; [done|]. f_equal. unfold TrimPrefix.
  rewrite (Path.join_cons "/" root), Str.cut_prefix_app. cbn [default from_option]. by rewrite (Path.join_cons "/" to).
Qed.

End Names.

(** *** What is packed *)

(** The entry of the file at [rel] beneath what is packed as [root]. *)
Definition entry (root : string) (rel : list string) (n : node) : option Header :=
  let name := Str.join "/" (root :: rel) in
  match n with
  | File content mode mtime => Some (mkHeader name TypeReg (Perm mode) (round_second mtime) "" content None)
  | Dir mode mtime => Some (mkHeader (name +:+ "/") TypeDir (Perm mode) (round_second mtime) "" "" None)
  | Link target => Some (mkHeader name TypeSymlink 511 0 target "" None)
  | Special _ _ => None
  end.

Lemma addEntry_entry user root rel n h :
  Path.is_name root → Forall Path.is_name rel →
  addEntry user (Path.Join [root; if bool_decide (rel = []) then "." else Str.join "/" rel]) n = Ok h → h = entry root rel n.
Proof.
  intros Hroot Hrel.
  assert (Path.Join [root; if bool_decide (rel = []) then "." else Str.join "/" rel] = Str.join "/" (root :: rel)) as ->.
  { case_bool_decide as E; [subst|by apply Path.Join_names]. unfold Path.Join. pose proof Hroot as (Hne & _).
    rewrite filter_cons_True, filter_cons_True, filter_nil by done. unfold Path.Clean.
    change (Str.join "/" [root; "."]) with (root +:+ "/."). rewrite Path.IsAbs_name by done.
    assert (Path.elements (root +:+ "/.") = [root; "."]) as ->.
    { unfold Path.elements, Str.split. rewrite Str.to_list_app. change (Str.to_list "/.") with ["/"; "."]%char.
      rewrite Str.split_list_app by apply Hroot. by rewrite fmap_cons, Str.of_to_list. }
    destruct Hroot as (? & ? & ? & _). cbn [Path.clean]. rewrite !(bool_decide_false (root = _)) by done.
    cbn. by destruct root. }
  destruct n; simpl; [destruct (readable _ _)|..]; by intros [= <-].
Qed.

Lemma visit_entry user fs p root rel h :
  Path.is_name root → Forall Path.is_name rel → visit user fs p root rel = Ok h →
  ∃ n, fs !! (p ++ rel) = Some n ∧ h = entry root rel n.
Proof.
  intros Hroot Hrel. unfold visit. destruct (fs !! (p ++ rel)) as [n|]; [|done]. intros (? & _ & H)%bind_Ok.
  apply bind_Ok in H as (h' & Ha & H). apply bind_Ok in H as (? & _ & [= <-]). exists n. split; [done|].
  by eapply addEntry_entry.
Qed.

(** The entries of the files at [rels]. *)
Definition entries (fs : FS) (p : list string) (root : string) (rels : list (list string)) : list Header :=
  omap (λ rel, fs !! (p ++ rel) ≫= entry root rel) rels.

Lemma visit_all_entries user fs p root rels hs :
  Path.is_name root → Forall (Forall Path.is_name) rels → visit_all user fs p root rels = Ok hs → hs = entries fs p root rels.
Proof.
  intros Hroot Hrels. revert hs. induction Hrels as [|rel rels Hrel _ IH]; simpl; intros hs; [by intros [= <-]|].
  intros (h & Hv & H)%bind_Ok. apply bind_Ok in H as (hs' & Hs & [= <-]). rewrite (IH hs') by done.
  destruct (visit_entry _ _ _ _ _ _ Hroot Hrel Hv) as (n & Hn & ->). unfold entries. simpl. rewrite Hn. simpl.
  by destruct (entry root rel n).
Qed.

Lemma names_beneath fs p rel : tree_ok fs → is_Some (fs !! (p ++ rel)) → Forall Path.is_name rel.
Proof.
  intros Hok. induction rel as [|e rel IH] using rev_ind; [constructor|]. intros [n Hn]. rewrite app_assoc in Hn.
  destruct (Hok _ _ _ Hn) as (He & m & t & Hd). apply Forall_app. split; [apply IH; eauto|by constructor].
Qed.

Lemma names_WalkDir fs p : tree_ok fs → Forall (Forall Path.is_name) (WalkDir fs p).
Proof. intros Hok. apply Forall_forall. intros rel Hrel%elem_of_WalkDir. by eapply names_beneath. Qed.

(** What is not a directory has nothing beneath it. *)
Lemma nothing_beneath fs p rel : tree_ok fs → is_dir <$> fs !! p ≠ Some true → rel ≠ [] → fs !! (p ++ rel) = None.
Proof.
  intros Hok Hp. induction rel as [|e rel IH] using rev_ind; [done|]. intros _.
  destruct (fs !! (p ++ rel ++ [e])) as [n|] eqn:E; [|done]. rewrite app_assoc in E. destruct (Hok _ _ _ E) as (_ & m & t & Hd).
  destruct rel as [|e' rel]; [rewrite app_nil_r in Hd; by rewrite Hd in Hp|]. by rewrite IH in Hd.
Qed.

Lemma WalkDir_file fs p n : tree_ok fs → fs !! p = Some n → is_dir n = false → WalkDir fs p = [[]].
Proof.
  intros Hok Hp Hn. destruct (WalkDir_head fs p) as [rels E]; [eauto|]. rewrite E. f_equal.
  destruct rels as [|rel rels]; [done|]. exfalso. pose proof (NoDup_WalkDir fs p) as Hnd. rewrite E in Hnd.
  apply NoDup_cons in Hnd as [Hnd _]. assert (rel ∈ WalkDir fs p) as Hrel by (rewrite E; set_solver).
  apply elem_of_WalkDir in Hrel as [n' Hn']. rewrite nothing_beneath in Hn'; [done|done|by rewrite Hp; simpl; rewrite Hn|].
  intros ->. set_solver.
Qed.

(** An archive is the entries of what is visited. *)
Lemma Pack_entries user fs src p n hs :
  tree_ok fs → EvalSymlinks user fs (Path.Clean src) = inr p → fs !! p = Some n → Path.is_name (Path.Base (Path.Clean src)) →
  Pack user fs src = Ok hs → hs = entries fs p (Path.Base (Path.Clean src)) (WalkDir fs p).
Proof.
  intros Hok Hl Hp Hroot. unfold Pack. rewrite Hl, Hp. set (root := Path.Base _) in *. destruct (is_dir n) eqn:Hd.
  - destruct n; try done. intros Hv. by eapply visit_all_entries; [|by apply names_WalkDir|].
  - intros H. assert (∃ h, addEntry user root n = Ok h ∧ hs = option_list h) as (h & Ha & ->).
    { destruct n; try done; by apply bind_Ok in H as (h & ? & [= <-]); exists h. }
    rewrite (WalkDir_file fs p n) by done. unfold entries. simpl. rewrite app_nil_r, Hp. simpl.
    assert (h = entry root [] n) as ->; [|by destruct (entry root [] n)].
    destruct n; simpl in *; try done; [destruct (readable _ _)|..]; by simplify_eq.
Qed.

(** *** Unpacking one entry *)

Section Unpacking.

Context (user : User) (Hmask : Z.land (umask user) 448 = 0%Z).
Context (D : list string) (nm : string) (Hnm : Path.is_name nm).

Implicit Types (fs : FS) (rel : list string) (n : node).

(** The directories on the way to [rel], beneath what is unpacked as [nm] in
    [D], can be gone through and changed. *)
Definition reaches fs rel : Prop := ∀ q r, nm :: rel = q ++ r → r ≠ [] → open_dir user fs (D ++ q).

(** [n] is made at [rel], in a directory that it changes. *)
Definition put fs rel n : FS :=
  match fs !! (D ++ removelast (nm :: rel)) with
  | Some (Dir m _) => <[D ++ nm :: rel := n]> (<[D ++ removelast (nm :: rel) := Dir m (now user)]> fs)
  | _ => fs
  end.

Lemma open_dir_touch fs k m t t' p : fs !! k = Some (Dir m t) → open_dir user fs p → open_dir user (<[k := Dir m t']> fs) p.
Proof.
  intros Hk (m' & t2 & Hp & H). destruct (decide (k = p)) as [->|Hne].
  - simplify_eq. exists m, t'. by rewrite lookup_insert_eq.
  - exists m', t2. by rewrite lookup_insert_ne.
Qed.

Lemma open_dir_insert fs k n p : k ≠ p → open_dir user fs p → open_dir user (<[k := n]> fs) p.
Proof. intros Hne (m & t & Hp & H). exists m, t. by rewrite lookup_insert_ne. Qed.

Lemma reaches_touch fs k m t t' rel : fs !! k = Some (Dir m t) → reaches fs rel → reaches (<[k := Dir m t']> fs) rel.
Proof. intros Hk Hr q r E Hne. eapply open_dir_touch; [done|by eapply Hr]. Qed.

Lemma not_prefix_of_itself rel q r : nm :: rel = q ++ r → r ≠ [] → D ++ nm :: rel ≠ D ++ q.
Proof.
  intros E Hr H%(inj (app D)). rewrite E in H. apply (f_equal length) in H. rewrite length_app in H. destruct r; [done|simpl in H; lia].
Qed.

Lemma reaches_insert fs rel n : reaches fs rel → reaches (<[D ++ nm :: rel := n]> fs) rel.
Proof. intros Hr q r E Hne. apply open_dir_insert; [by eapply not_prefix_of_itself|by eapply Hr]. Qed.

Lemma reaches_delete fs rel : reaches fs rel → reaches (delete (D ++ nm :: rel) fs) rel.
Proof.
  intros Hr q r E Hne. destruct (Hr q r E Hne) as (m & t & Hp & H). exists m, t. split; [|done].
  rewrite lookup_delete_ne; [done|by eapply not_prefix_of_itself].
Qed.

Lemma own_parent rel : ∃ e, nm :: rel = removelast (nm :: rel) ++ [e].
Proof. exists (List.last (nm :: rel) ""). by apply app_removelast_last. Qed.

Lemma reaches_parent fs rel : reaches fs rel → open_dir user fs (D ++ removelast (nm :: rel)).
Proof. intros Hr. destruct (own_parent rel) as [e E]. by apply (Hr _ [e]). Qed.

Lemma parent_ne rel : D ++ nm :: rel ≠ D ++ removelast (nm :: rel).
Proof. destruct (own_parent rel) as [e E]. by apply (not_prefix_of_itself rel _ [e]). Qed.

Lemma removelast_within rel : removelast (D ++ nm :: rel) = D ++ removelast (nm :: rel).
Proof. by apply removelast_app. Qed.

Section At.

Context (rel : list string) (Hrel : Forall Path.is_name rel).

Abbreviation path := (Str.join "/" (nm :: rel)).

Lemma locateIn_reaches fs follow :
  reaches fs rel → (follow = true → ∀ t, fs !! (D ++ nm :: rel) ≠ Some (Link t)) →
  locateIn user fs D follow path = inr (D ++ nm :: rel).
Proof. intros Hr Hl. apply locateIn_names; [done|by constructor|done..]. Qed.

Lemma create_there fs n :
  reaches fs rel → fs !! (D ++ nm :: rel) = None →
  in_root user D false path (λ p, create user p n) fs = (Ok tt, put fs rel n).
Proof.
  intros Hr Hn. unfold in_root, change. rewrite locateIn_reaches by done. unfold create, in_parent, put.
  rewrite Hn, removelast_within. destruct (reaches_parent fs rel Hr) as (m & t & Hm & Hs & Hw). by rewrite Hm, Hs, Hw.
Qed.

Lemma alter_there fs f n :
  reaches fs rel → fs !! (D ++ nm :: rel) = Some n → (∀ t, n ≠ Link t) →
  in_root user D true path (λ p, alter_node p f) fs = (Ok tt, <[D ++ nm :: rel := f n]> fs).
Proof.
  intros Hr Hn Hl. unfold in_root, change. rewrite locateIn_reaches by (done || naive_solver). unfold alter_node. by rewrite Hn.
Qed.

Lemma lookup_put fs n : reaches fs rel → put fs rel n !! (D ++ nm :: rel) = Some n.
Proof.
  intros Hr. unfold put. destruct (reaches_parent fs rel Hr) as (m & t & -> & _). apply lookup_insert_eq.
Qed.

Lemma insert_put fs n n' : reaches fs rel → <[D ++ nm :: rel := n']> (put fs rel n) = put fs rel n'.
Proof.
  intros Hr. unfold put. destruct (reaches_parent fs rel Hr) as (m & t & -> & _). apply insert_insert_eq.
Qed.

Lemma reaches_put fs n : reaches fs rel → reaches (put fs rel n) rel.
Proof.
  intros Hr. unfold put. destruct (reaches_parent fs rel Hr) as (m & t & E & _). rewrite E.
  by eapply reaches_insert, reaches_touch.
Qed.

Lemma CreateIn_there fs content mode mtime now_mode :
  reaches fs rel → fs !! (D ++ nm :: rel) = None →
  (CreateIn user D path now_mode content ;; ChmodIn user D path mode ;; ChtimesIn user D path mtime ;; mret true) fs =
  (Ok true, put fs rel (File content mode mtime)).
Proof.
  intros Hr Hn. unfold mbind, M_bind. unfold CreateIn. rewrite create_there by done. unfold ChmodIn.
  erewrite alter_there by (by apply reaches_put || by apply lookup_put || done). rewrite insert_put by done. unfold ChtimesIn.
  erewrite alter_there by (by apply reaches_put || by apply lookup_put || done). by rewrite insert_put.
Qed.

(** What is there and is not a directory makes way. *)
Lemma removeUnlessDir_there fs :
  reaches fs rel → is_dir <$> fs !! (D ++ nm :: rel) ≠ Some true →
  ∃ fs', removeUnlessDir user D path fs = (Ok tt, fs') ∧ reaches fs' rel ∧ fs' !! (D ++ nm :: rel) = None ∧
    ∀ n, put fs' rel n = put fs rel n.
Proof.
  intros Hr Hd. unfold removeUnlessDir, mbind, M_bind. cbn [get]. unfold LstatIn. rewrite locateIn_reaches by done. simpl.
  destruct (fs !! (D ++ nm :: rel)) as [n|] eqn:E; [|by exists fs]. simpl in Hd. destruct (is_dir n); [done|].
  unfold RemoveIn, in_root, change. rewrite locateIn_reaches by done. unfold unlink, in_parent. rewrite E, removelast_within.
  destruct (reaches_parent fs rel Hr) as (m & t & Hm & Hs & Hw). rewrite Hm, Hs, Hw. simpl.
  eexists. split; [done|]. split; [by eapply reaches_delete, reaches_touch|]. split; [by rewrite lookup_delete_eq|].
  intros n'. unfold put. rewrite Hm. rewrite lookup_delete_ne by apply parent_ne. rewrite lookup_insert_eq.
  pose proof (parent_ne rel). by rewrite <-delete_insert_ne, insert_insert_eq, insert_delete_eq by done.
Qed.

(** What an entry is unpacked as: a directory is private until the archive is
    through. *)
Definition staged n : node :=
  match n with
  | File content mode mtime => File content (Perm mode) (round_second mtime)
  | Dir _ _ => Dir 448 (now user)
  | n => n
  end.

Lemma Perm_Perm mode : Perm (Perm mode) = Perm mode.
Proof. unfold Perm. by rewrite <-Z.land_assoc, Z.land_diag. Qed.

Lemma unpackEntry_there fs root n h :
  reaches fs rel → entry root rel n = Some h →
  fs !! (D ++ nm :: rel) = None ∨ (is_dir <$> fs !! (D ++ nm :: rel) ≠ Some true ∧ is_dir n = false) →
  unpackEntry user D h path fs = (Ok true, put fs rel (staged n)).
Proof.
  intros Hr Hh Hfs. assert (is_dir n = false → is_dir <$> fs !! (D ++ nm :: rel) ≠ Some true) as Hd.
  { intros _. destruct Hfs as [->|[? _]]; done. }
  destruct n as [content mode mtime|mode mtime|target|]; simpl in Hh; [injection Hh as <-..|done]; unfold unpackEntry; cbn [Type_].
  - destruct (removeUnlessDir_there fs Hr (Hd eq_refl)) as (fs' & E & Hr' & Hn & Hput).
    unfold mbind at 1, M_bind at 1. rewrite E. cbn [BodyError Mode Body ModTime]. rewrite CreateIn_there by done.
    by rewrite Hput, Perm_Perm.
  - destruct Hfs as [Hn|[_ ?]]; [|done]. unfold makeDir, mbind, M_bind. cbn [get]. unfold LstatIn.
    rewrite locateIn_reaches by done. simpl. rewrite Hn. unfold MkdirIn. rewrite create_there by done. by rewrite masked_private.
  - destruct (removeUnlessDir_there fs Hr (Hd eq_refl)) as (fs' & E & Hr' & Hn & Hput).
    unfold mbind, M_bind. rewrite E. unfold SymlinkIn. rewrite create_there by done. by rewrite Hput.
Qed.

Lemma finishDir_there fs root mode mtime h mode' mtime' :
  reaches fs rel → fs !! (D ++ nm :: rel) = Some (Dir mode' mtime') → entry root rel (Dir mode mtime) = Some h →
  finishDir user D h path fs = (Ok tt, <[D ++ nm :: rel := Dir (Perm mode) (round_second mtime)]> fs).
Proof.
  intros Hr Hn [= <-]. unfold finishDir, mbind, M_bind, ChmodIn, ChtimesIn. cbn [Mode ModTime].
  erewrite alter_there by done. erewrite alter_there; [|by apply reaches_insert|by rewrite lookup_insert_eq|done].
  by rewrite insert_insert_eq, Perm_Perm.
Qed.

End At.

Lemma lookup_put_other fs rel n k :
  k ≠ D ++ nm :: rel →
  put fs rel n !! k = fs !! k ∨
  ∃ m t, k = D ++ removelast (nm :: rel) ∧ fs !! k = Some (Dir m t) ∧ put fs rel n !! k = Some (Dir m (now user)).
Proof.
  intros Hk. unfold put. destruct (fs !! (D ++ removelast (nm :: rel))) as [[|m t| |]|] eqn:E; try by left.
  rewrite lookup_insert_ne by done. destruct (decide (k = D ++ removelast (nm :: rel))) as [->|Hne].
  - right. exists m, t. by rewrite lookup_insert_eq.
  - left. by rewrite lookup_insert_ne.
Qed.

(** *** The whole archive *)

Section Progress.

Context (fs0 : FS) (p : list string) (Hok : tree_ok fs0).
Context (fs1 : FS) (mD tD : Z) (HD : fs1 !! D = Some (Dir mD tD)) (Hsearch : searchable user mD = true) (Hwrite : writable user mD = true).
Context (Hfresh : ∀ rel n, fs0 !! (p ++ rel) = Some n →
  fs1 !! (D ++ nm :: rel) = None ∨ is_dir <$> fs1 !! (D ++ nm :: rel) ≠ Some true ∧ is_dir n = false ∧ is_Some (copied n)).

(** What a file is unpacked as so far. *)
Definition shown (finished : Prop) n (o : option node) : Prop :=
  match n with
  | Dir _ _ => finished ∧ o = copied n ∨ ¬ finished ∧ ∃ t, o = Some (Dir 448 t)
  | _ => o = copied n
  end.

Record progress (seen finished : list (list string)) fs : Prop := mkProgress {
  there : ∀ rel n, fs0 !! (p ++ rel) = Some n → rel ∈ seen → shown (rel ∈ finished) n (fs !! (D ++ nm :: rel));
  unseen : ∀ rel, rel ∉ seen → fs !! (D ++ nm :: rel) = fs1 !! (D ++ nm :: rel);
  elsewhere : ∀ k, k ≠ D → beneath (D ++ [nm]) k = None → fs !! k = fs1 !! k;
  top : ∃ t, fs !! D = Some (Dir mD t);
}.

Lemma not_elsewhere rel k : k = D ++ nm :: rel → beneath (D ++ [nm]) k ≠ None.
Proof. intros ->. change (D ++ nm :: rel) with (D ++ [nm] ++ rel). by rewrite app_assoc, beneath_app. Qed.

Lemma progress_reaches seen finished fs rel :
  progress seen finished fs → is_Some (fs0 !! (p ++ rel)) →
  (∀ q r, rel = q ++ r → r ≠ [] → q ∈ seen ∧ q ∉ finished) → reaches fs rel.
Proof.
  intros Hp Hrel Hq [|e q] r E Hr; simplify_eq/=.
  - destruct (top _ _ _ Hp) as [t Ht]. exists mD, t. by rewrite app_nil_r.
  - destruct (Hq q r eq_refl Hr) as [Hseen Hfin].
    destruct (fs0 !! (p ++ q)) as [[|m t| |]|] eqn:E;
      try (rewrite app_assoc, nothing_beneath in Hrel; [by destruct Hrel|done|by rewrite E|done]).
    destruct (there _ _ _ Hp _ _ E Hseen) as [[? _]|(_ & t' & Ht)]; [done|]. exists 448%Z, t'. split; [done|apply private_access].
Qed.

Lemma shown_ext P Q n o : (P ↔ Q) → shown P n o → shown Q n o.
Proof. destruct n; simpl; naive_solver. Qed.

Lemma progress_put seen fs rel n :
  progress seen [] fs → fs0 !! (p ++ rel) = Some n → is_Some (copied n) → reaches fs rel →
  (∀ q r, rel = q ++ r → r ≠ [] → q ∈ seen) → progress (seen ++ [rel]) [] (put fs rel (staged n)).
Proof.
  intros Hp Hn Hc Hr Hq. split.
  - intros rel' n' Hn' Hseen. destruct (decide (rel' = rel)) as [->|Hne].
    + simplify_eq. rewrite lookup_put by done. destruct n; simpl in *; try done.
      right. split; [apply not_elem_of_nil|eauto].
    + assert (rel' ∈ seen) as Hseen' by set_solver. pose proof (there _ _ _ Hp _ _ Hn' Hseen') as Hs.
      destruct (lookup_put_other fs rel (staged n) (D ++ nm :: rel')) as [->|(m & t & _ & E & ->)]; [naive_solver|done|].
      rewrite E in Hs. destruct n'; simpl in *; try done. destruct Hs as [[Hs _]|[? (t' & [= -> _])]];
        [by apply elem_of_nil in Hs|right; eauto].
  - intros rel' Hseen. rewrite <-(unseen _ _ _ Hp) by set_solver.
    destruct (lookup_put_other fs rel (staged n) (D ++ nm :: rel')) as [->|(m & t & E & _)]; [set_solver|done|].
    exfalso. apply (inj (app D)) in E. destruct (own_parent rel) as [e E']. rewrite <-E in E'. simplify_eq/=.
    destruct (Hq rel' [e]); [done|done|set_solver..].
  - intros k HkD Hk. rewrite <-(elsewhere _ _ _ Hp) by done.
    destruct (lookup_put_other fs rel (staged n) k) as [->|(m & t & E & _)]; [intros ?; by eapply not_elsewhere|done|].
    exfalso. destruct rel as [|e rel]; simpl in E; [by rewrite app_nil_r in E|by eapply not_elsewhere].
  - destruct (top _ _ _ Hp) as [t Ht]. destruct (lookup_put_other fs rel (staged n) D) as [->|(m & t' & _ & E & ->)]; [|eauto|].
    + intros E%(f_equal length). rewrite length_app in E. simpl in E. lia.
    + rewrite Ht in E. simplify_eq. eauto.
Qed.

Lemma progress_skip seen fs rel n :
  progress seen [] fs → fs0 !! (p ++ rel) = Some n → copied n = None → rel ∉ seen → progress (seen ++ [rel]) [] fs.
Proof.
  intros Hp Hn Hc Hseen. split; [|intros rel' ?; apply (unseen _ _ _ Hp); set_solver|apply Hp..].
  intros rel' n' Hn' [Hrel'|E]%elem_of_app; [by apply (there _ _ _ Hp)|]. apply list_elem_of_singleton in E. simplify_eq.
  rewrite (unseen _ _ _ Hp) by done. destruct (Hfresh _ _ Hn) as [->|(_ & _ & Hs)]; [by destruct n|]. rewrite Hc in Hs. by destruct Hs.
Qed.

Lemma progress_finish seen finished fs rel mode mtime :
  progress seen finished fs → fs0 !! (p ++ rel) = Some (Dir mode mtime) → rel ∈ seen →
  progress seen (rel :: finished) (<[D ++ nm :: rel := Dir (Perm mode) (round_second mtime)]> fs).
Proof.
  intros Hp Hn Hseen. split.
  - intros rel' n' Hn' Hseen'. destruct (decide (rel' = rel)) as [->|Hne].
    + simplify_eq. rewrite lookup_insert_eq. left. split; [apply list_elem_of_here|done].
    + rewrite lookup_insert_ne by naive_solver. eapply shown_ext; [|by apply (there _ _ _ Hp)]. set_solver.
  - intros rel' Hseen'. rewrite lookup_insert_ne; [by apply Hp|]. intros E%(inj (app D)). set_solver.
  - intros k HkD Hk. rewrite lookup_insert_ne; [by apply Hp|]. intros <-. by eapply not_elsewhere.
  - destruct (top _ _ _ Hp) as [t Ht]. exists t. rewrite lookup_insert_ne; [done|].
    intros E%(f_equal length). rewrite length_app in E. simpl in E. lia.
Qed.

Lemma progress_file seen finished fs rel :
  progress seen finished fs → is_dir <$> fs0 !! (p ++ rel) ≠ Some true → progress seen (rel :: finished) fs.
Proof.
  intros Hp Hn. split; [|apply Hp..]. intros rel' n' Hn' Hseen. pose proof (there _ _ _ Hp _ _ Hn' Hseen) as Hs.
  destruct n'; simpl in *; [done| |done..]. assert (rel' ≠ rel) by (intros ->; by rewrite Hn' in Hn). set_solver.
Qed.

Context (root to : string) (Hroot : Path.is_name root) (Hto : to = "" ∨ Path.is_name to) (Hland : nm = landed root to).

(** The directories that are made for the ones at [rels], with their entries. *)
Definition made_at rel : option (Header * string) :=
  match fs0 !! (p ++ rel) with
  | Some (Dir m t) => (λ h, (h, Str.join "/" (nm :: rel))) <$> entry root rel (Dir m t)
  | _ => None
  end.

Definition made (rels : list (list string)) : list (Header * string) := omap made_at rels.

Lemma entries_cons rel rels n :
  fs0 !! (p ++ rel) = Some n → entries fs0 p root (rel :: rels) = option_list (entry root rel n) ++ entries fs0 p root rels.
Proof. intros Hn. unfold entries. simpl. rewrite Hn. simpl. by destruct (entry root rel n). Qed.

Lemma made_cons rel rels : made (rel :: rels) = option_list (made_at rel) ++ made rels.
Proof. unfold made. simpl. by destruct (made_at rel). Qed.

Lemma made_at_entry rel n h :
  fs0 !! (p ++ rel) = Some n → entry root rel n = Some h →
  made_at rel = if is_dir n then Some (h, Str.join "/" (nm :: rel)) else None.
Proof. intros Hn Hh. unfold made_at. rewrite Hn. destruct n; simpl in *; by simplify_eq. Qed.

Lemma entryPath_entry rel n h :
  Forall Path.is_name rel → entry root rel n = Some h → entryPath (Name h) root to = Ok (Str.join "/" (nm :: rel)).
Proof.
  intros Hrel Hh. rewrite Hland. apply entryPath_names; [done..|]. destruct n; simpl in Hh; simplify_eq; simpl; auto.
Qed.

Lemma entry_dir rel n h : entry root rel n = Some h → bool_decide (Type_ h = TypeDir) = is_dir n.
Proof. destruct n; simpl; intros [= <-]; done. Qed.

Lemma entry_copied rel n : is_Some (entry root rel n) ↔ is_Some (copied n).
Proof. destruct n; simpl; split; intros [? [=]]; eauto. Qed.

Lemma unpackAll_progress seen todo dirs fs :
  WalkDir fs0 p = seen ++ todo → progress seen [] fs →
  ∃ fs', unpackAll user D root to (entries fs0 p root todo) None dirs fs = (reverse (made todo) ++ dirs, Ok tt, fs') ∧
    progress (seen ++ todo) [] fs'.
Proof.
  revert seen dirs fs. induction todo as [|rel todo IH]; intros seen dirs fs E Hp.
  { exists fs. by rewrite app_nil_r. }
  assert (is_Some (fs0 !! (p ++ rel))) as Hs by (apply elem_of_WalkDir; rewrite E; set_solver).
  assert (Forall Path.is_name rel) as Hrel by by eapply names_beneath.
  assert (∀ q r, rel = q ++ r → r ≠ [] → q ∈ seen) as Hq by by intros; eapply WalkDir_parents.
  assert (rel ∉ seen) as Hnew.
  { pose proof (NoDup_WalkDir fs0 p) as Hnd. rewrite E in Hnd. apply NoDup_app in Hnd as (_ & Hnd & _). set_solver. }
  assert (reaches fs rel) as Hr.
  { apply (progress_reaches seen []); [done..|]. intros q r ? ?. split; [by eapply Hq|apply not_elem_of_nil]. }
  assert (WalkDir fs0 p = (seen ++ [rel]) ++ todo) as E' by by rewrite <-app_assoc.
  replace (seen ++ rel :: todo) with ((seen ++ [rel]) ++ todo) by by rewrite <-app_assoc.
  destruct Hs as [n Hn]. rewrite (entries_cons _ _ n), made_cons by done. destruct (entry root rel n) as [h|] eqn:Hh.
  - assert (is_Some (copied n)) as Hc by by apply (entry_copied rel); rewrite Hh.
    assert (unpackEntry user D h (Str.join "/" (nm :: rel)) fs = (Ok true, put fs rel (staged n))) as Hu.
    { eapply unpackEntry_there; [done..|]. rewrite (unseen _ _ _ Hp) by done. destruct (Hfresh rel n Hn) as [?|(? & ? & _)]; auto. }
    cbn [option_list from_option option_rect app unpackAll]. rewrite (entryPath_entry rel n) by done. rewrite Hu, (entry_dir rel n) by done. cbn [andb].
    destruct (IH (seen ++ [rel]) (if is_dir n then (h, Str.join "/" (nm :: rel)) :: dirs else dirs) (put fs rel (staged n)))
      as (fs' & -> & Hp'); [done|by apply progress_put|].
    exists fs'. split; [|done]. rewrite (made_at_entry rel n h) by done. destruct (is_dir n); [|done].
    cbn [option_list from_option option_rect app]. by rewrite reverse_cons, <-app_assoc.
  - destruct (IH (seen ++ [rel]) dirs fs) as (fs' & Eq & Hp'); [done|by apply (progress_skip _ _ _ n); destruct n|].
    exists fs'. split; [|done]. unfold made_at. rewrite Hn. by destruct n.
Qed.

Lemma finishDirs_progress todo rest fs :
  WalkDir fs0 p = todo ++ rest → progress (WalkDir fs0 p) rest fs →
  ∃ fs', finishDirs user D (reverse (made todo)) (Ok tt) fs = (Ok tt, fs') ∧ progress (WalkDir fs0 p) (WalkDir fs0 p) fs'.
Proof.
  revert rest fs. induction todo as [|rel todo IH] using rev_ind; intros rest fs E Hp.
  { exists fs. by rewrite E in Hp |- *. }
  rewrite <-app_assoc in E. simpl in E.
  assert (rel ∈ WalkDir fs0 p) as Hin by (rewrite E; set_solver).
  assert (is_Some (fs0 !! (p ++ rel))) as [n Hn] by by apply elem_of_WalkDir.
  assert (Forall Path.is_name rel) as Hrel by by eapply names_beneath.
  assert (reverse (made (todo ++ [rel])) = option_list (made_at rel) ++ reverse (made todo)) as ->.
  { unfold made. rewrite omap_app, reverse_app. simpl. by destruct (made_at rel). }
  unfold made_at. rewrite Hn. destruct (is_dir n) eqn:Hd.
  - destruct n as [|mode mtime| |]; try done. cbn [entry fmap option_fmap option_map option_list from_option option_rect app finishDirs].
    pose proof (NoDup_WalkDir fs0 p) as Hnd. rewrite E in Hnd. apply NoDup_app in Hnd as (_ & Hnd' & Hnd).
    assert (reaches fs rel) as Hr.
    { apply (progress_reaches (WalkDir fs0 p) rest); [done|eauto|]. intros q r Eq Hne.
      assert (q ∈ todo) as Hq by by eapply WalkDir_parents. rewrite E. set_solver. }
    destruct (there _ _ _ Hp rel _ Hn Hin) as [[Hf _]|(_ & t & Ht)]; [by apply NoDup_cons in Hnd as [? _]|].
    rewrite (finishDir_there rel Hrel fs root mode mtime _ 448 t) by done.
    apply (IH (rel :: rest)); [done|]. by apply progress_finish.
  - assert (progress (WalkDir fs0 p) (rel :: rest) fs) as Hp' by (apply progress_file; [done|by rewrite Hn; simpl; rewrite Hd]).
    destruct (IH (rel :: rest) fs E Hp') as (fs' & Hf & Hp2). exists fs'. split; [|done]. by destruct n.
Qed.

Lemma unpacked_progress :
  ∃ fs', (let '(dirs, r, fs2) := unpackAll user D root to (entries fs0 p root (WalkDir fs0 p)) None [] fs1 in
          finishDirs user D dirs r fs2) = (Ok tt, fs') ∧ progress (WalkDir fs0 p) (WalkDir fs0 p) fs'.
Proof.
  destruct (unpackAll_progress [] (WalkDir fs0 p) [] fs1) as (fs2 & -> & Hp); [done| |].
  - split; [intros ? ? ? []%elem_of_nil|done..|eauto].
  - rewrite app_nil_r. apply (finishDirs_progress _ []); [by rewrite app_nil_r|done].
Qed.

End Progress.

End Unpacking.

Lemma topLevel_entry root n h : Path.is_name root → entry root [] n = Some h → topLevel (Name h) = root.
Proof.
  intros Hroot. destruct n; simpl; intros [= <-]; cbn [Name]; [|by apply topLevel_dir|];
    by apply (topLevel_names root Hroot []).
Qed.

(** C12: a copy is what was copied. What a path names is packed, and unpacked
    on another machine at a place that is free, or that a file is copied to
    over another file; the parent there can be written, and the umask leaves
    new directories to their owner. Then unpacking succeeds, what is at the
    place is what was packed, file by file, directory by directory and link by
    link, with contents and permissions and with times to the second, and
    nothing but the parent's time has changed beside it. *)
Theorem copy_is_faithful user user' fs fs' src p n hs dest dir name D mode mtime :
  tree_ok fs → EvalSymlinks user fs (Path.Clean src) = inr p → fs !! p = Some n → is_Some (copied n) →
  Path.is_name (Path.Base (Path.Clean src)) → Pack user fs src = Ok hs →
  tree_ok fs' → Z.land (umask user') 448 = 0%Z →
  placement user' fs' (Path.Clean dest) (is_dir n) = Ok (dir, name) → name = "" ∨ Path.is_name name →
  OpenRoot user' fs' dir = inr D → fs' !! D = Some (Dir mode mtime) →
  searchable user' mode = true → writable user' mode = true →
  let place := D ++ [landed (Path.Base (Path.Clean src)) name] in
  fs' !! place = None ∨ is_dir <$> fs' !! place ≠ Some true ∧ is_dir n = false →
  ∃ fs2, Unpack user' (mkStream hs None) dest fs' = (Ok tt, fs2) ∧
    (∀ rel, fs2 !! (place ++ rel) = fs !! (p ++ rel) ≫= copied) ∧
    (∀ k, k ≠ D → beneath place k = None → fs2 !! k = fs' !! k).
Proof.
  intros Hok Hl Hp Hc Hroot Hpack Hok' Hmask Hplace Hname Hopen HD Hsearch Hwrite place Hfree.
  pose proof (Pack_entries user fs src p n hs Hok Hl Hp Hroot Hpack) as ->. set (root := Path.Base _) in *.
  set (nm := landed root name) in *. assert (Path.is_name nm) as Hnm by by apply landed_name.
  assert (∀ rel, place ++ rel = D ++ nm :: rel) as Hat by by intros rel; unfold place; rewrite <-app_assoc.
  assert (∀ rel, rel ≠ [] → fs' !! (D ++ nm :: rel) = None) as Hbelow.
  { intros rel Hrel. rewrite <-Hat. apply nothing_beneath; [done| |done]. by destruct Hfree as [->|[? _]]. }
  edestruct (unpacked_progress user' Hmask D nm Hnm fs p Hok fs' mode mtime HD Hsearch Hwrite) as (fs2 & Hrun & Hprog);
    [|exact Hroot|exact Hname|done|].
  { intros [|e rel] m Hm; [|left; by apply Hbelow]. rewrite app_nil_r, Hp in Hm. injection Hm as <-. fold place. naive_solver. }
  exists fs2. split; [|split].
  - rewrite <-Hrun. unfold Unpack. cbn [headers ends]. destruct (WalkDir_head fs p) as [rels E]; [eauto|].
    destruct (proj2 (entry_copied root [] n) Hc) as [h Hh].
    assert (entries fs p root (WalkDir fs p) = h :: entries fs p root rels) as Eq.
    { rewrite E, (entries_cons _ _ _ _ _ n) by by rewrite app_nil_r. by rewrite Hh. }
    rewrite Eq. cbn [Name]. rewrite (entry_dir root [] n), Hplace, Hopen by done.
    by rewrite (topLevel_entry root n h).
  - intros rel. rewrite Hat. destruct (fs !! (p ++ rel)) as [m|] eqn:Hm; simpl.
    + assert (rel ∈ WalkDir fs p) as Hin by (apply elem_of_WalkDir; eauto).
      pose proof (there _ _ _ _ _ _ _ _ _ Hprog rel m Hm Hin) as Hs. destruct m; simpl in Hs; naive_solver.
    + rewrite (unseen _ _ _ _ _ _ _ _ _ Hprog) by (rewrite elem_of_WalkDir; intros [? ?]; congruence).
      apply Hbelow. intros ->. rewrite app_nil_r in Hm. congruence.
  - intros k. apply (elsewhere _ _ _ _ _ _ _ _ _ Hprog).
Qed.

(** *** An example *)

(** The checks of [tree_ok], one file at a time. *)
Definition entry_ok (fs : FS) (k : list string) (n : node) : Prop :=
  k = [] ∨ Path.is_name (List.last k "") ∧ is_dir <$> fs !! removelast k = Some true.

#[global] Instance entry_ok_dec fs k n : Decision (entry_ok fs k n).
Proof. unfold entry_ok. apply _. Defined.

Lemma tree_ok_entries fs : map_Forall (entry_ok fs) fs → tree_ok fs.
Proof.
  intros H k e n Hn. specialize (H _ _ Hn). destruct H as [?%app_eq_nil|[H1 H2]]; [naive_solver|].
  rewrite List.last_last in H1. rewrite removelast_last in H2. split; [done|].
  destruct (fs !! k) as [[]|]; simplify_eq/=; eauto.
Qed.

Ltac computed := apply (bool_decide_unpack _); vm_compute; exact I.

(** A directory with a file, a directory that cannot be written, a link out of
    it and a device. *)
Definition example_source : FS :=
  <[["home"; "src"] := Dir 493 1500000000]> (<[["home"; "src"; "a"] := File "text" 493 2400000000]>
  (<[["home"; "src"; "ro"] := Dir 365 0]> (<[["home"; "src"; "ro"; "up"] := Link "../.."]>
  (<[["home"; "src"; "dev"] := Special 420 0]> example_home)))).

Lemma copy_is_faithful_witness :
  ∃ hs fs2, Pack example_user example_source "src/" = Ok hs ∧
    Unpack example_user (mkStream hs None) "copy" example_source = (Ok tt, fs2) ∧
    (∀ rel, fs2 !! (["home"; "copy"] ++ rel) = example_source !! (["home"; "src"] ++ rel) ≫= copied).
Proof.
  assert (tree_ok example_source) as Hok by (apply tree_ok_entries; computed).
  destruct (Pack example_user example_source "src/") as [hs|e] eqn:E; [|vm_compute in E; discriminate].
  destruct (copy_is_faithful example_user example_user example_source example_source "src/" ["home"; "src"]
    (Dir 493 1500000000) hs "copy" "." "copy" ["home"] 448 0) as (fs2 & Hu & Hc & _);
    [exact Hok|vm_compute; reflexivity|vm_compute; reflexivity|by eexists|computed|exact E|exact Hok|reflexivity
    |vm_compute; reflexivity|right; computed|vm_compute; reflexivity|vm_compute; reflexivity|reflexivity|reflexivity
    |left; vm_compute; reflexivity|].
  exists hs, fs2. split; [reflexivity|split; [exact Hu|exact Hc]].
Defined.

Lemma unnamed_archive_cannot_be_unpacked_witness :
  ∃ hs e, Pack example_user example_source "." = Ok hs ∧
    Unpack example_user (mkStream hs None) "copy" example_source = (Err e, example_source).
Proof.
  destruct (Pack example_user example_source ".") as [hs|e] eqn:E; [|vm_compute in E; discriminate].
  destruct (unnamed_archive_cannot_be_unpacked example_user example_user example_source "." ["home"] 448 0 hs "copy" example_source)
    as [e He]; [vm_compute; reflexivity|vm_compute; reflexivity|reflexivity|exact E|]. exists hs, e. split; [reflexivity|exact He].
Defined.

End Copies.
