(* ===== verification/Naming.v ===== *)
(** * Names

    [internal/naming]: the rule every resource name follows, and the names
    the daemon makes up. The rule is a regular expression, transcribed as it
    is written and matched by derivatives; [lang] says what an expression
    matches, and the matcher is proved to decide it. *)

From S2P Require Import Prelude Errdefs.

(** ** Regular expressions *)
Module Regexp.

(** Regular expressions over bytes, with the operators the patterns use. *)
Inductive regexp :=
  | Void
  | Eps
  | Class (f : ascii → bool)
  | Seq (r1 r2 : regexp)
  | Alt (r1 r2 : regexp)
  | Star (r : regexp).

(** [r?] *)
Definition Opt (r : regexp) : regexp := Alt Eps r.

(** [r{0,n}] *)
Fixpoint UpTo (n : nat) (r : regexp) : regexp :=
  match n with
  | 0 => Eps
  | S n => Opt (Seq r (UpTo n r))
  end.

(** The strings an expression matches in full. *)
Inductive lang : regexp → list ascii → Prop :=
  | lang_eps : lang Eps []
  | lang_class f c : f c = true → lang (Class f) [c]
  | lang_seq r1 r2 s1 s2 : lang r1 s1 → lang r2 s2 → lang (Seq r1 r2) (s1 ++ s2)
  | lang_alt_l r1 r2 s : lang r1 s → lang (Alt r1 r2) s
  | lang_alt_r r1 r2 s : lang r2 s → lang (Alt r1 r2) s
  | lang_star_nil r : lang (Star r) []
  | lang_star_cons r c s1 s2 :
      lang r (c :: s1) → lang (Star r) s2 → lang (Star r) (c :: s1 ++ s2).

Fixpoint nullable (r : regexp) : bool :=
  match r with
  | Void => false
  | Eps => true
  | Class _ => false
  | Seq r1 r2 => nullable r1 && nullable r2
  | Alt r1 r2 => nullable r1 || nullable r2
  | Star _ => true
  end.

(** Smart constructors that keep derivatives small. *)
Definition seq (r1 r2 : regexp) : regexp :=
  match r1 with
  | Void => Void
  | Eps => r2
  | _ => Seq r1 r2
  end.

Definition alt (r1 r2 : regexp) : regexp :=
  match r1, r2 with
  | Void, r => r
  | r, Void => r
  | _, _ => Alt r1 r2
  end.

Fixpoint deriv (c : ascii) (r : regexp) : regexp :=
  match r with
  | Void => Void
  | Eps => Void
  | Class f => if f c then Eps else Void
  | Seq r1 r2 =>
      if nullable r1 then alt (seq (deriv c r1) r2) (deriv c r2)
      else seq (deriv c r1) r2
  | Alt r1 r2 => alt (deriv c r1) (deriv c r2)
  | Star r => seq (deriv c r) (Star r)
  end.

(** [MatchString] of a pattern anchored at both ends. *)
Fixpoint matches (r : regexp) (s : list ascii) : bool :=
  match s with
  | [] => nullable r
  | c :: s => matches (deriv c r) s
  end.

Lemma lang_inv r s :
  lang r s ↔
  match r with
  | Void => False
  | Eps => s = []
  | Class f => ∃ c, f c = true ∧ s = [c]
  | Seq r1 r2 => ∃ s1 s2, lang r1 s1 ∧ lang r2 s2 ∧ s = s1 ++ s2
  | Alt r1 r2 => lang r1 s ∨ lang r2 s
  | Star r => s = [] ∨ ∃ c s1 s2, lang r (c :: s1) ∧ lang (Star r) s2 ∧ s = c :: s1 ++ s2
  end.
Proof.
  split.
  - intros H; destruct H; naive_solver.
  - destruct r; [done|..]; intros H.
    + subst; constructor.
    + destruct H as (c & Hc & ->). by constructor.
    + destruct H as (s1 & s2 & H1 & H2 & ->). by constructor.
    + destruct H; [by apply lang_alt_l | by apply lang_alt_r].
    + destruct H as [->|(c & s1 & s2 & H1 & H2 & ->)]; by constructor.
Qed.

Lemma nullable_lang r : nullable r = true ↔ lang r [].
Proof.
  induction r as [| | |r1 IH1 r2 IH2|r1 IH1 r2 IH2|r IH]; rewrite lang_inv; simpl.
  - done.
  - done.
  - naive_solver.
  - rewrite andb_true_iff, IH1, IH2. split.
    + intros [??]. by exists [], [].
    + intros (s1 & s2 & H1 & H2 & [-> ->]%eq_sym%app_nil). done.
  - by rewrite orb_true_iff, IH1, IH2.
  - naive_solver.
Qed.

Lemma lang_seq_smart r1 r2 s : lang (seq r1 r2) s ↔ lang (Seq r1 r2) s.
Proof.
  destruct r1; try done; simpl; rewrite (lang_inv (Seq _ _)).
  - split; [by rewrite lang_inv | intros (?&?&H&_); by rewrite lang_inv in H].
  - split; [intros H; exists [], s; split_and!; [constructor|done..]|].
    intros (s1 & s2 & H1 & H2 & ->). rewrite lang_inv in H1. by subst.
Qed.

Lemma lang_alt_smart r1 r2 s : lang (alt r1 r2) s ↔ lang (Alt r1 r2) s.
Proof.
  assert (∀ s, lang Void s ↔ False) as HV by (intros; by rewrite lang_inv).
  destruct r1, r2; simpl; rewrite ?(lang_inv (Alt _ _)), ?HV; tauto.
Qed.

Lemma deriv_lang c r s : lang (deriv c r) s ↔ lang r (c :: s).
Proof.
  revert s; induction r as [| |f|r1 IH1 r2 IH2|r1 IH1 r2 IH2|r IH]; intros s; simpl.
  - by rewrite !lang_inv.
  - by rewrite !lang_inv.
  - rewrite (lang_inv (Class f)). destruct (f c) eqn:Hf; rewrite lang_inv.
    + split; [intros ->; by exists c | by intros (c' & Hc & [= -> ->])].
    + split; [done | intros (c' & Hc & [= -> ->]); congruence].
  - assert (lang (seq (deriv c r1) r2) s ↔
      ∃ s1 s2, lang r1 (c :: s1) ∧ lang r2 s2 ∧ s = s1 ++ s2) as Hseq.
    { rewrite lang_seq_smart, lang_inv. by setoid_rewrite IH1. }
    rewrite (lang_inv (Seq _ _)). destruct (nullable r1) eqn:Hn.
    + rewrite lang_alt_smart, lang_inv, Hseq, IH2. apply nullable_lang in Hn. split.
      * intros [(s1 & s2 & H1 & H2 & ->)|H]; [by exists (c :: s1), s2|by exists [], (c :: s)].
      * intros ([|c' s1] & s2 & H1 & H2 & Heq); simpl in Heq; [subst; by right|].
        injection Heq as <- ->. left; eauto.
    + rewrite Hseq. split; [intros (s1 & s2 & H1 & H2 & ->); by exists (c :: s1), s2|].
      intros ([|c' s1] & s2 & H1 & H2 & Heq); simpl in Heq.
      * apply nullable_lang in H1. congruence.
      * injection Heq as <- ->. eauto.
  - by rewrite lang_alt_smart, !(lang_inv (Alt _ _)), IH1, IH2.
  - rewrite lang_seq_smart, (lang_inv (Seq _ _)), (lang_inv (Star r)).
    setoid_rewrite IH. split; [|naive_solver].
    intros (s1 & s2 & H1 & H2 & ->). right. by exists c, s1, s2.
Qed.

(** The matcher decides the language. *)
Lemma matches_lang r s : matches r s = true ↔ lang r s.
Proof.
  revert r; induction s as [|c s IH]; intros r; simpl; [apply nullable_lang|].
  by rewrite IH, deriv_lang.
Qed.

Lemma lang_UpTo_class n f s :
  lang (UpTo n (Class f)) s ↔ length s ≤ n ∧ Forall (λ c, f c = true) s.
Proof.
  revert s; induction n as [|n IH]; intros s; simpl.
  { rewrite lang_inv. split; [by intros ->|]. intros [? _]. by destruct s; simpl in *; [|lia]. }
  unfold Opt. rewrite lang_inv, (lang_inv Eps), (lang_inv (Seq _ _)). split.
  - intros [->|(s1 & s2 & (c & Hc & ->)%lang_inv & [Hlen Hall]%IH & ->)]; [split; [simpl; lia|constructor]|].
    split; [simpl; lia|]. by constructor.
  - intros [Hlen Hall]. destruct Hall as [|c s Hc Hall]; [by left|right].
    exists [c], s. split_and!; [by constructor| |done]. apply IH. split; [simpl in Hlen; lia|done].
Qed.

End Regexp.

(** ** The naming rule *)
Module Naming.
Import Regexp.

Definition alnum : regexp := Class Str.is_alnum.

(** [[A-Za-z0-9-]] *)
Definition name_char (c : ascii) : bool := Str.is_alnum c || bool_decide (c = "-"%char).

(** [[A-Za-z0-9]([A-Za-z0-9-]{0,61}[A-Za-z0-9])?] *)
Definition labelPattern : regexp :=
  Seq alnum (Opt (Seq (UpTo 61 (Class name_char)) alnum)).

Definition namePattern : regexp :=
  Seq labelPattern (Star (Seq (Class (λ c, bool_decide (c = "."%char))) labelPattern)).

Definition maxNameLength : nat := 253.

Definition Validate (name : string) : result unit :=
  if (maxNameLength <? Str.len name) || negb (matches namePattern (Str.to_list name))
  then Err (InvalidArgument "invalid name %q: %s")
  else Ok tt.

Definition ValidateHostname (hostname : string) : result unit :=
  if bool_decide (hostname = "") then Ok tt
  else if maxNameLength <? Str.len hostname
       then Err (InvalidArgument "invalid hostname %q: it exceeds %d characters")
  else if negb (matches namePattern (Str.to_list hostname))
       then Err (InvalidArgument "invalid hostname %q: %s")
  else Ok tt.

(** [[a-z0-9-]], the complement of [notNameChars]. *)
Definition generated_char (c : ascii) : bool :=
  Str.is_lower c || Str.is_digit c || bool_decide (c = "-"%char).

(** [notNameChars.ReplaceAllString(s, "-")]: each longest run of bytes that a
    generated name cannot have becomes one hyphen. Every byte of a character
    outside ASCII is such a byte, so runs of characters are runs of bytes. *)
Fixpoint replaceNotNameChars (in_run : bool) (s : list ascii) : list ascii :=
  match s with
  | [] => []
  | c :: s =>
      if generated_char c then c :: replaceNotNameChars false s
      else if in_run then replaceNotNameChars true s
      else "-"%char :: replaceNotNameChars true s
  end.

Fixpoint trimLeftHyphens (s : list ascii) : list ascii :=
  match s with
  | c :: s' => if decide (c = "-"%char) then trimLeftHyphens s' else s
  | [] => []
  end.

(** [strings.TrimRight(s, "-")] *)
Definition trimRightHyphens (s : list ascii) : list ascii :=
  reverse (trimLeftHyphens (reverse s)).

(** [strings.Trim(s, "-")] *)
Definition trimHyphens (s : list ascii) : list ascii :=
  trimRightHyphens (trimLeftHyphens s).

Definition maxGeneratedBaseLength : nat := 40.

Definition generatedSuffixChars : list ascii :=
  Str.to_list "abcdefghijklmnopqrstuvwxyz0123456789".

Section Generate.

(** [strings.ToLower] of a string that is not all ASCII, by Unicode's case
    tables. *)
Context (unicodeToLower : string → string).

Definition ToLower (s : string) : string :=
  if forallb (λ c, (N_of_ascii c <? 128)%N) (Str.to_list s)
  then Str.to_lower s else unicodeToLower s.

(** The base of a generated name: the first half of [Generate]. *)
Definition generatedBase (base : string) : list ascii :=
  let base := trimHyphens (replaceNotNameChars false (Str.to_list (ToLower base))) in
  let base :=
    if maxGeneratedBaseLength <? length base
    then trimRightHyphens (take maxGeneratedBaseLength base) else base in
  if decide (base = []) then Str.to_list "instance" else base.

(** [random] holds the four bytes [rand.Read] fills in. *)
Definition generatedSuffix (random : nat → ascii) : list ascii :=
  (λ i, default "a"%char
     (generatedSuffixChars !! (nat_of_ascii (random i) mod length generatedSuffixChars)))
  <$> [0; 1; 2; 3].

Definition Generate (random : nat → ascii) (base : string) : string :=
  Str.of_list (generatedBase base ++ "-"%char :: generatedSuffix random).

(** [base[strings.LastIndexByte(base, '/')+1:]]: what is after the last slash. *)
Definition afterLastSlash (s : string) : string :=
  default "" (last (Str.split "/" s)).

Definition GenerateFromImage (random : nat → ascii) (imageRef : string) : string :=
  let base := (Str.cut "@" imageRef).1 in
  let base := afterLastSlash base in
  let base := (Str.cut ":" base).1 in
  Generate random base.

End Generate.

(** *** What the rule allows *)

(** A label: 1 to 63 letters, digits and hyphens, a letter or digit at each
    end. *)
Definition is_label (l : list ascii) : Prop :=
  1 ≤ length l ≤ 63 ∧ Forall (λ c, name_char c = true) l ∧
  (∃ c, head l = Some c ∧ Str.is_alnum c = true) ∧
  (∃ c, last l = Some c ∧ Str.is_alnum c = true).

Lemma alnum_name_char c : Str.is_alnum c = true → name_char c = true.
Proof. unfold name_char. by intros ->. Qed.

Lemma lang_label l : lang labelPattern l ↔ is_label l.
Proof.
  unfold labelPattern, is_label, alnum, Opt. split.
  - intros (s1 & s2 & (c & Hc & ->)%lang_inv & Ho & ->)%lang_inv.
    rewrite lang_inv, (lang_inv Eps), (lang_inv (Seq _ _)) in Ho.
    destruct Ho as [->|(m & e & [Hm Hf]%lang_UpTo_class & (d & Hd & ->)%lang_inv & ->)]; simpl.
    + split_and!; [lia..| |by exists c|by exists c]. constructor; [by apply alnum_name_char|done].
    + rewrite length_app; simpl. split_and!; [lia..| |by exists c|].
      * constructor; [by apply alnum_name_char|]. apply Forall_app; split; [done|].
        constructor; [by apply alnum_name_char|done].
      * exists d. split; [|done]. apply (last_snoc d (c :: m)).
  - intros (Hlen & Hf & (c & Hh & Hc) & (d & Hl & Hd)).
    destruct l as [|c' l]; [done|]. injection Hh as ->.
    apply (lang_seq _ _ [c] l); [by constructor|].
    destruct l as [|e m _] using rev_ind; [apply lang_alt_l; constructor|].
    rewrite app_comm_cons, last_snoc in Hl. injection Hl as ->.
    apply lang_alt_r. constructor; [|by constructor]. apply lang_UpTo_class.
    simpl in Hlen. rewrite length_app in Hlen. simpl in Hlen. split; [lia|].
    apply Forall_cons in Hf as [_ Hf]. by apply Forall_app in Hf as [? _].
Qed.

Lemma is_label_no_dot l : is_label l → "."%char ∉ l.
Proof.
  intros (_ & Hf & _) Hin. rewrite Forall_forall in Hf. by specialize (Hf _ Hin).
Qed.

Lemma lang_dotted s :
  lang (Star (Seq (Class (λ c, bool_decide (c = "."%char))) labelPattern)) s ↔
  ∃ ls, Forall is_label ls ∧ s = concat (cons "."%char <$> ls).
Proof.
  split.
  - intros H. remember (Star _) as r eqn:Hr. induction H as [| | | | | |r c s1 s2 H1 _ H2 IH]; try done.
    { by exists []. }
    injection Hr as ->. destruct (IH eq_refl) as (ls & Hls & ->).
    apply lang_inv in H1 as (d & l & (d' & Hd & ->)%lang_inv & Hl%lang_label & [= -> ->]).
    apply bool_decide_eq_true in Hd as ->. exists (l :: ls). split; [by constructor|done].
  - intros (ls & Hls & ->). induction Hls as [|l ls Hl Hls IH]; [constructor|].
    csimpl. apply (lang_star_cons _ "."%char l); [|done].
    apply (lang_seq _ _ ["."%char] l); [by constructor|by apply lang_label].
Qed.

Lemma split_labels l ls :
  is_label l → Forall is_label ls →
  Str.split_list "." (l ++ concat (cons "."%char <$> ls)) = l :: ls.
Proof.
  intros Hl Hls. revert l Hl; induction Hls as [|l' ls Hl' Hls IH]; intros l Hl; csimpl.
  - rewrite app_nil_r. by apply Str.split_list_no_sep, is_label_no_dot.
  - rewrite Str.split_list_app by by apply is_label_no_dot. by rewrite IH.
Qed.

(** The pattern matches exactly the dot-separated sequences of labels. *)
Lemma lang_name s : lang namePattern s ↔ Forall is_label (Str.split_list "." s).
Proof.
  unfold namePattern. rewrite lang_inv. setoid_rewrite lang_label. setoid_rewrite lang_dotted. split.
  - intros (l & s2 & Hl & (ls & Hls & ->) & ->). rewrite split_labels by done. by constructor.
  - intros H. destruct (Str.split_list_join "." s) as (l & ls & Hs & Heq & _).
    rewrite Hs in H. apply Forall_cons in H as [Hl Hls].
    exists l, (concat (cons "."%char <$> ls)). naive_solver.
Qed.

Lemma matches_name s :
  matches namePattern (Str.to_list s) = true ↔ Forall is_label (Str.split_list "." (Str.to_list s)).
Proof. by rewrite matches_lang, lang_name. Qed.

Definition valid_name (name : string) : Prop :=
  Str.len name ≤ 253 ∧ Forall is_label (Str.split_list "." (Str.to_list name)).

Lemma Validate_Ok name : Validate name = Ok tt ↔ valid_name name.
Proof.
  unfold Validate, valid_name, maxNameLength. rewrite <-matches_name.
  destruct (Nat.ltb_spec 253 (Str.len name)); simpl; [split; [done|lia]|].
  destruct (matches _ _); naive_solver.
Qed.

(** A label is no more than 63 bytes, so a name of one label is short. *)
Lemma valid_name_label l : is_label l → valid_name (Str.of_list l).
Proof.
  intros Hl. unfold valid_name, Str.len. rewrite Str.to_of_list.
  rewrite Str.split_list_no_sep by by apply is_label_no_dot.
  split; [destruct Hl; lia|by constructor].
Qed.

Lemma valid_name_chars name c :
  valid_name name → c ∈ Str.to_list name → name_char c = true ∨ c = "."%char.
Proof.
  intros [_ Hf] Hin. destruct (Str.split_list_join "." (Str.to_list name)) as (l & ls & Hs & Heq & _).
  rewrite Hs in Hf. rewrite Heq in Hin. apply Forall_cons in Hf as [Hl Hls].
  assert (∀ l', is_label l' → c ∈ l' → name_char c = true) as Hlab.
  { intros l' (_ & Hall & _) Hc. rewrite Forall_forall in Hall. auto. }
  apply elem_of_app in Hin as [Hin|Hin]; [left; eauto|].
  apply list_elem_of_In, in_concat in Hin as (p & Hpin & Hp).
  apply list_elem_of_In in Hp, Hpin. apply list_elem_of_fmap in Hpin as (l' & -> & Hl').
  rewrite Forall_forall in Hls. apply elem_of_cons in Hp as [->|Hp]; [by right|left; eauto].
Qed.

(** [Validate] accepts a name exactly when it is an RFC 1123 subdomain:
    at most 253 bytes, in dot-separated labels of 1 to 63 letters, digits and
    hyphens that each start and end with a letter or digit; any other is
    refused as an invalid argument. *)
Theorem Validate_spec name :
  (Validate name = Ok tt ↔ valid_name name) ∧
  (¬ valid_name name → ∃ e, Validate name = Err e ∧ Is e ErrInvalidArgument = true).
Proof.
  split; [apply Validate_Ok|]. rewrite <-Validate_Ok. unfold Validate.
  destruct (_ || _); naive_solver.
Qed.

(** A name [Validate] accepts is one component of a path, and stays
    inside the directory it is joined to: it is not empty, has no slash and
    no NUL byte, and starts with neither a dot, so that it is neither [.] nor
    [..], nor a hyphen. *)
Theorem Validate_path_safe name :
  Validate name = Ok tt →
  name ≠ "" ∧ name ≠ "." ∧ name ≠ ".." ∧
  ("/"%char ∉ Str.to_list name) ∧ (Ascii.zero ∉ Str.to_list name) ∧
  Str.has_prefix "." name = false ∧ Str.has_prefix "-" name = false.
Proof.
  rewrite Validate_Ok. intros Hv. pose proof (valid_name_chars name) as Hc.
  assert (∃ c s, name = String c s ∧ Str.is_alnum c = true) as (c & s & -> & Ha).
  { destruct Hv as [_ Hf].
    destruct (Str.split_list_join "." (Str.to_list name)) as (l & ls & Hs & Heq & _).
    rewrite Hs in Hf. apply Forall_cons in Hf as [(_ & _ & (c & Hh & Ha) & _) _].
    destruct l as [|c' l]; [done|]. injection Hh as ->.
    destruct name as [|c' name]; [done|]. injection Heq as -> _. eauto. }
  split_and!; try (intros [= -> ->]; done).
  - intros [[=]|[=]]%(Hc _ Hv).
  - intros [[=]|[=]]%(Hc _ Hv).
  - unfold Str.has_prefix. simpl. by destruct (decide _); subst.
  - unfold Str.has_prefix. simpl. by destruct (decide _); subst.
Qed.

Lemma Validate_path_safe_witness :
  Validate "vmlinux-6.1" = Ok tt ∧ "/"%char ∉ Str.to_list "vmlinux-6.1".
Proof.
  split; [vm_compute; reflexivity|].
  apply (Validate_path_safe "vmlinux-6.1"). vm_compute; reflexivity.
Defined.

(** *** Generated names *)

Lemma replaceNotNameChars_chars b s :
  Forall (λ c, generated_char c = true) (replaceNotNameChars b s).
Proof.
  revert b; induction s as [|c s IH]; intros b; simpl; [done|].
  destruct (generated_char c) eqn:Hc; [by constructor|]. destruct b; [done|by constructor].
Qed.

Lemma trimLeftHyphens_suffix s : ∃ p, s = p ++ trimLeftHyphens s ∧ Forall (eq "-"%char) p.
Proof.
  induction s as [|c s (p & Hp & Hf)]; simpl; [by exists []|].
  case_decide; [subst|by exists []]. exists ("-"%char :: p). split; [by rewrite Hp at 1|by constructor].
Qed.

Lemma trimLeftHyphens_head s c : head (trimLeftHyphens s) = Some c → c ≠ "-"%char.
Proof. induction s as [|d s IH]; simpl; [done|]. case_decide; [done|]. by intros [= ->]. Qed.

Lemma trimRightHyphens_prefix s : ∃ p, s = trimRightHyphens s ++ p ∧ Forall (eq "-"%char) p.
Proof.
  unfold trimRightHyphens. destruct (trimLeftHyphens_suffix (reverse s)) as (p & Hp & Hf).
  exists (reverse p). split; [|by apply Forall_reverse].
  by rewrite <-reverse_app, <-Hp, reverse_involutive.
Qed.

Lemma trimRightHyphens_last s c : last (trimRightHyphens s) = Some c → c ≠ "-"%char.
Proof.
  unfold trimRightHyphens. rewrite last_reverse. apply trimLeftHyphens_head.
Qed.

(** A base is kept only if it has a byte other than a hyphen at its start,
    which trimming on the right then keeps. *)
Lemma trimRightHyphens_head c s :
  c ≠ "-"%char → head (trimRightHyphens (c :: s)) = Some c.
Proof.
  intros Hc. destruct (trimRightHyphens_prefix (c :: s)) as (p & Hp & Hf).
  destruct (trimRightHyphens (c :: s)) as [|d l]; simpl in *.
  - subst p. by apply Forall_cons in Hf as [<- _].
  - by injection Hp as -> _.
Qed.

Lemma Forall_trimRight (P : ascii → Prop) s : Forall P s → Forall P (trimRightHyphens s).
Proof.
  destruct (trimRightHyphens_prefix s) as (p & Hp & _). rewrite Hp at 1.
  by intros [? _]%Forall_app.
Qed.

Lemma generated_name_char c : generated_char c = true → name_char c = true.
Proof.
  unfold generated_char, name_char, Str.is_alnum.
  by destruct (Str.is_lower c), (Str.is_upper c), (Str.is_digit c), (bool_decide _).
Qed.

Lemma generated_alnum c : generated_char c = true → c ≠ "-"%char → Str.is_alnum c = true.
Proof.
  unfold generated_char, Str.is_alnum. intros H Hc. rewrite bool_decide_eq_false_2 in H by done.
  destruct (Str.is_lower c), (Str.is_digit c), (Str.is_upper c); done.
Qed.

(** What the base of a generated name looks like. *)
Definition good_base (b : list ascii) : Prop :=
  (∃ c, head b = Some c ∧ Str.is_alnum c = true) ∧
  Forall (λ c, generated_char c = true) b ∧ length b ≤ 40.

Lemma trim_good s :
  Forall (λ c, generated_char c = true) s →
  (∀ c, head s = Some c → c ≠ "-"%char) → trimRightHyphens s ≠ [] →
  (∃ c, head (trimRightHyphens s) = Some c ∧ Str.is_alnum c = true) ∧
  Forall (λ c, generated_char c = true) (trimRightHyphens s).
Proof.
  intros Hf Hh Hne. split; [|by apply Forall_trimRight].
  destruct s as [|c s]; [done|]. specialize (Hh c eq_refl).
  exists c. split; [by apply trimRightHyphens_head|].
  apply generated_alnum; [by apply Forall_cons in Hf as [? _]|done].
Qed.

Lemma length_trimRight s : length (trimRightHyphens s) ≤ length s.
Proof.
  destruct (trimRightHyphens_prefix s) as (p & Hp & _). rewrite Hp at 2. rewrite length_app. lia.
Qed.

Lemma generatedBase_good lower base : good_base (generatedBase lower base).
Proof.
  unfold generatedBase, trimHyphens, maxGeneratedBaseLength.
  set (s := replaceNotNameChars _ _).
  assert (Forall (λ c, generated_char c = true) (trimLeftHyphens s)) as Hs.
  { pose proof (replaceNotNameChars_chars false (Str.to_list (ToLower lower base))) as H.
    fold s in H. destruct (trimLeftHyphens_suffix s) as (p & Hp & _). rewrite Hp in H.
    by apply Forall_app in H as [_ H]. }
  pose proof (trimLeftHyphens_head s) as Hh. set (t := trimLeftHyphens s) in *.
  assert (good_base (Str.to_list "instance")) as Hdefault.
  { split_and!; [by exists "i"%char | by repeat constructor | simpl; lia]. }
  destruct (Nat.ltb_spec 40 (length (trimRightHyphens t))) as [Hlt|Hle].
  - destruct (trim_good t) as [(c & Hc & Ha) Hf]; [done..| |].
    { intros E. rewrite E in Hlt. simpl in Hlt. lia. }
    destruct (trimRightHyphens t) as [|d u]; [done|]. injection Hc as ->.
    case_decide as E; [done|]. split_and!.
    + destruct (trim_good (take 40 (c :: u))) as [? _]; [by apply Forall_take| |done|done].
      intros d [= <-]. intros ->. done.
    + by apply Forall_trimRight, Forall_take.
    + etrans; [apply length_trimRight|]. rewrite length_take. lia.
  - case_decide as E; [done|]. destruct (trim_good t) as [? ?]; [done..|].
    split_and!; [done..|lia].
Qed.

Lemma generatedSuffix_chars random :
  length (generatedSuffix random) = 4 ∧
  Forall (λ c, Str.is_alnum c = true) (generatedSuffix random).
Proof.
  split; [done|]. unfold generatedSuffix. apply Forall_fmap, Forall_true. intros i. simpl.
  assert (Forall (λ c, Str.is_alnum c = true) generatedSuffixChars) as Hf by by repeat constructor.
  destruct (generatedSuffixChars !! _) as [c|] eqn:Hc; [|done]. simpl.
  exact (Forall_lookup_1 _ _ _ _ Hf Hc).
Qed.

(** A name the daemon makes up is always valid, whatever the base it is
    made from and whatever bytes were drawn: [Generate] and
    [GenerateFromImage] return names [Validate] accepts, of one label of at
    most 45 bytes. *)
Theorem Generate_valid lower random base :
  Validate (Generate lower random base) = Ok tt ∧
  Validate (GenerateFromImage lower random base) = Ok tt ∧
  Str.len (Generate lower random base) ≤ 45.
Proof.
  assert (∀ base, is_label (generatedBase lower base ++ "-"%char :: generatedSuffix random) ∧
    length (generatedBase lower base ++ "-"%char :: generatedSuffix random) ≤ 45) as H.
  { clear base; intros base. destruct (generatedBase_good lower base) as ((c & Hh & Hc) & Hf & Hlen).
    destruct (generatedSuffix_chars random) as [Hl Hs].
    set (b := generatedBase lower base) in *.
    assert (length (b ++ "-"%char :: generatedSuffix random) = length b + 5) as Hlen'
      by (rewrite length_app; simpl; lia).
    unfold is_label. rewrite Hlen'. destruct b as [|c' b]; [done|]. injection Hh as ->.
    split_and!; [lia..| |by exists c| |lia].
    - apply Forall_app; split; [eapply Forall_impl; [done|apply generated_name_char]|].
      constructor; [done|]. eapply Forall_impl; [done|apply alnum_name_char].
    - destruct (generatedSuffix random) as [|d1 [|d2 [|d3 [|d4 [|]]]]]; try done.
      exists d4. rewrite !Forall_cons in Hs. split; [by rewrite last_app|tauto]. }
  split_and!.
  - apply Validate_Ok, valid_name_label, H.
  - apply Validate_Ok, valid_name_label, H.
  - unfold Generate, Str.len. rewrite Str.to_of_list. apply H.
Qed.

End Naming.
