(* ===== verification/Health.v ===== *)
(** * Health checks

    [internal/health]: how an instance's health check is validated and filled
    in, and what a run of probe results makes of an instance's health. *)

From S2P Require Import Prelude Errdefs.

Module Health.

Definition DefaultInterval : Z := 10 * second.

Definition DefaultTimeout : Z := 5 * second.

Definition DefaultRetries : Z := 3.

Record HTTPProbe := mkHTTPProbe { HTTPProbe_Port : Z; HTTPProbe_Path : string }.

Record TCPProbe := mkTCPProbe { TCPProbe_Port : Z }.

Record Check := mkCheck {
  Exec : list string;
  HTTP : option HTTPProbe;
  TCP : option TCPProbe;
  Interval : Z;
  Timeout : Z;
  StartPeriod : Z;
  Retries : Z;
  Disabled : bool;
}.

#[global] Instance Check_eq_dec : EqDecision Check.
Proof.
  assert (EqDecision HTTPProbe) by solve_decision.
  assert (EqDecision TCPProbe) by solve_decision.
  solve_decision.
Defined.

Definition validatePort (port : Z) : result unit :=
  if (port <? 1)%Z || (65535 <? port)%Z
  then Err (InvalidArgument "health check port %d is not between 1 and 65535")
  else Ok tt.

(** The HTTP probe's part of [Check.Validate]. *)
Definition validateHTTP (c : Check) : result unit :=
  match HTTP c with
  | None => Ok tt
  | Some p =>
      validatePort (HTTPProbe_Port p) ;;
      refuse_if (negb (bool_decide (HTTPProbe_Path p = "")) && negb (Str.has_prefix "/" (HTTPProbe_Path p)))
        (InvalidArgument "health check path %q must begin with /")
  end.

Definition probes (c : Check) : nat :=
  (if bool_decide (Exec c = []) then 0 else 1) +
  (if HTTP c is Some _ then 1 else 0) + (if TCP c is Some _ then 1 else 0).

Definition Validate (c : Check) : result unit :=
  if Disabled c then Ok tt
  else
    validateHTTP c ;;
    match TCP c with None => Ok tt | Some p => validatePort (TCPProbe_Port p) end ;;
    refuse_if (negb (probes c =? 1))
      (InvalidArgument "a health check needs exactly one probe: a command, an HTTP port or a TCP port") ;;
    refuse_if ((Interval c <? 0)%Z || (Timeout c <? 0)%Z || (StartPeriod c <? 0)%Z)
      (InvalidArgument "health check durations cannot be negative") ;;
    refuse_if (Retries c <? 0)%Z (InvalidArgument "health check retries cannot be negative").

Definition or_default (z d : Z) : Z := if (z =? 0)%Z then d else z.

Definition WithDefaults (c : Check) : Check := {|
  Exec := Exec c; HTTP := HTTP c; TCP := TCP c;
  Interval := or_default (Interval c) DefaultInterval;
  Timeout := or_default (Timeout c) DefaultTimeout;
  StartPeriod := StartPeriod c;
  Retries := or_default (Retries c) DefaultRetries;
  Disabled := Disabled c;
|}.

(** [Check.String] *)
Definition Check_String (c : Check) : string :=
  if Disabled c then "disabled"
  else if negb (bool_decide (Exec c = [])) then "exec " +:+ Str.join " " (Exec c)
  else match HTTP c, TCP c with
       | Some p, _ =>
           "http :" +:+ Str.itoa (HTTPProbe_Port p) +:+
           (if bool_decide (HTTPProbe_Path p = "") then "/" else HTTPProbe_Path p)
       | None, Some p => "tcp :" +:+ Str.itoa (TCPProbe_Port p)
       | None, None => "none"
       end.

Definition EffectiveCheck (instance image : option Check) : option Check :=
  match (match instance with Some c => Some c | None => image end) with
  | None => None
  | Some chosen => if Disabled chosen then None else Some (WithDefaults chosen)
  end.

Inductive Status := StatusStarting | StatusHealthy | StatusUnhealthy.

#[global] Instance Status_eq_dec : EqDecision Status.
Proof. solve_decision. Defined.

Record Health := mkHealth {
  Health_Status : Status;
  FailingStreak : Z;
  LastCheck : Z;
  LastOutput : string;
}.

(** The zero time of an unset [time.Time]. *)
Definition New : Health := mkHealth StatusStarting 0 0 "".

Record Result := mkResult { Healthy : bool; Output : string; At : Z }.

Definition MaxProbeOutput : nat := 4096.

(** [utf8.RuneStart]: not a continuation byte, [10xxxxxx]. *)
Definition RuneStart (b : ascii) : bool :=
  negb (N.land (N_of_ascii b) 192 =? 128)%N.

(** The loop of [TruncateProbeOutput], which steps back to the start of a
    character. *)
Fixpoint backToRuneStart (n : nat) (s : list ascii) : nat :=
  match n with
  | 0 => 0
  | S n' =>
      match s !! n with
      | Some b => if RuneStart b then n else backToRuneStart n' s
      | None => n
      end
  end.

Definition TruncateProbeOutput (s : string) : string :=
  if Str.len s <=? MaxProbeOutput then s
  else Str.take (backToRuneStart MaxProbeOutput (Str.to_list s)) s.

(** [Health.After]: the health after one more probe. *)
Definition After (h : Health) (c : Check) (r : Result) (sinceStart : Z) : Health :=
  let output := TruncateProbeOutput (Output r) in
  if Healthy r then mkHealth StatusHealthy 0 (At r) output
  else if (sinceStart <? StartPeriod c)%Z
       then mkHealth (Health_Status h) (FailingStreak h) (At r) output
  else
    let streak := int64_wrap (FailingStreak h + 1) in
    mkHealth (if (Retries c <=? streak)%Z then StatusUnhealthy else Health_Status h)
      streak (At r) output.

Record Monitor := mkMonitor {
  monitor_check : Check;
  startedAt : Z;
  monitor_health : Health;
}.

Definition NewMonitor (check : Check) (startedAt : Z) : Monitor :=
  mkMonitor check startedAt New.

(** [Monitor.Observe]: the health before and after, and the monitor that
    holds it. *)
Definition Observe (m : Monitor) (r : Result) : (Health * Health) * Monitor :=
  let before := monitor_health m in
  let after := After before (monitor_check m) r (time_sub (At r) (startedAt m)) in
  ((before, after), mkMonitor (monitor_check m) (startedAt m) after).

(** The monitor after a history of probes, the oldest first. *)
Definition observe_all (m : Monitor) (history : list Result) : Monitor :=
  foldl (λ m r, (Observe m r).2) m history.

(** ** What a history of probes says, without the monitor *)

(** A failure counts once the start period is over. *)
Definition counts (c : Check) (started : Z) (r : Result) : bool :=
  negb (Healthy r) && negb (time_sub (At r) started <? StartPeriod c)%Z.

(** The failures that count since the last success; [recent] has the newest
    probe first. *)
Fixpoint streak (c : Check) (started : Z) (recent : list Result) : nat :=
  match recent with
  | [] => 0
  | r :: recent =>
      if Healthy r then 0
      else (if counts c started r then 1 else 0) + streak c started recent
  end.

(** The verdict: unhealthy once the streak reaches the retries; else healthy
    if any probe has passed; else starting. *)
Definition verdict (c : Check) (started : Z) (history : list Result) : Status :=
  if (Retries c <=? Z.of_nat (streak c started (reverse history)))%Z then StatusUnhealthy
  else if existsb Healthy history then StatusHealthy
  else StatusStarting.

Lemma streak_length c started recent : streak c started recent ≤ length recent.
Proof. induction recent as [|r recent IH]; simpl; [lia|]. destruct (Healthy r), (counts c started r); lia. Qed.

Lemma observe_all_snoc m history r :
  observe_all m (history ++ [r]) = (Observe (observe_all m history) r).2.
Proof. unfold observe_all. by rewrite foldl_app. Qed.

Lemma observe_all_static m history :
  monitor_check (observe_all m history) = monitor_check m ∧
  startedAt (observe_all m history) = startedAt m.
Proof. induction history as [|r l IH] using rev_ind; [done|]. by rewrite observe_all_snoc. Qed.

(** C35: what a health monitor reports after any history of probes is a
    function of that history: the failing streak counts the failures past the
    start period since the last success, the status is unhealthy exactly when
    that streak has reached the check's retries, healthy if it has not and
    some probe has passed, and starting otherwise. *)
Theorem monitor_verdict c started history :
  (1 ≤ Retries c)%Z → (Z.of_nat (length history) < 2 ^ 63)%Z →
  let h := monitor_health (observe_all (NewMonitor c started) history) in
  FailingStreak h = Z.of_nat (streak c started (reverse history)) ∧
  Health_Status h = verdict c started history.
Proof.
  intros Hretries. unfold verdict.
  induction history as [|r l IH] using rev_ind; intros Hlen; simpl.
  { destruct (Z.leb_spec (Retries c) (Z.of_nat 0)); [lia|done]. }
  rewrite length_app in Hlen; simpl in Hlen.
  destruct IH as [IHs IHv]; [lia|].
  destruct (observe_all_static (NewMonitor c started) l) as [Hc Hs].
  rewrite observe_all_snoc, reverse_snoc. unfold Observe. rewrite Hc, Hs. simpl.
  set (h := monitor_health _) in *. pose proof (streak_length c started (reverse l)) as Hsl.
  rewrite length_reverse in Hsl. rewrite existsb_app. unfold After, counts.
  destruct (Healthy r) eqn:Hr; simpl.
  { rewrite Hr, orb_true_r. destruct (Z.leb_spec (Retries c) (Z.of_nat 0)); [lia|done]. }
  rewrite Hr, !orb_false_r. destruct (_ <? StartPeriod c)%Z; simpl; [done|].
  rewrite IHs, int64_wrap_id by (unfold is_int64; lia).
  rewrite Nat2Z.inj_succ, <-Z.add_1_r. split; [done|]. rewrite IHv.
  destruct (Z.leb_spec (Retries c) (Z.of_nat (streak c started (reverse l)) + 1)); [done|].
  destruct (Z.leb_spec (Retries c) (Z.of_nat (streak c started (reverse l)))); [lia|done].
Qed.

Lemma monitor_verdict_witness :
  let c := mkCheck ["true"] None None 1 1 10 2 false in
  let history := [mkResult true "" 5; mkResult false "" 8; mkResult false "" 20; mkResult false "" 30] in
  Health_Status (monitor_health (observe_all (NewMonitor c 0) history)) = StatusUnhealthy.
Proof.
  intros c history. destruct (monitor_verdict c 0 history) as [_ ->]; [simpl; lia..|].
  vm_compute. reflexivity.
Defined.

Lemma backToRuneStart_spec n l :
  n < length l →
  backToRuneStart n l ≤ n ∧
  (backToRuneStart n l = 0 ∨ ∃ b, l !! backToRuneStart n l = Some b ∧ RuneStart b = true).
Proof.
  induction n as [|n IH]; intros Hl; [by split; [|left]|].
  simpl. destruct (lookup_lt_is_Some_2 l (S n) Hl) as [b Hb]. rewrite Hb.
  destruct (RuneStart b) eqn:Hr; [split; [done|right; eauto]|].
  destruct IH; [lia|]. split; [lia|done].
Qed.

(** Truncating a probe's output keeps a prefix of at most 4096 bytes
    that ends before the start of a character: the first byte left out is
    never a continuation byte, unless nothing is kept. A short output is kept
    whole. *)
Theorem TruncateProbeOutput_spec s :
  let kept := Str.to_list (TruncateProbeOutput s) in
  length kept ≤ MaxProbeOutput ∧ kept `prefix_of` Str.to_list s ∧
  (Str.len s ≤ MaxProbeOutput → TruncateProbeOutput s = s) ∧
  (kept = [] ∨ kept = Str.to_list s ∨
   ∃ b, Str.to_list s !! length kept = Some b ∧ RuneStart b = true).
Proof.
  unfold TruncateProbeOutput, Str.len. generalize MaxProbeOutput. intros m.
  destruct (Nat.leb_spec (length (Str.to_list s)) m); cbn zeta; [split_and!; auto|].
  rewrite Str.to_list_take, length_take.
  destruct (backToRuneStart_spec m (Str.to_list s)) as [Hle Hb]; [done|].
  set (n := backToRuneStart _ _) in *. replace (n `min` length (Str.to_list s)) with n by lia.
  split_and!; [lia|apply prefix_take|lia|].
  destruct Hb as [->|Hb]; [by left|by do 2 right].
Qed.

(** A check the daemon accepts has exactly one probe, on a port that exists,
    and timings that are not negative. *)
Lemma Check_Validate_Ok c :
  Validate c = Ok tt → Disabled c = false →
  probes c = 1 ∧ (0 ≤ Interval c ∧ 0 ≤ Timeout c ∧ 0 ≤ StartPeriod c ∧ 0 ≤ Retries c)%Z ∧
  (∀ p, HTTP c = Some p → (1 ≤ HTTPProbe_Port p ≤ 65535)%Z) ∧
  (∀ p, TCP c = Some p → (1 ≤ TCPProbe_Port p ≤ 65535)%Z).
Proof.
  unfold Validate, validateHTTP, validatePort. intros HV Hd. rewrite Hd in HV.
  destruct (HTTP c) as [[hp hpath]|], (TCP c) as [[tp]|]; simpl in *; inv_ok; simpl in *;
    simpl_bools; split_and!; naive_solver lia.
Qed.

(** A health check that passes validation is, with its defaults filled
    in, one the monitor can run: one probe, on a port between 1 and 65535, a
    positive interval between probes and at least one retry. *)
Theorem EffectiveCheck_runnable instance image c :
  (∀ i, instance = Some i → Validate i = Ok tt) → (∀ i, image = Some i → Validate i = Ok tt) →
  EffectiveCheck instance image = Some c →
  probes c = 1 ∧ (0 < Interval c ∧ 0 < Timeout c ∧ 0 ≤ StartPeriod c ∧ 1 ≤ Retries c)%Z ∧
  (∀ p, HTTP c = Some p → (1 ≤ HTTPProbe_Port p ≤ 65535)%Z) ∧
  (∀ p, TCP c = Some p → (1 ≤ TCPProbe_Port p ≤ 65535)%Z).
Proof.
  unfold EffectiveCheck. intros Hi Hm Hc.
  assert (∃ d, Validate d = Ok tt ∧ Disabled d = false ∧ c = WithDefaults d) as (d & HV & Hd & ->).
  { destruct instance as [d|]; [|destruct image as [d|]; [|done]];
      destruct (Disabled d) eqn:Hd; simplify_eq; eauto 10. }
  destruct (Check_Validate_Ok d HV Hd) as (Hp & Ht & Hh & Htcp).
  split_and!; simpl; unfold or_default, DefaultInterval, DefaultTimeout, DefaultRetries, second;
    repeat case_match; try lia; auto.
Qed.

Lemma EffectiveCheck_runnable_witness :
  let c := mkCheck [] (Some (mkHTTPProbe 3000 "/health")) None 0 0 0 0 false in
  Validate c = Ok tt ∧ (0 < Interval (WithDefaults c))%Z.
Proof.
  intros c. split; [reflexivity|].
  destruct (EffectiveCheck_runnable (Some c) None (WithDefaults c)) as (_ & [H _] & _);
    [by intros i [= <-]|done|reflexivity|exact H].
Defined.

End Health.
