(* ===== verification/Token.v ===== *)
(** * Tokens

    [internal/token/token.go]: the scopes a token has, what they allow, and
    how a token is written and read back. *)

From S2P Require Import Prelude Errdefs Naming.

Module Token.

Abbreviation Scope := string (only parsing).

Definition ScopeAll : Scope := "*".

Definition resourceScopes : list Scope :=
  [ "instances:read"; "instances:write"; "snapshots:read"; "snapshots:write";
    "networks:read"; "networks:write"; "volumes:read"; "volumes:write";
    "images:read"; "images:write"; "kernels:read"; "kernels:write";
    "tokens:read"; "tokens:write"; "events:read" ].

(** [Scope.Validate] *)
Definition Scope_Validate (s : Scope) : result unit :=
  if bool_decide (s = ScopeAll) || bool_decide (s ∈ resourceScopes) then Ok tt
  else Err (InvalidArgument "invalid scope %q: want %s, or one of %s").

Record Token := mkToken {
  ID : string;
  Name : string;
  SecretSHA256 : string;
  Scopes : list Scope;
  CreatedAt : Z;
  UpdatedAt : Z;
  LastUsedAt : Z;
}.

#[global] Instance Token_eq_dec : EqDecision Token.
Proof. solve_decision. Defined.

Definition isHexDigit (c : ascii) : bool :=
  Str.is_digit c || Str.in_range "a" "f" c || Str.in_range "A" "F" c.

(** [hex.DecodeString] succeeds on an even number of hexadecimal digits, and
    decodes two to a byte; a SHA-256 digest is 32 bytes. *)
Definition isSHA256Hex (s : string) : bool :=
  forallb isHexDigit (Str.to_list s) && (Str.len s =? 64).

Definition isFingerprint (s : string) : bool :=
  isSHA256Hex s && bool_decide (s = Str.to_lower s).

(** The loop of [Token.Validate] over the scopes; [before] are those already
    checked. *)
Fixpoint validateScopes (before scopes : list Scope) : result unit :=
  match scopes with
  | [] => Ok tt
  | scope :: scopes =>
      Scope_Validate scope ;;
      refuse_if (bool_decide (scope ∈ before)) (InvalidArgument "scope %q is given twice") ;;
      validateScopes (before ++ [scope]) scopes
  end.

Definition Validate (t : Token) : result unit :=
  Naming.Validate (Name t) ;;
  refuse_if (negb (isSHA256Hex (SecretSHA256 t))) (InvalidArgument "token %q has no secret's SHA-256") ;;
  refuse_if (bool_decide (Scopes t = [])) (InvalidArgument "a token needs at least one scope: %s for everything") ;;
  validateScopes [] (Scopes t) ;;
  refuse_if ((1 <? length (Scopes t)) && bool_decide (ScopeAll ∈ Scopes t))
    (InvalidArgument "scope %s allows everything already: give it alone").

Definition Allows (t : Token) (scope : Scope) : bool :=
  if bool_decide (ScopeAll ∈ Scopes t) || bool_decide (scope ∈ Scopes t) then true
  else match Str.cut_suffix ":read" scope with
       | Some resource => bool_decide (resource +:+ ":write" ∈ Scopes t)
       | None => false
       end.

Fixpoint AllowsAll (t : Token) (scopes : list Scope) : bool :=
  match scopes with
  | [] => true
  | scope :: scopes => if negb (Allows t scope) then false else AllowsAll t scopes
  end.

Definition Prefix : string := "dicer_".

Definition MinSecretLength : nat := 32.

Definition separator : ascii := "_".

(** The loop over the secret's characters: a character outside ASCII is no
    letter or digit, and none of its bytes is. *)
Definition ValidateSecret (s : string) : result unit :=
  if Str.len s <? MinSecretLength
  then Err (Errorf "%w: the secret has %d characters, fewer than %d" (Sentinel ErrInvalidToken))
  else if negb (forallb Str.is_alnum (Str.to_list s))
  then Err (Errorf "%w: the secret holds %q: want only letters and digits" (Sentinel ErrInvalidToken))
  else Ok tt.

Definition Format (secret fingerprint : string) : string :=
  if bool_decide (fingerprint = "") then Prefix +:+ secret
  else Prefix +:+ secret +:+ String separator fingerprint.

Definition Parse (s : string) : result (string * string) :=
  match Str.cut_prefix Prefix (Str.trim_space s) with
  | None => Err (Errorf "%w: it does not start with %s" (Sentinel ErrInvalidToken))
  | Some rest =>
      let '(secret, after) := Str.cut separator rest in
      let fingerprint := default "" after in
      ValidateSecret secret ;;
      if negb (bool_decide (fingerprint = "")) && negb (isFingerprint fingerprint)
      then Err (Errorf "%w: what follows the secret is not a fingerprint" (Sentinel ErrInvalidToken))
      else Ok (secret, fingerprint)
  end.

(** ** Lemmas *)

Lemma ValidateSecret_Ok s :
  ValidateSecret s = Ok tt ↔
  MinSecretLength ≤ Str.len s ∧ Forall (λ c, Str.is_alnum c = true) (Str.to_list s).
Proof.
  unfold ValidateSecret. destruct (Nat.ltb_spec (Str.len s) MinSecretLength).
  { split; [done|lia]. }
  assert (forallb Str.is_alnum (Str.to_list s) = true ↔ Forall (λ c, Str.is_alnum c = true) (Str.to_list s)) as <-.
  { rewrite forallb_forall, Forall_forall. by setoid_rewrite list_elem_of_In. }
  destruct (forallb _ _); naive_solver.
Qed.

Lemma alnum_no_separator l : Forall (λ c, Str.is_alnum c = true) l → separator ∉ l.
Proof. rewrite Forall_forall. intros H Hin. by specialize (H _ Hin). Qed.

Lemma hex_alnum c : isHexDigit c = true → Str.is_alnum c = true.
Proof.
  unfold isHexDigit, Str.is_alnum, Str.is_digit, Str.is_lower, Str.is_upper, Str.in_range.
  rewrite !orb_true_iff, !andb_true_iff, !N.leb_le. intros H.
  change (N_of_ascii "f") with 102%N in H. change (N_of_ascii "F") with 70%N in H.
  change (N_of_ascii "z") with 122%N. change (N_of_ascii "Z") with 90%N. lia.
Qed.

Lemma fingerprint_alnum s :
  isFingerprint s = true → Forall (λ c, Str.is_alnum c = true) (Str.to_list s).
Proof.
  unfold isFingerprint, isSHA256Hex. intros H. simpl_bools.
  match goal with H : forallb _ _ = true |- _ => rewrite forallb_forall in H; rename H into Hf end.
  apply Forall_forall. intros c Hc. apply hex_alnum, Hf. by apply list_elem_of_In.
Qed.

Lemma cut_None sep s : sep ∉ Str.to_list s → Str.cut sep s = (s, None).
Proof.
  induction s as [|c s IH]; simpl; intros H; [done|].
  rewrite decide_False by set_solver. by rewrite IH by set_solver.
Qed.

Lemma cut_snd_None sep s a : Str.cut sep s = (a, None) → a = s.
Proof.
  revert a; induction s as [|c s IH]; simpl; intros a; [by intros [= <-]|].
  case_decide; [done|]. destruct (Str.cut sep s) as [x y]. intros [= <- ->]. by rewrite (IH x).
Qed.

(** [cut] at the separator of what follows the prefix. *)
Lemma Parse_body secret fingerprint :
  Forall (λ c, Str.is_alnum c = true) (Str.to_list secret) →
  let '(s, after) := Str.cut separator
    (if bool_decide (fingerprint = "") then secret else secret +:+ String separator fingerprint) in
  s = secret ∧ default "" after = fingerprint.
Proof.
  intros Hs%alnum_no_separator. case_bool_decide as Hf.
  - subst. by rewrite cut_None.
  - assert (Str.cut separator (secret +:+ String separator fingerprint) = (secret, Some fingerprint)) as ->.
    { by apply Str.cut_Some. }
    done.
Qed.

Lemma last_alnum l : l ≠ [] → Forall (λ c, Str.is_alnum c = true) l →
  ∃ c, last l = Some c ∧ Str.is_alnum c = true.
Proof.
  intros Hl Hf. destruct l as [|c l _] using rev_ind; [done|].
  rewrite last_snoc. apply Forall_app in Hf as [_ Hf]. apply Forall_cons in Hf as [Hf _]. eauto.
Qed.

(** A token has a letter at its start and a letter or digit at its end. *)
Lemma Format_trim secret fingerprint :
  ValidateSecret secret = Ok tt → fingerprint = "" ∨ isFingerprint fingerprint = true →
  Str.trim_space (Format secret fingerprint) = Format secret fingerprint.
Proof.
  intros [Hlen Hs]%ValidateSecret_Ok Hf.
  assert (∃ t, Format secret fingerprint = Prefix +:+ t ∧
    ∃ c, last (Str.to_list t) = Some c ∧ Str.is_alnum c = true) as (t & -> & d & Hl & Hd).
  { unfold Format. case_bool_decide as Hfp.
    - eexists; split; [done|]. apply last_alnum; [|done].
      unfold Str.len, MinSecretLength in Hlen. intros E. rewrite E in Hlen. simpl in Hlen. lia.
    - destruct Hf as [?|Hf%fingerprint_alnum]; [done|]. eexists; split; [done|].
      rewrite Str.to_list_app, last_app. cbn [Str.to_list]. destruct (Str.to_list fingerprint) as [|c l] eqn:E.
      + by apply (Str.to_list_inj fingerprint "") in E.
      + destruct (last_alnum (c :: l)) as (d & Hd & Ha); [done..|].
        exists d. split; [|done]. change (last (separator :: c :: l)) with (last (c :: l)). by rewrite Hd. }
  apply (Str.trim_space_id _ "d" d); [done| |done|done].
  rewrite Str.to_list_app, last_app, Hl. done.
Qed.

(** A write scope is not a read scope. *)
Lemma cut_read_write r : Str.cut_suffix ":read" (r +:+ ":write") = None.
Proof.
  destruct (Str.cut_suffix _ _) as [t|] eqn:E; [|done]. apply Str.cut_suffix_Some in E.
  apply (f_equal (λ s, last (Str.to_list s))) in E. rewrite !Str.to_list_app, !last_app in E.
  discriminate E.
Qed.

Lemma AllowsAll_spec t scopes :
  AllowsAll t scopes = true ↔ ∀ s, s ∈ scopes → Allows t s = true.
Proof.
  induction scopes as [|s scopes IH]; simpl; [set_solver|].
  destruct (Allows t s) eqn:Hs; simpl; [rewrite IH|]; set_solver.
Qed.

(** Allowing every scope of a token is allowing all that the token allows. *)
Lemma AllowsAll_dominates caller t :
  AllowsAll caller (Scopes t) = true → ∀ s, Allows t s = true → Allows caller s = true.
Proof.
  rewrite AllowsAll_spec. intros Hall s Hs.
  assert (ScopeAll ∈ Scopes caller → Allows caller s = true) as Hstar.
  { intros H. unfold Allows. by rewrite bool_decide_true. }
  assert (ScopeAll ∈ Scopes t → Allows caller s = true) as Hstar_t.
  { intros H. specialize (Hall _ H). unfold Allows in Hall.
    destruct (bool_decide (ScopeAll ∈ Scopes caller)) eqn:E; simpl in Hall; [simpl_bools; auto|done]. }
  unfold Allows in Hs. destruct (bool_decide (ScopeAll ∈ Scopes t)) eqn:E1; [simpl_bools; auto|].
  destruct (bool_decide (s ∈ Scopes t)) eqn:E2; [simpl_bools; auto|]. simpl in Hs.
  destruct (Str.cut_suffix ":read" s) as [r|] eqn:Hr; [|done]. simpl_bools.
  specialize (Hall _ Hs). unfold Allows in Hall. rewrite cut_read_write in Hall.
  destruct (bool_decide (ScopeAll ∈ Scopes caller)) eqn:E3; simpl in Hall; [simpl_bools; auto|].
  unfold Allows. rewrite E3, Hr. destruct (bool_decide (s ∈ _)); [done|]. simpl.
  destruct (bool_decide (r +:+ ":write" ∈ _)); done.
Qed.

(** What [Format] writes, [Parse] reads. *)
Lemma Parse_Format secret fingerprint :
  ValidateSecret secret = Ok tt → fingerprint = "" ∨ isFingerprint fingerprint = true →
  Parse (Format secret fingerprint) = Ok (secret, fingerprint).
Proof.
  intros HV Hf. unfold Parse. rewrite Format_trim by done.
  pose proof (Parse_body secret fingerprint) as Hb. unfold Format.
  assert (Str.cut_prefix Prefix (if bool_decide (fingerprint = "") then Prefix +:+ secret
    else Prefix +:+ secret +:+ String separator fingerprint) =
    Some (if bool_decide (fingerprint = "") then secret else secret +:+ String separator fingerprint)) as ->.
  { case_bool_decide; apply Str.cut_prefix_app. }
  destruct (Str.cut _ _) as [s after]. destruct Hb as [-> ->]; [by apply ValidateSecret_Ok in HV as []|].
  rewrite HV. simpl. case_bool_decide; [done|]. destruct Hf as [?| ->]; done.
Qed.

Lemma Parse_Format_witness :
  let secret := "abcdefghijklmnopqrstuvwxyz234567" in
  Parse (Format secret "") = Ok (secret, "").
Proof. intros secret. apply (Parse_Format secret ""); [reflexivity|by left]. Defined.

(** [Parse] accepts nothing else: a string it accepts is, between white
    space, the token of the secret and fingerprint it returns, at most with
    an empty fingerprint's separator left at its end; the secret has at least
    32 letters and digits. *)
Theorem Parse_sound s secret fingerprint :
  Parse s = Ok (secret, fingerprint) →
  ValidateSecret secret = Ok tt ∧ (fingerprint = "" ∨ isFingerprint fingerprint = true) ∧
  (Str.trim_space s = Format secret fingerprint ∨
   fingerprint = "" ∧ Str.trim_space s = Format secret "" +:+ "_").
Proof.
  unfold Parse. destruct (Str.cut_prefix _ _) as [rest|] eqn:Hp; [|done].
  apply Str.cut_prefix_Some in Hp. rewrite Hp.
  destruct (Str.cut separator rest) as [a after] eqn:Hcut. intros H. inv_ok.
  split; [done|]. unfold Format. destruct after as [b|]; simpl in *.
  - apply Str.cut_Some in Hcut as [-> _]. case_bool_decide; [subst|].
    + split; [by left|]. right. split; [done|]. apply Str.to_list_inj. by rewrite !Str.to_list_app, <-app_assoc.
    + split; [|by left]. right. simpl in *. by destruct (isFingerprint b).
  - apply cut_snd_None in Hcut as ->. auto.
Qed.

Lemma Parse_sound_witness :
  ValidateSecret "abcdefghijklmnopqrstuvwxyz234567" = Ok tt.
Proof.
  apply (Parse_sound " dicer_abcdefghijklmnopqrstuvwxyz234567 " _ "").
  vm_compute. reflexivity.
Defined.

End Token.
