(* ===== verification/Addr.v ===== *)
(** * IP addresses

    What the daemon uses of Go's [net] and [net/netip]: parsing and printing
    addresses and CIDR prefixes, masks, containment and overlap. A [net.IP]
    is a slice of 4 or 16 bytes, and is one here: a list of integers from 0
    to 255. *)

From S2P Require Import Prelude.

Module Addr.

Abbreviation IP := (list Z) (only parsing).

Definition is_byte (b : Z) : Prop := (0 ≤ b < 256)%Z.

#[global] Instance is_byte_dec b : Decision (is_byte b).
Proof. unfold is_byte. apply _. Defined.

(** ** Parsing *)

Definition digit (c : ascii) : option Z :=
  if Str.is_digit c then Some (Z.of_N (N_of_ascii c) - 48)%Z else None.

Definition hex_digit (c : ascii) : option Z :=
  if Str.is_digit c then Some (Z.of_N (N_of_ascii c) - 48)%Z
  else if Str.in_range "a" "f" c then Some (Z.of_N (N_of_ascii c) - 87)%Z
  else if Str.in_range "A" "F" c then Some (Z.of_N (N_of_ascii c) - 55)%Z
  else None.

(** One decimal field of an IPv4 address: no leading zero, at most 255. *)
Fixpoint octet_loop (digLen : nat) (val : Z) (l : list ascii) : option Z :=
  match l with
  | [] => Some val
  | c :: l =>
      match digit c with
      | None => None
      | Some d =>
          if (digLen =? 1) && (val =? 0)%Z then None
          else
            let val := (val * 10 + d)%Z in
            if (255 <? val)%Z then None else octet_loop (S digLen) val l
      end
  end.

Definition parse_octet (l : list ascii) : option Z :=
  match l with [] => None | _ => octet_loop 0 0 l end.

(** [netip.parseIPv4Fields]: exactly four fields. *)
Definition parseIPv4Fields (l : list ascii) : option IP :=
  match mapM parse_octet (Str.split_list "." l) with
  | Some [a; b; c; d] => Some [a; b; c; d]
  | _ => None
  end.

(** The hexadecimal digits at the start of [l], at most four, their value and
    what follows them; [None] if there are more. *)
Fixpoint hex_group (off : nat) (acc : Z) (l : list ascii) : option (nat * Z * list ascii) :=
  match l with
  | [] => Some (off, acc, [])
  | c :: l' =>
      match hex_digit c with
      | None => Some (off, acc, l)
      | Some d => if 3 <? off then None else hex_group (S off) (acc * 16 + d)%Z l'
      end
  end.

Definition starts_with (c : ascii) (l : list ascii) : bool := bool_decide (head l = Some c).

(** The loop of [netip.parseIPv6]: [ip] are the bytes read, [ellipsis] where
    a [::] was. It ends with what is left of the string. A round reads two
    bytes at least, so 8 rounds of fuel read all 16. *)
Fixpoint ipv6_loop (fuel : nat) (ip : IP) (ellipsis : option nat) (s : list ascii)
  : option (IP * option nat * list ascii) :=
  match fuel with
  | 0 => Some (ip, ellipsis, s)
  | S fuel =>
      match hex_group 0 0 s with
      | None => None
      | Some (off, acc, rest) =>
          if off =? 0 then None
          else if starts_with "." rest then
            if bool_decide (ellipsis = None) && negb (length ip =? 12) then None
            else if 16 <? length ip + 4 then None
            else (λ fields, (ip ++ fields, ellipsis, [])) <$> parseIPv4Fields s
          else
            let ip := ip ++ [Z.shiftr acc 8; Z.land acc 255] in
            match rest with
            | [] => Some (ip, ellipsis, [])
            | _ :: rest' =>
                if negb (starts_with ":" rest) || bool_decide (rest' = []) then None
                else if starts_with ":" rest' then
                  if negb (bool_decide (ellipsis = None)) then None
                  else if bool_decide (tail rest' = []) then Some (ip, Some (length ip), [])
                  else ipv6_loop fuel ip (Some (length ip)) (tail rest')
                else ipv6_loop fuel ip ellipsis rest'
            end
      end
  end.

(** The end of [netip.parseIPv6]: the whole string is used, and an ellipsis
    stands for at least one group of zeros. *)
Definition ipv6_expand (r : IP * option nat * list ascii) : option IP :=
  let '(ip, ellipsis, rest) := r in
  match rest with
  | _ :: _ => None
  | [] =>
      match ellipsis with
      | None => if length ip <? 16 then None else Some ip
      | Some e =>
          if length ip <? 16
          then Some (take e ip ++ replicate (16 - length ip) 0%Z ++ drop e ip)
          else None
      end
  end.

(** [netip.parseIPv6]: the 16 bytes and the zone. *)
Definition parseIPv6 (l : list ascii) : option (IP * list ascii) :=
  let s := default [] (head (Str.split_list "%" l)) in
  let zone := drop (S (length s)) l in
  if bool_decide ("%"%char ∈ l) && bool_decide (zone = []) then None
  else if starts_with ":" s && starts_with ":" (tail s) then
    if bool_decide (drop 2 s = []) then Some (replicate 16 0%Z, zone)
    else (λ ip, (ip, zone)) <$> (ipv6_loop 8 [] (Some 0) (drop 2 s) ≫= ipv6_expand)
  else (λ ip, (ip, zone)) <$> (ipv6_loop 8 [] None s ≫= ipv6_expand).

(** The first of ['.'], [':'] and ['%'] says which kind of address it is. *)
Fixpoint address_kind (l : list ascii) : option ascii :=
  match l with
  | [] => None
  | c :: l =>
      if bool_decide (c = "."%char ∨ c = ":"%char ∨ c = "%"%char) then Some c
      else address_kind l
  end.

(** [netip.ParseAddr]: the 4 or 16 bytes of the address, and its zone. *)
Definition ParseAddr (s : string) : option (IP * list ascii) :=
  let l := Str.to_list s in
  if bool_decide (address_kind l = Some "."%char) then (λ ip, (ip, [])) <$> parseIPv4Fields l
  else if bool_decide (address_kind l = Some ":"%char) then parseIPv6 l
  else None.

Definition v4InV6Prefix : list Z := replicate 10 0%Z ++ [255; 255]%Z.

Definition As16 (ip : IP) : IP := if length ip =? 4 then v4InV6Prefix ++ ip else ip.

(** [net.ParseIP]: an address without a zone, in 16 bytes. *)
Definition ParseIP (s : string) : option IP :=
  match ParseAddr s with
  | Some (ip, []) => Some (As16 ip)
  | _ => None
  end.

(** [IP.To4] *)
Definition To4 (ip : IP) : option IP :=
  if length ip =? 4 then Some ip
  else if (length ip =? 16) && bool_decide (take 12 ip = v4InV6Prefix) then Some (drop 12 ip)
  else None.

(** [IP.IsLoopback] *)
Definition IsLoopback (ip : IP) : bool :=
  match To4 ip with
  | Some (a :: _) => (a =? 127)%Z
  | Some [] => false
  | None => bool_decide (ip = replicate 15 0%Z ++ [1%Z])
  end.

(** [IP.String] of a 4-byte address. *)
Definition String4 (ip : IP) : string := Str.join "." (Str.itoa <$> ip).

(** ** Prefixes *)

(** Byte [i] of [net.CIDRMask(ones, bits)]. *)
Definition mask_byte (ones : Z) (i : nat) : Z :=
  (256 - 2 ^ (8 - Z.max 0 (Z.min 8 (ones - 8 * Z.of_nat i))))%Z.

Definition CIDRMask (ones bits : Z) : list Z :=
  mask_byte ones <$> seq 0 (Z.to_nat (bits / 8)).

(** [net.IPNet]. Every one comes from [ParseCIDR], so its mask is
    [CIDRMask ones bits], and [Mask.Size()] is [(ones, bits)]. *)
Record IPNet := mkIPNet { IPNet_IP : IP; IPNet_ones : Z; IPNet_bits : Z }.

Definition IPNet_Mask (n : IPNet) : list Z := CIDRMask (IPNet_ones n) (IPNet_bits n).

(** [IP.Mask] of an address by a mask of its length, or of a 16-byte form of
    an IPv4 address by a 4-byte mask. *)
Definition IP_Mask (ip : IP) (mask : list Z) : IP :=
  let ip := if (length mask =? 4) && (length ip =? 16) && bool_decide (take 12 ip = v4InV6Prefix)
            then drop 12 ip else ip in
  zip_with Z.land ip mask.

(** [net.dtoi] of a whole string: decimal digits, fewer than 0xFFFFFF. *)
Fixpoint dtoi_loop (n : Z) (l : list ascii) : option Z :=
  match l with
  | [] => Some n
  | c :: l =>
      match digit c with
      | None => None
      | Some d =>
          let n := (n * 10 + d)%Z in
          if (16777215 <=? n)%Z then None else dtoi_loop n l
      end
  end.

Definition dtoi (s : string) : option Z :=
  match Str.to_list s with [] => None | l => dtoi_loop 0 l end.

Definition BitLen (ip : IP) : Z := (8 * Z.of_nat (length ip))%Z.

(** [net.ParseCIDR]: the network it names. *)
Definition ParseCIDR (s : string) : option IPNet :=
  match Str.cut "/" s with
  | (_, None) => None
  | (addr, Some mask) =>
      match ParseAddr addr, dtoi mask with
      | Some (ip, []), Some n =>
          if (BitLen ip <? n)%Z then None
          else Some (mkIPNet (IP_Mask (As16 ip) (CIDRMask n (BitLen ip))) n (BitLen ip))
      | _, _ => None
      end
  end.

(** [IPNet.String] of an IPv4 network. *)
Definition IPNet_String (n : IPNet) : string :=
  String4 (IPNet_IP n) +:+ "/" +:+ Str.itoa (IPNet_ones n).

(** [IPNet.Contains] of a 4-byte address. The mask of a network written in 16
    bytes whose address is IPv4 is the end of its mask. *)
Definition Contains4 (n : IPNet) (ip4 : IP) : bool :=
  match To4 (IPNet_IP n) with
  | None => false
  | Some nn =>
      let mask := if length (IPNet_Mask n) =? 16 then drop 12 (IPNet_Mask n) else IPNet_Mask n in
      bool_decide (zip_with Z.land nn mask = zip_with Z.land ip4 mask)
  end.

(** [netip.Prefix]: the bytes of an address, and a number of bits. *)
Record Prefix := mkPrefix { Prefix_ip : IP; Prefix_bits : Z }.

#[global] Instance Prefix_eq_dec : EqDecision Prefix.
Proof. solve_decision. Defined.

(** [strconv.Atoi] of digits without a sign or a leading zero. *)
Definition parse_bits (l : list ascii) : option Z :=
  match l with
  | [] => None
  | [c] => digit c
  | c :: _ => if Str.in_range "1" "9" c then dtoi_loop 0 l else None
  end.

(** [netip.ParsePrefix]. A prefix has one slash at most, or its address does
    not parse, so the last slash is the first. *)
Definition ParsePrefix (s : string) : option Prefix :=
  match Str.cut "/" s with
  | (_, None) => None
  | (addr, Some bits) =>
      match ParseAddr addr, parse_bits (Str.to_list bits) with
      | Some (ip, []), Some n =>
          if (BitLen ip <? n)%Z then None else Some (mkPrefix ip n)
      | _, _ => None
      end
  end.

(** [Addr.Prefix]: the address with all but its first [bits] bits cleared. *)
Definition masked (ip : IP) (bits : Z) : IP := zip_with Z.land ip (CIDRMask bits (BitLen ip)).

(** [Prefix.Overlaps] *)
Definition Overlaps (p o : Prefix) : bool :=
  if bool_decide (p = o) then true
  else if negb (eqb (length (Prefix_ip p) =? 4) (length (Prefix_ip o) =? 4)) then false
  else
    let minBits := Z.min (Prefix_bits p) (Prefix_bits o) in
    if (minBits =? 0)%Z then true
    else bool_decide (masked (Prefix_ip p) minBits = masked (Prefix_ip o) minBits).

(** [net.JoinHostPort] *)
Definition JoinHostPort (host port : string) : string :=
  if Str.contains_byte ":" host then "[" +:+ host +:+ "]:" +:+ port else host +:+ ":" +:+ port.

(** The number an IPv4 address is. *)
Definition value (ip : IP) : Z := foldl (λ v b, (v * 256 + b)%Z) 0%Z ip.

(** The 4 bytes of a number. *)
Definition bytes4 (v : Z) : IP :=
  (λ i, Z.land (Z.shiftr v i) 255) <$> [24; 16; 8; 0]%Z.

Definition is_ip4 (ip : IP) : Prop := length ip = 4 ∧ Forall is_byte ip.

(** ** Lemmas on bytes *)

(** [lia] solves the divisions by constants below. *)
#[local] Ltac Zify.zify_post_hook ::= Z.to_euclidean_division_equations.

(** A decidable fact of every byte is checked by evaluation. *)
Lemma byte_forall (f : Z → bool) :
  forallb f (seqZ 0 256) = true → ∀ b, is_byte b → f b = true.
Proof.
  rewrite forallb_forall. intros H b Hb. apply H, list_elem_of_In, elem_of_seqZ. unfold is_byte in Hb. lia.
Qed.

Lemma small_forall (n : Z) (f : Z → bool) :
  forallb f (seqZ 0 n) = true → ∀ b, (0 ≤ b < n)%Z → f b = true.
Proof. rewrite forallb_forall. intros H b Hb. apply H, list_elem_of_In, elem_of_seqZ. lia. Qed.

Lemma itoa_octet b :
  is_byte b →
  parse_octet (Str.to_list (Str.itoa b)) = Some b ∧
  Forall (λ c, Str.is_digit c = true) (Str.to_list (Str.itoa b)) ∧
  Str.to_list (Str.itoa b) ≠ [].
Proof.
  intros Hb.
  pose proof (byte_forall (λ b, bool_decide (parse_octet (Str.to_list (Str.itoa b)) = Some b ∧
    Forall (λ c, Str.is_digit c = true) (Str.to_list (Str.itoa b)) ∧
    Str.to_list (Str.itoa b) ≠ []))) as H.
  refine (bool_decide_eq_true_1 _ (H _ b Hb)). vm_compute. reflexivity.
Qed.

Lemma digits_no_char c l :
  Str.is_digit c = false → Forall (λ c, Str.is_digit c = true) l → c ∉ l.
Proof. intros Hc Hf Hin. rewrite Forall_forall in Hf. specialize (Hf _ Hin). congruence. Qed.

Lemma digit_Some c d : digit c = Some d → (0 ≤ d < 10)%Z ∧ c = ascii_of_N (Z.to_N (d + 48)).
Proof.
  unfold digit, Str.is_digit, Str.in_range. destruct (_ && _) eqn:E; [|done]. intros [= <-].
  apply andb_true_iff in E as [H1%N.leb_le H2%N.leb_le].
  change (N_of_ascii "0") with 48%N in H1. change (N_of_ascii "9") with 57%N in H2.
  split; [lia|]. rewrite <-(ascii_N_embedding c) at 1. f_equal. lia.
Qed.

(** What a field of an IPv4 address is written as is determined by its value. *)
Lemma parse_octet_canonical l b :
  parse_octet l = Some b → is_byte b ∧ l = Str.to_list (Str.itoa b).
Proof.
  destruct l as [|c1 l]; [done|]. simpl. destruct (digit c1) as [d1|] eqn:E1; [|done].
  apply digit_Some in E1 as [H1 ->]. change (0 * 10 + d1)%Z with d1. destruct (Z.ltb_spec 255 d1) as [|_]; [lia|].
  destruct l as [|c2 l]; simpl.
  { intros [= <-]. split; [unfold is_byte; lia|]. symmetry. refine (bool_decide_eq_true_1 _ _).
    revert d1 H1. apply small_forall. vm_compute. reflexivity. }
  destruct (digit c2) as [d2|] eqn:E2; [|done]. apply digit_Some in E2 as [H2 ->].
  destruct (Z.eqb_spec d1 0) as [|Hz]; [done|].
  destruct (Z.ltb_spec 255 (d1 * 10 + d2)) as [|_]; [lia|].
  assert (∀ b, (0 ≤ b < 100)%Z → (bool_decide (b < 10)%Z ||
    bool_decide (Str.to_list (Str.itoa b) = ascii_of_N <$> [Z.to_N (b / 10 + 48); Z.to_N (b mod 10 + 48)])) = true) as Htwo.
  { apply small_forall. vm_compute. reflexivity. }
  destruct l as [|c3 l]; simpl.
  { intros [= <-]. split; [unfold is_byte; lia|]. specialize (Htwo (d1 * 10 + d2)%Z ltac:(lia)).
    simpl_bools. destruct Htwo as [?|Htwo]; simpl_bools; [lia|]. rewrite Htwo. simpl.
    replace ((d1 * 10 + d2) / 10)%Z with d1 by lia. by replace ((d1 * 10 + d2) mod 10)%Z with d2 by lia. }
  destruct (digit c3) as [d3|] eqn:E3; [|done]. apply digit_Some in E3 as [H3 ->].
  destruct (Z.ltb_spec 255 ((d1 * 10 + d2) * 10 + d3)) as [|Hle]; [done|].
  assert (∀ b, is_byte b → (bool_decide (b < 100)%Z ||
    bool_decide (Str.to_list (Str.itoa b) = ascii_of_N <$>
      [Z.to_N (b / 100 + 48); Z.to_N (b / 10 mod 10 + 48); Z.to_N (b mod 10 + 48)])) = true) as Hthree.
  { apply byte_forall. vm_compute. reflexivity. }
  destruct l as [|c4 l]; simpl.
  - intros [= <-]. assert (is_byte ((d1 * 10 + d2) * 10 + d3)) as Hb by (unfold is_byte; lia).
    split; [done|]. specialize (Hthree _ Hb).
    simpl_bools. destruct Hthree as [?|Hthree]; simpl_bools; [lia|]. rewrite Hthree. simpl.
    replace (((d1 * 10 + d2) * 10 + d3) / 100)%Z with d1 by lia.
    replace (((d1 * 10 + d2) * 10 + d3) / 10 mod 10)%Z with d2 by lia.
    by replace (((d1 * 10 + d2) * 10 + d3) mod 10)%Z with d3 by lia.
  - destruct (digit c4) as [d4|] eqn:E4; [|done]. apply digit_Some in E4 as [H4 _].
    destruct (Z.ltb_spec 255 (((d1 * 10 + d2) * 10 + d3) * 10 + d4)); [done|lia].
Qed.

Lemma is_ip4_inv ip : is_ip4 ip ↔
  ∃ a b c d, ip = [a; b; c; d] ∧ is_byte a ∧ is_byte b ∧ is_byte c ∧ is_byte d.
Proof.
  unfold is_ip4. split.
  - intros [Hl Hf]. destruct ip as [|a [|b [|c [|d [|]]]]]; try done.
    rewrite !Forall_cons in Hf. naive_solver.
  - intros (a & b & c & d & -> & ?). split; [done|]. rewrite !Forall_cons, Forall_nil. tauto.
Qed.

Lemma String4_list a b c d :
  Str.to_list (String4 [a; b; c; d]) =
  Str.to_list (Str.itoa a) ++ "."%char :: Str.to_list (Str.itoa b) ++
  "."%char :: Str.to_list (Str.itoa c) ++ "."%char :: Str.to_list (Str.itoa d).
Proof. unfold String4. simpl. by rewrite !Str.to_list_app. Qed.

Lemma parseIPv4_String4 ip : is_ip4 ip → parseIPv4Fields (Str.to_list (String4 ip)) = Some ip.
Proof.
  intros (a & b & c & d & -> & Ha & Hb & Hc & Hd)%is_ip4_inv. rewrite String4_list.
  apply itoa_octet in Ha as (Ha & Hda & _), Hb as (Hb & Hdb & _), Hc as (Hc & Hdc & _), Hd as (Hd & Hdd & _).
  unfold parseIPv4Fields.
  rewrite !Str.split_list_app, Str.split_list_no_sep by (by apply digits_no_char).
  simpl. by rewrite Ha, Hb, Hc, Hd.
Qed.

Lemma parseIPv4_canonical l ip :
  parseIPv4Fields l = Some ip → is_ip4 ip ∧ l = Str.to_list (String4 ip).
Proof.
  unfold parseIPv4Fields. destruct (mapM _ _) as [[|a [|b [|c [|d [|]]]]]|] eqn:E; try done.
  intros [= <-]. apply mapM_Some in E.
  destruct (Str.split_list_join "." l) as (p & ps & Hs & Hl & _). rewrite Hs in E.
  repeat match goal with
  | H : Forall2 _ (_ :: _) (_ :: _) |- _ => apply Forall2_cons in H as [?%parse_octet_canonical H]
  | H : Forall2 _ ?ps (_ :: _) |- _ => is_var ps; destruct ps; [by apply Forall2_nil_cons_inv in H|]
  | H : Forall2 _ _ [] |- _ => apply Forall2_nil_inv_r in H
  end.
  destruct_and!. subst. split; [apply is_ip4_inv; eauto 10|].
  rewrite String4_list. csimpl. by rewrite app_nil_r, <-?app_assoc.
Qed.

Lemma address_kind_String4 ip : is_ip4 ip → address_kind (Str.to_list (String4 ip)) = Some "."%char.
Proof.
  intros (a & b & c & d & -> & Ha & _)%is_ip4_inv. rewrite String4_list.
  apply itoa_octet in Ha as (_ & Hd & _). induction Hd as [|x l Hx _ IH]; [done|]. simpl.
  rewrite bool_decide_false; [done|]. intros [->|[->| ->]]; done.
Qed.

(** Printing an IPv4 address and parsing it are inverse to each other. *)
Lemma ParseAddr_String4 ip : is_ip4 ip → ParseAddr (String4 ip) = Some (ip, []).
Proof.
  intros H. unfold ParseAddr. rewrite address_kind_String4 by done. simpl. by rewrite parseIPv4_String4.
Qed.

Lemma String4_inj ip ip' : is_ip4 ip → is_ip4 ip' → String4 ip = String4 ip' → ip = ip'.
Proof.
  intros H H' E. apply ParseAddr_String4 in H, H'. rewrite E in H. congruence.
Qed.

(** *** Addresses as numbers *)

Lemma value4 a b c d : value [a; b; c; d] = (a * 16777216 + b * 65536 + c * 256 + d)%Z.
Proof. unfold value. simpl. lia. Qed.

Lemma value_range ip : is_ip4 ip → (0 ≤ value ip < 2 ^ 32)%Z.
Proof.
  intros (a & b & c & d & -> & Ha & Hb & Hc & Hd)%is_ip4_inv. unfold is_byte in *. rewrite value4. lia.
Qed.

Lemma bytes4_eq v :
  bytes4 v = [v / 16777216 mod 256; v / 65536 mod 256; v / 256 mod 256; v mod 256]%Z.
Proof.
  unfold bytes4. simpl. rewrite !Z.shiftr_div_pow2 by lia.
  change 255%Z with (Z.ones 8). rewrite !Z.land_ones by lia.
  by rewrite Z.pow_0_r, Z.div_1_r.
Qed.

Lemma bytes4_ip4 v : is_ip4 (bytes4 v).
Proof.
  rewrite bytes4_eq. apply is_ip4_inv. do 4 eexists. split; [done|].
  split_and!; by apply Z.mod_pos_bound.
Qed.

Lemma value_bytes4 v : (0 ≤ v < 2 ^ 32)%Z → value (bytes4 v) = v.
Proof. rewrite bytes4_eq. rewrite value4. change (2 ^ 32)%Z with 4294967296%Z. lia. Qed.

Lemma bytes4_value ip : is_ip4 ip → bytes4 (value ip) = ip.
Proof.
  intros (a & b & c & d & -> & Ha & Hb & Hc & Hd)%is_ip4_inv. rewrite bytes4_eq, value4.
  unfold is_byte in *. repeat f_equal; lia.
Qed.

Lemma value_inj ip ip' : is_ip4 ip → is_ip4 ip' → value ip = value ip' → ip = ip'.
Proof. intros H H' E. by rewrite <-(bytes4_value ip), E, bytes4_value. Qed.

(** *** Masks *)

Lemma land_mask b k :
  is_byte b → (0 ≤ k ≤ 8)%Z → Z.land b (256 - 2 ^ k) = (b / 2 ^ k * 2 ^ k)%Z.
Proof.
  intros Hb Hk.
  assert (forallb (λ k, forallb (λ b, Z.land b (256 - 2 ^ k) =? b / 2 ^ k * 2 ^ k)%Z (seqZ 0 256)) (seqZ 0 9) = true)
    as H by (vm_compute; reflexivity).
  pose proof (small_forall 9 _ H k ltac:(lia)) as Hk'.
  by apply Z.eqb_eq, (byte_forall _ Hk').
Qed.

Lemma mask_byte_land b ones i :
  is_byte b →
  Z.land b (mask_byte ones i) =
  (let k := 8 - Z.max 0 (Z.min 8 (ones - 8 * Z.of_nat i)) in b / 2 ^ k * 2 ^ k)%Z.
Proof. intros Hb. unfold mask_byte. apply land_mask; [done|lia]. Qed.

(** Evaluates the powers of two of the goal. *)
Ltac eval_pows :=
  repeat match goal with
  | |- context [(2 ^ ?e)%Z] =>
      let v := eval vm_compute in (2 ^ e)%Z in change (2 ^ e)%Z with v
  end.

(** The first [n] bits of a number of 32. *)
Definition keep_bits (n v : Z) : Z := (v / 2 ^ (32 - n) * 2 ^ (32 - n))%Z.

Lemma masked_value ip n :
  is_ip4 ip → (0 ≤ n ≤ 32)%Z →
  is_ip4 (zip_with Z.land ip (CIDRMask n 32)) ∧
  value (zip_with Z.land ip (CIDRMask n 32)) = keep_bits n (value ip).
Proof.
  intros (a & b & c & d & -> & Ha & Hb & Hc & Hd)%is_ip4_inv Hn.
  change (CIDRMask n 32) with [mask_byte n 0; mask_byte n 1; mask_byte n 2; mask_byte n 3].
  cbn [zip_with]. rewrite !mask_byte_land by done. unfold keep_bits. rewrite is_ip4_inv, !value4.
  unfold is_byte in *. assert (n ∈ seqZ 0 33) as Hin by (apply elem_of_seqZ; lia).
  vm_compute seqZ in Hin. rewrite !elem_of_cons, elem_of_nil in Hin.
  split; [do 4 eexists; split; [done|]|]; clear Hn;
    repeat (destruct Hin as [->|Hin]; [eval_pows; lia|]); done.
Qed.

Lemma CIDRMask_len n bits : length (CIDRMask n bits) = Z.to_nat (bits / 8).
Proof. unfold CIDRMask. by rewrite length_fmap, length_seq. Qed.

Lemma To4_As16 ip : length ip = 4 → To4 (As16 ip) = Some ip.
Proof. intros H. destruct ip as [|a [|b [|c [|d [|]]]]]; done. Qed.

Lemma IP_Mask_As16 ip m : length ip = 4 → length m = 4 → IP_Mask (As16 ip) m = zip_with Z.land ip m.
Proof.
  intros H Hm. destruct ip as [|a [|b [|c [|d [|]]]]]; try done.
  destruct m as [|? [|? [|? [|? [|]]]]]; done.
Qed.

Lemma is_ip4_len ip : is_ip4 ip → length ip = 4.
Proof. by intros [? _]. Qed.

(** An IPv4 network, as [ParseCIDR] returns one: its address has no bit set
    past its prefix. *)
Definition is_net4 (n : IPNet) : Prop :=
  is_ip4 (IPNet_IP n) ∧ IPNet_bits n = 32%Z ∧ (0 ≤ IPNet_ones n ≤ 32)%Z ∧
  keep_bits (IPNet_ones n) (value (IPNet_IP n)) = value (IPNet_IP n).

(** The addresses of an IPv4 network. *)
Definition in_net (n : IPNet) (v : Z) : Prop :=
  (value (IPNet_IP n) ≤ v < value (IPNet_IP n) + 2 ^ (32 - IPNet_ones n))%Z.

Lemma keep_bits_eq n v w :
  (0 ≤ n ≤ 32)%Z → keep_bits n v = v → (keep_bits n w = v ↔ (v ≤ w < v + 2 ^ (32 - n))%Z).
Proof.
  unfold keep_bits. intros Hn Hv. assert (0 < 2 ^ (32 - n))%Z as Hp by (apply Z.pow_pos_nonneg; lia).
  set (q := (2 ^ (32 - n))%Z) in *.
  pose proof (Z.div_mod w q ltac:(lia)). pose proof (Z.mod_pos_bound w q Hp).
  split; [nia|]. intros H1. assert (w / q = v / q)%Z as E; [|lia].
  symmetry; apply (Z.div_unique _ _ _ (w - v)%Z); nia.
Qed.

Lemma Contains4_spec n ip :
  is_net4 n → is_ip4 ip → Contains4 n ip = true ↔ in_net n (value ip).
Proof.
  intros (Hip & Hbits & Hones & Hnorm) H. unfold Contains4, IPNet_Mask, in_net. rewrite Hbits.
  assert (To4 (IPNet_IP n) = Some (IPNet_IP n)) as ->.
  { unfold To4. by rewrite (is_ip4_len _ Hip). }
  rewrite CIDRMask_len. simpl (Z.to_nat _ =? 16). cbn match.
  destruct (masked_value (IPNet_IP n) (IPNet_ones n)) as [Hm1 Hv1]; [done..|].
  destruct (masked_value ip (IPNet_ones n)) as [Hm2 Hv2]; [done..|].
  rewrite bool_decide_eq_true, <-keep_bits_eq by done. split.
  - intros E. rewrite <-E, Hv1 in Hv2. congruence.
  - intros E. apply value_inj; [done..|]. congruence.
Qed.

Lemma itoa_bits n :
  (0 ≤ n ≤ 32)%Z →
  dtoi (Str.itoa n) = Some n ∧ parse_bits (Str.to_list (Str.itoa n)) = Some n.
Proof.
  intros Hn. refine (bool_decide_eq_true_1 _ _).
  assert (0 ≤ n < 33)%Z as Hn' by lia. clear Hn. revert n Hn'. apply small_forall. vm_compute. reflexivity.
Qed.

(** A prefix written as [IPNet.String] writes it. *)
Lemma cut_slash ip n : is_ip4 ip → Str.cut "/" (String4 ip +:+ "/" +:+ Str.itoa n) = (String4 ip, Some (Str.itoa n)).
Proof.
  intros H. apply Str.cut_Some. split; [done|].
  apply is_ip4_inv in H as (a & b & c & d & -> & Ha & Hb & Hc & Hd). rewrite String4_list.
  apply itoa_octet in Ha as (_ & Ha & _), Hb as (_ & Hb & _), Hc as (_ & Hc & _), Hd as (_ & Hd & _).
  apply (digits_no_char "/") in Ha, Hb, Hc, Hd; [|done..].
  rewrite !elem_of_app, !elem_of_cons, !elem_of_app, !elem_of_cons, !elem_of_app, !elem_of_cons. naive_solver.
Qed.

Lemma BitLen_ip4 ip : is_ip4 ip → BitLen ip = 32%Z.
Proof. intros H. unfold BitLen. by rewrite (is_ip4_len _ H). Qed.

Lemma ParseCIDR_String n : is_net4 n → ParseCIDR (IPNet_String n) = Some n.
Proof.
  intros (Hip & Hbits & Hones & Hnorm). unfold ParseCIDR, IPNet_String.
  rewrite cut_slash, ParseAddr_String4 by done.
  destruct (itoa_bits (IPNet_ones n) Hones) as [-> _]. rewrite BitLen_ip4 by done.
  destruct (Z.ltb_spec 32 (IPNet_ones n)); [lia|]. f_equal.
  rewrite IP_Mask_As16; [|by apply is_ip4_len|by rewrite CIDRMask_len].
  destruct (masked_value (IPNet_IP n) (IPNet_ones n)) as [Hm Hv]; [done..|].
  destruct n as [ip ones bits]; simpl in *. subst. f_equal. apply value_inj; [done..|congruence].
Qed.

Lemma ParsePrefix_String n :
  is_net4 n → ParsePrefix (IPNet_String n) = Some (mkPrefix (IPNet_IP n) (IPNet_ones n)).
Proof.
  intros (Hip & Hbits & Hones & Hnorm). unfold ParsePrefix, IPNet_String.
  rewrite cut_slash, ParseAddr_String4 by done.
  destruct (itoa_bits (IPNet_ones n) Hones) as [_ ->]. rewrite BitLen_ip4 by done.
  by destruct (Z.ltb_spec 32 (IPNet_ones n)); [lia|].
Qed.

Lemma keep_bits_keep_bits a b v :
  (0 ≤ a ≤ b ∧ b ≤ 32)%Z → keep_bits a (keep_bits b v) = keep_bits a v.
Proof.
  intros H. unfold keep_bits. f_equal.
  assert (2 ^ (32 - a) = 2 ^ (32 - b) * 2 ^ (b - a))%Z as -> by (rewrite <-Z.pow_add_r; [f_equal; lia|lia..]).
  assert (0 < 2 ^ (32 - b) ∧ 0 < 2 ^ (b - a))%Z as [Hp Hq] by (split; apply Z.pow_pos_nonneg; lia).
  by rewrite <-!Z.div_div, Z.div_mul by lia.
Qed.

Lemma keep_bits_overlap a b v w :
  (0 ≤ a ≤ b ∧ b ≤ 32)%Z → keep_bits a v = v → keep_bits b w = w →
  keep_bits a w = v ↔ ∃ x, (v ≤ x < v + 2 ^ (32 - a) ∧ w ≤ x < w + 2 ^ (32 - b))%Z.
Proof.
  intros H Hv Hw. split.
  - intros E. exists w. rewrite <-!keep_bits_eq by (done || lia). done.
  - intros (x & Hx & Hx'). rewrite <-keep_bits_eq in Hx, Hx' by (done || lia).
    by rewrite <-Hx', keep_bits_keep_bits.
Qed.

Lemma masked_eq ip ip' n :
  is_ip4 ip → is_ip4 ip' → (0 ≤ n ≤ 32)%Z →
  masked ip n = masked ip' n ↔ keep_bits n (value ip) = keep_bits n (value ip').
Proof.
  intros H H' Hn. unfold masked. rewrite !BitLen_ip4 by done.
  destruct (masked_value ip n) as [Hm Hv]; [done..|].
  destruct (masked_value ip' n) as [Hm' Hv']; [done..|]. rewrite <-Hv, <-Hv'. split; [congruence|].
  by apply value_inj.
Qed.

(** Two prefixes overlap exactly when an address is in both. *)
Lemma Overlaps_spec n m :
  is_net4 n → is_net4 m →
  Overlaps (mkPrefix (IPNet_IP n) (IPNet_ones n)) (mkPrefix (IPNet_IP m) (IPNet_ones m)) = true ↔
  ∃ v, in_net n v ∧ in_net m v.
Proof.
  intros (Hip & _ & Ho & Hn) (Hip' & _ & Ho' & Hn'). unfold Overlaps, in_net. simpl.
  rewrite (is_ip4_len _ Hip), (is_ip4_len _ Hip'). simpl.
  set (v := value (IPNet_IP n)) in *. set (w := value (IPNet_IP m)) in *.
  assert ((∃ x, (v ≤ x < v + 2 ^ (32 - IPNet_ones n) ∧ w ≤ x < w + 2 ^ (32 - IPNet_ones m))%Z) ↔
    keep_bits (IPNet_ones n `min` IPNet_ones m) v = keep_bits (IPNet_ones n `min` IPNet_ones m) w) as ->.
  { destruct (Z.min_spec (IPNet_ones n) (IPNet_ones m)) as [[? ->]|[? ->]].
    - rewrite Hn. rewrite <-(keep_bits_overlap _ _ v w) by (done || lia). naive_solver.
    - rewrite Hn'. setoid_rewrite (and_comm (v ≤ _ < _)%Z).
      rewrite <-(keep_bits_overlap _ _ w v) by (done || lia). naive_solver. }
  subst v w. rewrite <-masked_eq by (done || lia).
  case_bool_decide as E; [injection E as -> ->; done|].
  destruct (Z.eqb_spec (IPNet_ones n `min` IPNet_ones m) 0) as [E0|]; [|by rewrite bool_decide_eq_true].
  split; [intros _|done]. rewrite E0, masked_eq by (done || lia). unfold keep_bits.
  pose proof (value_range _ Hip). pose proof (value_range _ Hip').
  by rewrite !Z.div_small by (simpl; lia).
Qed.

(** *** What parsing returns *)

Lemma hex_digit_range c d : hex_digit c = Some d → (0 ≤ d < 16)%Z.
Proof.
  unfold hex_digit, Str.is_digit, Str.in_range.
  destruct (_ && _) eqn:E; [|destruct (N_of_ascii "a" <=? _)%N eqn:E2, (_ <=? N_of_ascii "f")%N eqn:E3;
    [|destruct (N_of_ascii "A" <=? _)%N eqn:E4, (_ <=? N_of_ascii "F")%N eqn:E5..]]; simpl; try done;
    intros [= <-]; try apply andb_true_iff in E as [E E'];
    repeat match goal with H : (_ <=? _)%N = true |- _ => apply N.leb_le in H end; simpl in *; lia.
Qed.

Lemma hex_group_range off acc l off' acc' rest :
  off ≤ 4 → (0 ≤ acc < 16 ^ Z.of_nat off)%Z → hex_group off acc l = Some (off', acc', rest) →
  (0 ≤ acc' < 65536)%Z.
Proof.
  revert off acc; induction l as [|c l IH]; intros off acc Hoff Hacc; simpl.
  { intros [= <- <- <-]. assert (16 ^ Z.of_nat off ≤ 16 ^ 4)%Z by (apply Z.pow_le_mono_r; lia). lia. }
  destruct (hex_digit c) as [d|] eqn:Hd.
  - destruct (Nat.ltb_spec 3 off); [done|]. apply hex_digit_range in Hd. apply IH; [lia|].
    rewrite Nat2Z.inj_succ, Z.pow_succ_r by lia. lia.
  - intros [= <- <- <-]. assert (16 ^ Z.of_nat off ≤ 16 ^ 4)%Z by (apply Z.pow_le_mono_r; lia). lia.
Qed.

Definition ipv6_partial (ip : IP) (ellipsis : option nat) : Prop :=
  Forall is_byte ip ∧ length ip ≤ 16 ∧ (∀ e, ellipsis = Some e → e ≤ length ip).

Lemma ipv6_loop_partial fuel ip ellipsis s ip' ellipsis' s' :
  length ip + 2 * fuel ≤ 16 → ipv6_partial ip ellipsis →
  ipv6_loop fuel ip ellipsis s = Some (ip', ellipsis', s') → ipv6_partial ip' ellipsis'.
Proof.
  revert ip ellipsis s; induction fuel as [|fuel IH]; intros ip ellipsis s Hlen (Hf & Hl & He); simpl.
  { by intros [= <- <- <-]. }
  destruct (hex_group 0 0 s) as [[[off acc] rest]|] eqn:Hg; [|done].
  apply hex_group_range in Hg; [|lia|simpl; lia]. destruct (off =? 0); [done|].
  assert (ipv6_partial (ip ++ [Z.shiftr acc 8; Z.land acc 255]) ellipsis ∧
    ipv6_partial (ip ++ [Z.shiftr acc 8; Z.land acc 255]) (Some (length (ip ++ [Z.shiftr acc 8; Z.land acc 255]))))
    as [Hnone Hsome].
  { assert (Forall is_byte (ip ++ [Z.shiftr acc 8; Z.land acc 255])) as Hf'.
    { apply Forall_app; split; [done|]. change 255%Z with (Z.ones 8).
      rewrite Z.land_ones, Z.shiftr_div_pow2 by lia. unfold is_byte. repeat constructor; simpl; lia. }
    unfold ipv6_partial. rewrite length_app. simpl.
    split; split_and!; try done; try lia; [intros e ?%He; lia|intros e [= <-]; lia]. }
  assert (length (ip ++ [Z.shiftr acc 8; Z.land acc 255]) + 2 * fuel ≤ 16) as Hlen'
    by (rewrite length_app; simpl; lia).
  set (ip1 := ip ++ _) in *.
  assert (∀ fields, parseIPv4Fields s = Some fields → length ip + 4 ≤ 16 → ipv6_partial (ip ++ fields) ellipsis) as Hv4.
  { intros fields [[Hl4 Hf4] _]%parseIPv4_canonical Hroom. unfold ipv6_partial. rewrite length_app.
    split_and!; [by apply Forall_app|lia|intros e ?%He; lia]. }
  destruct (starts_with "." rest).
  { destruct (bool_decide _ && _); [done|]. destruct (Nat.ltb_spec 16 (length ip + 4)); [done|].
    intros (fields & Hfields & [= -> -> ->])%fmap_Some. auto. }
  destruct rest as [|c rest]; [by intros [= <- <- <-]|].
  destruct (_ || _); [done|]. destruct (starts_with ":" rest); [|by apply IH].
  destruct (negb _); [done|]. destruct (bool_decide (tail rest = [])); [by intros [= <- <- <-]|by apply IH].
Qed.

Lemma ipv6_expand_bytes r ip :
  ipv6_partial r.1.1 r.1.2 → ipv6_expand r = Some ip → length ip = 16 ∧ Forall is_byte ip.
Proof.
  destruct r as [[ip' [e|]] [|]]; simpl; intros (Hf & Hl & He); try done.
  - destruct (Nat.ltb_spec (length ip') 16); [|done]. intros [= <-]. specialize (He e eq_refl).
    rewrite !length_app, length_take, length_replicate, length_drop. split; [lia|].
    rewrite !Forall_app. split_and!; [by apply Forall_take| |by apply Forall_drop].
    apply Forall_replicate. unfold is_byte. lia.
  - destruct (Nat.ltb_spec (length ip') 16); [done|]. intros [= <-]. split; [lia|done].
Qed.

Lemma parseIPv6_bytes l ip zone : parseIPv6 l = Some (ip, zone) → length ip = 16 ∧ Forall is_byte ip.
Proof.
  assert (∀ ellipsis s, (ellipsis = None ∨ ellipsis = Some 0) → ∀ z,
    (λ ip, (ip, z)) <$> (ipv6_loop 8 [] ellipsis s ≫= ipv6_expand) = Some (ip, zone) →
    length ip = 16 ∧ Forall is_byte ip) as Hloop.
  { intros ellipsis s Hell z (ip' & (r & Hr & He)%bind_Some & [= -> ->])%fmap_Some.
    apply (ipv6_expand_bytes r); [|done]. destruct r as [[ip1 e1] s1].
    eapply ipv6_loop_partial; [| |exact Hr]; [simpl; lia|].
    split_and!; [done|simpl; lia|]. intros e ->. destruct Hell as [|[= ->]]; [done|simpl; lia]. }
  assert (Forall is_byte (replicate 16 0%Z)) as H0 by (apply Forall_replicate; unfold is_byte; lia).
  unfold parseIPv6. destruct (_ && bool_decide (_ = [])); [done|].
  destruct (_ && starts_with _ _); [|apply Hloop; auto].
  destruct (bool_decide _); [by intros [= <- <-]|apply Hloop; auto].
Qed.

Lemma ParseAddr_bytes s ip zone :
  ParseAddr s = Some (ip, zone) →
  (is_ip4 ip ∧ s = String4 ip ∧ zone = []) ∨ (length ip = 16 ∧ Forall is_byte ip).
Proof.
  unfold ParseAddr. case_bool_decide.
  - intros (ip' & [Hip Hs]%parseIPv4_canonical & [= -> ->])%fmap_Some.
    left. split_and!; [done|by apply Str.to_list_inj|done].
  - case_bool_decide; [|done]. intros H'%parseIPv6_bytes. by right.
Qed.

Lemma To4_ip4 ip ip4 : Forall is_byte ip → To4 ip = Some ip4 → is_ip4 ip4.
Proof.
  unfold To4. intros Hf. destruct (Nat.eqb_spec (length ip) 4); [by intros [= <-]|].
  destruct (Nat.eqb_spec (length ip) 16) as [Hl|]; simpl; [|done]. case_bool_decide; [|done].
  intros [= <-]. split; [by rewrite length_drop, Hl|by apply Forall_drop].
Qed.

Lemma As16_bytes ip : Forall is_byte ip → Forall is_byte (As16 ip).
Proof.
  intros H. unfold As16. destruct (_ =? _); [|done]. apply Forall_app; split; [|done].
  unfold is_byte. repeat constructor; lia.
Qed.

Lemma ParseIP_bytes s ip : ParseIP s = Some ip → Forall is_byte ip.
Proof.
  unfold ParseIP. destruct (ParseAddr s) as [[ip' [|]]|] eqn:E; [|done..]. intros [= <-].
  apply As16_bytes. by destruct (ParseAddr_bytes _ _ _ E) as [([_ ?] & _)|[_ ?]].
Qed.

Lemma ParseIP_String4 ip : is_ip4 ip → ParseIP (String4 ip) = Some (As16 ip).
Proof. intros H. unfold ParseIP. by rewrite ParseAddr_String4. Qed.

Lemma dtoi_nonneg s n : dtoi s = Some n → (0 ≤ n)%Z.
Proof.
  assert (∀ l n m, (0 ≤ n)%Z → dtoi_loop n l = Some m → (0 ≤ m)%Z) as H.
  { induction l as [|c l IH]; simpl; intros k m Hk; [by intros [= <-]|].
    destruct (digit c) as [d|] eqn:E; [|done]. apply digit_Some in E as [? _].
    destruct (_ <=? _)%Z; [done|]. apply IH. lia. }
  unfold dtoi. destruct (Str.to_list s); [done|]. apply H. lia.
Qed.

(** A parsed network whose address is IPv4 and whose prefix is short is an
    IPv4 network: the 16-byte form of one has a prefix of 96 bits at least. *)
Lemma ParseCIDR_net4 s n :
  ParseCIDR s = Some n → To4 (IPNet_IP n) ≠ None → (IPNet_ones n ≤ 80)%Z → is_net4 n.
Proof.
  unfold ParseCIDR. destruct (Str.cut "/" s) as [addr [mask|]]; [|done].
  destruct (ParseAddr addr) as [[ip [|]]|] eqn:Ha, (dtoi mask) as [k|] eqn:Hd; try done.
  destruct (Z.ltb_spec (BitLen ip) k); [done|]. intros [= <-]; simpl. intros HTo4 Hk.
  apply dtoi_nonneg in Hd.
  destruct (ParseAddr_bytes _ _ _ Ha) as [(Hip & _)|[Hl Hf]].
  - rewrite BitLen_ip4 in * by done.
    destruct (masked_value ip k) as [Hm Hv]; [done|lia|].
    unfold is_net4; simpl. rewrite IP_Mask_As16 by (by rewrite ?CIDRMask_len || by apply is_ip4_len).
    split_and!; [done|done|lia|lia|]. rewrite Hv. apply keep_bits_keep_bits. lia.
  - exfalso. apply HTo4. unfold As16, BitLen. rewrite Hl. simpl.
    unfold IP_Mask. rewrite CIDRMask_len. simpl.
    unfold To4. rewrite length_zip_with, CIDRMask_len, Hl. simpl.
    rewrite bool_decide_false; [done|]. intros E.
    apply (f_equal (lookup 10)) in E. rewrite lookup_take_lt, lookup_zip_with in E by lia.
    destruct (lookup_lt_is_Some_2 ip 10) as [b Hb]; [lia|]. rewrite Hb in E. simpl in E.
    unfold mask_byte in E. rewrite Z.min_r, Z.max_l in E by lia. simpl in E. by rewrite Z.land_0_r in E.
Qed.

Lemma is_net4_To4 n : is_net4 n → To4 (IPNet_IP n) = Some (IPNet_IP n).
Proof. intros (Hip & _). unfold To4. by rewrite (is_ip4_len _ Hip). Qed.

End Addr.
