(* ===== verification/Network.v ===== *)
(** * Networks

    [internal/network] without its manager: a network's definition and how a
    new one is made ([network.go]), published ports ([port_mapping.go]), the
    choice of a free address ([address.go]) and the names of the host's
    network devices ([interface_name.go]). *)

From S2P Require Import Prelude Errdefs Naming Addr.

Module Network.
Import Addr.

Definition DefaultName : string := "default".

Record Network := mkNetwork {
  ID : string;
  Name : string;
  Gateway : string;
  Subnet : string;
  Bridge : string;
  Nameservers : list string;
  MTU : Z;
  Isolated : bool;
  Internal : bool;
  CreatedAt : Z;
  UpdatedAt : Z;
}.

#[global] Instance Network_eq_dec : EqDecision Network.
Proof. solve_decision. Defined.

Record Allocation := mkAllocation {
  Allocation_NetworkID : string;
  Allocation_InstanceID : string;
  Allocation_IP : string;
  Allocation_MAC : string;
}.

#[global] Instance Allocation_eq_dec : EqDecision Allocation.
Proof. solve_decision. Defined.

Definition MinMTU : Z := 576.

Definition MaxMTU : Z := 9000.

(** [Network.Validate] *)
Definition Validate (n : Network) : result unit :=
  Naming.Validate (Name n) ;;
  refuse_if ((MTU n <? MinMTU)%Z || (MaxMTU <? MTU n)%Z) (InvalidArgument "MTU %d is out of range: want %d to %d") ;;
  for_each (λ nameserver, refuse_if (bool_decide (ParseIP nameserver = None))
    (InvalidArgument "nameserver %q is not an IP address")) (Nameservers n) ;;
  refuse_if (Internal n && negb (bool_decide (Nameservers n = [])))
    (InvalidArgument "an internal network cannot use nameservers, since its instances cannot reach them: leave the nameservers out").

(** [Network.subnet] *)
Definition subnet (n : Network) : result IPNet :=
  match ParseCIDR (Subnet n) with
  | Some ipNet => Ok ipNet
  | None => Err (Errorf "invalid subnet CIDR in network %q: %w" (New "invalid CIDR address"))
  end.

(** [Network.Netmask] *)
Definition Netmask (n : Network) : result string := (λ ipNet, String4 (IPNet_Mask ipNet)) <$> subnet n.

(** [Network.PrefixLen] *)
Definition PrefixLen (n : Network) : result Z := IPNet_ones <$> subnet n.

(** [Network.IPCounts]: the addresses for instances, and how many of them are
    free. The shift is of an [int64]. *)
Definition IPCounts (n : Network) (allocated : Z) : Z * Z :=
  match subnet n with
  | Err _ => (0, 0)%Z
  | Ok ipNet =>
      if (IPNet_bits ipNet =? 0)%Z then (0, 0)%Z
      else
        let total := Z.max (int64_wrap (int64_wrap (Z.shiftl 1 (IPNet_bits ipNet - IPNet_ones ipNet)) - 3)) 0 in
        (total, Z.max (int64_wrap (total - allocated)) 0)
  end.

Definition DefaultNameserver : string := "8.8.8.8".

Definition DefaultMTU : Z := 1500.

Definition maxPrefixLen : Z := 30.

Definition ParseSubnet (s : string) : result IPNet :=
  match ParseCIDR s with
  | None => Err (InvalidArgument "invalid subnet %q: want an IPv4 CIDR such as 172.20.0.0/16")
  | Some ipNet =>
      if bool_decide (To4 (IPNet_IP ipNet) = None)
      then Err (InvalidArgument "subnet %s is not IPv4; only IPv4 networks are supported")
      else if (maxPrefixLen <? IPNet_ones ipNet)%Z
      then Err (InvalidArgument "subnet %s is too small: the longest prefix a network may have is /%d")
      else Ok ipNet
  end.

(** The broadcast address, byte by byte: [networkIP[i] | ^Mask[i]]. *)
Definition broadcastIP (ipNet : IPNet) (networkIP : list Z) : list Z :=
  zip_with (λ b m, Z.lor b (Z.lxor m 255)) networkIP (IPNet_Mask ipNet).

Definition Assignable (ipNet : IPNet) (ip : list Z) : bool :=
  match To4 ip with
  | None => false
  | Some ip4 =>
      if negb (Contains4 ipNet ip4) then false
      else match To4 (IPNet_IP ipNet) with
           | None => true
           | Some networkIP =>
               negb (bool_decide (ip4 = networkIP)) && negb (bool_decide (ip4 = broadcastIP ipNet networkIP))
           end
  end.

Record Spec := mkSpec {
  Spec_Name : string;
  Spec_Subnet : string;
  Spec_Gateway : string;
  Spec_MTU : Z;
  Spec_Nameservers : list string;
  Spec_Isolated : bool;
  Spec_Internal : bool;
}.

(** [first[len(first)-1]++] on a byte. *)
Definition incrementLast (ip : list Z) : list Z :=
  alter (λ b, (b + 1) `mod` 256)%Z (length ip - 1) ip.

Definition gatewayOf (ipNet : IPNet) (want : string) : result string :=
  if bool_decide (want = "")
  then Ok (String4 (incrementLast (default [] (To4 (IPNet_IP ipNet)))))
  else
    match ParseIP want with
    | None => Err (InvalidArgument "gateway %q is not an assignable address in subnet %s")
    | Some gateway =>
        if negb (Assignable ipNet gateway)
        then Err (InvalidArgument "gateway %q is not an assignable address in subnet %s")
        else Ok (String4 (default [] (To4 gateway)))
    end.

(** *** Device names ([interface_name.go]) *)

Definition maxInterfaceName : nat := 15.

(** [hash/fnv]'s 32-bit FNV-1a. *)
Definition fnv32a (s : string) : Z :=
  foldl (λ h c, ((Z.lxor h (Z.of_N (N_of_ascii c)) * 16777619) `mod` 2 ^ 32)%Z) 2166136261%Z (Str.to_list s).

Definition hexDigit (d : Z) : ascii :=
  ascii_of_N (Z.to_N (if (d <? 10)%Z then d + 48 else d + 87)).

(** [%08x] of the hash *)
Definition shortHash (s : string) : string :=
  Str.of_list ((λ i, hexDigit (Z.land (Z.shiftr (fnv32a s) i) 15)) <$> [28; 24; 20; 16; 12; 8; 4; 0]%Z).

Definition TAPName (instanceID : string) : string := "tap-" +:+ shortHash instanceID.

Definition IFBName (instanceID : string) : string := "ifb-" +:+ shortHash instanceID.

Definition BridgeName (networkName : string) : string :=
  if Str.len ("dicer-" +:+ networkName) <=? maxInterfaceName then "dicer-" +:+ networkName
  else "dbr-" +:+ shortHash networkName.

(** [New], with the ID [cuid2.Generate] returned and the time. *)
Definition New (id : string) (now : Z) (spec : Spec) : result Network :=
  if bool_decide (Spec_Subnet spec = "") then Err (InvalidArgument "subnet is required")
  else
    ipNet ← ParseSubnet (Spec_Subnet spec);
    gateway ← gatewayOf ipNet (Spec_Gateway spec);
    let nameservers :=
      if bool_decide (Spec_Nameservers spec = []) && negb (Spec_Internal spec)
      then [DefaultNameserver] else Spec_Nameservers spec in
    let n := {|
      ID := id;
      Name := Spec_Name spec;
      Subnet := IPNet_String ipNet;
      Gateway := gateway;
      Bridge := BridgeName (Spec_Name spec);
      MTU := if (Spec_MTU spec =? 0)%Z then DefaultMTU else Spec_MTU spec;
      Nameservers := nameservers;
      Isolated := Spec_Isolated spec;
      Internal := Spec_Internal spec;
      CreatedAt := now;
      UpdatedAt := now;
    |} in
    Validate n ;;
    Ok n.

(** The loops of [CheckSubnetOverlap]. *)
Definition CheckSubnetOverlap (n : Network) (networks : list Network) (hostSubnets : list Prefix) : result unit :=
  match ParsePrefix (Subnet n) with
  | None => Err (InvalidArgument "invalid subnet %q")
  | Some want =>
      for_each (λ existing,
        match ParsePrefix (Subnet existing) with
        | None => Ok tt
        | Some have => refuse_if (Overlaps have want) (Exists "subnet %s overlaps network %q (%s)")
        end) networks ;;
      for_each (λ p, refuse_if (Overlaps p want) (Exists "subnet %s overlaps %s, which the host is on")) hostSubnets
  end.

(** *** Free addresses ([address.go]) *)

(** [randomMAC], of the six bytes drawn: locally administered, unicast. *)
Definition randomMAC (b0 b1 b2 b3 b4 b5 : Z) : list Z :=
  [Z.lor (Z.land b0 254) 2; b1; b2; b3; b4; b5].

Definition incrementIP (ip : list Z) (n : Z) : list Z :=
  match To4 ip with
  | Some [a; b; c; d] =>
      let v := Z.lor (Z.lor (Z.lor (Z.shiftl a 24) (Z.shiftl b 16)) (Z.shiftl c 8)) d in
      bytes4 (uint32_wrap (v + uint32_wrap n))
  | _ => ip
  end.

(** [rand.IntN(n)] of the [i]th draw. *)
Definition IntN (random : nat → Z) (i : nat) (n : Z) : Z := (random i `mod` n)%Z.

(** The [n] attempts at random. *)
Fixpoint tryRandom (ipNet : IPNet) (used : gset string) (lastHost : Z) (random : nat → Z) (n i : nat)
  : option string :=
  match n with
  | 0 => None
  | S n =>
      let ip := String4 (incrementIP (IPNet_IP ipNet) (IntN random i lastHost + 1)) in
      if decide (ip ∈ used) then tryRandom ipNet used lastHost random n (S i) else Some ip
  end.

(** The scan, from [offset], of [n] addresses. *)
Fixpoint scan (ipNet : IPNet) (used : gset string) (n : nat) (offset : Z) : option string :=
  match n with
  | 0 => None
  | S n =>
      let ip := String4 (incrementIP (IPNet_IP ipNet) offset) in
      if decide (ip ∈ used) then scan ipNet used n (offset + 1) else Some ip
  end.

Definition freeIP (random : nat → Z) (ipNet : IPNet) (used : gset string) : result string :=
  let host_bits := (IPNet_bits ipNet - IPNet_ones ipNet)%Z in
  let noAvailableIPs := classifyWrapped ErrResourceExhausted
    "the network has no free addresses left" (Sentinel ErrNoAvailableIPs) in
  if (IPNet_bits ipNet =? 0)%Z || (host_bits <? 2)%Z then Err noAvailableIPs
  else
    let lastHost := (Z.shiftl 1 host_bits - 2)%Z in
    match tryRandom ipNet used lastHost random 5 0 with
    | Some ip => Ok ip
    | None =>
        match scan ipNet used (Z.to_nat lastHost) 1 with
        | Some ip => Ok ip
        | None => Err noAvailableIPs
        end
    end.

(** *** Published ports ([port_mapping.go]) *)

Definition ProtocolTCP : string := "tcp".

Definition ProtocolUDP : string := "udp".

(** The ports are 16-bit. *)
Record PortMapping := mkPortMapping {
  HostIP : string;
  HostPort : Z;
  GuestPort : Z;
  Protocol : string;
}.

#[global] Instance PortMapping_eq_dec : EqDecision PortMapping.
Proof. solve_decision. Defined.

Definition EffectiveProtocol (p : PortMapping) : string :=
  if bool_decide (Protocol p = "") then ProtocolTCP else Protocol p.

Definition PortMapping_String (p : PortMapping) : string :=
  let s := Str.itoa (HostPort p) +:+ ":" +:+ Str.itoa (GuestPort p) +:+ "/" +:+ EffectiveProtocol p in
  if bool_decide (HostIP p = "") then s else HostIP p +:+ ":" +:+ s.

(** [PortMapping.Overlaps] *)
Definition PortsOverlap (p other : PortMapping) : bool :=
  if negb (bool_decide (EffectiveProtocol p = EffectiveProtocol other)) || negb (HostPort p =? HostPort other)%Z
  then false
  else bool_decide (HostIP p = "") || bool_decide (HostIP other = "") || bool_decide (HostIP p = HostIP other).

(** [PortMapping.Validate] *)
Definition PortMapping_Validate (p : PortMapping) : result unit :=
  if (HostPort p =? 0)%Z then Err (InvalidArgument "invalid port mapping %s: no host port")
  else if (GuestPort p =? 0)%Z then Err (InvalidArgument "invalid port mapping %s: no guest port")
  else if negb (bool_decide (EffectiveProtocol p = ProtocolTCP)) && negb (bool_decide (EffectiveProtocol p = ProtocolUDP))
  then Err (InvalidArgument "invalid port mapping %s: the protocol must be tcp or udp")
  else if bool_decide (HostIP p = "") then Ok tt
  else match ParseIP (HostIP p) with
       | None => Err (InvalidArgument "invalid port mapping %s: %q is not an IPv4 address")
       | Some ip =>
           if bool_decide (To4 ip = None)
           then Err (InvalidArgument "invalid port mapping %s: %q is not an IPv4 address")
           else if IsLoopback ip
           then Err (InvalidArgument "cannot publish port %s on loopback: publish it on one of the host's own addresses instead")
           else Ok tt
       end.

(** The host address of a mapping as the API keeps it ([canonicalHostIP] of
    [internal/grpcserver]): an IPv4 address is written one way, that of every
    address is left out, and anything else is left to validation. *)
Definition canonicalHostIP (s : string) : string :=
  match ParseIP s ≫= To4 with
  | None => s
  | Some ip => if bool_decide (ip = [0; 0; 0; 0]%Z) then "" else String4 ip
  end.

(** What [portMappingsFromProto] makes of a mapping that a request gives. *)
Definition portMappingFromProto (p : PortMapping) : PortMapping :=
  mkPortMapping (canonicalHostIP (HostIP p)) (HostPort p) (GuestPort p) (EffectiveProtocol p).

(** ** Addresses of a network *)

#[local] Ltac Zify.zify_post_hook ::= Z.to_euclidean_division_equations.

Lemma lor_shiftl_add a b k : (0 ≤ k)%Z → (0 ≤ b < 2 ^ k)%Z → Z.lor (Z.shiftl a k) b = (a * 2 ^ k + b)%Z.
Proof.
  intros Hk Hb. rewrite <-Z.lxor_lor, <-Z.add_nocarry_lxor, Z.shiftl_mul_pow2; [done|done| |];
    apply Z.bits_inj_0; intros i; rewrite Z.land_spec;
    (destruct (Z.ltb_spec i k) as [Hi|Hi];
      [destruct (Z.neg_nonneg_cases i); [by rewrite Z.testbit_neg_r|by rewrite Z.shiftl_spec_low]
      |rewrite (Z.testbit_eqb b) by lia; rewrite Z.div_small;
        [by rewrite andb_false_r|split; [lia|]; eapply Z.lt_le_trans; [apply Hb|by apply Z.pow_le_mono_r]]]).
Qed.

Lemma ip4_uint32 a b c d :
  is_byte a → is_byte b → is_byte c → is_byte d →
  Z.lor (Z.lor (Z.lor (Z.shiftl a 24) (Z.shiftl b 16)) (Z.shiftl c 8)) d = value [a; b; c; d].
Proof.
  unfold is_byte. intros Ha Hb Hc Hd. rewrite value4.
  rewrite (Z.shiftl_mul_pow2 b), (Z.shiftl_mul_pow2 c) by lia.
  rewrite (lor_shiftl_add a) by (eval_pows; lia).
  replace (a * 2 ^ 24 + b * 2 ^ 16)%Z with (Z.shiftl (a * 256 + b) 16)
    by (rewrite Z.shiftl_mul_pow2 by lia; eval_pows; lia).
  rewrite lor_shiftl_add by (eval_pows; lia).
  replace ((a * 256 + b) * 2 ^ 16 + c * 2 ^ 8)%Z with (Z.shiftl ((a * 256 + b) * 256 + c) 8)
    by (rewrite Z.shiftl_mul_pow2 by lia; eval_pows; lia).
  rewrite lor_shiftl_add by (eval_pows; lia). eval_pows. lia.
Qed.

Lemma incrementIP_value ip n :
  is_ip4 ip → (0 ≤ n)%Z → (value ip + n < 2 ^ 32)%Z →
  is_ip4 (incrementIP ip n) ∧ value (incrementIP ip n) = (value ip + n)%Z.
Proof.
  intros Hip Hn Hlt. pose proof (value_range _ Hip).
  assert (To4 ip = Some ip) as HT by (unfold To4; by rewrite (is_ip4_len _ Hip)).
  unfold incrementIP. rewrite HT.
  apply is_ip4_inv in Hip as (a & b & c & d & -> & Ha & Hb & Hc & Hd).
  rewrite ip4_uint32 by done. unfold uint32_wrap. rewrite (Z.mod_small n), Z.mod_small by lia.
  split; [apply bytes4_ip4|]. apply value_bytes4. lia.
Qed.

(** The number of addresses of a network. *)
Definition net_size (n : IPNet) : Z := 2 ^ (32 - IPNet_ones n).

(** A network a host can be on: an IPv4 one, of 4 addresses at least. *)
Definition usable_net (n : IPNet) : Prop := is_net4 n ∧ (IPNet_ones n ≤ 30)%Z.

Lemma net_size_pos n : is_net4 n → (0 < net_size n)%Z.
Proof. intros (_ & _ & H & _). apply Z.pow_pos_nonneg; lia. Qed.

Lemma usable_net_size n : usable_net n → (4 ≤ net_size n)%Z.
Proof.
  intros [(_ & _ & H & _) H']. unfold net_size. change 4%Z with (2 ^ 2)%Z. apply Z.pow_le_mono_r; lia.
Qed.

Lemma net_end n : is_net4 n → (value (IPNet_IP n) + net_size n ≤ 2 ^ 32)%Z.
Proof.
  intros Hn. pose proof (net_size_pos n Hn). destruct Hn as (Hip & _ & Hones & Hnorm).
  unfold keep_bits in Hnorm. fold (net_size n) in Hnorm. pose proof (value_range _ Hip).
  assert (2 ^ 32 = net_size n * 2 ^ IPNet_ones n)%Z as E
    by (unfold net_size; rewrite <-Z.pow_add_r by lia; f_equal; lia).
  assert (value (IPNet_IP n) / net_size n < 2 ^ IPNet_ones n)%Z by (apply Z.div_lt_upper_bound; lia).
  nia.
Qed.

Lemma lor_not_mask b k :
  is_byte b → (0 ≤ k ≤ 8)%Z → (b / 2 ^ k * 2 ^ k)%Z = b →
  Z.lor b (Z.lxor (256 - 2 ^ k) 255) = (b + (2 ^ k - 1))%Z ∧ is_byte (b + (2 ^ k - 1)).
Proof.
  intros Hb Hk E.
  assert (forallb (λ k, forallb (λ b, negb (b / 2 ^ k * 2 ^ k =? b)%Z ||
    ((Z.lor b (Z.lxor (256 - 2 ^ k) 255) =? b + (2 ^ k - 1))%Z && bool_decide (is_byte (b + (2 ^ k - 1)))))
    (seqZ 0 256)) (seqZ 0 9) = true) as H by (vm_compute; reflexivity).
  pose proof (byte_forall _ (small_forall 9 _ H k ltac:(lia)) b Hb) as H'. cbv beta in H'. clear H Hk.
  simpl_bools. destruct H' as [H'|H']; simpl_bools; done.
Qed.

(** What the bits past the prefix of a mask add up to. *)
Lemma host_bits_sum ones :
  (0 ≤ ones ≤ 32)%Z →
  let k i := (8 - Z.max 0 (Z.min 8 (ones - 8 * Z.of_nat i)))%Z in
  ((2 ^ k 0%nat - 1) * 16777216 + (2 ^ k 1%nat - 1) * 65536 + (2 ^ k 2%nat - 1) * 256 + (2 ^ k 3%nat - 1) =
   2 ^ (32 - ones) - 1)%Z.
Proof.
  intros H k. apply Z.eqb_eq. subst k. assert (0 ≤ ones < 33)%Z as H' by lia. clear H. revert ones H'.
  apply small_forall. vm_compute. reflexivity.
Qed.

Lemma broadcast_value n :
  is_net4 n →
  is_ip4 (broadcastIP n (IPNet_IP n)) ∧
  value (broadcastIP n (IPNet_IP n)) = (value (IPNet_IP n) + net_size n - 1)%Z.
Proof.
  destruct n as [ip ones bits]. intros (Hip & Hbits & Hones & Hnorm). simpl in *. subst bits.
  unfold broadcastIP, IPNet_Mask, net_size; simpl.
  destruct (masked_value ip ones) as [Hm Hv]; [done..|]. rewrite Hnorm in Hv. apply value_inj in Hv; [|done..].
  pose proof (host_bits_sum _ Hones) as Hsum. rewrite <-Z.add_sub_assoc, <-Hsum. clear Hsum Hm Hnorm.
  apply is_ip4_inv in Hip as (a & b & c & d & -> & Ha & Hb & Hc & Hd).
  change (CIDRMask ones 32) with [mask_byte ones 0; mask_byte ones 1; mask_byte ones 2; mask_byte ones 3] in *.
  cbn [zip_with] in *. rewrite !mask_byte_land in Hv by done. cbv zeta in Hv. unfold mask_byte.
  injection Hv as Ea Eb Ec Ed.
  assert (∀ i, 0 ≤ 8 - 0 `max` (8 `min` (ones - 8 * Z.of_nat i)) ≤ 8)%Z as Hk by (clear; intros; lia).
  generalize (Hk 0) (Hk 1) (Hk 2) (Hk 3). revert Ea Eb Ec Ed.
  generalize (8 - 0 `max` (8 `min` (ones - 8 * Z.of_nat 0)))%Z (8 - 0 `max` (8 `min` (ones - 8 * Z.of_nat 1)))%Z
    (8 - 0 `max` (8 `min` (ones - 8 * Z.of_nat 2)))%Z (8 - 0 `max` (8 `min` (ones - 8 * Z.of_nat 3)))%Z.
  intros k0 k1 k2 k3 Ea Eb Ec Ed H0 H1 H2 H3.
  destruct (lor_not_mask a k0 Ha H0 Ea) as [-> Ba], (lor_not_mask b k1 Hb H1 Eb) as [-> Bb],
    (lor_not_mask c k2 Hc H2 Ec) as [-> Bc], (lor_not_mask d k3 Hd H3 Ed) as [-> Bd].
  rewrite !value4. split; [|ring]. apply is_ip4_inv. do 4 eexists. split; [reflexivity|done].
Qed.

(** The addresses that can be given out are those strictly between the
    network's and the broadcast address. *)
Lemma Assignable_spec n ip ip4 :
  is_net4 n → Forall is_byte ip → To4 ip = Some ip4 →
  Assignable n ip = true ↔
  (value (IPNet_IP n) < value ip4 < value (IPNet_IP n) + net_size n - 1)%Z.
Proof.
  intros Hn Hf HT. pose proof (To4_ip4 _ _ Hf HT) as Hip4. unfold Assignable.
  rewrite HT, (is_net4_To4 _ Hn).
  pose proof (Contains4_spec n ip4 Hn Hip4) as Hc. unfold in_net in Hc. fold (net_size n) in Hc.
  destruct (broadcast_value n Hn) as [Hb Hbv]. destruct Hn as (Hip & _).
  assert (ip4 = IPNet_IP n ↔ value ip4 = value (IPNet_IP n)) as E1
    by (split; [by intros ->|by apply value_inj]).
  assert (ip4 = broadcastIP n (IPNet_IP n) ↔ value ip4 = value (IPNet_IP n) + net_size n - 1)%Z as E2
    by (rewrite <-Hbv; split; [by intros ->|by apply value_inj]).
  destruct (Contains4 n ip4); simpl.
  - rewrite andb_true_iff, !negb_true_iff, !bool_decide_eq_false, E1, E2. assert (H := proj1 Hc eq_refl). lia.
  - split; [done|]. intros H. assert (false = true) by (apply Hc; lia). done.
Qed.

(** The address [offset] after the network's. *)
Lemma offset_address n offset :
  is_net4 n → (0 ≤ offset < net_size n)%Z →
  is_ip4 (incrementIP (IPNet_IP n) offset) ∧
  value (incrementIP (IPNet_IP n) offset) = (value (IPNet_IP n) + offset)%Z.
Proof.
  intros Hn Ho. pose proof (net_end n Hn). destruct Hn as (Hip & _). apply incrementIP_value; [done|lia..].
Qed.

(** The address a host has [offset] after the network's, as it is written. *)
Definition host_ip (n : IPNet) (offset : Z) : string := String4 (incrementIP (IPNet_IP n) offset).

Lemma host_ip_inj n o o' :
  is_net4 n → (0 ≤ o < net_size n)%Z → (0 ≤ o' < net_size n)%Z → host_ip n o = host_ip n o' → o = o'.
Proof.
  intros Hn Ho Ho' E. destruct (offset_address n o Hn Ho) as [H1 V1].
  destruct (offset_address n o' Hn Ho') as [H2 V2]. apply String4_inj in E; [|done..].
  rewrite E in V1. lia.
Qed.

(** Written addresses that can be given out. *)
Definition assignable_str (n : IPNet) (s : string) : Prop :=
  ∃ o, (1 ≤ o ≤ net_size n - 2)%Z ∧ s = host_ip n o.

Lemma assignable_str_spec n s :
  is_net4 n →
  assignable_str n s ↔ ∃ ip, is_ip4 ip ∧ s = String4 ip ∧ Assignable n ip = true.
Proof.
  intros Hn. assert (∀ ip, is_ip4 ip → To4 ip = Some ip) as HT
    by (intros ip H; unfold To4; by rewrite (is_ip4_len _ H)).
  split.
  - intros (o & Ho & ->). destruct (offset_address n o Hn) as [H1 V1]; [lia|].
    exists (incrementIP (IPNet_IP n) o). split_and!; [done..|].
    apply (Assignable_spec n _ _ Hn (proj2 H1) (HT _ H1)). lia.
  - intros (ip & Hip & -> & HA). rewrite (Assignable_spec n _ _ Hn (proj2 Hip) (HT _ Hip)) in HA.
    exists (value ip - value (IPNet_IP n))%Z. split; [lia|]. unfold host_ip. f_equal.
    destruct (offset_address n (value ip - value (IPNet_IP n)) Hn) as [H1 V1]; [lia|].
    apply value_inj; [done..|lia].
Qed.

Lemma tryRandom_Some n used lastHost random k i ip :
  (0 < lastHost)%Z → tryRandom n used lastHost random k i = Some ip →
  (ip ∉ used) ∧ ∃ o, (1 ≤ o ≤ lastHost)%Z ∧ ip = host_ip n o.
Proof.
  intros Hl. revert i; induction k as [|k IH]; intros i; simpl; [done|].
  case_decide as Hin; [apply IH|]. intros [= <-]. split; [done|].
  eexists; split; [|done]. unfold IntN. pose proof (Z.mod_pos_bound (random i) lastHost Hl). lia.
Qed.

Lemma scan_Some n used k offset ip :
  scan n used k offset = Some ip →
  (ip ∉ used) ∧ ∃ o, (offset ≤ o < offset + Z.of_nat k)%Z ∧ ip = host_ip n o.
Proof.
  revert offset; induction k as [|k IH]; intros offset; simpl; [done|].
  case_decide as Hin.
  - intros (H & o & Ho & ->)%IH. split; [done|]. exists o. split; [lia|done].
  - intros [= <-]. split; [done|]. exists offset. split; [lia|done].
Qed.

Lemma scan_None n used k offset o :
  scan n used k offset = None → (offset ≤ o < offset + Z.of_nat k)%Z → host_ip n o ∈ used.
Proof.
  revert offset; induction k as [|k IH]; intros offset; simpl; [lia|].
  case_decide as Hin; [|done]. intros H Ho.
  destruct (decide (o = offset)) as [->|]; [done|]. apply (IH _ H). lia.
Qed.

Lemma lastHost_size n : is_net4 n → (Z.shiftl 1 (IPNet_bits n - IPNet_ones n) - 2 = net_size n - 2)%Z.
Proof. intros (_ & -> & H & _). rewrite Z.shiftl_1_l. done. Qed.

Lemma freeIP_Ok random n used ip :
  usable_net n → freeIP random n used = Ok ip → (ip ∉ used) ∧ assignable_str n ip.
Proof.
  intros Hu. pose proof (usable_net_size n Hu). destruct Hu as [Hn _]. unfold freeIP, assignable_str.
  destruct (_ || _); [done|]. rewrite lastHost_size by done.
  destruct (tryRandom _ _ _ _ _ _) as [s|] eqn:E.
  { intros [= <-]. apply tryRandom_Some in E; [|lia]. done. }
  destruct (scan _ _ _ _) as [s|] eqn:E'; [|done]. intros [= <-].
  apply scan_Some in E' as (Hs & o & Ho & ->). split; [done|]. exists o. split; [lia|done].
Qed.

Lemma freeIP_Err random n used e :
  usable_net n → freeIP random n used = Err e →
  (∀ s, assignable_str n s → s ∈ used) ∧ Is e ErrResourceExhausted = true ∧ Is e ErrNoAvailableIPs = true.
Proof.
  intros Hu. pose proof (usable_net_size n Hu). destruct Hu as [Hn Ho30]. unfold freeIP, assignable_str.
  assert ((IPNet_bits n =? 0)%Z || (IPNet_bits n - IPNet_ones n <? 2)%Z = false) as ->.
  { destruct Hn as (_ & -> & ? & _). simpl. apply Z.ltb_ge. lia. }
  rewrite lastHost_size by done.
  destruct (tryRandom _ _ _ _ _ _); [done|]. destruct (scan _ _ _ _) eqn:E'; [done|]. intros [= <-].
  split; [|done]. intros s (o & Ho & ->). apply (scan_None _ _ _ _ _ E'). lia.
Qed.

(** C27: choosing a free address is sound and complete: [freeIP] returns an
    address of the subnet that is not in use and is neither the network's nor
    the broadcast address, whatever the random draws; and it reports that
    none is left only if every such address is in use. *)
Theorem freeIP_spec random n used :
  usable_net n →
  match freeIP random n used with
  | Ok s => (s ∉ used) ∧ ∃ ip, is_ip4 ip ∧ s = String4 ip ∧ Assignable n ip = true
  | Err e => Is e ErrResourceExhausted = true ∧
             ∀ ip, is_ip4 ip → Assignable n ip = true → String4 ip ∈ used
  end.
Proof.
  intros Hu. destruct (freeIP random n used) as [s|e] eqn:E.
  - apply freeIP_Ok in E as [Hs Ha]; [|done]. split; [done|]. by apply assignable_str_spec; [apply Hu|].
  - apply freeIP_Err in E as (Hall & He & _); [|done]. split; [done|]. intros ip Hip HA. apply Hall.
    apply assignable_str_spec; [apply Hu|]. eauto.
Qed.

Lemma freeIP_spec_witness :
  let n := mkIPNet [10; 0; 0; 0]%Z 30 32 in
  usable_net n ∧ freeIP (λ _, 0%Z) n {["10.0.0.1"]} = Ok "10.0.0.2".
Proof.
  intros n. assert (usable_net n) as Hu.
  { split; [|simpl; lia]. split_and!; try (simpl; lia); [|reflexivity].
    split; [reflexivity|]. apply (bool_decide_eq_true_1 (Forall is_byte [10; 0; 0; 0]%Z)). reflexivity. }
  split; [exact Hu|]. pose proof (freeIP_spec (λ _, 0%Z) n {["10.0.0.1"]} Hu) as H.
  vm_compute in H |- *. destruct H. reflexivity.
Defined.

(** *** New networks *)

Lemma ParseSubnet_usable s n : ParseSubnet s = Ok n → usable_net n.
Proof.
  unfold ParseSubnet. destruct (ParseCIDR s) as [ipNet|] eqn:E; [|done].
  case_bool_decide as HT; [done|]. destruct (Z.ltb_spec maxPrefixLen (IPNet_ones ipNet)) as [|Hle]; [done|].
  intros [= <-]. unfold maxPrefixLen in Hle. split; [|lia]. by apply (ParseCIDR_net4 s); [..|lia].
Qed.

Lemma default_gateway n :
  usable_net n → incrementLast (IPNet_IP n) = incrementIP (IPNet_IP n) 1.
Proof.
  intros Hu. pose proof (usable_net_size n Hu). pose proof (net_end n (proj1 Hu)).
  destruct (offset_address n 1 (proj1 Hu)) as [H1 V1]; [lia|].
  destruct n as [ip ones bits], Hu as [(Hip & Hb & Ho & Hn) H30]; simpl in *.
  assert (value ip mod 4 = 0)%Z as Hmod.
  { rewrite <-Hn. unfold keep_bits. assert (2 ^ (32 - ones) = 2 ^ (30 - ones) * 4)%Z as ->
      by (change 4%Z with (2 ^ 2)%Z; rewrite <-Z.pow_add_r by lia; f_equal; lia).
    rewrite Z.mul_assoc. apply Z.mod_mul. lia. }
  apply is_ip4_inv in Hip as (a & b & c & d & -> & Ha & Hb' & Hc & Hd).
  clear Hn. unfold incrementLast. simpl. rewrite value4 in *. unfold is_byte in *.
  assert (d mod 4 = 0)%Z by lia. rewrite (Z.mod_small (d + 1)) by lia.
  apply value_inj; [apply is_ip4_inv; do 4 eexists; split; [done|unfold is_byte; lia]|done|].
  rewrite V1, value4. lia.
Qed.

Lemma gatewayOf_Ok n want g : usable_net n → gatewayOf n want = Ok g → assignable_str n g.
Proof.
  intros Hu. pose proof (usable_net_size n Hu). pose proof (proj1 Hu) as Hn. unfold gatewayOf.
  rewrite (is_net4_To4 _ Hn). simpl. case_bool_decide as Hw.
  - intros [= <-]. exists 1%Z. split; [lia|]. unfold host_ip. by rewrite default_gateway.
  - destruct (ParseIP want) as [ip|] eqn:Hp; [|done].
    destruct (Assignable n ip) eqn:HA; simpl; [|done]. intros [= <-].
    pose proof (ParseIP_bytes _ _ Hp) as Hf.
    destruct (To4 ip) as [ip4|] eqn:HT; [|by unfold Assignable in HA; rewrite HT in HA].
    pose proof (To4_ip4 _ _ Hf HT) as Hip4. apply assignable_str_spec; [done|]. exists ip4. split_and!; [done..|].
    rewrite (Assignable_spec n _ _ Hn Hf HT) in HA.
    apply (Assignable_spec n _ ip4 Hn (proj2 Hip4)); [|done]. unfold To4. by rewrite (is_ip4_len _ Hip4).
Qed.

Lemma shortHash_len s : Str.len (shortHash s) = 8.
Proof. done. Qed.

Lemma len_app s t : Str.len (s +:+ t) = Str.len s + Str.len t.
Proof. unfold Str.len. by rewrite Str.to_list_app, length_app. Qed.

Lemma BridgeName_len name : Str.len (BridgeName name) ≤ 15.
Proof.
  unfold BridgeName, maxInterfaceName. destruct (Nat.leb_spec (Str.len ("dicer-" +:+ name)) 15); [done|].
  rewrite len_app, shortHash_len. vm_compute. lia.
Qed.

(** A network's definition, as [New] makes it: its subnet is written in the
    form that reads back as itself, and its gateway is an address in it. *)
Definition well_formed (n : Network) : Prop :=
  Naming.valid_name (Name n) ∧ (MinMTU ≤ MTU n ≤ MaxMTU)%Z ∧
  (Internal n = true → Nameservers n = []) ∧ Str.len (Bridge n) ≤ 15 ∧
  ∃ ipNet, usable_net ipNet ∧ Subnet n = IPNet_String ipNet ∧ assignable_str ipNet (Gateway n).

Lemma New_well_formed id now spec n : New id now spec = Ok n → well_formed n.
Proof.
  unfold New. case_bool_decide; [done|]. intros H'. inv_ok.
  rename x into ipNet, x0 into gateway.
  match goal with H : ParseSubnet _ = _ |- _ => apply ParseSubnet_usable in H as Hu end.
  match goal with H : gatewayOf _ _ = _ |- _ => apply (gatewayOf_Ok _ _ _ Hu) in H as Hg end.
  match goal with H : Validate _ = _ |- _ => unfold Validate in H; inv_ok end. simpl_bools. simpl in *.
  unfold well_formed; simpl. split_and!; try lia; eauto using BridgeName_len.
  - by apply Naming.Validate_Ok.
  - intros Hi. match goal with H : _ ∨ _ |- _ => destruct H as [H|H] end; [congruence|].
    by simpl_bools.
Qed.

Lemma well_formed_prefix n :
  well_formed n → ∃ ipNet, usable_net ipNet ∧ Subnet n = IPNet_String ipNet ∧
    ParseCIDR (Subnet n) = Some ipNet ∧
    ParsePrefix (Subnet n) = Some (mkPrefix (IPNet_IP ipNet) (IPNet_ones ipNet)).
Proof.
  intros (_ & _ & _ & _ & ipNet & Hu & HS & _). exists ipNet. rewrite HS.
  split_and!; [done..|apply ParseCIDR_String, Hu|apply ParsePrefix_String, Hu].
Qed.

(** A network that [New] accepts is sound: its name is valid, its subnet
    is IPv4, has room for an instance and is written so that it reads back as
    itself, its gateway is an assignable address of the subnet, whether it
    was asked for or is the default, its MTU is in range, its bridge's name
    fits in an interface name, and an internal network has no nameservers. *)
Theorem New_spec id now spec n :
  New id now spec = Ok n →
  Naming.valid_name (Name n) ∧ (576 ≤ MTU n ≤ 9000)%Z ∧
  (Internal n = true → Nameservers n = []) ∧ Str.len (Bridge n) ≤ maxInterfaceName ∧
  ∃ ipNet gateway, ParseCIDR (Subnet n) = Some ipNet ∧ is_net4 ipNet ∧ (IPNet_ones ipNet ≤ 30)%Z ∧
    is_ip4 gateway ∧ Gateway n = String4 gateway ∧ Assignable ipNet gateway = true.
Proof.
  intros Hwf%New_well_formed. destruct (well_formed_prefix _ Hwf) as (ipNet & Hu & HS & HC & _).
  destruct Hwf as (Hname & HMTU & Hint & Hbr & ipNet' & Hu' & HS' & Hg).
  assert (ipNet' = ipNet) as ->.
  { rewrite HS', ParseCIDR_String in HC by apply Hu'. congruence. }
  apply assignable_str_spec in Hg as (g & Hg4 & HgS & HgA); [|apply Hu].
  split_and!; try done; [apply HMTU..|]. exists ipNet, g. split_and!; [done|apply Hu..|done|done|done].
Qed.

Lemma New_spec_witness :
  let n := mkNetwork "id" "web" "172.20.0.1" "172.20.0.0/16" "dicer-web" ["8.8.8.8"] 1500 false false 7 7 in
  New "id" 7 (mkSpec "web" "172.20.3.4/16" "" 0 [] false false) = Ok n ∧ (576 ≤ MTU n ≤ 9000)%Z.
Proof.
  intros n. assert (New "id" 7 (mkSpec "web" "172.20.3.4/16" "" 0 [] false false) = Ok n) as H
    by (vm_compute; reflexivity).
  split; [exact H|]. destruct (New_spec _ _ _ _ H) as (_ & HM & _). exact HM.
Defined.

(** The overlap check keeps subnets apart: a network that passes it
    shares no address with any network it was checked against, nor with a
    subnet of the host; and one that is refused as overlapping does share an
    address with one of them. *)
Theorem CheckSubnetOverlap_spec n networks hosts :
  well_formed n → Forall well_formed networks → Forall is_net4 hosts →
  let disjoint a b := ¬ ∃ v, in_net a v ∧ in_net b v in
  let host_prefixes := (λ h, mkPrefix (IPNet_IP h) (IPNet_ones h)) <$> hosts in
  CheckSubnetOverlap n networks host_prefixes = Ok tt ↔
  ∀ a, ParseCIDR (Subnet n) = Some a →
    (∀ m b, m ∈ networks → ParseCIDR (Subnet m) = Some b → disjoint b a) ∧
    (∀ b, b ∈ hosts → disjoint b a).
Proof.
  intros Hn Hnets Hhosts disjoint host_prefixes.
  destruct (well_formed_prefix n Hn) as (a & Ha & _ & HC & HP).
  unfold CheckSubnetOverlap. rewrite HP, bind_Ok.
  assert (∀ b e u, is_net4 b → refuse_if (Overlaps (mkPrefix (IPNet_IP b) (IPNet_ones b))
    (mkPrefix (IPNet_IP a) (IPNet_ones a))) e = Ok u ↔ disjoint b a) as Hr.
  { intros b e u Hb. rewrite refuse_if_Ok. unfold disjoint. rewrite <-Overlaps_spec by (done || apply Ha).
    by rewrite not_true_iff_false. }
  rewrite HC. setoid_rewrite for_each_Ok. rewrite Forall_forall in Hnets. rewrite Forall_forall in Hhosts. split.
  - intros ([] & H1 & H2) a' [= <-]. split.
    + intros m b Hm Hb. destruct (well_formed_prefix m (Hnets m Hm)) as (b' & Hb' & _ & HC' & HP').
      specialize (H1 m Hm). rewrite HP' in H1. rewrite HC' in Hb. injection Hb as <-.
      apply (Hr _ _ _ (proj1 Hb')) in H1. done.
    + intros b Hb. apply (Hr _ (Exists "subnet %s overlaps %s, which the host is on") tt (Hhosts b Hb)), H2.
      apply list_elem_of_fmap. eauto.
  - intros H. destruct (H a eq_refl) as [H1 H2]. exists tt. split.
    + intros m Hm. destruct (well_formed_prefix m (Hnets m Hm)) as (b' & Hb' & _ & HC' & HP').
      rewrite HP'. apply (Hr _ _ _ (proj1 Hb')). eauto.
    + intros p Hp. apply list_elem_of_fmap in Hp as (b & -> & Hb). apply Hr; auto.
Qed.

(** *** Published ports *)

(** The host sockets a mapping claims: a protocol, an address and a port. An
    empty address stands for every one. *)
Definition claims (p : PortMapping) (protocol : string) (address : list Z) (port : Z) : Prop :=
  protocol = EffectiveProtocol p ∧ port = HostPort p ∧
  (HostIP p = "" ∨ ParseIP (HostIP p) ≫= To4 = Some address).

(** A host address written as the daemon writes one. *)
Definition canonical_host (p : PortMapping) : Prop :=
  HostIP p = "" ∨ ∃ ip, is_ip4 ip ∧ HostIP p = String4 ip.

Lemma canonical_claims p protocol address port :
  canonical_host p → is_ip4 address →
  claims p protocol address port ↔
  protocol = EffectiveProtocol p ∧ port = HostPort p ∧ (HostIP p = "" ∨ HostIP p = String4 address).
Proof.
  intros Hc Ha. unfold claims. destruct Hc as [H0|(ip & Hip & H0)].
  { rewrite H0. naive_solver. }
  rewrite H0, ParseIP_String4 by done. simpl. rewrite To4_As16 by apply Hip.
  assert (Some ip = Some address ↔ String4 ip = String4 address) as ->; [|done].
  split; [by intros [= ->]|]. by intros ->%String4_inj.
Qed.

Lemma zero_ip4 : is_ip4 [0; 0; 0; 0]%Z.
Proof. apply is_ip4_inv. do 4 eexists. split; [done|]. unfold is_byte. lia. Qed.

(** [PortMapping.Overlaps] decides whether two mappings claim a common host
    socket, if their host addresses are written in the usual form. *)
Lemma PortsOverlap_canonical p q :
  canonical_host p → canonical_host q →
  PortsOverlap p q = true ↔
  ∃ protocol address port, is_ip4 address ∧ claims p protocol address port ∧ claims q protocol address port.
Proof.
  intros Hp Hq. unfold PortsOverlap. split.
  - destruct (_ || negb (_ =? _)%Z) eqn:E; [done|]. simpl_bools.
    rewrite !orb_true_iff, !bool_decide_eq_true. intros Hip.
    exists (EffectiveProtocol p).
    assert (∃ a, is_ip4 a ∧ (HostIP p = "" ∨ HostIP p = String4 a) ∧ (HostIP q = "" ∨ HostIP q = String4 a))
      as (a & Ha & H1 & H2).
    { destruct Hp as [Hp|(ip & Hip4 & Hp)], Hq as [Hq|(iq & Hiq4 & Hq)]; [|exists iq; by auto|exists ip; by auto|].
      - exists [0; 0; 0; 0]%Z. split; [apply zero_ip4|auto].
      - destruct Hip as [[?|?]|E]; [exists iq; by auto|exists ip; by auto|].
        exists ip. rewrite <-E. auto. }
    exists a, (HostPort p). rewrite !canonical_claims by done. naive_solver.
  - intros (protocol & a & port & Ha & H1 & H2). rewrite canonical_claims in H1, H2 by done.
    destruct H1 as (-> & -> & H1), H2 as (E1 & E2 & H2).
    rewrite (bool_decide_true _ E1), E2, Z.eqb_refl. simpl.
    rewrite !orb_true_iff, !bool_decide_eq_true. naive_solver congruence.
Qed.

(** The overlap check compares host addresses as they are written: the IPv6 form
    of an IPv4 address, which validation accepts, is not told from another. The
    API writes them one way. *)
Lemma PortsOverlap_misses_mapped_form :
  ∃ p q protocol address port,
    PortMapping_Validate p = Ok tt ∧ PortMapping_Validate q = Ok tt ∧
    claims p protocol address port ∧ claims q protocol address port ∧ PortsOverlap p q = false.
Proof.
  exists (mkPortMapping "10.0.0.1" 80 80 "tcp"), (mkPortMapping "::ffff:10.0.0.1" 80 80 "tcp"),
    "tcp", [10; 0; 0; 1]%Z, 80%Z.
  split_and!; try (vm_compute; reflexivity); split_and!; try reflexivity; right; vm_compute; reflexivity.
Qed.

(** The host sockets that a request asks for with a mapping, in whatever form it
    gives the address: the unspecified address stands for every one too. *)
Definition asks_for (p : PortMapping) (protocol : string) (address : list Z) (port : Z) : Prop :=
  claims p protocol address port ∨
  protocol = EffectiveProtocol p ∧ port = HostPort p ∧ ParseIP (HostIP p) ≫= To4 = Some [0; 0; 0; 0]%Z.

Lemma parsed_ip4 s ip : ParseIP s ≫= To4 = Some ip → is_ip4 ip.
Proof. destruct (ParseIP s) as [a|] eqn:E; [|done]. simpl. apply To4_ip4. by eapply ParseIP_bytes. Qed.

(** A mapping that validation accepts has no host address, or an IPv4 one. *)
Lemma valid_host p : PortMapping_Validate p = Ok tt → HostIP p = "" ∨ is_Some (ParseIP (HostIP p) ≫= To4).
Proof.
  unfold PortMapping_Validate. destruct (_ =? _)%Z; [done|]. destruct (_ =? _)%Z; [done|]. destruct (_ && _); [done|].
  case_bool_decide; [by left|]. destruct (ParseIP (HostIP p)) as [ip|]; [|done]. simpl.
  destruct (To4 ip) eqn:E; [eauto|]. rewrite bool_decide_true by done. done.
Qed.

(** It is kept in the usual form. *)
Lemma portMappingFromProto_canonical p :
  PortMapping_Validate (portMappingFromProto p) = Ok tt → canonical_host (portMappingFromProto p).
Proof.
  unfold canonical_host, portMappingFromProto, canonicalHostIP. simpl. destruct (ParseIP (HostIP p) ≫= To4) as [ip|] eqn:E.
  - intros _. case_bool_decide; [by left|]. right. exists ip. split; [by eapply parsed_ip4|done].
  - intros [H|[ip H]]%valid_host; [by left|]. simpl in H. congruence.
Qed.

Lemma portMappingFromProto_claims p protocol address port :
  PortMapping_Validate (portMappingFromProto p) = Ok tt → is_ip4 address →
  claims (portMappingFromProto p) protocol address port ↔ asks_for p protocol address port.
Proof.
  intros Hv Ha. rewrite canonical_claims by (by try apply portMappingFromProto_canonical).
  assert (EffectiveProtocol (portMappingFromProto p) = EffectiveProtocol p) as ->.
  { unfold portMappingFromProto, EffectiveProtocol at 1. simpl. case_bool_decide as E; [|done]. unfold EffectiveProtocol in *.
    by case_bool_decide. }
  unfold asks_for, claims. simpl. unfold canonicalHostIP. destruct (ParseIP (HostIP p) ≫= To4) as [ip|] eqn:E.
  - assert (HostIP p ≠ "") as Hne by (intros E0; by rewrite E0 in E). pose proof (parsed_ip4 _ _ E) as Hip.
    case_bool_decide as H0; [subst; naive_solver|].
    assert (String4 ip ≠ "") as Hs by (intros E0; pose proof (ParseIP_String4 ip Hip) as H; by rewrite E0 in H).
    assert (String4 ip = String4 address ↔ Some ip = Some address) as Hiff
      by (split; [by intros ->%String4_inj|by intros [= ->]]). naive_solver.
  - apply valid_host in Hv. unfold portMappingFromProto, canonicalHostIP in Hv. simpl in Hv. rewrite E in Hv.
    destruct Hv as [Hp|[ip Hp]]; [rewrite Hp; naive_solver|congruence].
Qed.

(** C28: [PortMapping.Overlaps] decides whether two requested mappings ask for a
    common host socket. Whatever form their host addresses are given in, of two
    mappings that validation accepts as the API keeps them, the kept ones overlap
    exactly if there is a protocol, an IPv4 address and a port that both ask for;
    no address, or the unspecified one, asks for every address. *)
Theorem PortsOverlap_spec p q :
  PortMapping_Validate (portMappingFromProto p) = Ok tt → PortMapping_Validate (portMappingFromProto q) = Ok tt →
  PortsOverlap (portMappingFromProto p) (portMappingFromProto q) = true ↔
  ∃ protocol address port, is_ip4 address ∧ asks_for p protocol address port ∧ asks_for q protocol address port.
Proof.
  intros Hp Hq. rewrite PortsOverlap_canonical by (by apply portMappingFromProto_canonical).
  split; intros (protocol & address & port & Ha & H1 & H2); exists protocol, address, port; split; try done.
  - by rewrite <-!portMappingFromProto_claims.
  - by rewrite !portMappingFromProto_claims.
Qed.

Lemma PortsOverlap_spec_witness :
  let p := mkPortMapping "::ffff:10.0.0.1" 80 8080 "" in let q := mkPortMapping "10.0.0.1" 80 80 "tcp" in
  PortsOverlap (portMappingFromProto p) (portMappingFromProto q) = true ∧
  ∃ protocol address port, is_ip4 address ∧ asks_for p protocol address port ∧ asks_for q protocol address port.
Proof.
  intros p q. assert (PortsOverlap (portMappingFromProto p) (portMappingFromProto q) = true) as H by (vm_compute; reflexivity).
  split; [exact H|]. apply (PortsOverlap_spec p q); [vm_compute; reflexivity|vm_compute; reflexivity|exact H].
Defined.

Lemma CheckSubnetOverlap_spec_witness :
  let a := mkIPNet [172; 20; 0; 0]%Z 16 32 in let b := mkIPNet [172; 21; 0; 0]%Z 16 32 in
  ¬ ∃ v, in_net b v ∧ in_net a v.
Proof.
  intros a b.
  destruct (New "a" 7 (mkSpec "web" "172.20.0.0/16" "" 0 [] false false)) as [n|] eqn:En; [|vm_compute in En; done].
  destruct (New "b" 7 (mkSpec "db" "172.21.0.0/16" "" 0 [] false false)) as [m|] eqn:Em; [|vm_compute in Em; done].
  destruct (CheckSubnetOverlap_spec n [m] [] (New_well_formed _ _ _ _ En)
    (Forall_cons_2 _ _ _ (New_well_formed _ _ _ _ Em) (Forall_nil_2 _)) (Forall_nil_2 _)) as [H _].
  vm_compute in En, Em. injection En as <-. injection Em as <-.
  destruct (H ltac:(vm_compute; reflexivity) a ltac:(vm_compute; reflexivity)) as [Hd _].
  eapply (Hd _ b); [left|vm_compute; reflexivity].
Defined.

End Network.
