(* ===== verification/NetworkManager.v ===== *)
(** * Address allocation

    [internal/network/manager.go]: the allocation table of each network, the
    operations that change it, and the file each is kept in. Every operation
    holds the manager's write lock throughout, so it is one step. *)

From S2P Require Import Prelude Errdefs Addr Network.

Module NetworkManager.
Import Addr Network.

(** A network's allocations, with the index of each instance's and of each
    address's. *)
Record allocationTable := mkAllocationTable {
  allocations : list Allocation;
  byInstance : gmap string nat;
  byIP : gmap string nat;
}.

(** The loop of [newAllocationTable], from index [i]. *)
Fixpoint indexAllocations (i : nat) (l : list Allocation) (bi bp : gmap string nat)
  : gmap string nat * gmap string nat :=
  match l with
  | [] => (bi, bp)
  | a :: l =>
      indexAllocations (S i) l (<[Allocation_InstanceID a := i]> bi) (<[Allocation_IP a := i]> bp)
  end.

Definition newAllocationTable (l : list Allocation) : allocationTable :=
  let '(bi, bp) := indexAllocations 0 l ∅ ∅ in mkAllocationTable l bi bp.

Definition emptyAllocationTable : allocationTable := newAllocationTable [].

(** What an allocation table's file holds: a list of allocations, or bytes
    that do not read as one, with the error reading them gives. *)
Abbreviation file := (result (list Allocation)) (only parsing).

(** The manager, and the directory its allocation tables are kept in. *)
Record Manager := mkManager {
  allocationTables : gmap string allocationTable;
  allocationTableErrors : gmap string error;
  dir : gmap string file;
}.

(** [NewManager]: reads each table of the directory. *)
Definition NewManager (dir : gmap string file) : Manager :=
  mkManager
    (omap (λ f, match f with Ok l => Some (newAllocationTable l) | Err _ => None end) dir)
    (omap (λ f, match f with Ok _ => None | Err e => Some (Errorf "allocations for %q: %w" e) end) dir)
    dir.

Definition allocationTableOf (m : Manager) (network : string) : result allocationTable :=
  match allocationTableErrors m !! network with
  | Some err => Err err
  | None =>
      match allocationTables m !! network with
      | Some t => Ok t
      | None => Ok emptyAllocationTable
      end
  end.

(** [saveAllocationTable]: the file is replaced, and then the table in
    memory. [write] is the error of marshalling or writing it, if any. *)
Definition saveAllocationTable (write : option error) (m : Manager) (network : string) (l : list Allocation)
  : result unit * Manager :=
  match write with
  | Some err => (Err err, m)
  | None =>
      (Ok tt, mkManager (<[network := newAllocationTable l]> (allocationTables m))
                (allocationTableErrors m) (<[network := Ok l]> (dir m)))
  end.

(** [List] of a manager with a store: [lookup] is [store.Network]. *)
Definition List (lookup : string → result Network) (m : Manager) (nameOrID : string) : result (list Allocation) :=
  n ← lookup nameOrID;
  t ← allocationTableOf m (Name n);
  Ok (allocations t).

(** [Allocation] *)
Definition AllocationOf (m : Manager) (network instanceID : string) : result Allocation :=
  t ← allocationTableOf m network;
  match byInstance t !! instanceID ≫= λ i, allocations t !! i with
  | Some a => Ok a
  | None => Err (NotFound "instance %q has no address on network %q")
  end.

Definition InstanceAt (m : Manager) (network ip : string) : option string :=
  match allocationTableOf m network with
  | Err _ => None
  | Ok t => Allocation_InstanceID <$> (byIP t !! ip ≫= λ i, allocations t !! i)
  end.

(** [HardwareAddr.String] *)
Definition mac_String (mac : list Z) : string :=
  Str.join ":" ((λ b, Str.of_list [hexDigit (Z.shiftr b 4); hexDigit (Z.land b 15)]) <$> mac).

(** What a call draws and meets: random offsets, the bytes of the new MAC
    address or the error of drawing them, and the outcome of the write. *)
Record Env := mkEnv {
  random : nat → Z;
  mac_bytes : result (Z * Z * Z * Z * Z * Z);
  write : option error;
}.

(** [used]: the gateway and every address given out. *)
Definition usedIPs (n : Network) (t : allocationTable) : gset string :=
  {[Gateway n]} ∪ dom (byIP t).

(** The choice of an address, in the middle of [Allocate]. *)
Definition chooseIP (env : Env) (n : Network) (ipNet : IPNet) (used : gset string) (staticIP : string)
  : result string :=
  if negb (bool_decide (staticIP = "")) then
    match ParseIP staticIP with
    | None => Err (InvalidArgument "static IP %q is not an assignable address in subnet %s")
    | Some parsed =>
        if negb (Assignable ipNet parsed)
        then Err (InvalidArgument "static IP %q is not an assignable address in subnet %s")
        else
          let ip := String4 (default [] (To4 parsed)) in
          if decide (ip ∈ used) then Err (InvalidState "static IP %s is already in use on network %q")
          else Ok ip
    end
  else wrap_err (Errorf "allocate address on network %q: %w") (freeIP (random env) ipNet used).

Definition Allocate (env : Env) (m : Manager) (n : Network) (instanceID staticIP : string)
  : result Allocation * Manager :=
  match allocationTableOf m (Name n) with
  | Err err => (Err err, m)
  | Ok t =>
      match byInstance t !! instanceID ≫= λ i, allocations t !! i with
      | Some a => (Ok a, m)
      | None =>
          match ParseCIDR (Subnet n) with
          | None => (Err (Errorf "invalid subnet %q: %w" (Errdefs.New "invalid CIDR address")), m)
          | Some ipNet =>
              match chooseIP env n ipNet (usedIPs n t) staticIP with
              | Err err => (Err err, m)
              | Ok ip =>
                  match mac_bytes env with
                  | Err err => (Err (Errorf "generate MAC: %w" err), m)
                  | Ok (b0, b1, b2, b3, b4, b5) =>
                      let a := mkAllocation (ID n) instanceID ip (mac_String (randomMAC b0 b1 b2 b3 b4 b5)) in
                      match saveAllocationTable (write env) m (Name n) (allocations t ++ [a]) with
                      | (Err err, m) => (Err err, m)
                      | (Ok _, m) => (Ok a, m)
                      end
                  end
              end
          end
      end
  end.

Definition Release (write : option error) (m : Manager) (network instanceID : string) : result unit * Manager :=
  match allocationTableOf m network with
  | Err err => (Err err, m)
  | Ok t =>
      match byInstance t !! instanceID with
      | None => (Ok tt, m)
      | Some i => saveAllocationTable write m network (delete i (allocations t))
      end
  end.

(** [remove] is the error of removing the file, if any other than that there
    is none. *)
Definition Forget (remove : option error) (m : Manager) (network : string) : result unit * Manager :=
  match remove with
  | Some err => (Err (Errorf "remove allocations for %q: %w" err), m)
  | None =>
      (Ok tt, mkManager (delete network (allocationTables m)) (delete network (allocationTableErrors m))
                (delete network (dir m)))
  end.

(** [Reconcile]: how many allocations were released, and the error that
    ended it early. *)
Fixpoint Reconcile (write : string → option error) (m : Manager) (networks : list string) (live : gset string)
  (released : nat) : nat * result unit * Manager :=
  match networks with
  | [] => (released, Ok tt, m)
  | network :: networks =>
      match allocationTableOf m network with
      | Err err => (released, Err err, m)
      | Ok t =>
          let kept := filter (λ a, Allocation_InstanceID a ∈ live) (allocations t) in
          let released := released + (length (allocations t) - length kept) in
          if length kept =? length (allocations t)
          then Reconcile write m networks live released
          else
            match saveAllocationTable (write network) m network kept with
            | (Err err, m) => (released, Err err, m)
            | (Ok _, m) => Reconcile write m networks live released
            end
      end
  end.

(** ** The tables' invariant *)

(** Indexes of a table find each allocation, if no instance and no address
    has two. *)
Definition unique (l : list Allocation) : Prop :=
  NoDup (Allocation_InstanceID <$> l) ∧ NoDup (Allocation_IP <$> l).

Definition table_ok (t : allocationTable) : Prop :=
  t = newAllocationTable (allocations t) ∧ unique (allocations t).

(** Every allocation is an address an instance may have on the network. *)
Definition serves (n : Network) (l : list Allocation) : Prop :=
  ∃ ipNet, ParseCIDR (Subnet n) = Some ipNet ∧
  Forall (λ a, assignable_str ipNet (Allocation_IP a) ∧ Allocation_IP a ≠ Gateway n) l.

Lemma indexAllocations_lookup i l bi bp :
  NoDup (Allocation_InstanceID <$> l) → NoDup (Allocation_IP <$> l) →
  (∀ k, (indexAllocations i l bi bp).1 !! k =
    match list_find (λ a, Allocation_InstanceID a = k) l with
    | Some (j, _) => Some (i + j) | None => bi !! k end) ∧
  (∀ k, (indexAllocations i l bi bp).2 !! k =
    match list_find (λ a, Allocation_IP a = k) l with
    | Some (j, _) => Some (i + j) | None => bp !! k end).
Proof.
  assert (∀ A (f : Allocation → A) `{EqDecision A} a l, f a ∉ (f <$> l) → list_find (λ b, f b = f a) l = None) as Hno.
  { intros A f ? a l' Hn. apply list_find_None, Forall_forall. intros b Hb E. apply Hn.
    apply list_elem_of_fmap. eauto. }
  revert i bi bp; induction l as [|a l IH]; intros i bi bp; csimpl; [done|].
  intros [Ha1 H1]%NoDup_cons [Ha2 H2]%NoDup_cons.
  destruct (IH (S i) (<[Allocation_InstanceID a:=i]> bi) (<[Allocation_IP a:=i]> bp)) as [IH1 IH2]; [done..|].
  split; intros k; rewrite ?IH1, ?IH2; case_decide as Hk; subst; rewrite ?Hno by done; simpl.
  - rewrite lookup_insert_eq. f_equal. lia.
  - destruct (list_find _ l) as [[j b]|]; simpl; [f_equal; lia|]. by rewrite lookup_insert_ne.
  - rewrite lookup_insert_eq. f_equal. lia.
  - destruct (list_find _ l) as [[j b]|]; simpl; [f_equal; lia|]. by rewrite lookup_insert_ne.
Qed.

Lemma byInstance_spec l k i :
  unique l → byInstance (newAllocationTable l) !! k = Some i ↔
  ∃ a, l !! i = Some a ∧ Allocation_InstanceID a = k.
Proof.
  intros [H1 H2]. unfold newAllocationTable.
  destruct (indexAllocations_lookup 0 l ∅ ∅ H1 H2) as [Hi _].
  destruct (indexAllocations 0 l ∅ ∅) as [bi bp]; simpl in *. rewrite Hi.
  destruct (list_find _ l) as [[j a]|] eqn:E.
  - apply list_find_Some in E as (Hj & Ha & _). split.
    + intros [= <-]. eauto.
    + intros (b & Hb & Hk). f_equal. apply (NoDup_lookup _ _ _ k H1); rewrite list_lookup_fmap.
      * rewrite Hj. simpl. congruence.
      * rewrite Hb. simpl. congruence.
  - rewrite lookup_empty. split; [done|]. intros (a & Ha & Hk). apply list_find_None in E.
    rewrite Forall_forall in E. exfalso. apply (E a); [|done]. by eapply list_elem_of_lookup_2.
Qed.

Lemma dom_byIP l : unique l → dom (byIP (newAllocationTable l)) = list_to_set (Allocation_IP <$> l).
Proof.
  intros [H1 H2]. unfold newAllocationTable.
  destruct (indexAllocations_lookup 0 l ∅ ∅ H1 H2) as [_ Hp].
  destruct (indexAllocations 0 l ∅ ∅) as [bi bp]; simpl in *. apply set_eq. intros k.
  rewrite elem_of_dom, Hp, elem_of_list_to_set, list_elem_of_fmap.
  destruct (list_find _ l) as [[j a]|] eqn:E.
  - apply list_find_Some in E as (Hj & Ha & _). split; [|done]. intros _. exists a.
    split; [done|]. by eapply list_elem_of_lookup_2.
  - rewrite lookup_empty. split; [by intros [? ?]|]. intros (a & -> & Ha).
    apply list_find_None in E. rewrite Forall_forall in E. by specialize (E a Ha).
Qed.

Lemma allocations_new l : allocations (newAllocationTable l) = l.
Proof. unfold newAllocationTable. by destruct (indexAllocations 0 l ∅ ∅). Qed.

Lemma byInstance_lookup l k :
  unique l →
  (byInstance (newAllocationTable l) !! k ≫= λ i, l !! i) = None ↔
  k ∉ Allocation_InstanceID <$> l.
Proof.
  intros Hu. destruct (byInstance _ !! k) as [i|] eqn:E; simpl.
  - apply byInstance_spec in E as (a & Ha & <-); [|done]. rewrite Ha. split; [done|].
    intros Hn. destruct Hn. apply list_elem_of_fmap. eexists; split; [done|]. by eapply list_elem_of_lookup_2.
  - split; [|done]. intros _ (a & -> & (i & Hi)%list_elem_of_lookup)%list_elem_of_fmap.
    assert (byInstance (newAllocationTable l) !! Allocation_InstanceID a = Some i) by (apply byInstance_spec; eauto).
    congruence.
Qed.

(** The networks' definitions, as the store keeps them. *)
Definition defs_ok (defs : gmap string Network) : Prop :=
  ∀ name n, defs !! name = Some n → Name n = name ∧ well_formed n.

(** Memory and disk agree: the manager is the one a restart would read. Its
    tables give no address to two instances, nor two to one, and only ones
    instances may have. *)
Definition manager_ok (defs : gmap string Network) (m : Manager) : Prop :=
  m = NewManager (dir m) ∧
  ∀ name t, allocationTables m !! name = Some t →
    table_ok t ∧ ∀ n, defs !! name = Some n → serves n (allocations t).

(** One operation of the manager, a restart of the daemon, or a change of the
    networks' definitions. A network is defined under a name that no allocations
    are left of. *)
Inductive step : gmap string Network * Manager → gmap string Network * Manager → Prop :=
  | step_allocate defs env m n id ip r m' :
      defs !! Name n = Some n → Allocate env m n id ip = (r, m') → step (defs, m) (defs, m')
  | step_release defs w m name id r m' :
      Release w m name id = (r, m') → step (defs, m) (defs, m')
  | step_forget defs w m name r m' :
      Forget w m name = (r, m') → step (defs, m) (defs, m')
  | step_reconcile defs w m names live k r m' :
      Reconcile w m names live 0 = (k, r, m') → step (defs, m) (defs, m')
  | step_restart defs m : step (defs, m) (defs, NewManager (dir m))
  | step_define defs m n :
      defs !! Name n = None → well_formed n → allocationTables m !! Name n = None → step (defs, m) (<[Name n := n]> defs, m)
  | step_undefine defs m name : step (defs, m) (delete name defs, m).

(** An allocation that a table holds, and what makes a table give it up. *)
Definition held (m : Manager) (name : string) (a : Allocation) : Prop :=
  ∃ t, allocationTables m !! name = Some t ∧ a ∈ allocations t.

Definition gives_up (m m' : Manager) (name id : string) : Prop :=
  (∃ w r, Release w m name id = (r, m')) ∨
  (∃ w r, Forget w m name = (r, m')) ∨
  (∃ w names live k r, Reconcile w m names live 0 = (k, r, m') ∧ name ∈ names ∧ (id ∉ live)).

Section Invariant.

Context (defs : gmap string Network).

Lemma serves_nil n : well_formed n → serves n [].
Proof. intros Hn. destruct (well_formed_prefix n Hn) as (ipNet & _ & _ & HC & _). by exists ipNet. Qed.

Lemma tableOf_ok m name t :
  manager_ok defs m → allocationTableOf m name = Ok t →
  table_ok t ∧ (defs_ok defs → ∀ n, defs !! name = Some n → serves n (allocations t)) ∧
  allocationTableErrors m !! name = None.
Proof.
  intros [_ Hm]. unfold allocationTableOf. destruct (allocationTableErrors m !! name); [done|].
  destruct (allocationTables m !! name) as [t'|] eqn:E; intros [= <-].
  - destruct (Hm _ _ E) as [? ?]. auto.
  - split_and!; [|intros Hd n Hn; by eapply serves_nil, Hd|done].
    split; [done|]. split; constructor.
Qed.

(** Saving a table that keeps the rules keeps the invariant. *)
Lemma save_ok w m name l r m' :
  manager_ok defs m → allocationTableErrors m !! name = None → unique l →
  (∀ n, defs !! name = Some n → serves n l) →
  saveAllocationTable w m name l = (r, m') → manager_ok defs m'.
Proof.
  intros [Hm Hi] He Hu Hs. unfold saveAllocationTable. destruct w as [err|]; intros [= <- <-]; [done|].
  split; simpl.
  - unfold NewManager. f_equal.
    + rewrite omap_insert_Some with (y := newAllocationTable l) by done. by rewrite Hm at 1.
    + rewrite omap_insert_None by done. rewrite Hm in He |- * at 1. simpl in *. by rewrite delete_id.
  - intros name' t. destruct (decide (name' = name)) as [->|Hne].
    + rewrite lookup_insert_eq. intros [= <-]. split; [split|]; unfold newAllocationTable;
        destruct (indexAllocations 0 l ∅ ∅) eqn:E; simpl; rewrite ?E; auto.
    + rewrite lookup_insert_ne by done. apply Hi.
Qed.

Lemma unique_snoc l a :
  unique l → Allocation_InstanceID a ∉ (Allocation_InstanceID <$> l) →
  Allocation_IP a ∉ (Allocation_IP <$> l) → unique (l ++ [a]).
Proof.
  intros [H1 H2] Hi Hp. split; rewrite fmap_app; apply NoDup_app; split_and!; try done;
    try (apply NoDup_singleton); intros x Hx Hx'; simpl in Hx'; set_solver.
Qed.

Lemma unique_sublist l l' : sublist l' l → unique l → unique l'.
Proof. intros Hs [H1 H2]. split; [apply (sublist_NoDup _ _ H1)|apply (sublist_NoDup _ _ H2)]; by apply fmap_sublist. Qed.

Lemma serves_sublist n l l' : sublist l' l → serves n l → serves n l'.
Proof.
  intros Hs (ipNet & HC & Hf). exists ipNet. split; [done|].
  rewrite Forall_forall in *. intros a Ha. apply Hf. by eapply elem_of_sublist.
Qed.

(** The address [Allocate] chooses is free and may be given out. *)
Lemma chooseIP_Ok env n ipNet used static ip :
  usable_net ipNet → chooseIP env n ipNet used static = Ok ip →
  (ip ∉ used) ∧ assignable_str ipNet ip.
Proof.
  intros Hu. unfold chooseIP. destruct (negb _).
  - destruct (ParseIP static) as [parsed|] eqn:Hp; [|done].
    destruct (Assignable ipNet parsed) eqn:HA; simpl; [|done]. case_decide as Hin; [done|]. intros [= <-].
    split; [done|]. apply (gatewayOf_Ok ipNet static); [done|]. unfold gatewayOf.
    rewrite bool_decide_false; [|by intros ->]. by rewrite Hp, HA.
  - intros H%wrap_err_Ok. by apply freeIP_Ok in H.
Qed.

Lemma Allocate_ok env m n id static r m' :
  defs_ok defs → defs !! Name n = Some n → manager_ok defs m →
  Allocate env m n id static = (r, m') → manager_ok defs m'.
Proof.
  intros Hd Hn Hm. unfold Allocate.
  destruct (allocationTableOf m (Name n)) as [t|err] eqn:Ht; [|by intros [= <- <-]].
  destruct (tableOf_ok m _ t Hm Ht) as ([Ht1 Ht2] & Hserve & Herr).
  destruct (byInstance t !! id ≫= _) as [a|] eqn:Hi; [by intros [= <- <-]|].
  destruct (well_formed_prefix n) as (ipNet & Hu & _ & HC & _); [by eapply Hd|]. rewrite HC.
  destruct (chooseIP _ _ _ _ _) as [ip|err] eqn:Hc; [|by intros [= <- <-]].
  apply chooseIP_Ok in Hc as [Hfree Hass]; [|done].
  destruct (mac_bytes env) as [[[[[[b0 b1] b2] b3] b4] b5]|]; [|by intros [= <- <-]].
  set (a := mkAllocation _ _ _ _). unfold usedIPs in Hfree.
  rewrite Ht1 in Hi, Hfree. rewrite dom_byIP in Hfree by done.
  rewrite allocations_new in Hi. apply byInstance_lookup in Hi; [|done].
  intros Hsave. destruct (saveAllocationTable _ _ _ _) as [[u|e] m1] eqn:Hs; simplify_eq;
    (eapply save_ok; [done..| | |exact Hs]); try (apply unique_snoc; simpl; set_solver);
    intros n' Hn'; simplify_eq; destruct (Hserve Hd _ Hn) as (ipNet' & HC' & Hf); simplify_eq;
    exists ipNet; (split; [done|]); apply Forall_app; (split; [done|]); constructor; try done;
    simpl; set_solver.
Qed.

Lemma Release_ok w m name id r m' :
  defs_ok defs → manager_ok defs m → Release w m name id = (r, m') → manager_ok defs m'.
Proof.
  intros Hd Hm. unfold Release.
  destruct (allocationTableOf m name) as [t|err] eqn:Ht; [|by intros [= <- <-]].
  destruct (tableOf_ok m _ t Hm Ht) as ([Ht1 Ht2] & Hserve & Herr).
  destruct (byInstance t !! id) as [i|]; [|by intros [= <- <-]].
  assert (sublist (delete i (allocations t)) (allocations t)) as Hs by apply sublist_delete.
  apply save_ok; [done..|by eapply unique_sublist|]. intros n Hn. by eapply serves_sublist, Hserve.
Qed.

Lemma Forget_ok w m name r m' :
  manager_ok defs m → Forget w m name = (r, m') → manager_ok defs m'.
Proof.
  intros [Hm Hi]. unfold Forget. destruct w; intros [= <- <-]; [done|]. split; simpl.
  - unfold NewManager. rewrite !omap_delete, Hm. done.
  - intros name' t [_ Ht]%lookup_delete_Some. by apply Hi.
Qed.

Lemma Reconcile_ok w m names live k k' r m' :
  defs_ok defs → manager_ok defs m → Reconcile w m names live k = (k', r, m') → manager_ok defs m'.
Proof.
  intros Hd. revert m k; induction names as [|name names IH]; intros m k Hm; simpl; [by intros [= <- <- <-]|].
  destruct (allocationTableOf m name) as [t|err] eqn:Ht; [|by intros [= <- <- <-]].
  destruct (_ =? _); [by apply IH|].
  destruct (tableOf_ok m _ t Hm Ht) as ([Ht1 Ht2] & Hserve & Herr).
  assert (sublist (filter (λ a, Allocation_InstanceID a ∈ live) (allocations t)) (allocations t)) as Hs
    by apply sublist_filter.
  destruct (saveAllocationTable _ _ _ _) as [r1 m1] eqn:Hsave.
  assert (manager_ok defs m1).
  { eapply save_ok; [done..|by eapply unique_sublist| |exact Hsave].
    intros n Hn. by eapply serves_sublist, Hserve. }
  destruct r1; [by apply IH|by intros [= <- <- <-]].
Qed.

Lemma NewManager_ok : manager_ok defs (NewManager ∅).
Proof. split; [done|]. intros name t. simpl. by rewrite omap_empty, lookup_empty. Qed.

End Invariant.

Lemma manager_step_ok s s' : defs_ok s.1 ∧ manager_ok s.1 s.2 → step s s' → defs_ok s'.1 ∧ manager_ok s'.1 s'.2.
Proof.
  intros [Hd Hm] Hs. destruct Hs; simpl in *.
  - split; [done|]. by eapply Allocate_ok.
  - split; [done|]. by eapply Release_ok.
  - split; [done|]. by eapply Forget_ok.
  - split; [done|]. by eapply Reconcile_ok.
  - split; [done|]. destruct Hm as [Hm Hi]. by rewrite <-Hm.
  - split.
    + intros name n' [[<- <-]|[_ Hn]]%lookup_insert_Some; [done|by apply Hd].
    + destruct Hm as [Hm Hi]. split; [done|]. intros name t Ht. destruct (Hi name t Ht) as [Ht' Hs]. split; [done|].
      intros n' [[<- <-]|[_ Hn]]%lookup_insert_Some; [congruence|by apply Hs].
  - split; [by intros n m' [_ Hn]%lookup_delete_Some; apply Hd|]. destruct Hm as [Hm Hi]. split; [done|].
    intros n t Ht. destruct (Hi n t Ht) as [Ht' Hs]. split; [done|]. intros n' [_ Hn]%lookup_delete_Some. by apply Hs.
Qed.

Lemma manager_reachable_ok defs m : rtc step (∅, NewManager ∅) (defs, m) → defs_ok defs ∧ manager_ok defs m.
Proof.
  assert (∀ s s', rtc step s s' → defs_ok s.1 ∧ manager_ok s.1 s.2 → defs_ok s'.1 ∧ manager_ok s'.1 s'.2) as Hr.
  { intros s s'. induction 1 as [|s1 s2 s3 Hs _ IH]; [done|]. intros H1. by eapply IH, manager_step_ok. }
  intros H. apply (Hr _ _ H). split; [intros name n; simpl; by rewrite lookup_empty|apply NewManager_ok].
Qed.

(** *** What tables hold *)

Lemma held_table m name t a : allocationTableOf m name = Ok t → held m name a → a ∈ allocations t.
Proof.
  unfold allocationTableOf. intros Ht (t' & Ht' & Ha). rewrite Ht' in Ht. destruct (allocationTableErrors m !! name); by simplify_eq.
Qed.

Lemma held_save w m name l r m' name' a :
  saveAllocationTable w m name l = (r, m') → held m name' a → (name' = name → a ∈ l) → held m' name' a.
Proof.
  unfold saveAllocationTable. destruct w; intros [= <- <-]; [done|]. intros (t & Ht & Ha) Hl. unfold held. simpl.
  destruct (decide (name' = name)) as [->|Hne]; [|rewrite lookup_insert_ne by done; eauto].
  exists (newAllocationTable l). rewrite lookup_insert_eq, allocations_new. auto.
Qed.

Lemma Allocate_held env m n id ip r m' name a : Allocate env m n id ip = (r, m') → held m name a → held m' name a.
Proof.
  unfold Allocate. intros E Ha. destruct (allocationTableOf m (Name n)) as [t|] eqn:Ht; [|by simplify_eq].
  repeat case_match; simplify_eq; try done;
    (eapply held_save; [eassumption|exact Ha|]; intros ->; apply elem_of_app; left; by eapply held_table).
Qed.

Lemma Release_held defs w m name id r m' name' a :
  manager_ok defs m → Release w m name id = (r, m') → held m name' a →
  held m' name' a ∨ (name' = name ∧ Allocation_InstanceID a = id).
Proof.
  intros Hm. unfold Release. destruct (allocationTableOf m name) as [t|] eqn:Ht; [|by intros [= <- <-]; left].
  destruct (tableOf_ok defs m _ t Hm Ht) as ([Ht1 Ht2] & _).
  destruct (byInstance t !! id) as [i|] eqn:Hi; [|by intros [= <- <-]; left]. intros E Ha.
  destruct (decide (name' = name ∧ Allocation_InstanceID a = id)) as [|Hn]; [by right|left].
  eapply held_save; [exact E|done|]. intros ->. rewrite Ht1 in Hi. apply byInstance_spec in Hi as (b & Hb & Hid); [|done].
  pose proof (held_table _ _ _ _ Ht Ha) as Hin. rewrite (delete_take_drop (allocations t) i).
  rewrite <-(take_drop_middle _ _ _ Hb), elem_of_app, elem_of_cons in Hin. rewrite elem_of_app.
  destruct Hin as [?|[->|?]]; [by left|by destruct Hn|by right].
Qed.

Lemma Reconcile_held w m names live k k' r m' name a :
  Reconcile w m names live k = (k', r, m') → held m name a → (name ∈ names → Allocation_InstanceID a ∈ live) → held m' name a.
Proof.
  revert m k. induction names as [|name0 names IH]; intros m k; simpl; [by intros [= <- <- <-]|].
  destruct (allocationTableOf m name0) as [t|] eqn:Ht; [|by intros [= <- <- <-]]. intros E Ha Hl.
  assert (name ∈ names → Allocation_InstanceID a ∈ live) as Hl' by set_solver.
  destruct (_ =? _); [by eapply IH|]. destruct (saveAllocationTable _ _ _ _) as [r1 m1] eqn:Hs.
  assert (held m1 name a) as Ha1.
  { eapply held_save; [exact Hs|done|]. intros ->. apply list_elem_of_filter. split; [apply Hl; left|by eapply held_table]. }
  destruct r1; [by eapply IH|by simplify_eq].
Qed.

Lemma step_held defs m s' name a :
  manager_ok defs m → held m name a → step (defs, m) s' → held s'.2 name a ∨ gives_up m s'.2 name (Allocation_InstanceID a).
Proof.
  intros Hm Ha Hs. inversion Hs as [? env ? n id ip r m' Hn E|? w ? name' id r m' E|? w ? name' r m' E|? w ? names live k r m' E| | |]; subst; simpl.
  - left. by eapply Allocate_held.
  - destruct (Release_held defs w m name' id r m' name a Hm E Ha) as [?|[-> <-]]; [by left|right; left; eauto].
  - destruct (decide (name = name')) as [->|Hne]; [right; right; left; eauto|left].
    unfold Forget in E. destruct w; injection E as <- <-; [done|]. destruct Ha as (t & Ht & Ha). exists t. split; [|done].
    simpl. by rewrite lookup_delete_ne.
  - destruct (decide (name ∈ names)) as [Hin|]; [|left; by eapply Reconcile_held].
    destruct (decide (Allocation_InstanceID a ∈ live)); [left; by eapply Reconcile_held|]. right. right. right. eauto 10.
  - left. destruct Hm as [<- _]. done.
  - by left.
  - by left.
Qed.

Lemma Allocate_gives defs env m n id ip a m' :
  manager_ok defs m → Allocate env m n id ip = (Ok a, m') → Allocation_InstanceID a = id ∧ held m' (Name n) a.
Proof.
  intros Hm. unfold Allocate. destruct (allocationTableOf m (Name n)) as [t|] eqn:Ht; [|done].
  destruct (tableOf_ok defs m _ t Hm Ht) as ([Ht1 Ht2] & _ & Herr).
  destruct (byInstance t !! id ≫= _) as [a'|] eqn:Hi.
  - intros [= <- <-]. apply bind_Some in Hi as (i & Hi & Ha). rewrite Ht1 in Hi.
    apply byInstance_spec in Hi as (b & Hb & <-); [|done]. simplify_eq. split; [done|].
    unfold allocationTableOf in Ht. rewrite Herr in Ht. destruct (allocationTables m !! Name n) as [t'|] eqn:E; simplify_eq.
    eexists. split; [done|]. by eapply list_elem_of_lookup_2.
  - destruct (ParseCIDR (Subnet n)); [|done]. destruct (chooseIP _ _ _ _ _); [|done].
    destruct (mac_bytes env) as [[[[[[b0 b1] b2] b3] b4] b5]|]; [|done]. unfold saveAllocationTable. destruct (write env); [done|].
    intros [= <- <-]. split; [done|]. eexists. simpl. split; [apply lookup_insert_eq|]. rewrite allocations_new. set_solver.
Qed.

(** C24: however calls to the manager, restarts of the daemon and changes of
    the networks' definitions follow one another: at no moment does the table of
    a network hold one address for two instances, nor two for one; what it holds
    are assignable addresses of the network's subnet other than its gateway; what
    is given to an instance is held, until the instance gives it back, it is found
    not to be there, or the table is forgotten; and what is in memory is what the
    files would be read back as. *)
Theorem allocation_safety defs m :
  rtc step (∅, NewManager ∅) (defs, m) →
  (∀ name a b, held m name a → held m name b →
     (Allocation_IP a = Allocation_IP b ↔ a = b) ∧ (Allocation_InstanceID a = Allocation_InstanceID b ↔ a = b)) ∧
  (∀ name n a, held m name a → defs !! name = Some n →
     Allocation_IP a ≠ Gateway n ∧
     ∃ ipNet ip, ParseCIDR (Subnet n) = Some ipNet ∧ is_ip4 ip ∧ Allocation_IP a = String4 ip ∧ Assignable ipNet ip = true) ∧
  (∀ env n id ip a m', Allocate env m n id ip = (Ok a, m') → Allocation_InstanceID a = id ∧ held m' (Name n) a) ∧
  (∀ name a s', held m name a → step (defs, m) s' → held s'.2 name a ∨ gives_up m s'.2 name (Allocation_InstanceID a)) ∧
  m = NewManager (dir m).
Proof.
  intros [Hd Hok]%manager_reachable_ok. pose proof Hok as [Hm Hi]. split_and!; [| | | |done].
  - intros name a b (t & Ht & Ha) (t' & Ht' & Hb). simplify_eq. destruct (Hi _ _ Ht) as [[_ [H1 H2]] _].
    assert (∀ (f : Allocation → string), NoDup (f <$> allocations t) → f a = f b ↔ a = b) as Hinj; [|by split; apply Hinj].
    intros f Hf'. split; [|by intros ->]. intros E. apply list_elem_of_lookup in Ha as [i Hi'], Hb as [j Hj].
    assert (i = j) as ->; [|congruence]. apply (NoDup_lookup _ _ _ (f a) Hf'); rewrite list_lookup_fmap.
    + by rewrite Hi'.
    + rewrite Hj. simpl. congruence.
  - intros name n a (t & Ht & Ha) Hn. destruct (Hi _ _ Ht) as [_ Hs]. destruct (Hs n Hn) as (ipNet & HC & Hf).
    rewrite Forall_forall in Hf. destruct (Hf a Ha) as [Has Hgw].
    destruct (well_formed_prefix n (proj2 (Hd _ _ Hn))) as (ipNet' & Hu & _ & HC' & _). simplify_eq.
    split; [done|]. apply assignable_str_spec in Has as (ip & ? & ? & ?); [|apply Hu]. eauto 10.
  - intros env n id ip a m'. by eapply Allocate_gives.
  - intros name a s'. by apply step_held.
Qed.

(** The network of the witnesses below, and its manager after one
    allocation. *)
Definition example_network : Network :=
  mkNetwork "id" "web" "10.0.0.1" "10.0.0.0/29" "dicer-web" ["8.8.8.8"] 1500 false false 7 7.

Definition example_env : Env := mkEnv (λ _, 0%Z) (Ok (0, 1, 2, 3, 4, 5)%Z) None.

Lemma example_defs_ok : defs_ok {["web" := example_network]}.
Proof.
  intros name n [<- <-]%lookup_singleton_Some. split; [done|].
  apply (New_well_formed "id" 7 (mkSpec "web" "10.0.0.0/29" "" 0 [] false false)). vm_compute. reflexivity.
Defined.

Definition example_manager : Manager :=
  (Allocate example_env (NewManager ∅) example_network "i1" "").2.

Lemma example_defined : step (∅, NewManager ∅) ({["web" := example_network]}, NewManager ∅).
Proof. apply (step_define ∅ (NewManager ∅) example_network); [done|apply (example_defs_ok "web"); reflexivity|done]. Defined.

Lemma example_manager_reachable : rtc step (∅, NewManager ∅) ({["web" := example_network]}, example_manager).
Proof.
  apply (rtc_l _ _ ({["web" := example_network]}, NewManager ∅)).
  - apply example_defined.
  - apply rtc_once. unfold example_manager. destruct (Allocate example_env (NewManager ∅) example_network "i1" "") as [r m] eqn:E.
    by eapply step_allocate; [|exact E].
Defined.

Lemma allocation_safety_witness :
  let a := mkAllocation "id" "i1" "10.0.0.2" "02:01:02:03:04:05" in
  held example_manager "web" a ∧ Allocation_IP a ≠ Gateway example_network.
Proof.
  intros a. assert (held example_manager "web" a) as Ha by (exists (newAllocationTable [a]); split; [vm_compute; reflexivity|left]).
  split; [exact Ha|].
  destruct (allocation_safety {["web" := example_network]} example_manager example_manager_reachable) as (_ & Hin & _).
  by apply (Hin "web" example_network a Ha).
Defined.

(** *** Running out of addresses *)

(** The addresses of a network that can be given out, as they are written. *)
Definition host_set (ipNet : IPNet) : gset string :=
  list_to_set (host_ip ipNet <$> seqZ 1 (net_size ipNet - 2)).

Lemma elem_of_host_set ipNet s : s ∈ host_set ipNet ↔ assignable_str ipNet s.
Proof.
  unfold host_set, assignable_str. rewrite elem_of_list_to_set, list_elem_of_fmap.
  setoid_rewrite elem_of_seqZ. split; intros (o & H1 & H2); exists o; split; (done || lia).
Qed.

Lemma size_host_set ipNet :
  usable_net ipNet → Z.of_nat (size (host_set ipNet)) = (net_size ipNet - 2)%Z.
Proof.
  intros Hu. pose proof (usable_net_size ipNet Hu). unfold host_set. rewrite size_list_to_set.
  - rewrite length_fmap, length_seqZ. lia.
  - apply NoDup_fmap_2_strong; [|apply NoDup_seqZ]. intros o o' Ho Ho' E.
    apply elem_of_seqZ in Ho, Ho'. apply (host_ip_inj ipNet); [apply Hu|lia..|done].
Qed.

Lemma size_used n ipNet l :
  usable_net ipNet → assignable_str ipNet (Gateway n) → unique l →
  Forall (λ a, assignable_str ipNet (Allocation_IP a) ∧ Allocation_IP a ≠ Gateway n) l →
  usedIPs n (newAllocationTable l) ⊆ host_set ipNet ∧
  size (usedIPs n (newAllocationTable l)) = 1 + length l.
Proof.
  intros Hu Hg Hl Hf. rewrite Forall_forall in Hf. unfold usedIPs. rewrite dom_byIP by done. split.
  - intros s. rewrite elem_of_host_set, elem_of_union, elem_of_singleton, elem_of_list_to_set, list_elem_of_fmap.
    intros [->|(a & -> & Ha)]; [done|]. by apply Hf.
  - rewrite size_union, size_singleton, size_list_to_set, length_fmap; [done|apply Hl|].
    apply disjoint_singleton_l. rewrite elem_of_list_to_set, list_elem_of_fmap.
    intros (a & E & Ha). by destruct (Hf a Ha).
Qed.

Lemma freeIP_succeeds random n ipNet l :
  usable_net ipNet → assignable_str ipNet (Gateway n) → unique l →
  Forall (λ a, assignable_str ipNet (Allocation_IP a) ∧ Allocation_IP a ≠ Gateway n) l →
  is_ok (freeIP random ipNet (usedIPs n (newAllocationTable l))) = true ↔
  (Z.of_nat (length l) < net_size ipNet - 3)%Z.
Proof.
  intros Hu Hg Hl Hf. destruct (size_used n ipNet l Hu Hg Hl Hf) as [Hsub Hsize].
  pose proof (size_host_set ipNet Hu) as Hh.
  destruct (freeIP _ _ _) as [s|e] eqn:E; simpl; split; try done.
  - intros _. apply freeIP_Ok in E as [Hs Ha]; [|done]. apply elem_of_host_set in Ha.
    assert (usedIPs n (newAllocationTable l) ⊂ host_set ipNet) as Hss by set_solver.
    apply subset_size in Hss. lia.
  - apply freeIP_Err in E as (Hall & _); [|done]. intros Hlt.
    assert (host_set ipNet ⊆ usedIPs n (newAllocationTable l)) as Hsup
      by (intros s Hs; by apply Hall, elem_of_host_set).
    apply subseteq_size in Hsup. lia.
Qed.

Lemma IPCounts_eq n ipNet k :
  usable_net ipNet → ParseCIDR (Subnet n) = Some ipNet → (0 ≤ k < 2 ^ 62)%Z →
  IPCounts n k = (net_size ipNet - 3, Z.max (net_size ipNet - 3 - k) 0)%Z.
Proof.
  intros Hu HC Hk. pose proof (usable_net_size ipNet Hu). pose proof (net_end ipNet (proj1 Hu)).
  assert (net_size ipNet ≤ 2 ^ 32)%Z by (pose proof (value_range (IPNet_IP ipNet) (proj1 (proj1 Hu))); lia).
  pose proof (lastHost_size ipNet (proj1 Hu)) as Hl.
  unfold IPCounts, subnet. rewrite HC. destruct (proj1 Hu) as (_ & Hb & _). rewrite Hb in *. simpl.
  assert (Z.shiftl 1 (32 - IPNet_ones ipNet) = net_size ipNet)%Z as -> by lia.
  rewrite (int64_wrap_id (net_size ipNet)) by (unfold is_int64; lia).
  rewrite !int64_wrap_id by (unfold is_int64; lia). f_equal; lia.
Qed.

(** The count of free addresses a network reports is exact: when nothing
    else fails, an instance that holds no address on the network is given one
    if and only if that count is not zero; if it is zero the call is refused
    with an error saying that addresses have run out. *)
Theorem Allocate_iff_free defs env m n t id :
  rtc step (∅, NewManager ∅) (defs, m) → defs !! Name n = Some n →
  allocationTableOf m (Name n) = Ok t → id ∉ (Allocation_InstanceID <$> allocations t) →
  write env = None → is_ok (mac_bytes env) = true →
  (Z.of_nat (length (allocations t)) < 2 ^ 62)%Z →
  let free := (IPCounts n (Z.of_nat (length (allocations t)))).2 in
  match Allocate env m n id "" with
  | (Ok a, m') => (0 < free)%Z ∧ Allocation_InstanceID a = id ∧ AllocationOf m' (Name n) id = Ok a
  | (Err e, m') => free = 0%Z ∧ Is e ErrResourceExhausted = true ∧ m' = m
  end.
Proof.
  intros [Hd Hm]%manager_reachable_ok Hn Ht Hid Hw Hmac Hlen.
  destruct (tableOf_ok defs m _ t Hm Ht) as ([Ht1 Ht2] & Hserve & Herr).
  destruct (Hd _ _ Hn) as [_ Hwf]. destruct (well_formed_prefix n Hwf) as (ipNet & Hu & _ & HC & _).
  assert (assignable_str ipNet (Gateway n)) as Hg.
  { destruct Hwf as (_ & _ & _ & _ & ipNet' & Hu' & HS' & Hg').
    rewrite HS', ParseCIDR_String in HC by apply Hu'. by injection HC as <-. }
  destruct (Hserve Hd n Hn) as (ipNet' & HC' & Hf). simplify_eq.
  cbv zeta. rewrite (IPCounts_eq n ipNet) by (done || lia). simpl.
  pose proof (freeIP_succeeds (random env) n ipNet (allocations t) Hu Hg Ht2 Hf) as Hfree.
  rewrite <-Ht1 in Hfree. unfold Allocate. rewrite Ht.
  assert (byInstance t !! id ≫= (λ i, allocations t !! i) = None) as ->.
  { rewrite Ht1 at 1. by apply byInstance_lookup. }
  rewrite HC. unfold chooseIP. simpl.
  destruct (freeIP (random env) ipNet (usedIPs n t)) as [ip|e] eqn:E; simpl.
  - destruct (mac_bytes env) as [[[[[[b0 b1] b2] b3] b4] b5]|]; [|done]. rewrite Hw. simpl.
    pose proof (proj1 Hfree eq_refl). split_and!; [lia|done|].
    unfold AllocationOf, allocationTableOf. simpl. rewrite Herr, lookup_insert_eq. simpl.
    set (a := mkAllocation _ _ _ _). rewrite allocations_new.
    assert (byInstance (newAllocationTable (allocations t ++ [a])) !! id = Some (length (allocations t))) as ->.
    { apply byInstance_spec; [|exists a; split; [by apply list_lookup_middle|done]].
      apply freeIP_Ok in E as [Hfr _]; [|done]. unfold usedIPs in Hfr. rewrite Ht1, dom_byIP in Hfr by done.
      apply unique_snoc; simpl; set_solver. }
    simpl. by rewrite list_lookup_middle.
  - apply freeIP_Err in E as (_ & He & _); [|done]. split_and!; [|done|done].
    destruct (Z.ltb_spec (Z.of_nat (length (allocations t))) (net_size ipNet - 3)) as [Hlt|]; [|lia].
    by apply Hfree in Hlt.
Qed.

Lemma Allocate_iff_free_witness :
  (0 < (IPCounts example_network 1).2)%Z.
Proof.
  assert (allocationTableOf example_manager (Name example_network) =
    Ok (newAllocationTable [mkAllocation "id" "i1" "10.0.0.2" "02:01:02:03:04:05"])) as Ht
    by (vm_compute; reflexivity).
  pose proof (Allocate_iff_free {["web" := example_network]} example_env example_manager example_network
    _ "i2" example_manager_reachable eq_refl Ht) as H.
  destruct (Allocate example_env example_manager example_network "i2" "") as [[a|e] m'] eqn:E.
  - apply H; [|reflexivity|reflexivity|vm_compute; reflexivity].
    apply (bool_decide_eq_true_1 (_ ∉ _)). vm_compute. reflexivity.
  - exfalso. apply (f_equal (λ p, is_ok p.1)) in E. vm_compute in E. discriminate E.
Defined.

(** *** Giving addresses back *)

Lemma tableOf_save m name name' l :
  allocationTableErrors m !! name = None →
  allocationTableOf (saveAllocationTable None m name l).2 name' =
  if decide (name' = name) then Ok (newAllocationTable l) else allocationTableOf m name'.
Proof.
  intros He. unfold allocationTableOf. simpl. case_decide as E; [subst|].
  - by rewrite He, lookup_insert_eq.
  - by rewrite lookup_insert_ne.
Qed.

Lemma saved w m name l r m' :
  saveAllocationTable w m name l = (r, m') →
  match r with Ok _ => m' = (saveAllocationTable None m name l).2 | Err _ => m' = m end.
Proof. unfold saveAllocationTable. destruct w; by intros [= <- <-]. Qed.

(** What [Allocate] does when it succeeds: nothing for an instance that has
    an address, and else one allocation at the end of the table. *)
Lemma Allocate_Ok defs env m n id static a m' :
  defs_ok defs → manager_ok defs m → defs !! Name n = Some n →
  Allocate env m n id static = (Ok a, m') →
  ∃ t, allocationTableOf m (Name n) = Ok t ∧ Allocation_InstanceID a = id ∧
    ((a ∈ allocations t ∧ m' = m) ∨
     (id ∉ (Allocation_InstanceID <$> allocations t)) ∧ unique (allocations t ++ [a]) ∧
     m' = (saveAllocationTable None m (Name n) (allocations t ++ [a])).2).
Proof.
  intros Hd Hm Hn. unfold Allocate.
  destruct (allocationTableOf m (Name n)) as [t|err] eqn:Ht; [|done].
  destruct (tableOf_ok defs m _ t Hm Ht) as ([Ht1 Ht2] & Hserve & Herr). intros H. exists t. split; [done|].
  destruct (byInstance t !! id ≫= _) as [a'|] eqn:Hi.
  { simplify_eq. apply bind_Some in Hi as (i & Hi & Ha). rewrite Ht1 in Hi.
    apply byInstance_spec in Hi as (b & Hb & Hid); [|done]. simplify_eq. split; [done|]. left.
    split; [|done]. by eapply list_elem_of_lookup_2. }
  destruct (well_formed_prefix n) as (ipNet & Hu & _ & HC & _); [by eapply Hd|]. rewrite HC in H.
  destruct (chooseIP _ _ _ _ _) as [ip|err] eqn:Hc; [|done].
  apply chooseIP_Ok in Hc as [Hfree _]; [|done]. unfold usedIPs in Hfree.
  destruct (mac_bytes env) as [[[[[[b0 b1] b2] b3] b4] b5]|]; [|done].
  destruct (saveAllocationTable _ _ _ _) as [[u|e] m1] eqn:Hs; [|done].
  apply saved in Hs. injection H as <- ->. split; [done|]. right.
  rewrite Ht1 in Hi, Hfree. rewrite allocations_new in Hi. rewrite dom_byIP in Hfree by done.
  apply byInstance_lookup in Hi; [|done]. split_and!; [done| |done]. apply unique_snoc; simpl; set_solver.
Qed.

Lemma delete_snoc {A} (l : list A) a : delete (length l) (l ++ [a]) = l.
Proof. induction l as [|x l IH]; [done|]. simpl. by rewrite IH. Qed.

(** An address is held until it is released: after a call that gives an
    instance an address, any further call for it returns the same one and
    changes nothing, and releasing it then succeeds; if the first call made
    the allocation, releasing it restores the network's table as it was. *)
Theorem Allocate_Release defs env env' m n id static static' a m1 :
  rtc step (∅, NewManager ∅) (defs, m) → defs !! Name n = Some n →
  Allocate env m n id static = (Ok a, m1) →
  Allocate env' m1 n id static' = (Ok a, m1) ∧
  ∃ m2 t2, Release None m1 (Name n) id = (Ok tt, m2) ∧ allocationTableOf m2 (Name n) = Ok t2 ∧
    (id ∉ (Allocation_InstanceID <$> allocations t2)) ∧
    (is_ok (AllocationOf m (Name n) id) = false → allocationTableOf m (Name n) = Ok t2).
Proof.
  intros [Hd Hm]%manager_reachable_ok Hn HA.
  assert (manager_ok defs m1) as Hm1 by by eapply Allocate_ok.
  destruct (Allocate_Ok defs _ _ _ _ _ _ _ Hd Hm Hn HA) as (t & Ht & Hid & Hcase).
  destruct (tableOf_ok defs m _ t Hm Ht) as ([Ht1 Ht2] & _ & Herr).
  assert (∃ t1 i, allocationTableOf m1 (Name n) = Ok t1 ∧ allocations t1 !! i = Some a ∧
    (is_ok (AllocationOf m (Name n) id) = false → allocations t = delete i (allocations t1)))
    as (t1 & i & Ht1' & Hi & Hnew).
  { destruct Hcase as [[Ha ->]|(Hfresh & Hu & ->)].
    - apply list_elem_of_lookup in Ha as [i Hi]. exists t, i. split_and!; [done..|].
      unfold AllocationOf. rewrite Ht. simpl.
      assert (byInstance t !! id = Some i) as -> by (rewrite Ht1; apply byInstance_spec; eauto).
      simpl. by rewrite Hi.
    - rewrite tableOf_save, decide_True by done. eexists _, (length (allocations t)).
      rewrite allocations_new, list_lookup_middle, delete_snoc by done. done. }
  destruct (tableOf_ok defs m1 _ t1 Hm1 Ht1') as ([Ht1a Ht1b] & _ & Herr1).
  assert (byInstance t1 !! id = Some i) as Hidx by (rewrite Ht1a; apply byInstance_spec; eauto).
  split; [unfold Allocate; by rewrite Ht1', Hidx; simpl; rewrite Hi|].
  exists (saveAllocationTable None m1 (Name n) (delete i (allocations t1))).2,
    (newAllocationTable (delete i (allocations t1))).
  rewrite tableOf_save, decide_True, allocations_new by done. split_and!; [|done| |].
  - unfold Release. by rewrite Ht1', Hidx.
  - intros (b & Hb & Hin)%list_elem_of_fmap. destruct Ht1b as [Hnd _].
    rewrite <-(take_drop_middle _ _ _ Hi), fmap_app, fmap_cons in Hnd.
    rewrite delete_take_drop in Hin. apply NoDup_app in Hnd as (_ & Hn1 & [Hn2 _]%NoDup_cons).
    apply elem_of_app in Hin as [Hin|Hin].
    + apply (Hn1 (Allocation_InstanceID b)); [apply list_elem_of_fmap; eauto|]. rewrite <-Hb, <-Hid. left.
    + apply Hn2, list_elem_of_fmap. exists b. split; [congruence|done].
  - intros Hno. rewrite <-(Hnew Hno), <-Ht1. done.
Qed.

Lemma Allocate_Release_witness :
  is_ok (Release None example_manager "web" "i1").1 = true.
Proof.
  destruct (Allocate_Release {["web" := example_network]} example_env example_env (NewManager ∅) example_network
    "i1" "" "" (mkAllocation "id" "i1" "10.0.0.2" "02:01:02:03:04:05") example_manager
    (rtc_once _ _ example_defined) eq_refl) as (_ & m2 & t2 & H & _).
  - vm_compute. reflexivity.
  - change (Name example_network) with "web" in H. rewrite H. reflexivity.
Defined.

(** How many allocations of a network are held by instances not in [live]. *)
Definition orphans (m : Manager) (live : gset string) (name : string) : nat :=
  match allocationTableOf m name with
  | Ok t => length (filter (λ a, Allocation_InstanceID a ∉ live) (allocations t))
  | Err _ => 0
  end.

Lemma length_filter_split {A} (P : A → Prop) `{!∀ x, Decision (P x)} l :
  length l = length (filter P l) + length (filter (λ x, ¬ P x) l).
Proof.
  induction l as [|x l IH]; [done|]. rewrite !filter_cons.
  destruct (decide (P x)), (decide (¬ P x)); simpl; try done; lia.
Qed.

Lemma filter_same_length {A} (P : A → Prop) `{!∀ x, Decision (P x)} l :
  length (filter P l) = length l → filter P l = l.
Proof.
  induction l as [|x l IH]; [done|]. rewrite filter_cons. case_decide; simpl.
  - intros H'. f_equal. apply IH. lia.
  - pose proof (length_filter P l). lia.
Qed.

(** Reconciling drops exactly the orphans: when it succeeds, each network
    it was given keeps the allocations of live instances, in order, and no
    others; networks it was not given are unchanged; and the number it
    returns is the number of allocations dropped. *)
Theorem Reconcile_spec defs w m names live k m' :
  rtc step (∅, NewManager ∅) (defs, m) → NoDup names →
  Reconcile w m names live 0 = (k, Ok tt, m') →
  k = sum_list_with (orphans m live) names ∧
  ∀ name t, allocationTableOf m name = Ok t →
    allocationTableOf m' name =
    Ok (if decide (name ∈ names)
        then newAllocationTable (filter (λ a, Allocation_InstanceID a ∈ live) (allocations t)) else t).
Proof.
  intros [Hd Hm]%manager_reachable_ok.
  assert (∀ k0, NoDup names → Reconcile w m names live k0 = (k, Ok tt, m') →
    k = k0 + sum_list_with (orphans m live) names ∧
    ∀ name t, allocationTableOf m name = Ok t → allocationTableOf m' name =
      Ok (if decide (name ∈ names)
          then newAllocationTable (filter (λ a, Allocation_InstanceID a ∈ live) (allocations t)) else t)) as H;
    [|by intros Hnd HR; apply (H 0)].
  revert m Hm; induction names as [|name names IH]; intros m Hm k0; simpl.
  { intros _ [= -> ->]. split; [lia|]. done. }
  intros [Hnin Hnd]%NoDup_cons.
  destruct (allocationTableOf m name) as [t|err] eqn:Ht; [|done].
  destruct (tableOf_ok defs m _ t Hm Ht) as ([Ht1 Ht2] & Hserve & Herr).
  set (kept := filter (λ a, Allocation_InstanceID a ∈ live) (allocations t)).
  pose proof (length_filter_split (λ a, Allocation_InstanceID a ∈ live) (allocations t)) as Hlen.
  fold kept in Hlen.
  assert (orphans m live name = length (allocations t) - length kept) as Ho
    by (unfold orphans; rewrite Ht; lia).
  assert (∀ m1, manager_ok defs m1 →
    (∀ name', allocationTableOf m1 name' = if decide (name' = name) then Ok (newAllocationTable kept) else allocationTableOf m name') →
    Reconcile w m1 names live (k0 + (length (allocations t) - length kept)) = (k, Ok tt, m') →
    k = k0 + (orphans m live name + sum_list_with (orphans m live) names) ∧
    ∀ name' t', allocationTableOf m name' = Ok t' → allocationTableOf m' name' =
      Ok (if decide (name' ∈ name :: names)
          then newAllocationTable (filter (λ a, Allocation_InstanceID a ∈ live) (allocations t')) else t')) as Hstep.
  { intros m1 Hm1 Htab HR. destruct (IH m1 Hm1 _ Hnd HR) as [-> Hrest]. split.
    - rewrite Ho. assert (sum_list_with (orphans m1 live) names = sum_list_with (orphans m live) names) as ->; [|lia].
      clear -Hnin Htab. induction names as [|x names IH]; [done|]. simpl. rewrite IH by set_solver. f_equal.
      unfold orphans. rewrite Htab, decide_False by set_solver. done.
    - intros name' t' Ht'. destruct (decide (name' = name)) as [->|Hne].
      + rewrite Ht in Ht'. injection Ht' as <-. rewrite (Hrest name (newAllocationTable kept)).
        * rewrite decide_False by done. by rewrite decide_True by set_solver.
        * by rewrite Htab, decide_True.
      + rewrite (Hrest name' t'); [|by rewrite Htab, decide_False].
        by destruct (decide (name' ∈ names)), (decide (name' ∈ name :: names)); set_solver. }
  destruct (Nat.eqb_spec (length kept) (length (allocations t))) as [Heq|Hneq].
  - apply (Hstep m Hm). intros name'. case_decide; [subst name'|done]. 
    rewrite Ht, Ht1. do 2 f_equal. symmetry. by apply filter_same_length.
  - destruct (saveAllocationTable _ _ _ _) as [[[]|e] m1] eqn:Hs; [|done].
    apply Hstep.
    + eapply save_ok; [done..| | |exact Hs].
      * eapply unique_sublist; [apply sublist_filter|done].
      * intros n Hn. eapply serves_sublist; [apply sublist_filter|]. by apply Hserve.
    + apply saved in Hs as ->. intros name'. by apply tableOf_save.
Qed.

Lemma Reconcile_spec_witness :
  (Reconcile (λ _, None) example_manager ["web"] ∅ 0).1.1 = 1.
Proof.
  destruct (Reconcile (λ _, None) example_manager ["web"] ∅ 0) as [[k r] m'] eqn:E.
  assert (r = Ok tt) as ->.
  { apply (f_equal (λ p, p.1.2)) in E. vm_compute in E. exact (eq_sym E). }
  destruct (Reconcile_spec {["web" := example_network]} (λ _, None) example_manager ["web"] ∅ k m'
    example_manager_reachable) as [Hk _]; [apply NoDup_singleton|exact E|].
  simpl. rewrite Hk. vm_compute. reflexivity.
Defined.

End NetworkManager.
