(* ===== verification/Instance.v ===== *)
(** * Instances

    The data of [internal/instance] and the pure decisions over it: an
    instance's definition and its validation ([instance.go], [mount.go]), its
    lifecycle states and status, amounts of CPU and memory ([resources.go]),
    how a guest ended ([exit.go]) and what its restart policy makes of that
    ([restart.go]). *)

From S2P Require Import Prelude Errdefs Naming Health Network.

(** ** Paths *)
Module Path.

(** [path.IsAbs] *)
Definition IsAbs (s : string) : bool := Str.has_prefix "/" s.

(** The components of a cleaned rooted path: empty ones and dots go, and a
    double dot removes the one before it, or nothing at the root. [rev_done]
    are the components so far, the last first. *)
Fixpoint clean_components (rev_done : list string) (parts : list string) : list string :=
  match parts with
  | [] => reverse rev_done
  | part :: parts =>
      if bool_decide (part = "") || bool_decide (part = ".") then clean_components rev_done parts
      else if bool_decide (part = "..") then clean_components (tail rev_done) parts
      else clean_components (part :: rev_done) parts
  end.

(** [path.Clean] of a rooted path. *)
Definition Clean (s : string) : string :=
  "/" +:+ Str.join "/" (clean_components [] (Str.split "/" s)).

End Path.

Module Instance.
Import Network.

(** ** Mounts *)

Abbreviation MountType := string (only parsing).

Definition MountTypeVolume : MountType := "volume".

Definition MountTypeFile : MountType := "file".

Definition MountTypeTmpfs : MountType := "tmpfs".

Definition MountTypeDirectory : MountType := "directory".

Definition MaxFileMountBytes : Z := 2 ^ 20.

Definition defaultFileMountMode : Z := 420.

Definition MaxVolumeMounts : nat := nat_of_ascii "z" - nat_of_ascii "e" + 1.

Record Mount := mkMount {
  Mount_Type : MountType;
  Source : string;
  Target : string;
  ReadOnly : bool;
  Content : string;
  Mode : Z;
}.

#[global] Instance Mount_eq_dec : EqDecision Mount.
Proof. solve_decision. Defined.

Definition FileMode (m : Mount) : Z := if (Mode m =? 0)%Z then defaultFileMountMode else Mode m.

(** [Mount.Equal] *)
Definition Mount_Equal (m other : Mount) : bool :=
  bool_decide (Mount_Type m = Mount_Type other) && bool_decide (Source m = Source other) &&
  bool_decide (Target m = Target other) && eqb (ReadOnly m) (ReadOnly other) &&
  bool_decide (Content m = Content other) && (Mode m =? Mode other)%Z.

(** [Mount.validate] *)
Definition Mount_validate (m : Mount) : result unit :=
  refuse_if (bool_decide (Target m = "")) (InvalidArgument "mount %s: it needs a target") ;;
  refuse_if (negb (Path.IsAbs (Target m))) (InvalidArgument "mount %s: the target %q must be absolute, e.g. /data") ;;
  refuse_if (bool_decide (Path.Clean (Target m) = "/"))
    (InvalidArgument "mount %s: nothing can be mounted over the root filesystem") ;;
  refuse_if (negb (bool_decide (Mount_Type m = MountTypeFile)) &&
             (negb (bool_decide (Content m = "")) || negb (Mode m =? 0)%Z))
    (InvalidArgument "mount %s: only a file mount has contents and a mode") ;;
  if bool_decide (Mount_Type m = MountTypeVolume) then
    refuse_if (bool_decide (Source m = "")) (InvalidArgument "mount %s: a volume mount needs the volume's name as its source")
  else if bool_decide (Mount_Type m = MountTypeFile) then
    refuse_if (negb (bool_decide (Source m = "")))
      (InvalidArgument "mount %s: a file mount has no source: the client sends the file's contents") ;;
    refuse_if (negb (Z.ldiff (Mode m) 511 =? 0)%Z) (InvalidArgument "mount %s: mode %#o is not permission bits")
  else if bool_decide (Mount_Type m = MountTypeDirectory) then
    refuse_if (negb (Path.IsAbs (Source m)))
      (InvalidArgument "mount %s: a directory mount needs an absolute host path as its source")
  else if bool_decide (Mount_Type m = MountTypeTmpfs) then
    refuse_if (negb (bool_decide (Source m = ""))) (InvalidArgument "mount %s: a tmpfs has no source") ;;
    refuse_if (ReadOnly m) (InvalidArgument "mount %s: a read-only tmpfs would always be empty")
  else Err (InvalidArgument "mount %s: unknown type %q: want %s, %s, %s or %s").

(** The loop of [validateMounts]. *)
Fixpoint validateMounts_loop (targets volumes : gset string) (fileBytes : Z) (mounts : list Mount)
  : result (gset string) :=
  match mounts with
  | [] => Ok volumes
  | m :: mounts =>
      Mount_validate m ;;
      let fileBytes := (fileBytes + Z.of_nat (Str.len (Content m)))%Z in
      refuse_if (MaxFileMountBytes <? fileBytes)%Z
        (InvalidArgument "the file mounts hold more than %d bytes between them: put larger files in a volume or the image") ;;
      let target := Path.Clean (Target m) in
      refuse_if (bool_decide (target ∈ targets)) (InvalidArgument "two mounts have the target %q") ;;
      if bool_decide (Mount_Type m = MountTypeVolume) then
        refuse_if (bool_decide (Source m ∈ volumes)) (InvalidArgument "volume %q is mounted twice") ;;
        validateMounts_loop ({[target]} ∪ targets) ({[Source m]} ∪ volumes) fileBytes mounts
      else validateMounts_loop ({[target]} ∪ targets) volumes fileBytes mounts
  end.

Definition validateMounts (mounts : list Mount) : result unit :=
  volumes ← validateMounts_loop ∅ ∅ 0 mounts;
  refuse_if (MaxVolumeMounts <? size volumes) (InvalidArgument "%d volumes given: an instance can mount at most %d").

(** ** Restart policies *)

Abbreviation RestartMode := string (only parsing).

Definition RestartModeNo : RestartMode := "no".

Definition RestartModeOnFailure : RestartMode := "on-failure".

Definition RestartModeUnlessStopped : RestartMode := "unless-stopped".

Definition RestartModeAlways : RestartMode := "always".

Record RestartPolicy := mkRestartPolicy { RestartPolicy_Mode : RestartMode; MaxRetries : Z }.

#[global] Instance RestartPolicy_eq_dec : EqDecision RestartPolicy.
Proof. solve_decision. Defined.

(** [RestartPolicy.Validate] *)
Definition RestartPolicy_Validate (p : RestartPolicy) : result unit :=
  if bool_decide (RestartPolicy_Mode p ∈ [""; RestartModeNo; RestartModeUnlessStopped; RestartModeAlways]) then
    refuse_if (negb (MaxRetries p =? 0)%Z) (InvalidArgument "a retry limit applies only to the on-failure restart policy")
  else if bool_decide (RestartPolicy_Mode p = RestartModeOnFailure) then
    refuse_if (MaxRetries p <? 0)%Z (InvalidArgument "the retry limit cannot be negative")
  else Err (InvalidArgument "unknown restart policy %q: want no, on-failure[:N], unless-stopped or always").

Definition Restarts (p : RestartPolicy) : bool :=
  negb (bool_decide (RestartPolicy_Mode p = "")) && negb (bool_decide (RestartPolicy_Mode p = RestartModeNo)).

Definition StartsOnBoot (p : RestartPolicy) (stoppedByUser : bool) : bool :=
  if bool_decide (RestartPolicy_Mode p = RestartModeAlways) then true
  else if bool_decide (RestartPolicy_Mode p = RestartModeUnlessStopped) then negb stoppedByUser
  else false.

(** [RestartPolicy.String] *)
Definition RestartPolicy_String (p : RestartPolicy) : string :=
  if bool_decide (RestartPolicy_Mode p = "") then RestartModeNo
  else if (0 <? MaxRetries p)%Z then RestartPolicy_Mode p +:+ ":" +:+ Str.itoa (MaxRetries p)
  else RestartPolicy_Mode p.

(** ** Definitions *)

Definition TypeCloudHypervisor : string := "cloud-hypervisor".

Definition TypeFirecracker : string := "firecracker".

Definition DefaultType : string := TypeCloudHypervisor.

Definition InitModeSystemd : string := "systemd".

Definition MinStandbyAfter : Z := 60 * second.

Record Spec := mkSpec {
  ID : string;
  Name : string;
  Hostname : string;
  ImageRef : string;
  ImageDigest : string;
  HypervisorType : string;
  HypervisorVersion : string;
  KernelName : string;
  KernelArgs : string;
  VCPUs : Z;
  MemoryBytes : Z;
  DiskBytes : Z;
  NetworkName : string;
  StaticIP : string;
  MaxVCPUs : Z;
  MaxMemoryBytes : Z;
  DiskBytesPerSecond : Z;
  DiskIOPS : Z;
  UploadBytesPerSecond : Z;
  DownloadBytesPerSecond : Z;
  StandbyAfter : Z;
  Ports : list PortMapping;
  Mounts : list Mount;
  Env : gmap string string;
  Cmd : list string;
  InitMode : string;
  User : string;
  Labels : gmap string string;
  Restart : RestartPolicy;
  HealthCheck : option Health.Check;
  CreatedAt : Z;
  UpdatedAt : Z;
  RemoveOnExit : bool;
  StoppedByUser : bool;
}.

#[global] Instance Spec_eq_dec : EqDecision Spec.
Proof. solve_decision. Defined.

(** *** Amounts of CPU and memory ([resources.go]) *)

Module Res.

(** Both amounts are 64-bit. *)
Record Resources := mkResources { VCPUs : Z; MemoryBytes : Z }.

#[global] Instance Resources_eq_dec : EqDecision Resources.
Proof. solve_decision. Defined.

Definition zero : Resources := mkResources 0 0.

Definition Add (r o : Resources) : Resources :=
  mkResources (int64_wrap (VCPUs r + VCPUs o)) (int64_wrap (MemoryBytes r + MemoryBytes o)).

Definition Sub (r o : Resources) : Resources :=
  mkResources (Z.max (int64_wrap (VCPUs r - VCPUs o)) 0) (Z.max (int64_wrap (MemoryBytes r - MemoryBytes o)) 0).

Definition Fits (r limit : Resources) : bool :=
  (VCPUs r <=? VCPUs limit)%Z && (MemoryBytes r <=? MemoryBytes limit)%Z.

End Res.

(** [Spec.Resources] *)
Definition Spec_Resources (s : Spec) : Res.Resources := Res.mkResources (VCPUs s) (MemoryBytes s).

Definition MaxResources (s : Spec) : Res.Resources :=
  Res.mkResources (Z.max (VCPUs s) (MaxVCPUs s)) (Z.max (MemoryBytes s) (MaxMemoryBytes s)).

Definition EffectiveHypervisorType (s : Spec) : string :=
  if bool_decide (HypervisorType s = "") then DefaultType else HypervisorType s.

Definition HasDirectoryMount (s : Spec) : bool :=
  existsb (λ m, bool_decide (Mount_Type m = MountTypeDirectory)) (Mounts s).

(** [Spec.VolumeMount]: the first mount of the named volume. *)
Fixpoint VolumeMount_loop (mounts : list Mount) (name : string) : option Mount :=
  match mounts with
  | [] => None
  | m :: mounts =>
      if bool_decide (Mount_Type m = MountTypeVolume) && bool_decide (Source m = name) then Some m
      else VolumeMount_loop mounts name
  end.

Definition VolumeMount (s : Spec) (name : string) : option Mount := VolumeMount_loop (Mounts s) name.

Definition validUser (user : string) : bool :=
  match Str.cut ":" user with
  | (name, Some group) =>
      if bool_decide (group = "") || Str.contains_byte ":" group then false else negb (bool_decide (name = ""))
  | (name, None) => negb (bool_decide (name = ""))
  end.

(** The loop of [Spec.Validate] over the ports; [before] are those already
    checked. *)
Fixpoint validatePorts (before ports : list PortMapping) : result unit :=
  match ports with
  | [] => Ok tt
  | port :: ports =>
      PortMapping_Validate port ;;
      for_each (λ prev, refuse_if (PortsOverlap port prev) (InvalidArgument "port %s overlaps port %s")) before ;;
      validatePorts (before ++ [port]) ports
  end.

(** The switch of [Spec.Validate]. *)
Definition validateSettings (s : Spec) : result unit :=
  refuse_if (bool_decide (ImageRef s = "")) (InvalidArgument "an instance needs an image") ;;
  refuse_if (VCPUs s <=? 0)%Z (InvalidArgument "an instance needs at least 1 vCPU") ;;
  refuse_if (MemoryBytes s <=? 0)%Z (InvalidArgument "an instance needs more than 0 bytes of memory") ;;
  refuse_if (DiskBytes s <=? 0)%Z (InvalidArgument "an instance needs a disk of more than 0 bytes") ;;
  refuse_if ((MaxVCPUs s <? 0)%Z || (0 <? MaxVCPUs s)%Z && (MaxVCPUs s <? VCPUs s)%Z)
    (InvalidArgument "max_vcpus %d is below the instance's %s") ;;
  refuse_if ((MaxMemoryBytes s <? 0)%Z || (0 <? MaxMemoryBytes s)%Z && (MaxMemoryBytes s <? MemoryBytes s)%Z)
    (InvalidArgument "max_memory_bytes %s is below the instance's %s memory") ;;
  refuse_if ((0 <? MaxVCPUs s)%Z && bool_decide (EffectiveHypervisorType s = TypeFirecracker))
    (InvalidArgument "firecracker cannot add vCPUs to a running guest: leave max_vcpus unset, or use cloud-hypervisor") ;;
  refuse_if ((DiskBytesPerSecond s <? 0)%Z || (DiskIOPS s <? 0)%Z ||
             (UploadBytesPerSecond s <? 0)%Z || (DownloadBytesPerSecond s <? 0)%Z)
    (InvalidArgument "a rate limit cannot be negative: give 0 for no limit") ;;
  refuse_if (negb (StandbyAfter s =? 0)%Z && (StandbyAfter s <? MinStandbyAfter)%Z)
    (InvalidArgument "standby_after %s is too short: idleness is judged a minute at a time, so give %s or more, or 0 for never") ;;
  refuse_if (HasDirectoryMount s && negb (bool_decide (EffectiveHypervisorType s = TypeCloudHypervisor)))
    (InvalidArgument "directory mounts need %s: %s cannot share a directory with its guest") ;;
  refuse_if (HasDirectoryMount s && negb (StandbyAfter s =? 0)%Z)
    (InvalidArgument "an instance that mounts a host directory cannot be put on standby: leave standby_after unset") ;;
  refuse_if (negb (bool_decide (User s = "")) && negb (validUser (User s)))
    (InvalidArgument "invalid user %q: give user, uid, user:group or uid:gid") ;;
  refuse_if (negb (bool_decide (User s = "")) && bool_decide (InitMode s = InitModeSystemd))
    (InvalidArgument "systemd runs as root, so the systemd init mode cannot run as user %q: leave the user unset, or use the exec init mode") ;;
  refuse_if (RemoveOnExit s && Restarts (Restart s))
    (InvalidArgument "an instance cannot be deleted when it stops and restarted when it stops: the restart policy is %s, so drop it or drop the request to delete it").

(** [Spec.Validate] *)
Definition Validate (s : Spec) : result unit :=
  Naming.Validate (Name s) ;;
  Naming.ValidateHostname (Hostname s) ;;
  validateSettings s ;;
  validatePorts [] (Ports s) ;;
  validateMounts (Mounts s).

(** ** States and status *)

Inductive State :=
  | StateStopped
  | StateStarting
  | StateRunning
  | StatePaused
  | StateStandby
  | StateStopping
  | StateRestarting
  | StateFailed.

#[global] Instance State_eq_dec : EqDecision State.
Proof. solve_decision. Defined.

Definition States : list State :=
  [ StateStopped; StateStarting; StateRunning; StatePaused; StateStandby; StateStopping;
    StateRestarting; StateFailed ].

Definition allowedTransitions (s : State) : list State :=
  match s with
  | StateStopped => [StateStarting]
  | StateStarting => [StateRunning; StateRestarting; StateFailed]
  | StateRunning => [StatePaused; StateStopping; StateStopped; StateRestarting; StateFailed]
  | StatePaused => [StateRunning; StateStopping; StateStopped; StateRestarting; StateFailed]
  | StateStandby => [StateStarting]
  | StateStopping => [StateStopped; StateFailed]
  | StateRestarting => [StateStarting; StateStopping; StateFailed]
  | StateFailed => [StateStarting; StateStopping; StateStopped]
  end.

Definition CanTransitionTo (s target : State) : bool := bool_decide (target ∈ allowedTransitions s).

Definition IsActive (s : State) : bool :=
  bool_decide (s = StateRunning) || bool_decide (s = StatePaused).

Definition HoldsResources (s : State) : bool := bool_decide (s = StateStarting) || IsActive s.

Definition HoldsPortsAndVolumes (s : State) : bool :=
  HoldsResources s || bool_decide (s = StateStopping) || bool_decide (s = StateStandby).

(** [Status]. A time that is not set is 0, and an error that is not set is
    [None]; the paths of the hypervisor's socket and of the guest's vsock are
    set together with the PID. *)
Record Status := mkStatus {
  InstanceID : string;
  Status_State : State;
  StateError : option error;
  VMMPID : option Z;
  HypervisorSocketPath : string;
  Status_HypervisorVersion : string;
  VsockCID : Z;
  VsockPath : string;
  Status_VCPUs : Z;
  Status_MemoryBytes : Z;
  Status_ImageDigest : string;
  IP : string;
  MAC : string;
  Status_HealthCheck : option Health.Check;
  StartedAt : Z;
  Status_UpdatedAt : Z;
  ExitCode : option Z;
  FinishedAt : Z;
  RestartCount : Z;
  NextRestartAt : Z;
}.

#[global] Instance Status_eq_dec : EqDecision Status.
Proof. solve_decision. Defined.

(** [Status.HeldResources] *)
Definition HeldResources (s : Status) : Res.Resources :=
  if negb (HoldsResources (Status_State s)) then Res.zero
  else Res.mkResources (Status_VCPUs s) (Status_MemoryBytes s).

(** ** How a guest ended, and whether to start it again *)

Record Exit := mkExit { Code : option Z; Failure : option error }.

(** [Exit.Clean] *)
Definition Exit_Clean (e : Exit) : bool := bool_decide (Failure e = None).

(** What the guest left on its status disk. *)
Record GuestStatus := mkGuestStatus { Guest_ExitCode : option Z; Boots : Z }.

(** The outcome of waiting for a VMM: it ended well, its exit status is not
    known ([process.ErrExitStatusUnknown]), or it ended with an error. *)
Inductive VMMExit := ExitedWell | ExitStatusUnknown | ExitedWith (e : error).

Definition classifyExit (guestStatus : GuestStatus) (vmmErr : VMMExit) : Exit :=
  match Guest_ExitCode guestStatus with
  | Some code =>
      if (code =? 0)%Z then mkExit (Some code) None
      else mkExit (Some code) (Some (Errdefs.New "exit code %d"))
  | None =>
      if (1 <? Boots guestStatus)%Z then mkExit None (Some (Errdefs.New "guest reset (kernel panic or reboot)"))
      else match vmmErr with
           | ExitStatusUnknown => mkExit None (Some (Errdefs.New "hypervisor exited, no exit code reported"))
           | ExitedWith e => mkExit None (Some (Errorf "hypervisor exited unexpectedly: %w" e))
           | ExitedWell => mkExit None (Some (Errdefs.New "guest ended, no exit code reported"))
           end
  end.

Definition restartBackoffBase : Z := second.

Definition restartBackoffMax : Z := 300 * second.

Definition restartBackoffReset : Z := 600 * second.

Record restartDecision := mkRestartDecision {
  restart : bool;
  delay : Z;
  restarts : Z;
  gaveUp : bool;
}.

(** The loop of [backoff]. *)
Fixpoint backoff_loop (n : nat) (delay : Z) : Z :=
  match n with
  | 0 => delay
  | S n =>
      let delay := (delay * 2)%Z in
      if (restartBackoffMax <=? delay)%Z then restartBackoffMax else backoff_loop n delay
  end.

Definition backoff (restarts : Z) : Z := backoff_loop (Z.to_nat restarts) restartBackoffBase.

Definition decideRestart (policy : RestartPolicy) (exit : Exit) (restarts ranFor : Z) : restartDecision :=
  let restarts := if (restartBackoffReset <=? ranFor)%Z then 0%Z else restarts in
  let wanted :=
    if bool_decide (RestartPolicy_Mode policy = RestartModeAlways) ||
       bool_decide (RestartPolicy_Mode policy = RestartModeUnlessStopped) then true
    else if bool_decide (RestartPolicy_Mode policy = RestartModeOnFailure) then negb (Exit_Clean exit)
    else false in
  if negb wanted then mkRestartDecision false 0 restarts false
  else if (0 <? MaxRetries policy)%Z && (MaxRetries policy <=? restarts)%Z
  then mkRestartDecision false 0 restarts true
  else mkRestartDecision true (backoff restarts) (int64_wrap (restarts + 1)) false.

(** ** Properties of definitions *)

Lemma validatePorts_Ok before ports :
  validatePorts before ports = Ok tt →
  Forall (λ p, PortMapping_Validate p = Ok tt) ports ∧
  ∀ i j p q, (before ++ ports) !! i = Some p → (before ++ ports) !! j = Some q →
    length before ≤ j → i < j → PortsOverlap q p = false.
Proof.
  revert before; induction ports as [|port ports IH]; intros before; simpl.
  { intros _. split; [done|]. intros i j p q Hi Hj Hb Hij. rewrite app_nil_r in Hj.
    apply lookup_lt_Some in Hj. lia. }
  intros H. inv_ok.
  match goal with H : validatePorts _ _ = _ |- _ => apply IH in H as [Hv Ho] end.
  split; [by constructor|]. rewrite <-app_assoc in Ho. simpl in Ho.
  intros i j p q Hi Hj Hb Hij. destruct (decide (j = length before)) as [->|].
  - rewrite list_lookup_middle in Hj by done. injection Hj as <-.
    match goal with H : ∀ x, x ∈ before → _ |- _ => specialize (H p); rename H into Hp end.
    rewrite lookup_app_l in Hi by done. apply list_elem_of_lookup_2, Hp in Hi. by apply refuse_if_Ok in Hi.
  - apply (Ho i j); [done..| |done]. rewrite length_app; simpl. lia.
Qed.

(** The mounts accepted so far: [targets] and [volumes] are those of the
    mounts before. *)
Lemma validateMounts_loop_Ok targets volumes bytes mounts result :
  validateMounts_loop targets volumes bytes mounts = Ok result →
  Forall (λ m, Mount_validate m = Ok tt) mounts ∧
  NoDup ((λ m, Path.Clean (Target m)) <$> mounts) ∧
  (∀ m, m ∈ mounts → Path.Clean (Target m) ∉ targets) ∧
  (bytes + Z.of_nat (sum_list_with (λ m, Str.len (Content m)) mounts) ≤ bytes `max` MaxFileMountBytes)%Z ∧
  let sources := Source <$> filter (λ m, Mount_Type m = MountTypeVolume) mounts in
  NoDup sources ∧ (∀ s, s ∈ sources → s ∉ volumes) ∧ result = list_to_set sources ∪ volumes.
Proof.
  revert targets volumes bytes; induction mounts as [|m mounts IH]; intros targets volumes bytes; simpl.
  { intros [= <-]. split_and!; try constructor; try set_solver. lia. }
  intros H. inv_ok. simpl_bools. rewrite filter_cons.
  case_bool_decide as Hv; rewrite ?(decide_True _ _ Hv), ?(decide_False _ _ Hv); csimpl; inv_ok; simpl_bools;
    match goal with H : validateMounts_loop _ _ _ _ = _ |- _ => apply IH in H as (Hf & Hnd & Ht & Hb & Hs1 & Hs2 & ->) end;
    (split_and!; [by constructor| | | | | |]).
  all: try (constructor; [|done]).
  all: try (intros (m' & E & Hm')%list_elem_of_fmap; by apply (Ht m'); [|rewrite E; set_solver]).
  all: try (intros m' [->|Hm']%elem_of_cons; [done|]; specialize (Ht m' Hm'); set_solver).
  all: try lia.
  all: try (intros Hin; apply (Hs2 _ Hin); set_solver).
  all: try (intros s [->|Hs]%elem_of_cons; [done|]; specialize (Hs2 s Hs); set_solver).
  all: try set_solver.
  all: done.
Qed.

(** What validation checks. *)
Lemma Spec_Validate_Ok s :
  Validate s = Ok tt →
  Naming.valid_name (Name s) ∧ ImageRef s ≠ "" ∧
  (0 < VCPUs s ∧ 0 < MemoryBytes s ∧ 0 < DiskBytes s)%Z ∧
  Res.Fits (Spec_Resources s) (MaxResources s) = true ∧
  (MaxVCPUs s = 0 ∨ VCPUs s ≤ MaxVCPUs s)%Z ∧ (MaxMemoryBytes s = 0 ∨ MemoryBytes s ≤ MaxMemoryBytes s)%Z ∧
  ¬ (RemoveOnExit s = true ∧ Restarts (Restart s) = true) ∧
  (∀ i j p q, Ports s !! i = Some p → Ports s !! j = Some q → i < j → PortsOverlap q p = false) ∧
  NoDup ((λ m, Path.Clean (Target m)) <$> Mounts s) ∧
  (∀ m, m ∈ Mounts s → Path.Clean (Target m) ≠ "/") ∧
  NoDup (Source <$> filter (λ m, Mount_Type m = MountTypeVolume) (Mounts s)) ∧
  length (filter (λ m, Mount_Type m = MountTypeVolume) (Mounts s)) ≤ MaxVolumeMounts ∧
  (Z.of_nat (sum_list_with (λ m, Str.len (Content m)) (Mounts s)) ≤ MaxFileMountBytes)%Z.
Proof.
  unfold Validate. intros H. apply bind_Ok in H as (u1 & Hname & H). apply bind_Ok in H as (u2 & _ & H).
  apply bind_Ok in H as (u3 & Hset & H). apply bind_Ok in H as (u4 & Hports & Hmounts).
  destruct u1, u4. unfold validateSettings in Hset. inv_ok. simpl_bools.
  apply validatePorts_Ok in Hports as [_ Hports].
  unfold validateMounts in Hmounts. apply bind_Ok in Hmounts as (vols & Hloop & Hsize).
  apply refuse_if_Ok, Nat.ltb_ge in Hsize.
  apply validateMounts_loop_Ok in Hloop as (Hval & Hnd & _ & Hbytes & Hvnd & _ & ->).
  unfold MaxFileMountBytes in *. rewrite (right_id_L ∅ (∪)), size_list_to_set, length_fmap in Hsize by done.
  split_and!; try done; try lia.
  - by apply Naming.Validate_Ok.
  - unfold Res.Fits, Spec_Resources, MaxResources. simpl. apply andb_true_iff. rewrite !Z.leb_le. lia.
  - intros [Hrm Hre]. rewrite Hrm, Hre in *. naive_solver.
  - intros i j p q Hi Hj Hij. apply (Hports i j); [done..|simpl; lia|done].
  - intros m Hm. rewrite Forall_forall in Hval. specialize (Hval m Hm). unfold Mount_validate in Hval.
    inv_ok. by simpl_bools.
Qed.

(** A definition that passes validation can be run as defined: its name
    is valid; it asks for a positive amount of CPU, memory and disk; a maximum
    that is set is no less than what it asks for, so that what it holds never
    exceeds its maximum; it is not both deleted and restarted when it stops;
    no two of its ports overlap; and its mounts have distinct targets, none
    the root, distinct volumes, of which there are at most 22, and at most a
    mebibyte of file contents. *)
Theorem Spec_Validate_sound s :
  Validate s = Ok tt →
  Naming.valid_name (Name s) ∧ ImageRef s ≠ "" ∧
  (0 < VCPUs s ∧ 0 < MemoryBytes s ∧ 0 < DiskBytes s)%Z ∧
  Res.Fits (Spec_Resources s) (MaxResources s) = true ∧
  (MaxVCPUs s = 0 ∨ VCPUs s ≤ MaxVCPUs s)%Z ∧ (MaxMemoryBytes s = 0 ∨ MemoryBytes s ≤ MaxMemoryBytes s)%Z ∧
  ¬ (RemoveOnExit s = true ∧ Restarts (Restart s) = true) ∧
  (∀ i j p q, Ports s !! i = Some p → Ports s !! j = Some q → i < j → PortsOverlap q p = false) ∧
  NoDup ((λ m, Path.Clean (Target m)) <$> Mounts s) ∧
  (∀ m, m ∈ Mounts s → Path.Clean (Target m) ≠ "/") ∧
  NoDup (Source <$> filter (λ m, Mount_Type m = MountTypeVolume) (Mounts s)) ∧
  length (filter (λ m, Mount_Type m = MountTypeVolume) (Mounts s)) ≤ MaxVolumeMounts ∧
  (Z.of_nat (sum_list_with (λ m, Str.len (Content m)) (Mounts s)) ≤ MaxFileMountBytes)%Z.
Proof. apply Spec_Validate_Ok. Qed.

(** ** Properties of states *)

(** CPU and memory are taken only by a start: an allowed transition into
    a state that holds resources is either into Starting, where they are
    admitted, or from a state that already holds them; and one out of such a
    state, unless into another, releases them. Ports and volumes are taken
    the same way, and Standby is entered by no transition. *)
Theorem transitions_acquire_by_starting s t :
  CanTransitionTo s t = true →
  (HoldsResources t = true → t = StateStarting ∨ HoldsResources s = true) ∧
  (HoldsPortsAndVolumes t = true → HoldsPortsAndVolumes s = false →
     t = StateStarting ∨ (t = StateStopping ∧ (s = StateRestarting ∨ s = StateFailed))) ∧
  t ≠ StateStandby ∧ (IsActive t = true → s = StateStarting ∨ IsActive s = true).
Proof. destruct s, t; vm_compute; intuition congruence. Qed.

Lemma transitions_acquire_by_starting_witness :
  StateRunning ≠ StateStandby.
Proof. apply (transitions_acquire_by_starting StateStarting StateRunning). reflexivity. Defined.

(** ** Properties of restarts *)

Lemma backoff_loop_spec n delay :
  (0 < delay)%Z →
  (delay < restartBackoffMax)%Z →
  backoff_loop n delay = Z.min restartBackoffMax (delay * 2 ^ Z.of_nat n).
Proof.
  revert delay; induction n as [|n IH]; intros delay Hd Hm; cbn [backoff_loop].
  { simpl. lia. }
  cbv zeta. rewrite Nat2Z.inj_succ, Z.pow_succ_r by lia.
  assert (0 < 2 ^ Z.of_nat n)%Z by (apply Z.pow_pos_nonneg; lia).
  destruct (Z.leb_spec restartBackoffMax (delay * 2)).
  - rewrite Z.min_l; [done|]. nia.
  - rewrite IH by lia. f_equal. lia.
Qed.

Lemma backoff_spec r :
  backoff r = Z.min restartBackoffMax (restartBackoffBase * 2 ^ Z.max 0 r).
Proof.
  unfold backoff. rewrite backoff_loop_spec by (vm_compute; done). f_equal. f_equal. f_equal. lia.
Qed.

Definition wantsRestart (policy : RestartPolicy) (exit : Exit) : Prop :=
  RestartPolicy_Mode policy = RestartModeAlways ∨ RestartPolicy_Mode policy = RestartModeUnlessStopped ∨
  (RestartPolicy_Mode policy = RestartModeOnFailure ∧ Exit_Clean exit = false).

(** The ends of an instance that was restarted after each of them, the last one
    first, with how long it had run; and its restart count. *)
Inductive restarted (policy : RestartPolicy) : list (Exit * Z) → Z → Prop :=
  | never_ended : restarted policy [] 0
  | ended exit ranFor past r :
      restarted policy past r → restart (decideRestart policy exit r ranFor) = true →
      restarted policy ((exit, ranFor) :: past) (restarts (decideRestart policy exit r ranFor)).

(** How many ends there have been since it last ran for long, that one
    included. *)
Fixpoint in_a_row (past : list (Exit * Z)) : nat :=
  match past with
  | [] => 0
  | (_, ranFor) :: past => if (restartBackoffReset <=? ranFor)%Z then 1 else S (in_a_row past)
  end.

Lemma in_a_row_length past : in_a_row past ≤ length past.
Proof. induction past as [|[exit t] past IH]; simpl; [done|]. destruct (_ <=? _)%Z; lia. Qed.

Lemma decideRestart_wanted policy exit r t :
  wantsRestart policy exit →
  decideRestart policy exit r t =
  let r := if (restartBackoffReset <=? t)%Z then 0%Z else r in
  if (0 <? MaxRetries policy)%Z && (MaxRetries policy <=? r)%Z then mkRestartDecision false 0 r true
  else mkRestartDecision true (backoff r) (int64_wrap (r + 1)) false.
Proof. intros Hw. unfold decideRestart. destruct Hw as [->|[->|[-> Hc]]]; [done..|]. simpl. by rewrite Hc. Qed.

Lemma decideRestart_unwanted policy exit r t :
  ¬ wantsRestart policy exit →
  restart (decideRestart policy exit r t) = false ∧ gaveUp (decideRestart policy exit r t) = false.
Proof.
  unfold wantsRestart, decideRestart. intros Hw. repeat case_bool_decide; simpl; try naive_solver. destruct (Exit_Clean exit); naive_solver.
Qed.

Lemma wantsRestart_dec policy exit : wantsRestart policy exit ∨ ¬ wantsRestart policy exit.
Proof.
  unfold wantsRestart. destruct (decide (RestartPolicy_Mode policy = RestartModeAlways)), (decide (RestartPolicy_Mode policy = RestartModeUnlessStopped)),
    (decide (RestartPolicy_Mode policy = RestartModeOnFailure)), (Exit_Clean exit); naive_solver.
Qed.

(** The count is how often it has ended in a row. *)
Lemma restarted_count policy past r :
  restarted policy past r → (Z.of_nat (length past) < 2 ^ 62)%Z → r = Z.of_nat (in_a_row past).
Proof.
  induction 1 as [|exit t past r _ IH Hr]; intros Hlen; [done|]. cbn [length in_a_row] in *. specialize (IH ltac:(lia)). subst r.
  destruct (wantsRestart_dec policy exit) as [Hw|Hw]; [|by rewrite (proj1 (decideRestart_unwanted _ _ _ _ Hw)) in Hr].
  pose proof (in_a_row_length past). rewrite decideRestart_wanted in Hr |- * by done. cbv zeta in *.
  destruct (restartBackoffReset <=? t)%Z; destruct (_ && _); try done; cbn [restarts]; rewrite int64_wrap_id by (unfold is_int64; lia); lia.
Qed.



(** An end is clean only if the guest reported exit code 0, whatever the
    hypervisor did; and a policy that is not to restart an instance for how
    it ended never does: "no" never, "on-failure" not after a clean end. *)
Theorem clean_end_and_policy guestStatus vmm policy r t :
  let exit := classifyExit guestStatus vmm in
  (Exit_Clean exit = true ↔ Guest_ExitCode guestStatus = Some 0%Z) ∧
  Code exit = Guest_ExitCode guestStatus ∧
  (restart (decideRestart policy exit r t) = true → wantsRestart policy exit ∧ Restarts policy = true).
Proof.
  intros exit. split_and!.
  - subst exit. unfold classifyExit, Exit_Clean. destruct (Guest_ExitCode guestStatus) as [code|].
    + destruct (Z.eqb_spec code 0); rewrite bool_decide_eq_true; simpl; split; congruence.
    + destruct (_ <? _)%Z; [|destruct vmm]; rewrite bool_decide_eq_true; simpl; split; congruence.
  - subst exit. unfold classifyExit. destruct (Guest_ExitCode guestStatus) as [code|].
    + by destruct (code =? 0)%Z.
    + by destruct (_ <? _)%Z; [|destruct vmm].
  - unfold decideRestart, wantsRestart, Restarts. destruct policy as [mode retries]; simpl.
    destruct (bool_decide (mode = RestartModeAlways)) eqn:E1; [simpl_bools; subst; auto|].
    destruct (bool_decide (mode = RestartModeUnlessStopped)) eqn:E2; [simpl_bools; subst; auto|].
    destruct (bool_decide (mode = RestartModeOnFailure)) eqn:E3; [|done].
    simpl_bools. subst. simpl. destruct (Exit_Clean exit); [done|auto].
Qed.

(** A definition the witnesses use. *)
Definition example_spec : Spec := {|
  ID := "i1"; Name := "web"; Hostname := ""; ImageRef := "nginx"; ImageDigest := "sha256:0";
  HypervisorType := ""; HypervisorVersion := ""; KernelName := "vmlinux-6.1"; KernelArgs := "";
  VCPUs := 2; MemoryBytes := 1073741824; DiskBytes := 10737418240; NetworkName := "default"; StaticIP := "";
  MaxVCPUs := 4; MaxMemoryBytes := 0; DiskBytesPerSecond := 0; DiskIOPS := 0;
  UploadBytesPerSecond := 0; DownloadBytesPerSecond := 0; StandbyAfter := 0;
  Ports := [mkPortMapping "" 8080 80 ""; mkPortMapping "" 8443 443 "tcp"];
  Mounts := [mkMount MountTypeVolume "data" "/data" false "" 0; mkMount MountTypeTmpfs "" "/tmp" false "" 0];
  Env := ∅; Cmd := []; InitMode := ""; User := ""; Labels := ∅; Restart := mkRestartPolicy "always" 0;
  HealthCheck := None; CreatedAt := 1; UpdatedAt := 1; RemoveOnExit := false; StoppedByUser := false;
|}.

Lemma Spec_Validate_sound_witness :
  Validate example_spec = Ok tt ∧ Res.Fits (Spec_Resources example_spec) (MaxResources example_spec) = true.
Proof.
  split; [vm_compute; reflexivity|]. apply (Spec_Validate_sound example_spec). vm_compute. reflexivity.
Defined.

End Instance.
