(* ===== verification/Definitions.v ===== *)
(** * Volumes, kernels and snapshots

    The definitions of [internal/volume], [internal/kernel] and the snapshots
    of [internal/instance], and what makes them valid. *)

From S2P Require Import Prelude Errdefs Naming Health Token Network Instance.

Module Volume.

Record Volume := mkVolume {
  ID : string; Name : string; Path : string; SizeBytes : Z; CreatedAt : Z; UpdatedAt : Z;
}.

#[global] Instance Volume_eq_dec : EqDecision Volume.
Proof. solve_decision. Defined.

(** [Volume.Validate] *)
Definition Volume_Validate (v : Volume) : result unit :=
  Naming.Validate (Name v) ;;
  refuse_if (SizeBytes v <=? 0)%Z (InvalidArgument "size_bytes must be greater than 0").

End Volume.

Module Kernel.

Record Kernel := mkKernel {
  ID : string; Name : string; Architecture : string; SHA256 : string; CreatedAt : Z; UpdatedAt : Z;
}.

#[global] Instance Kernel_eq_dec : EqDecision Kernel.
Proof. solve_decision. Defined.

Definition ArchitectureX86_64 : string := "x86_64".

Definition ArchitectureAArch64 : string := "aarch64".

(** [Kernel.Validate] *)
Definition Kernel_Validate (k : Kernel) : result unit :=
  Naming.Validate (Name k) ;;
  refuse_if (bool_decide (Architecture k = "")) (InvalidArgument "a kernel needs an architecture: %s or %s") ;;
  refuse_if (negb (bool_decide (Architecture k = ArchitectureX86_64)) &&
             negb (bool_decide (Architecture k = ArchitectureAArch64)))
    (InvalidArgument "unknown architecture %q: want %s or %s") ;;
  refuse_if (negb (bool_decide (SHA256 k = "")) && negb (Token.isSHA256Hex (SHA256 k)))
    (InvalidArgument "sha256 %q is not a hex-encoded SHA-256 digest").

End Kernel.

Module Snapshot.

Abbreviation SnapshotKind := string (only parsing).

Definition SnapshotKindMemory : SnapshotKind := "memory".

Definition SnapshotKindDisk : SnapshotKind := "disk".

Record Snapshot := mkSnapshot {
  ID : string; Name : string; Kind : SnapshotKind; Instance : Instance.Spec; IP : string; MAC : string;
  HypervisorType : string; HypervisorVersion : string; VCPUs : Z; MemoryBytes : Z; ImageDigest : string;
  CreatedAt : Z;
}.

#[global] Instance Snapshot_eq_dec : EqDecision Snapshot.
Proof. solve_decision. Defined.

End Snapshot.
