(* ===== verification/Codec.v ===== *)
(** * Definitions as YAML

    What a definition is in its file: the struct tags of [internal/instance],
    [internal/network], [internal/volume], [internal/kernel], [internal/token] and
    [internal/health], as [yaml.v3] reads them. A file is modelled by the
    document it holds, a tree; how trees are written as text is the library's. *)

From S2P Require Import Prelude Errdefs Naming Health Token Network Instance Definitions.

Module Yaml.

(** ** Documents *)

#[local] Unset Elimination Schemes.

Inductive node :=
  | Null
  | Text (s : string)
  | Int (z : Z)
  | Flag (b : bool)
  | Time (t : Z)
  | Duration (d : Z)
  | Bytes (s : string)
  | Seq (l : list node)
  | Map (m : list (string * node)).

(** How a Go type is written and read: its zero value, which a missing or a
    null value is read as, and which [omitempty] leaves out. *)
Record codec (A : Type) := mkCodec {
  to_node : A → node;
  of_node : node → option A;
  zero : A;
  is_zero : A → bool;
  of_to_node : ∀ x, of_node (to_node x) = Some x;
  is_zero_zero : ∀ x, is_zero x = true → x = zero;
}.

Arguments to_node {A} _ _.
Arguments of_node {A} _ _.
Arguments zero {A} _.
Arguments is_zero {A} _ _.
Arguments of_to_node {A} _ _.
Arguments is_zero_zero {A} _ _ _.

(** ** Values *)

Definition text : codec string.
Proof.
  refine (mkCodec _ Text (λ n, match n with Text s => Some s | Null => Some "" | _ => None end) "" (λ s, bool_decide (s = "")) _ _).
  - done.
  - intros s. apply bool_decide_eq_true.
Defined.

Definition int : codec Z.
Proof.
  refine (mkCodec _ Int (λ n, match n with Int z => Some z | Null => Some 0%Z | _ => None end) 0%Z (λ z, (z =? 0)%Z) _ _).
  - done.
  - intros z. apply Z.eqb_eq.
Defined.

Definition flag : codec bool.
Proof.
  refine (mkCodec _ Flag (λ n, match n with Flag b => Some b | Null => Some false | _ => None end) false negb _ _).
  - done.
  - by intros [].
Defined.

(** [time.Time], whose zero value is as [IsZero] says. *)
Definition time : codec Z.
Proof.
  refine (mkCodec _ Time (λ n, match n with Time t => Some t | Null => Some 0%Z | _ => None end) 0%Z (λ t, (t =? 0)%Z) _ _).
  - done.
  - intros z. apply Z.eqb_eq.
Defined.

Definition duration : codec Z.
Proof.
  refine (mkCodec _ Duration (λ n, match n with Duration d => Some d | Null => Some 0%Z | _ => None end) 0%Z (λ d, (d =? 0)%Z) _ _).
  - done.
  - intros z. apply Z.eqb_eq.
Defined.

Definition bytes : codec string.
Proof.
  refine (mkCodec _ Bytes (λ n, match n with Bytes s => Some s | Null => Some "" | _ => None end) "" (λ s, bool_decide (s = "")) _ _).
  - done.
  - intros s. apply bool_decide_eq_true.
Defined.

Definition seq {A} (c : codec A) : codec (list A).
Proof.
  refine (mkCodec _ (λ l, Seq (to_node c <$> l)) (λ n, match n with Seq l => mapM (of_node c) l | Null => Some [] | _ => None end) []
    (λ l, match l with [] => true | _ => false end) _ _).
  - intros l. apply mapM_Some_2. induction l as [|x l IH]; [constructor|]. csimpl. constructor; [apply of_to_node|done].
  - by intros [].
Defined.

(** A pointer, which is null or what it points to. *)
Definition pointer {A} (c : codec A) (not_null : ∀ x, to_node c x ≠ Null) : codec (option A).
Proof.
  refine (mkCodec _ (λ o, if o is Some x then to_node c x else Null)
    (λ n, match n with Null => Some None | n => Some <$> of_node c n end) None (λ o, match o with None => true | _ => false end) _ _).
  - intros [x|]; [|done]. pose proof (not_null x) as Hn. pose proof (of_to_node c x) as Hx. by destruct (to_node c x); rewrite ?Hx.
  - by intros [].
Defined.

(** A [map[string]string]; a key that is there twice is an error. *)
Definition strings_of (m : list (string * node)) : option (gmap string string) :=
  if decide (NoDup m.*1) then list_to_map <$> mapM (λ '(k, n), pair k <$> of_node text n) m else None.

Definition strings : codec (gmap string string).
Proof.
  refine (mkCodec _ (λ m, Map ((λ '(k, s), (k, Text s)) <$> map_to_list m))
    (λ n, match n with Map m => strings_of m | Null => Some ∅ | _ => None end) ∅ (λ m, bool_decide (m = ∅)) _ _).
  - intros m. unfold strings_of.
    assert (((λ '(k, s), (k, Text s)) <$> map_to_list m).*1 = (map_to_list m).*1) as E.
    { rewrite <-list_fmap_compose. apply list_fmap_ext. by intros i [k s] _. }
    rewrite decide_True by (rewrite E; apply NoDup_fst_map_to_list).
    assert (mapM (λ '(k, n), pair k <$> of_node text n) ((λ '(k, s), (k, Text s)) <$> map_to_list m) = Some (map_to_list m)) as ->.
    { apply mapM_Some_2. clear E. induction (map_to_list m) as [|[k s] l IH]; [constructor|]. constructor; [done|exact IH]. }
    simpl. f_equal. apply list_to_map_to_list.
  - intros m. apply bool_decide_eq_true.
Defined.

(** ** Structs *)

(** A field, as it is written: with its tag, or left out. *)
Definition always {A} (c : codec A) (x : A) : option node := Some (to_node c x).

Definition omitempty {A} (c : codec A) (x : A) : option node := if is_zero c x then None else Some (to_node c x).

Definition present (fields : list (string * option node)) : list (string * node) :=
  omap (λ '(tag, o), pair tag <$> o) fields.

Fixpoint assoc {B} (tag : string) (m : list (string * B)) : option B :=
  match m with
  | [] => None
  | (t, n) :: m => if String.eqb tag t then Some n else assoc tag m
  end.

(** A field, as it is read. *)
Definition get {A} (c : codec A) (tag : string) (m : list (string * node)) : option A :=
  match assoc tag m with Some n => of_node c n | None => Some (zero c) end.

Definition of_struct {A} (zero : A) (fields : list (string * node) → option A) (n : node) : option A :=
  match n with
  | Map m => if decide (NoDup m.*1) then fields m else None
  | Null => Some zero
  | _ => None
  end.

Lemma assoc_None {B} tag (m : list (string * B)) : tag ∉ m.*1 → assoc tag m = None.
Proof.
  induction m as [|[t n] m IH]; [done|]. csimpl. rewrite not_elem_of_cons. intros [Hne Hm].
  rewrite (proj2 (String.eqb_neq tag t)) by done. auto.
Qed.

Lemma elem_of_present tag fields : tag ∈ (present fields).*1 → tag ∈ fields.*1.
Proof.
  intros ([t n] & -> & Hin)%list_elem_of_fmap. apply list_elem_of_omap in Hin as ([t' o] & Hin & E). simpl in E.
  destruct o as [n'|]; [|done]. injection E as <- <-. apply list_elem_of_fmap. by exists (t', Some n').
Qed.

Lemma present_NoDup fields : NoDup fields.*1 → NoDup (present fields).*1.
Proof.
  induction fields as [|[t o] fields IH]; [done|]. csimpl. intros [Ht Hf]%NoDup_cons. destruct o as [n|]; csimpl; [|by apply IH].
  apply NoDup_cons. split; [|by apply IH]. intros Hin. by apply Ht, elem_of_present.
Qed.

Lemma assoc_present tag fields : NoDup fields.*1 → assoc tag (present fields) = default None (assoc tag fields).
Proof.
  induction fields as [|[t o] fields IH]; [done|]. csimpl. intros [Ht Hf]%NoDup_cons. destruct (String.eqb_spec tag t) as [->|Hne].
  - destruct o as [n|]; csimpl; [by rewrite String.eqb_refl|]. apply assoc_None. intros Hin. by apply Ht, elem_of_present.
  - destruct o as [n|]; csimpl; [|by apply IH]. rewrite (proj2 (String.eqb_neq tag t)) by done. by apply IH.
Qed.

(** A field that is written is read back. *)
Lemma get_always {A} (c : codec A) tag fields x :
  NoDup fields.*1 → assoc tag fields = Some (always c x) → get c tag (present fields) = Some x.
Proof. intros Hn E. unfold get. rewrite assoc_present, E by done. simpl. apply of_to_node. Qed.

Lemma get_omitempty {A} (c : codec A) tag fields x :
  NoDup fields.*1 → assoc tag fields = Some (omitempty c x) → get c tag (present fields) = Some x.
Proof.
  intros Hn E. unfold get. rewrite assoc_present, E by done. unfold omitempty. destruct (is_zero c x) eqn:Ez; simpl.
  - by rewrite (is_zero_zero c x Ez).
  - apply of_to_node.
Qed.

(** A struct: its fields, as they are written and read. *)
Definition struct {A} `{EqDecision A} (fields : A → list (string * option node)) (read : list (string * node) → option A) (zero : A)
  (tags : ∀ x, NoDup (fields x).*1) (law : ∀ x, read (present (fields x)) = Some x) : codec A.
Proof.
  refine (mkCodec _ (λ x, Map (present (fields x))) (of_struct zero read) zero (λ x, bool_decide (x = zero)) _ _).
  - intros x. simpl. rewrite decide_True by apply present_NoDup, tags. apply law.
  - intros x. apply bool_decide_eq_true.
Defined.

#[local] Ltac tags := intros x; apply (bool_decide_unpack (NoDup _)); vm_compute; exact I.

#[local] Ltac fields lemma read :=
  intros x; pose proof (lemma x) as Hn; unfold read;
  repeat lazymatch goal with
  | |- context [get ?c ?tag (present ?fields)] =>
      first [ rewrite (get_always c tag fields _ Hn eq_refl) | rewrite (get_omitempty c tag fields _ Hn eq_refl) ]; cbn [mbind option_bind]
  end; by destruct x.

(** *** Networks *)

Definition Network_fields (n : Network.Network) : list (string * option node) :=
  [ ("id", always text (Network.ID n)); ("name", always text (Network.Name n)); ("gateway", always text (Network.Gateway n));
    ("subnet", always text (Network.Subnet n)); ("bridge", always text (Network.Bridge n));
    ("nameservers", omitempty (seq text) (Network.Nameservers n)); ("mtu", omitempty int (Network.MTU n));
    ("isolated", omitempty flag (Network.Isolated n)); ("internal", omitempty flag (Network.Internal n));
    ("created_at", always time (Network.CreatedAt n)); ("updated_at", always time (Network.UpdatedAt n)) ].

Definition Network_read (m : list (string * node)) : option Network.Network :=
  ID ← get text "id" m; Name ← get text "name" m; Gateway ← get text "gateway" m; Subnet ← get text "subnet" m;
  Bridge ← get text "bridge" m; Nameservers ← get (seq text) "nameservers" m; MTU ← get int "mtu" m;
  Isolated ← get flag "isolated" m; Internal ← get flag "internal" m;
  CreatedAt ← get time "created_at" m; UpdatedAt ← get time "updated_at" m;
  Some (Network.mkNetwork ID Name Gateway Subnet Bridge Nameservers MTU Isolated Internal CreatedAt UpdatedAt).

Lemma Network_tags n : NoDup (Network_fields n).*1.
Proof. revert n. tags. Qed.

Lemma Network_read_fields n : Network_read (present (Network_fields n)) = Some n.
Proof. revert n. fields Network_tags Network_read. Qed.

Definition Network_yaml : codec Network.Network :=
  struct Network_fields Network_read (Network.mkNetwork "" "" "" "" "" [] 0 false false 0 0) Network_tags Network_read_fields.

Definition PortMapping_fields (p : Network.PortMapping) : list (string * option node) :=
  [ ("host_ip", omitempty text (Network.HostIP p)); ("host_port", always int (Network.HostPort p));
    ("guest_port", always int (Network.GuestPort p)); ("protocol", omitempty text (Network.Protocol p)) ].

Definition PortMapping_read (m : list (string * node)) : option Network.PortMapping :=
  HostIP ← get text "host_ip" m; HostPort ← get int "host_port" m; GuestPort ← get int "guest_port" m;
  Protocol ← get text "protocol" m;
  Some (Network.mkPortMapping HostIP HostPort GuestPort Protocol).

Lemma PortMapping_tags p : NoDup (PortMapping_fields p).*1.
Proof. revert p. tags. Qed.

Lemma PortMapping_read_fields p : PortMapping_read (present (PortMapping_fields p)) = Some p.
Proof. revert p. fields PortMapping_tags PortMapping_read. Qed.

Definition PortMapping_yaml : codec Network.PortMapping :=
  struct PortMapping_fields PortMapping_read (Network.mkPortMapping "" 0 0 "") PortMapping_tags PortMapping_read_fields.

(** *** Volumes and kernels *)

Definition Volume_fields (v : Volume.Volume) : list (string * option node) :=
  [ ("id", always text (Volume.ID v)); ("name", always text (Volume.Name v)); ("path", always text (Volume.Path v));
    ("size_bytes", always int (Volume.SizeBytes v)); ("created_at", always time (Volume.CreatedAt v));
    ("updated_at", always time (Volume.UpdatedAt v)) ].

Definition Volume_read (m : list (string * node)) : option Volume.Volume :=
  ID ← get text "id" m; Name ← get text "name" m; Path ← get text "path" m; SizeBytes ← get int "size_bytes" m;
  CreatedAt ← get time "created_at" m; UpdatedAt ← get time "updated_at" m;
  Some (Volume.mkVolume ID Name Path SizeBytes CreatedAt UpdatedAt).

Lemma Volume_tags v : NoDup (Volume_fields v).*1.
Proof. revert v. tags. Qed.

Lemma Volume_read_fields v : Volume_read (present (Volume_fields v)) = Some v.
Proof. revert v. fields Volume_tags Volume_read. Qed.

Definition Volume_yaml : codec Volume.Volume :=
  struct Volume_fields Volume_read (Volume.mkVolume "" "" "" 0 0 0) Volume_tags Volume_read_fields.

Definition Kernel_fields (k : Kernel.Kernel) : list (string * option node) :=
  [ ("id", always text (Kernel.ID k)); ("name", always text (Kernel.Name k)); ("arch", always text (Kernel.Architecture k));
    ("sha256", always text (Kernel.SHA256 k)); ("created_at", always time (Kernel.CreatedAt k));
    ("updated_at", always time (Kernel.UpdatedAt k)) ].

Definition Kernel_read (m : list (string * node)) : option Kernel.Kernel :=
  ID ← get text "id" m; Name ← get text "name" m; Architecture ← get text "arch" m; SHA256 ← get text "sha256" m;
  CreatedAt ← get time "created_at" m; UpdatedAt ← get time "updated_at" m;
  Some (Kernel.mkKernel ID Name Architecture SHA256 CreatedAt UpdatedAt).

Lemma Kernel_tags k : NoDup (Kernel_fields k).*1.
Proof. revert k. tags. Qed.

Lemma Kernel_read_fields k : Kernel_read (present (Kernel_fields k)) = Some k.
Proof. revert k. fields Kernel_tags Kernel_read. Qed.

Definition Kernel_yaml : codec Kernel.Kernel :=
  struct Kernel_fields Kernel_read (Kernel.mkKernel "" "" "" "" 0 0) Kernel_tags Kernel_read_fields.

(** *** Tokens *)

Definition Token_fields (t : Token.Token) : list (string * option node) :=
  [ ("id", always text (Token.ID t)); ("name", always text (Token.Name t)); ("secret_sha256", always text (Token.SecretSHA256 t));
    ("scopes", always (seq text) (Token.Scopes t)); ("created_at", always time (Token.CreatedAt t));
    ("updated_at", always time (Token.UpdatedAt t)); ("last_used_at", omitempty time (Token.LastUsedAt t)) ].

Definition Token_read (m : list (string * node)) : option Token.Token :=
  ID ← get text "id" m; Name ← get text "name" m; SecretSHA256 ← get text "secret_sha256" m; Scopes ← get (seq text) "scopes" m;
  CreatedAt ← get time "created_at" m; UpdatedAt ← get time "updated_at" m; LastUsedAt ← get time "last_used_at" m;
  Some (Token.mkToken ID Name SecretSHA256 Scopes CreatedAt UpdatedAt LastUsedAt).

Lemma Token_tags t : NoDup (Token_fields t).*1.
Proof. revert t. tags. Qed.

Lemma Token_read_fields t : Token_read (present (Token_fields t)) = Some t.
Proof. revert t. fields Token_tags Token_read. Qed.

Definition Token_yaml : codec Token.Token :=
  struct Token_fields Token_read (Token.mkToken "" "" "" [] 0 0 0) Token_tags Token_read_fields.

(** *** Health checks *)

#[local] Instance HTTPProbe_eq_dec : EqDecision Health.HTTPProbe.
Proof. solve_decision. Defined.

#[local] Instance TCPProbe_eq_dec : EqDecision Health.TCPProbe.
Proof. solve_decision. Defined.

Definition HTTPProbe_fields (p : Health.HTTPProbe) : list (string * option node) :=
  [ ("port", always int (Health.HTTPProbe_Port p)); ("path", omitempty text (Health.HTTPProbe_Path p)) ].

Definition HTTPProbe_read (m : list (string * node)) : option Health.HTTPProbe :=
  Port ← get int "port" m; Path ← get text "path" m; Some (Health.mkHTTPProbe Port Path).

Lemma HTTPProbe_tags p : NoDup (HTTPProbe_fields p).*1.
Proof. revert p. tags. Qed.

Lemma HTTPProbe_read_fields p : HTTPProbe_read (present (HTTPProbe_fields p)) = Some p.
Proof. revert p. fields HTTPProbe_tags HTTPProbe_read. Qed.

Definition HTTPProbe_yaml : codec Health.HTTPProbe :=
  struct HTTPProbe_fields HTTPProbe_read (Health.mkHTTPProbe 0 "") HTTPProbe_tags HTTPProbe_read_fields.

Definition TCPProbe_fields (p : Health.TCPProbe) : list (string * option node) :=
  [ ("port", always int (Health.TCPProbe_Port p)) ].

Definition TCPProbe_read (m : list (string * node)) : option Health.TCPProbe :=
  Port ← get int "port" m; Some (Health.mkTCPProbe Port).

Lemma TCPProbe_tags p : NoDup (TCPProbe_fields p).*1.
Proof. revert p. tags. Qed.

Lemma TCPProbe_read_fields p : TCPProbe_read (present (TCPProbe_fields p)) = Some p.
Proof. revert p. fields TCPProbe_tags TCPProbe_read. Qed.

Definition TCPProbe_yaml : codec Health.TCPProbe :=
  struct TCPProbe_fields TCPProbe_read (Health.mkTCPProbe 0) TCPProbe_tags TCPProbe_read_fields.

Definition HTTPProbe_pointer : codec (option Health.HTTPProbe) := pointer HTTPProbe_yaml ltac:(done).

Definition TCPProbe_pointer : codec (option Health.TCPProbe) := pointer TCPProbe_yaml ltac:(done).

Definition Check_fields (c : Health.Check) : list (string * option node) :=
  [ ("exec", omitempty (seq text) (Health.Exec c)); ("http", omitempty HTTPProbe_pointer (Health.HTTP c));
    ("tcp", omitempty TCPProbe_pointer (Health.TCP c)); ("interval", omitempty duration (Health.Interval c));
    ("timeout", omitempty duration (Health.Timeout c)); ("start_period", omitempty duration (Health.StartPeriod c));
    ("retries", omitempty int (Health.Retries c)); ("disabled", omitempty flag (Health.Disabled c)) ].

Definition Check_read (m : list (string * node)) : option Health.Check :=
  Exec ← get (seq text) "exec" m; HTTP ← get HTTPProbe_pointer "http" m; TCP ← get TCPProbe_pointer "tcp" m;
  Interval ← get duration "interval" m; Timeout ← get duration "timeout" m; StartPeriod ← get duration "start_period" m;
  Retries ← get int "retries" m; Disabled ← get flag "disabled" m;
  Some (Health.mkCheck Exec HTTP TCP Interval Timeout StartPeriod Retries Disabled).

Lemma Check_tags c : NoDup (Check_fields c).*1.
Proof. revert c. tags. Qed.

Lemma Check_read_fields c : Check_read (present (Check_fields c)) = Some c.
Proof. revert c. fields Check_tags Check_read. Qed.

Definition Check_yaml : codec Health.Check :=
  struct Check_fields Check_read (Health.mkCheck [] None None 0 0 0 0 false) Check_tags Check_read_fields.

Definition Check_pointer : codec (option Health.Check) := pointer Check_yaml ltac:(done).

(** *** Instances *)

Definition Mount_fields (t : Instance.Mount) : list (string * option node) :=
  [ ("type", always text (Instance.Mount_Type t)); ("source", omitempty text (Instance.Source t));
    ("target", always text (Instance.Target t)); ("read_only", omitempty flag (Instance.ReadOnly t));
    ("content", omitempty bytes (Instance.Content t)); ("mode", omitempty int (Instance.Mode t)) ].

Definition Mount_read (m : list (string * node)) : option Instance.Mount :=
  Type_ ← get text "type" m; Source ← get text "source" m; Target ← get text "target" m; ReadOnly ← get flag "read_only" m;
  Content ← get bytes "content" m; Mode ← get int "mode" m;
  Some (Instance.mkMount Type_ Source Target ReadOnly Content Mode).

Lemma Mount_tags t : NoDup (Mount_fields t).*1.
Proof. revert t. tags. Qed.

Lemma Mount_read_fields t : Mount_read (present (Mount_fields t)) = Some t.
Proof. revert t. fields Mount_tags Mount_read. Qed.

Definition Mount_yaml : codec Instance.Mount :=
  struct Mount_fields Mount_read (Instance.mkMount "" "" "" false "" 0) Mount_tags Mount_read_fields.

Definition RestartPolicy_fields (p : Instance.RestartPolicy) : list (string * option node) :=
  [ ("mode", omitempty text (Instance.RestartPolicy_Mode p)); ("max_retries", omitempty int (Instance.MaxRetries p)) ].

Definition RestartPolicy_read (m : list (string * node)) : option Instance.RestartPolicy :=
  Mode ← get text "mode" m; MaxRetries ← get int "max_retries" m; Some (Instance.mkRestartPolicy Mode MaxRetries).

Lemma RestartPolicy_tags p : NoDup (RestartPolicy_fields p).*1.
Proof. revert p. tags. Qed.

Lemma RestartPolicy_read_fields p : RestartPolicy_read (present (RestartPolicy_fields p)) = Some p.
Proof. revert p. fields RestartPolicy_tags RestartPolicy_read. Qed.

Definition RestartPolicy_yaml : codec Instance.RestartPolicy :=
  struct RestartPolicy_fields RestartPolicy_read (Instance.mkRestartPolicy "" 0) RestartPolicy_tags RestartPolicy_read_fields.

Definition Spec_fields (i : Instance.Spec) : list (string * option node) :=
  [ ("id", always text (Instance.ID i)); ("name", always text (Instance.Name i)); ("hostname", omitempty text (Instance.Hostname i));
    ("image_ref", always text (Instance.ImageRef i)); ("image_digest", always text (Instance.ImageDigest i));
    ("hypervisor_type", omitempty text (Instance.HypervisorType i));
    ("hypervisor_version", omitempty text (Instance.HypervisorVersion i));
    ("kernel_name", always text (Instance.KernelName i)); ("kernel_args", omitempty text (Instance.KernelArgs i));
    ("vcpus", always int (Instance.VCPUs i)); ("memory_bytes", always int (Instance.MemoryBytes i));
    ("disk_bytes", always int (Instance.DiskBytes i)); ("network_name", always text (Instance.NetworkName i));
    ("static_ip", omitempty text (Instance.StaticIP i)); ("max_vcpus", omitempty int (Instance.MaxVCPUs i));
    ("max_memory_bytes", omitempty int (Instance.MaxMemoryBytes i));
    ("disk_bytes_per_second", omitempty int (Instance.DiskBytesPerSecond i)); ("disk_iops", omitempty int (Instance.DiskIOPS i));
    ("upload_bytes_per_second", omitempty int (Instance.UploadBytesPerSecond i));
    ("download_bytes_per_second", omitempty int (Instance.DownloadBytesPerSecond i));
    ("standby_after", omitempty duration (Instance.StandbyAfter i)); ("ports", omitempty (seq PortMapping_yaml) (Instance.Ports i));
    ("mounts", omitempty (seq Mount_yaml) (Instance.Mounts i)); ("env", omitempty strings (Instance.Env i));
    ("cmd", omitempty (seq text) (Instance.Cmd i)); ("init_mode", omitempty text (Instance.InitMode i));
    ("user", omitempty text (Instance.User i)); ("labels", omitempty strings (Instance.Labels i));
    ("restart", omitempty RestartPolicy_yaml (Instance.Restart i)); ("healthcheck", omitempty Check_pointer (Instance.HealthCheck i));
    ("created_at", always time (Instance.CreatedAt i)); ("updated_at", always time (Instance.UpdatedAt i));
    ("remove_on_exit", omitempty flag (Instance.RemoveOnExit i)); ("stopped_by_user", omitempty flag (Instance.StoppedByUser i)) ].

Definition Spec_read (m : list (string * node)) : option Instance.Spec :=
  ID ← get text "id" m; Name ← get text "name" m; Hostname ← get text "hostname" m; ImageRef ← get text "image_ref" m;
  ImageDigest ← get text "image_digest" m; HypervisorType ← get text "hypervisor_type" m;
  HypervisorVersion ← get text "hypervisor_version" m; KernelName ← get text "kernel_name" m; KernelArgs ← get text "kernel_args" m;
  VCPUs ← get int "vcpus" m; MemoryBytes ← get int "memory_bytes" m; DiskBytes ← get int "disk_bytes" m;
  NetworkName ← get text "network_name" m; StaticIP ← get text "static_ip" m; MaxVCPUs ← get int "max_vcpus" m;
  MaxMemoryBytes ← get int "max_memory_bytes" m; DiskBytesPerSecond ← get int "disk_bytes_per_second" m;
  DiskIOPS ← get int "disk_iops" m; UploadBytesPerSecond ← get int "upload_bytes_per_second" m;
  DownloadBytesPerSecond ← get int "download_bytes_per_second" m; StandbyAfter ← get duration "standby_after" m;
  Ports ← get (seq PortMapping_yaml) "ports" m; Mounts ← get (seq Mount_yaml) "mounts" m; Env ← get strings "env" m;
  Cmd ← get (seq text) "cmd" m; InitMode ← get text "init_mode" m; User ← get text "user" m; Labels ← get strings "labels" m;
  Restart ← get RestartPolicy_yaml "restart" m; HealthCheck ← get Check_pointer "healthcheck" m;
  CreatedAt ← get time "created_at" m; UpdatedAt ← get time "updated_at" m; RemoveOnExit ← get flag "remove_on_exit" m;
  StoppedByUser ← get flag "stopped_by_user" m;
  Some (Instance.mkSpec ID Name Hostname ImageRef ImageDigest HypervisorType HypervisorVersion KernelName KernelArgs VCPUs
    MemoryBytes DiskBytes NetworkName StaticIP MaxVCPUs MaxMemoryBytes DiskBytesPerSecond DiskIOPS UploadBytesPerSecond
    DownloadBytesPerSecond StandbyAfter Ports Mounts Env Cmd InitMode User Labels Restart HealthCheck CreatedAt UpdatedAt
    RemoveOnExit StoppedByUser).

Lemma Spec_tags i : NoDup (Spec_fields i).*1.
Proof. revert i. tags. Qed.

Lemma Spec_read_fields i : Spec_read (present (Spec_fields i)) = Some i.
Proof. revert i. fields Spec_tags Spec_read. Qed.

Definition Spec_zero : Instance.Spec :=
  Instance.mkSpec "" "" "" "" "" "" "" "" "" 0 0 0 "" "" 0 0 0 0 0 0 0 [] [] ∅ [] "" "" ∅
    (Instance.mkRestartPolicy "" 0) None 0 0 false false.

Definition Spec_yaml : codec Instance.Spec := struct Spec_fields Spec_read Spec_zero Spec_tags Spec_read_fields.

(** *** Snapshots *)

Definition Snapshot_fields (s : Snapshot.Snapshot) : list (string * option node) :=
  [ ("id", always text (Snapshot.ID s)); ("name", always text (Snapshot.Name s)); ("kind", always text (Snapshot.Kind s));
    ("instance", always Spec_yaml (Snapshot.Instance s)); ("ip", omitempty text (Snapshot.IP s)); ("mac", omitempty text (Snapshot.MAC s));
    ("hypervisor_type", omitempty text (Snapshot.HypervisorType s));
    ("hypervisor_version", omitempty text (Snapshot.HypervisorVersion s)); ("vcpus", omitempty int (Snapshot.VCPUs s));
    ("memory_bytes", omitempty int (Snapshot.MemoryBytes s)); ("image_digest", omitempty text (Snapshot.ImageDigest s));
    ("created_at", always time (Snapshot.CreatedAt s)) ].

Definition Snapshot_read (m : list (string * node)) : option Snapshot.Snapshot :=
  ID ← get text "id" m; Name ← get text "name" m; Kind ← get text "kind" m; Instance ← get Spec_yaml "instance" m;
  IP ← get text "ip" m; MAC ← get text "mac" m; HypervisorType ← get text "hypervisor_type" m;
  HypervisorVersion ← get text "hypervisor_version" m; VCPUs ← get int "vcpus" m; MemoryBytes ← get int "memory_bytes" m;
  ImageDigest ← get text "image_digest" m; CreatedAt ← get time "created_at" m;
  Some (Snapshot.mkSnapshot ID Name Kind Instance IP MAC HypervisorType HypervisorVersion VCPUs MemoryBytes ImageDigest CreatedAt).

Lemma Snapshot_tags s : NoDup (Snapshot_fields s).*1.
Proof. revert s. tags. Qed.

Lemma Snapshot_read_fields s : Snapshot_read (present (Snapshot_fields s)) = Some s.
Proof. revert s. fields Snapshot_tags Snapshot_read. Qed.

Definition Snapshot_yaml : codec Snapshot.Snapshot :=
  struct Snapshot_fields Snapshot_read (Snapshot.mkSnapshot "" "" "" Spec_zero "" "" "" "" 0 0 "" 0) Snapshot_tags Snapshot_read_fields.

End Yaml.
