(* ===== verification/FileStore.v ===== *)
(** * The definitions store

    [internal/filestore]: the definitions of instances, snapshots, networks,
    volumes, kernels and tokens, each kind kept in memory by name and by ID,
    and on disk in a file of its own. Writes hold the store's write lock
    throughout, so each is one step; the outcome of each file operation it
    makes is an argument. *)

From S2P Require Import Prelude Errdefs Naming Health Token Network Instance Definitions Codec.

(** ** One kind of definition *)

(** What the store reads of a definition, and how it is written in its file. Its
    zero value is what a Go map returns for a missing key. *)
Class Named (A : Type) := { name_of : A → string; id_of : A → string; yaml_of : Yaml.codec A }.

Definition zero_of {A} `{Named A} : A := Yaml.zero yaml_of.

Module Kind.
Section Kind.

Context {A : Type} `{Named A}.

(** A kind of definition in memory, by name and each name by ID, and what its
    directory holds for each name: a document, or one that cannot be read. *)
Record Kind := mkKind {
  byName : gmap string A;
  namesByID : gmap string string;
  files : gmap string (option Yaml.node);
}.

Definition empty_kind (files : gmap string (option Yaml.node)) : Kind := mkKind ∅ ∅ files.

(** [putInstance] and its like. *)
Definition put (k : Kind) (v : A) : Kind :=
  mkKind (<[name_of v := v]> (byName k))
    (if bool_decide (id_of v = "") then namesByID k else <[id_of v := name_of v]> (namesByID k))
    (files k).

(** A lookup by name or ID. *)
Definition find (notFound : error) (k : Kind) (nameOrID : string) : result A :=
  match byName k !! nameOrID with
  | Some v => Ok v
  | None =>
      match namesByID k !! nameOrID with
      | Some name => Ok (default zero_of (byName k !! name))
      | None => Err notFound
      end
  end.

(** Every definition, sorted by name. *)
Definition all (k : Kind) : list A := sorted_values (byName k).

(** [readDefinition], of what a file holds. *)
Definition readDefinition (file : option Yaml.node) : option A := file ≫= Yaml.of_node yaml_of.

(** [loadInstances] and its like: one that cannot be read, or that is not
    where its name says, is skipped. *)
Definition load (files : gmap string (option Yaml.node)) : Kind :=
  foldl (λ k name,
    match files !! name ≫= readDefinition with
    | Some v => if bool_decide (name_of v = name) then put k v else k
    | None => k
    end) (empty_kind files) (sorted_keys files).

(** What [writeDefinition] writes, if it succeeds. *)
Definition writeDefinition (v : A) : option Yaml.node := Some (Yaml.to_node yaml_of v).

Definition write (k : Kind) (v : A) : Kind :=
  mkKind (byName k) (namesByID k) (<[name_of v := writeDefinition v]> (files k)).

(** Removing a definition's file, and the definition from memory. *)
Definition unlink (k : Kind) (name : string) : Kind :=
  mkKind (byName k) (namesByID k) (delete name (files k)).

Definition drop_mem (k : Kind) (v : A) : Kind :=
  mkKind (delete (name_of v) (byName k)) (delete (id_of v) (namesByID k)) (files k).

(** [CreateNetwork] and its like: [write_err] is the outcome of writing the
    file. *)
Definition create (exists_err notFound : error) (check : result unit) (write_err : option error) (k : Kind) (v : A)
  : result unit * Kind :=
  match (Naming.Validate (name_of v) ;; refuse_if (is_ok (find notFound k (name_of v))) exists_err ;; check) with
  | Err e => (Err e, k)
  | Ok _ =>
      match write_err with
      | Some e => (Err e, k)
      | None => (Ok tt, put (write k v) v)
      end
  end.

(** [UpdateKernel] and its like. *)
Definition update (notFound : error) (check : result unit) (write_err : option error) (k : Kind) (v : A)
  : result unit * Kind :=
  match (find notFound k (name_of v) ;; check) with
  | Err e => (Err e, k)
  | Ok _ =>
      match write_err with
      | Some e => (Err e, k)
      | None => (Ok tt, put (write k v) v)
      end
  end.

(** [DeleteNetwork] and its like: [check] refuses a definition in use. *)
Definition remove (notFound : error) (check : A → result unit) (remove_err : option error) (k : Kind) (nameOrID : string)
  : result unit * Kind :=
  match (v ← find notFound k nameOrID; check v ;; Ok v) with
  | Err e => (Err e, k)
  | Ok v =>
      match remove_err with
      | Some e => (Err (Errorf "remove %s: %w" e), k)
      | None => (Ok tt, drop_mem (unlink k (name_of v)) v)
      end
  end.

(** *** What makes a kind well formed *)

(** Each definition is under its name and its ID, an ID leads to the
    definition that has it, and no name is an ID, so that a lookup means one
    definition. *)
Definition kind_wf (k : Kind) : Prop :=
  (∀ n v, byName k !! n = Some v →
     name_of v = n ∧ id_of v ≠ "" ∧ namesByID k !! id_of v = Some n ∧ namesByID k !! n = None ∧ Naming.valid_name n) ∧
  (∀ i n, namesByID k !! i = Some n → ∃ v, byName k !! n = Some v ∧ id_of v = i).

(** A file that is where its name says. *)
Definition placed (fs : gmap string (option Yaml.node)) (n : string) (v : A) : Prop :=
  fs !! n ≫= readDefinition = Some v ∧ name_of v = n.

(** Memory is what the files say. *)
Definition synced (k : Kind) : Prop := ∀ n v, byName k !! n = Some v ↔ placed (files k) n v.

(** A definition whose ID no other has, nor has as its name. *)
Definition fresh (k : Kind) (v : A) : Prop :=
  id_of v ≠ "" ∧ id_of v ≠ name_of v ∧ namesByID k !! id_of v = None ∧ byName k !! id_of v = None.

(** A new version of a definition of the kind. *)
Definition revises (k : Kind) (v : A) : Prop :=
  ∃ v0, byName k !! name_of v = Some v0 ∧ id_of v0 = id_of v.

(** What is written is read back. *)
Lemma read_write v : readDefinition (writeDefinition v) = Some v.
Proof. apply Yaml.of_to_node. Qed.

Lemma find_Ok notFound k x v :
  kind_wf k → find notFound k x = Ok v →
  byName k !! name_of v = Some v ∧ (x = name_of v ∨ x = id_of v).
Proof.
  intros [H1 H2]. unfold find. destruct (byName k !! x) as [v'|] eqn:Hx.
  { intros [= <-]. destruct (H1 _ _ Hx) as [-> _]. auto. }
  destruct (namesByID k !! x) as [n|] eqn:Hi; [|done].
  destruct (H2 _ _ Hi) as (v' & Hv & <-). rewrite Hv. simpl. intros [= <-].
  destruct (H1 _ _ Hv) as [-> _]. auto.
Qed.

Lemma find_Err notFound k x e :
  find notFound k x = Err e → byName k !! x = None ∧ namesByID k !! x = None.
Proof. unfold find. destruct (byName k !! x), (namesByID k !! x); done. Qed.

(** A definition is found by its name, and by its ID. *)
Lemma find_by notFound k n v :
  kind_wf k → byName k !! n = Some v → find notFound k n = Ok v ∧ find notFound k (id_of v) = Ok v.
Proof.
  intros [H1 H2] Hn. unfold find. rewrite Hn. split; [done|].
  destruct (H1 _ _ Hn) as (<- & _ & Hid & _). destruct (byName k !! id_of v) as [v'|] eqn:Hv'.
  - destruct (H1 _ _ Hv') as (_ & _ & _ & Hno & _). congruence.
  - by rewrite Hid, Hn.
Qed.

Lemma put_fresh_wf k v :
  kind_wf k → fresh k v → Naming.valid_name (name_of v) →
  byName k !! name_of v = None → namesByID k !! name_of v = None → kind_wf (put (write k v) v).
Proof.
  intros [H1 H2] (Hid & Hne & Hi & Hb) Hvalid Hn Hni. unfold put, write, kind_wf; simpl.
  rewrite bool_decide_false by done. split.
  - intros n w [[<- <-]|[Hne' Hw]]%lookup_insert_Some.
    + rewrite lookup_insert_eq, lookup_insert_ne by done. done.
    + destruct (H1 _ _ Hw) as (? & ? & ? & ? & ?). rewrite !lookup_insert_ne by congruence. done.
  - intros i n [[<- <-]|[Hne' Hw]]%lookup_insert_Some.
    + exists v. by rewrite lookup_insert_eq.
    + destruct (H2 _ _ Hw) as (w & Hw' & <-). exists w. rewrite lookup_insert_ne by congruence. done.
Qed.

Lemma put_revise_wf k v : kind_wf k → revises k v → kind_wf (put (write k v) v).
Proof.
  intros [H1 H2] (v0 & Hv0 & Hid). destruct (H1 _ _ Hv0) as (_ & Hne & Hi & Hno & Hvalid). rewrite Hid in *.
  unfold put, write, kind_wf; simpl. rewrite bool_decide_false by done. rewrite (insert_id (namesByID k)) by done. split.
  - intros n w [[<- <-]|[Hne' Hw]]%lookup_insert_Some; [done|by apply H1].
  - intros i n Hw. destruct (H2 _ _ Hw) as (w & Hw' & <-).
    destruct (decide (n = name_of v)) as [->|]; [|exists w; by rewrite lookup_insert_ne].
    exists v. rewrite lookup_insert_eq. split; [done|]. congruence.
Qed.

Lemma put_synced k v : synced k → synced (put (write k v) v).
Proof.
  intros Hs n w. unfold put, write, placed; simpl. destruct (decide (n = name_of v)) as [->|].
  - rewrite !lookup_insert_eq. cbn [mbind option_bind]. rewrite read_write. naive_solver.
  - rewrite !lookup_insert_ne by done. apply Hs.
Qed.

Lemma drop_wf k v :
  kind_wf k → byName k !! name_of v = Some v → kind_wf (drop_mem (unlink k (name_of v)) v).
Proof.
  intros [H1 H2] Hv. destruct (H1 _ _ Hv) as (_ & _ & Hi & _). unfold drop_mem, unlink, kind_wf; simpl. split.
  - intros n w [Hne Hw]%lookup_delete_Some. destruct (H1 _ _ Hw) as (? & ? & Hiw & Hno & ?).
    rewrite lookup_delete_ne by congruence. split_and!; try done.
    destruct (decide (id_of v = n)) as [<-|]; [apply lookup_delete_eq|by rewrite lookup_delete_ne].
  - intros i n [Hne Hw]%lookup_delete_Some. destruct (H2 _ _ Hw) as (w & Hw' & <-).
    exists w. rewrite lookup_delete_ne; [done|]. intros <-. simplify_eq.
Qed.

Lemma drop_synced k v : synced k → synced (drop_mem (unlink k (name_of v)) v).
Proof.
  intros Hs n w. unfold drop_mem, unlink, placed; simpl. destruct (decide (n = name_of v)) as [->|].
  - rewrite !lookup_delete_eq. naive_solver.
  - rewrite !lookup_delete_ne by done. apply Hs.
Qed.

(** Renaming: the definition leaves its old name, and takes its ID along. *)
Lemma rename_wf k v0 w fs :
  kind_wf k → byName k !! name_of v0 = Some v0 → id_of w = id_of v0 → name_of w ≠ name_of v0 →
  Naming.valid_name (name_of w) → byName k !! name_of w = None → namesByID k !! name_of w = None →
  kind_wf (put (mkKind (delete (name_of v0) (byName k)) (namesByID k) fs) w).
Proof.
  intros [H1 H2] Hv0 Hid Hne Hvalid Hn Hni. destruct (H1 _ _ Hv0) as (_ & Hne0 & Hi & Hno & _).
  unfold put, kind_wf; simpl. rewrite Hid, bool_decide_false by done. split.
  - intros n v [[<- <-]|[Hne' [Hne2 Hv]%lookup_delete_Some]]%lookup_insert_Some.
    + rewrite Hid, lookup_insert_eq, lookup_insert_ne by congruence. done.
    + destruct (H1 _ _ Hv) as (? & ? & Hiv & ? & ?).
      rewrite !lookup_insert_ne; [done|congruence|]. intros E. rewrite E in Hi. congruence.
  - intros i n [[<- <-]|[Hne' Hv]]%lookup_insert_Some.
    + exists w. by rewrite lookup_insert_eq.
    + destruct (H2 _ _ Hv) as (v & Hv' & <-). exists v. split; [|done].
      rewrite lookup_insert_ne by congruence. rewrite lookup_delete_ne; [done|]. intros <-. simplify_eq.
Qed.

(** *** Loading *)

Definition load_one (fs : gmap string (option Yaml.node)) (k : Kind) (name : string) : Kind :=
  match fs !! name ≫= readDefinition with
  | Some v => if bool_decide (name_of v = name) then put k v else k
  | None => k
  end.

Lemma load_one_placed fs k n v : placed fs n v → load_one fs k n = put k v.
Proof. intros [H1 H2]. unfold load_one. by rewrite H1, bool_decide_true. Qed.

Lemma load_one_skipped fs k n : (∀ v, ¬ placed fs n v) → load_one fs k n = k.
Proof.
  intros Hno. unfold load_one. destruct (fs !! n ≫= readDefinition) as [v|] eqn:E; [|done].
  rewrite bool_decide_false; [done|]. intros ?. by apply (Hno v).
Qed.

Lemma load_loop fs l k0 :
  let k := foldl (load_one fs) k0 l in
  files k = files k0 ∧
  (∀ n v, byName k !! n = Some v ↔
    (n ∈ l ∧ placed fs n v) ∨ (¬ (n ∈ l ∧ ∃ w, placed fs n w) ∧ byName k0 !! n = Some v)).
Proof.
  revert k0; induction l as [|name l IH] using rev_ind; intros k0; cbv zeta.
  { simpl. split; [done|]. set_solver. }
  destruct (IH k0) as [Hf Hb]. rewrite foldl_app. simpl. set (k := foldl _ k0 l) in *.
  assert ((∃ v, placed fs name v) ∨ ∀ v, ¬ placed fs name v) as [[v Hp]|Hno].
  { unfold placed. destruct (fs !! name ≫= readDefinition) as [v|]; [|right; naive_solver].
    destruct (decide (name_of v = name)); [left|right]; naive_solver. }
  - rewrite (load_one_placed _ _ _ _ Hp). split; [done|]. intros n w. unfold put; simpl.
    pose proof Hp as [Hp1 Hp2]. rewrite Hp2. destruct (decide (n = name)) as [->|Hne].
    + rewrite lookup_insert_eq. split; [intros [= <-]; left; set_solver|].
      intros [[_ [Hw _]]|[[] _]]; [congruence|]. split; [set_solver|eauto].
    + rewrite lookup_insert_ne, Hb, elem_of_app, list_elem_of_singleton by done. naive_solver.
  - rewrite load_one_skipped by done. split; [done|]. intros n w. rewrite Hb, elem_of_app, list_elem_of_singleton.
    destruct (decide (n = name)) as [->|]; naive_solver.
Qed.

Lemma load_byName fs n v : byName (load fs) !! n = Some v ↔ placed fs n v.
Proof.
  change (load fs) with (foldl (load_one fs) (empty_kind fs) (sorted_keys fs)).
  destruct (load_loop fs (sorted_keys fs) (empty_kind fs)) as [_ Hb]. rewrite Hb. simpl.
  rewrite lookup_empty, elem_of_sorted_keys. split; [naive_solver|].
  intros Hp. left. split; [|done]. destruct Hp as [(f & -> & _)%bind_Some _]. eauto.
Qed.

Lemma load_files fs : files (load fs) = fs.
Proof. by destruct (load_loop fs (sorted_keys fs) (empty_kind fs)) as [? _]. Qed.

Lemma load_namesByID fs i n :
  (∀ n n' v v', placed fs n v → placed fs n' v' → id_of v = id_of v' → n = n') →
  namesByID (load fs) !! i = Some n ↔ i ≠ "" ∧ ∃ v, placed fs n v ∧ id_of v = i.
Proof.
  intros Huniq. change (load fs) with (foldl (load_one fs) (empty_kind fs) (sorted_keys fs)).
  assert (∀ l, namesByID (foldl (load_one fs) (empty_kind fs) l) !! i = Some n ↔
    i ≠ "" ∧ n ∈ l ∧ ∃ v, placed fs n v ∧ id_of v = i) as Hloop.
  { induction l as [|name l IH] using rev_ind; simpl; [rewrite lookup_empty; set_solver|].
    rewrite foldl_app. simpl. set (k := foldl _ _ l) in *.
    rewrite elem_of_app, list_elem_of_singleton.
    assert ((∃ v, placed fs name v) ∨ ∀ v, ¬ placed fs name v) as [[v Hp]|Hno].
    { unfold placed. destruct (fs !! name ≫= readDefinition) as [v|]; [|right; naive_solver].
      destruct (decide (name_of v = name)); [left|right]; naive_solver. }
    - rewrite (load_one_placed _ _ _ _ Hp). unfold put; simpl. pose proof Hp as [_ Hp2]. rewrite Hp2.
      case_bool_decide as Hid; [rewrite IH; split; [naive_solver|]|].
      { intros (Hi & [?|Hl] & w & Hw & <-); [naive_solver|]. subst n.
        assert (w = v) as -> by (destruct Hw, Hp; congruence). done. }
      destruct (decide (i = id_of v)) as [->|Hne].
      + rewrite lookup_insert_eq. split; [intros [= <-]; eauto 10|].
        intros (_ & _ & w & Hw & E). f_equal. by apply (Huniq _ _ _ _ Hp Hw).
      + rewrite lookup_insert_ne, IH by done. split; [naive_solver|].
        intros (Hi & [?|Hl] & w & Hw & <-); [naive_solver|]. subst n.
        assert (w = v) as -> by (destruct Hw, Hp; congruence). done.
    - rewrite load_one_skipped, IH by done. naive_solver. }
  rewrite Hloop, elem_of_sorted_keys. split; [naive_solver|].
  intros (Hi & v & Hp & Hid). split_and!; [done| |eauto]. destruct Hp as [(f & -> & _)%bind_Some _]. eauto.
Qed.

(** *** Lookups that find *)

(** What is needed for a lookup by ID to find a definition with that ID, even
    where IDs are not unique. *)
Definition indexed (k : Kind) : Prop :=
  (∀ n v, byName k !! n = Some v → name_of v = n) ∧
  (∀ i n, namesByID k !! i = Some n → ∃ v, byName k !! n = Some v ∧ id_of v = i).

Lemma find_indexed notFound k x v : indexed k → find notFound k x = Ok v → byName k !! name_of v = Some v.
Proof.
  intros [H1 H2]. unfold find. destruct (byName k !! x) as [w|] eqn:E.
  - intros [= <-]. by rewrite (H1 _ _ E).
  - destruct (namesByID k !! x) as [n|] eqn:Ei; [|done]. destruct (H2 _ _ Ei) as (w & Hw & _). rewrite Hw.
    intros [= <-]. by rewrite (H1 _ _ Hw).
Qed.

Lemma put_indexed k v : indexed k → byName k !! name_of v = None → indexed (put (write k v) v).
Proof.
  intros [H1 H2] Hno. split; simpl.
  - intros n w [[<- <-]|[_ Hw]]%lookup_insert_Some; [done|by apply H1].
  - assert (∀ i n, namesByID k !! i = Some n → ∃ w, <[name_of v := v]> (byName k) !! n = Some w ∧ id_of w = i) as Hold.
    { intros i n Hi. destruct (H2 _ _ Hi) as (w & Hw & Hid). exists w. rewrite lookup_insert_ne; [done|]. congruence. }
    intros i n. case_bool_decide; [apply Hold|].
    intros [[<- <-]|[_ Hi]]%lookup_insert_Some; [exists v; by rewrite lookup_insert_eq|by apply Hold].
Qed.

Lemma drop_indexed k v : indexed k → byName k !! name_of v = Some v → indexed (drop_mem (unlink k (name_of v)) v).
Proof.
  intros [H1 H2] Hv. split; simpl.
  - intros n w [_ Hw]%lookup_delete_Some. by apply H1.
  - intros i n [Hne Hi]%lookup_delete_Some. destruct (H2 _ _ Hi) as (w & Hw & Hid). exists w.
    rewrite lookup_delete_ne; [done|]. intros E. rewrite E in Hv. congruence.
Qed.

Lemma load_indexed fs : indexed (load fs).
Proof.
  split; [intros n v [_ Hn]%load_byName; done|]. intros i n Hi.
  assert (∀ l, namesByID (foldl (load_one fs) (empty_kind fs) l) !! i = Some n → ∃ v, placed fs n v ∧ id_of v = i) as Hloop.
  { clear Hi. induction l as [|name l IH] using rev_ind; [by simpl; rewrite lookup_empty|]. rewrite foldl_app. simpl.
    unfold load_one at 1. destruct (fs !! name ≫= readDefinition) as [v|] eqn:E; [|done]. case_bool_decide as Hn; [|done].
    unfold put; simpl. case_bool_decide; [done|].
    intros [[<- <-]|[_ Hi]]%lookup_insert_Some; [|by apply IH]. exists v. unfold placed. by rewrite Hn. }
  destruct (Hloop _ Hi) as (v & Hp & Hid). exists v. by rewrite load_byName.
Qed.

(** Reading back the files of a kind in step with them gives the kind. *)
Lemma load_synced k : kind_wf k → synced k → load (files k) = k.
Proof.
  intros [H1 H2] Hs.
  assert (byName (load (files k)) = byName k) as Hb.
  { apply map_eq. intros n. apply option_eq. intros v. rewrite load_byName. symmetry. apply Hs. }
  assert (namesByID (load (files k)) = namesByID k) as Hi.
  { apply map_eq. intros i. apply option_eq. intros n. rewrite load_namesByID.
    - split.
      + intros (Hi & v & Hp & <-). apply Hs in Hp. by destruct (H1 _ _ Hp) as (_ & _ & ? & _).
      + intros Hn. destruct (H2 _ _ Hn) as (v & Hv & <-). destruct (H1 _ _ Hv) as (_ & Hid & _).
        split; [done|]. exists v. split; [by apply Hs|done].
    - intros n1 n2 v1 v2 Hp1 Hp2 E. apply Hs in Hp1, Hp2.
      destruct (H1 _ _ Hp1) as (_ & _ & E1 & _), (H1 _ _ Hp2) as (_ & _ & E2 & _). congruence. }
  pose proof (load_files (files k)) as Hf. destruct (load (files k)), k; simpl in *. congruence.
Qed.

End Kind.

Arguments Kind A : clear implicits.

End Kind.

#[global] Instance Spec_Named : Named Instance.Spec := {
  name_of := Instance.Name; id_of := Instance.ID; yaml_of := Yaml.Spec_yaml }.

#[global] Instance Snapshot_Named : Named Snapshot.Snapshot := {
  name_of := Snapshot.Name; id_of := Snapshot.ID; yaml_of := Yaml.Snapshot_yaml }.

#[global] Instance Network_Named : Named Network.Network := {
  name_of := Network.Name; id_of := Network.ID; yaml_of := Yaml.Network_yaml }.

#[global] Instance Volume_Named : Named Volume.Volume := {
  name_of := Volume.Name; id_of := Volume.ID; yaml_of := Yaml.Volume_yaml }.

#[global] Instance Kernel_Named : Named Kernel.Kernel := {
  name_of := Kernel.Name; id_of := Kernel.ID; yaml_of := Yaml.Kernel_yaml }.

#[global] Instance Token_Named : Named Token.Token := {
  name_of := Token.Name; id_of := Token.ID; yaml_of := Yaml.Token_yaml }.

(** ** The store *)

Module Store.
Import Kind.

Record Store := mkStore {
  instances : Kind Instance.Spec;
  snapshots : Kind Snapshot.Snapshot;
  networks : Kind Network.Network;
  volumes : Kind Volume.Volume;
  kernels : Kind Kernel.Kernel;
  tokens : Kind Token.Token;
}.

Definition set_instances (s : Store) k := mkStore k (snapshots s) (networks s) (volumes s) (kernels s) (tokens s).

Definition set_snapshots (s : Store) k := mkStore (instances s) k (networks s) (volumes s) (kernels s) (tokens s).

Definition set_networks (s : Store) k := mkStore (instances s) (snapshots s) k (volumes s) (kernels s) (tokens s).

Definition set_volumes (s : Store) k := mkStore (instances s) (snapshots s) (networks s) k (kernels s) (tokens s).

Definition set_kernels (s : Store) k := mkStore (instances s) (snapshots s) (networks s) (volumes s) k (tokens s).

Definition set_tokens (s : Store) k := mkStore (instances s) (snapshots s) (networks s) (volumes s) (kernels s) k.

Definition loadInstances : gmap string (option Yaml.node) → Kind Instance.Spec := load.

Definition loadSnapshots : gmap string (option Yaml.node) → Kind Snapshot.Snapshot := load.

Definition loadNetworks : gmap string (option Yaml.node) → Kind Network.Network := load.

Definition loadVolumes : gmap string (option Yaml.node) → Kind Volume.Volume := load.

Definition loadKernels : gmap string (option Yaml.node) → Kind Kernel.Kernel := load.

Definition loadTokens : gmap string (option Yaml.node) → Kind Token.Token := load.

(** [New]: every kind is loaded from its directory. *)
Definition New (s : Store) : Store :=
  mkStore (loadInstances (files (instances s))) (loadSnapshots (files (snapshots s))) (loadNetworks (files (networks s)))
    (loadVolumes (files (volumes s))) (loadKernels (files (kernels s))) (loadTokens (files (tokens s))).

Ltac unfold_loads := unfold New, loadInstances, loadSnapshots, loadNetworks, loadVolumes, loadKernels, loadTokens.

(** *** Lookups *)

Definition Instance (s : Store) (nameOrID : string) : result Instance.Spec :=
  find (NotFound "no instance %q") (instances s) nameOrID.

Definition Instances (s : Store) : list Instance.Spec := all (instances s).

Definition MatchingInstances (s : Store) (match_ : Instance.Spec → bool) : list Instance.Spec :=
  List.filter match_ (map_to_list (byName (instances s))).*2.

Definition Snapshot (s : Store) (nameOrID : string) : result Snapshot.Snapshot :=
  find (NotFound "no snapshot %q") (snapshots s) nameOrID.

Definition Snapshots (s : Store) : list Snapshot.Snapshot := all (snapshots s).

Definition Network (s : Store) (nameOrID : string) : result Network.Network :=
  find (NotFound "no network %q") (networks s) nameOrID.

Definition Networks (s : Store) : list Network.Network := all (networks s).

Definition Volume (s : Store) (nameOrID : string) : result Volume.Volume :=
  find (NotFound "no volume %q") (volumes s) nameOrID.

Definition Volumes (s : Store) : list Volume.Volume := all (volumes s).

Definition Kernel (s : Store) (nameOrID : string) : result Kernel.Kernel :=
  find (NotFound "no kernel %q") (kernels s) nameOrID.

Definition Kernels (s : Store) : list Kernel.Kernel := all (kernels s).

Definition Token (s : Store) (nameOrID : string) : result Token.Token :=
  find (NotFound "no token %q") (tokens s) nameOrID.

Definition Tokens (s : Store) : list Token.Token := all (tokens s).

(** Go's map order is not defined: the first match in some order. *)
Definition TokenBySecretSHA256 (s : Store) (secretSHA256 : string) : result Token.Token :=
  match List.find (λ t, bool_decide (Token.SecretSHA256 t = secretSHA256)) (map_to_list (byName (tokens s))).*2 with
  | Some t => Ok t
  | None => Err (NotFound "no token with that secret")
  end.

(** *** Writes *)

(** [checkReferences]: [InvalidArgument("%v", err)] of the lookup's error. *)
Definition checkReferences (s : Store) (spec : Instance.Spec) : result unit :=
  wrap_err (λ _, InvalidArgument "%v") (Kernel s (Instance.KernelName spec)) ;;
  wrap_err (λ _, InvalidArgument "%v") (Network s (Instance.NetworkName spec)) ;;
  for_each (λ m,
    if negb (bool_decide (Instance.Mount_Type m = Instance.MountTypeVolume)) then Ok tt
    else wrap_err (λ _, InvalidArgument "%v") (Volume s (Instance.Source m)) ;; Ok tt) (Instance.Mounts spec).

(** [CreateInstance]. [mkdir] and [write_err] are the outcomes of making its
    directory and of writing the definition in it; a directory without a
    definition is left behind if only the second fails. *)
Definition CreateInstance (mkdir write_err : option error) (s : Store) (v : Instance.Spec) : result unit * Store :=
  match (Naming.Validate (Instance.Name v) ;;
         refuse_if (is_ok (Instance s (Instance.Name v))) (Exists "instance %q already exists") ;;
         checkReferences s v) with
  | Err e => (Err e, s)
  | Ok _ =>
      match mkdir with
      | Some e => (Err (Errorf "create %s: %w" e), s)
      | None =>
          let k := instances s in
          match write_err with
          | Some e =>
              let made := mkKind (byName k) (namesByID k)
                (partial_alter (λ old, Some (default None old)) (Instance.Name v) (files k)) in
              (Err e, set_instances s made)
          | None => (Ok tt, set_instances s (put (write k v) v))
          end
      end
  end.

Definition UpdateInstance (write_err : option error) (s : Store) (v : Instance.Spec) : result unit * Store :=
  let '(r, k) := update (NotFound "no instance %q") (checkReferences s v) write_err (instances s) v in
  (r, set_instances s k).

(** [RenameInstance]. [rename] and [write_err] are the outcomes of moving the
    directory and of writing the renamed definition in it. *)
Definition RenameInstance (rename write_err : option error) (s : Store) (nameOrID : string) (renamed : Instance.Spec)
  : result unit * Store :=
  match (current ← Instance s nameOrID; checkReferences s renamed ;; Naming.Validate (Instance.Name renamed) ;; Ok current) with
  | Err e => (Err e, s)
  | Ok current =>
      if bool_decide (Instance.Name renamed = Instance.Name current) then (Ok tt, s)
      else if is_ok (Instance s (Instance.Name renamed)) then (Err (Exists "instance %q already exists"), s)
      else
        match rename with
        | Some e => (Err (Errorf "rename %s to %s: %w" e), s)
        | None =>
            let k := instances s in
            let moved := mkKind (byName k) (namesByID k)
              (<[Instance.Name renamed := default None (files k !! Instance.Name current)]>
                (delete (Instance.Name current) (files k))) in
            match write_err with
            | Some e => (Err e, set_instances s moved)
            | None =>
                let k := write moved renamed in
                (Ok tt, set_instances s
                   (put (mkKind (delete (Instance.Name current) (byName k)) (namesByID k) (files k)) renamed))
            end
        end
  end.

(** What became of a directory that was to be removed with all in it. One
    that could not be may have lost its definition all the same. *)
Inductive RemoveAll := Removed | NotRemoved (e : error) (definition_gone : bool).

Definition DeleteInstance (removed : RemoveAll) (s : Store) (nameOrID : string) : result unit * Store :=
  match Instance s nameOrID with
  | Err e => (Err e, s)
  | Ok v =>
      let k := instances s in
      match removed with
      | NotRemoved e gone =>
          (Err (Errorf "remove %s: %w" e),
           if gone then set_instances s (mkKind (byName k) (namesByID k) (<[Instance.Name v := None]> (files k))) else s)
      | Removed => (Ok tt, set_instances s (drop_mem (unlink k (Instance.Name v)) v))
      end
  end.

(** [CreateSnapshot], whose files are in a staged directory: [write_err] and
    [rename] are the outcomes of writing its definition there and of moving
    it into place. *)
Definition CreateSnapshot (write_err rename : option error) (s : Store) (v : Snapshot.Snapshot) : result unit * Store :=
  match (Naming.Validate (Snapshot.Name v) ;;
         refuse_if (is_ok (Snapshot s (Snapshot.Name v))) (Exists "snapshot %q already exists") ;;
         checkReferences s (Snapshot.Instance v)) with
  | Err e => (Err e, s)
  | Ok _ =>
      match write_err, rename with
      | Some e, _ => (Err e, s)
      | None, Some e => (Err (Errorf "move %s into place: %w" e), s)
      | None, None => (Ok tt, set_snapshots s (put (write (snapshots s) v) v))
      end
  end.

Definition DeleteSnapshot (removed : RemoveAll) (s : Store) (nameOrID : string) : result unit * Store :=
  match Snapshot s nameOrID with
  | Err e => (Err e, s)
  | Ok v =>
      let k := snapshots s in
      match removed with
      | NotRemoved e gone =>
          (Err (Errorf "remove %s: %w" e),
           if gone then set_snapshots s (mkKind (byName k) (namesByID k) (<[Snapshot.Name v := None]> (files k))) else s)
      | Removed => (Ok tt, set_snapshots s (drop_mem (unlink k (Snapshot.Name v)) v))
      end
  end.

(** The loops of the three deletions that refuse a definition in use. *)
Definition checkUnused (s : Store) (uses : Instance.Spec → bool) (by_instance by_snapshot : error) : result unit :=
  for_each (λ i, refuse_if (uses i) by_instance) (Instances s) ;;
  for_each (λ sn, refuse_if (uses (Snapshot.Instance sn)) by_snapshot) (Snapshots s).

Definition CreateNetwork (write_err : option error) (s : Store) (v : Network.Network) : result unit * Store :=
  let '(r, k) := create (Exists "network %q already exists") (NotFound "no network %q") (Ok tt) write_err (networks s) v in
  (r, set_networks s k).

Definition DeleteNetwork (remove_err : option error) (s : Store) (nameOrID : string) : result unit * Store :=
  let '(r, k) := remove (NotFound "no network %q")
    (λ v, checkUnused s (λ i, bool_decide (Instance.NetworkName i = Network.Name v))
       (InvalidState "network %q is in use by instance %q")
       (InvalidState "network %q is in use by snapshot %q: delete the snapshot first"))
    remove_err (networks s) nameOrID in
  (r, set_networks s k).

Definition CreateVolume (write_err : option error) (s : Store) (v : Volume.Volume) : result unit * Store :=
  let '(r, k) := create (Exists "volume %q already exists") (NotFound "no volume %q") (Ok tt) write_err (volumes s) v in
  (r, set_volumes s k).

Definition DeleteVolume (remove_err : option error) (s : Store) (nameOrID : string) : result unit * Store :=
  let '(r, k) := remove (NotFound "no volume %q")
    (λ v, checkUnused s (λ i, if Instance.VolumeMount i (Volume.Name v) is Some _ then true else false)
       (InvalidState "volume %q is in use by instance %q")
       (InvalidState "volume %q is in use by snapshot %q: delete the snapshot first"))
    remove_err (volumes s) nameOrID in
  (r, set_volumes s k).

Definition CreateKernel (write_err : option error) (s : Store) (v : Kernel.Kernel) : result unit * Store :=
  let '(r, k) := create (Exists "kernel %q already exists") (NotFound "no kernel %q") (Ok tt) write_err (kernels s) v in
  (r, set_kernels s k).

Definition UpdateKernel (write_err : option error) (s : Store) (v : Kernel.Kernel) : result unit * Store :=
  let '(r, k) := update (NotFound "no kernel %q") (Ok tt) write_err (kernels s) v in
  (r, set_kernels s k).

Definition DeleteKernel (remove_err : option error) (s : Store) (nameOrID : string) : result unit * Store :=
  let '(r, k) := remove (NotFound "no kernel %q")
    (λ v, checkUnused s (λ i, bool_decide (Instance.KernelName i = Kernel.Name v))
       (InvalidState "kernel %q is in use by instance %q")
       (InvalidState "kernel %q is in use by snapshot %q: delete the snapshot first"))
    remove_err (kernels s) nameOrID in
  (r, set_kernels s k).

Definition CreateToken (write_err : option error) (s : Store) (v : Token.Token) : result unit * Store :=
  let '(r, k) := create (Exists "token %q already exists") (NotFound "no token %q") (Ok tt) write_err (tokens s) v in
  (r, set_tokens s k).

Definition UpdateToken (write_err : option error) (s : Store) (v : Token.Token) : result unit * Store :=
  let '(r, k) := update (NotFound "no token %q") (Ok tt) write_err (tokens s) v in
  (r, set_tokens s k).

Definition RecordTokenUse (write_err : option error) (s : Store) (nameOrID : string) (at_ : Z) : result unit * Store :=
  match Token s nameOrID with
  | Err e => (Err e, s)
  | Ok v =>
      let v := Token.mkToken (Token.ID v) (Token.Name v) (Token.SecretSHA256 v) (Token.Scopes v)
        (Token.CreatedAt v) (Token.UpdatedAt v) at_ in
      match write_err with
      | Some e => (Err e, s)
      | None => (Ok tt, set_tokens s (put (write (tokens s) v) v))
      end
  end.

Definition DeleteToken (remove_err : option error) (s : Store) (nameOrID : string) : result unit * Store :=
  let '(r, k) := remove (NotFound "no token %q") (λ _, Ok tt) remove_err (tokens s) nameOrID in
  (r, set_tokens s k).

(** ** Invariants of the store *)

Definition store_wf (s : Store) : Prop :=
  kind_wf (instances s) ∧ kind_wf (snapshots s) ∧ kind_wf (networks s) ∧
  kind_wf (volumes s) ∧ kind_wf (kernels s) ∧ kind_wf (tokens s).

Definition store_synced (s : Store) : Prop :=
  synced (instances s) ∧ synced (snapshots s) ∧ synced (networks s) ∧
  synced (volumes s) ∧ synced (kernels s) ∧ synced (tokens s).

(** A definition that names its kernel, network and volumes by name. *)
Definition named_refs (s : Store) (spec : Instance.Spec) : Prop :=
  is_Some (byName (kernels s) !! Instance.KernelName spec) ∧
  is_Some (byName (networks s) !! Instance.NetworkName spec) ∧
  ∀ m, m ∈ Instance.Mounts spec → Instance.Mount_Type m = Instance.MountTypeVolume →
    is_Some (byName (volumes s) !! Instance.Source m).

(** None of what a definition refers to is referred to by its ID. *)
Definition refers_by_name (s : Store) (spec : Instance.Spec) : Prop :=
  namesByID (kernels s) !! Instance.KernelName spec = None ∧
  namesByID (networks s) !! Instance.NetworkName spec = None ∧
  ∀ m, m ∈ Instance.Mounts spec → namesByID (volumes s) !! Instance.Source m = None.

(** Referential integrity: everything an instance, or the instance a snapshot
    keeps, refers to is there. *)
Definition store_refs (s : Store) : Prop :=
  (∀ n v, byName (instances s) !! n = Some v → named_refs s v) ∧
  (∀ n v, byName (snapshots s) !! n = Some v → named_refs s (Snapshot.Instance v)).

Lemma checkReferences_Ok s spec :
  checkReferences s spec = Ok tt → refers_by_name s spec → named_refs s spec.
Proof.
  intros Hc (Hk & Hn & Hv). unfold checkReferences in Hc.
  apply bind_Ok in Hc as (k & Hkern & Hc). apply bind_Ok in Hc as (n & Hnet & Hmnt).
  apply wrap_err_Ok in Hkern, Hnet. rewrite for_each_Ok in Hmnt.
  assert (∀ A `{Named A} (kd : Kind A) e x v, find e kd x = Ok v → namesByID kd !! x = None → is_Some (byName kd !! x)) as Hf.
  { intros A HA kd e x v. unfold find. destruct (byName kd !! x); [done|]. by destruct (namesByID kd !! x). }
  split_and!; [by eapply Hf..|]. intros m Hm Ht. specialize (Hmnt m Hm). rewrite bool_decide_true in Hmnt by done.
  simpl in Hmnt. apply bind_Ok in Hmnt as (v & Hvol & _). apply wrap_err_Ok in Hvol. eapply Hf; [done|auto].
Qed.

Lemma elem_of_sorted_values {A} (m : gmap string A) v : v ∈ sorted_values m ↔ ∃ n, m !! n = Some v.
Proof.
  unfold sorted_values. rewrite list_elem_of_omap. setoid_rewrite elem_of_sorted_keys. naive_solver.
Qed.

(** A definition that may be removed is referred to by none. *)
Lemma checkUnused_Ok s uses e1 e2 u :
  checkUnused s uses e1 e2 = Ok u →
  (∀ n v, byName (instances s) !! n = Some v → uses v = false) ∧
  (∀ n v, byName (snapshots s) !! n = Some v → uses (Snapshot.Instance v) = false).
Proof.
  unfold checkUnused. intros (u' & H1 & H2)%bind_Ok. rewrite for_each_Ok in H1. rewrite for_each_Ok in H2. split; intros n v Hv.
  - assert (v ∈ Instances s) as Hin by (apply elem_of_sorted_values; eauto).
    specialize (H1 v Hin). by apply refuse_if_Ok in H1.
  - assert (v ∈ Snapshots s) as Hin by (apply elem_of_sorted_values; eauto).
    specialize (H2 v Hin). by apply refuse_if_Ok in H2.
Qed.

Lemma VolumeMount_None spec name :
  Instance.VolumeMount spec name = None ↔
  ∀ m, m ∈ Instance.Mounts spec → Instance.Mount_Type m = Instance.MountTypeVolume → Instance.Source m ≠ name.
Proof.
  unfold Instance.VolumeMount. induction (Instance.Mounts spec) as [|m mounts IH]; simpl; [set_solver|].
  destruct (bool_decide _ && bool_decide _) eqn:E; simpl_bools.
  - split; [done|]. intros Hall. exfalso. apply (Hall m); [left|done..].
  - rewrite IH. split; [|intros H m' Hm'; apply H; by right].
    intros H m' [->|Hm']%elem_of_cons; [|by apply H]. destruct E as [E|E]; simpl_bools; auto.
Qed.

(** *** What each write does *)

Section Operations.

Context {A : Type} `{Named A}.

Lemma create_cases exists_err notFound check w (k : Kind A) v r k' :
  create exists_err notFound check w k v = (r, k') →
  (k' = k ∧ is_ok r = false) ∨
  (k' = put (write k v) v ∧ r = Ok tt ∧ Naming.valid_name (name_of v) ∧
   byName k !! name_of v = None ∧ namesByID k !! name_of v = None).
Proof.
  unfold create. destruct (Naming.Validate (name_of v) ≫= _) as [[]|e] eqn:E; [|intros [= <- <-]; auto].
  apply bind_Ok in E as (u & Hval & E). apply bind_Ok in E as (u' & Hex & _). destruct u.
  apply Naming.Validate_Ok in Hval. apply refuse_if_Ok in Hex.
  destruct w; intros [= <- <-]; [auto|right].
  destruct (find notFound k (name_of v)) eqn:Hf; [done|]. apply find_Err in Hf as [? ?]. done.
Qed.

Lemma update_cases notFound check w (k : Kind A) v r k' :
  update notFound check w k v = (r, k') →
  (k' = k ∧ is_ok r = false) ∨ (k' = put (write k v) v ∧ r = Ok tt ∧ check = Ok tt).
Proof.
  unfold update. destruct (find notFound k (name_of v) ≫= _) as [[]|e] eqn:E; [|intros [= <- <-]; auto].
  apply bind_Ok in E as (u & _ & Hc). destruct w; intros [= <- <-]; auto.
Qed.

Lemma remove_cases notFound check w (k : Kind A) x r k' :
  kind_wf k → remove notFound check w k x = (r, k') →
  (k' = k ∧ is_ok r = false) ∨
  (∃ v u, k' = drop_mem (unlink k (name_of v)) v ∧ r = Ok tt ∧ check v = Ok u ∧
     byName k !! name_of v = Some v ∧ (x = name_of v ∨ x = id_of v)).
Proof.
  intros Hwf. unfold remove. destruct (find notFound k x ≫= _) as [v|e] eqn:E; [|intros [= <- <-]; auto].
  apply bind_Ok in E as (v' & Hf & E). apply bind_Ok in E as (u & Hc & [= ->]).
  destruct w; intros [= <- <-]; [auto|right]. exists v, u.
  destruct (find_Ok _ _ _ _ Hwf Hf). done.
Qed.

End Operations.

(** *** Sequences of writes *)

(** A write and the outcomes of the file operations it makes. *)
Inductive op :=
  | OpCreateInstance (mkdir write_err : option error) (v : Instance.Spec)
  | OpUpdateInstance (write_err : option error) (v : Instance.Spec)
  | OpRenameInstance (rename write_err : option error) (nameOrID : string) (v : Instance.Spec)
  | OpDeleteInstance (removed : RemoveAll) (nameOrID : string)
  | OpCreateSnapshot (write_err rename : option error) (v : Snapshot.Snapshot)
  | OpDeleteSnapshot (removed : RemoveAll) (nameOrID : string)
  | OpCreateNetwork (write_err : option error) (v : Network.Network)
  | OpDeleteNetwork (remove_err : option error) (nameOrID : string)
  | OpCreateVolume (write_err : option error) (v : Volume.Volume)
  | OpDeleteVolume (remove_err : option error) (nameOrID : string)
  | OpCreateKernel (write_err : option error) (v : Kernel.Kernel)
  | OpUpdateKernel (write_err : option error) (v : Kernel.Kernel)
  | OpDeleteKernel (remove_err : option error) (nameOrID : string)
  | OpCreateToken (write_err : option error) (v : Token.Token)
  | OpUpdateToken (write_err : option error) (v : Token.Token)
  | OpRecordTokenUse (write_err : option error) (nameOrID : string) (at_ : Z)
  | OpDeleteToken (remove_err : option error) (nameOrID : string).

Definition run (o : op) (s : Store) : result unit * Store :=
  match o with
  | OpCreateInstance m w v => CreateInstance m w s v
  | OpUpdateInstance w v => UpdateInstance w s v
  | OpRenameInstance rn w x v => RenameInstance rn w s x v
  | OpDeleteInstance rm x => DeleteInstance rm s x
  | OpCreateSnapshot w rn v => CreateSnapshot w rn s v
  | OpDeleteSnapshot rm x => DeleteSnapshot rm s x
  | OpCreateNetwork w v => CreateNetwork w s v
  | OpDeleteNetwork w x => DeleteNetwork w s x
  | OpCreateVolume w v => CreateVolume w s v
  | OpDeleteVolume w x => DeleteVolume w s x
  | OpCreateKernel w v => CreateKernel w s v
  | OpUpdateKernel w v => UpdateKernel w s v
  | OpDeleteKernel w x => DeleteKernel w s x
  | OpCreateToken w v => CreateToken w s v
  | OpUpdateToken w v => UpdateToken w s v
  | OpRecordTokenUse w x t => RecordTokenUse w s x t
  | OpDeleteToken w x => DeleteToken w s x
  end.

(** What the store's callers keep to: a new definition has a new ID, a
    definition that replaces another keeps its ID, and instances refer to
    other definitions by name. *)
Definition respects (s : Store) (o : op) : Prop :=
  match o with
  | OpCreateInstance _ _ v => fresh (instances s) v ∧ refers_by_name s v
  | OpUpdateInstance _ v => revises (instances s) v ∧ refers_by_name s v
  | OpRenameInstance _ _ x v =>
      refers_by_name s v ∧ ∀ current, Instance s x = Ok current → Instance.ID v = Instance.ID current
  | OpCreateSnapshot _ _ v => fresh (snapshots s) v ∧ refers_by_name s (Snapshot.Instance v)
  | OpCreateNetwork _ v => fresh (networks s) v
  | OpCreateVolume _ v => fresh (volumes s) v
  | OpCreateKernel _ v => fresh (kernels s) v
  | OpUpdateKernel _ v => revises (kernels s) v
  | OpCreateToken _ v => fresh (tokens s) v
  | OpUpdateToken _ v => revises (tokens s) v
  | _ => True
  end.

(** The two outcomes that leave a definition on disk other than where memory
    has it: a renamed directory whose definition could not be rewritten, and
    a removal that failed after it removed the definition. *)
Definition halfway (o : op) : Prop :=
  match o with
  | OpRenameInstance None (Some _) _ _ => True
  | OpDeleteInstance (NotRemoved _ true) _ | OpDeleteSnapshot (NotRemoved _ true) _ => True
  | _ => False
  end.

(** The definitions in memory. *)
Definition memory (s : Store) :=
  ((byName (instances s), namesByID (instances s)), (byName (snapshots s), namesByID (snapshots s)),
   (byName (networks s), namesByID (networks s)), (byName (volumes s), namesByID (volumes s)),
   (byName (kernels s), namesByID (kernels s)), (byName (tokens s), namesByID (tokens s))).

Section Generic.

Context {A : Type} `{Named A}.

Lemma create_wf exists_err notFound check w (k : Kind A) v :
  kind_wf k → fresh k v → kind_wf (create exists_err notFound check w k v).2.
Proof.
  intros Hwf Hf. destruct (create _ _ _ _ _ _) as [r k'] eqn:E.
  apply create_cases in E as [[-> _]|(-> & _ & ? & ? & ?)]; [done|by apply put_fresh_wf].
Qed.

Lemma update_wf notFound check w (k : Kind A) v :
  kind_wf k → revises k v → kind_wf (update notFound check w k v).2.
Proof.
  intros Hwf Hf. destruct (update _ _ _ _ _) as [r k'] eqn:E.
  apply update_cases in E as [[-> _]|(-> & _)]; [done|by apply put_revise_wf].
Qed.

Lemma remove_wf notFound check w (k : Kind A) x :
  kind_wf k → kind_wf (remove notFound check w k x).2.
Proof.
  intros Hwf. destruct (remove _ _ _ _ _) as [r k'] eqn:E.
  apply remove_cases in E as [[-> _]|(v & u & -> & _ & _ & ? & _)]; [done|by apply drop_wf|done].
Qed.

Lemma create_synced exists_err notFound check w (k : Kind A) v :
  synced k → synced (create exists_err notFound check w k v).2.
Proof.
  intros Hs. destruct (create _ _ _ _ _ _) as [r k'] eqn:E.
  apply create_cases in E as [[-> _]|(-> & _)]; [done|by apply put_synced].
Qed.

Lemma update_synced notFound check w (k : Kind A) v :
  synced k → synced (update notFound check w k v).2.
Proof.
  intros Hs. destruct (update _ _ _ _ _) as [r k'] eqn:E.
  apply update_cases in E as [[-> _]|(-> & _)]; [done|by apply put_synced].
Qed.

Lemma remove_synced notFound check w (k : Kind A) x :
  kind_wf k → synced k → synced (remove notFound check w k x).2.
Proof.
  intros Hwf Hs. destruct (remove _ _ _ _ _) as [r k'] eqn:E.
  apply remove_cases in E as [[-> _]|(v & u & -> & _)]; [done|by apply drop_synced|done].
Qed.

(** A definition in memory is still there after a removal, unless it is the
    one removed. *)
Lemma remove_keeps notFound check w (k : Kind A) x r k' n :
  kind_wf k → remove notFound check w k x = (r, k') → is_Some (byName k !! n) →
  (∀ v u, check v = Ok u → byName k !! name_of v = Some v → n ≠ name_of v) → is_Some (byName k' !! n).
Proof.
  intros Hwf E Hn Hne. apply remove_cases in E as [[-> _]|(v & u & -> & _ & Hc & Hv & _)]; [done| |done].
  simpl. rewrite lookup_delete_ne; [done|]. apply not_eq_sym. by eapply Hne.
Qed.

Lemma put_grows (k k0 : Kind A) v n :
  byName k = byName k0 → is_Some (byName k0 !! n) → is_Some (byName (put k v) !! n).
Proof. intros E Hn. simpl. rewrite E. destruct (decide (n = name_of v)) as [->|]; by simplify_map_eq. Qed.

End Generic.

(** The instances of the store after a rename. *)
Lemma rename_cases rn w s x v r s' :
  kind_wf (instances s) → (∀ current, Instance s x = Ok current → Instance.ID v = Instance.ID current) →
  RenameInstance rn w s x v = (r, s') →
  (memory s' = memory s ∧ (s' = s ∨ (rn = None ∧ w ≠ None ∧ ∃ current,
     s' = set_instances s (mkKind (byName (instances s)) (namesByID (instances s))
       (<[name_of v := default None (files (instances s) !! name_of current)]>
         (delete (name_of current) (files (instances s))))) ∧
     byName (instances s) !! name_of current = Some current ∧ name_of v ≠ name_of current ∧
     byName (instances s) !! name_of v = None))) ∨
  (r = Ok tt ∧ checkReferences s v = Ok tt ∧ ∃ current fs,
     s' = set_instances s (put (mkKind (delete (name_of current) (byName (instances s))) (namesByID (instances s)) fs) v) ∧
     byName (instances s) !! name_of current = Some current ∧ id_of v = id_of current ∧ name_of v ≠ name_of current ∧
     Naming.valid_name (name_of v) ∧ byName (instances s) !! name_of v = None ∧
     namesByID (instances s) !! name_of v = None ∧
     fs = <[name_of v := writeDefinition v]> (<[name_of v := default None (files (instances s) !! name_of current)]>
            (delete (name_of current) (files (instances s))))).
Proof.
  intros Hwf Hid. unfold RenameInstance.
  destruct (Instance s x ≫= _) as [current|e] eqn:E; [|intros [= <- <-]; left; auto].
  apply bind_Ok in E as (c & Hfind & E). apply bind_Ok in E as ([] & Hrefs & E).
  apply bind_Ok in E as ([] & Hval & [= ->]).
  case_bool_decide as Hsame; [intros [= <- <-]; left; auto|].
  destruct (is_ok (Instance s (Instance.Name v))) eqn:Hok; [intros [= <- <-]; left; auto|].
  destruct rn as [e|]; [intros [= <- <-]; left; auto|].
  destruct (Instance s (Instance.Name v)) as [|e] eqn:Hno; [done|]. apply find_Err in Hno as [Hn1 Hn2].
  pose proof (find_Ok _ _ _ _ Hwf Hfind) as [Hcur _].
  destruct w as [e'|]; intros [= <- <-]; [left; split; [done|]; right; split_and!; [done..|by exists current]|]. right.
  split_and!; [done..|]. exists current. eexists. split_and!; try done; [by apply Hid|by apply Naming.Validate_Ok].
Qed.

Lemma CreateInstance_cases m w s v r s' :
  CreateInstance m w s v = (r, s') →
  (s' = s ∧ is_ok r = false) ∨
  (is_ok r = false ∧ byName (instances s) !! Instance.Name v = None ∧
   s' = set_instances s (mkKind (byName (instances s)) (namesByID (instances s))
     (partial_alter (λ old, Some (default None old)) (Instance.Name v) (files (instances s))))) ∨
  (r = Ok tt ∧ s' = set_instances s (put (write (instances s) v) v) ∧ checkReferences s v = Ok tt ∧
   Naming.valid_name (Instance.Name v) ∧ byName (instances s) !! Instance.Name v = None ∧
   namesByID (instances s) !! Instance.Name v = None).
Proof.
  unfold CreateInstance. destruct (Naming.Validate _ ≫= _) as [[]|e] eqn:E; [|intros [= <- <-]; auto].
  apply bind_Ok in E as ([] & Hval & E). apply bind_Ok in E as ([] & Hex & Hrefs).
  apply refuse_if_Ok in Hex. destruct (Instance s (Instance.Name v)) as [|e] eqn:Hno; [done|].
  apply find_Err in Hno as [Hn1 Hn2].
  destruct m; [intros [= <- <-]; auto|]. destruct w; intros [= <- <-]; [auto|].
  right. right. split_and!; try done. by apply Naming.Validate_Ok.
Qed.

Lemma CreateSnapshot_cases w rn s v r s' :
  CreateSnapshot w rn s v = (r, s') →
  (s' = s ∧ is_ok r = false) ∨
  (r = Ok tt ∧ s' = set_snapshots s (put (write (snapshots s) v) v) ∧
   checkReferences s (Snapshot.Instance v) = Ok tt ∧
   Naming.valid_name (Snapshot.Name v) ∧ byName (snapshots s) !! Snapshot.Name v = None ∧
   namesByID (snapshots s) !! Snapshot.Name v = None).
Proof.
  unfold CreateSnapshot. destruct (Naming.Validate _ ≫= _) as [[]|e] eqn:E; [|intros [= <- <-]; auto].
  apply bind_Ok in E as ([] & Hval & E). apply bind_Ok in E as ([] & Hex & Hrefs).
  apply refuse_if_Ok in Hex. destruct (Snapshot s (Snapshot.Name v)) as [|e] eqn:Hno; [done|].
  apply find_Err in Hno as [Hn1 Hn2].
  destruct w; [intros [= <- <-]; auto|]. destruct rn; intros [= <- <-]; [auto|].
  right. split_and!; try done. by apply Naming.Validate_Ok.
Qed.

Lemma RecordTokenUse_cases w s x t r s' :
  store_wf s → RecordTokenUse w s x t = (r, s') →
  (s' = s ∧ is_ok r = false) ∨
  (r = Ok tt ∧ ∃ v, s' = set_tokens s (put (write (tokens s) v) v) ∧ revises (tokens s) v).
Proof.
  intros (_ & _ & _ & _ & _ & Hwf). unfold RecordTokenUse.
  destruct (Token s x) as [v|e] eqn:E; [|intros [= <- <-]; auto]. destruct w; intros [= <- <-]; [auto|].
  right. split; [done|]. eexists. split; [done|]. exists v.
  apply (find_Ok _ _ _ _ Hwf) in E as [Hv _]. done.
Qed.

(** Reduces a write of one kind to the lemma on creating, updating or removing
    a definition of that kind. *)
Tactic Notation "by_kind" uconstr(lc) uconstr(lu) uconstr(lr) :=
  lazymatch goal with
  | |- context [create ?e ?n ?c ?w ?k ?v] => pose proof (lc e n c w k v); destruct (create e n c w k v)
  | |- context [update ?n ?c ?w ?k ?v] => pose proof (lu n c w k v); destruct (update n c w k v)
  | |- context [remove ?n ?c ?w ?k ?x] => pose proof (lr n c w k x); destruct (remove n c w k x)
  end; simpl in *; tauto.

Ltac unfold_ops :=
  unfold UpdateInstance, CreateNetwork, DeleteNetwork, CreateVolume, DeleteVolume, CreateKernel, UpdateKernel,
    DeleteKernel, CreateToken, UpdateToken, DeleteToken.

Lemma run_wf s o : store_wf s → respects s o → store_wf (run o s).2.
Proof.
  intros Hs Hr. pose proof Hs as (Hi & Hsn & Hn & Hv & Hk & Ht). unfold store_wf.
  destruct o; simpl in Hr |- *; unfold_ops; try (by_kind create_wf update_wf remove_wf).
  - destruct (CreateInstance _ _ _ _) as [r s'] eqn:E. destruct Hr as [Hf _].
    apply CreateInstance_cases in E as [[-> _]|[(_ & _ & ->)|(_ & -> & _ & ? & ? & ?)]]; [done|done|].
    split; [by apply put_fresh_wf|done].
  - destruct (RenameInstance _ _ _ _ _) as [r s'] eqn:E. destruct Hr as [_ Hid].
    apply rename_cases in E as [[Hm _]|(_ & _ & c & fs & -> & ? & ? & ? & ? & ? & ? & _)]; [| |done..].
    + unfold memory in Hm. injection Hm as E1 E2 E3 E4 E5 E6 E7 E8 E9 E10 E11 E12.
      unfold store_wf, kind_wf in *. simpl in *. rewrite E1, E2, E3, E4, E5, E6, E7, E8, E9, E10, E11, E12. done.
    + split; [by apply rename_wf|done].
  - unfold DeleteInstance. destruct (Instance s nameOrID) as [v|e] eqn:E; [|done].
    apply (find_Ok _ _ _ _ Hi) in E as [Hv' _].
    destruct removed as [|e []]; [|done..]. split; [by apply drop_wf|done].
  - destruct (CreateSnapshot _ _ _ _) as [r s'] eqn:E. destruct Hr as [Hf _].
    apply CreateSnapshot_cases in E as [[-> _]|(_ & -> & _ & ? & ? & ?)]; [done|].
    split_and!; try done. by apply put_fresh_wf.
  - unfold DeleteSnapshot. destruct (Snapshot s nameOrID) as [v|e] eqn:E; [|done].
    apply (find_Ok _ _ _ _ Hsn) in E as [Hv' _].
    destruct removed as [|e []]; [|done..]. split_and!; try done. by apply drop_wf.
  - destruct (RecordTokenUse _ _ _ _) as [r s'] eqn:E.
    apply RecordTokenUse_cases in E as [[-> _]|(_ & v & -> & ?)]; [done| |done].
    split_and!; try done. by apply put_revise_wf.
Qed.

(** What is read of files that change. *)
Lemma read_insert {A} `{Named A} (fs : gmap string (option Yaml.node)) n m x :
  <[n := x]> fs !! m ≫= readDefinition (A:=A) = if decide (m = n) then readDefinition x else fs !! m ≫= readDefinition.
Proof. case_decide as Hm; [by rewrite Hm, lookup_insert_eq|by rewrite lookup_insert_ne]. Qed.

Lemma read_delete {A} `{Named A} (fs : gmap string (option Yaml.node)) n m :
  delete n fs !! m ≫= readDefinition (A:=A) = if decide (m = n) then None else fs !! m ≫= readDefinition.
Proof. case_decide as Hm; [by rewrite Hm, lookup_delete_eq|by rewrite lookup_delete_ne]. Qed.

(** A directory that is made holds no definition yet. *)
Lemma read_made {A} `{Named A} (fs : gmap string (option Yaml.node)) n m :
  partial_alter (λ old, Some (default None old)) n fs !! m ≫= readDefinition = fs !! m ≫= readDefinition.
Proof.
  destruct (decide (m = n)) as [->|]; [|by rewrite lookup_partial_alter_ne].
  rewrite lookup_partial_alter_eq. by destruct (fs !! n).
Qed.

Lemma made_synced (k : Kind Instance.Spec) n :
  synced k → synced (mkKind (byName k) (namesByID k) (partial_alter (λ old, Some (default None old)) n (files k))).
Proof. intros Hs m v. unfold placed. simpl. rewrite read_made. apply Hs. Qed.

Lemma run_synced s o : store_wf s → store_synced s → respects s o → ¬ halfway o → store_synced (run o s).2.
Proof.
  intros Hwf (Hi & Hsn & Hn & Hv & Hk & Ht) Hr Hh. pose proof Hwf as (Wi & Wsn & Wn & Wv & Wk & Wt).
  unfold store_synced. destruct o; simpl in Hr, Hh |- *; unfold_ops;
    try (by_kind create_synced update_synced remove_synced).
  - destruct (CreateInstance _ _ _ _) as [r s'] eqn:E.
    apply CreateInstance_cases in E as [[-> _]|[(_ & Hno & ->)|(_ & -> & _)]]; [done| |].
    + split; [by apply made_synced|done].
    + split; [by apply put_synced|done].
  - destruct (RenameInstance _ _ _ _ _) as [r s'] eqn:E. destruct Hr as [_ Hid].
    apply rename_cases in E as [[_ [->|(-> & Hw & _)]]|(_ & _ & c & fs & -> & Hc & Hidc & Hne & _ & Hnone & _ & ->)];
      [done|by destruct write_err| |done..].
    split; [|done]. intros n w. unfold placed. simpl. rewrite !read_insert, read_delete. case_decide as Hn1.
    { rewrite Hn1, lookup_insert_eq, read_write. naive_solver. }
    rewrite !lookup_insert_ne by done. case_decide as Hn2; [rewrite Hn2, lookup_delete_eq; naive_solver|].
    rewrite !lookup_delete_ne by done. apply Hi.
  - unfold DeleteInstance. destruct (Instance s nameOrID) as [v|e]; [|done].
    destruct removed as [|e []]; [|done..]. split; [exact (drop_synced _ v Hi)|done].
  - destruct (CreateSnapshot _ _ _ _) as [r s'] eqn:E.
    apply CreateSnapshot_cases in E as [[-> _]|(_ & -> & _)]; [done|]. split_and!; try done. by apply put_synced.
  - unfold DeleteSnapshot. destruct (Snapshot s nameOrID) as [v|e]; [|done].
    destruct removed as [|e []]; [|done..]. split_and!; try done. exact (drop_synced _ v Hsn).
  - destruct (RecordTokenUse _ _ _ _) as [r s'] eqn:E.
    apply RecordTokenUse_cases in E as [[-> _]|(_ & v & -> & ?)]; [done| |done].
    split_and!; try done. by apply put_synced.
Qed.

(** References hold while what they name stays. *)
Lemma named_refs_mono s s' spec :
  (∀ n, is_Some (byName (kernels s) !! n) → n = Instance.KernelName spec → is_Some (byName (kernels s') !! n)) →
  (∀ n, is_Some (byName (networks s) !! n) → n = Instance.NetworkName spec → is_Some (byName (networks s') !! n)) →
  (∀ n m, is_Some (byName (volumes s) !! n) → m ∈ Instance.Mounts spec →
     Instance.Mount_Type m = Instance.MountTypeVolume → n = Instance.Source m → is_Some (byName (volumes s') !! n)) →
  named_refs s spec → named_refs s' spec.
Proof. intros Hk Hn Hv (H1 & H2 & H3). split_and!; [by apply Hk|by apply Hn|]. intros m Hm Ht. by eapply Hv; [apply H3|..]. Qed.

Lemma store_refs_grow s s' :
  instances s' = instances s → snapshots s' = snapshots s →
  (∀ n, is_Some (byName (kernels s) !! n) → is_Some (byName (kernels s') !! n)) →
  (∀ n, is_Some (byName (networks s) !! n) → is_Some (byName (networks s') !! n)) →
  (∀ n, is_Some (byName (volumes s) !! n) → is_Some (byName (volumes s') !! n)) →
  store_refs s → store_refs s'.
Proof.
  intros Ei Es Hk Hn Hv [H1 H2]. unfold store_refs. rewrite Ei, Es.
  split; intros n v Hnv; (eapply named_refs_mono; [..|by eauto]); eauto.
Qed.

(** Removing a definition nothing refers to keeps every reference. *)
Lemma store_refs_remove s s' uses e1 e2 u :
  checkUnused s uses e1 e2 = Ok u → instances s' = instances s → snapshots s' = snapshots s →
  (∀ spec, uses spec = false → named_refs s spec → named_refs s' spec) → store_refs s → store_refs s'.
Proof.
  intros Hc Ei Es Hkeep [H1 H2]. apply checkUnused_Ok in Hc as [U1 U2]. unfold store_refs. rewrite Ei, Es.
  split; intros n v Hnv; apply Hkeep; eauto.
Qed.

(** Changing the instances, or the snapshots, keeps the references if each
    definition that is there afterwards has its own. *)
Lemma store_refs_instances s k :
  store_refs s → (∀ n v, byName k !! n = Some v → byName (instances s) !! n = Some v ∨ named_refs s v) →
  store_refs (set_instances s k).
Proof.
  intros [H1 H2] Hk. split; [|exact H2]. intros n v Hv.
  destruct (Hk n v Hv) as [Hold|Hnew]; [exact (H1 n v Hold)|exact Hnew].
Qed.

Lemma store_refs_snapshots s k :
  store_refs s →
  (∀ n v, byName k !! n = Some v → byName (snapshots s) !! n = Some v ∨ named_refs s (Snapshot.Instance v)) →
  store_refs (set_snapshots s k).
Proof.
  intros [H1 H2] Hk. split; [exact H1|]. intros n v Hv.
  destruct (Hk n v Hv) as [Hold|Hnew]; [exact (H2 n v Hold)|exact Hnew].
Qed.

Lemma put_lookup {A} `{Named A} (k : Kind A) v n w :
  byName (put k v) !! n = Some w → byName k !! n = Some w ∨ w = v.
Proof. simpl. intros [[_ <-]|[_ ?]]%lookup_insert_Some; auto. Qed.

Lemma delete_kind_refs s o : store_wf s → store_refs s →
  match o with OpDeleteNetwork _ _ | OpDeleteVolume _ _ | OpDeleteKernel _ _ => store_refs (run o s).2 | _ => True end.
Proof.
  intros (_ & _ & Wn & Wv & Wk & _) Hrefs. destruct o; try done; simpl; unfold_ops.
  - destruct (remove _ _ _ _ _) as [r k'] eqn:E. simpl.
    pose proof E as [[-> _]|(v & u & -> & _ & Hc & Hv & _)]%remove_cases; [by destruct s|..|done].
    eapply store_refs_remove; [exact Hc|done..|intros spec Huse Hr|done]. cbv beta in Huse. simpl_bools.
    eapply named_refs_mono; [..|exact Hr]; simpl; [eauto..|]; [|eauto].
    intros n Hn ->. by rewrite lookup_delete_ne by (cbn; congruence).
  - destruct (remove _ _ _ _ _) as [r k'] eqn:E. simpl.
    pose proof E as [[-> _]|(v & u & -> & _ & Hc & Hv & _)]%remove_cases; [by destruct s|..|done].
    eapply store_refs_remove; [exact Hc|done..|intros spec Huse Hr|done]. cbv beta in Huse.
    destruct (Instance.VolumeMount spec (Volume.Name v)) eqn:Hvm; [done|]. rewrite VolumeMount_None in Hvm.
    eapply named_refs_mono; [..|exact Hr]; simpl; [eauto..|].
    intros n m Hn Hm Ht ->. specialize (Hvm m Hm Ht). by rewrite lookup_delete_ne by (cbn; congruence).
  - destruct (remove _ _ _ _ _) as [r k'] eqn:E. simpl.
    pose proof E as [[-> _]|(v & u & -> & _ & Hc & Hv & _)]%remove_cases; [by destruct s|..|done].
    eapply store_refs_remove; [exact Hc|done..|intros spec Huse Hr|done]. cbv beta in Huse. simpl_bools.
    eapply named_refs_mono; [..|exact Hr]; simpl; [|eauto..].
    intros n Hn ->. by rewrite lookup_delete_ne by (cbn; congruence).
Qed.

Lemma run_refs s o : store_wf s → store_refs s → respects s o → store_refs (run o s).2.
Proof.
  intros Hwf Hrefs Hr. pose proof (delete_kind_refs s o Hwf Hrefs) as Hdel.
  destruct o; try exact Hdel; clear Hdel; simpl in Hr |- *; unfold_ops.
  - destruct (CreateInstance _ _ _ _) as [r s'] eqn:E. destruct Hr as [_ Hn].
    apply CreateInstance_cases in E as [[-> _]|[(_ & _ & ->)|(_ & -> & Hc & _)]]; [done|done|].
    apply store_refs_instances; [done|]. intros n w [Hw| ->]%put_lookup; [by left|right].
    by apply checkReferences_Ok.
  - destruct (update _ _ _ _ _) as [r k'] eqn:E. destruct Hr as [_ Hn]. simpl.
    apply update_cases in E as [[-> _]|(-> & _ & Hc)]; apply store_refs_instances; try done; [auto|].
    intros n w [Hw| ->]%put_lookup; [by left|right]. by apply checkReferences_Ok.
  - destruct (RenameInstance _ _ _ _ _) as [r s'] eqn:E. destruct Hr as [Hn Hid].
    apply rename_cases in E as [[Hm _]|(_ & Hc & c & fs & -> & _)]; [| |apply Hwf|done].
    + unfold memory in Hm. injection Hm as E1 _ E3 _ E5 _ E7 _ E9 _ _ _. destruct Hrefs as [H1 H2].
      unfold store_refs, named_refs in *. simpl in *. rewrite E1, E3, E5, E7, E9. done.
    + apply store_refs_instances; [done|]. intros n w [Hw| ->]%put_lookup.
      * simpl in Hw. apply lookup_delete_Some in Hw as [_ ?]. by left.
      * right. by apply checkReferences_Ok.
  - unfold DeleteInstance. destruct (Instance s nameOrID) as [v|e]; [|done].
    destruct removed as [|e []]; [|done..]. apply store_refs_instances; [done|].
    intros n w Hw. simpl in Hw. apply lookup_delete_Some in Hw as [_ ?]. by left.
  - destruct (CreateSnapshot _ _ _ _) as [r s'] eqn:E. destruct Hr as [_ Hn].
    apply CreateSnapshot_cases in E as [[-> _]|(_ & -> & Hc & _)]; [done|].
    apply store_refs_snapshots; [done|]. intros n w [Hw| ->]%put_lookup; [by left|right].
    by apply checkReferences_Ok.
  - unfold DeleteSnapshot. destruct (Snapshot s nameOrID) as [v|e]; [|done].
    destruct removed as [|e []]; [|done..]. apply store_refs_snapshots; [done|].
    intros n w Hw. simpl in Hw. apply lookup_delete_Some in Hw as [_ ?]. by left.
  - destruct (create _ _ _ _ _ _) as [r k'] eqn:E. apply (store_refs_grow s); simpl; try done.
    apply create_cases in E as [[-> _]|(-> & _)]; [done|]. intros n Hn. exact (put_grows (write _ v) _ v n eq_refl Hn).
  - destruct (create _ _ _ _ _ _) as [r k'] eqn:E. apply (store_refs_grow s); simpl; try done.
    apply create_cases in E as [[-> _]|(-> & _)]; [done|]. intros n Hn. exact (put_grows (write _ v) _ v n eq_refl Hn).
  - destruct (create _ _ _ _ _ _) as [r k'] eqn:E. apply (store_refs_grow s); simpl; try done.
    apply create_cases in E as [[-> _]|(-> & _)]; [done|]. intros n Hn. exact (put_grows (write _ v) _ v n eq_refl Hn).
  - destruct (update _ _ _ _ _) as [r k'] eqn:E. apply (store_refs_grow s); simpl; try done.
    apply update_cases in E as [[-> _]|(-> & _)]; [done|]. intros n Hn. exact (put_grows (write _ v) _ v n eq_refl Hn).
  - destruct (create _ _ _ _ _ _) as [r k'] eqn:E. exact Hrefs.
  - destruct (update _ _ _ _ _) as [r k'] eqn:E. exact Hrefs.
  - destruct (RecordTokenUse _ _ _ _) as [r s'] eqn:E.
    apply RecordTokenUse_cases in E as [[-> _]|(_ & v & -> & ?)]; done.
  - destruct (remove _ _ _ _ _) as [r k'] eqn:E. exact Hrefs.
Qed.

(** *** Restarts *)

(** What the files of a kind may be besides in step with memory: a definition
    may be missing, or be in a directory that is not its own, where it is
    skipped. *)
Definition kept {A} `{Named A} (k : Kind A) : Prop :=
  (∀ n v, placed (files k) n v → byName k !! n = Some v) ∧
  (∀ n v w, byName k !! n = Some v → files k !! n ≫= readDefinition = Some w → w = v).

Section Restart.

Context {A : Type} `{Named A}.

Lemma synced_kept (k : Kind A) : synced k → kept k.
Proof. intros Hs. split; [intros n v; apply Hs|]. intros n v w [Hf _]%Hs Hw. congruence. Qed.

Lemma put_kept (k : Kind A) v : kept k → kept (put (write k v) v).
Proof.
  intros [H1 H2]. split; simpl.
  - intros n w [Hw Hn]. simpl in Hw. rewrite read_insert in Hw. case_decide as E.
    + rewrite E, lookup_insert_eq. rewrite read_write in Hw. congruence.
    + rewrite lookup_insert_ne by done. by apply H1.
  - intros n w w'. rewrite read_insert. case_decide as E.
    + rewrite E, lookup_insert_eq, read_write. congruence.
    + rewrite !lookup_insert_ne by done. apply H2.
Qed.

Lemma drop_kept (k : Kind A) v : kept k → kept (drop_mem (unlink k (name_of v)) v).
Proof.
  intros [H1 H2]. split; simpl.
  - intros n w [Hw Hn]. rewrite read_delete in Hw. case_decide; [done|]. rewrite lookup_delete_ne by done. by apply H1.
  - intros n w w' [_ Hw]%lookup_delete_Some. rewrite read_delete. case_decide; [done|]. by apply H2.
Qed.

(** A directory moved under a new name, with the old definition in it. *)
Lemma moved_kept (k : Kind A) c n :
  kept k → byName k !! name_of c = Some c → n ≠ name_of c → byName k !! n = None →
  kept (mkKind (byName k) (namesByID k) (<[n := default None (files k !! name_of c)]> (delete (name_of c) (files k)))).
Proof.
  intros [H1 H2] Hc Hne Hno. split; simpl.
  - intros m w [Hw Hn]. rewrite read_insert, read_delete in Hw. repeat case_decide; [|done|by apply H1].
    destruct (files k !! name_of c) as [f|] eqn:E; [|done]. simpl in Hw.
    rewrite (H2 (name_of c) c w) in Hn; [congruence|done|by rewrite E].
  - intros m w w' Hw. rewrite read_insert, read_delete. repeat case_decide; [congruence|done|by apply H2].
Qed.

(** The same, with the new definition written in it. *)
Lemma renamed_kept (k : Kind A) c v ids :
  kept k → kept (put (mkKind (delete (name_of c) (byName k)) ids (<[name_of v := writeDefinition v]> (delete (name_of c) (files k)))) v).
Proof.
  intros Hk. exact (put_kept (mkKind (delete (name_of c) (byName k)) ids (delete (name_of c) (files k))) v (drop_kept k c Hk)).
Qed.

(** A directory made, with no definition in it yet, and one whose definition is
    gone. *)
Lemma made_kept (k : Kind A) n :
  kept k → byName k !! n = None →
  kept (mkKind (byName k) (namesByID k) (partial_alter (λ old, Some (default None old)) n (files k))).
Proof.
  intros [H1 H2] Hno. split; simpl.
  - intros m w [Hf Hw]. apply H1. split; [|done]. by rewrite read_made in Hf.
  - intros m w w' Hw. rewrite read_made. by apply H2.
Qed.

Lemma unreadable_kept (k : Kind A) n : kept k → kept (mkKind (byName k) (namesByID k) (<[n := None]> (files k))).
Proof.
  intros [H1 H2]. split; simpl.
  - intros m w [Hw Hn]. rewrite read_insert in Hw. case_decide; [done|]. by apply H1.
  - intros m w w' Hw. rewrite read_insert. case_decide; [done|]. by apply H2.
Qed.

(** What a restart finds was there, and is as well formed. *)
Lemma load_kept (k : Kind A) : kind_wf k → kept k →
  kind_wf (load (files k)) ∧ synced (load (files k)) ∧ ∀ n v, byName (load (files k)) !! n = Some v → byName k !! n = Some v.
Proof.
  intros [H1 H2] [K1 K2].
  assert (∀ n n' v v', placed (files k) n v → placed (files k) n' v' → id_of v = id_of v' → n = n') as Huniq.
  { intros n n' v v' Hp%K1 Hp'%K1 E. destruct (H1 _ _ Hp) as (_ & _ & E1 & _), (H1 _ _ Hp') as (_ & _ & E2 & _). congruence. }
  split_and!.
  - split.
    + intros n v Hp. rewrite load_byName in Hp. destruct (H1 _ _ (K1 _ _ Hp)) as (? & ? & Hi & Hno & ?).
      split_and!; try done; [rewrite load_namesByID by done; eauto|].
      apply eq_None_ne_Some. intros n' (_ & w & Hw%K1 & <-)%(load_namesByID _ _ _ Huniq).
      destruct (H1 _ _ Hw) as (_ & _ & ? & _). congruence.
    + intros i n (_ & w & Hw & <-)%(load_namesByID _ _ _ Huniq). exists w. by rewrite load_byName.
  - intros n v. by rewrite load_files, load_byName.
  - intros n v. rewrite load_byName. apply K1.
Qed.

End Restart.

(** The kinds whose files are always in step, and those that are kept. *)
Definition store_kept (s : Store) : Prop :=
  kept (instances s) ∧ kept (snapshots s) ∧ synced (networks s) ∧
  synced (volumes s) ∧ synced (kernels s) ∧ synced (tokens s).

Lemma run_kept s o : store_wf s → store_kept s → respects s o → store_kept (run o s).2.
Proof.
  intros Hwf (Hi & Hsn & Hn & Hv & Hk & Ht) Hr. pose proof Hwf as (Wi & Wsn & Wn & Wv & Wk & Wt).
  unfold store_kept. destruct o; simpl in Hr |- *; unfold_ops;
    try (by_kind create_synced update_synced remove_synced).
  - destruct (CreateInstance _ _ _ _) as [r s'] eqn:E.
    apply CreateInstance_cases in E as [[-> _]|[(_ & Hno & ->)|(_ & -> & _)]]; [done| |].
    + split; [by apply made_kept|done].
    + split; [by apply put_kept|done].
  - destruct (update _ _ _ _ _) as [r k'] eqn:E. simpl. split; [|done].
    apply update_cases in E as [[-> _]|(-> & _)]; [done|by apply put_kept].
  - destruct (RenameInstance _ _ _ _ _) as [r s'] eqn:E. destruct Hr as [_ Hid].
    apply rename_cases in E as [[_ [->|(_ & _ & c & -> & Hc & Hne & Hno)]]|(_ & _ & c & fs & -> & Hc & _ & Hne & _ & Hno & _ & ->)];
      [done| | |done..]; (split; [|done]).
    + by apply moved_kept.
    + rewrite insert_insert_eq. apply renamed_kept; done.
  - unfold DeleteInstance. destruct (Instance s nameOrID) as [v|e]; [|done].
    destruct removed as [|e []]; [split; [exact (drop_kept _ v Hi)|done]| |done].
    split; [by apply unreadable_kept|done].
  - destruct (CreateSnapshot _ _ _ _) as [r s'] eqn:E.
    apply CreateSnapshot_cases in E as [[-> _]|(_ & -> & _)]; [done|]. split_and!; try done. by apply put_kept.
  - unfold DeleteSnapshot. destruct (Snapshot s nameOrID) as [v|e]; [|done].
    destruct removed as [|e []]; [split_and!; try done; exact (drop_kept _ v Hsn)| |done].
    split_and!; try done. by apply unreadable_kept.
  - destruct (RecordTokenUse _ _ _ _) as [r s'] eqn:E.
    apply RecordTokenUse_cases in E as [[-> _]|(_ & v & -> & ?)]; [done| |done].
    split_and!; try done. by apply put_synced.
Qed.

(** *** Reachable stores *)

(** A store opened over empty directories. *)
Definition empty_store : Store :=
  mkStore (empty_kind ∅) (empty_kind ∅) (empty_kind ∅) (empty_kind ∅) (empty_kind ∅) (empty_kind ∅).

(** The stores reached by writes, whatever becomes of the file operations
    they make, and by restarts. *)
Inductive reachable : Store → Prop :=
  | reachable_empty : reachable empty_store
  | reachable_run s o : reachable s → respects s o → reachable (run o s).2
  | reachable_restart s : reachable s → reachable (New s).

(** Those reached without an outcome that leaves disk and memory apart. *)
Inductive reachable_whole : Store → Prop :=
  | whole_empty : reachable_whole empty_store
  | whole_run s o : reachable_whole s → respects s o → ¬ halfway o → reachable_whole (run o s).2
  | whole_restart s : reachable_whole s → reachable_whole (New s).

Lemma empty_ok : store_wf empty_store ∧ store_synced empty_store ∧ store_refs empty_store.
Proof.
  split_and!; unfold store_wf, store_synced, store_refs, kind_wf, synced, placed; simpl;
    split_and!; intros *; rewrite ?lookup_empty; naive_solver.
Qed.

Lemma New_synced s : store_wf s → store_synced s → New s = s.
Proof.
  intros (? & ? & ? & ? & ? & ?) (? & ? & ? & ? & ? & ?). unfold_loads. rewrite !load_synced by done. by destruct s.
Qed.

(** A restart keeps the references of what it finds. *)
Lemma New_ok s : store_wf s → store_kept s → store_refs s → store_wf (New s) ∧ store_kept (New s) ∧ store_refs (New s).
Proof.
  intros (Wi & Wsn & Wn & Wv & Wk & Wt) (Hi & Hsn & Hn & Hv & Hk & Ht) [R1 R2].
  destruct (load_kept _ Wi Hi) as (Wi' & Si & Ei), (load_kept _ Wsn Hsn) as (Wsn' & Ssn & Esn).
  unfold_loads. unfold store_refs, named_refs, store_wf, store_kept. simpl.
  rewrite (load_synced _ Wn Hn), (load_synced _ Wv Hv), (load_synced _ Wk Hk), (load_synced _ Wt Ht).
  split_and!; try done; try by apply synced_kept.
  - intros n v Hn'. exact (R1 n v (Ei n v Hn')).
  - intros n v Hn'. exact (R2 n v (Esn n v Hn')).
Qed.

Lemma store_reachable_ok s : reachable s → store_wf s ∧ store_kept s ∧ store_refs s.
Proof.
  induction 1 as [|s o _ (? & ? & ?) Hr|s _ (? & ? & ?)]; [| |by apply New_ok].
  - destruct empty_ok as (? & (? & ? & ? & ? & ? & ?) & ?). split_and!; try done. split_and!; try done; by apply synced_kept.
  - split_and!; [by apply run_wf|by apply run_kept|by apply run_refs].
Qed.

Lemma whole_ok s : reachable_whole s → store_wf s ∧ store_synced s.
Proof.
  induction 1 as [|s o _ (? & ?) Hr Hh|s _ (? & ?)]; [by destruct empty_ok as (? & ? & ?)| |by rewrite New_synced].
  split; [by apply run_wf|by apply run_synced].
Qed.

(** C23: in every store that is reached by writes of definitions that refer to
    others by their names, whatever becomes of the file operations, and by
    restarts: each instance and each snapshot's instance has its kernel, its
    network and every volume it mounts, and the lookups of these definitions find
    them. A reference by ID, which the store accepts as well, does not keep what it
    refers to from being deleted. *)
Theorem referential_integrity s spec :
  reachable s → (spec ∈ Instances s ∨ ∃ sn, sn ∈ Snapshots s ∧ spec = Snapshot.Instance sn) →
  (∃ k, Kernel s (Instance.KernelName spec) = Ok k ∧ k ∈ Kernels s) ∧
  (∃ n, Network s (Instance.NetworkName spec) = Ok n ∧ n ∈ Networks s) ∧
  ∀ m, m ∈ Instance.Mounts spec → Instance.Mount_Type m = Instance.MountTypeVolume →
    ∃ v, Volume s (Instance.Source m) = Ok v ∧ v ∈ Volumes s.
Proof.
  intros (_ & _ & R1 & R2)%store_reachable_ok Hspec.
  assert (named_refs s spec) as (Hk & Hn & Hv).
  { destruct Hspec as [[n Hn]%elem_of_sorted_values|(sn & [n Hn]%elem_of_sorted_values & ->)]; eauto. }
  assert (∀ A `{Named A} (k : Kind A) e n, is_Some (byName k !! n) → ∃ v, find e k n = Ok v ∧ v ∈ all k) as Hfind.
  { intros A HA k e n [v Hnv]. exists v. unfold find. rewrite Hnv. split; [done|]. apply elem_of_sorted_values. eauto. }
  split_and!; [by apply Hfind..|]. intros m Hm Ht. by apply Hfind, Hv.
Qed.

(** A lookup finds a definition by its name and by its ID and by nothing
    else, so that no two definitions of a kind have a name or an ID in
    common. Stated for instances; [find_by] and [find_Ok] hold for each
    kind. *)
Theorem lookup_by_name_or_id s x spec :
  reachable s → Instance s x = Ok spec ↔ spec ∈ Instances s ∧ (x = Instance.Name spec ∨ x = Instance.ID spec).
Proof.
  intros ((Wi & _) & _)%store_reachable_ok. split.
  - intros Hf. apply (find_Ok _ _ _ _ Wi) in Hf as [Hn Hx]. split; [|done]. apply elem_of_sorted_values. eauto.
  - intros [[n Hn]%elem_of_sorted_values Hx]. destruct (find_by (NotFound "no instance %q") _ _ _ Wi Hn) as [F1 F2].
    destruct (proj1 Wi _ _ Hn) as [<- _]. by destruct Hx as [->| ->].
Qed.

(** C25: restarting the daemon changes nothing: reading every definition back,
    each from the document that its fields were written to under the tags of its
    type, gives the store as it was in memory, unless a rename or a removal failed
    halfway. *)
Theorem restart_is_identity s : reachable_whole s → New s = s.
Proof. intros [Hwf Hs]%whole_ok. by apply New_synced. Qed.

(** C26: a write that returns an error leaves every definition in memory as it
    was, whichever file operation failed. *)
Theorem failed_write_changes_nothing s o e : (run o s).1 = Err e → memory (run o s).2 = memory s.
Proof.
  destruct o; simpl; unfold_ops.
  all: try lazymatch goal with
  | |- context [create ?e ?n ?c ?w ?k ?v] =>
      destruct (create e n c w k v) as [r k'] eqn:E; apply create_cases in E as [[-> _]|(_ & -> & _)]
  | |- context [update ?n ?c ?w ?k ?v] =>
      destruct (update n c w k v) as [r k'] eqn:E; apply update_cases in E as [[-> _]|(_ & -> & _)]
  | |- context [remove ?n ?c ?w ?k ?x] => unfold remove; destruct (find n k x ≫= _); [destruct w|]
  end; try done.
  - destruct (CreateInstance _ _ _ _) as [r s'] eqn:E.
    by apply CreateInstance_cases in E as [[-> _]|[(_ & _ & ->)|(-> & _)]].
  - unfold RenameInstance. repeat case_match; done.
  - unfold DeleteInstance. repeat case_match; done.
  - destruct (CreateSnapshot _ _ _ _) as [r s'] eqn:E. by apply CreateSnapshot_cases in E as [[-> _]|(-> & _)].
  - unfold DeleteSnapshot. repeat case_match; done.
  - unfold RecordTokenUse. repeat case_match; done.
Qed.

(** *** A concrete store *)

Definition example_kernel : Kernel.Kernel := Kernel.mkKernel "k1" "vmlinux-6.1" "x86_64" "" 0 0.

Definition example_network : Network.Network :=
  Network.mkNetwork "n1" "default" "172.18.0.1" "172.18.0.0/24" "dicer0" [] 1500 false false 0 0.

Definition example_volume : Volume.Volume := Volume.mkVolume "v1" "data" "data.img" 1073741824 0 0.

Definition example_ops : list op :=
  [OpCreateKernel None example_kernel; OpCreateNetwork None example_network; OpCreateVolume None example_volume;
   OpCreateInstance None None Instance.example_spec].

Definition run_all (ops : list op) (s : Store) : Store := foldl (λ s o, (run o s).2) s ops.

Definition example_store : Store := run_all example_ops empty_store.

(** Settles [respects] of a concrete store and write. *)
Ltac solve_respects :=
  repeat split;
  first [ by vm_compute
        | apply Forall_forall; refine (bool_decide_unpack _ _); vm_compute; exact I ].

Lemma example_store_reachable : reachable example_store.
Proof.
  change example_store with (run (OpCreateInstance None None Instance.example_spec)
    (run (OpCreateVolume None example_volume) (run (OpCreateNetwork None example_network)
      (run (OpCreateKernel None example_kernel) empty_store).2).2).2).2.
  repeat apply reachable_run; [apply reachable_empty|..]; solve_respects.
Qed.

Lemma example_whole : reachable_whole example_store.
Proof.
  change example_store with (run (OpCreateInstance None None Instance.example_spec)
    (run (OpCreateVolume None example_volume) (run (OpCreateNetwork None example_network)
      (run (OpCreateKernel None example_kernel) empty_store).2).2).2).2.
  repeat apply whole_run; [apply whole_empty|..]; first [by intros []|solve_respects].
Qed.

Lemma example_Instances : Instances example_store = [Instance.example_spec].
Proof. vm_compute. reflexivity. Qed.

Lemma referential_integrity_witness :
  reachable example_store ∧ (Instance.example_spec ∈ Instances example_store) ∧
  ∃ n, Network example_store "default" = Ok n ∧ n ∈ Networks example_store.
Proof.
  assert (Instance.example_spec ∈ Instances example_store) as Hin by (rewrite example_Instances; left).
  split_and!; [exact example_store_reachable|exact Hin|].
  destruct (referential_integrity example_store Instance.example_spec example_store_reachable (or_introl Hin)) as (_ & H & _).
  exact H.
Defined.

Lemma lookup_by_name_or_id_witness :
  reachable example_store ∧ Instance example_store "i1" = Ok Instance.example_spec.
Proof.
  split; [exact example_store_reachable|].
  apply (lookup_by_name_or_id example_store "i1" Instance.example_spec example_store_reachable).
  rewrite example_Instances. split; [left|by right].
Defined.

Lemma restart_is_identity_witness : reachable_whole example_store ∧ New example_store = example_store.
Proof. split; [exact example_whole|exact (restart_is_identity example_store example_whole)]. Defined.

Lemma failed_write_changes_nothing_witness :
  (run (OpDeleteNetwork None "n1") example_store).1 = Err (InvalidState "network %q is in use by instance %q") ∧
  memory (run (OpDeleteNetwork None "n1") example_store).2 = memory example_store.
Proof.
  assert ((run (OpDeleteNetwork None "n1") example_store).1 = Err (InvalidState "network %q is in use by instance %q")) as H
    by (vm_compute; reflexivity).
  split; [exact H|exact (failed_write_changes_nothing example_store (OpDeleteNetwork None "n1") _ H)].
Defined.

(** *** References by ID *)

(** The same instance, with its network given by its ID. *)
Definition spec_by_id : Instance.Spec := {|
  Instance.ID := "i2"; Instance.Name := "api"; Instance.Hostname := ""; Instance.ImageRef := "nginx";
  Instance.ImageDigest := "sha256:0"; Instance.HypervisorType := ""; Instance.HypervisorVersion := "";
  Instance.KernelName := "k1"; Instance.KernelArgs := ""; Instance.VCPUs := 1; Instance.MemoryBytes := 1073741824;
  Instance.DiskBytes := 0; Instance.NetworkName := "n1"; Instance.StaticIP := ""; Instance.MaxVCPUs := 0;
  Instance.MaxMemoryBytes := 0; Instance.DiskBytesPerSecond := 0; Instance.DiskIOPS := 0;
  Instance.UploadBytesPerSecond := 0; Instance.DownloadBytesPerSecond := 0; Instance.StandbyAfter := 0;
  Instance.Ports := []; Instance.Mounts := [Instance.mkMount Instance.MountTypeVolume "v1" "/data" false "" 0];
  Instance.Env := ∅; Instance.Cmd := []; Instance.InitMode := ""; Instance.User := ""; Instance.Labels := ∅;
  Instance.Restart := Instance.mkRestartPolicy "" 0; Instance.HealthCheck := None; Instance.CreatedAt := 1;
  Instance.UpdatedAt := 1; Instance.RemoveOnExit := false; Instance.StoppedByUser := false;
|}.

Definition by_id_store : Store :=
  run_all [OpCreateKernel None example_kernel; OpCreateNetwork None example_network; OpCreateVolume None example_volume;
           OpCreateInstance None None spec_by_id] empty_store.

(** An instance that gives its kernel, network and volume by their IDs is
    accepted, but the three can then be deleted from under it: the deletions
    look for their names only. Its references then lead nowhere. *)
Theorem references_by_id_are_not_protected :
  Instance by_id_store "api" = Ok spec_by_id ∧ checkReferences by_id_store spec_by_id = Ok tt ∧
  let deletions := [OpDeleteKernel None "vmlinux-6.1"; OpDeleteNetwork None "default"; OpDeleteVolume None "data"] in
  Forall (λ o, (run o by_id_store).1 = Ok tt) deletions ∧
  let s := run_all deletions by_id_store in
  Instance s "api" = Ok spec_by_id ∧ is_ok (Kernel s "k1") = false ∧ is_ok (Network s "n1") = false ∧
  is_ok (Volume s "v1") = false.
Proof. cbv zeta. rewrite !Forall_cons, Forall_nil. split_and!; first [exact I|vm_compute; reflexivity]. Qed.

(** *** A rename that fails halfway *)

Definition renamed_spec : Instance.Spec := {|
  Instance.ID := "i1"; Instance.Name := "www"; Instance.Hostname := ""; Instance.ImageRef := "nginx";
  Instance.ImageDigest := "sha256:0"; Instance.HypervisorType := ""; Instance.HypervisorVersion := "";
  Instance.KernelName := "vmlinux-6.1"; Instance.KernelArgs := ""; Instance.VCPUs := 1; Instance.MemoryBytes := 1073741824;
  Instance.DiskBytes := 0; Instance.NetworkName := "default"; Instance.StaticIP := ""; Instance.MaxVCPUs := 0;
  Instance.MaxMemoryBytes := 0; Instance.DiskBytesPerSecond := 0; Instance.DiskIOPS := 0;
  Instance.UploadBytesPerSecond := 0; Instance.DownloadBytesPerSecond := 0; Instance.StandbyAfter := 0;
  Instance.Ports := []; Instance.Mounts := []; Instance.Env := ∅; Instance.Cmd := []; Instance.InitMode := "";
  Instance.User := ""; Instance.Labels := ∅; Instance.Restart := Instance.mkRestartPolicy "" 0;
  Instance.HealthCheck := None; Instance.CreatedAt := 1; Instance.UpdatedAt := 1; Instance.RemoveOnExit := false;
  Instance.StoppedByUser := false;
|}.

(** A rename whose directory was moved but whose definition could not be
    written there returns an error and keeps the instance under its old name
    in memory; after a restart the instance is gone, under either name. *)
Theorem halfway_rename_loses_the_instance e :
  let after := run (OpRenameInstance None (Some e) "web" renamed_spec) example_store in
  after.1 = Err e ∧ Instance after.2 "web" = Ok Instance.example_spec ∧ Instances (New after.2) = [].
Proof.
  cbv zeta. split; [vm_compute; reflexivity|]. split; [vm_compute; reflexivity|].
  vm_compute. reflexivity.
Qed.

End Store.
