(* ===== verification/Conc.v ===== *)
(** * Concurrent programs over a shared state

    The daemon's operations run on goroutines of their own, under mutexes. An
    operation is a [prog]: a sequence of atomic steps on the shared state,
    questions to the world outside the daemon (a file operation, a
    hypervisor's answer), and mutex operations. The same program is run on
    its own by [exec], beside others by [step], and as a schedule says by
    [play]. [wp] is a rely-guarantee logic for such programs: what holds of
    every interleaving is proved one program at a time. *)

From S2P Require Import Prelude Errdefs.

Section Conc.

Context {S : Type} {query : Type} {answer : query → Type} {lock : Type} `{EqDecision lock, !Countable lock}.

(** ** Programs *)

Inductive prog (A : Type) : Type :=
  | Ret (a : A)
  | Atomic (B : Type) (f : S → B * S) (k : B → prog A)
  | Ask (q : query) (k : answer q → prog A)
  | Lock (l : lock) (k : prog A)
  | Unlock (l : lock) (k : prog A).

Arguments Ret {A} a.
Arguments Atomic {A B} f k.
Arguments Ask {A} q k.
Arguments Lock {A} l k.
Arguments Unlock {A} l k.

Fixpoint bind {A B} (p : prog A) (g : A → prog B) : prog B :=
  match p with
  | Ret a => g a
  | Atomic f k => Atomic f (λ b, bind (k b) g)
  | Ask q k => Ask q (λ a, bind (k a) g)
  | Lock l k => Lock l (bind k g)
  | Unlock l k => Unlock l (bind k g)
  end.

#[global] Instance prog_ret : MRet prog := λ A a, Ret a.

#[global] Instance prog_bind : MBind prog := λ A B g p, bind p g.

(** One step on the state; the state as it is; a question; a mutex. *)
Definition atomically {B} (f : S → B * S) : prog B := Atomic f Ret.

Definition gets {B} (f : S → B) : prog B := atomically (λ s, (f s, s)).

Definition modify (f : S → S) : prog unit := atomically (λ s, (tt, f s)).

Definition ask (q : query) : prog (answer q) := Ask q Ret.

Definition acquire (l : lock) : prog unit := Lock l (Ret tt).

Definition release (l : lock) : prog unit := Unlock l (Ret tt).

(** [l.Lock(); defer l.Unlock()] and what follows. *)
Definition with_lock {A} (l : lock) (p : prog A) : prog A :=
  acquire l ≫= λ _, p ≫= λ a, release l ≫= λ _, Ret a.

(** [if err != nil { return err }] *)
Definition ebind {A B} (p : prog (result A)) (k : A → prog (result B)) : prog (result B) :=
  p ≫= λ r, match r with Ok a => k a | Err e => mret (Err e) end.

(** [fmt.Errorf("...: %w", err)] *)
Definition wrapping {A} (format : string) (p : prog (result A)) : prog (result A) :=
  p ≫= λ r, mret (wrap_err (Errorf format) r).

(** A clean-up on failure, and what follows. *)
Definition on_error {A} (c : prog unit) (p : prog (result A)) : prog (result A) :=
  p ≫= λ r, match r with Err e => c ≫= λ _, mret (Err e) | Ok a => mret (Ok a) end.

(** [defer c] and what follows. *)
Definition deferred {A} (c : prog unit) (p : prog A) : prog A := p ≫= λ a, c ≫= λ _, mret a.

(** A program whose result is not looked at. *)
Definition ignoring {A} (p : prog A) : prog unit := p ≫= λ _, mret tt.

Fixpoint for_all {A} (p : A → prog unit) (l : list A) : prog unit :=
  match l with [] => mret tt | x :: l => p x ≫= λ _, for_all p l end.

(** ** Running a program on its own *)

(** The world's answers, by how many questions came before. A program that
    waits for a mutex it holds never returns. *)
Fixpoint exec {A} (world : ∀ q, nat → answer q) (p : prog A) (n : nat) (L : gset lock) (s : S) : option (A * S * nat) :=
  match p with
  | Ret a => Some (a, s, n)
  | Atomic f k => let '(b, s') := f s in exec world (k b) n L s'
  | Ask q k => exec world (k (world q n)) (1 + n)%nat L s
  | Lock l k => if decide (l ∈ L) then None else exec world k n ({[l]} ∪ L) s
  | Unlock l k => exec world k n (L ∖ {[l]}) s
  end.

(** What a program does on its own, whatever the world answers: it returns,
    and ends as [Q] says. *)
Fixpoint run {A} (p : prog A) (L : gset lock) (s : S) (Q : A → gset lock → S → Prop) : Prop :=
  match p with
  | Ret a => Q a L s
  | Atomic f k => run (k (f s).1) L (f s).2 Q
  | Ask q k => ∀ a, run (k a) L s Q
  | Lock l k => (l ∉ L) ∧ run k ({[l]} ∪ L) s Q
  | Unlock l k => run k (L ∖ {[l]}) s Q
  end.

Lemma run_exec {A} world (p : prog A) n L s Q :
  run p L s Q → ∃ a s' n' L', exec world p n L s = Some (a, s', n') ∧ Q a L' s'.
Proof.
  revert n L s. induction p as [a|B f k IH|q k IH|l k IH|l k IH]; intros n L s Hp; simpl in *; eauto 10.
  - destruct (f s) as [b s']. by apply IH.
  - destruct Hp as [Hl Hp]. rewrite decide_False by done. by apply IH.
Qed.

Lemma run_mono {A} (p : prog A) L s (Q1 Q2 : A → gset lock → S → Prop) :
  (∀ a L' s', Q1 a L' s' → Q2 a L' s') → run p L s Q1 → run p L s Q2.
Proof.
  intros HQ. revert L s. induction p as [a|B f k IH|q k IH|l k IH|l k IH]; simpl; intros L s Hp; eauto.
  destruct Hp; eauto.
Qed.

Lemma run_bind {A B} (p : prog A) (g : A → prog B) L s Q :
  run p L s (λ a L' s', run (g a) L' s' Q) → run (p ≫= g) L s Q.
Proof.
  revert L s. induction p as [a|C f k IH|q k IH|l k IH|l k IH]; intros L s Hp.
  - done.
  - by apply IH.
  - intros a. by apply IH.
  - destruct Hp as [Hl Hp]. split; [done|]. by apply IH.
  - by apply IH.
Qed.

Lemma run_bind_inv {A B} (p : prog A) (g : A → prog B) L s Q :
  run (p ≫= g) L s Q → run p L s (λ a L' s', run (g a) L' s' Q).
Proof.
  revert L s. induction p as [a|C f k IH|q k IH|l k IH|l k IH]; intros L s Hp.
  - done.
  - by apply IH.
  - intros a. by apply IH.
  - destruct Hp as [Hl Hp]. split; [done|]. by apply IH.
  - by apply IH.
Qed.

(** What a program asks, whatever it is answered. *)
Fixpoint asks_only {A} (P : query → Prop) (p : prog A) : Prop :=
  match p with
  | Ret _ => True
  | Atomic f k => ∀ b, asks_only P (k b)
  | Ask q k => P q ∧ ∀ a, asks_only P (k a)
  | Lock _ k | Unlock _ k => asks_only P k
  end.

Lemma asks_only_mono {A} (P P' : query → Prop) (p : prog A) : (∀ q, P q → P' q) → asks_only P p → asks_only P' p.
Proof. intros HP. induction p; simpl; naive_solver. Qed.

Lemma asks_only_bind {A B} P (p : prog A) (g : A → prog B) :
  asks_only P p → (∀ a, asks_only P (g a)) → asks_only P (p ≫= g).
Proof.
  intros Hp Hg. induction p as [a|D f k IH|q k IH|l k IH|l k IH]; [by apply Hg| | |by apply IH..].
  - intros b. by apply IH.
  - destruct Hp as [Hq Hp]. split; [done|]. intros a. by apply IH.
Qed.

(** The first step of a program, and what follows. *)
Lemma run_ask {B} q (g : answer q → prog B) L s Q : (∀ a, run (g a) L s Q) → run (ask q ≫= g) L s Q.
Proof. done. Qed.

Lemma run_step {A B} (f : S → A * S) (g : A → prog B) L s Q : run (g (f s).1) L (f s).2 Q → run (atomically f ≫= g) L s Q.
Proof. done. Qed.

Lemma run_ebind {A B} (p : prog (result A)) (g : A → prog (result B)) L s Q :
  run p L s (λ r L' s', match r with Ok a => run (g a) L' s' Q | Err e => Q (Err e) L' s' end) → run (ebind p g) L s Q.
Proof. intros Hp. apply run_bind. eapply run_mono; [|exact Hp]. by intros [a|e] L' s' H. Qed.

Lemma run_wrapping {A} format (p : prog (result A)) L s (Q : result A → gset lock → S → Prop) :
  run p L s (λ r, Q (wrap_err (Errorf format) r)) → run (wrapping format p) L s Q.
Proof. intros Hp. by apply run_bind. Qed.

Lemma run_for_all {A} (p : A → prog unit) l L s (J : S → Prop) :
  (∀ x s, J s → run (p x) L s (λ _ L' s', L' = L ∧ J s')) → J s → run (for_all p l) L s (λ _ L' s', L' = L ∧ J s').
Proof.
  intros Hp. revert s. induction l as [|x l IH]; intros s Hs; [done|]. apply (run_bind (p x)).
  eapply run_mono; [|by apply Hp]. intros [] L' s' [-> Hs']. by apply IH.
Qed.

(** A lock is released in the end, and is not one that is held already. *)
Lemma run_with_lock {A} l (p : prog A) L s Q :
  l ∉ L → run p ({[l]} ∪ L) s (λ a L' s', Q a (L' ∖ {[l]}) s') → run (with_lock l p) L s Q.
Proof. intros Hl Hp. split; [done|]. apply (run_bind p). exact Hp. Qed.

(** What a program does on its own in a world that answers as [W] says. *)
Fixpoint run_given {A} (W : ∀ q, answer q → Prop) (p : prog A) (L : gset lock) (s : S) (Q : A → gset lock → S → Prop) : Prop :=
  match p with
  | Ret a => Q a L s
  | Atomic f k => run_given W (k (f s).1) L (f s).2 Q
  | Ask q k => ∀ a, W q a → run_given W (k a) L s Q
  | Lock l k => (l ∉ L) ∧ run_given W k ({[l]} ∪ L) s Q
  | Unlock l k => run_given W k (L ∖ {[l]}) s Q
  end.

Lemma run_given_exec {A} W world (p : prog A) n L s Q :
  (∀ q n, W q (world q n)) → run_given W p L s Q → ∃ a s' n' L', exec world p n L s = Some (a, s', n') ∧ Q a L' s'.
Proof.
  intros HW. revert n L s. induction p as [a|B f k IH|q k IH|l k IH|l k IH]; intros n L s Hp; simpl in *; eauto 10.
  - destruct (f s) as [b s']. by apply IH.
  - destruct Hp as [Hl Hp]. rewrite decide_False by done. by apply IH.
Qed.

Lemma run_given_mono {A} W (p : prog A) L s (Q1 Q2 : A → gset lock → S → Prop) :
  (∀ a L' s', Q1 a L' s' → Q2 a L' s') → run_given W p L s Q1 → run_given W p L s Q2.
Proof.
  intros HQ. revert L s. induction p as [a|B f k IH|q k IH|l k IH|l k IH]; simpl; intros L s Hp; eauto.
  destruct Hp; eauto.
Qed.

Lemma run_given_bind {A B} W (p : prog A) (g : A → prog B) L s Q :
  run_given W p L s (λ a L' s', run_given W (g a) L' s' Q) → run_given W (p ≫= g) L s Q.
Proof.
  revert L s. induction p as [a|C f k IH|q k IH|l k IH|l k IH]; intros L s Hp.
  - done.
  - by apply IH.
  - intros a Ha. by apply IH, Hp.
  - destruct Hp as [Hl Hp]. split; [done|]. by apply IH.
  - by apply IH.
Qed.

Lemma run_given_with_lock {A} W l (p : prog A) L s Q :
  l ∉ L → run_given W p ({[l]} ∪ L) s (λ a L' s', Q a (L' ∖ {[l]}) s') → run_given W (with_lock l p) L s Q.
Proof. intros Hl Hp. split; [done|]. apply (run_given_bind W p). exact Hp. Qed.

(** What a program does on its own, and the states it passes through, the last
    one first. *)
Fixpoint run_through {A} (p : prog A) (L : gset lock) (s : S) (past : list S) (Q : A → gset lock → S → list S → Prop) : Prop :=
  match p with
  | Ret a => Q a L s past
  | Atomic f k => run_through (k (f s).1) L (f s).2 ((f s).2 :: past) Q
  | Ask q k => ∀ a, run_through (k a) L s past Q
  | Lock l k => (l ∉ L) ∧ run_through k ({[l]} ∪ L) s past Q
  | Unlock l k => run_through k (L ∖ {[l]}) s past Q
  end.

Lemma run_through_mono {A} (p : prog A) L s past (Q1 Q2 : A → gset lock → S → list S → Prop) :
  (∀ a L' s' past', Q1 a L' s' past' → Q2 a L' s' past') → run_through p L s past Q1 → run_through p L s past Q2.
Proof.
  intros HQ. revert L s past. induction p as [a|B f k IH|q k IH|l k IH|l k IH]; simpl; intros L s past Hp; eauto.
  destruct Hp; eauto.
Qed.

Lemma run_through_bind {A B} (p : prog A) (g : A → prog B) L s past Q :
  run_through p L s past (λ a L' s' past', run_through (g a) L' s' past' Q) → run_through (p ≫= g) L s past Q.
Proof.
  revert L s past. induction p as [a|C f k IH|q k IH|l k IH|l k IH]; intros L s past Hp.
  - done.
  - by apply IH.
  - intros a. by apply IH.
  - split; [apply Hp|]. by apply IH, Hp.
  - by apply IH.
Qed.

(** The states it passes through are added to those before. *)
Lemma run_through_run {A} (p : prog A) L s past Q :
  run p L s Q → run_through p L s past (λ a L' s' past', Q a L' s' ∧ past `suffix_of` past').
Proof.
  revert L s past. induction p as [a|C f k IH|q k IH|l k IH|l k IH]; intros L s past Hp; simpl in *.
  - done.
  - eapply run_through_mono; [|by apply IH]. intros a L' s' past' [HQ Hs]. split; [done|].
    etrans; [|exact Hs]. by apply suffix_cons_r.
  - intros a. by apply IH.
  - split; [apply Hp|]. by apply IH, Hp.
  - by apply IH.
Qed.

Lemma run_run_through {A} (p : prog A) L s past Q :
  run_through p L s past Q → run p L s (λ a L' s', ∃ past', Q a L' s' past').
Proof.
  revert L s past. induction p as [a|C f k IH|q k IH|l k IH|l k IH]; intros L s past Hp; simpl in *; eauto.
  destruct Hp; eauto.
Qed.

(** ** Running programs beside each other *)

Record thread := mkThread { code : prog unit; held : gset lock }.

Record config := mkConfig { state : S; threads : list thread }.

Section Steps.

(** The programs that may be started in a state, with the locks they are
    started with, and the states a crash may leave. *)
Variable admissible : S → prog unit → gset lock → Prop.
Variable crash : S → S → Prop.

Inductive step : config → config → Prop :=
  | step_atomic s ts i (B : Type) (f : S → B * S) k L :
      ts !! i = Some (mkThread (Atomic f k) L) →
      step (mkConfig s ts) (mkConfig (f s).2 (<[i := mkThread (k (f s).1) L]> ts))
  | step_ask s ts i q k a L :
      ts !! i = Some (mkThread (Ask q k) L) →
      step (mkConfig s ts) (mkConfig s (<[i := mkThread (k a) L]> ts))
  | step_lock s ts i l k L :
      ts !! i = Some (mkThread (Lock l k) L) → (∀ t, t ∈ ts → l ∉ held t) →
      step (mkConfig s ts) (mkConfig s (<[i := mkThread k ({[l]} ∪ L)]> ts))
  | step_unlock s ts i l k L :
      ts !! i = Some (mkThread (Unlock l k) L) →
      step (mkConfig s ts) (mkConfig s (<[i := mkThread k (L ∖ {[l]})]> ts))
  | step_spawn s ts p L :
      admissible s p L → (∀ t, t ∈ ts → held t ## L) →
      step (mkConfig s ts) (mkConfig s (ts ++ [mkThread p L]))
  | step_crash s s' ts : crash s s' → step (mkConfig s ts) (mkConfig s' []).

(** A thread that has not finished. *)
Definition unfinished (t : thread) : Prop := ∀ a, code t ≠ Ret a.

(** A thread that can take its next step. *)
Definition enabled (ts : list thread) (t : thread) : Prop :=
  match code t with
  | Ret _ => False
  | Lock l _ => Forall (λ t', l ∉ held t') ts
  | _ => True
  end.

#[global] Instance enabled_dec ts t : Decision (enabled ts t).
Proof. unfold enabled. destruct (code t); apply _. Defined.

(** What a program does on its own is one of its interleavings. *)
Lemma exec_steps world (p : prog unit) n L s a s' n' :
  exec world p n L s = Some (a, s', n') →
  ∃ L', rtc step (mkConfig s [mkThread p L]) (mkConfig s' [mkThread (Ret a) L']).
Proof.
  revert n L s. induction p as [b|B f k IH|q k IH|l k IH|l k IH]; simpl; intros n L s He.
  - injection He as <- <- <-. exists L. apply rtc_refl.
  - destruct (f s) as [b s1] eqn:E. destruct (IH b n L s1 He) as [L' Hs]. exists L'.
    eapply rtc_l; [|exact Hs]. pose proof (step_atomic s [mkThread (Atomic f k) L] 0 B f k L eq_refl) as Hst.
    rewrite E in Hst. exact Hst.
  - destruct (IH _ _ _ _ He) as [L' Hs]. exists L'. eapply rtc_l; [|exact Hs].
    exact (step_ask s [mkThread (Ask q k) L] 0 q k (world q n) L eq_refl).
  - destruct (decide (l ∈ L)) as [|Hl]; [done|]. destruct (IH _ _ _ He) as [L' Hs]. exists L'. eapply rtc_l; [|exact Hs].
    apply (step_lock s [mkThread (Lock l k) L] 0 l k L eq_refl). intros t Ht. by apply list_elem_of_singleton in Ht as ->.
  - destruct (IH _ _ _ He) as [L' Hs]. exists L'. eapply rtc_l; [|exact Hs].
    exact (step_unlock s [mkThread (Unlock l k) L] 0 l k L eq_refl).
Qed.

(** The next step of thread [i]: a step that an executable schedule may take. *)
Definition turn (world : ∀ q, nat → answer q) (i n : nat) (c : config) : option config :=
  let put t s := mkConfig s (<[i := t]> (threads c)) in
  match threads c !! i with
  | None => None
  | Some (mkThread p L) =>
      match p with
      | Ret _ => None
      | Atomic f k => Some (put (mkThread (k (f (state c)).1) L) (f (state c)).2)
      | Ask q k => Some (put (mkThread (k (world q n)) L) (state c))
      | Lock l k =>
          if forallb (λ t, negb (bool_decide (l ∈ held t))) (threads c)
          then Some (put (mkThread k ({[l]} ∪ L)) (state c)) else None
      | Unlock l k => Some (put (mkThread k (L ∖ {[l]})) (state c))
      end
  end.

(** A thread goes on for [k] steps, or until it has finished or waits. *)
Fixpoint turns (world : ∀ q, nat → answer q) (i k n : nat) (c : config) : config :=
  match k with
  | 0 => c
  | Datatypes.S k => if turn world i n c is Some c' then turns world i k (Datatypes.S n) c' else c
  end.

Lemma turn_step world i n c c' : turn world i n c = Some c' → step c c'.
Proof.
  destruct c as [s ts]. unfold turn. simpl. destruct (ts !! i) as [[p L]|] eqn:Hi; [|done].
  destruct p as [a|B f k|q k|l k|l k]; simpl; [done|..].
  - intros [= <-]. by apply step_atomic.
  - intros [= <-]. by eapply step_ask.
  - destruct (forallb _ ts) eqn:Hf; [|done]. intros [= <-]. apply step_lock; [done|].
    intros t Ht. apply list_elem_of_In in Ht. rewrite forallb_forall in Hf. apply Hf in Ht.
    by apply negb_true_iff, bool_decide_eq_false in Ht.
  - intros [= <-]. by apply step_unlock.
Qed.

Lemma turns_steps world i k n c : rtc step c (turns world i k n c).
Proof.
  revert n c. induction k as [|k IH]; intros n c; simpl; [apply rtc_refl|].
  destruct (turn world i n c) as [c'|] eqn:E; [|apply rtc_refl]. eapply rtc_l; [by eapply turn_step|apply IH].
Qed.

(** *** Schedules *)

(** A program is started, or the thread started as the [i]th goes on for so
    many steps. *)
Inductive move := Spawn (p : prog unit) (L : gset lock) | Go (i steps : nat).

Definition apart_from (L : gset lock) (c : config) : bool := forallb (λ t, bool_decide (held t ## L)) (threads c).

Definition spawn (p : prog unit) (L : gset lock) (c : config) : config := mkConfig (state c) (threads c ++ [mkThread p L]).

Fixpoint play (world : ∀ q, nat → answer q) (moves : list move) (c : config) : option config :=
  match moves with
  | [] => Some c
  | Spawn p L :: moves => if apart_from L c then play world moves (spawn p L c) else None
  | Go i steps :: moves => play world moves (turns world i steps 0 c)
  end.

(** The programs of a schedule may be started where they are. *)
Fixpoint playable (world : ∀ q, nat → answer q) (moves : list move) (c : config) : Prop :=
  match moves with
  | [] => True
  | Spawn p L :: moves => admissible (state c) p L ∧ playable world moves (spawn p L c)
  | Go i steps :: moves => playable world moves (turns world i steps 0 c)
  end.

Lemma play_steps world moves c c' : playable world moves c → play world moves c = Some c' → rtc step c c'.
Proof.
  revert c. induction moves as [|[p L|i k] moves IH]; intros c Hp; simpl in *.
  - intros [= <-]. apply rtc_refl.
  - destruct Hp as [Ha Hp]. destruct (apart_from L c) eqn:Hd; [|done]. intros Hc. eapply rtc_l; [|by apply IH].
    destruct c as [s ts]. apply step_spawn; [done|]. intros t Ht. unfold apart_from in Hd. rewrite forallb_forall in Hd.
    apply list_elem_of_In in Ht. by apply Hd, bool_decide_eq_true in Ht.
  - intros Hc. etrans; [apply turns_steps|by apply IH].
Qed.

(** An outcome of a schedule is reached by it. *)
Lemma play_reaches world moves c (good : config → bool) :
  playable world moves c → (if play world moves c is Some c' then good c' else false) = true →
  ∃ c', rtc step c c' ∧ good c' = true.
Proof.
  intros Hp Hg. destruct (play world moves c) as [c'|] eqn:E; [|done]. exists c'. split; [|done]. by eapply play_steps.
Qed.

(** ** The logic *)

(** The invariant; what a thread that holds some locks may do; and what it
    can rely on the others to do no more than. *)
Variable I : S → Prop.
Variable G : gset lock → S → S → Prop.
Variable R : gset lock → S → S → Prop.

(** The order locks are taken in; a lock at level 0 is never waited for. *)
Variable level : lock → nat.

Definition above (L : gset lock) (l : lock) : Prop := 0 < level l ∧ ∀ l', l' ∈ L → level l' < level l.

(** From a state the others may since have changed, [p] keeps to what it may
    do and ends as [Q] says. *)
Fixpoint wp {A} (p : prog A) (L : gset lock) (s : S) (Q : A → gset lock → S → Prop) : Prop :=
  match p with
  | Ret a => ∀ s', R L s s' → I s' → Q a L s'
  | Atomic f k => ∀ s', R L s s' → I s' → G L s' (f s').2 ∧ I (f s').2 ∧ wp (k (f s').1) L (f s').2 Q
  | Ask q k => ∀ a s', R L s s' → I s' → wp (k a) L s' Q
  | Lock l k => ∀ s', R L s s' → I s' → above L l ∧ wp k ({[l]} ∪ L) s' Q
  | Unlock l k => ∀ s', R L s s' → I s' → l ∈ L ∧ wp k (L ∖ {[l]}) s' Q
  end.

Class RelyGuarantee : Prop := {
  rely_refl : ∀ L s, R L s s;
  rely_trans : ∀ L s1 s2 s3, R L s1 s2 → R L s2 s3 → R L s1 s3;
  guarantee_rely : ∀ L1 L2 s s', L1 ## L2 → I s → G L1 s s' → R L2 s s';
}.

Context `{!RelyGuarantee}.

Lemma wp_rely {A} (p : prog A) L s s' Q : R L s s' → wp p L s Q → wp p L s' Q.
Proof.
  intros Hr. destruct p; simpl; intros Hp; intros; (apply Hp; [by eapply rely_trans|done]).
Qed.

Lemma wp_intro {A} (p : prog A) L s Q : (∀ s', R L s s' → I s' → wp p L s' Q) → wp p L s Q.
Proof.
  pose proof (rely_refl L) as Hrefl. destruct p; simpl; intros Hp; intros; by eapply Hp.
Qed.

Lemma wp_mono {A} (p : prog A) L s (Q1 Q2 : A → gset lock → S → Prop) :
  (∀ a L' s', I s' → Q1 a L' s' → Q2 a L' s') → wp p L s Q1 → wp p L s Q2.
Proof.
  intros HQ. revert L s. induction p as [a|B f k IH|q k IH|l k IH|l k IH]; simpl; intros L s Hp.
  - eauto.
  - intros s' ? ?. destruct (Hp s') as (? & ? & ?); eauto.
  - eauto.
  - intros s' ? ?. destruct (Hp s') as (? & ?); eauto.
  - intros s' ? ?. destruct (Hp s') as (? & ?); eauto.
Qed.

Lemma wp_bind {A B} (p : prog A) (g : A → prog B) L s Q :
  wp p L s (λ a L' s', wp (g a) L' s' Q) → wp (p ≫= g) L s Q.
Proof.
  revert L s. induction p as [a|C f k IH|q k IH|l k IH|l k IH]; intros L s Hp.
  - apply wp_intro. exact Hp.
  - intros s' ? ?. destruct (Hp s') as (? & ? & ?); [done..|]. split_and!; [done..|]. by apply IH.
  - intros a s' ? ?. by apply IH, Hp.
  - intros s' ? ?. destruct (Hp s') as (? & ?); [done..|]. split; [done|]. by apply IH.
  - intros s' ? ?. destruct (Hp s') as (? & ?); [done..|]. split; [done|]. by apply IH.
Qed.

Lemma wp_atomically {B} (f : S → B * S) L s (Q : B → gset lock → S → Prop) :
  (∀ s', R L s s' → I s' → G L s' (f s').2 ∧ I (f s').2 ∧
     ∀ s2, R L (f s').2 s2 → I s2 → Q (f s').1 L s2) → wp (atomically f) L s Q.
Proof. done. Qed.

(** *** What the logic shows of every interleaving *)

Definition locks_apart (ts : list thread) : Prop :=
  ∀ i j t u, ts !! i = Some t → ts !! j = Some u → i ≠ j → held t ## held u.

(** At the end a thread holds no lock another may wait for. *)
Definition finished_well (L : gset lock) : Prop := ∀ l, l ∈ L → level l = 0.

Definition config_ok (c : config) : Prop :=
  I (state c) ∧ locks_apart (threads c) ∧
  ∀ t, t ∈ threads c → wp (code t) (held t) (state c) (λ _ L _, finished_well L).

Hypothesis admissible_wp : ∀ s p L, I s → admissible s p L → wp p L s (λ _ L' _, finished_well L').
Hypothesis crash_ok : ∀ s s', I s → crash s s' → I s'.

Lemma locks_apart_insert ts i t t' :
  locks_apart ts → ts !! i = Some t →
  (∀ j u, ts !! j = Some u → i ≠ j → held t' ## held u) → locks_apart (<[i := t']> ts).
Proof.
  intros Ha Hi Hnew j k u v Hj Hk Hne.
  destruct (decide (i = j)) as [<-|], (decide (i = k)) as [<-|]; [done|..].
  - rewrite list_lookup_insert_eq in Hj by (by eapply lookup_lt_Some). injection Hj as <-.
    rewrite list_lookup_insert_ne in Hk by done. eauto.
  - rewrite list_lookup_insert_eq in Hk by (by eapply lookup_lt_Some). injection Hk as <-.
    rewrite list_lookup_insert_ne in Hj by done. symmetry. eauto.
  - rewrite list_lookup_insert_ne in Hj, Hk by done. eauto.
Qed.

(** One thread's step, with what it does to the others. *)
Lemma config_ok_insert s s' ts i t t' :
  config_ok (mkConfig s ts) → ts !! i = Some t → I s' →
  (∀ j u, ts !! j = Some u → i ≠ j → held t' ## held u) →
  (∀ L, held t ## L → R L s s') →
  wp (code t') (held t') s' (λ _ L _, finished_well L) →
  config_ok (mkConfig s' (<[i := t']> ts)).
Proof.
  intros (HI & Ha & Hw) Hi HI' Hnew Hrely Hwp. split_and!; [done|by eapply locks_apart_insert|].
  intros u Hu. apply list_elem_of_lookup in Hu as [j Hj]. simpl in *.
  destruct (decide (i = j)) as [<-|Hne].
  { rewrite list_lookup_insert_eq in Hj by (by eapply lookup_lt_Some). by injection Hj as <-. }
  rewrite list_lookup_insert_ne in Hj by done. eapply wp_rely; [|by apply Hw; eapply list_elem_of_lookup_2].
  apply Hrely. by eapply Ha.
Qed.

Lemma step_ok c c' : config_ok c → step c c' → config_ok c'.
Proof.
  intros Hc Hs. pose proof Hc as (HI & Ha & Hw).
  destruct Hs as [s ts i B f k L Hi|s ts i q k a L Hi|s ts i l k L Hi Hfree|s ts i l k L Hi|s ts p L Hadm Hd|s s' ts Hcrash]; simpl in *.
  - specialize (Hw _ (list_elem_of_lookup_2 _ _ _ Hi)) as Hwi. simpl in Hwi.
    destruct (Hwi s) as (HG & HI' & Hk); [apply rely_refl|done|].
    eapply config_ok_insert; [done..| | |done]; simpl.
    + intros j u Hj Hne. exact (Ha i j _ _ Hi Hj Hne).
    + intros L' Hd. by eapply guarantee_rely.
  - specialize (Hw _ (list_elem_of_lookup_2 _ _ _ Hi)) as Hwi. simpl in Hwi.
    eapply config_ok_insert; [done..| | |]; simpl.
    + intros j u Hj Hne. exact (Ha i j _ _ Hi Hj Hne).
    + intros. apply rely_refl.
    + apply Hwi; [apply rely_refl|done].
  - specialize (Hw _ (list_elem_of_lookup_2 _ _ _ Hi)) as Hwi. simpl in Hwi.
    destruct (Hwi s) as [_ Hk]; [apply rely_refl|done|].
    eapply config_ok_insert; [done..| | |exact Hk]; simpl.
    + intros j u Hj Hne. pose proof (Ha i j _ _ Hi Hj Hne). pose proof (Hfree u (list_elem_of_lookup_2 _ _ _ Hj)).
      simpl in *. set_solver.
    + intros. apply rely_refl.
  - specialize (Hw _ (list_elem_of_lookup_2 _ _ _ Hi)) as Hwi. simpl in Hwi.
    destruct (Hwi s) as [_ Hk]; [apply rely_refl|done|].
    eapply config_ok_insert; [done..| | |exact Hk]; simpl.
    + intros j u Hj Hne. pose proof (Ha i j _ _ Hi Hj Hne). simpl in *. set_solver.
    + intros. apply rely_refl.
  - split_and!; simpl; [done| |].
    + intros i j t u. rewrite !lookup_app_Some, !list_lookup_singleton_Some.
      intros [Hi|(? & ? & <-)] [Hj|(? & ? & <-)] Hne; [by eapply Ha|..|lia]; simpl.
      * by apply Hd; eapply list_elem_of_lookup_2.
      * symmetry. by apply Hd; eapply list_elem_of_lookup_2.
    + intros t [Ht|Ht]%elem_of_app; [by apply Hw|]. apply list_elem_of_singleton in Ht as ->. by apply admissible_wp.
  - split_and!; simpl; [by eapply crash_ok|intros i j t u; by rewrite lookup_nil|intros t Ht; by apply elem_of_nil in Ht].
Qed.

(** Everything reached keeps the invariant. *)
Lemma reachable_config_ok c c' : config_ok c → rtc step c c' → config_ok c'.
Proof. intros Hc. induction 1 as [|c1 c2 c3 H12 _ IH]; [done|]. apply IH. by eapply step_ok. Qed.

(** A thread that waits does so for a lock above those it holds, and which a
    thread that has not finished holds. *)
Lemma waits_for c t :
  config_ok c → t ∈ threads c → unfinished t → ¬ enabled (threads c) t →
  ∃ l k u, code t = Lock l k ∧ above (held t) l ∧ u ∈ threads c ∧ l ∈ held u ∧ unfinished u.
Proof.
  intros (HI & Ha & Hw) Ht Hun Hno. pose proof (Hw t Ht) as Hwt.
  unfold enabled, unfinished in *. destruct (code t) as [a| | |l k|] eqn:E; try (by destruct Hno); [by destruct (Hun a)|].
  destruct (Hwt (state c)) as [Habove _]; [apply rely_refl|done|].
  destruct (decide (List.Exists (λ u, l ∈ held u) (threads c))) as [(u & Hu & Hl)%Exists_exists|Hall].
  - exists l, k, u. split_and!; [done..|]. intros a Ea. pose proof (Hw u Hu) as Hwu. rewrite Ea in Hwu.
    specialize (Hwu (state c) (rely_refl _ _) HI l Hl). destruct Habove. lia.
  - destruct Hno. by apply not_Exists_Forall in Hall; [|apply _].
Qed.

(** No deadlock: while a thread has not finished, some thread can go on. *)
Lemma no_deadlock c :
  config_ok c → (∃ t, t ∈ threads c ∧ unfinished t) → ∃ t, t ∈ threads c ∧ enabled (threads c) t.
Proof.
  intros Hc (t & Ht & Hun).
  destruct (decide (List.Exists (enabled (threads c)) (threads c))) as [He%Exists_exists|Hno]; [done|exfalso].
  assert (∀ u, u ∈ threads c → ¬ enabled (threads c) u) as Hblocked by (intros u ??; apply Hno, Exists_exists; eauto).
  set (wants u := match code u with Lock l _ => level l | _ => 0 end).
  assert (∀ u, u ∈ threads c → wants u ≤ max_list (wants <$> threads c)) as Hmax.
  { intros u Hu. by apply max_list_elem_of_le, list_elem_of_fmap_2. }
  set (M := max_list _) in *. clearbody M. remember (M - wants t) as n eqn:En. revert t Ht Hun En.
  induction n as [n IH] using (well_founded_induction lt_wf). intros t Ht Hun ->.
  destruct (waits_for c t Hc Ht Hun (Hblocked t Ht)) as (l & k & u & Et & _ & Hu & Hl & Hunu).
  destruct (waits_for c u Hc Hu Hunu (Hblocked u Hu)) as (l' & k' & u' & Eu & [_ Habove] & _).
  specialize (Habove l Hl). pose proof (Hmax u Hu) as Hle.
  assert (wants t = level l) as E1 by (unfold wants; by rewrite Et).
  assert (wants u = level l') as E2 by (unfold wants; by rewrite Eu).
  apply (IH (M - wants u)) with u; [lia|done..].
Qed.

(** A program run on its own returns, and ends as [Q] says. *)
Lemma run_wp {A} (p : prog A) L s Q : I s → wp p L s Q → run p L s (λ a L' s', I s' ∧ Q a L' s').
Proof.
  revert L s. induction p as [a|B f k IH|q k IH|l k IH|l k IH]; intros L s HI Hp; simpl in *.
  - split; [done|]. by apply Hp; [apply rely_refl|].
  - destruct (Hp s) as (_ & HI' & Hk); [apply rely_refl|done|]. by apply IH.
  - intros a. apply IH; [done|]. apply Hp; [apply rely_refl|done].
  - destruct (Hp s) as [[_ Habove] Hk]; [apply rely_refl|done|]. split; [|by apply IH].
    intros Hl. specialize (Habove l Hl). lia.
  - destruct (Hp s) as [_ Hk]; [apply rely_refl|done|]. by apply IH.
Qed.

Lemma exec_wp {A} world (p : prog A) n L s Q :
  I s → wp p L s Q → ∃ a s' n' L', exec world p n L s = Some (a, s', n') ∧ I s' ∧ Q a L' s'.
Proof. intros HI Hp. by apply (run_exec world _ n), run_wp. Qed.

(** *** Triples

    What a program that takes no locks does from states where [P] holds, if
    the others leave [P] as it is. *)

Class Stable (L : gset lock) (P : S → Prop) : Prop := stable : ∀ s s', R L s s' → P s → P s'.

Definition triple {A} (L : gset lock) (P : S → Prop) (p : prog A) (Q : A → S → Prop) : Prop :=
  ∀ s, P s → wp p L s (λ a L' s', L' = L ∧ Q a s').

Lemma triple_ret {A} L P (a : A) (Q : A → S → Prop) : Stable L P → (∀ s, I s → P s → Q a s) → triple L P (Ret a) Q.
Proof. intros HP HQ s Hs s' Hr HI. split; [done|]. apply HQ; [done|]. by eapply HP. Qed.

Lemma triple_bind {A B} L P (p : prog A) (g : A → prog B) Q T :
  triple L P p Q → (∀ a, triple L (Q a) (g a) T) → triple L P (p ≫= g) T.
Proof.
  intros Hp Hg s Hs. apply wp_bind. eapply wp_mono; [|by apply Hp]. intros a L' s' _ [-> Ha]. by apply Hg.
Qed.

Lemma triple_pre {A} L P P' (p : prog A) Q : (∀ s, P s → P' s) → triple L P' p Q → triple L P p Q.
Proof. intros HP Hp s Hs. by apply Hp, HP. Qed.

Lemma triple_pure {A} L (φ : Prop) P (p : prog A) Q : (φ → triple L P p Q) → triple L (λ s, φ ∧ P s) p Q.
Proof. intros Hp s [Hφ Hs]. by apply Hp. Qed.

Lemma triple_post {A} L P (p : prog A) (Q Q' : A → S → Prop) :
  (∀ a s, I s → Q a s → Q' a s) → triple L P p Q → triple L P p Q'.
Proof. intros HQ Hp s Hs. eapply wp_mono; [|by apply Hp]. intros a L' s' HI [-> Ha]. auto. Qed.

Lemma triple_ask L P q (Q : answer q → S → Prop) :
  Stable L P → (∀ a s, I s → P s → Q a s) → triple L P (ask q) Q.
Proof.
  intros HP HQ s Hs a s' Hr HI s2 Hr2 HI2. split; [done|]. apply HQ; [done|].
  eapply HP; [|exact Hs]. by eapply rely_trans.
Qed.

Lemma triple_step {B} L P (f : S → B * S) (Q : B → S → Prop) :
  Stable L P → (∀ b, Stable L (Q b)) →
  (∀ s, I s → P s → G L s (f s).2 ∧ I (f s).2 ∧ Q (f s).1 (f s).2) → triple L P (atomically f) Q.
Proof.
  intros HP HQ Hf s Hs s' Hr HI. destruct (Hf s') as (HG & HI' & Ha); [done|by eapply HP|].
  split_and!; [done|done|]. intros s2 Hr2 _. split; [done|]. by eapply HQ.
Qed.

Lemma triple_gets {B} L P (f : S → B) (Q : B → S → Prop) :
  (∀ s, I s → G L s s) → Stable L P → (∀ b, Stable L (Q b)) →
  (∀ s, I s → P s → Q (f s) s) → triple L P (gets f) Q.
Proof. intros HG HP HQ Hf. apply triple_step; [done..|]. intros s HI Hs. simpl. split_and!; auto. Qed.

(** What holds of a result, and what holds of an error. *)
Definition outcome {A} (X : A → S → Prop) (Y : S → Prop) (r : result A) : S → Prop :=
  match r with Ok a => X a | Err _ => Y end.

#[global] Instance outcome_stable {A} L (X : A → S → Prop) Y r :
  (∀ a, Stable L (X a)) → Stable L Y → Stable L (outcome X Y r).
Proof. intros HX HY. destruct r as [a|e]; [exact (HX a)|exact HY]. Qed.

Lemma triple_ebind {A B} L P (p : prog (result A)) (g : A → prog (result B)) X Y X' Y' :
  triple L P p (outcome X Y) → (∀ a, triple L (X a) (g a) (outcome X' Y')) → Stable L Y → (∀ s, I s → Y s → Y' s) →
  triple L P (ebind p g) (outcome X' Y').
Proof. intros Hp Hg HY HYY. eapply triple_bind; [exact Hp|]. intros [a|e]; [apply Hg|]. by apply triple_ret. Qed.

Lemma triple_wrapping {A} L P format (p : prog (result A)) X Y :
  triple L P p (outcome X Y) → (∀ a, Stable L (X a)) → Stable L Y → triple L P (wrapping format p) (outcome X Y).
Proof. intros Hp HX HY. eapply triple_bind; [exact Hp|]. intros [a|e]; apply triple_ret; done || apply HX. Qed.

Lemma triple_deferred {A} L P (p : prog A) c Q T :
  triple L P p Q → (∀ a, triple L (Q a) c (λ _, T a)) → (∀ a, Stable L (T a)) → triple L P (deferred c p) T.
Proof.
  intros Hp Hc HT. eapply triple_bind; [exact Hp|]. intros a. eapply triple_bind; [apply Hc|].
  intros []. by apply triple_ret.
Qed.

Lemma triple_on_error {A} L P (p : prog (result A)) c X Y Y' :
  triple L P p (outcome X Y) → triple L Y c (λ _, Y') → (∀ a, Stable L (X a)) → Stable L Y' →
  triple L P (on_error c p) (outcome X Y').
Proof.
  intros Hp Hc HX HY. eapply triple_bind; [exact Hp|]. intros [a|e]; [apply triple_ret; done || apply HX|].
  eapply triple_bind; [apply Hc|]. intros []. by apply triple_ret.
Qed.

(** *** Programs that keep what is known

    [T] says which facts, under which locks, a program leaves as they are:
    every fact that the others leave so, or only those that come with a right
    to what the program changes. *)

Section Keeps.

Context (T : gset lock → (S → Prop) → Prop) (T_stable : ∀ L P, T L P → Stable L P).

Definition keeps {A} (p : prog A) : Prop := ∀ L P, T L P → triple L P p (λ _, P).

Lemma keeps_ret {A} (a : A) : keeps (mret a).
Proof. intros L P HP. by apply triple_ret; [apply T_stable|]. Qed.

Lemma keeps_ask q : keeps (ask q).
Proof. intros L P HP. by apply triple_ask; [apply T_stable|]. Qed.

Lemma keeps_bind {A B} (p : prog A) (g : A → prog B) : keeps p → (∀ a, keeps (g a)) → keeps (p ≫= g).
Proof. intros Hp Hg L P HP. eapply triple_bind; [by apply Hp|]. intros a. by apply Hg. Qed.

Lemma keeps_step {B} (f : S → B * S) :
  (∀ L P s, T L P → I s → P s → G L s (f s).2 ∧ I (f s).2 ∧ P (f s).2) → keeps (atomically f).
Proof.
  intros Hf L P HP. apply triple_step; [by apply T_stable|intros; by apply T_stable|].
  intros s HI Hs. by apply (Hf L P).
Qed.

Lemma keeps_ebind {A B} (p : prog (result A)) (g : A → prog (result B)) : keeps p → (∀ a, keeps (g a)) → keeps (ebind p g).
Proof. intros Hp Hg. apply keeps_bind; [done|]. intros [a|e]; [apply Hg|apply keeps_ret]. Qed.

Lemma keeps_wrapping {A} format (p : prog (result A)) : keeps p → keeps (wrapping format p).
Proof. intros Hp. apply keeps_bind; [done|]. intros. apply keeps_ret. Qed.

Lemma keeps_on_error {A} c (p : prog (result A)) : keeps c → keeps p → keeps (on_error c p).
Proof.
  intros Hc Hp. apply keeps_bind; [done|]. intros [a|e]; [apply keeps_ret|].
  apply keeps_bind; [done|]. intros. apply keeps_ret.
Qed.

Lemma keeps_deferred {A} c (p : prog A) : keeps c → keeps p → keeps (deferred c p).
Proof. intros Hc Hp. apply keeps_bind; [done|]. intros a. apply keeps_bind; [done|]. intros. apply keeps_ret. Qed.

Lemma keeps_ignoring {A} (p : prog A) : keeps p → keeps (ignoring p).
Proof. intros Hp. apply keeps_bind; [done|]. intros. apply keeps_ret. Qed.

Lemma keeps_for_all {A} (p : A → prog unit) l : (∀ x, keeps (p x)) → keeps (for_all p l).
Proof. intros Hp. induction l as [|x l IH]; simpl; [apply keeps_ret|]. by apply keeps_bind. Qed.

End Keeps.

(** *** Critical sections

    What a thread does while it holds the lock [own] of a part of the state,
    which is [view] of it: the others leave that part as it is. *)

Section Critical.

Context {V : Type} (view : S → V) (own : lock) (view_kept : ∀ L s s', own ∈ L → R L s s' → view s' = view s).

Fixpoint inside {A} (p : prog A) (L : gset lock) (v : V) (Q : A → V → Prop) : Prop :=
  match p with
  | Ret a => Q a v
  | Atomic f k => ∀ s, view s = v → I s → G L s (f s).2 ∧ I (f s).2 ∧ inside (k (f s).1) L (view (f s).2) Q
  | Ask q k => ∀ a, inside (k a) L v Q
  | Lock _ _ | Unlock _ _ => False
  end.

Lemma inside_wp {A} (p : prog A) L s Q :
  own ∈ L → inside p L (view s) Q → wp p L s (λ a L' s', L' = L ∧ Q a (view s')).
Proof.
  intros Hl. revert s. induction p as [a|B f k IH|q k IH|l k IH|l k IH]; intros s Hp; simpl in *; [| | |done..].
  - intros s' Hr _. by rewrite (view_kept _ _ _ Hl Hr).
  - intros s' Hr HI. destruct (Hp s' (view_kept _ _ _ Hl Hr) HI) as (? & ? & ?). auto.
  - intros a s' Hr _. apply IH. rewrite (view_kept _ _ _ Hl Hr). apply Hp.
Qed.

Lemma inside_run {A} (p : prog A) L s Q :
  I s → inside p L (view s) Q → run p L s (λ a L' s', L' = L ∧ I s' ∧ Q a (view s')).
Proof.
  revert s. induction p as [a|B f k IH|q k IH|l k IH|l k IH]; intros s HI Hp; simpl in *; [done| | |done..].
  - destruct (Hp s eq_refl HI) as (_ & ? & ?). by apply IH.
  - intros a. by apply IH.
Qed.

Lemma inside_mono {A} (p : prog A) L v (Q1 Q2 : A → V → Prop) :
  (∀ a v', Q1 a v' → Q2 a v') → inside p L v Q1 → inside p L v Q2.
Proof.
  intros HQ. revert v. induction p as [a|B f k IH|q k IH|l k IH|l k IH]; simpl; intros v Hp; eauto.
  intros s Hs HI. destruct (Hp s Hs HI) as (? & ? & ?). eauto.
Qed.

Lemma inside_bind {A B} (p : prog A) (g : A → prog B) L v Q :
  inside p L v (λ a v', inside (g a) L v' Q) → inside (p ≫= g) L v Q.
Proof.
  revert v. induction p as [a|C f k IH|q k IH|l k IH|l k IH]; intros v Hp; [done| | |done..].
  - intros s Hs HI. destruct (Hp s Hs HI) as (? & ? & ?). split_and!; [done..|]. by apply IH.
  - intros a. by apply IH.
Qed.

Lemma inside_ebind {A B} (p : prog (result A)) (g : A → prog (result B)) L v Q :
  inside p L v (λ r v', match r with Ok a => inside (g a) L v' Q | Err e => Q (Err e) v' end) → inside (ebind p g) L v Q.
Proof. intros Hp. apply inside_bind. eapply inside_mono; [|exact Hp]. by intros [a|e] v' Hr. Qed.

Lemma inside_wrapping {A} format (p : prog (result A)) L v (Q : result A → V → Prop) :
  inside p L v (λ r, Q (wrap_err (Errorf format) r)) → inside (wrapping format p) L v Q.
Proof. intros Hp. by apply inside_bind. Qed.

End Critical.

End Steps.
End Conc.

(** ** Notations *)

Declare Scope prog_scope.
Delimit Scope prog_scope with prog.

Notation "x ←? p ; q" := (ebind p (λ x, q)) (at level 20, p at level 100, q at level 200, only parsing) : prog_scope.
Notation "' x ←? p ; q" := (ebind p (λ x, q)) (at level 20, x pattern, p at level 100, q at level 200, only parsing) : prog_scope.
Notation "p ?; q" := (ebind p (λ _, q)) (at level 100, q at level 200, only parsing) : prog_scope.
