(* ===== verification/Firewall.v ===== *)
(** * The firewall

    [iptables.go], [published_ports.go], [gateway_access.go], [firewalld.go],
    [bridge.go] and [host.go] of [internal/hostnet]: the rules that keep the
    guests of a network from others and from the host, and those that publish
    the ports of an instance. Rules are changed by running [iptables], under
    one mutex, so each operation is a program of [Conc].

    [iptables] is not part of the program: the class [IPTables] says what
    iptables(8) and iptables-extensions(8) document of the commands and of the
    rules that are used. *)

From S2P Require Import Prelude Errdefs Addr Network Conc.

(** ** Words of a line *)

Module Words.

(** [strings.Fields]: each step takes at least one byte. *)
Fixpoint fields_fuel (fuel : nat) (word l : list ascii) : list (list ascii) :=
  let done := if bool_decide (word = []) then [] else [word] in
  match fuel with
  | 0 => done
  | S fuel =>
      match Str.cut_one_of Str.space_sequences l with
      | Some rest => done ++ fields_fuel fuel [] rest
      | None =>
          match l with
          | [] => done
          | c :: l => fields_fuel fuel (word ++ [c]) l
          end
      end
  end.

Definition Fields (s : string) : list string :=
  Str.of_list <$> fields_fuel (S (Str.len s)) [] (Str.to_list s).

Fixpoint drop_quotes (l : list ascii) : list ascii :=
  match l with
  | c :: l' => if decide (c = "034"%char) then drop_quotes l' else l
  | [] => []
  end.

(** [strings.Trim] of quotes. *)
Definition unquote (s : string) : string :=
  Str.of_list (reverse (drop_quotes (reverse (drop_quotes (Str.to_list s))))).

(** A word that is printed as it is: printable, with no blank or quote. *)
Definition plain_byte (c : ascii) : bool :=
  Str.in_range "!" "~" c && negb (bool_decide (c = "034"%char)).

Definition plain (s : string) : bool := negb (bool_decide (s = "")) && forallb plain_byte (Str.to_list s).

Lemma plain_spec s : plain s = true ↔ s ≠ "" ∧ Forall (λ c, plain_byte c = true) (Str.to_list s).
Proof.
  unfold plain. rewrite andb_true_iff, negb_true_iff, bool_decide_eq_false, forallb_forall, Forall_forall.
  by setoid_rewrite list_elem_of_In.
Qed.

Lemma plain_byte_not_space c l : plain_byte c = true → Str.cut_one_of Str.space_sequences (c :: l) = None.
Proof.
  intros Hc. apply Str.cut_one_of_None, (Str.first_bytes plain_byte); [done|]. vm_compute. reflexivity.
Qed.

(** What ends a word: a blank, or the end. *)
Lemma fields_word w fuel word l :
  Forall (λ c, plain_byte c = true) w → length w ≤ fuel →
  fields_fuel fuel word (w ++ l) = fields_fuel (fuel - length w) (word ++ w) l.
Proof.
  revert fuel word. induction w as [|c w IH]; intros fuel word Hw Hf; simpl in *.
  - by rewrite Nat.sub_0_r, (right_id_L [] (++)).
  - destruct fuel as [|fuel]; [lia|]. apply Forall_cons in Hw as [Hc Hw].
    cbn [fields_fuel]. rewrite (plain_byte_not_space _ _ Hc). rewrite IH by (done || lia).
    by rewrite <-(assoc_L (++)).
Qed.

Lemma fields_words ws fuel :
  Forall (λ w, w ≠ [] ∧ Forall (λ c, plain_byte c = true) w) ws →
  length (concat ((λ w, w ++ [" "%char]) <$> ws)) < fuel →
  fields_fuel fuel [] (concat ((λ w, w ++ [" "%char]) <$> ws)) = ws.
Proof.
  revert fuel. induction ws as [|w ws IH]; intros fuel Hw Hf; csimpl in *.
  - destruct fuel; [lia|]. done.
  - apply Forall_cons in Hw as [[Hne Hw] Hws]. rewrite <-(assoc_L (++)). rewrite !length_app in Hf. cbn [length] in Hf.
    rewrite fields_word by (done || lia). simpl. destruct (fuel - length w) as [|f] eqn:Ef; [lia|].
    cbn [fields_fuel]. change (Str.cut_one_of Str.space_sequences (" "%char :: ?l)) with (Some l). cbn iota.
    rewrite bool_decide_false by done. simpl. f_equal. apply IH; [done|lia].
Qed.

(** Words, each with a blank after it. *)
Definition unwords (ws : list string) : string := foldr (λ w s, w +:+ String " " s) "" ws.

Lemma Fields_unwords ws : Forall (λ w, plain w = true) ws → Fields (unwords ws) = ws.
Proof.
  intros Hw. unfold Fields.
  assert (Str.to_list (unwords ws) = concat ((λ w, w ++ [" "%char]) <$> (Str.to_list <$> ws))) as E.
  { clear Hw. induction ws as [|w ws IH]; [done|]. csimpl. by rewrite Str.to_list_app, <-(assoc_L (++)), <-IH. }
  unfold Str.len. rewrite E, fields_words; [|clear E|lia].
  - rewrite <-list_fmap_compose. rewrite <-(list_fmap_id ws) at 2. apply list_fmap_ext. intros i x _. apply Str.of_to_list.
  - apply Forall_fmap. eapply Forall_impl; [exact Hw|]. intros w Hp. simpl. apply plain_spec in Hp as [Hne Hf].
    split; [|done]. intros E0. apply Hne. by apply Str.to_list_inj.
Qed.

Lemma unquote_plain s : plain s = true → unquote s = s.
Proof.
  intros [Hne Hf]%plain_spec. unfold unquote. rewrite <-(Str.of_to_list s) at 2. f_equal.
  assert (∀ l, Forall (λ c, plain_byte c = true) l → drop_quotes l = l) as Hd.
  { intros [|c l]; [done|]. intros [Hc _]%Forall_cons. simpl. rewrite decide_False; [done|].
    intros ->. vm_compute in Hc. discriminate. }
  rewrite (Hd (Str.to_list s)), Hd, reverse_involutive; [done|by apply Forall_reverse|done].
Qed.

End Words.

(** ** iptables *)

(** A packet, as rules look at it: the interfaces it comes and leaves by (none
    for one that is for the host itself), where it goes, and the states that
    connection tracking has it in. *)
Record Packet := mkPacket {
  iif : string;
  oif : string;
  dst : list Z;
  proto : string;
  dport : Z;
  ctstates : list string;
}.

(** An IPv4 address as it is written. *)
Definition address (s : string) : option (list Z) := Addr.ParseIP s ≫= Addr.To4.

(** Whether the connection is in one of the states that are listed. *)
Definition in_states (states : string) (p : Packet) : bool :=
  existsb (λ s, bool_decide (s ∈ ctstates p)) (Str.split "," states).

(** What the arguments of a rule mean of a packet, for those that are used. The
    target, which is last, does not limit what a rule matches. *)
Fixpoint means (args : list string) (p : Packet) : option bool :=
  match args with
  | [o; _] => if String.eqb o "-j" then Some true else None
  | o :: x :: rest =>
      if String.eqb o "-i" then andb (bool_decide (iif p = x)) <$> means rest p
      else if String.eqb o "-o" then andb (bool_decide (oif p = x)) <$> means rest p
      else if String.eqb o "-p" then andb (bool_decide (proto p = x)) <$> means rest p
      else if String.eqb o "-d" then
        match address x with Some a => andb (bool_decide (dst p = a)) <$> means rest p | None => None end
      else if String.eqb o "--dport" then andb (bool_decide (Str.itoa (dport p) = x)) <$> means rest p
      else if String.eqb o "--ctstate" then andb (in_states x p) <$> means rest p
      else if String.eqb o "-m" then means rest p
      else if String.eqb o "--comment" then means rest p
      else if String.eqb o "!" then
        match rest with
        | y :: rest =>
            if String.eqb x "-o" then andb (negb (bool_decide (oif p = y))) <$> means rest p
            else if String.eqb x "--ctstate" then andb (negb (in_states y p)) <$> means rest p
            else None
        | [] => None
        end
      else None
  | _ => None
  end.

(** A rule with a comment. *)
Definition tagged (comment : string) (args : list string) : Prop :=
  ∃ pre post, args = pre ++ "--comment" :: comment :: post ∧ ("--comment" ∉ pre).

(** Removing what equals a rule, the first time it is there. *)
Fixpoint remove_first {A} `{EqDecision A} (r : A) (l : list A) : list A :=
  match l with
  | [] => []
  | x :: l => if decide (x = r) then l else x :: remove_first r l
  end.

(** The targets that are not chains. *)
Definition builtin_targets : list string := ["ACCEPT"; "DROP"; "MASQUERADE"; "DNAT"].

Definition newline : ascii := "010".

(** What [iptables -S] prints: a line for the chain, and one for each rule. *)
Definition listing (lines : list string) : string := foldr (λ l s, l +:+ String newline s) "" lines.

(** A host's rules, by the table and the chain they are in; what a rule is when
    it is read from arguments, and the line that [-S] prints of it; what a
    command prints, and leaves, if it does not fail; which packets a rule
    matches, and its target. *)
Class IPTables := {
  Rule : Type;
  #[global] Rule_eq_dec :: EqDecision Rule;
  parse : list string → option Rule;
  line : string → Rule → string;
  chain_line : string → string → string;
  iptables : list string → gmap (string * string) (list Rule) → option (string * gmap (string * string) (list Rule));
  matches : Rule → Packet → bool;
  target : Rule → string;
  (** Without [-t], the table is [filter]. *)
  iptables_table c args T : c ∈ ["-N"; "-I"] → iptables ("-w" :: c :: args) T = iptables ("-w" :: "-t" :: "filter" :: c :: args) T;
  (** [-N] makes a chain that is not there yet. *)
  iptables_new t c T : iptables ["-w"; "-t"; t; "-N"; c] T =
    if T !! (t, c) is Some _ then None else Some ("", <[(t, c) := []]> T);
  (** [-C] fails unless the chain holds the rule. *)
  iptables_check t c args T : iptables ("-w" :: "-t" :: t :: "-C" :: c :: args) T =
    l ← T !! (t, c); r ← parse args; if decide (r ∈@{list Rule} l) then Some ("", T) else None;
  (** [-A] and [-I] add a rule whose target is there. *)
  iptables_append t c args T : iptables ("-w" :: "-t" :: t :: "-A" :: c :: args) T =
    l ← T !! (t, c); r ← parse args;
    if decide (target r ∈ builtin_targets ∨ is_Some (T !! (t, target r))) then Some ("", <[(t, c) := l ++ [r]]> T) else None;
  iptables_insert t c args T : iptables ("-w" :: "-t" :: t :: "-I" :: c :: "1" :: args) T =
    l ← T !! (t, c); r ← parse args;
    if decide (target r ∈ builtin_targets ∨ is_Some (T !! (t, target r))) then Some ("", <[(t, c) := r :: l]> T) else None;
  (** [-D] removes the first rule that matches. *)
  iptables_delete t c args T : iptables ("-w" :: "-t" :: t :: "-D" :: c :: args) T =
    l ← T !! (t, c); r ← parse args; if decide (r ∈@{list Rule} l) then Some ("", <[(t, c) := remove_first r l]> T) else None;
  (** [-S] prints the chain and its rules, each on a line. *)
  iptables_list t c T : iptables ["-w"; "-t"; t; "-S"; c] T =
    l ← T !! (t, c); Some (listing (chain_line t c :: (line c <$> l)), T);
  line_one c r : Words.plain c = true → newline ∉ Str.to_list (line c r);
  chain_line_one t c : Words.plain c = true → newline ∉ Str.to_list (chain_line t c);
  chain_line_comment t c : Words.plain c = true → c ≠ "--comment" → "--comment" ∉ Words.Fields (chain_line t c);
  (** The line of a rule has the arguments that make it, with its comment among
      them; some may be quoted. *)
  line_chain c r : Words.plain c = true → ∃ shown, Words.Fields (line c r) = "-A" :: c :: shown;
  line_args c shown args r : Words.Fields (line c r) = "-A" :: c :: shown →
    Forall (λ a, Words.plain a = true) args → parse args = Some r →
    parse (Words.unquote <$> shown) = Some r ∧
    ∀ comment, tagged comment args → ∃ pre quoted post,
      shown = pre ++ "--comment" :: quoted :: post ∧ ("--comment" ∉ pre) ∧ Words.unquote quoted = comment;
  (** A rule matches the packets that its arguments say, and has the target
      they name. *)
  matches_means args r p b : parse args = Some r → means args p = Some b → matches r p = b;
  target_named pre t post r : parse (pre ++ "-j" :: t :: post) = Some r → "-j" ∉ pre → target r = t;
}.

(** *** The fate of a packet *)

(** What a chain decides of a packet, or that it leaves it to what comes after
    the jump to it. *)
Inductive Verdict := Accept | Drop | Return.

Section Fate.

Context `{IPTables}.

Abbreviation Tables := (gmap (string * string) (list Rule)).

(** A packet goes through the rules of the table [filter] in their order: the
    first that matches and decides, decides. *)
Inductive fate (T : Tables) (p : Packet) : list Rule → Verdict → Prop :=
  | fate_end : fate T p [] Return
  | fate_skip r l v : matches r p = false → fate T p l v → fate T p (r :: l) v
  | fate_accept r l : matches r p = true → target r = "ACCEPT" → fate T p (r :: l) Accept
  | fate_drop r l : matches r p = true → target r = "DROP" → fate T p (r :: l) Drop
  | fate_jump r l l' v : matches r p = true → target r ∉ builtin_targets → T !! ("filter", target r) = Some l' →
      fate T p l' v → v ≠ Return → fate T p (r :: l) v
  | fate_back r l l' v : matches r p = true → target r ∉ builtin_targets → T !! ("filter", target r) = Some l' →
      fate T p l' Return → fate T p l v → fate T p (r :: l) v.

(** What becomes of a packet in a chain. *)
Definition meets (T : Tables) (chain : string) (p : Packet) (v : Verdict) : Prop :=
  ∃ l, T !! ("filter", chain) = Some l ∧ fate T p l v.

End Fate.

(** ** The host *)

Module Firewall.
Open Scope prog_scope.

(** What the guests of a network may reach on the host, as it was last set up. *)
Record Door := mkDoor { door_gateway : string; door_internal : bool }.

#[global] Instance Door_eq_dec : EqDecision Door.
Proof. solve_decision. Defined.

Section Firewall.

Context `{IPTables}.

(** [Config.UplinkInterface] and [Config.ListenerPort]; whether there is a
    system bus that firewalld may be reached on. *)
Context (UplinkInterface : string) (ListenerPort : Z) (bus : bool).

Abbreviation Tables := (gmap (string * string) (list Rule)).

(** What [Host.rulesMu] guards: the host's rules. The rest is what no code reads:
    how many commands could not be run; the bridges whose isolation is set up,
    and whether they are internal; and the bridges whose guests' access to the
    host is. *)
Record Guarded := mkGuarded {
  tables : Tables;
  failures : nat;
  walls : gmap string bool;
  doors : gmap string Door;
}.

(** [Host.networks], which [Host.mu] guards. *)
Record World := mkWorld { guarded : Guarded; networks : gmap string Network.Network }.

Definition with_tables (v : Guarded) T := mkGuarded T (failures v) (walls v) (doors v).
Definition failed (v : Guarded) := mkGuarded (tables v) (S (failures v)) (walls v) (doors v).
Definition with_walls (v : Guarded) m := mkGuarded (tables v) (failures v) m (doors v).
Definition with_doors (v : Guarded) m := mkGuarded (tables v) (failures v) (walls v) m.

Definition on_rules (f : Guarded → Guarded) (w : World) : World := mkWorld (f (guarded w)) (networks w).

(** A route of the host: where it leads, if it is not the default route, and
    the link it is on. *)
Record Route := mkRoute { Dst : option (list Z); LinkIndex : Z }.

(** What a link by its name is, and why a port cannot be listened on. *)
Inductive Link := LinkFound | LinkNotFound | LinkFailed (e : error).
Inductive Listen := Listens | EACCES | EADDRNOTAVAIL | ListenFailed (e : error).

(** Why a command could not be run; what [ip_forward] holds; the routes; the name
    of a link; a link; a change of one; which parent chain comes first; whether a
    port can be listened on; and of firewalld: whether it runs, its zones, the
    zone of a bridge, and the outcome of changing it. *)
Inductive query := QCommand | QForward | QRoutes | QLinkName | QLink | QNetlink | QParents | QListen | QRunning | QZones | QZone | QCall.

Definition answer (q : query) : Type :=
  match q with
  | QCommand | QNetlink | QCall => option error
  | QForward | QLinkName | QZone => result string
  | QRoutes => result (list Route)
  | QLink => Link
  | QParents | QRunning => bool
  | QListen => Listen
  | QZones => result (list string)
  end.

(** [Host.rulesMu] and [Host.mu]. *)
Inductive lock := rulesMu | mu.

#[global] Instance lock_eq_dec : EqDecision lock.
Proof. solve_decision. Defined.

#[global] Instance lock_countable : Countable lock.
Proof. by refine (inj_countable' (λ l, if l is rulesMu then true else false) (λ b : bool, if b then rulesMu else mu) _); intros []. Defined.

Abbreviation M := (prog (S:=World) (answer:=answer) (lock:=lock)).

(** [iptablesCommand], run: it fails as [iptables] does, or because it could not
    be run. *)
Definition iptablesCommand (args : list string) : M (result string) :=
  cannot ← ask QCommand;
  match cannot with
  | Some e => modify (on_rules failed) ≫= λ _, mret (Err e)
  | None =>
      atomically (λ w, match iptables ("-w" :: args) (tables (guarded w)) with
                       | Some (out, T) => (Ok out, on_rules (λ v, with_tables v T) w)
                       | None => (Err (New "exit status 1"), w)
                       end)
  end.

(** *** Rules ([iptables.go]) *)

Definition chainDicerUser := "DICER-USER".
Definition chainDicerIsolationStage1 := "DICER-ISOLATION-STAGE-1".
Definition chainDicerIsolationStage2 := "DICER-ISOLATION-STAGE-2".
Definition chainDicerForward := "DICER-FORWARD".
Definition chainDicerInput := "DICER-INPUT".

Record chainJump := mkJump { parent : string; comment : string; jump_target : string }.

Definition dicerJumps : list chainJump :=
  [ mkJump "FORWARD" "dicer-jump-user" chainDicerUser;
    mkJump "FORWARD" "dicer-jump-isolation" chainDicerIsolationStage1;
    mkJump "FORWARD" "dicer-jump-forward" chainDicerForward;
    mkJump "INPUT" "dicer-jump-input" chainDicerInput ].

Definition dicerChains : list string :=
  [chainDicerUser; chainDicerIsolationStage1; chainDicerIsolationStage2; chainDicerForward; chainDicerInput].

Definition natComment (bridge : string) := "dicer-nat-" +:+ bridge.
Definition forwardOutComment (bridge : string) := "dicer-fwd-out-" +:+ bridge.
Definition forwardInComment (bridge : string) := "dicer-fwd-in-" +:+ bridge.
Definition iccComment (bridge : string) := "dicer-icc-" +:+ bridge.
Definition isolationStage1Comment (bridge : string) := "dicer-isolation-s1-" +:+ bridge.
Definition isolationStage2Comment (bridge : string) := "dicer-isolation-s2-" +:+ bridge.
Definition internalComment (bridge : string) := "dicer-internal-" +:+ bridge.
Definition inputAcceptComment (bridge : string) := "dicer-input-accept-" +:+ bridge.
Definition inputDropComment (bridge : string) := "dicer-input-drop-" +:+ bridge.
Definition inputListenerDropComment (bridge : string) := "dicer-input-listener-drop-" +:+ bridge.
Definition inputDNSComment (bridge : string) := "dicer-input-dns-" +:+ bridge.
Definition inputRepliesComment (bridge : string) := "dicer-input-replies-" +:+ bridge.
Definition inputInternalComment (bridge : string) := "dicer-input-internal-" +:+ bridge.

(** [commented]: [slices.Insert] of the match before the first [-j]. *)
Fixpoint commented (comment : string) (args : list string) : list string :=
  match args with
  | [] => []
  | a :: rest => if String.eqb a "-j" then "-m" :: "comment" :: "--comment" :: comment :: a :: rest else a :: commented comment rest
  end.

Definition ruleExists (table chain : string) (rule : list string) : M bool :=
  r ← iptablesCommand (["-t"; table; "-C"; chain] ++ rule); mret (is_ok r).

Definition appendRule (table chain : string) (rule : list string) : M (result unit) :=
  wrapping "append rule to %s/%s: %w: %s" (iptablesCommand (["-t"; table; "-A"; chain] ++ rule)) ?;
  mret (Ok tt).

(** The loop of [ruleComment]: a field that is [--comment], and the next. *)
Fixpoint comment_field (fields : list string) : string :=
  match fields with
  | f :: (g :: _) as rest => if String.eqb f "--comment" then Words.unquote g else comment_field rest
  | _ => ""
  end.

Definition ruleComment (line : string) : string := comment_field (Words.Fields line).

Definition of_errors (errs : option error) : result unit := if errs is Some e then Err e else Ok tt.

(** The loop of [deleteRulesWithComment] over the lines. *)
Fixpoint deleteLines (table comment : string) (lines : list string) (errs : option error) : M (result unit) :=
  match lines with
  | [] => mret (of_errors errs)
  | line :: lines =>
      if negb (bool_decide (ruleComment line = comment)) then deleteLines table comment lines errs
      else
        let args := Words.unquote <$> ("-D" :: drop 1 (Words.Fields line)) in
        r ← wrapping "delete rule %q in %s/%s: %w: %s" (iptablesCommand (["-t"; table] ++ args));
        deleteLines table comment lines (if r is Err e then joined errs e else errs)
  end.

Definition deleteRulesWithComment (table chain comment : string) : M (result unit) :=
  out ←? wrapping "list rules in %s/%s: %w" (iptablesCommand ["-t"; table; "-S"; chain]);
  deleteLines table comment (Str.split newline out) None.

(** Deleting the rules of each chain with each comment, and collecting the
    errors. *)
Fixpoint deleteAll (pairs : list (string * string)) (errs : option error) : M (result unit) :=
  match pairs with
  | [] => mret (of_errors errs)
  | (chain, comment) :: pairs =>
      r ← deleteRulesWithComment "filter" chain comment;
      deleteAll pairs (if r is Err e then joined errs e else errs)
  end.

Definition ensureRule (table chain comment : string) (args : list string) : M (result unit) :=
  let rule := commented comment args in
  ruleExists table chain rule ≫= λ found : bool,
  if found then mret (Ok tt)
  else
    ignoring (deleteRulesWithComment table chain comment) ≫= λ _,
    appendRule table chain rule.

Definition jumpRule (j : chainJump) : list string := commented (comment j) ["-j"; jump_target j].

(** [slices.ContainsFunc] of a rule that is missing. *)
Fixpoint anyMissing (table chain : string) (rules : list (list string)) : M bool :=
  match rules with
  | [] => mret false
  | rule :: rules =>
      ruleExists table chain rule ≫= λ found : bool,
      if found then anyMissing table chain rules else mret true
  end.

Fixpoint insertJumps (jumps : list chainJump) : M (result unit) :=
  match jumps with
  | [] => mret (Ok tt)
  | j :: jumps =>
      wrapping "insert %s jump to %s: %w: %s" (iptablesCommand (["-I"; parent j; "1"] ++ jumpRule j)) ?;
      insertJumps jumps
  end.

(** The body of [ensureDicerChains]'s loop over the parent chains. *)
Definition ensureJumps (from : string) : M (result unit) :=
  let jumps := filter (λ j, parent j = from) dicerJumps in
  anyMissing "filter" from (jumpRule <$> jumps) ≫= λ missing : bool,
  if negb missing then mret (Ok tt)
  else
    for_all (λ j, ignoring (deleteRulesWithComment "filter" from (comment j))) jumps ≫= λ _,
    insertJumps (reverse jumps).

(** [ensureDicerChains]; the order of a map's keys is not defined. *)
Definition ensureDicerChains : M (result unit) :=
  for_all (λ chain, ignoring (iptablesCommand ["-N"; chain])) dicerChains ≫= λ _,
  ask QParents ≫= λ forwardFirst : bool,
  ensureJumps (if forwardFirst then "FORWARD" else "INPUT") ?;
  ensureJumps (if forwardFirst then "INPUT" else "FORWARD").

Definition iccRule (bridge : string) := ["-i"; bridge; "-o"; bridge; "-j"; "ACCEPT"].

Definition outboundRule (bridge uplink : string) :=
  ["-i"; bridge; "-o"; uplink; "-m"; "conntrack"; "--ctstate"; "NEW,RELATED,ESTABLISHED"; "-j"; "ACCEPT"].

Definition inboundRule (bridge uplink : string) :=
  ["-i"; uplink; "-o"; bridge; "-m"; "conntrack"; "--ctstate"; "RELATED,ESTABLISHED"; "-j"; "ACCEPT"].

Definition ensureForwardRules (bridge uplink : string) : M (result unit) :=
  wrapping "add ICC rule for %s: %w" (ensureRule "filter" chainDicerForward (iccComment bridge) (iccRule bridge)) ?;
  wrapping "add outbound forward for %s: %w"
    (ensureRule "filter" chainDicerForward (forwardOutComment bridge) (outboundRule bridge uplink)) ?;
  wrapping "add inbound forward for %s: %w"
    (ensureRule "filter" chainDicerForward (forwardInComment bridge) (inboundRule bridge uplink)).

Definition removeForwardRules (bridge : string) : M (result unit) :=
  deleteAll [(chainDicerForward, iccComment bridge); (chainDicerForward, forwardOutComment bridge);
             (chainDicerForward, forwardInComment bridge)] None.

Definition internalRule (bridge : string) :=
  ["-i"; bridge; "!"; "-o"; bridge; "-m"; "conntrack"; "!"; "--ctstate"; "ESTABLISHED,RELATED"; "-j"; "DROP"].

Definition stage1Rule (bridge : string) := ["-i"; bridge; "!"; "-o"; bridge; "-j"; chainDicerIsolationStage2].

Definition stage2Rule (bridge : string) := ["-o"; bridge; "-j"; "DROP"].

Definition ensureIsolationRules (bridge : string) (internal : bool) : M (result unit) :=
  (if internal then
     wrapping "add internal rule for %s: %w"
       (ensureRule "filter" chainDicerIsolationStage1 (internalComment bridge) (internalRule bridge))
   else
     wrapping "remove internal rule for %s: %w"
       (deleteRulesWithComment "filter" chainDicerIsolationStage1 (internalComment bridge))) ?;
  wrapping "add isolation stage-1 rule for %s: %w"
    (ensureRule "filter" chainDicerIsolationStage1 (isolationStage1Comment bridge) (stage1Rule bridge)) ?;
  wrapping "add isolation stage-2 rule for %s: %w"
    (ensureRule "filter" chainDicerIsolationStage2 (isolationStage2Comment bridge) (stage2Rule bridge)).

Definition removeIsolationRules (bridge : string) : M (result unit) :=
  deleteAll [(chainDicerIsolationStage1, isolationStage1Comment bridge); (chainDicerIsolationStage1, internalComment bridge);
             (chainDicerIsolationStage2, isolationStage2Comment bridge)] None.

(** *** The uplink ([host.go]) *)

Definition ErrNoDefaultRoute : error := New "no default route found for uplink detection: set network.uplink_interface in the configuration".

Definition ErrForwardingDisabled : error := New "IPv4 forwarding is not enabled: turn it on with sysctl -w net.ipv4.ip_forward=1".

(** A route that is not the default one. *)
Definition elsewhere (r : Route) : bool :=
  match Dst r with Some ip => negb (forallb (λ b, (b =? 0)%Z) ip) | None => false end.

Definition uplink : M (result string) :=
  if negb (bool_decide (UplinkInterface = "")) then mret (Ok UplinkInterface)
  else
    routes ←? wrapping "list routes: %w" (ask QRoutes);
    if forallb elsewhere routes then mret (Err ErrNoDefaultRoute)
    else wrapping "look up link %d: %w" (ask QLinkName).

(** *** A bridge's rules *)

Definition masqueradeRule (subnetCIDR uplink : string) := ["-s"; subnetCIDR; "-o"; uplink; "-j"; "MASQUERADE"].

(** The isolation of a bridge, and then its access, is about to change. *)
Definition breach (bridge : string) : M unit := modify (on_rules (λ v, with_walls v (delete bridge (walls v)))).

Definition unbar (bridge : string) : M unit := modify (on_rules (λ v, with_doors v (delete bridge (doors v)))).

Definition setupIPTables (bridge subnetCIDR : string) (internal : bool) : M (result unit) :=
  with_lock rulesMu (
    breach bridge ≫= λ _,
    data ←? wrapping "check ip forwarding: %w" (ask QForward);
    if negb (bool_decide (Str.trim_space data = "1")) then mret (Err ErrForwardingDisabled)
    else
      link ←? uplink;
      wrapping "set up Dicer's chains: %w" ensureDicerChains ?;
      wrapping "set up NAT: %w" (ensureRule "nat" "POSTROUTING" (natComment bridge) (masqueradeRule subnetCIDR link)) ?;
      wrapping "set up forward rules: %w" (ensureForwardRules bridge link) ?;
      wrapping "set up isolation rules: %w" (ensureIsolationRules bridge internal) ?;
      modify (on_rules (λ v, with_walls v (<[bridge := internal]> (walls v)))) ≫= λ _,
      mret (Ok tt)).

Definition teardownIPTables (bridge : string) : M unit :=
  with_lock rulesMu (
    breach bridge ≫= λ _,
    ignoring (deleteRulesWithComment "nat" "POSTROUTING" (natComment bridge)) ≫= λ _,
    ignoring (removeForwardRules bridge) ≫= λ _,
    ignoring (removeIsolationRules bridge)).

(** *** Access to the host ([ensureInputRules], [gateway_access.go]) *)

Definition listenerRule (bridge : string) : list string :=
  commented (inputListenerDropComment bridge) ["-i"; bridge; "-p"; "tcp"; "--dport"; Str.itoa ListenerPort; "-j"; "DROP"].

Definition acceptRule (bridge gatewayIP : string) : list string :=
  commented (inputAcceptComment bridge) ["-i"; bridge; "-d"; gatewayIP; "-j"; "ACCEPT"].

Definition dnsRule (bridge gatewayIP protocol : string) : list string :=
  commented (inputDNSComment bridge) ["-i"; bridge; "-d"; gatewayIP; "-p"; protocol; "--dport"; "53"; "-j"; "ACCEPT"].

Definition repliesRule (bridge : string) : list string :=
  commented (inputRepliesComment bridge) ["-i"; bridge; "-m"; "conntrack"; "--ctstate"; "ESTABLISHED,RELATED"; "-j"; "ACCEPT"].

Definition internalDropRule (bridge : string) : list string :=
  commented (inputInternalComment bridge) ["-i"; bridge; "-j"; "DROP"].

Definition dropRule (bridge gatewayIP : string) : list string :=
  commented (inputDropComment bridge) ["-d"; gatewayIP; "-j"; "DROP"].

(** The rules that [ensureInputRules] makes, in their order. *)
Definition inputRules (bridge gatewayIP : string) (internal : bool) : list (list string) :=
  (if (ListenerPort =? 0)%Z then [] else [listenerRule bridge]) ++
  (if internal then
     [dnsRule bridge gatewayIP "udp"; dnsRule bridge gatewayIP "tcp"; repliesRule bridge; internalDropRule bridge]
   else [acceptRule bridge gatewayIP]) ++
  [dropRule bridge gatewayIP].

Definition inputComments (bridge : string) : list string :=
  [inputListenerDropComment bridge; inputDNSComment bridge; inputRepliesComment bridge; inputInternalComment bridge;
   inputAcceptComment bridge; inputDropComment bridge].

Definition removeInputRules (bridge : string) : M (result unit) :=
  deleteAll (pair chainDicerInput <$> inputComments bridge) None.

Fixpoint appendRules (table chain : string) (rules : list (list string)) : M (result unit) :=
  match rules with
  | [] => mret (Ok tt)
  | rule :: rules => wrapping "add input rule for %s: %w" (appendRule table chain rule) ?; appendRules table chain rules
  end.

Definition ensureInputRules (bridge gatewayIP : string) (internal : bool) : M (result unit) :=
  (if (ListenerPort =? 0)%Z then
     wrapping "remove input listener drop rule for %s: %w"
       (deleteRulesWithComment "filter" chainDicerInput (inputListenerDropComment bridge))
   else mret (Ok tt)) ?;
  let rules := inputRules bridge gatewayIP internal in
  let stale := if internal then acceptRule bridge gatewayIP else internalDropRule bridge in
  ruleExists "filter" chainDicerInput stale ≫= λ hasStale : bool,
  (if hasStale then mret true else anyMissing "filter" chainDicerInput rules) ≫= λ missing : bool,
  if negb missing then mret (Ok tt)
  else
    ignoring (removeInputRules bridge) ≫= λ _,
    appendRules "filter" chainDicerInput rules.

(** *** firewalld ([firewalld.go]) *)

Definition firewalldZone := "dicer".

Definition errNoFirewalldZone : error := New "firewalld has no %q zone".

(** The calls of firewalld's zone interface. *)
Definition getZones : M (result (list string)) := wrapping "list firewalld zones: %w" (ask QZones).

Definition getZoneOfInterface : M (result string) := wrapping "find the firewalld zone of %s: %w" (ask QZone).

Definition changeZone (format : string) : M (result unit) :=
  r ← ask QCall; mret (if r is Some e then Err (Errorf format e) else Ok tt).

Definition bind : M (result unit) :=
  running ← ask QRunning;
  if negb running then mret (Ok tt)
  else
    zones ←? getZones;
    if negb (existsb (String.eqb firewalldZone) zones) then mret (Err errNoFirewalldZone)
    else
      zone ←? getZoneOfInterface;
      if bool_decide (zone = firewalldZone) then mret (Ok tt)
      else changeZone "bind %s to firewalld zone %q: %w".

Definition unbind : M (result unit) :=
  running ← ask QRunning;
  if negb running then mret (Ok tt)
  else
    zone ←? getZoneOfInterface;
    if negb (bool_decide (zone = firewalldZone)) then mret (Ok tt)
    else changeZone "unbind %s from firewalld zone %q: %w".

Definition ensureGatewayAccess (nw : Network.Network) : M (result unit) :=
  wrapping "set up input rules: %w" (with_lock rulesMu (
    unbar (Network.Bridge nw) ≫= λ _,
    ensureInputRules (Network.Bridge nw) (Network.Gateway nw) (Network.Internal nw) ?;
    modify (on_rules (λ v, with_doors v (<[Network.Bridge nw := mkDoor (Network.Gateway nw) (Network.Internal nw)]> (doors v)))) ≫= λ _,
    mret (Ok tt))) ?;
  if negb bus then mret (Ok tt)
  else
    r ← bind;
    mret (if r is Err e then if bool_decide (e = errNoFirewalldZone) then Ok tt else Err e else Ok tt).

Definition removeGatewayAccess (nw : Network.Network) : M unit :=
  (if bus then ignoring unbind else mret tt) ≫= λ _,
  with_lock rulesMu (
    unbar (Network.Bridge nw) ≫= λ _,
    ignoring (removeInputRules (Network.Bridge nw))).

(** *** Published ports ([published_ports.go]) *)

Definition chainDicerDNAT := "DICER-DNAT".

(** The jumps to it: the chain they are in, their comments and what they match. *)
Definition dnatJumps : list (string * string * list string) :=
  [ ("PREROUTING", "dicer-jump-dnat-prerouting", ["-m"; "addrtype"; "--dst-type"; "LOCAL"]);
    ("OUTPUT", "dicer-jump-dnat-output", ["!"; "-d"; "127.0.0.0/8"; "-m"; "addrtype"; "--dst-type"; "LOCAL"]) ].

Definition portComment (instanceID : string) := "dicer-port-" +:+ instanceID.

Fixpoint ensureDNATJumps (jumps : list (string * string * list string)) : M (result unit) :=
  match jumps with
  | [] => mret (Ok tt)
  | (parent, comment, match_) :: jumps =>
      let rule := match_ ++ ["-m"; "comment"; "--comment"; comment; "-j"; chainDicerDNAT] in
      ruleExists "nat" parent rule ≫= λ found : bool,
      (if found then mret (Ok tt)
       else
         wrapping "insert %s jump to %s: %w: %s" (iptablesCommand (["-t"; "nat"; "-I"; parent; "1"] ++ rule)) ?;
         mret (Ok tt)) ?;
      ensureDNATJumps jumps
  end.

Definition ensureDNATChain : M (result unit) :=
  ignoring (iptablesCommand ["-t"; "nat"; "-N"; chainDicerDNAT]) ≫= λ _,
  ensureDNATJumps dnatJumps.

Definition chainExists (table chain : string) : M bool :=
  r ← iptablesCommand ["-t"; table; "-S"; chain]; mret (is_ok r).

Definition unpublishPorts (instanceID : string) : M unit :=
  for_all (λ '((table, chain) : string * string),
    chainExists table chain ≫= λ found : bool,
    if negb found then mret tt
    else ignoring (deleteRulesWithComment table chain (portComment instanceID)))
    [("nat", chainDicerDNAT); ("filter", chainDicerForward)].

Definition UnpublishPorts (instanceID : string) : M unit := with_lock rulesMu (unpublishPorts instanceID).

(** [checkHostPortFree]: a port that cannot be tried may be free. *)
Definition checkHostPortFree : M (result unit) :=
  r ← ask QListen;
  mret match r with
       | Listens | EACCES => Ok tt
       | EADDRNOTAVAIL => Err (InvalidArgument "cannot publish port %s: %s is not an address of this host")
       | ListenFailed e => Err (classifyWrapped ErrInvalidState "cannot publish port %s: something on the host is already using it (%w)" e)
       end.

Fixpoint checkHostPortsFree (ports : list Network.PortMapping) : M (result unit) :=
  match ports with
  | [] => mret (Ok tt)
  | _ :: ports => checkHostPortFree ?; checkHostPortsFree ports
  end.

Definition dnatRule (instanceID ip : string) (p : Network.PortMapping) : list string :=
  ["-p"; Network.EffectiveProtocol p] ++
  (if bool_decide (Network.HostIP p = "") then [] else ["-d"; Network.HostIP p]) ++
  ["--dport"; Str.itoa (Network.HostPort p); "-m"; "comment"; "--comment"; portComment instanceID;
   "-j"; "DNAT"; "--to-destination"; Addr.JoinHostPort ip (Str.itoa (Network.GuestPort p))].

Definition forwardRule (bridge instanceID ip : string) (p : Network.PortMapping) : list string :=
  ["-d"; ip; "-o"; bridge; "-p"; Network.EffectiveProtocol p; "--dport"; Str.itoa (Network.GuestPort p);
   "-m"; "conntrack"; "--ctstate"; "DNAT"; "-m"; "comment"; "--comment"; portComment instanceID; "-j"; "ACCEPT"].

Fixpoint publish (bridge instanceID ip : string) (ports : list Network.PortMapping) : M (result unit) :=
  match ports with
  | [] => mret (Ok tt)
  | p :: ports =>
      on_error (unpublishPorts instanceID)
        (wrapping "publish port %s: %w"
          (appendRule "filter" chainDicerForward (forwardRule bridge instanceID ip p) ?;
           appendRule "nat" chainDicerDNAT (dnatRule instanceID ip p))) ?;
      publish bridge instanceID ip ports
  end.

Definition PublishPorts (nw : Network.Network) (allocation : Network.Allocation) (ports : list Network.PortMapping) : M (result unit) :=
  with_lock rulesMu (
    wrapping "set up %s chain: %w" ensureDNATChain ?;
    unpublishPorts (Network.Allocation_InstanceID allocation) ≫= λ _,
    checkHostPortsFree ports ?;
    publish (Network.Bridge nw) (Network.Allocation_InstanceID allocation) (Network.Allocation_IP allocation) ports).

(** *** Bridges ([bridge.go]) *)

Definition netlink (format : string) : M (result unit) :=
  e ← ask QNetlink; mret (if e is Some e then Err (Errorf format e) else Ok tt).

Definition ensureBridge : M (result unit) :=
  br ← ask QLink;
  match br with
  | LinkFound => mret (Ok tt)
  | LinkNotFound => netlink "create bridge %s: %w"
  | LinkFailed e => mret (Err (Errorf "look up bridge %s: %w" e))
  end ?;
  netlink "set bridge %s up: %w" ?;
  netlink "add gateway to bridge %s: %w".

Definition deleteBridge : M (result unit) :=
  br ← ask QLink;
  match br with
  | LinkFound => netlink "delete bridge %s: %w"
  | LinkNotFound => mret (Ok tt)
  | LinkFailed e => mret (Err (Errorf "look up bridge %s: %w" e))
  end.

Definition SetupBridge (nw : Network.Network) : M (result unit) :=
  mret (if Addr.ParseCIDR (Network.Subnet nw) is Some _ then Ok tt else Err (New "invalid subnet configuration")) ?;
  ensureBridge ?;
  with_lock mu (modify (λ w, mkWorld (guarded w) (<[Network.Bridge nw := nw]> (networks w)))) ≫= λ _,
  wrapping "set up iptables rules: %w" (setupIPTables (Network.Bridge nw) (Network.Subnet nw) (Network.Internal nw)) ?;
  wrapping "let guests reach gateway %s: %w" (ensureGatewayAccess nw).

Definition TeardownBridge (nw : Network.Network) : M unit :=
  with_lock mu (modify (λ w, mkWorld (guarded w) (delete (Network.Bridge nw) (networks w)))) ≫= λ _,
  removeGatewayAccess nw ≫= λ _,
  ignoring deleteBridge ≫= λ _,
  teardownIPTables (Network.Bridge nw).

(** What [WatchFirewalld] does each time firewalld reloads. *)
Definition reloaded : M unit :=
  all ← with_lock mu (gets (λ w, (map_to_list (networks w)).*2));
  for_all (λ nw, ignoring (SetupBridge nw)) all.

(** The daemon dies, and its memory with it. *)
Definition died (w : World) : World := mkWorld (guarded w) ∅.

End Firewall.
End Firewall.
