(* ===== verification/Chains.v ===== *)
(** * Chains of rules

    What [Firewall]'s operations do to the chains that keep guests apart while
    they hold the lock, whichever of their commands fail: [inv] says what those
    chains hold, and every operation keeps it. *)

From S2P Require Import Prelude Errdefs Addr Network Conc Firewall.

Module Chains.
Import Firewall.
Open Scope prog_scope.

(** ** Lists *)

Lemma filter_remove_first {A} `{EqDecision A} (P : A → Prop) `{∀ x, Decision (P x)} (r : A) l :
  ¬ P r → filter P (remove_first r l) = filter P l.
Proof.
  intros Hr. induction l as [|x l IH]; simpl; [done|]. case_decide as E; [subst x; by rewrite filter_cons_False|].
  rewrite !filter_cons. case_decide; by rewrite IH.
Qed.

Lemma filter_remove_head {A} `{EqDecision A} (P : A → Prop) `{∀ x, Decision (P x)} (r : A) l k :
  filter P l = r :: k → filter P (remove_first r l) = k.
Proof.
  induction l as [|x l IH]; simpl; [done|]. rewrite filter_cons. case_decide as Hx.
  - intros [= -> <-]. by rewrite decide_True.
  - intros E. assert (r ∈ filter P l) as [Hr _]%list_elem_of_filter by (rewrite E; left).
    rewrite decide_False by congruence. rewrite filter_cons_False by done. auto.
Qed.

Lemma remove_first_elem {A} `{EqDecision A} (r x : A) l : x ∈ remove_first r l → x ∈ l.
Proof.
  induction l as [|y l IH]; simpl; [done|]. case_decide; [by right|]. rewrite !elem_of_cons. naive_solver.
Qed.

Lemma filter_remove_sublist {A} `{EqDecision A} (P : A → Prop) `{∀ x, Decision (P x)} (r : A) l :
  filter P (remove_first r l) `sublist_of` filter P l.
Proof.
  induction l as [|x l IH]; simpl; [done|]. case_decide as E.
  - rewrite (filter_cons P x). case_decide; [by apply sublist_cons|done].
  - rewrite !filter_cons. case_decide; [by apply sublist_skip|done].
Qed.

Lemma filter_sub {A} (P Q : A → Prop) `{∀ x, Decision (P x), ∀ x, Decision (Q x)} (l : list A) :
  (∀ x, P x → Q x) → filter P (filter Q l) = filter P l.
Proof.
  intros HPQ. induction l as [|x l IH]; [done|]. rewrite (filter_cons Q). case_decide as HQ.
  - rewrite !filter_cons. case_decide; by rewrite IH.
  - rewrite IH, filter_cons_False; [done|]. auto.
Qed.

(** What remains of two lists that differ by a part is the same. *)
Lemma filter_transfer {A} (P Q : A → Prop) `{∀ x, Decision (P x), ∀ x, Decision (Q x)} (l k : list A) :
  (∀ x, P x → Q x) → filter Q l = filter Q k → filter P l = filter P k.
Proof. intros HPQ E. rewrite <-(filter_sub P Q l), <-(filter_sub P Q k), E by done. done. Qed.

(** A list that has all of one it is part of. *)
Lemma sublist_full {A} (l k : list A) : l `sublist_of` k → NoDup k → (∀ x, x ∈ k → x ∈ l) → l = k.
Proof.
  induction 1 as [|x l k Hs IH|x l k Hs IH]; intros Hn Hk; [done|..]; apply NoDup_cons in Hn as [Hx Hn].
  - f_equal. apply IH; [done|]. intros y Hy. specialize (Hk y ltac:(by right)). apply elem_of_cons in Hk as [->|]; done.
  - destruct Hx. eapply elem_of_submseteq; [apply Hk; left|]. by apply sublist_submseteq.
Qed.

(** ** Comments *)

Lemma string_app_inj (a b c : string) : a +:+ b = a +:+ c → b = c.
Proof. intros E%(f_equal Str.to_list). rewrite !Str.to_list_app in E. by simplify_list_eq; apply Str.to_list_inj. Qed.

Definition stageComments (bridge : string) : list string :=
  [isolationStage1Comment bridge; internalComment bridge; isolationStage2Comment bridge].

#[local] Ltac distinct :=
  rewrite ?elem_of_cons, ?elem_of_nil; intros; destruct_or? ; simplify_eq/=; try done.

(** No comment is that of two bridges. *)
Lemma stageComments_apart b b' x : x ∈ stageComments b → x ∈ stageComments b' → b = b'.
Proof. unfold stageComments. distinct. Qed.

Lemma inputComments_apart b b' x : x ∈ inputComments b → x ∈ inputComments b' → b = b'.
Proof. unfold inputComments. distinct. Qed.

Section Chains.

Context `{IPTables} (UplinkInterface : string) (ListenerPort : Z) (bus : bool).

Abbreviation Tables := (gmap (string * string) (list Rule)).
Abbreviation M := (prog (S:=World) (answer:=answer) (lock:=lock)).
Abbreviation inputRules := (inputRules ListenerPort).

Implicit Types (T : Tables) (v : Guarded) (r : Rule) (l : list Rule) (args : list string) (b : string).

(** ** What the rules of a chain are *)

(** The comment of a rule, as it is read back. *)
Definition tag (c : string) (r : Rule) : string := ruleComment (line c r).

Lemma comment_field_none fields : "--comment" ∉ fields → comment_field fields = "".
Proof.
  induction fields as [|f [|g fields] IH]; [done..|]. intros Hn. simpl.
  destruct (String.eqb_spec f "--comment") as [->|]; [set_solver|]. apply IH. set_solver.
Qed.

Lemma comment_field_found pre quoted post :
  "--comment" ∉ pre → comment_field (pre ++ "--comment" :: quoted :: post) = Words.unquote quoted.
Proof.
  induction pre as [|f pre IH]; intros Hn; [done|].
  assert (comment_field ((f :: pre) ++ "--comment" :: quoted :: post) = comment_field (pre ++ "--comment" :: quoted :: post)) as ->.
  { simpl. destruct (pre ++ "--comment" :: quoted :: post) as [|g rest] eqn:E; [by destruct pre|].
    destruct (String.eqb_spec f "--comment") as [->|]; [set_solver|done]. }
  apply IH. set_solver.
Qed.

Definition all_plain args : Prop := Forall (λ a, Words.plain a = true) args.

(** The rule that arguments make is read back with their comment. *)
Lemma tag_parsed c args r x :
  Words.plain c = true → c ≠ "--comment" → all_plain args → parse args = Some r → tagged x args → tag c r = x.
Proof.
  intros Hc Hne Hp Hr Hx. unfold tag, ruleComment. destruct (line_chain c r Hc) as [shown E].
  destruct (line_args c shown args r E Hp Hr) as (_ & Ht). destruct (Ht x Hx) as (pre & quoted & post & -> & Hpre & <-).
  rewrite E. apply (comment_field_found ("-A" :: c :: pre)). set_solver.
Qed.

(** The chains that the guarantees are about. *)
Definition guardedChains : list string := [chainDicerIsolationStage1; chainDicerIsolationStage2; chainDicerInput].

Definition chain T (c : string) : list Rule := default [] (T !! ("filter", c)).

Definition internalArgs b := commented (internalComment b) (internalRule b).
Definition stage1Args b := commented (isolationStage1Comment b) (stage1Rule b).
Definition stage2Args b := commented (isolationStage2Comment b) (stage2Rule b).

Definition fit_gateway (gw : string) : Prop := Words.plain gw = true ∧ is_Some (address gw).

(** The rules of a bridge in each of them. *)
Inductive form : string → string → list string → Prop :=
  | form_internal b : form chainDicerIsolationStage1 b (internalArgs b)
  | form_stage1 b : form chainDicerIsolationStage1 b (stage1Args b)
  | form_stage2 b : form chainDicerIsolationStage2 b (stage2Args b)
  | form_input b gw internal args : fit_gateway gw → args ∈ inputRules b gw internal → form chainDicerInput b args.

Definition commentsOf (c b : string) : list string :=
  if bool_decide (c = chainDicerInput) then inputComments b else stageComments b.

Lemma commentsOf_apart c b b' x : x ∈ commentsOf c b → x ∈ commentsOf c b' → b = b'.
Proof. unfold commentsOf. case_bool_decide; [apply inputComments_apart|apply stageComments_apart]. Qed.

Lemma form_guarded c b args : form c b args → c ∈ guardedChains.
Proof. intros []; unfold guardedChains; set_solver. Qed.

Lemma guarded_plain c : c ∈ guardedChains → Words.plain c = true ∧ c ≠ "--comment".
Proof. unfold guardedChains. rewrite !elem_of_cons, elem_of_nil. intros [->|[->|[->|[]]]]; by vm_compute. Qed.

Lemma plain_app s1 s2 : Words.plain s1 = true → Words.plain s2 = true → Words.plain (s1 +:+ s2) = true.
Proof.
  rewrite !Words.plain_spec. intros [Hn1 H1] [_ H2]. rewrite Str.to_list_app, Forall_app. split; [|done]. by destruct s1.
Qed.

Definition digits (s : string) : Prop := s ≠ "" ∧ Forall (λ c, Str.is_digit c = true) (Str.to_list s).

Lemma digits_pretty_N (x : N) : digits (pretty x).
Proof.
  unfold pretty, pretty_N. case_decide as Hx; [split; [done|by repeat constructor]|].
  assert (∀ s, (s = "" ∨ digits s) → digits (pretty_N_go x s)) as Hgo; [|by apply Hgo; left].
  assert (∀ d s, (d < 10)%N → (s = "" ∨ digits s) → digits (String (pretty_N_char d) s)) as Hd.
  { intros d s Hlt Hs. split; [done|]. constructor; [|by destruct Hs as [->|[_ Hs]]; [constructor|]].
    assert (d ∈ [0; 1; 2; 3; 4; 5; 6; 7; 8; 9]%N) as Hin by (rewrite !elem_of_cons; lia).
    revert Hin. clear. rewrite !elem_of_cons, elem_of_nil. intros; destruct_or? ; subst; by vm_compute. }
  revert Hx. induction (N.lt_wf_0 x) as [x _ IH]. intros Hx s Hs. rewrite pretty_N_go_step by lia.
  assert (digits (String (pretty_N_char (x `mod` 10)) s)) as Hs' by (apply Hd; [by apply N.mod_lt|done]).
  destruct (decide (x / 10 = 0)%N) as [E|E]; [by rewrite E, pretty_N_go_0|].
  apply IH; [apply N.div_lt; lia|done|by right].
Qed.

(** A number is a word, and not an option. *)
Lemma itoa_digits z : ∃ s, digits s ∧ (Str.itoa z = s ∨ Str.itoa z = "-" +:+ s).
Proof.
  unfold Str.itoa. destruct z as [|p|p]; [exists "0"|exists (pretty (N.pos p))|exists (pretty (N.pos p))].
  - split; [split; [done|by repeat constructor]|by left].
  - split; [apply digits_pretty_N|by left].
  - split; [apply digits_pretty_N|by right].
Qed.

Lemma digits_plain s : digits s → Words.plain s = true.
Proof.
  intros [Hne Hf]. apply Words.plain_spec. split; [done|]. eapply Forall_impl; [exact Hf|]. simpl. clear.
  intros [[] [] [] [] [] [] [] []]; by vm_compute.
Qed.

Lemma plain_itoa z : Words.plain (Str.itoa z) = true.
Proof. destruct (itoa_digits z) as (s & Hs%digits_plain & [->| ->]); [done|]. by apply plain_app. Qed.

Lemma itoa_not_option z o c s : Str.to_list o = "-"%char :: c :: s → Str.is_digit c = false → Str.itoa z ≠ o.
Proof.
  intros Ho Hc E. destruct (itoa_digits z) as (s' & [Hne Hs] & Ez). rewrite E in Ez. clear E. destruct Ez as [->| ->].
  - rewrite Ho in Hs. apply Forall_cons in Hs as [Hd _]. by vm_compute in Hd.
  - change ("-"%char :: Str.to_list s' = "-"%char :: c :: s) in Ho. injection Ho as Ho. rewrite Ho in Hs.
    apply Forall_cons in Hs as [Hd _]. congruence.
Qed.

(** Rules with a comment and then a target. *)
Definition marked (pre : list string) (x t : string) : list string := pre ++ ["-m"; "comment"; "--comment"; x; "-j"; t].

Lemma commented_marked x pre t : "-j" ∉ pre → commented x (pre ++ ["-j"; t]) = marked pre x t.
Proof.
  induction pre as [|a pre IH]; intros Hn; [done|]. simpl.
  destruct (String.eqb_spec a "-j") as [->|]; [set_solver|]. rewrite IH by set_solver. done.
Qed.

(** Names that are not taken for options. *)
Definition fit_bridge (b : string) : Prop := Words.plain b = true ∧ b ≠ "-j" ∧ b ≠ "--comment".

Lemma fit_gateway_option gw o : address o = None → fit_gateway gw → gw ≠ o.
Proof. intros Ho [_ [a Ha]] ->. congruence. Qed.

#[local] Ltac no_option :=
  rewrite ?not_elem_of_cons; split_and? ;
  first [apply not_elem_of_nil|discriminate|congruence|by apply not_eq_sym, fit_gateway_option
        |by eapply not_eq_sym, itoa_not_option].

#[local] Ltac plain_args :=
  repeat constructor; first [done|apply plain_itoa|match goal with Hgw : fit_gateway _ |- _ => apply Hgw end].

(** Each rule has the comment of its bridge, before its target. *)
Definition well_marked (c b : string) (args : list string) : Prop :=
  ∃ pre x t, args = marked pre x t ∧ all_plain args ∧ ("-j" ∉ pre) ∧ ("--comment" ∉ pre) ∧ x ∈ commentsOf c b ∧ x ≠ "-j" ∧
    t ∈ ["ACCEPT"; "DROP"; chainDicerIsolationStage2].

Lemma commentsOf_option c b x : x ∈ commentsOf c b → x ≠ "-j".
Proof. unfold commentsOf, inputComments, stageComments. case_bool_decide; set_solver. Qed.

Lemma well_marked_intro c b pre kind t :
  fit_bridge b → "-j" ∉ pre → "--comment" ∉ pre → all_plain (kind :: pre) → t ∈ ["ACCEPT"; "DROP"; chainDicerIsolationStage2] →
  kind +:+ b ∈ commentsOf c b → well_marked c b (commented (kind +:+ b) (pre ++ ["-j"; t])).
Proof.
  intros [Hb _] Hj Hc [Hk Hp]%Forall_cons Ht Hx. exists pre, (kind +:+ b), t. rewrite commented_marked by done.
  split_and!; [done| |done..| |done]; [|by eapply commentsOf_option]. apply Forall_app. split; [done|].
  repeat constructor; [by apply plain_app|].
  revert Ht. rewrite !elem_of_cons, elem_of_nil. intros [->|[->|[->|[]]]]; by vm_compute.
Qed.

Lemma form_marked c b args : fit_bridge b → form c b args → well_marked c b args.
Proof.
  intros Hb Hf. pose proof Hb as (Hp & Hj & Hc). pose proof (well_marked_intro c b) as Hgo.
  destruct Hf as [b'|b'|b'|b' gw internal args' Hgw Hin].
  - apply (Hgo ["-i"; b'; "!"; "-o"; b'; "-m"; "conntrack"; "!"; "--ctstate"; "ESTABLISHED,RELATED"] "dicer-internal-" "DROP" Hb);
      [no_option|no_option|plain_args|set_solver|set_solver].
  - apply (Hgo ["-i"; b'; "!"; "-o"; b'] "dicer-isolation-s1-" chainDicerIsolationStage2 Hb);
      [no_option|no_option|plain_args|set_solver|set_solver].
  - apply (Hgo ["-o"; b'] "dicer-isolation-s2-" "DROP" Hb); [no_option|no_option|plain_args|set_solver|set_solver].
  - unfold Firewall.inputRules in Hin. rewrite !elem_of_app in Hin. destruct Hin as [Hin|[Hin|Hin]].
    + destruct (ListenerPort =? 0)%Z; [by apply elem_of_nil in Hin|]. apply list_elem_of_singleton in Hin as ->.
      apply (Hgo ["-i"; b'; "-p"; "tcp"; "--dport"; Str.itoa ListenerPort] "dicer-input-listener-drop-" "DROP" Hb);
        [no_option|no_option|plain_args|set_solver|set_solver].
    + destruct internal; [rewrite !elem_of_cons, elem_of_nil in Hin; destruct Hin as [->|[->|[->|[->|[]]]]]|apply list_elem_of_singleton in Hin as ->].
      * apply (Hgo ["-i"; b'; "-d"; gw; "-p"; "udp"; "--dport"; "53"] "dicer-input-dns-" "ACCEPT" Hb);
          [no_option|no_option|plain_args|set_solver|set_solver].
      * apply (Hgo ["-i"; b'; "-d"; gw; "-p"; "tcp"; "--dport"; "53"] "dicer-input-dns-" "ACCEPT" Hb);
          [no_option|no_option|plain_args|set_solver|set_solver].
      * apply (Hgo ["-i"; b'; "-m"; "conntrack"; "--ctstate"; "ESTABLISHED,RELATED"] "dicer-input-replies-" "ACCEPT" Hb);
          [no_option|no_option|plain_args|set_solver|set_solver].
      * apply (Hgo ["-i"; b'] "dicer-input-internal-" "DROP" Hb); [no_option|no_option|plain_args|set_solver|set_solver].
      * apply (Hgo ["-i"; b'; "-d"; gw] "dicer-input-accept-" "ACCEPT" Hb); [no_option|no_option|plain_args|set_solver|set_solver].
    + apply list_elem_of_singleton in Hin as ->.
      apply (Hgo ["-d"; gw] "dicer-input-drop-" "DROP" Hb); [no_option|no_option|plain_args|set_solver|set_solver].
Qed.

(** ** What is kept *)

Definition known (c : string) (r : Rule) : Prop := ∃ b args, fit_bridge b ∧ form c b args ∧ parse args = Some r.

(** A rule of a bridge is read back with one of its comments. *)
Lemma form_tag c b args r : fit_bridge b → form c b args → parse args = Some r → tag c r ∈ commentsOf c b.
Proof.
  intros Hb Hf Hr. destruct (guarded_plain c (form_guarded _ _ _ Hf)) as [Hp Hn].
  destruct (form_marked c b args Hb Hf) as (pre & x & t & E & Hplain & _ & Hc & Hx & _).
  rewrite (tag_parsed c args r x); [done..|]. exists (pre ++ ["-m"; "comment"]), ["-j"; t].
  rewrite E. unfold marked. rewrite <-(assoc_L (++)). split; [done|]. set_solver.
Qed.

Lemma form_target c b args r : fit_bridge b → form c b args → parse args = Some r →
  target r ∈ ["ACCEPT"; "DROP"; chainDicerIsolationStage2].
Proof.
  intros Hb Hf Hr. destruct (form_marked c b args Hb Hf) as (pre & x & t & -> & _ & Hj & _ & _ & Hx & Ht).
  rewrite (target_named (pre ++ ["-m"; "comment"; "--comment"; x]) t [] r); [done|by rewrite <-(assoc_L (++))|set_solver].
Qed.

(** A chain holds the rule that arguments make. *)
Definition holds T (c : string) args : Prop := ∃ r, parse args = Some r ∧ r ∈ chain T c.

(** The rules that arguments make, one for each. *)
Definition made (specs : list (list string)) l : Prop := Forall2 (λ args r, parse args = Some r) specs l.

(** What a chain holds but for the rules with some comments, and what the chain
    of the host's own traffic holds of a bridge. *)
Definition rest (P : list string) (c : string) T : list Rule := filter (λ r, tag c r ∉ P) (chain T c).

Definition own T b : list Rule := filter (λ r, tag chainDicerInput r ∈ inputComments b) (chain T chainDicerInput).

(** Some of the rules of a bridge, in their order. *)
Definition partial T b : Prop :=
  ∃ gw internal k full, fit_gateway gw ∧ made (take k (inputRules b gw internal)) full ∧ own T b `sublist_of` full.

Record inv v : Prop := {
  shape : ∀ c, c ∈ guardedChains → Forall (known c) (chain (tables v) c);
  stage2_there : ∀ r, r ∈ chain (tables v) chainDicerIsolationStage1 → target r = chainDicerIsolationStage2 →
    is_Some (tables v !! ("filter", chainDicerIsolationStage2));
  walls_ok : ∀ b internal, walls v !! b = Some internal → fit_bridge b ∧
    holds (tables v) chainDicerIsolationStage1 (stage1Args b) ∧ holds (tables v) chainDicerIsolationStage2 (stage2Args b) ∧
    (internal = true → holds (tables v) chainDicerIsolationStage1 (internalArgs b));
  partial_ok : failures v = 0 → ∀ b, partial (tables v) b;
  doors_ok : failures v = 0 → ∀ b d, doors v !! b = Some d → fit_bridge b ∧ fit_gateway (door_gateway d) ∧
    made (inputRules b (door_gateway d) (door_internal d)) (own (tables v) b);
}.

(** A comment whose rules may be changed. *)
Definition free v (c x : string) : Prop :=
  ∀ b, x ∈ commentsOf c b → if bool_decide (c = chainDicerInput) then doors v !! b = None else walls v !! b = None.

Lemma holds_rest (P : list string) c b args T T' :
  fit_bridge b → form c b args → (∀ x, x ∈ P → x ∉ commentsOf c b) → rest P c T' = rest P c T → holds T c args → holds T' c args.
Proof.
  intros Hb Hf HP E (r & Hr & Hin). exists r. split; [done|].
  assert (r ∈ rest P c T) as Hrest by (apply list_elem_of_filter; split; [intros Hx; by eapply HP, form_tag|done]).
  rewrite <-E in Hrest. by apply list_elem_of_filter in Hrest as [_ ?].
Qed.

Lemma own_rest (P : list string) b T T' :
  (∀ x, x ∈ P → x ∉ inputComments b) → rest P chainDicerInput T' = rest P chainDicerInput T → own T' b = own T b.
Proof. intros HP. apply filter_transfer. intros r Hr Hx. by apply (HP _ Hx). Qed.

(** What a change of the rules keeps: those with other comments, and the order
    of a bridge's own. *)
Lemma inv_tables (P : string → list string) v T' :
  inv v → (∀ c, c ∈ guardedChains → Forall (known c) (chain T' c)) →
  (∀ c, c ∈ guardedChains → rest (P c) c T' = rest (P c) c (tables v)) →
  (∀ r, r ∈ chain T' chainDicerIsolationStage1 → target r = chainDicerIsolationStage2 → is_Some (T' !! ("filter", chainDicerIsolationStage2))) →
  (∀ c x, x ∈ P c → free v c x) →
  (failures v = 0 → ∀ b x, x ∈ P chainDicerInput → x ∈ inputComments b → partial T' b) →
  inv (with_tables v T').
Proof.
  intros Hv Hshape Hrest Hs2 Hfree Hpart.
  assert (∀ c b args, form c b args → c ≠ chainDicerInput → fit_bridge b → is_Some (walls v !! b) →
    holds (tables v) c args → holds T' c args) as Hholds.
  { intros c b args Hf Hne Hb [i Hi]. apply (holds_rest (P c) c b); [done..| |by apply Hrest, (form_guarded _ b args)].
    intros x Hx Hc. specialize (Hfree c x Hx b Hc). rewrite bool_decide_false in Hfree by done. congruence. }
  assert (∀ b, (∀ x, x ∈ P chainDicerInput → x ∉ inputComments b) → own T' b = own (tables v) b) as Hown.
  { intros b Hb. eapply own_rest; [exact Hb|]. apply Hrest. unfold guardedChains. set_solver. }
  split; simpl; [done|done| | |].
  - intros b i Hi. destruct (walls_ok v Hv b i Hi) as (Hb & H1 & H2 & H3). split; [done|].
    split_and!; [eapply (Hholds _ b)|eapply (Hholds _ b)|intros E; eapply (Hholds _ b); [..|by apply H3]]; try done; constructor.
  - intros Hf b. destruct (decide (List.Exists (λ x, x ∈ inputComments b) (P chainDicerInput))) as [(x & Hx & Hb)%Exists_exists|Hno].
    { by apply (Hpart Hf b x). }
    unfold partial. rewrite Hown; [by apply (partial_ok v Hv)|]. intros x Hx Hb. apply Hno, Exists_exists. eauto.
  - intros Hf b d Hd. destruct (doors_ok v Hv Hf b d Hd) as (Hb & Hg & Hm). split_and!; [done..|].
    rewrite Hown; [done|]. intros x Hx Hc. specialize (Hfree chainDicerInput x Hx b Hc). rewrite bool_decide_true in Hfree by done. congruence.
Qed.

(** A change of other chains; of which a chain may be made. *)
Lemma inv_other v T' :
  inv v → (∀ c, c ∈ guardedChains → chain T' c = chain (tables v) c) →
  (is_Some (tables v !! ("filter", chainDicerIsolationStage2)) → is_Some (T' !! ("filter", chainDicerIsolationStage2))) →
  inv (with_tables v T').
Proof.
  intros Hv Hc Hs. apply (inv_tables (λ _, [])); [done|..].
  - intros c Hin. rewrite Hc by done. by apply shape.
  - intros c Hin. unfold rest. by rewrite Hc.
  - intros r. rewrite Hc by (unfold guardedChains; set_solver). intros Hr Ht. by eapply Hs, stage2_there.
  - intros c x Hx. by apply elem_of_nil in Hx.
  - intros _ b x Hx. by apply elem_of_nil in Hx.
Qed.

Lemma chain_insert T c c' l : chain (<[("filter", c) := l]> T) c' = if decide (c' = c) then l else chain T c'.
Proof.
  unfold chain. case_decide as E; [subst; by rewrite lookup_insert_eq|]. rewrite lookup_insert_ne by congruence. done.
Qed.

Lemma chain_some T c l : T !! ("filter", c) = Some l → chain T c = l.
Proof. unfold chain. by intros ->. Qed.

(** A change of one chain. *)
Lemma inv_chain v c x l l' :
  inv v → tables v !! ("filter", c) = Some l → Forall (known c) l' →
  filter (λ r, tag c r ∉ [x]) l' = filter (λ r, tag c r ∉ [x]) l →
  (∀ r, r ∈ l' → c = chainDicerIsolationStage1 → target r = chainDicerIsolationStage2 →
     is_Some (tables v !! ("filter", chainDicerIsolationStage2))) →
  free v c x →
  (failures v = 0 → ∀ b, c = chainDicerInput → x ∈ inputComments b → partial (<[("filter", c) := l']> (tables v)) b) →
  inv (with_tables v (<[("filter", c) := l']> (tables v))).
Proof.
  intros Hv Hl Hk Hrest Hs2 Hfree Hpart. apply (inv_tables (λ c', if decide (c' = c) then [x] else [])); [done|..].
  - intros c' Hin. rewrite chain_insert. case_decide as E; [by subst|by apply shape].
  - intros c' Hin. unfold rest. rewrite chain_insert. case_decide as E; [|done]. subst c'. by rewrite (chain_some _ _ _ Hl).
  - intros r. rewrite chain_insert. case_decide as E; intros Hr Ht.
    + destruct (Hs2 r Hr (eq_sym E) Ht) as [l2 Hl2]. rewrite <-E, lookup_insert_ne by done. eauto.
    + destruct (decide (c = chainDicerIsolationStage2)) as [->|]; [rewrite lookup_insert_eq; eauto|].
      rewrite lookup_insert_ne by congruence. by eapply stage2_there.
  - intros c' y. case_decide as E; [|by intros []%elem_of_nil]. subst c'. by intros ->%list_elem_of_singleton.
  - intros Hf b y. case_decide as E; [|by intros []%elem_of_nil]. intros ->%list_elem_of_singleton Hb. by apply Hpart.
Qed.

(** Removing a rule, and adding one. *)
Lemma inv_remove v c r l :
  inv v → c ∈ guardedChains → tables v !! ("filter", c) = Some l → free v c (tag c r) →
  inv (with_tables v (<[("filter", c) := remove_first r l]> (tables v))).
Proof.
  intros Hv Hc Hl Hfree. pose proof (shape v Hv c Hc) as Hk. rewrite (chain_some _ _ _ Hl) in Hk.
  apply (inv_chain v c (tag c r) l); [done|done| | | |done|].
  - apply Forall_forall. intros y Hy%remove_first_elem. by eapply Forall_forall in Hk.
  - apply filter_remove_first. set_solver.
  - intros y Hy%remove_first_elem -> Ht. eapply stage2_there; [done| |done]. by rewrite (chain_some _ _ _ Hl).
  - intros Hf b -> Hb. destruct (partial_ok v Hv Hf b) as (gw & internal & k & full & Hg & Hm & Hs). exists gw, internal, k, full.
    split_and!; [done..|]. etrans; [|exact Hs]. unfold own. rewrite chain_insert, decide_True, (chain_some _ _ _ Hl) by done.
    apply filter_remove_sublist.
Qed.

Lemma inv_append v c b args r l :
  inv v → form c b args → fit_bridge b → parse args = Some r → tables v !! ("filter", c) = Some l →
  target r ∈ builtin_targets ∨ is_Some (tables v !! ("filter", target r)) → free v c (tag c r) →
  (failures v = 0 → c = chainDicerInput → partial (<[("filter", c) := l ++ [r]]> (tables v)) b) →
  inv (with_tables v (<[("filter", c) := l ++ [r]]> (tables v))).
Proof.
  intros Hv Hform Hb Hr Hl Ht Hfree Hp. pose proof (form_guarded _ _ _ Hform) as Hc.
  pose proof (shape v Hv c Hc) as Hk. rewrite (chain_some _ _ _ Hl) in Hk.
  apply (inv_chain v c (tag c r) l); [done|done| | | |done|].
  - apply Forall_app. split; [done|]. constructor; [|done]. by exists b, args.
  - rewrite filter_app, filter_cons_False by set_solver. by rewrite filter_nil, (right_id_L [] (++)).
  - intros y Hy -> Hty. apply elem_of_app in Hy as [Hy|Hy].
    { eapply stage2_there; [done| |done]. by rewrite (chain_some _ _ _ Hl). }
    apply list_elem_of_singleton in Hy as ->. rewrite Hty in Ht. destruct Ht as [Ht|Ht]; [|done]. unfold builtin_targets in Ht. set_solver.
  - intros Hf b' -> Hb'. assert (b' = b) as ->; [|auto].
    pose proof (form_tag _ _ _ _ Hb Hform Hr) as Htag. unfold commentsOf in Htag. rewrite bool_decide_true in Htag by done.
    by eapply inputComments_apart.
Qed.


(** ** What the rules are *)

Lemma stage_tag c b pre x t r :
  fit_bridge b → form c b (commented x (pre ++ ["-j"; t])) → "-j" ∉ pre → "--comment" ∉ pre →
  parse (commented x (pre ++ ["-j"; t])) = Some r → tag c r = x.
Proof.
  intros Hb Hform Hj Hc Hr. destruct (guarded_plain c (form_guarded _ _ _ Hform)) as [Hp Hn].
  destruct (form_marked c b _ Hb Hform) as (_ & _ & _ & _ & Hplain & _). apply (tag_parsed c (commented x (pre ++ ["-j"; t]))); [done..|].
  rewrite commented_marked by done. exists (pre ++ ["-m"; "comment"]), ["-j"; t]. unfold marked. rewrite <-(assoc_L (++)).
  split; [done|]. set_solver.
Qed.


(** *** Access to the host *)

(** The comment of each rule. *)
Lemma input_tag b gw internal args pre x t r :
  fit_bridge b → fit_gateway gw → args ∈ inputRules b gw internal → args = commented x (pre ++ ["-j"; t]) →
  "-j" ∉ pre → "--comment" ∉ pre → parse args = Some r → tag chainDicerInput r = x.
Proof. intros Hb Hgw Hin -> Hj Hc. apply (stage_tag _ b pre x t); [done| |done..]. by econstructor. Qed.

Definition front b gw (internal : bool) : list (list string) :=
  (if (ListenerPort =? 0)%Z then [] else [listenerRule ListenerPort b]) ++
  (if internal then [dnsRule b gw "udp"; dnsRule b gw "tcp"; repliesRule b; internalDropRule b] else [acceptRule b gw]).

Lemma inputRules_front b gw internal : inputRules b gw internal = front b gw internal ++ [dropRule b gw].
Proof. unfold Firewall.inputRules, front. by rewrite <-(assoc_L (++)). Qed.

Section Bridge.

Context (b : string) (Hb : fit_bridge b).

#[local] Ltac tag_by pre t Hgw internal :=
  intros; pose proof Hb as (Hplain & Hj & Hc);
  eapply (input_tag b _ internal _ pre _ t); [exact Hb|exact Hgw| |reflexivity|no_option|no_option|eassumption];
  unfold Firewall.inputRules; set_solver.

Lemma tag_drop gw r : fit_gateway gw → parse (dropRule b gw) = Some r → tag chainDicerInput r = inputDropComment b.
Proof. intros Hgw. tag_by ["-d"; gw] "DROP" Hgw true. Qed.

Lemma tag_accept gw r : fit_gateway gw → parse (acceptRule b gw) = Some r → tag chainDicerInput r = inputAcceptComment b.
Proof. intros Hgw. tag_by ["-i"; b; "-d"; gw] "ACCEPT" Hgw false. Qed.

Lemma tag_internalDrop gw r : fit_gateway gw → parse (internalDropRule b) = Some r → tag chainDicerInput r = inputInternalComment b.
Proof. intros Hgw. tag_by ["-i"; b] "DROP" Hgw true. Qed.

Lemma tag_replies gw r : fit_gateway gw → parse (repliesRule b) = Some r → tag chainDicerInput r = inputRepliesComment b.
Proof. intros Hgw. tag_by ["-i"; b; "-m"; "conntrack"; "--ctstate"; "ESTABLISHED,RELATED"] "ACCEPT" Hgw true. Qed.

Lemma tag_dns gw proto r :
  fit_gateway gw → proto ∈ ["udp"; "tcp"] → parse (dnsRule b gw proto) = Some r → tag chainDicerInput r = inputDNSComment b.
Proof.
  intros Hgw Hproto. rewrite !elem_of_cons, elem_of_nil in Hproto. destruct Hproto as [->|[->|[]]].
  - tag_by ["-i"; b; "-d"; gw; "-p"; "udp"; "--dport"; "53"] "ACCEPT" Hgw true.
  - tag_by ["-i"; b; "-d"; gw; "-p"; "tcp"; "--dport"; "53"] "ACCEPT" Hgw true.
Qed.

Lemma tag_listener gw r : fit_gateway gw → ListenerPort ≠ 0%Z → parse (listenerRule ListenerPort b) = Some r →
  tag chainDicerInput r = inputListenerDropComment b.
Proof.
  intros Hgw Hport Hr. pose proof Hb as (Hplain & Hj & Hc).
  eapply (input_tag b gw true _ ["-i"; b; "-p"; "tcp"; "--dport"; Str.itoa ListenerPort] _ "DROP");
    [exact Hb|exact Hgw| |reflexivity|no_option|no_option|exact Hr].
  unfold Firewall.inputRules. rewrite (proj2 (Z.eqb_neq _ _)) by done. set_solver.
Qed.

End Bridge.

(** *** What the rules say *)

Section Rules.

Context (b : string) (Hb : fit_bridge b).

(** A rule as it is read: what it matches, and its target. *)
Definition reads (r : Rule) (m : Packet → bool) (t : string) : Prop := (∀ p, matches r p = m p) ∧ target r = t.

Lemma reads_marked args pre x t r m :
  args = marked pre x t → parse args = Some r → "-j" ∉ pre → x ≠ "-j" → (∀ p, means args p = Some (m p)) → reads r m t.
Proof.
  intros -> Hr Hj Hx Hm. split; [intros p; by eapply matches_means|].
  apply (target_named (pre ++ ["-m"; "comment"; "--comment"; x]) t []); [by rewrite <-(assoc_L (++))|set_solver].
Qed.

#[local] Ltac reads_by pre :=
  let Hr := fresh "Hr" in intros Hr; pose proof Hb as (Hplain & Hj & Hc);
  eapply (reads_marked _ pre); [apply (commented_marked _ pre); no_option|exact Hr|no_option|done|];
  intros p; rewrite (commented_marked _ pre) by no_option; unfold marked; simpl.

Lemma reads_internal r : parse (internalArgs b) = Some r →
  reads r (λ p, bool_decide (iif p = b) && (negb (bool_decide (oif p = b)) && negb (in_states "ESTABLISHED,RELATED" p))) "DROP".
Proof. reads_by ["-i"; b; "!"; "-o"; b; "-m"; "conntrack"; "!"; "--ctstate"; "ESTABLISHED,RELATED"]. by rewrite andb_true_r. Qed.

Lemma reads_stage1 r : parse (stage1Args b) = Some r →
  reads r (λ p, bool_decide (iif p = b) && negb (bool_decide (oif p = b))) chainDicerIsolationStage2.
Proof. reads_by ["-i"; b; "!"; "-o"; b]. by rewrite andb_true_r. Qed.

Lemma reads_stage2 r : parse (stage2Args b) = Some r → reads r (λ p, bool_decide (oif p = b)) "DROP".
Proof. reads_by ["-o"; b]. by rewrite andb_true_r. Qed.

Lemma reads_listener r : parse (listenerRule ListenerPort b) = Some r →
  reads r (λ p, bool_decide (iif p = b) && (bool_decide (proto p = "tcp") && bool_decide (Str.itoa (dport p) = Str.itoa ListenerPort))) "DROP".
Proof. reads_by ["-i"; b; "-p"; "tcp"; "--dport"; Str.itoa ListenerPort]. by rewrite andb_true_r. Qed.

Lemma reads_internalDrop r : parse (internalDropRule b) = Some r → reads r (λ p, bool_decide (iif p = b)) "DROP".
Proof. reads_by ["-i"; b]. by rewrite andb_true_r. Qed.

Lemma reads_replies r : parse (repliesRule b) = Some r →
  reads r (λ p, bool_decide (iif p = b) && in_states "ESTABLISHED,RELATED" p) "ACCEPT".
Proof. reads_by ["-i"; b; "-m"; "conntrack"; "--ctstate"; "ESTABLISHED,RELATED"]. by rewrite andb_true_r. Qed.

Section Gateway.

Context (gw : string) (a : list Z) (Hgw : fit_gateway gw) (Ha : address gw = Some a).

Lemma reads_accept r : parse (acceptRule b gw) = Some r →
  reads r (λ p, bool_decide (iif p = b) && bool_decide (dst p = a)) "ACCEPT".
Proof. reads_by ["-i"; b; "-d"; gw]. rewrite Ha. simpl. by rewrite andb_true_r. Qed.

Lemma reads_drop r : parse (dropRule b gw) = Some r → reads r (λ p, bool_decide (dst p = a)) "DROP".
Proof. reads_by ["-d"; gw]. rewrite Ha. simpl. by rewrite andb_true_r. Qed.

Lemma reads_dns proto_ r : proto_ = "udp" ∨ proto_ = "tcp" → parse (dnsRule b gw proto_) = Some r →
  reads r (λ p, bool_decide (iif p = b) && (bool_decide (dst p = a) && (bool_decide (proto p = proto_) &&
    bool_decide (Str.itoa (dport p) = "53")))) "ACCEPT".
Proof.
  intros [->| ->].
  - reads_by ["-i"; b; "-d"; gw; "-p"; "udp"; "--dport"; "53"]. rewrite Ha. simpl. by rewrite andb_true_r.
  - reads_by ["-i"; b; "-d"; gw; "-p"; "tcp"; "--dport"; "53"]. rewrite Ha. simpl. by rewrite andb_true_r.
Qed.

End Gateway.
End Rules.

Section Exact.

Context (b gw : string) (Hb : fit_bridge b) (Hgw : fit_gateway gw).

Lemma form_own args r T internal : args ∈ inputRules b gw internal → parse args = Some r → r ∈ chain T chainDicerInput → r ∈ own T b.
Proof.
  intros Hin Hr Hc. apply list_elem_of_filter. split; [|done].
  assert (form chainDicerInput b args) as Hf by (by econstructor).
  pose proof (form_tag _ _ _ _ Hb Hf Hr) as Ht. unfold commentsOf in Ht. by rewrite bool_decide_true in Ht.
Qed.

(** Rules before the last have another comment than it. *)
Lemma front_tag internal args r :
  args ∈ front b gw internal → parse args = Some r → tag chainDicerInput r ≠ inputDropComment b.
Proof.
  unfold front. rewrite elem_of_app. intros [Hin|Hin] Hr.
  - destruct (ListenerPort =? 0)%Z eqn:Ep; [by apply elem_of_nil in Hin|]. apply list_elem_of_singleton in Hin as ->.
    rewrite (tag_listener b Hb gw r); [done..|by apply Z.eqb_neq|done].
  - destruct internal; [rewrite !elem_of_cons, elem_of_nil in Hin; destruct Hin as [->|[->|[->|[->|[]]]]]|apply list_elem_of_singleton in Hin as ->].
    + rewrite (tag_dns b Hb gw "udp" r); [done..|set_solver|done].
    + rewrite (tag_dns b Hb gw "tcp" r); [done..|set_solver|done].
    + by rewrite (tag_replies b Hb gw r).
    + by rewrite (tag_internalDrop b Hb gw r).
    + by rewrite (tag_accept b Hb gw r).
Qed.

End Exact.

Lemma made_elem specs l r : made specs l → r ∈ l → ∃ args, args ∈ specs ∧ parse args = Some r.
Proof.
  intros Hm [i Hi]%list_elem_of_lookup. eapply Forall2_lookup_r in Hm as (args & Hargs & Hr); [|exact Hi].
  exists args. split; [by eapply list_elem_of_lookup_2|done].
Qed.

Lemma made_whole b gw internal k full r :
  fit_bridge b → fit_gateway gw → made (take k (inputRules b gw internal)) full → r ∈ full →
  tag chainDicerInput r = inputDropComment b → made (inputRules b gw internal) full.
Proof.
  intros Hb Hgw Hm Hr Ht. rewrite inputRules_front in *. destruct (decide (k ≤ length (front b gw internal))) as [Hk|Hk].
  - rewrite take_app_le in Hm by done. destruct (made_elem _ _ _ Hm Hr) as (args & Hin & Hp). exfalso.
    apply (front_tag b gw Hb Hgw internal args r); [|done..]. by apply elem_of_take in Hin as (i & Hi & _); eapply list_elem_of_lookup_2.
  - rewrite take_ge in Hm; [done|]. rewrite length_app. simpl. lia.
Qed.

#[local] Ltac tags :=
  repeat match goal with
  | Hb : fit_bridge ?b, Hg : fit_gateway ?gw, Hr : parse (dropRule ?b ?gw) = Some ?r |- _ =>
      lazymatch goal with _ : tag _ r = _ |- _ => fail | _ => pose proof (tag_drop b Hb gw r Hg Hr) end
  | Hb : fit_bridge ?b, Hg : fit_gateway ?gw, Hr : parse (acceptRule ?b ?gw) = Some ?r |- _ =>
      lazymatch goal with _ : tag _ r = _ |- _ => fail | _ => pose proof (tag_accept b Hb gw r Hg Hr) end
  | Hb : fit_bridge ?b, Hg : fit_gateway ?gw, Hr : parse (internalDropRule ?b) = Some ?r |- _ =>
      lazymatch goal with _ : tag _ r = _ |- _ => fail | _ => pose proof (tag_internalDrop b Hb gw r Hg Hr) end
  | Hb : fit_bridge ?b, Hg : fit_gateway ?gw, Hr : parse (repliesRule ?b) = Some ?r |- _ =>
      lazymatch goal with _ : tag _ r = _ |- _ => fail | _ => pose proof (tag_replies b Hb gw r Hg Hr) end
  | Hb : fit_bridge ?b, Hg : fit_gateway ?gw, Hr : parse (dnsRule ?b ?gw ?p) = Some ?r |- _ =>
      lazymatch goal with _ : tag _ r = _ |- _ => fail | _ => pose proof (tag_dns b Hb gw p r Hg ltac:(set_solver) Hr) end
  | Hb : fit_bridge ?b, Hg : fit_gateway ?gw, Hl : ListenerPort ≠ 0%Z, Hr : parse (listenerRule _ ?b) = Some ?r |- _ =>
      lazymatch goal with _ : tag _ r = _ |- _ => fail | _ => pose proof (tag_listener b Hb gw r Hg Hl Hr) end
  end.

(** A query over one protocol is not matched by the rule for the other. *)
Lemma dns_apart b gw gw' r r' proto_ proto' :
  fit_bridge b → fit_gateway gw → fit_gateway gw' → proto_ = "udp" ∨ proto_ = "tcp" → proto' = "udp" ∨ proto' = "tcp" → proto_ ≠ proto' →
  parse (dnsRule b gw proto_) = Some r → parse (dnsRule b gw' proto') = Some r' → r ≠ r'.
Proof.
  intros Hb Hgw Hgw' Hp Hp' Hne Hr Hr' ->. pose proof Hgw as [_ [a Ha]]. pose proof Hgw' as [_ [a' Ha']].
  destruct (reads_dns b Hb gw a Hgw Ha proto_ r' Hp Hr) as [Hm _]. destruct (reads_dns b Hb gw' a' Hgw' Ha' proto' r' Hp' Hr') as [Hm' _].
  specialize (Hm (mkPacket b "" a proto_ 53 [])). specialize (Hm' (mkPacket b "" a proto_ 53 [])). simpl in *.
  rewrite Hm in Hm'. rewrite !bool_decide_true in Hm' by done. rewrite (bool_decide_false (proto_ = proto')) in Hm' by done.
  destruct (bool_decide (a = a')); discriminate.
Qed.

#[local] Ltac conflict :=
  match goal with
  | H1 : tag chainDicerInput ?f = _, H2 : tag chainDicerInput ?f = _ |- _ =>
      rewrite H1 in H2; discriminate H2
  | H1 : parse (dnsRule ?b ?gw "udp") = Some ?f, H2 : parse (dnsRule ?b ?gw' "tcp") = Some ?f |- _ =>
      exfalso; refine (dns_apart b gw gw' f f "udp" "tcp" _ _ _ _ _ _ H1 H2 eq_refl); auto; done
  end.

(** Rules that have all that a bridge is to have, in the order they are made. *)
Lemma exact_rules b gw gw0 internal internal0 full l :
  fit_bridge b → fit_gateway gw → fit_gateway gw0 → made (inputRules b gw0 internal0) full → l `sublist_of` full →
  Forall (λ args, ∃ r, parse args = Some r ∧ r ∈ l) (inputRules b gw internal) → made (inputRules b gw internal) l.
Proof.
  intros Hb Hgw Hgw0 Hm Hs Hw.
  assert (∀ r, r ∈ l → r ∈ full) as Hlf by (intros r Hr; eapply elem_of_submseteq; [done|by apply sublist_submseteq]).
  assert (NoDup full → (∀ r, r ∈ full → r ∈ l) → made (inputRules b gw internal) full → made (inputRules b gw internal) l) as Hend.
  { intros Hn Hl. by rewrite (sublist_full l full). }
  unfold Firewall.inputRules in *.
  destruct (ListenerPort =? 0)%Z eqn:Ep; [apply Z.eqb_eq in Ep|apply Z.eqb_neq in Ep];
    destruct internal, internal0; simpl in *;
    repeat (apply Forall2_cons_inv_l in Hm as (? & ? & ? & Hm & ->)); apply Forall2_nil_inv_l in Hm as ->;
    repeat (apply Forall_cons in Hw as [(? & ? & ?) Hw]); clear Hw; tags;
    repeat match goal with
    | H : ?r ∈ l |- _ =>
        lazymatch goal with _ : r ∈ _ :: _ |- _ => fail | _ => pose proof (Hlf r H) end
    end; clear Hlf;
    repeat match goal with
    | H : ?r ∈ _ :: _ |- _ => apply elem_of_cons in H as [->|H]; [try conflict|]
    | H : _ ∈ [] |- _ => by apply elem_of_nil in H
    end;
    (apply Hend; [|intros r; rewrite !elem_of_cons, elem_of_nil; intros Hor; repeat (destruct Hor as [->|Hor]; [done|]); destruct Hor|unfold made; repeat (apply List.Forall2_cons; [assumption|]); apply List.Forall2_nil]);
    repeat (apply NoDup_cons; split); try apply NoDup_nil_2;
    rewrite ?elem_of_cons, ?elem_of_nil; intros Hor; repeat (destruct Hor as [->|Hor]; [conflict|]); destruct Hor.
Qed.

Lemma doors_exact v b gw internal :
  inv v → failures v = 0 → fit_bridge b → fit_gateway gw → Forall (holds (tables v) chainDicerInput) (inputRules b gw internal) →
  made (inputRules b gw internal) (own (tables v) b).
Proof.
  intros Hv Hf Hb Hgw Hh. destruct (partial_ok v Hv Hf b) as (gw0 & internal0 & k & full & Hgw0 & Hm & Hs).
  assert (Forall (λ args, ∃ r, parse args = Some r ∧ r ∈ own (tables v) b) (inputRules b gw internal)) as Hw.
  { apply Forall_forall. intros args Hin. eapply Forall_forall in Hh as (r & Hr & Hc); [|exact Hin]. exists r. split; [done|].
    by apply (form_own b gw Hb Hgw args r _ internal). }
  apply (exact_rules b gw gw0 internal internal0 full); [done..| |done|done].
  assert (dropRule b gw ∈ inputRules b gw internal) as Hin by (rewrite inputRules_front; set_solver).
  eapply Forall_forall in Hw as (r & Hr & Ho); [|exact Hin]. apply (made_whole b gw0 internal0 k full r); [done..| |].
  - eapply elem_of_submseteq; [done|]. by apply sublist_submseteq.
  - by apply (tag_drop b Hb gw).
Qed.

Lemma inv_door v b gw internal :
  inv v → fit_bridge b → fit_gateway gw → Forall (holds (tables v) chainDicerInput) (inputRules b gw internal) →
  inv (with_doors v (<[b := mkDoor gw internal]> (doors v))).
Proof.
  intros Hv Hb Hgw Hh. split; [apply Hv..|]. simpl. intros Hf b' d [[<- <-]|[_ Hd]]%lookup_insert_Some; [|by apply (doors_ok v Hv)].
  split_and!; [done..|]. simpl. by apply (doors_exact v).
Qed.

Lemma inv_unbar v b : inv v → inv (with_doors v (delete b (doors v))).
Proof. intros Hv. split; [apply Hv..|]. simpl. intros Hf b' d [_ Hd]%lookup_delete_Some. by apply (doors_ok v Hv). Qed.

Lemma inv_breach v b : inv v → inv (with_walls v (delete b (walls v))).
Proof.
  intros Hv. split; [apply Hv|apply Hv| |apply Hv|apply Hv]. simpl. intros b' i [_ Hi]%lookup_delete_Some. by apply (walls_ok v Hv).
Qed.

Lemma inv_wall v b internal :
  inv v → fit_bridge b → holds (tables v) chainDicerIsolationStage1 (stage1Args b) →
  holds (tables v) chainDicerIsolationStage2 (stage2Args b) →
  (internal = true → holds (tables v) chainDicerIsolationStage1 (internalArgs b)) →
  inv (with_walls v (<[b := internal]> (walls v))).
Proof.
  intros Hv Hb H1 H2 H3. split; [apply Hv|apply Hv| |apply Hv|apply Hv]. simpl.
  intros b' i [[<- <-]|[_ Hi]]%lookup_insert_Some; [done|by apply (walls_ok v Hv)].
Qed.

(** *** What a thread that holds the lock does *)

(** The networks that operations are about. *)
Definition fit (nw : Network.Network) : Prop := fit_bridge (Network.Bridge nw) ∧ fit_gateway (Network.Gateway nw).

Definition I (w : World) : Prop := inv (guarded w) ∧ map_Forall (λ _, fit) (networks w).

Definition G (L : gset lock) (w w' : World) : Prop := guarded w' = guarded w ∨ rulesMu ∈ L.

Definition R (L : gset lock) (w w' : World) : Prop := rulesMu ∈ L → guarded w' = guarded w.

#[export] Instance rely_guarantee : RelyGuarantee I G R.
Proof.
  split; unfold R, G; [done|intros L s1 s2 s3 H1 H2 HL; by rewrite H2, H1|]. intros L1 L2 s s' Hd _ [E|HL] HL2; [done|set_solver].
Qed.

Lemma guarded_kept (L : gset lock) (w w' : World) : rulesMu ∈ L → R L w w' → guarded w' = guarded w.
Proof. auto. Qed.

Section Locked.

Context (L : gset lock) (HL : rulesMu ∈ L).

Abbreviation ins p v Q := (inside I G guarded p L v Q).

Lemma inv_failed v : inv v → inv (failed v).
Proof. intros Hv. split; [apply Hv..|done|done]. Qed.

Lemma ins_command args v (Q : result string → Guarded → Prop) :
  (∀ e, Q (Err e) (failed v)) →
  (∀ e, iptables ("-w" :: args) (tables v) = None → Q (Err e) v) →
  (∀ out T', iptables ("-w" :: args) (tables v) = Some (out, T') → inv v → inv (with_tables v T') ∧ Q (Ok out) (with_tables v T')) →
  ins (iptablesCommand args) v Q.
Proof.
  intros Hf Hn Hs. intros [e|]; simpl.
  - intros w <- [HI Hn']. split_and!; [by right|by split; [apply inv_failed|]|apply Hf].
  - intros w <- [HI Hn']. destruct (iptables _ _) as [[out T']|] eqn:E; simpl.
    + destruct (Hs out T' eq_refl HI) as [Hi HQ]. by split_and!; [right|split|].
    + split_and!; [by right|by split|by apply Hn].
Qed.

(** The rules with other comments, and what is known of bridges, are as they
    were. *)
Definition alters (P : list string) v v' : Prop :=
  walls v' = walls v ∧ doors v' = doors v ∧ failures v ≤ failures v' ∧
  ∀ c, c ∈ guardedChains → rest P c (tables v') = rest P c (tables v).

Lemma alters_refl P v : alters P v v.
Proof. by split_and!. Qed.

Lemma alters_trans P v1 v2 v3 : alters P v1 v2 → alters P v2 v3 → alters P v1 v3.
Proof.
  intros (Hw & Hd & Hf & Hr) (Hw' & Hd' & Hf' & Hr'). split_and!; [congruence..|lia|]. intros c Hc. by rewrite Hr', Hr.
Qed.

Lemma alters_sub (P Q : list string) v v' : P ⊆ Q → alters P v v' → alters Q v v'.
Proof.
  intros HPQ (Hw & Hd & Hf & Hr). split_and!; [done..|]. intros c Hc.
  eapply filter_transfer; [|by apply Hr]. intros r HQ HP. by apply HQ, HPQ.
Qed.

Lemma alters_failed P v : alters P v (failed v).
Proof. split_and!; simpl; [done..|lia|done]. Qed.

Lemma alters_free P v v' c x : alters P v v' → free v c x → free v' c x.
Proof. intros (Hw & Hd & _) Hf b Hb. specialize (Hf b Hb). by rewrite Hw, Hd. Qed.

Lemma alters_holds P v v' c b args :
  alters P v v' → fit_bridge b → form c b args → (∀ x, x ∈ P → x ∉ commentsOf c b) → holds (tables v) c args → holds (tables v') c args.
Proof. intros (_ & _ & _ & Hr) Hb Hf HP. apply (holds_rest P c b); [done..|]. by apply Hr, (form_guarded c b args). Qed.

Lemma ins_ruleExists t c args v Q :
  Q false (failed v) → (iptables ("-w" :: "-t" :: t :: "-C" :: c :: args) (tables v) = None → Q false v) →
  (∀ l r, tables v !! (t, c) = Some l → parse args = Some r → r ∈ l → Q true v) → ins (ruleExists t c args) v Q.
Proof.
  intros Hf Hn Hs. apply inside_bind, ins_command; simpl; [done|done|]. intros out T'. rewrite iptables_check.
  destruct (tables v !! (t, c)) as [l|] eqn:El; [|done]. destruct (parse args) as [r|] eqn:Er; [|done]. cbn [mbind option_bind].
  case_decide as Hr; [|done]. intros [= <- <-] Hv. assert (with_tables v (tables v) = v) as -> by by destruct v. split; [done|by eapply Hs].
Qed.

(** *** Other chains *)

(** A command that leaves the guarded chains as they are. *)
Definition aside args : Prop := ∀ T out T', iptables ("-w" :: args) T = Some (out, T') →
  (∀ c, c ∈ guardedChains → chain T' c = chain T c) ∧
  (is_Some (T !! ("filter", chainDicerIsolationStage2)) → is_Some (T' !! ("filter", chainDicerIsolationStage2))).

Definition aloof {A} (p : M A) : Prop := ∀ v, ins p v (λ _ v', alters [] v v').

Lemma aloof_command args : aside args → aloof (iptablesCommand args).
Proof.
  intros Ha v. apply ins_command; [intros; apply alters_failed|intros; apply alters_refl|].
  intros out T' E Hv. destruct (Ha _ _ _ E) as [Hc Hs]. split; [by apply inv_other|].
  split_and!; simpl; [done..|]. intros c Hin. unfold rest. by rewrite Hc.
Qed.

Lemma aloof_ret {A} (a : A) : aloof (mret a).
Proof. intros v. apply alters_refl. Qed.

Lemma aloof_ask q : aloof (ask q).
Proof. intros v a. apply alters_refl. Qed.

Lemma aloof_bind {A B} (p : M A) (g : A → M B) : aloof p → (∀ a, aloof (g a)) → aloof (p ≫= g).
Proof.
  intros Hp Hg v. apply inside_bind. eapply inside_mono; [|apply Hp]. intros a v1 H1.
  eapply inside_mono; [|apply Hg]. intros b v2 H2. exact (alters_trans _ _ _ _ H1 H2).
Qed.

Lemma aloof_ebind {A B} (p : M (result A)) (g : A → M (result B)) : aloof p → (∀ a, aloof (g a)) → aloof (ebind p g).
Proof. intros Hp Hg. apply aloof_bind; [done|]. intros [a|e]; [apply Hg|apply aloof_ret]. Qed.

Lemma aloof_wrapping {A} format (p : M (result A)) : aloof p → aloof (wrapping format p).
Proof. intros Hp. apply aloof_bind; [done|]. intros. apply aloof_ret. Qed.

Lemma aloof_ignoring {A} (p : M A) : aloof p → aloof (ignoring p).
Proof. intros Hp. apply aloof_bind; [done|]. intros. apply aloof_ret. Qed.

Lemma aloof_on_error {A} c (p : M (result A)) : aloof c → aloof p → aloof (on_error c p).
Proof. intros Hc Hp. apply aloof_bind; [done|]. intros [a|e]; [apply aloof_ret|]. apply aloof_bind; [done|]. intros. apply aloof_ret. Qed.

Lemma aloof_for_all {A} (p : A → M unit) (xs : list A) : (∀ x, x ∈ xs → aloof (p x)) → aloof (for_all p xs).
Proof.
  induction xs as [|x xs IH]; intros Hp; [apply aloof_ret|]. apply (aloof_bind (p x)); [apply Hp; left|].
  intros _. apply IH. intros y Hy. apply Hp. by right.
Qed.

Definition unguarded (t c : string) : Prop := t = "filter" → c ∉ guardedChains.

Lemma chain_aside t c l T c' : unguarded t c → c' ∈ guardedChains → <[(t, c) := l]> T !! ("filter", c') = T !! ("filter", c').
Proof. intros Hu Hc'. apply lookup_insert_ne. intros [= -> ->]. by apply Hu. Qed.

Lemma aside_insert t c l T : unguarded t c →
  (∀ c', c' ∈ guardedChains → chain (<[(t, c) := l]> T) c' = chain T c') ∧
  (is_Some (T !! ("filter", chainDicerIsolationStage2)) → is_Some (<[(t, c) := l]> T !! ("filter", chainDicerIsolationStage2))).
Proof.
  intros Hu. split.
  - intros c' Hc'. unfold chain. by rewrite chain_aside.
  - rewrite chain_aside; [done|done|]. unfold guardedChains. set_solver.
Qed.

#[local] Ltac command E :=
  repeat match type of E with
  | (?o ≫= _) = _ => let x := fresh "x" in let Hx := fresh "Hx" in destruct o as [x|] eqn:Hx; [cbn [mbind option_bind] in E|done]
  | (if decide ?P then _ else _) = _ => destruct (decide P); [|done]
  end; injection E as <- <-.

Lemma aside_append t c args : unguarded t c → aside ("-t" :: t :: "-A" :: c :: args).
Proof. intros Hu T out T'. rewrite iptables_append. intros E. command E. by apply aside_insert. Qed.

Lemma aside_insert_first t c args : unguarded t c → aside ("-t" :: t :: "-I" :: c :: "1" :: args).
Proof. intros Hu T out T'. rewrite iptables_insert. intros E. command E. by apply aside_insert. Qed.

Lemma aside_delete t c args : unguarded t c → aside ("-t" :: t :: "-D" :: c :: args).
Proof. intros Hu T out T'. rewrite iptables_delete. intros E. command E. by apply aside_insert. Qed.

Lemma aside_check t c args : aside ("-t" :: t :: "-C" :: c :: args).
Proof. intros T out T'. rewrite iptables_check. intros E. by command E. Qed.

Lemma aside_list t c : aside ["-t"; t; "-S"; c].
Proof. intros T out T'. rewrite iptables_list. intros E. by command E. Qed.

(** A chain is made without rules. *)
Lemma aside_new t c : aside ["-t"; t; "-N"; c].
Proof.
  intros T out T'. rewrite iptables_new. destruct (T !! (t, c)) as [|] eqn:Ec; [done|]. intros [= <- <-]. split.
  - intros c' _. unfold chain. destruct (decide ((t, c) = ("filter", c'))) as [E|E].
    + rewrite E in *. by rewrite lookup_insert_eq, Ec.
    + by rewrite lookup_insert_ne.
  - intros [l Hl]. rewrite lookup_insert_ne; [by eexists|]. intros E. rewrite E in Ec. congruence.
Qed.

Lemma aside_filter c args : c ∈ ["-N"; "-I"] → aside ("-t" :: "filter" :: c :: args) → aside (c :: args).
Proof. intros Hc Ha T out T'. rewrite iptables_table by done. apply Ha. Qed.

(** *** Deleting rules *)

Lemma split_listing lines : Forall (λ s, newline ∉ Str.to_list s) lines → Str.split newline (listing lines) = lines ++ [""].
Proof.
  unfold Str.split. induction 1 as [|s lines Hs _ IH]; [done|]. csimpl. rewrite Str.to_list_app. simpl.
  rewrite Str.split_list_app by done. csimpl. rewrite IH. by rewrite Str.of_to_list.
Qed.

(** The lines that a chain is listed by. *)
Lemma ins_list t c v Q :
  Words.plain c = true →
  (∀ e, Q (Err e) (failed v)) → (∀ e, tables v !! (t, c) = None → Q (Err e) v) →
  (∀ out l, inv v → tables v !! (t, c) = Some l → Str.split newline out = (chain_line t c :: (line c <$> l)) ++ [""] → Q (Ok out) v) →
  ins (iptablesCommand ["-t"; t; "-S"; c]) v Q.
Proof.
  intros Hc Hf Hn Hs. apply ins_command; [done| |].
  - intros e. rewrite iptables_list. destruct (tables v !! (t, c)) eqn:E; [done|]. auto.
  - intros out T'. rewrite iptables_list. intros E. command E. intros Hv. assert (with_tables v (tables v) = v) as -> by by destruct v.
    split; [done|]. eapply Hs; [done..|]. apply (split_listing (chain_line t c :: (line c <$> x))). constructor; [by apply chain_line_one|].
    apply Forall_fmap, Forall_forall. intros r _. by apply line_one.
Qed.

Lemma ruleComment_chain t c : Words.plain c = true → c ≠ "--comment" → ruleComment (chain_line t c) = "".
Proof. intros Hc Hn. by apply comment_field_none, chain_line_comment. Qed.

Lemma deleteLines_skip t x s lines errs : ruleComment s ≠ x → deleteLines t x (s :: lines) errs = deleteLines t x lines errs.
Proof. intros Hs. cbn [deleteLines]. by rewrite bool_decide_false. Qed.

Lemma deleteLines_delete t x s lines errs c shown :
  ruleComment s = x → Words.Fields s = "-A" :: c :: shown → Words.plain c = true →
  deleteLines t x (s :: lines) errs =
    (wrapping "delete rule %q in %s/%s: %w: %s" (iptablesCommand ("-t" :: t :: "-D" :: c :: (Words.unquote <$> shown)))
       ≫= λ out, deleteLines t x lines (if out is Err e then joined errs e else errs)).
Proof. intros Hs E Hc. cbn [deleteLines]. rewrite bool_decide_true, E by done. csimpl. by rewrite (Words.unquote_plain c Hc). Qed.

Lemma aloof_deleteLines t c x lines errs :
  unguarded t c → Words.plain c = true → (∀ s, s ∈ lines → ruleComment s = x → ∃ shown, Words.Fields s = "-A" :: c :: shown) →
  aloof (deleteLines t x lines errs).
Proof.
  intros Hu Hc. revert errs. induction lines as [|s lines IH]; intros errs Hl; [apply aloof_ret|].
  assert (∀ errs, aloof (deleteLines t x lines errs)) as Hrest by (intros; apply IH; intros s' Hs'; apply Hl; by right).
  destruct (decide (ruleComment s = x)) as [Hs|Hs]; [|by rewrite deleteLines_skip].
  destruct (Hl s ltac:(left) Hs) as [shown E]. rewrite (deleteLines_delete t x s lines errs c shown) by done.
  apply (aloof_bind (wrapping _ _)); [|done]. by apply aloof_wrapping, aloof_command, aside_delete.
Qed.

Lemma aloof_deleteRules t c x : unguarded t c → Words.plain c = true → c ≠ "--comment" → x ≠ "" → aloof (deleteRulesWithComment t c x).
Proof.
  intros Hu Hc Hn Hx v. apply inside_ebind, inside_wrapping, ins_list; [done|intros; apply alters_failed|intros; apply alters_refl|].
  intros out l _ _ E. cbn [wrap_err]. rewrite E. apply (aloof_deleteLines t c); [done..|]. intros s Hs Ex.
  rewrite elem_of_app, elem_of_cons, list_elem_of_fmap, list_elem_of_singleton in Hs. destruct Hs as [[->|(r & -> & _)]| ->].
  - rewrite ruleComment_chain in Ex by done. congruence.
  - by apply line_chain.
  - by destruct Hx.
Qed.

(** No rule is added. *)
Definition shrinks v v' : Prop := ∀ c r, c ∈ guardedChains → r ∈ chain (tables v') c → r ∈ chain (tables v) c.

Lemma shrinks_refl v : shrinks v v.
Proof. by intros c r. Qed.

Lemma shrinks_trans v1 v2 v3 : shrinks v1 v2 → shrinks v2 v3 → shrinks v1 v3.
Proof. intros H12 H23 c r Hc Hr. by apply H12, H23. Qed.

(** The rules of a guarded chain, those of [rs] that have the comment being
    deleted. *)
Lemma ins_deleteLines c x rs v errs :
  c ∈ guardedChains → Forall (known c) rs → free v c x → x ≠ "" →
  ins (deleteLines "filter" x ((line c <$> rs) ++ [""]) errs) v (λ _ v', alters [x] v v' ∧ shrinks v v' ∧
    (failures v' = failures v → filter (λ r, tag c r = x) (chain (tables v) c) = filter (λ r, tag c r = x) rs →
     filter (λ r, tag c r = x) (chain (tables v') c) = [])).
Proof.
  intros Hc Hk Hfree Hx. revert v errs Hfree. induction Hk as [|r rs Hr _ IH]; intros v errs Hfree.
  { change ((line c <$> []) ++ [""]) with [""]. rewrite deleteLines_skip by done. split_and!; [apply alters_refl|apply shrinks_refl|done]. }
  rewrite fmap_cons, <-app_comm_cons, filter_cons. case_decide as Ht; [|rewrite deleteLines_skip by done; by apply IH].
  destruct (guarded_plain c Hc) as [Hp _]. destruct (line_chain c r Hp) as [shown Es].
  destruct Hr as (b & args & Hb & Hform & Hparse). destruct (form_marked c b args Hb Hform) as (_ & _ & _ & _ & Hplain & _).
  destruct (line_args c shown args r Es Hplain Hparse) as [Hshown _].
  rewrite (deleteLines_delete _ _ _ _ _ c shown) by done. apply (inside_bind _ _ _ (wrapping _ _)), inside_wrapping, ins_command.
  - intros e. eapply inside_mono; [|apply IH; by eapply (alters_free [x]), Hfree; apply alters_failed]. intros _ v' (Ha & Hs & Hd).
    split_and!; [by eapply alters_trans; [apply alters_failed|]|done|]. destruct Ha as (_ & _ & Hle & _). simpl in Hle. intros. lia.
  - intros e Hnone. eapply inside_mono; [|by apply IH]. intros _ v' (Ha & Hs & Hd). split_and!; [done..|]. intros Hf E.
    exfalso. rewrite iptables_delete in Hnone. rewrite Hshown in Hnone.
    assert (r ∈ chain (tables v) c) as Hin by (eapply list_elem_of_filter; rewrite E; left).
    unfold chain in Hin. destruct (tables v !! ("filter", c)) as [l|]; [|by apply elem_of_nil in Hin].
    cbn [mbind option_bind] in Hnone. rewrite decide_True in Hnone; done.
  - intros out T' E Hv. rewrite iptables_delete, Hshown in E. destruct (tables v !! ("filter", c)) as [l|] eqn:El; [|done].
    cbn [mbind option_bind] in E. case_decide as Hin; [|done]. injection E as <- <-. split; [apply inv_remove; [done..|by rewrite Ht]|].
    assert (alters [x] v (with_tables v (<[("filter", c):=remove_first r l]> (tables v)))) as Ha1.
    { split_and!; simpl; [done..|]. intros c' Hc'. unfold rest. rewrite chain_insert. case_decide as E; [|done]. subst c'.
      rewrite (chain_some _ _ _ El). apply filter_remove_first. set_solver. }
    eapply inside_mono; [|apply IH; by eapply alters_free]. intros _ v' (Ha & Hs & Hd). split_and!; [by eapply alters_trans| |].
    { eapply shrinks_trans; [|exact Hs]. intros c' r'. simpl. rewrite chain_insert. case_decide as E; [subst c'|done].
      rewrite (chain_some _ _ _ El). intros _. apply remove_first_elem. }
    intros Hf E. apply Hd; [done|]. simpl. rewrite chain_insert, decide_True by done. rewrite (chain_some _ _ _ El) in E.
    by apply filter_remove_head.
Qed.

(** Deleting the rules with a comment from a guarded chain. *)
Lemma ins_deleteRules c x v :
  c ∈ guardedChains → free v c x → x ≠ "" →
  ins (deleteRulesWithComment "filter" c x) v (λ _ v', alters [x] v v' ∧ shrinks v v' ∧
    (failures v' = failures v → filter (λ r, tag c r = x) (chain (tables v') c) = [])).
Proof.
  intros Hc Hfree Hx. destruct (guarded_plain c Hc) as [Hp Hn]. apply inside_ebind, inside_wrapping, ins_list; [done|..].
  - intros e. split_and!; [apply alters_failed|by intros c' r'|]. simpl. lia.
  - intros e Hnone. split_and!; [apply alters_refl|apply shrinks_refl|]. intros _. unfold chain. by rewrite Hnone.
  - intros out l Hv El E. cbn [wrap_err]. rewrite E, <-app_comm_cons, deleteLines_skip by (by rewrite ruleComment_chain).
    eapply inside_mono; [|apply ins_deleteLines; [done| |done..]].
    + intros _ v' (Ha & Hs & Hd). split_and!; [done..|]. intros Hf. apply Hd; [done|]. by rewrite (chain_some _ _ _ El).
    + pose proof (shape v Hv c Hc) as Hk. by rewrite (chain_some _ _ _ El) in Hk.
Qed.

(** *** Adding rules *)

Lemma free_wall v c b x : c ≠ chainDicerInput → walls v !! b = None → x ∈ commentsOf c b → free v c x.
Proof. intros Hc Hw Hx b' Hb'. rewrite bool_decide_false by done. by rewrite (commentsOf_apart _ _ _ _ Hb' Hx). Qed.

Lemma free_door v b x : doors v !! b = None → x ∈ inputComments b → free v chainDicerInput x.
Proof. intros Hd Hx b' Hb'. rewrite bool_decide_true by done. by rewrite (inputComments_apart _ _ _ Hb' Hx). Qed.

Lemma ins_appendRule c b args v :
  form c b args → fit_bridge b → (∀ x, x ∈ commentsOf c b → free v c x) →
  (failures v = 0 → c = chainDicerInput → ∀ r, parse args = Some r →
     partial (<[("filter", c) := chain (tables v) c ++ [r]]> (tables v)) b) →
  ins (appendRule "filter" c args) v (λ res v',
    match res with
    | Ok _ => ∃ r, parse args = Some r ∧ v' = with_tables v (<[("filter", c) := chain (tables v) c ++ [r]]> (tables v))
    | Err _ => v' = v ∨ v' = failed v
    end).
Proof.
  intros Hform Hb Hfree Hp. apply inside_ebind, inside_wrapping, ins_command; [by right|by left|].
  intros out T' E Hv. cbn [app] in E. rewrite iptables_append in E.
  destruct (tables v !! ("filter", c)) as [l|] eqn:El; [|done]. destruct (parse args) as [r|] eqn:Er; [|done].
  cbn [mbind option_bind] in E. case_decide as Ht; [|done]. injection E as <- <-. pose proof (chain_some _ _ _ El) as Ec.
  rewrite Ec in *. split; [|by exists r]. eapply inv_append; [done..| |auto]. apply Hfree. by eapply form_tag.
Qed.

Lemma alters_append P c b args r v :
  form c b args → fit_bridge b → parse args = Some r → tag c r ∈ P →
  alters P v (with_tables v (<[("filter", c) := chain (tables v) c ++ [r]]> (tables v))).
Proof.
  intros Hform Hb Hr HP. split_and!; simpl; [done..|]. intros c' _. unfold rest. rewrite chain_insert. case_decide as E; [|done].
  subst c'. rewrite filter_app, filter_cons_False by set_solver. by rewrite filter_nil, (right_id_L [] (++)).
Qed.

Lemma ins_then {A B} (p : M A) (q : M B) v Q : ins p v (λ _ v', ins q v' Q) → ins (ignoring p ≫= λ _, q) v Q.
Proof. intros Hp. apply inside_bind, inside_bind. exact Hp. Qed.

(** A rule of a chain of the isolation. *)
Definition stage_form (c b x : string) (a : list string) : Prop :=
  form c b (commented x a) ∧ c ≠ chainDicerInput ∧ x ∈ stageComments b ∧ ∀ r, parse (commented x a) = Some r → tag c r = x.

Lemma ins_ensureRule c b x a v :
  stage_form c b x a → fit_bridge b → walls v !! b = None →
  ins (ensureRule "filter" c x a) v (λ res v', alters [x] v v' ∧ (res = Ok tt → holds (tables v') c (commented x a))).
Proof.
  intros (Hform & Hc & Hx & Htag) Hb Hw.
  assert (commentsOf c b = stageComments b) as Eco by (unfold commentsOf; by rewrite bool_decide_false).
  assert (∀ v', walls v' !! b = None → inside I G guarded
      (ignoring (deleteRulesWithComment "filter" c x) ≫= λ _, appendRule "filter" c (commented x a)) L v'
      (λ res v2, alters [x] v' v2 ∧ (res = Ok tt → holds (tables v2) c (commented x a)))) as Hredo.
  { intros v' Hw'. apply ins_then.
    eapply inside_mono; [|apply ins_deleteRules; [by eapply form_guarded|eapply free_wall; [done..|by rewrite Eco]|]].
    - intros _ v1 (Ha & _). assert (walls v1 !! b = None) as Hw1 by (destruct Ha as (-> & _); done).
      eapply inside_mono; [|apply (ins_appendRule c b); [done..|intros; by eapply free_wall|done]].
      intros [[]|e] v2; simpl.
      + intros (r & Hr & ->). split.
        * eapply alters_trans; [exact Ha|]. eapply alters_append; [done..|]. rewrite (Htag r Hr). set_solver.
        * intros _. exists r. split; [done|]. simpl. rewrite chain_insert, decide_True by done. set_solver.
      + intros Hv2. split; [|done]. destruct Hv2 as [->| ->]; [done|]. eapply alters_trans; [exact Ha|apply alters_failed].
    - intros ->. unfold stageComments in Hx. set_solver. }
  apply inside_bind, ins_ruleExists.
  - eapply inside_mono; [|by apply Hredo]. intros res v' [Ha Hh]. split; [|done]. by eapply alters_trans; [apply alters_failed|].
  - intros _. by apply Hredo.
  - intros l r Hl Hr Hin. split; [apply alters_refl|]. intros _. exists r. split; [done|]. by rewrite (chain_some _ _ _ Hl).
Qed.

Lemma stage_forms b : fit_bridge b →
  stage_form chainDicerIsolationStage1 b (internalComment b) (internalRule b) ∧
  stage_form chainDicerIsolationStage1 b (isolationStage1Comment b) (stage1Rule b) ∧
  stage_form chainDicerIsolationStage2 b (isolationStage2Comment b) (stage2Rule b).
Proof.
  intros Hb. pose proof Hb as (_ & Hj & Hc). split_and!; (split_and!; [constructor|done|unfold stageComments; set_solver|]).
  - intros r. apply (stage_tag _ b ["-i"; b; "!"; "-o"; b; "-m"; "conntrack"; "!"; "--ctstate"; "ESTABLISHED,RELATED"]); [done|constructor|no_option|no_option].
  - intros r. apply (stage_tag _ b ["-i"; b; "!"; "-o"; b]); [done|constructor|no_option|no_option].
  - intros r. apply (stage_tag _ b ["-o"; b]); [done|constructor|no_option|no_option].
Qed.

(** What a rule with another comment leaves of it. *)
Lemma alters_stage x c b y a v v' :
  alters [x] v v' → stage_form c b y a → x ≠ y → holds (tables v) c (commented y a) → holds (tables v') c (commented y a).
Proof.
  intros (_ & _ & _ & Hr) (Hform & _ & _ & Htag) Hne (r & Hp & Hin). exists r. split; [done|].
  assert (r ∈ rest [x] c (tables v')) as Hin'; [|by apply list_elem_of_filter in Hin' as [_ ?]].
  rewrite Hr by by eapply form_guarded. apply list_elem_of_filter. split; [|done]. rewrite (Htag r Hp). set_solver.
Qed.

Lemma ins_ensureIsolationRules b internal v :
  fit_bridge b → walls v !! b = None →
  ins (ensureIsolationRules b internal) v (λ res v', alters (stageComments b) v v' ∧ (res = Ok tt →
    holds (tables v') chainDicerIsolationStage1 (stage1Args b) ∧ holds (tables v') chainDicerIsolationStage2 (stage2Args b) ∧
    (internal = true → holds (tables v') chainDicerIsolationStage1 (internalArgs b)))).
Proof.
  intros Hb Hw. destruct (stage_forms b Hb) as (Hf0 & Hf1 & Hf2).
  assert (∀ x v v', x ∈ stageComments b → alters [x] v v' → alters (stageComments b) v v') as Hsub.
  { intros x v1 v2 Hx. apply alters_sub. set_solver. }
  assert (∀ x v v', alters [x] v v' → walls v !! b = None → walls v' !! b = None) as Hwall by (intros x v1 v2 (-> & _); done).
  apply inside_ebind.
  set (Q0 := λ (res : result unit) v', alters [internalComment b] v v' ∧ (res = Ok tt → internal = true → holds (tables v') chainDicerIsolationStage1 (internalArgs b))).
  assert (inside I G guarded (if internal then
     wrapping "add internal rule for %s: %w" (ensureRule "filter" chainDicerIsolationStage1 (internalComment b) (internalRule b))
   else wrapping "remove internal rule for %s: %w" (deleteRulesWithComment "filter" chainDicerIsolationStage1 (internalComment b))) L v Q0) as H0.
  { destruct internal; apply inside_wrapping.
    - eapply inside_mono; [|by apply (ins_ensureRule _ b)]. intros [[]|e] v' [Ha Hh]; (split; [done|]); [auto|done].
    - eapply inside_mono; [|apply ins_deleteRules]. 
      + intros [[]|e] v' (Ha & _); by split.
      + unfold guardedChains. set_solver.
      + by eapply (free_wall _ _ b); [|done|apply Hf0].
      + done. }
  eapply inside_mono; [|exact H0]. intros [[]|e] v1 [Ha1 Hh1]; [|split; [apply (Hsub _ _ _ ltac:(apply Hf0) Ha1)|done]].
  cbn beta iota. apply inside_ebind, inside_wrapping. eapply inside_mono; [|apply (ins_ensureRule _ b _ _ v1 Hf1 Hb); eauto].
  intros [[]|e] v2 [Ha2 Hh2]; cbn [wrap_err]; [|split; [eapply alters_trans; [by eapply Hsub, Ha1; apply Hf0|by eapply Hsub, Ha2; apply Hf1]|done]].
  apply inside_wrapping. eapply inside_mono; [|apply (ins_ensureRule _ b _ _ v2 Hf2 Hb); eauto].
  intros res v3 [Ha3 Hh3]. split.
  - eapply alters_trans; [by eapply Hsub, Ha1; apply Hf0|]. eapply alters_trans; [by eapply Hsub, Ha2; apply Hf1|]. by eapply Hsub, Ha3; apply Hf2.
  - intros Hres. destruct res as [[]|]; [|done]. split_and!.
    + eapply (alters_stage _ _ b); [exact Ha3|done|done|auto].
    + auto.
    + intros Hi. eapply (alters_stage _ _ b); [exact Ha3|done|done|]. eapply (alters_stage _ _ b); [exact Ha2|done|done|auto].
Qed.

(** *** The sections *)

Lemma aloof_ensureRule t c x a : unguarded t c → Words.plain c = true → c ≠ "--comment" → x ≠ "" → aloof (ensureRule t c x a).
Proof.
  intros Hu Hc Hn Hx. apply (aloof_bind (ruleExists _ _ _)).
  - apply aloof_bind; [apply aloof_command, aside_check|intros; apply aloof_ret].
  - intros []; [apply aloof_ret|]. apply aloof_bind; [by apply aloof_ignoring, aloof_deleteRules|]. intros _.
    apply aloof_ebind; [by apply aloof_wrapping, aloof_command, aside_append|intros; apply aloof_ret].
Qed.

Lemma unguarded_other t c : (c ∉ guardedChains) → unguarded t c.
Proof. intros Hc _. done. Qed.

Lemma aloof_anyMissing t c rules : aloof (anyMissing t c rules).
Proof.
  induction rules as [|rule rules IH]; [apply aloof_ret|]. apply (aloof_bind (ruleExists _ _ _)).
  - apply aloof_bind; [apply aloof_command, aside_check|intros; apply aloof_ret].
  - intros []; [done|apply aloof_ret].
Qed.

Lemma aloof_insertJumps jumps : Forall (λ j, (parent j ∉ guardedChains)) jumps → aloof (insertJumps jumps).
Proof.
  induction 1 as [|j jumps Hj _ IH]; [apply aloof_ret|]. apply (aloof_ebind (wrapping _ _)); [|done].
  apply aloof_wrapping, aloof_command, aside_filter; [set_solver|]. by apply aside_insert_first, unguarded_other.
Qed.

Lemma aloof_ensureJumps from : from ∈ ["FORWARD"; "INPUT"] → aloof (ensureJumps from).
Proof.
  intros Hfrom. assert ((from ∉ guardedChains) ∧ Words.plain from = true ∧ from ≠ "--comment") as (Hg & Hp & Hn).
  { revert Hfrom. rewrite !elem_of_cons, elem_of_nil. intros [->|[->|[]]]; (split_and!; [unfold guardedChains; set_solver|by vm_compute|done]). }
  apply (aloof_bind (anyMissing _ _ _)); [apply aloof_anyMissing|]. intros []; cbn [negb]; [|apply aloof_ret].
  apply aloof_bind; [apply aloof_for_all|intros _; apply aloof_insertJumps].
  - intros j [_ Hj]%list_elem_of_filter. apply aloof_ignoring, aloof_deleteRules; [by apply unguarded_other|done|done|].
    revert Hj. unfold dicerJumps. rewrite !elem_of_cons, elem_of_nil. by intros [->|[->|[->|[->|[]]]]].
  - apply Forall_reverse, Forall_forall. by intros j [-> _]%list_elem_of_filter.
Qed.

Lemma aloof_ensureDicerChains : aloof ensureDicerChains.
Proof.
  apply aloof_bind.
  - apply aloof_for_all. intros c _. apply aloof_ignoring, aloof_command, aside_filter, aside_new. set_solver.
  - intros _. apply (aloof_bind (ask QParents)); [apply aloof_ask|].
    intros []; (apply aloof_ebind; [|intros _]); apply aloof_ensureJumps; set_solver.
Qed.

Lemma aloof_uplink : aloof (uplink UplinkInterface).
Proof.
  unfold uplink. case_bool_decide; cbn [negb]; [|apply aloof_ret]. apply aloof_ebind; [apply aloof_wrapping, aloof_ask|].
  intros routes. destruct (forallb elsewhere routes); [apply aloof_ret|apply aloof_wrapping, aloof_ask].
Qed.

Lemma forward_unguarded : unguarded "filter" chainDicerForward.
Proof. apply unguarded_other. unfold guardedChains. set_solver. Qed.

Lemma aloof_ensureForwardRules b link : aloof (ensureForwardRules b link).
Proof.
  repeat (apply aloof_ebind; [|intros _]); apply aloof_wrapping, aloof_ensureRule; done || apply forward_unguarded.
Qed.

Lemma aloof_deleteAll pairs errs :
  Forall (λ '(c, x), (c ∉ guardedChains) ∧ Words.plain c = true ∧ c ≠ "--comment" ∧ x ≠ "") pairs → aloof (deleteAll pairs errs).
Proof.
  intros Hp. revert errs. induction Hp as [|[c x] pairs (Hg & Hc & Hn & Hx) _ IH]; intros errs; [apply aloof_ret|].
  apply (aloof_bind (deleteRulesWithComment _ _ _)); [|intros; apply IH]. by apply aloof_deleteRules; [apply unguarded_other|..].
Qed.

(** Rules of a bridge are deleted, and no others. *)
Lemma ins_deleteAll P pairs errs v :
  (∀ c x, (c, x) ∈ pairs → c ∈ guardedChains ∧ x ≠ "" ∧ x ∈ P ∧ free v c x) →
  ins (deleteAll pairs errs) v (λ _ v', alters P v v' ∧ shrinks v v' ∧
    (failures v' = failures v → ∀ c x r, (c, x) ∈ pairs → r ∈ chain (tables v') c → tag c r ≠ x)).
Proof.
  revert v errs. induction pairs as [|[c x] pairs IH]; intros v errs Hp.
  { split_and!; [apply alters_refl|apply shrinks_refl|]. intros _ c x r Hx. by apply elem_of_nil in Hx. }
  destruct (Hp c x) as (Hc & Hx & HxP & Hfree); [left|].
  apply (inside_bind _ _ _ (deleteRulesWithComment _ _ _)). eapply inside_mono; [|by apply ins_deleteRules].
  intros res v1 (Ha1 & Hs1 & Hd1). assert (alters P v v1) as HaP by (eapply alters_sub; [|exact Ha1]; set_solver).
  eapply inside_mono; [|apply IH].
  - intros res' v2 (Ha2 & Hs2 & Hd2). split_and!; [by eapply alters_trans|by eapply shrinks_trans|].
    intros Hf c' x' r Hin Hr. destruct Ha1 as (_ & _ & Hle1 & _), Ha2 as (_ & _ & Hle2 & _).
    apply elem_of_cons in Hin as [[= -> ->]|Hin]; [|apply (Hd2 ltac:(lia) c' x'); done].
    intros Ht. assert (r ∈ filter (λ r, tag c r = x) (chain (tables v1) c)) as Hbad.
    { apply list_elem_of_filter. split; [done|]. by apply Hs2. }
    rewrite Hd1 in Hbad by lia. by apply elem_of_nil in Hbad.
  - intros c' x' Hin. destruct (Hp c' x') as (? & ? & ? & ?); [by right|]. split_and!; [done..|]. by eapply alters_free.
Qed.

(** A step on what the lock guards. *)
Lemma ins_modify {A} f (k : unit → M A) v Q : (inv v → inv (f v)) → ins (k tt) (f v) Q → ins (modify (on_rules f) ≫= k) v Q.
Proof. intros Hi Hk w <- [HI Hn]. split_and!; [by right|by split; [apply Hi|]|exact Hk]. Qed.

Lemma ins_anyMissing c rules v :
  ins (anyMissing "filter" c rules) v (λ missing v', alters [] v v' ∧ tables v' = tables v ∧
    (missing = false → Forall (holds (tables v) c) rules)).
Proof.
  induction rules as [|rule rules IH]; [by split_and!; [apply alters_refl|..]|].
  apply (inside_bind _ _ _ (ruleExists _ _ _)), ins_ruleExists.
  - by split_and!; [apply alters_failed|..].
  - intros _. by split_and!; [apply alters_refl|..].
  - intros l r Hl Hr Hin. eapply inside_mono; [|exact IH]. intros missing v' (Ha & Ht & Hm). split_and!; [done..|].
    intros Hmiss. constructor; [|by apply Hm]. exists r. split; [done|]. by rewrite (chain_some _ _ _ Hl).
Qed.

Lemma holds_append T c args l r :
  holds T c args → chain T c = l → holds (<[("filter", c) := l ++ [r]]> T) c args.
Proof. intros (r' & Hr' & Hin) <-. exists r'. split; [done|]. rewrite chain_insert, decide_True by done. set_solver. Qed.

(** The rules are appended one after the other. *)
Lemma ins_appendRules b gw internal pre todo v :
  fit_bridge b → fit_gateway gw → inputRules b gw internal = pre ++ todo → doors v !! b = None →
  (failures v = 0 → made pre (own (tables v) b)) → Forall (holds (tables v) chainDicerInput) pre →
  ins (appendRules "filter" chainDicerInput todo) v (λ res v', alters (inputComments b) v v' ∧
    (res = Ok tt → Forall (holds (tables v') chainDicerInput) (inputRules b gw internal))).
Proof.
  intros Hb Hgw. revert pre v. induction todo as [|args todo IH]; intros pre v E Hd Hown Hh.
  { split; [apply alters_refl|]. intros _. by rewrite E, (right_id_L [] (++)). }
  assert (args ∈ inputRules b gw internal) as Hin by (rewrite E; set_solver).
  assert (form chainDicerInput b args) as Hform by by econstructor.
  assert (∀ r, parse args = Some r → tag chainDicerInput r ∈ inputComments b) as Htag.
  { intros r Hr. pose proof (form_tag _ _ _ _ Hb Hform Hr) as Ht. unfold commentsOf in Ht. by rewrite bool_decide_true in Ht. }
  assert (∀ r, parse args = Some r → own (<[("filter", chainDicerInput) := chain (tables v) chainDicerInput ++ [r]]> (tables v)) b = own (tables v) b ++ [r]) as Hgrow.
  { intros r Hr. unfold own at 1. rewrite chain_insert, decide_True, filter_app, filter_cons_True by auto. done. }
  assert (∀ r, parse args = Some r → failures v = 0 → made (pre ++ [args]) (own (tables v) b ++ [r])) as Hmade.
  { intros r Hr Hf. apply Forall2_app; [exact (Hown Hf)|]. by repeat constructor. }
  apply inside_ebind, inside_wrapping. eapply inside_mono; [|apply (ins_appendRule _ b); [done|done| |]].
  - intros [[]|e] v1; cbn [wrap_err].
    + intros (r & Hr & ->). eapply inside_mono; [|apply (IH (pre ++ [args]))].
      * intros res v2 [Ha Hk]. split; [|done]. eapply alters_trans; [|exact Ha]. eapply alters_append; eauto.
      * by rewrite <-(assoc_L (++)).
      * done.
      * intros Hf. simpl. rewrite Hgrow by done. by apply Hmade.
      * apply Forall_app. split; [|constructor; [|done]].
        -- eapply Forall_impl; [exact Hh|]. intros a' Ha'. by apply holds_append.
        -- exists r. split; [done|]. simpl. rewrite chain_insert, decide_True by done. set_solver.
    + intros Hv1. split; [|done]. destruct Hv1 as [->| ->]; [apply alters_refl|apply alters_failed].
  - intros x Hx. unfold commentsOf in Hx. rewrite bool_decide_true in Hx by done. by eapply free_door.
  - intros Hf _ r Hr. exists gw, internal, (S (length pre)), (own (tables v) b ++ [r]). split_and!; [done| |by rewrite Hgrow].
    rewrite E. replace (take (S (length pre)) (pre ++ args :: todo)) with (pre ++ [args]); [by apply Hmade|].
    rewrite take_app_ge by lia. by replace (S (length pre) - length pre) with 1 by lia.
Qed.

Lemma free_input v b x : doors v !! b = None → x ∈ inputComments b → chainDicerInput ∈ guardedChains ∧ x ≠ "" ∧ x ∈ inputComments b ∧ free v chainDicerInput x.
Proof.
  intros Hd Hx. split_and!; [unfold guardedChains; set_solver| |done|by eapply free_door].
  intros ->. unfold inputComments in Hx. set_solver.
Qed.

Lemma ins_removeInputRules b v : doors v !! b = None →
  ins (removeInputRules b) v (λ _ v', alters (inputComments b) v v' ∧ (failures v' = failures v → own (tables v') b = [])).
Proof.
  intros Hd. eapply inside_mono; [|apply (ins_deleteAll (inputComments b))].
  - intros res v' (Ha & _ & Hno). split; [done|]. intros Hf. destruct (own (tables v') b) as [|r l] eqn:E; [done|].
    assert (r ∈ own (tables v') b) as [Ht Hr]%list_elem_of_filter by (rewrite E; left).
    exfalso. apply (Hno Hf chainDicerInput (tag chainDicerInput r) r); [|done..]. apply list_elem_of_fmap. eauto.
  - intros c x (y & [= -> ->] & Hx)%list_elem_of_fmap. by apply free_input.
Qed.

Lemma ins_ensureInputRules b gw internal v :
  fit_bridge b → fit_gateway gw → doors v !! b = None →
  ins (ensureInputRules ListenerPort b gw internal) v (λ res v', alters (inputComments b) v v' ∧
    (res = Ok tt → Forall (holds (tables v') chainDicerInput) (inputRules b gw internal))).
Proof.
  intros Hb Hgw Hd.
  assert (∀ v1, alters (inputComments b) v v1 → inside I G guarded
      (ignoring (removeInputRules b) ≫= λ _, appendRules "filter" chainDicerInput (inputRules b gw internal)) L v1
      (λ res v', alters (inputComments b) v v' ∧ (res = Ok tt → Forall (holds (tables v') chainDicerInput) (inputRules b gw internal)))) as Hredo.
  { intros v1 Ha1. assert (doors v1 !! b = None) as Hd1 by (destruct Ha1 as (_ & -> & _); done).
    apply ins_then. eapply inside_mono; [|by apply ins_removeInputRules]. intros _ v2 [Ha2 Hno].
    assert (doors v2 !! b = None) as Hd2 by (destruct Ha2 as (_ & -> & _); done).
    eapply inside_mono; [|apply (ins_appendRules b gw internal []); [done..| |constructor]].
    - intros res v3 [Ha3 Hh]. split; [|done]. eapply alters_trans; [exact Ha1|]. by eapply alters_trans.
    - intros Hf. rewrite Hno; [constructor|]. destruct Ha2 as (_ & _ & Hle & _). lia. }
  apply inside_ebind.
  set (first := (if (ListenerPort =? 0)%Z then _ else _)).
  assert (inside I G guarded first L v (λ _ v1, alters (inputComments b) v v1)) as Hfirst.
  { unfold first. destruct (ListenerPort =? 0)%Z; [|apply alters_refl]. apply inside_wrapping.
    assert (inputListenerDropComment b ∈ inputComments b) as Hx by (unfold inputComments; set_solver).
    destruct (free_input v b _ Hd Hx) as (Hc & Hne & _ & Hfree).
    eapply inside_mono; [|by apply ins_deleteRules]. intros _ v' (Ha & _). eapply alters_sub; [|exact Ha]. set_solver. }
  eapply inside_mono; [|exact Hfirst]. intros [[]|e] v1 Ha1; [|by split]. cbn beta iota.
  apply (inside_bind _ _ _ (ruleExists _ _ _)), ins_ruleExists.
  - cbn [negb]. apply inside_bind. eapply inside_mono; [|apply ins_anyMissing].
    intros missing v2 (Ha2 & Ht & Hm). assert (alters (inputComments b) v v2) as Ha12.
    { eapply alters_trans; [exact Ha1|]. eapply alters_trans; [apply alters_failed|]. eapply alters_sub; [|exact Ha2]. set_solver. }
    destruct missing; cbn [negb]; [by apply Hredo|]. split; [done|]. intros _. rewrite Ht. by apply Hm.
  - intros _. cbn [negb]. apply inside_bind. eapply inside_mono; [|apply ins_anyMissing].
    intros missing v2 (Ha2 & Ht & Hm). assert (alters (inputComments b) v v2) as Ha12.
    { eapply alters_trans; [exact Ha1|]. eapply alters_sub; [|exact Ha2]. set_solver. }
    destruct missing; cbn [negb]; [by apply Hredo|]. split; [done|]. intros _. rewrite Ht. by apply Hm.
  - intros l r _ _ _. by apply Hredo.
Qed.

(** The sections of the operations. *)

Lemma aloof_then {A B} (p : M A) (q : M B) v Q : aloof p → (∀ v', alters [] v v' → ins q v' Q) → ins (ignoring p ≫= λ _, q) v Q.
Proof. intros Hp Hq. apply ins_then. eapply inside_mono; [|apply Hp]. auto. Qed.

Lemma aloof_next {A} format (p : M (result A)) (g : A → M (result unit)) v (Q : result unit → Guarded → Prop) :
  aloof p → (∀ e v', Q (Err e) v') → (∀ a v', alters [] v v' → ins (g a) v' Q) → ins (ebind (wrapping format p) g) v Q.
Proof.
  intros Hp He Hg. apply inside_ebind, inside_wrapping. eapply inside_mono; [|apply Hp]. intros [a|e] v' Ha; cbn [wrap_err]; auto.
Qed.

Lemma alters_walls P v v' b : alters P v v' → walls v !! b = None → walls v' !! b = None.
Proof. by intros (-> & _). Qed.

Lemma alters_doors P v v' b : alters P v v' → doors v !! b = None → doors v' !! b = None.
Proof. by intros (_ & -> & _). Qed.

Lemma ins_setupIPTables b subnetCIDR internal v : fit_bridge b →
  ins (breach b ≫= λ _,
    data ←? wrapping "check ip forwarding: %w" (ask QForward);
    if negb (bool_decide (Str.trim_space data = "1")) then mret (Err ErrForwardingDisabled)
    else
      link ←? uplink UplinkInterface;
      wrapping "set up Dicer's chains: %w" ensureDicerChains ?;
      wrapping "set up NAT: %w" (ensureRule "nat" "POSTROUTING" (natComment b) (masqueradeRule subnetCIDR link)) ?;
      wrapping "set up forward rules: %w" (ensureForwardRules b link) ?;
      wrapping "set up isolation rules: %w" (ensureIsolationRules b internal) ?;
      modify (on_rules (λ v, with_walls v (<[b := internal]> (walls v)))) ≫= λ _,
      mret (Ok tt)) v (λ res v', res = Ok tt → walls v' !! b = Some internal).
Proof.
  intros Hb. apply ins_modify; [apply inv_breach|]. set (v0 := with_walls v _).
  assert (walls v0 !! b = None) as Hw by apply lookup_delete_eq. clearbody v0. clear v.
  apply aloof_next; [apply aloof_ask|done|]. intros data v1 Ha1. apply (alters_walls _ _ _ b) in Ha1; [|done].
  case_bool_decide; cbn [negb]; [|done].
  apply inside_ebind. eapply inside_mono; [|apply aloof_uplink]. intros [link|e] v2 Ha2; [|done]. apply (alters_walls _ _ _ b) in Ha2; [|done]. cbn beta iota.
  apply aloof_next; [apply aloof_ensureDicerChains|done|]. intros _ v3 Ha3. apply (alters_walls _ _ _ b) in Ha3; [|done].
  apply aloof_next; [by apply aloof_ensureRule; [apply unguarded_other; unfold guardedChains; set_solver|..]|done|].
  intros _ v4 Ha4. apply (alters_walls _ _ _ b) in Ha4; [|done].
  apply aloof_next; [apply aloof_ensureForwardRules|done|]. intros _ v5 Ha5. apply (alters_walls _ _ _ b) in Ha5; [|done].
  apply inside_ebind, inside_wrapping. eapply inside_mono; [|by apply ins_ensureIsolationRules].
  intros [[]|e] v6 [_ Hh]; cbn [wrap_err]; [|done]. destruct (Hh eq_refl) as (H1 & H2 & H3).
  apply ins_modify; [intros Hv; by apply inv_wall|]. intros _. apply lookup_insert_eq.
Qed.

Lemma ins_teardownIPTables b v : fit_bridge b →
  ins (breach b ≫= λ _,
    ignoring (deleteRulesWithComment "nat" "POSTROUTING" (natComment b)) ≫= λ _,
    ignoring (removeForwardRules b) ≫= λ _,
    ignoring (removeIsolationRules b)) v (λ _ _, True).
Proof.
  intros Hb. apply ins_modify; [apply inv_breach|]. set (v0 := with_walls v _).
  assert (walls v0 !! b = None) as Hw by apply lookup_delete_eq. clearbody v0. clear v.
  apply aloof_then; [by apply aloof_deleteRules; [apply unguarded_other; unfold guardedChains; set_solver|..]|].
  intros v1 Ha1. apply (alters_walls _ _ _ b) in Ha1; [|done]. apply aloof_then.
  { apply aloof_deleteAll. repeat constructor; try done; unfold guardedChains; set_solver. }
  intros v2 Ha2. apply (alters_walls _ _ _ b) in Ha2; [|done]. apply inside_bind.
  eapply inside_mono; [|apply (ins_deleteAll (stageComments b))]; [done|].
  intros c x Hin. assert (c ∈ guardedChains ∧ c ≠ chainDicerInput ∧ x ∈ stageComments b ∧ x ≠ "") as (Hc & Hne & Hx & Hne').
  { rewrite !elem_of_cons, elem_of_nil in Hin. unfold guardedChains, stageComments.
    destruct Hin as [[= -> ->]|[[= -> ->]|[[= -> ->]|[]]]]; (split_and!; [set_solver|done|set_solver|done]). }
  split_and!; [done..|]. eapply (free_wall _ _ b); [done..|]. unfold commentsOf. by rewrite bool_decide_false.
Qed.

Lemma ins_ensureGatewayAccess b gw internal v : fit_bridge b → fit_gateway gw →
  ins (unbar b ≫= λ _,
    ensureInputRules ListenerPort b gw internal ?;
    modify (on_rules (λ v, with_doors v (<[b := mkDoor gw internal]> (doors v)))) ≫= λ _,
    mret (Ok tt)) v (λ res v', res = Ok tt → doors v' !! b = Some (mkDoor gw internal) ∧ walls v' = walls v).
Proof.
  intros Hb Hgw. apply ins_modify; [apply inv_unbar|]. apply inside_ebind.
  eapply inside_mono; [|apply ins_ensureInputRules; [done..|apply lookup_delete_eq]].
  intros [[]|e] v1 [Ha Hh]; [|done]. cbn beta iota. apply ins_modify; [intros Hv; apply inv_door; auto|].
  intros _. split; [apply lookup_insert_eq|]. apply Ha.
Qed.

Lemma ins_removeGatewayAccess b v : ins (unbar b ≫= λ _, ignoring (removeInputRules b)) v (λ _ _, True).
Proof.
  apply ins_modify; [apply inv_unbar|]. apply inside_bind. eapply inside_mono; [|apply ins_removeInputRules, lookup_delete_eq]. done.
Qed.

Lemma dnat_unguarded : unguarded "nat" chainDicerDNAT.
Proof. done. Qed.

Lemma aloof_ensureDNATChain : aloof ensureDNATChain.
Proof.
  apply aloof_bind; [apply aloof_ignoring, aloof_command, aside_new|]. intros _.
  generalize dnatJumps. intros jumps. induction jumps as [|[[from x] match_] jumps IH]; [apply aloof_ret|].
  apply (aloof_bind (ruleExists _ _ _)); [apply aloof_bind; [apply aloof_command, aside_check|intros; apply aloof_ret]|].
  intros found. apply aloof_ebind; [|done]. destruct found; [apply aloof_ret|].
  apply aloof_ebind; [by apply aloof_wrapping, aloof_command, aside_insert_first|intros; apply aloof_ret].
Qed.

Lemma aloof_unpublishPorts id : aloof (unpublishPorts id).
Proof.
  apply aloof_for_all. intros [t c] Hin.
  assert (unguarded t c ∧ Words.plain c = true ∧ c ≠ "--comment") as (Hu & Hc & Hn).
  { rewrite !elem_of_cons, elem_of_nil in Hin. destruct Hin as [[= -> ->]|[[= -> ->]|[]]]; (split_and!; [|by vm_compute|done]).
    - apply dnat_unguarded.
    - apply forward_unguarded. }
  apply (aloof_bind (chainExists _ _)); [apply aloof_bind; [apply aloof_command, aside_list|intros; apply aloof_ret]|].
  intros []; cbn [negb]; [|apply aloof_ret]. by apply aloof_ignoring, aloof_deleteRules.
Qed.

Lemma aloof_appendRule t c rule : unguarded t c → aloof (appendRule t c rule).
Proof. intros Hu. apply aloof_ebind; [by apply aloof_wrapping, aloof_command, aside_append|intros; apply aloof_ret]. Qed.

Lemma aloof_PublishPorts bridge id ip ports :
  aloof (wrapping "set up %s chain: %w" ensureDNATChain ?;
         unpublishPorts id ≫= λ _, checkHostPortsFree ports ?; publish bridge id ip ports).
Proof.
  apply aloof_ebind; [apply aloof_wrapping, aloof_ensureDNATChain|]. intros _. apply aloof_bind; [apply aloof_unpublishPorts|]. intros _.
  apply aloof_ebind.
  - induction ports as [|p ports IH]; [apply aloof_ret|]. apply (aloof_ebind checkHostPortFree); [|done].
    apply (aloof_bind (ask QListen)); [apply aloof_ask|intros; apply aloof_ret].
  - intros _. induction ports as [|p ports IH]; [apply aloof_ret|]. apply (aloof_ebind (on_error _ _)); [|done].
    apply aloof_on_error; [apply aloof_unpublishPorts|]. apply aloof_wrapping, aloof_ebind; [|intros _]; apply aloof_appendRule.
    + apply forward_unguarded.
    + apply dnat_unguarded.
Qed.

Lemma aloof_true {A} (p : M A) v : aloof p → ins p v (λ _ _, True).
Proof. intros Hp. eapply inside_mono; [|apply Hp]. done. Qed.

End Locked.

End Chains.
End Chains.
