(* ===== verification/Entrance.v ===== *)
(** * The way into Dicer's chains

    Packets for the host meet the rules of the chain [INPUT]. What [Firewall]'s
    operations keep there, however they interleave and as long as every command
    can be run: once the jump to [DICER-INPUT] has been inserted it is the first
    rule of [INPUT], and stays so; and it is there before the guests of any
    network are given access to the host. *)

From S2P Require Import Prelude Errdefs Naming Addr Network Conc Firewall Chains.

Module Entrance.
Import Firewall Chains.
Open Scope prog_scope.

Section Entrance.

Context `{IPTables} (UplinkInterface : string) (ListenerPort : Z) (bus : bool).

Abbreviation Tables := (gmap (string * string) (list Rule)).
Abbreviation M := (prog (S:=World) (answer:=answer) (lock:=lock)).

Implicit Types (T : Tables) (v : Guarded) (r : Rule) (l : list Rule) (args : list string).

(** ** What is kept *)

Definition inputJump : chainJump := mkJump "INPUT" "dicer-jump-input" chainDicerInput.

Definition input T : option (list Rule) := T !! ("filter", "INPUT").

(** The jump is the first rule. *)
Definition entered v : Prop := ∃ r l, parse (jumpRule inputJump) = Some r ∧ input (tables v) = Some (r :: l).

(** The jump is not there. *)
Definition absent v : Prop := ∀ r l, parse (jumpRule inputJump) = Some r → input (tables v) = Some l → r ∉ l.

Record gated v : Prop := {
  absent_or_first : absent v ∨ entered v;
  doors_entered : doors v ≠ ∅ → entered v;
}.

Lemma absent_not_entered v : absent v → entered v → False.
Proof. intros Ha (r & l & Hr & Hl). apply (Ha r _ Hr Hl). left. Qed.

(** Others leave the jump where it is, while commands can be run. *)
Definition onward v v' : Prop := failures v' = 0 → failures v = 0 ∧ (entered v → entered v').

Lemma onward_refl v : onward v v.
Proof. done. Qed.

Lemma onward_trans v1 v2 v3 : onward v1 v2 → onward v2 v3 → onward v1 v3.
Proof. intros H12 H23 Hf. destruct (H23 Hf) as [Hf2 He2], (H12 Hf2) as [Hf1 He1]. auto. Qed.

Definition J (w : World) : Prop := failures (guarded w) = 0 → gated (guarded w).

Definition JG (L : gset lock) (w w' : World) : Prop :=
  guarded w' = guarded w ∨ (rulesMu ∈ L ∧ onward (guarded w) (guarded w')).

Definition JR (L : gset lock) (w w' : World) : Prop :=
  (rulesMu ∈ L → guarded w' = guarded w) ∧ onward (guarded w) (guarded w').

#[export] Instance entrance_rely : RelyGuarantee J JG JR.
Proof.
  split; unfold JR, JG.
  - intros L s. split; [done|apply onward_refl].
  - intros L s1 s2 s3 [H1 O1] [H2 O2]. split; [intros HL; by rewrite H2, H1|by eapply onward_trans].
  - intros L1 L2 s s' Hd _ [E|[HL HO]]; [rewrite E; split; [done|apply onward_refl]|]. split; [intros HL2; set_solver|done].
Qed.

Lemma entrance_kept (L : gset lock) (w w' : World) : rulesMu ∈ L → JR L w w' → guarded w' = guarded w.
Proof. intros HL [Hk _]. auto. Qed.

(** ** What a thread that holds the lock does *)

Section Locked.

Context (L : gset lock) (HL : rulesMu ∈ L).

Abbreviation ins p v Q := (inside J JG guarded p L v Q).

(** A step on what the lock guards. *)
Lemma jns_modify {A} f (k : unit → M A) v Q :
  onward v (f v) → ((failures v = 0 → gated v) → failures (f v) = 0 → gated (f v)) →
  ins (k tt) (f v) Q → ins (modify (on_rules f) ≫= k) v Q.
Proof. intros Ho Hg Hk w <- Hw. simpl. by split_and!; [right|exact (Hg Hw)|exact Hk]. Qed.

Lemma jns_command args v (Q : result string → Guarded → Prop) :
  (∀ e, Q (Err e) (failed v)) →
  (∀ e, iptables ("-w" :: args) (tables v) = None → Q (Err e) v) →
  (∀ out T', iptables ("-w" :: args) (tables v) = Some (out, T') → (failures v = 0 → gated v) →
     onward v (with_tables v T') ∧ (failures v = 0 → gated (with_tables v T')) ∧ Q (Ok out) (with_tables v T')) →
  ins (iptablesCommand args) v Q.
Proof.
  intros Hf Hn Hs. intros [e|]; simpl.
  - intros w <- Hw. split_and!; [by right|done|apply Hf].
  - intros w <- Hw. destruct (iptables _ _) as [[out T']|] eqn:E; simpl.
    + destruct (Hs out T' eq_refl Hw) as (Ho & Hi & HQ). by split_and!; [right|..].
    + split_and!; [by left|done|by apply Hn].
Qed.

(** *** Other chains *)

(** What [INPUT] holds is as it was. *)
Definition spared v v' : Prop := input (tables v') = input (tables v) ∧ doors v' = doors v ∧ failures v ≤ failures v'.

Lemma spared_refl v : spared v v.
Proof. by split_and!. Qed.

Lemma spared_trans v1 v2 v3 : spared v1 v2 → spared v2 v3 → spared v1 v3.
Proof. intros (? & ? & ?) (? & ? & ?). split_and!; [congruence..|lia]. Qed.

Lemma spared_failed v : spared v (failed v).
Proof. split_and!; simpl; [done..|lia]. Qed.

Lemma spared_entered v v' : spared v v' → entered v → entered v'.
Proof. intros (E & _) (r & l & Hr & Hl). exists r, l. by rewrite E. Qed.

Lemma spared_onward v v' : spared v v' → onward v v'.
Proof. intros Hs Hf. split; [destruct Hs as (_ & _ & ?); lia|by apply spared_entered]. Qed.

Lemma spared_gated v v' : spared v v' → gated v → gated v'.
Proof.
  intros Hs [Ha Hd]. split.
  - destruct Ha as [Ha|He]; [left|right; by apply (spared_entered v)]. intros r l. destruct Hs as (-> & _). apply Ha.
  - intros Hne. apply (spared_entered v); [done|]. apply Hd. by destruct Hs as (_ & <- & _).
Qed.

Definition elsewhere args : Prop := ∀ T out T', iptables ("-w" :: args) T = Some (out, T') → input T' = input T.

Definition spares {A} (p : M A) : Prop := ∀ v, ins p v (λ _ v', spared v v').

Lemma spares_command args : elsewhere args → spares (iptablesCommand args).
Proof.
  intros Ha v. apply jns_command; [intros ? ; apply spared_failed|intros ? ? ; apply spared_refl|].
  intros out T' E Hv. assert (spared v (with_tables v T')) as Hs by (split_and!; [by eapply Ha|done..]).
  split_and!; [by apply spared_onward|by intros Hf; apply (spared_gated v); [|apply Hv]|done].
Qed.

Lemma spares_ret {A} (a : A) : spares (mret a).
Proof. intros v. apply spared_refl. Qed.

Lemma spares_ask q : spares (ask q).
Proof. intros v a. apply spared_refl. Qed.

Lemma spares_seq {A B} (p : M A) (g : A → M B) : spares p → (∀ a, spares (g a)) → spares (p ≫= g).
Proof.
  intros Hp Hg v. apply inside_bind. eapply inside_mono; [|apply Hp]. intros a v1 H1.
  eapply inside_mono; [|apply Hg]. intros b v2 H2. exact (spared_trans _ _ _ H1 H2).
Qed.

Lemma spares_ebind {A B} (p : M (result A)) (g : A → M (result B)) : spares p → (∀ a, spares (g a)) → spares (ebind p g).
Proof. intros Hp Hg. apply spares_seq; [done|]. intros [a|e]; [apply Hg|apply spares_ret]. Qed.

Lemma spares_wrapping {A} format (p : M (result A)) : spares p → spares (wrapping format p).
Proof. intros Hp. apply spares_seq; [done|]. intros. apply spares_ret. Qed.

Lemma spares_ignoring {A} (p : M A) : spares p → spares (ignoring p).
Proof. intros Hp. apply spares_seq; [done|]. intros. apply spares_ret. Qed.

Lemma spares_on_error {A} c (p : M (result A)) : spares c → spares p → spares (on_error c p).
Proof.
  intros Hc Hp. apply spares_seq; [done|]. intros [a|e]; [apply spares_ret|].
  apply spares_seq; [done|]. intros. apply spares_ret.
Qed.

Lemma spares_for_all {A} (p : A → M unit) (xs : list A) : (∀ x, x ∈ xs → spares (p x)) → spares (for_all p xs).
Proof.
  induction xs as [|x xs IH]; intros Hp; [apply spares_ret|]. apply (spares_seq (p x)); [apply Hp; left|].
  intros _. apply IH. intros y Hy. apply Hp. by right.
Qed.

Lemma input_other t c l T : (t, c) ≠ ("filter", "INPUT") → input (<[(t, c) := l]> T) = input T.
Proof. intros Hne. by apply lookup_insert_ne. Qed.

#[local] Ltac command E :=
  repeat match type of E with
  | (?o ≫= _) = _ => let x := fresh "x" in let Hx := fresh "Hx" in destruct o as [x|] eqn:Hx; [cbn [mbind option_bind] in E|done]
  | (if decide ?P then _ else _) = _ => destruct (decide P); [|done]
  end; injection E as <- <-.

Lemma elsewhere_append t c args : (t, c) ≠ ("filter", "INPUT") → elsewhere ("-t" :: t :: "-A" :: c :: args).
Proof. intros Hu T out T'. rewrite iptables_append. intros E. command E. by apply input_other. Qed.

Lemma elsewhere_insert t c args : (t, c) ≠ ("filter", "INPUT") → elsewhere ("-t" :: t :: "-I" :: c :: "1" :: args).
Proof. intros Hu T out T'. rewrite iptables_insert. intros E. command E. by apply input_other. Qed.

Lemma elsewhere_delete t c args : (t, c) ≠ ("filter", "INPUT") → elsewhere ("-t" :: t :: "-D" :: c :: args).
Proof. intros Hu T out T'. rewrite iptables_delete. intros E. command E. by apply input_other. Qed.

Lemma elsewhere_check t c args : elsewhere ("-t" :: t :: "-C" :: c :: args).
Proof. intros T out T'. rewrite iptables_check. intros E. by command E. Qed.

Lemma elsewhere_list t c : elsewhere ["-t"; t; "-S"; c].
Proof. intros T out T'. rewrite iptables_list. intros E. by command E. Qed.

Lemma elsewhere_new t c : (t, c) ≠ ("filter", "INPUT") → elsewhere ["-t"; t; "-N"; c].
Proof. intros Hu T out T'. rewrite iptables_new. destruct (T !! (t, c)); [done|]. intros [= <- <-]. by apply input_other. Qed.

Lemma elsewhere_filter c args : c ∈ ["-N"; "-I"] → elsewhere ("-t" :: "filter" :: c :: args) → elsewhere (c :: args).
Proof. intros Hc Ha T out T'. rewrite iptables_table by done. apply Ha. Qed.

(** Each line that is deleted is a rule of the chain that was listed. *)
Definition lists (c x : string) (lines : list string) : Prop :=
  ∀ s, s ∈ lines → ruleComment s = x → ∃ shown, Words.Fields s = "-A" :: c :: shown.

Lemma jns_list t c x v Q :
  Words.plain c = true → c ≠ "--comment" → x ≠ "" → (∀ e, Q (Err e) (failed v)) → (∀ e, Q (Err e) v) →
  (∀ out, lists c x (Str.split newline out) → Q (Ok out) v) → ins (iptablesCommand ["-t"; t; "-S"; c]) v Q.
Proof.
  intros Hc Hn Hx Hf He Hs. apply jns_command; [done|auto|].
  intros out T'. rewrite iptables_list. intros E. command E. intros Hv. assert (with_tables v (tables v) = v) as -> by by destruct v.
  split_and!; [apply onward_refl|done|]. apply Hs.
  change (lists c x (Str.split newline (listing (chain_line t c :: (line c <$> x0))))). rewrite split_listing.
  - intros s Hs0 Ex. rewrite elem_of_app, elem_of_cons, list_elem_of_fmap, list_elem_of_singleton in Hs0.
    destruct Hs0 as [[->|(r & -> & _)]| ->]; [rewrite ruleComment_chain in Ex by done; congruence|by apply line_chain|by destruct Hx].
  - constructor; [by apply chain_line_one|]. apply Forall_fmap, Forall_forall. intros r _. by apply line_one.
Qed.

Lemma lists_cons c x s lines : lists c x (s :: lines) → lists c x lines.
Proof. intros Hl s' Hs'. apply Hl. by right. Qed.

Lemma spares_deleteLines t c x lines errs :
  (t, c) ≠ ("filter", "INPUT") → Words.plain c = true → lists c x lines → spares (deleteLines t x lines errs).
Proof.
  intros Hu Hc. revert errs. induction lines as [|s lines IH]; intros errs Hl; [apply spares_ret|].
  assert (∀ errs, spares (deleteLines t x lines errs)) as Hrest by (intros; by eapply IH, lists_cons).
  destruct (decide (ruleComment s = x)) as [Hs|Hs]; [|by rewrite deleteLines_skip].
  destruct (Hl s ltac:(left) Hs) as [shown E]. rewrite (deleteLines_delete t x s lines errs c shown) by done.
  apply (spares_seq (wrapping _ _)); [|done]. by apply spares_wrapping, spares_command, elsewhere_delete.
Qed.

Lemma spares_deleteRules t c x : (t, c) ≠ ("filter", "INPUT") → Words.plain c = true → c ≠ "--comment" → x ≠ "" →
  spares (deleteRulesWithComment t c x).
Proof.
  intros Hu Hc Hn Hx v. apply inside_ebind, inside_wrapping, (jns_list t c x); [done..|intros; apply spared_failed|intros; apply spared_refl|].
  intros out Hl. by apply (spares_deleteLines t c).
Qed.

#[local] Ltac spare :=
  repeat lazymatch goal with
  | |- spares (mret _) => apply spares_ret
  | |- spares (ask _) => apply spares_ask
  | |- spares (ignoring _) => apply spares_ignoring
  | |- spares (wrapping _ _) => apply spares_wrapping
  | |- spares (on_error _ _) => apply spares_on_error
  | |- spares (ebind _ _) => apply spares_ebind; [|intros ?]
  | |- spares (_ ≫= _) => apply spares_seq; [|intros ?]
  | |- spares (match ?x with _ => _ end) => destruct x
  end.

Lemma spares_ruleExists t c rule : spares (ruleExists t c rule).
Proof. unfold ruleExists. spare. apply spares_command, elsewhere_check. Qed.

Lemma spares_anyMissing t c rules : spares (anyMissing t c rules).
Proof. induction rules as [|rule rules IH]; [apply spares_ret|]. cbn [anyMissing]. spare; [apply spares_ruleExists|exact IH]. Qed.

Lemma spares_appendRule t c rule : (t, c) ≠ ("filter", "INPUT") → spares (appendRule t c rule).
Proof. intros Hu. unfold appendRule. spare. by apply spares_command, elsewhere_append. Qed.

Lemma spares_appendRules t c rules : (t, c) ≠ ("filter", "INPUT") → spares (appendRules t c rules).
Proof. intros Hu. induction rules as [|rule rules IH]; [apply spares_ret|]. cbn [appendRules]. spare; [by apply spares_appendRule|exact IH]. Qed.

Lemma spares_ensureRule t c x a : (t, c) ≠ ("filter", "INPUT") → Words.plain c = true → c ≠ "--comment" → x ≠ "" →
  spares (ensureRule t c x a).
Proof. intros Hu Hc Hn Hx. unfold ensureRule. spare; [apply spares_ruleExists|by apply spares_deleteRules|by apply spares_appendRule]. Qed.

Lemma spares_deleteAll pairs errs :
  Forall (λ '(c, x), c ≠ "INPUT" ∧ Words.plain c = true ∧ c ≠ "--comment" ∧ x ≠ "") pairs → spares (deleteAll pairs errs).
Proof.
  intros Hp. revert errs. induction Hp as [|[c x] pairs (Hi & Hc & Hn & Hx) _ IH]; intros errs; [apply spares_ret|].
  apply (spares_seq (deleteRulesWithComment _ _ _)); [|intros; apply IH]. apply spares_deleteRules; congruence.
Qed.

Lemma spares_insertJumps jumps : Forall (λ j, parent j ≠ "INPUT") jumps → spares (insertJumps jumps).
Proof.
  induction 1 as [|j jumps Hj _ IH]; [apply spares_ret|]. cbn [insertJumps]. spare; [|exact IH].
  apply spares_command, elsewhere_filter; [set_solver|]. apply elsewhere_insert. congruence.
Qed.

Lemma spares_ensureJumps : spares (ensureJumps "FORWARD").
Proof.
  unfold ensureJumps. apply spares_seq; [apply spares_anyMissing|]. intros []; cbn [negb]; [|apply spares_ret].
  apply spares_seq; [apply spares_for_all|intros _; apply spares_insertJumps].
  - intros j Hj. apply spares_ignoring, spares_deleteRules; [done|by vm_compute|done|]. revert j Hj. apply Forall_forall. by repeat constructor.
  - by repeat constructor.
Qed.

Lemma spares_uplink : spares (uplink UplinkInterface).
Proof. unfold uplink. spare. Qed.

#[local] Ltac spare_rules :=
  spare; repeat first [ apply spares_ensureRule | apply spares_deleteRules | apply spares_deleteAll; repeat constructor ]; (done || by vm_compute).

Lemma spares_ensureForwardRules b link : spares (ensureForwardRules b link).
Proof. unfold ensureForwardRules. spare_rules. Qed.

Lemma spares_ensureIsolationRules b internal : spares (ensureIsolationRules b internal).
Proof. unfold ensureIsolationRules. spare_rules. Qed.

Lemma spares_removeForwardRules b : spares (removeForwardRules b).
Proof. unfold removeForwardRules. spare_rules. Qed.

Lemma spares_removeIsolationRules b : spares (removeIsolationRules b).
Proof. unfold removeIsolationRules. spare_rules. Qed.

Lemma spares_removeInputRules b : spares (removeInputRules b).
Proof. unfold removeInputRules. spare_rules. Qed.

Lemma spares_ensureInputRules b gw internal : spares (ensureInputRules ListenerPort b gw internal).
Proof.
  unfold ensureInputRules. apply spares_ebind; [destruct (ListenerPort =? 0)%Z; spare_rules|]. intros _.
  apply spares_seq; [apply spares_ruleExists|]. intros hasStale.
  apply spares_seq; [destruct hasStale; [apply spares_ret|apply spares_anyMissing]|]. intros missing.
  destruct missing; cbn [negb]; [|apply spares_ret]. apply spares_seq; [apply spares_ignoring, spares_removeInputRules|].
  intros _. by apply spares_appendRules.
Qed.

Lemma spares_ensureDNATChain : spares ensureDNATChain.
Proof.
  unfold ensureDNATChain. apply spares_seq; [by apply spares_ignoring, spares_command, elsewhere_new|]. intros _.
  generalize dnatJumps. intros jumps. induction jumps as [|[[from x] match_] jumps IH]; [apply spares_ret|].
  apply (spares_seq (ruleExists _ _ _)); [apply spares_ruleExists|]. intros found. apply spares_ebind; [|done].
  destruct found; [apply spares_ret|]. apply spares_ebind; [by apply spares_wrapping, spares_command, elsewhere_insert|intros; apply spares_ret].
Qed.

Lemma spares_unpublishPorts id : spares (unpublishPorts id).
Proof.
  apply spares_for_all. intros [t c] Hin.
  assert ((t, c) ≠ ("filter", "INPUT") ∧ Words.plain c = true ∧ c ≠ "--comment") as (Hu & Hc & Hn).
  { rewrite !elem_of_cons, elem_of_nil in Hin. destruct Hin as [[= -> ->]|[[= -> ->]|[]]]; (split_and!; [done|by vm_compute|done]). }
  apply (spares_seq (chainExists _ _)); [unfold chainExists; spare; apply spares_command, elsewhere_list|].
  intros []; cbn [negb]; [|apply spares_ret]. by apply spares_ignoring, spares_deleteRules.
Qed.

Lemma spares_publish bridge id ip ports : spares (publish bridge id ip ports).
Proof.
  induction ports as [|p ports IH]; [apply spares_ret|]. cbn [publish]. spare; [apply spares_unpublishPorts|by apply spares_appendRule..|exact IH].
Qed.

Lemma spares_checkHostPortsFree ports : spares (checkHostPortsFree ports).
Proof. induction ports as [|p ports IH]; [apply spares_ret|]. cbn [checkHostPortsFree]. apply spares_ebind; [unfold checkHostPortFree; spare|done]. Qed.

(** *** The jump *)

(** What is known while the jump is not there. *)
Definition unmet v v' : Prop := (failures v' = 0 → absent v') ∧ doors v' = doors v ∧ failures v ≤ failures v'.

Lemma unmet_trans v1 v2 v3 : unmet v1 v2 → unmet v2 v3 → unmet v1 v3.
Proof. intros (_ & ? & ?) (? & ? & ?). split_and!; [done|congruence|lia]. Qed.

Lemma unmet_onward v v' : (failures v = 0 → absent v) → unmet v v' → onward v v'.
Proof. intros Ha (_ & _ & Hle) Hf. split; [lia|]. intros He. exfalso. eapply absent_not_entered, He. apply Ha. lia. Qed.

Lemma absent_doors v : gated v → absent v → doors v = ∅.
Proof. intros Hg Ha. destruct (decide (doors v = ∅)) as [|Hne]; [done|]. exfalso. by eapply absent_not_entered, doors_entered. Qed.

Lemma jns_deleteLine shown v :
  (failures v = 0 → absent v) → ins (iptablesCommand ("-t" :: "filter" :: "-D" :: "INPUT" :: shown)) v (λ _ v', unmet v v').
Proof.
  intros Ha. apply jns_command; [intros ? ; split_and!; simpl; [done..|lia]|intros ? ? ; by split_and!|].
  intros out T'. rewrite iptables_delete. intros E Hv. command E.
  set (v' := with_tables v _). assert (failures v = 0 → absent v') as Ha'.
  { intros Hf r' l' Hr'. unfold v', input. simpl. rewrite lookup_insert_eq. intros [= <-] Hin%remove_first_elem. by apply (Ha Hf r' x). }
  split_and!; [|intros Hf; split; [by left; apply Ha'|]|by split_and!].
  - intros Hf. split; [done|]. intros He. exfalso. eapply (absent_not_entered v); [by apply Ha|done].
  - intros Hne. destruct Hne. by apply (absent_doors v); [apply Hv|apply Ha].
Qed.

Lemma jns_deleteLines x lines errs v :
  (failures v = 0 → absent v) → lists "INPUT" x lines → ins (deleteLines "filter" x lines errs) v (λ _ v', unmet v v').
Proof.
  revert v errs. induction lines as [|s lines IH]; intros v errs Ha Hl; [by split_and!|].
  pose proof (lists_cons _ _ _ _ Hl) as Hl'.
  destruct (decide (ruleComment s = x)) as [Hs|Hs]; [|by rewrite deleteLines_skip; [apply IH|]].
  destruct (Hl s ltac:(left) Hs) as [shown E]. rewrite (deleteLines_delete "filter" x s lines errs "INPUT" shown) by done.
  apply (inside_bind _ _ _ (wrapping _ _)), inside_wrapping. eapply inside_mono; [|by apply jns_deleteLine].
  intros res v1 H1. eapply inside_mono; [|apply IH; [apply H1|done]]. intros ? v2 H2. exact (unmet_trans _ _ _ H1 H2).
Qed.

(** Whether it is there can be told, unless the command cannot be run. *)
Lemma jns_missing v :
  ins (anyMissing "filter" "INPUT" [jumpRule inputJump]) v (λ missing v', tables v' = tables v ∧ doors v' = doors v ∧ failures v ≤ failures v' ∧
    if missing then failures v' = 0 → absent v' else failures v' = 0 → entered v').
Proof.
  unfold anyMissing. apply inside_bind, inside_bind, jns_command; simpl.
  - intros e. split_and!; [done..|lia|done].
  - intros e. rewrite iptables_check. intros E. split_and!; [done..|]. intros _ r l Hr Hl Hin. unfold input in Hl. rewrite Hl in E.
    cbn [mbind option_bind] in E. rewrite Hr in E. cbn [mbind option_bind] in E. by rewrite decide_True in E.
  - intros out T'. rewrite iptables_check. intros E Hv. command E.
    assert (with_tables v (tables v) = v) as -> by by destruct v. split_and!; [apply onward_refl|done|done..|].
    intros Hf. destruct (absent_or_first v (Hv Hf)) as [Ha|He]; [|done]. exfalso. by eapply (Ha x0 x).
Qed.

Lemma jns_insert v :
  (failures v = 0 → absent v) →
  ins (iptablesCommand (["-I"; "INPUT"; "1"] ++ jumpRule inputJump)) v (λ res v', onward v v' ∧ (is_ok res = true → failures v' = 0 → entered v')).
Proof.
  intros Ha. apply jns_command.
  - intros e. split; [by intros ?|done].
  - intros e _. split; [apply onward_refl|done].
  - intros out T'. cbn [app]. rewrite iptables_table by set_solver. rewrite iptables_insert. intros E Hv. command E.
    set (v' := with_tables v _). assert (entered v') as He.
    { exists x0, x. split; [done|]. unfold v', input. simpl. apply lookup_insert_eq. }
    split_and!; [|intros Hf; split; auto|by split|done]; by intros ?.
Qed.

Lemma jns_ensureJumps v :
  ins (ensureJumps "INPUT") v (λ res v', onward v v' ∧ (res = Ok tt → failures v' = 0 → entered v')).
Proof.
  assert (filter (λ j, parent j = "INPUT") dicerJumps = [inputJump]) as E by (vm_compute; reflexivity).
  unfold ensureJumps. rewrite E. apply inside_bind. eapply inside_mono; [|apply jns_missing].
  intros missing v1 (Et & Ed & Hle & Hm). assert (spared v v1) as Hs by (split_and!; [by rewrite Et|done..]).
  destruct missing; cbn [negb]; [|split; [by apply spared_onward|auto]].
  apply inside_bind. cbn [for_all]. apply inside_bind, inside_bind.
  eapply (inside_mono _ _ _ _ _ _ (λ _ v2, unmet v1 v2)).
  - intros ? v2 H2. change (ins (insertJumps (reverse [inputJump])) v2 (λ res v', onward v v' ∧ (res = Ok tt → failures v' = 0 → entered v'))).
    change (reverse [inputJump]) with [inputJump]. cbn [insertJumps]. apply inside_ebind, inside_wrapping.
    eapply inside_mono; [|apply jns_insert, H2]. intros res v3 [Ho He].
    assert (onward v v3) as Hov.
    { eapply onward_trans; [by apply spared_onward|]. eapply onward_trans; [by apply (unmet_onward v1)|done]. }
    destruct res; (split; [done|]); [by auto|done].
  - unfold deleteRulesWithComment. apply inside_ebind, inside_wrapping, (jns_list "filter" "INPUT" (comment inputJump)); [done..| | |].
    + intros e. split_and!; simpl; [done..|lia].
    + intros e. by split_and!.
    + intros out Hl. by apply jns_deleteLines.
Qed.

Lemma jns_ensureDicerChains v :
  ins ensureDicerChains v (λ res v', onward v v' ∧ (res = Ok tt → failures v' = 0 → entered v')).
Proof.
  unfold ensureDicerChains. apply inside_bind. eapply inside_mono.
  2:{ apply spares_for_all. intros c Hc. apply spares_ignoring, spares_command, elsewhere_filter; [set_solver|]. apply elsewhere_new.
      intros [= ->]. revert Hc. unfold dicerChains. rewrite !elem_of_cons, elem_of_nil. naive_solver. }
  intros _ v1 H1%spared_onward. apply inside_bind. intros []; apply inside_ebind.
  - eapply inside_mono; [|apply spares_ensureJumps]. intros [[]|e] v2 H2%spared_onward.
    + eapply inside_mono; [|apply jns_ensureJumps]. intros res v3 [H3 He]. split; [|done]. eauto using onward_trans.
    + split; [by eapply onward_trans|done].
  - eapply inside_mono; [|apply jns_ensureJumps]. intros [[]|e] v2 [H2 He2]; [|split; [by eapply onward_trans|done]].
    eapply inside_mono; [|apply spares_ensureJumps]. intros res v3 H3. split; [eauto using onward_trans, spared_onward|].
    intros _ Hf. destruct (spared_onward _ _ H3 Hf) as [Hf2 He]. auto.
Qed.

(** *** The sections *)

Lemma jns_walls {A} f (k : unit → M A) v Q :
  ins (k tt) (with_walls v (f v)) Q → ins (modify (on_rules (λ v, with_walls v (f v))) ≫= k) v Q.
Proof.
  intros Hk. apply jns_modify; [by intros ?| |done]. intros Hg Hf. apply (spared_gated v); [by split_and!|by apply Hg].
Qed.

Lemma jns_setupIPTables b subnetCIDR internal v :
  ins (breach b ≫= λ _,
    data ←? wrapping "check ip forwarding: %w" (ask QForward);
    if negb (bool_decide (Str.trim_space data = "1")) then mret (Err ErrForwardingDisabled)
    else
      link ←? uplink UplinkInterface;
      wrapping "set up Dicer's chains: %w" ensureDicerChains ?;
      wrapping "set up NAT: %w" (ensureRule "nat" "POSTROUTING" (natComment b) (masqueradeRule subnetCIDR link)) ?;
      wrapping "set up forward rules: %w" (ensureForwardRules b link) ?;
      wrapping "set up isolation rules: %w" (ensureIsolationRules b internal) ?;
      modify (on_rules (λ v, with_walls v (<[b := internal]> (walls v)))) ≫= λ _,
      mret (Ok tt)) v (λ res v', onward v v' ∧ (res = Ok tt → failures v' = 0 → entered v')).
Proof.
  apply (jns_walls (λ v, delete b (walls v))). set (v0 := with_walls v _).
  assert (onward v v0) as H0 by by intros ?. clearbody v0.
  apply inside_ebind, inside_wrapping. intros [data|e]; [|done]. simpl.
  case_bool_decide; cbn [negb]; [|done].
  apply inside_ebind. eapply inside_mono; [|apply spares_uplink]. intros [link|e] v2 H2%spared_onward; [|split; [by eapply onward_trans|done]].
  apply inside_ebind, inside_wrapping. eapply inside_mono; [|apply jns_ensureDicerChains].
  intros [[]|e] v3 [H3 He]; cbn [wrap_err]; [|split; [eauto using onward_trans|done]]. specialize (He eq_refl).
  assert (onward v v3) as Ho by eauto using onward_trans.
  assert (spares (wrapping "set up NAT: %w" (ensureRule "nat" "POSTROUTING" (natComment b) (masqueradeRule subnetCIDR link)) ?;
      wrapping "set up forward rules: %w" (ensureForwardRules b link) ?;
      wrapping "set up isolation rules: %w" (ensureIsolationRules b internal) ?;
      modify (on_rules (λ v, with_walls v (<[b := internal]> (walls v)))) ≫= λ _,
      mret (Ok tt))) as Hsp.
  { apply spares_ebind; [by apply spares_wrapping, spares_ensureRule; [..|by vm_compute|done|done]|]. intros _.
    apply spares_ebind; [apply spares_wrapping, spares_ensureForwardRules|]. intros _.
    apply spares_ebind; [apply spares_wrapping, spares_ensureIsolationRules|]. intros _ v'.
    apply (jns_walls (λ v, <[b := internal]> (walls v))). by split_and!. }
  eapply inside_mono; [|apply Hsp]. intros res v4 H4%spared_onward. split; [by eapply onward_trans|].
  intros _ Hf. destruct (H4 Hf) as [Hf3 He4]. auto.
Qed.

Lemma jns_teardownIPTables b v :
  ins (breach b ≫= λ _,
    ignoring (deleteRulesWithComment "nat" "POSTROUTING" (natComment b)) ≫= λ _,
    ignoring (removeForwardRules b) ≫= λ _,
    ignoring (removeIsolationRules b)) v (λ _ v', onward v v').
Proof.
  apply (jns_walls (λ v, delete b (walls v))). set (v0 := with_walls v _). assert (onward v v0) as H0 by by intros ?. clearbody v0.
  eapply inside_mono; [|apply spares_seq; [|intros _; apply spares_seq; [|intros _]]].
  - intros ? v1 H1%spared_onward. by eapply onward_trans.
  - by apply spares_ignoring, spares_deleteRules; [..|by vm_compute|done|done].
  - apply spares_ignoring, spares_removeForwardRules.
  - apply spares_ignoring, spares_removeIsolationRules.
Qed.

Lemma jns_unbar {A} b (k : unit → M A) v Q :
  ins (k tt) (with_doors v (delete b (doors v))) Q → ins (unbar b ≫= k) v Q.
Proof.
  intros Hk. apply jns_modify; [by intros ?| |done]. intros Hg Hf. destruct (Hg Hf) as [Ha Hd]. split; [exact Ha|].
  simpl. intros Hne. apply Hd. intros E. rewrite E, delete_empty in Hne. done.
Qed.

(** Access is given once the jump is there. *)
Lemma jns_ensureGatewayAccess b gw internal v :
  (failures v = 0 → entered v) →
  ins (unbar b ≫= λ _,
    ensureInputRules ListenerPort b gw internal ?;
    modify (on_rules (λ v, with_doors v (<[b := mkDoor gw internal]> (doors v)))) ≫= λ _,
    mret (Ok tt)) v (λ _ v', onward v v').
Proof.
  intros He. apply jns_unbar. set (v0 := with_doors v _). assert (onward v v0) as H0 by by intros ?.
  assert (failures v0 = 0 → entered v0) as He0 by exact He. clearbody v0.
  apply inside_ebind. eapply inside_mono; [|apply spares_ensureInputRules]. intros [[]|e] v1 H1%spared_onward; [|by eapply onward_trans].
  apply jns_modify; [by intros ?| |].
  - intros Hg Hf. destruct (H1 Hf) as [Hf0 H01]. split; [right|intros _]; by apply H01, He0.
  - simpl. eapply onward_trans; [exact H0|]. eapply onward_trans; [exact H1|]. by intros ?.
Qed.

Lemma jns_removeGatewayAccess b v : ins (unbar b ≫= λ _, ignoring (removeInputRules b)) v (λ _ v', onward v v').
Proof.
  apply jns_unbar. eapply inside_mono; [|apply spares_ignoring, spares_removeInputRules].
  intros ? v1 H1%spared_onward. eapply onward_trans; [|exact H1]. by intros ?.
Qed.

Lemma spares_PublishPorts bridge id ip ports :
  spares (wrapping "set up %s chain: %w" ensureDNATChain ?;
          unpublishPorts id ≫= λ _, checkHostPortsFree ports ?; publish bridge id ip ports).
Proof.
  apply spares_ebind; [apply spares_wrapping, spares_ensureDNATChain|]. intros _.
  apply spares_seq; [apply spares_unpublishPorts|]. intros _.
  apply spares_ebind; [apply spares_checkHostPortsFree|]. intros _. apply spares_publish.
Qed.

End Locked.

(** ** Operations that interleave *)

(** The mutexes are never held together. *)
Definition level (l : lock) : nat := 1.

Abbreviation triple := (triple J JG JR level ∅).

(** What others leave so. *)
Definition lasting (P : Guarded → Prop) : Prop := ∀ v v', onward v v' → P v → P v'.

Lemma lasting_stable (P : Guarded → Prop) : lasting P → Stable JR ∅ (λ w, P (guarded w)).
Proof. intros HP w w' [_ Ho]. by apply HP. Qed.

Definition waiting v : Prop := failures v = 0 → entered v.

Lemma lasting_waiting : lasting waiting.
Proof. intros v v' Ho Hw Hf. destruct (Ho Hf) as [Hf0 He]. auto. Qed.

Lemma triple_rules {A} (p : M A) (P : Guarded → Prop) (Q : A → Guarded → Prop) :
  lasting P → (∀ a, lasting (Q a)) → (∀ v, P v → inside J JG guarded p {[rulesMu]} v Q) →
  triple (λ w, P (guarded w)) (with_lock rulesMu p) (λ a w, Q a (guarded w)).
Proof.
  intros HP HQ Hp w Hw w1 [_ Ho1] _. split; [split; [unfold level; lia|set_solver]|]. rewrite (right_id_L ∅ (∪)).
  apply (wp_bind J JG JR level p). apply (wp_intro J JG JR level p). intros w2 Hr2 _.
  eapply wp_mono; [|apply (inside_wp J JG JR level guarded rulesMu entrance_kept p {[rulesMu]} w2 Q); [set_solver|]].
  - intros a L' w3 _ [-> Ha] w4 [_ Ho4] _. split; [set_solver|]. intros w5 [_ Ho5] _. split; [set_solver|].
    eapply HQ; [exact Ho5|]. by eapply HQ.
  - destruct Hr2 as [Hk _]. apply Hp. rewrite Hk by set_solver. by eapply HP.
Qed.

(** Programs that start and end with no mutex, and keep what others would. *)
Abbreviation calm := (keeps (query:=query) (answer:=answer) J JG JR level
  (λ L P, L = ∅ ∧ ∀ w w', onward (guarded w) (guarded w') → P w → P w')).

Lemma calm_stays (L : gset lock) (P : World → Prop) :
  L = ∅ ∧ (∀ w w', onward (guarded w) (guarded w') → P w → P w') → Stable JR L P.
Proof. intros [-> HP] w w' [_ Ho]. by apply HP. Qed.

Lemma stays_rules {A} (p : M A) :
  (∀ v, inside J JG guarded p {[rulesMu]} v (λ _ v', onward v v')) → calm (with_lock rulesMu p).
Proof.
  intros Hp L P [-> HP] w Hw. eapply wp_mono; [|apply (triple_rules p (onward (guarded w)) (λ _, onward (guarded w)))].
  - intros a L' w' _ [-> Ho]. split; [done|]. by eapply HP.
  - intros v v' Ho Hv. by eapply onward_trans.
  - intros a v v' Ho Hv. by eapply onward_trans.
  - intros v Hv. eapply inside_mono; [|apply Hp]. intros a v' Ho. by eapply onward_trans.
  - apply onward_refl.
Qed.

Lemma stays_spares {A} (p : M A) : (∀ L, rulesMu ∈ L → spares L p) → calm (with_lock rulesMu p).
Proof.
  intros Hp. apply stays_rules. intros v. eapply inside_mono; [|apply Hp; set_solver]. intros a v'. apply spared_onward.
Qed.

Lemma stays_networks {A} (f : World → A * World) : (∀ w, guarded (f w).2 = guarded w) → calm (with_lock mu (atomically f)).
Proof.
  intros Hf L P [-> HP] w Hw w1 [_ Ho1] _. split; [split; [unfold level; lia|set_solver]|].
  intros w2 [_ Ho2] Hi. split_and!; [by left|unfold J; by rewrite Hf|]. intros w3 [_ Ho3] _. split; [set_solver|].
  intros w4 [_ Ho4] _. split; [set_solver|]. rewrite Hf in Ho3. eauto 10 using onward_trans.
Qed.

Lemma stays_done {A} (a : A) : calm (mret a).
Proof. apply keeps_ret, calm_stays. Qed.

Lemma stays_ask q : calm (ask q).
Proof. apply keeps_ask; [apply _|apply calm_stays]. Qed.

Lemma stays_seq {A B} (p : M A) (g : A → M B) : calm p → (∀ a, calm (g a)) → calm (p ≫= g).
Proof. apply keeps_bind, _. Qed.

Lemma stays_ebind {A B} (p : M (result A)) (g : A → M (result B)) : calm p → (∀ a, calm (g a)) → calm (ebind p g).
Proof. apply keeps_ebind; [apply _|apply calm_stays]. Qed.

Lemma stays_wrapping {A} format (p : M (result A)) : calm p → calm (wrapping format p).
Proof. apply keeps_wrapping; [apply _|apply calm_stays]. Qed.

Lemma stays_ignoring {A} (p : M A) : calm p → calm (ignoring p).
Proof. apply keeps_ignoring; [apply _|apply calm_stays]. Qed.

#[local] Ltac stay :=
  repeat lazymatch goal with
  | |- calm (mret _) => apply stays_done
  | |- calm (ask _) => apply stays_ask
  | |- calm (ignoring _) => apply stays_ignoring
  | |- calm (wrapping _ _) => apply stays_wrapping
  | |- calm (ebind _ _) => apply stays_ebind; [|intros ?]
  | |- calm (_ ≫= _) => apply stays_seq; [|intros ?]
  | |- calm (match ?x with _ => _ end) => destruct x
  end.

Lemma stays_ensureBridge : calm ensureBridge.
Proof. unfold ensureBridge, netlink. stay. Qed.

Lemma stays_bind_zone : calm bind.
Proof. unfold bind, getZones, getZoneOfInterface, changeZone. stay. Qed.

(** Once the chains are set up, the jump is there. *)
Lemma wp_setupIPTables b subnetCIDR internal w :
  wp J JG JR level (setupIPTables UplinkInterface b subnetCIDR internal) ∅ w
    (λ res L w', L = ∅ ∧ onward (guarded w) (guarded w') ∧ (res = Ok tt → waiting (guarded w'))).
Proof.
  eapply wp_mono; [|apply (triple_rules _ (onward (guarded w)) (λ res v', onward (guarded w) v' ∧ (res = Ok tt → waiting v')))].
  - auto.
  - intros v v' Ho Hv. by eapply onward_trans.
  - intros res v v' Ho [Hv Hr]. split; [by eapply onward_trans|]. intros E. by eapply lasting_waiting, Hr.
  - intros v Hv. eapply inside_mono; [|apply jns_setupIPTables; set_solver]. intros res v' [Ho He].
    split; [by eapply onward_trans|exact He].
  - apply onward_refl.
Qed.

Section Lasting.

Context (P : World → Prop) (HP : ∀ w w', onward (guarded w) (guarded w') → P w → P w').

(** What is kept by a program that stays. *)
Lemma stays_triple {A} (p : M A) : calm p → triple P p (λ _, P).
Proof. intros Hp. by apply Hp. Qed.

Lemma triple_ensureGatewayAccess nw : triple (λ w, P w ∧ waiting (guarded w)) (ensureGatewayAccess ListenerPort bus nw) (λ _, P).
Proof.
  eapply (triple_bind J JG JR level _ _ (wrapping _ _) _ (λ _, P)).
  - eapply (triple_bind J JG JR level _ _ (with_lock rulesMu _) _ (λ _, P)); [|intros res; apply stays_triple, stays_done].
    intros w [Hw Hwait]. eapply wp_mono; [|apply (triple_rules _ (λ v, onward (guarded w) v ∧ waiting v) (λ _, onward (guarded w)))].
    + intros res L' w1 _ [-> H1]. split; [done|]. by eapply HP.
    + intros v v' Ho [Hv Hv']. split; [by eapply onward_trans|by eapply lasting_waiting].
    + intros res v v' Ho Hv. by eapply onward_trans.
    + intros v [Hv He]. eapply inside_mono; [|apply jns_ensureGatewayAccess; [set_solver|exact He]]. intros ? v' Ho. by eapply onward_trans.
    + by split; [apply onward_refl|].
  - intros res. apply stays_triple. destruct res, bus; simpl; try apply stays_done. apply (stays_seq bind); [apply stays_bind_zone|].
    intros; apply stays_done.
Qed.

Lemma triple_setupIPTables b subnetCIDR internal :
  triple P (setupIPTables UplinkInterface b subnetCIDR internal) (λ res w, P w ∧ (res = Ok tt → waiting (guarded w))).
Proof.
  intros w Hw. eapply wp_mono; [|apply wp_setupIPTables]. intros res L' w' _ (-> & Ho & He). split_and!; [done|by eapply HP|done].
Qed.

End Lasting.

Lemma stays_SetupBridge nw : calm (SetupBridge UplinkInterface ListenerPort bus nw).
Proof.
  unfold SetupBridge. apply stays_ebind; [apply stays_done|]. intros _. apply stays_ebind; [apply stays_ensureBridge|]. intros _.
  apply stays_seq; [by apply stays_networks|]. intros _ L P [-> HP].
  assert (∀ w w', onward (guarded w) (guarded w') → P w ∧ waiting (guarded w) → P w' ∧ waiting (guarded w')) as HP2.
  { intros w w' Ho [Hp Hw]. split; [by eapply HP|by eapply lasting_waiting]. }
  eapply (triple_bind J JG JR level _ _ (wrapping _ _) _ (λ res w, P w ∧ (res = Ok tt → waiting (guarded w)))).
  - eapply (triple_bind J JG JR level _ _ (setupIPTables _ _ _ _) _ (λ res w, P w ∧ (res = Ok tt → waiting (guarded w)))).
    + by apply triple_setupIPTables.
    + intros res. apply triple_ret.
      * intros w w' [_ Ho] [Hp Hr]. split; [by eapply HP|]. intros E. by eapply lasting_waiting, Hr.
      * intros w _ [Hp Hr]. split; [done|]. intros E. apply Hr. by destruct res as [[]|].
  - intros [[]|e].
    + eapply triple_pre; [|eapply (triple_bind J JG JR level _ _ (ensureGatewayAccess _ _ _) _ (λ _, P));
        [by apply triple_ensureGatewayAccess|intros res; by apply stays_triple; [|apply stays_done]]].
      intros w [Hp Hr]. auto.
    + eapply triple_pre; [|by apply stays_triple; [|apply stays_done]]. by intros w [Hp _].
Qed.

Lemma stays_TeardownBridge nw : calm (TeardownBridge bus nw).
Proof.
  unfold TeardownBridge. apply stays_seq; [by apply stays_networks|]. intros _. apply stays_seq.
  { apply stays_seq; [|intros _; apply stays_rules; intros v; apply jns_removeGatewayAccess; set_solver].
    unfold unbind, getZoneOfInterface, changeZone. stay. }
  intros _. apply stays_seq; [unfold deleteBridge, netlink; stay|]. intros _.
  apply stays_rules. intros v. apply jns_teardownIPTables. set_solver.
Qed.

Lemma stays_PublishPorts nw allocation ports : calm (PublishPorts nw allocation ports).
Proof. apply stays_spares. intros L HL. by apply spares_PublishPorts. Qed.

Lemma stays_UnpublishPorts id : calm (UnpublishPorts id).
Proof. apply stays_spares. intros L HL. by apply spares_unpublishPorts. Qed.

Lemma stays_reloaded : calm (reloaded UplinkInterface ListenerPort bus).
Proof.
  apply stays_seq; [by apply stays_networks|]. intros all. apply keeps_for_all; [apply _|apply calm_stays|].
  intros nw. apply stays_ignoring, stays_SetupBridge.
Qed.

(** ** Packets *)

(** The jump takes every packet. *)
Lemma reads_jump r : parse (jumpRule inputJump) = Some r → (∀ p, matches r p = true) ∧ target r = chainDicerInput.
Proof.
  intros Hr. split; [intros p; by apply (matches_means _ _ _ _ Hr)|].
  apply (target_named ["-m"; "comment"; "--comment"; "dicer-jump-input"] chainDicerInput []); [exact Hr|set_solver].
Qed.

(** What becomes of a packet for the host is what [DICER-INPUT] decides, and
    what the host's own rules do if it decides nothing. *)
Definition received T (p : Packet) (d : Verdict) : Prop :=
  match d with
  | Return => ∃ r l, input T = Some (r :: l) ∧ target r = chainDicerInput ∧ ∀ d', fate T p l d' → meets T "INPUT" p d'
  | _ => meets T "INPUT" p d
  end.

Lemma entered_received v p d : entered v → meets (tables v) chainDicerInput p d → received (tables v) p d.
Proof.
  intros (r & l & Hr & Hl) (l' & Hl' & Hf). destruct (reads_jump r Hr) as [Hm Ht].
  assert (target r ∉ builtin_targets) as Hn by (rewrite Ht; unfold builtin_targets; set_solver).
  rewrite <-Ht in Hl'. destruct d; simpl.
  - exists (r :: l). split; [exact Hl|]. by eapply fate_jump.
  - exists (r :: l). split; [exact Hl|]. by eapply fate_jump.
  - exists r, l. split_and!; [done..|]. intros d' Hd. exists (r :: l). split; [exact Hl|]. by eapply fate_back.
Qed.

End Entrance.
End Entrance.
