(* ===== verification/Isolation.v ===== *)
(** * Guests are kept apart

    What [Firewall]'s operations keep however they interleave, whichever of
    their commands fail, and whenever the daemon dies: packets of guests to
    other networks are dropped, and what they may reach on the host is what
    their network says. *)

From S2P Require Import Prelude Errdefs Naming Addr Network Conc Firewall Chains Entrance.

Module Isolation.
Import Firewall Chains.
Open Scope prog_scope.

Section Isolation.

Context `{IPTables} (UplinkInterface : string) (ListenerPort : Z) (bus : bool).

Abbreviation Tables := (gmap (string * string) (list Rule)).
Abbreviation M := (prog (S:=World) (answer:=answer) (lock:=lock)).
Abbreviation inputRules := (inputRules ListenerPort).
Abbreviation I := (Chains.I ListenerPort).

(** *** Operations that interleave *)

(** The mutexes are never held together. *)
Definition level (l : lock) : nat := 1.

(** Programs that start and end with no mutex, and keep the invariant. *)
Abbreviation calm := (keeps (query:=query) (answer:=answer) I G R level (λ L P, L = ∅ ∧ ∀ w, P w)).

Lemma calm_stable (L : gset lock) (P : World → Prop) : L = ∅ ∧ (∀ w, P w) → Stable R L P.
Proof. intros [_ HP] w w' _ _. apply HP. Qed.

Lemma calm_wp {A} (p : M A) : (∀ w, wp I G R level p ∅ w (λ _ L' _, L' = ∅)) → calm p.
Proof.
  intros Hp L P [-> HP] w _. eapply wp_mono; [|apply Hp]. intros a L' w' _ ->. auto.
Qed.

(** A section of its own. *)
Lemma wp_section {A} (m : lock) (p : M A) (Q : A → Prop) (w : World) :
  (∀ w, wp I G R level p {[m]} w (λ a L' _, L' = {[m]} ∧ Q a)) → wp I G R level (with_lock m p) ∅ w (λ a L' _, L' = ∅ ∧ Q a).
Proof.
  intros Hp w1 _ _. split; [split; [unfold level; lia|set_solver]|]. rewrite (right_id_L ∅ (∪)).
  apply (wp_bind I G R level p). eapply wp_mono; [|apply Hp]. intros a L' w2 _ [-> HQ] w3 _ _. split; [set_solver|].
  intros w4 _ _. split; [set_solver|done].
Qed.

Lemma calm_rules {A} (p : M A) :
  (∀ v, ∃ Q, inside I G guarded p {[rulesMu]} v Q) → calm (with_lock rulesMu p).
Proof.
  intros Hp. apply calm_wp. intros w. eapply wp_mono; [|apply (wp_section rulesMu p (λ _, True))]; [by intros a L' w' _ [-> _]|].
  intros w'. destruct (Hp (guarded w')) as [Q HQ].
  eapply wp_mono; [|apply (inside_wp I G R level guarded rulesMu guarded_kept p {[rulesMu]} w' Q ltac:(set_solver) HQ)].
  by intros a L' w2 _ [-> _].
Qed.

(** The networks that are remembered. *)
Lemma calm_networks f :
  (∀ m, map_Forall (λ _, fit) m → map_Forall (λ _, fit) (f m)) →
  calm (with_lock mu (modify (λ w, mkWorld (guarded w) (f (networks w))))).
Proof.
  intros Hf. apply calm_wp. intros w. eapply wp_mono; [|apply (wp_section mu _ (λ _, True))]; [by intros a L' w' _ [-> _]|].
  intros w1 w2 _ [Hi Hn]. split_and!; [by left|by split; [|apply Hf]|]. by intros w3 _ _.
Qed.

Lemma calm_ret {A} (a : A) : calm (mret a).
Proof. apply keeps_ret, calm_stable. Qed.

Lemma calm_ask q : calm (ask q).
Proof. apply keeps_ask; [apply _|apply calm_stable]. Qed.

Lemma calm_bind {A B} (p : M A) (g : A → M B) : calm p → (∀ a, calm (g a)) → calm (p ≫= g).
Proof. apply keeps_bind, _. Qed.

Lemma calm_ebind {A B} (p : M (result A)) (g : A → M (result B)) : calm p → (∀ a, calm (g a)) → calm (ebind p g).
Proof. apply keeps_ebind; [apply _|apply calm_stable]. Qed.

Lemma calm_wrapping {A} format (p : M (result A)) : calm p → calm (wrapping format p).
Proof. apply keeps_wrapping; [apply _|apply calm_stable]. Qed.

Lemma calm_ignoring {A} (p : M A) : calm p → calm (ignoring p).
Proof. apply keeps_ignoring; [apply _|apply calm_stable]. Qed.

#[local] Ltac calm :=
  repeat first
  [ apply calm_ret | apply calm_ask | apply calm_ignoring | apply calm_wrapping
  | apply calm_ebind; [|intros ?] | apply calm_bind; [|intros ?]
  | match goal with |- calm (match ?x with _ => _ end) => destruct x end ].

Lemma calm_ensureBridge : calm ensureBridge.
Proof. unfold ensureBridge, netlink. calm. Qed.

Lemma calm_bind_zone : calm bind.
Proof. unfold bind, getZones, getZoneOfInterface, changeZone. calm. Qed.

Lemma calm_SetupBridge nw : fit nw → calm (SetupBridge UplinkInterface ListenerPort bus nw).
Proof.
  intros [Hb Hgw]. unfold SetupBridge. apply calm_ebind; [apply calm_ret|]. intros _.
  apply calm_ebind; [apply calm_ensureBridge|]. intros _.
  apply calm_bind; [apply (calm_networks (λ m, <[Network.Bridge nw := nw]> m)); intros m Hm; by apply map_Forall_insert_2|]. intros _.
  apply calm_ebind; [apply calm_wrapping, calm_rules; intros v; eexists; apply ins_setupIPTables; [set_solver|done]|]. intros _.
  apply calm_wrapping, calm_ebind; [apply calm_wrapping, calm_rules; intros v; eexists; apply ins_ensureGatewayAccess; [set_solver|done..]|].
  intros _. destruct bus; cbn [negb]; [|apply calm_ret]. apply calm_bind; [apply calm_bind_zone|]. intros; apply calm_ret.
Qed.

Lemma calm_TeardownBridge nw : fit nw → calm (TeardownBridge bus nw).
Proof.
  intros [Hb Hgw]. unfold TeardownBridge.
  apply calm_bind; [apply (calm_networks (λ m, delete (Network.Bridge nw) m)); intros m Hm; by apply map_Forall_delete|]. intros _.
  apply calm_bind.
  { apply calm_bind; [|intros _; apply calm_rules; intros v; eexists; apply ins_removeGatewayAccess; set_solver].
    unfold unbind, getZoneOfInterface, changeZone. destruct bus; calm. }
  intros _. apply calm_bind; [unfold deleteBridge, netlink; calm|]. intros _.
  apply calm_rules. intros v. eexists. apply ins_teardownIPTables; [set_solver|done].
Qed.

Lemma calm_PublishPorts nw allocation ports : calm (PublishPorts nw allocation ports).
Proof. apply calm_rules. intros v. eexists. apply aloof_true, aloof_PublishPorts. set_solver. Qed.

Lemma calm_UnpublishPorts id : calm (UnpublishPorts id).
Proof. apply calm_rules. intros v. eexists. apply aloof_true, aloof_unpublishPorts. set_solver. Qed.

(** The networks that are set up again are those that were. *)
Lemma wp_reloaded w : wp I G R level (reloaded UplinkInterface ListenerPort bus) ∅ w (λ _ L' _, L' = ∅).
Proof.
  apply (wp_bind I G R level (with_lock mu _)). eapply wp_mono.
  2:{ apply (wp_section mu _ (Forall fit)). intros w1 w2 _ [Hi Hn]. split_and!; [by left|done|]. intros w3 _ _. split; [done|].
      simpl. apply Forall_forall. intros nw (kv & -> & Hkv)%list_elem_of_fmap. destruct kv as [k nw]. apply elem_of_map_to_list in Hkv.
      exact (Hn k nw Hkv). }
  intros all L' w' _ [-> Hall].
  assert (calm (for_all (λ nw, ignoring (SetupBridge UplinkInterface ListenerPort bus nw)) all)) as Hc.
  { induction Hall as [|nw all Hnw _ IH]; [apply calm_ret|]. apply calm_bind; [by apply calm_ignoring, calm_SetupBridge|done]. }
  eapply wp_mono; [|by apply (Hc ∅ (λ _, True))]. by intros a L' w2 _ [-> _].
Qed.

(** ** Every interleaving *)

(** What may be started: setting networks' bridges up and tearing them down,
    publishing the ports of instances, and setting everything up again. *)
Inductive admissible : World → M unit → gset lock → Prop :=
  | may_setup w nw : fit nw → admissible w (ignoring (SetupBridge UplinkInterface ListenerPort bus nw)) ∅
  | may_teardown w nw : fit nw → admissible w (TeardownBridge bus nw) ∅
  | may_publish w nw allocation ports : admissible w (ignoring (PublishPorts nw allocation ports)) ∅
  | may_unpublish w id : admissible w (UnpublishPorts id) ∅
  | may_reload w : admissible w (reloaded UplinkInterface ListenerPort bus) ∅.

Definition crash (w w' : World) : Prop := w' = died w.

Lemma started_wp w p (L : gset lock) : I w → admissible w p L → wp I G R level p L w (λ _ L' _, finished_well level L').
Proof.
  intros _ Ha. assert (∀ p : M unit, calm p → wp I G R level p ∅ w (λ _ L' _, finished_well level L')) as Hcalm.
  { intros q Hq. eapply wp_mono; [|by apply (Hq ∅ (λ _, True))]. intros a L' w' _ [-> _] l. set_solver. }
  destruct Ha as [w nw Hf|w nw Hf|w nw allocation ports|w id|w].
  - by apply Hcalm, calm_ignoring, calm_SetupBridge.
  - by apply Hcalm, calm_TeardownBridge.
  - apply Hcalm, calm_ignoring, calm_PublishPorts.
  - apply Hcalm, calm_UnpublishPorts.
  - eapply wp_mono; [|apply wp_reloaded]. intros a L' w' _ -> l. set_solver.
Qed.

(** A host that none of Dicer's chains are on yet. *)
Definition fresh (w : World) : Prop :=
  (∀ c, c ∈ guardedChains → tables (guarded w) !! ("filter", c) = None) ∧
  failures (guarded w) = 0 ∧ walls (guarded w) = ∅ ∧ doors (guarded w) = ∅ ∧ networks w = ∅.

Lemma fresh_ok w : fresh w → I w.
Proof.
  intros (Hc & Hf & Hw & Hd & Hn). split; [|by rewrite Hn].
  assert (∀ c, c ∈ guardedChains → chain (tables (guarded w)) c = []) as Hchain by (intros c Hin; unfold chain; by rewrite Hc).
  assert (chainDicerInput ∈ guardedChains ∧ chainDicerIsolationStage1 ∈ guardedChains) as [H1 H2] by (unfold guardedChains; set_solver).
  split.
  - intros c Hin. rewrite Hchain by done. constructor.
  - intros r Hr. rewrite Hchain in Hr by done. by apply elem_of_nil in Hr.
  - intros b i. by rewrite Hw, lookup_empty.
  - intros _ b. exists "10.0.0.1", true, 0, []. unfold own. rewrite Hchain by done.
    split_and!; [split; [by vm_compute|vm_compute; eauto]|constructor|done].
  - intros _ b d. by rewrite Hd, lookup_empty.
Qed.

Definition reaches (w : World) (c : config) : Prop := rtc (step admissible crash) (mkConfig w []) c.

Lemma reached_world_ok w c : fresh w → reaches w c → I (Conc.state c).
Proof.
  intros Hw Hc. apply (reachable_config_ok admissible crash I G R level started_wp) in Hc; [by apply Hc| |].
  - intros s s' [Hi Hn] ->. split; [exact Hi|]. apply map_Forall_empty.
  - split_and!; simpl; [by apply fresh_ok|intros i j t u; by rewrite lookup_nil|intros t Ht; by apply elem_of_nil in Ht].
Qed.

(** ** Packets *)

(** A packet has one fate. *)
Lemma fate_det T p l v v' : fate T p l v → fate T p l v' → v = v'.
Proof.
  assert (∀ r, target r = "ACCEPT" ∨ target r = "DROP" → target r ∉ builtin_targets → False) as Hbuiltin.
  { intros r [->| ->] Hn; apply Hn; unfold builtin_targets; set_solver. }
  intros Hv. revert v'. induction Hv as [|r l v Hm _ IH|r l Hm Ht|r l Hm Ht|r l l' v Hm Ht Hl _ IH Hne|r l l' v Hm Ht Hl _ IH1 _ IH2];
    intros v' Hv'; inversion Hv' as [|? ? ? Hm' Hv2|? ? Hm' Ht'|? ? Hm' Ht'|? ? ? ? Hm' Ht' Hl' Hv2 Hne'|? ? ? ? Hm' Ht' Hl' Hv2 Hv3];
    simplify_eq; try congruence; try (exfalso; eapply Hbuiltin; eauto; fail); auto.
  - by apply IH in Hv2.
  - by apply IH1 in Hv2.
Qed.

(** Rules that all drop. *)
Lemma fate_drops T p l : (∀ r, r ∈ l → target r = "DROP") →
  fate T p l (if existsb (λ r, matches r p) l then Drop else Return).
Proof.
  induction l as [|r l IH]; intros Ht; simpl; [constructor|]. destruct (matches r p) eqn:Em; simpl.
  - apply fate_drop; [done|]. apply Ht. left.
  - apply fate_skip; [done|]. apply IH. intros r' Hr'. apply Ht. by right.
Qed.

(** Rules that drop, or have another chain decide that only drops. *)
Lemma fate_stages T p c l l2 r :
  (∀ r, r ∈ l → target r = "DROP" ∨ target r = c) → c ∉ builtin_targets → T !! ("filter", c) = Some l2 →
  (∀ r, r ∈ l2 → target r = "DROP") →
  r ∈ l → matches r p = true → (target r = "DROP" ∨ ∃ r2, r2 ∈ l2 ∧ matches r2 p = true) → fate T p l Drop.
Proof.
  intros Ht Hc Hl2 Ht2 Hr Hm Hend. induction l as [|x l IH]; [by apply elem_of_nil in Hr|].
  assert (r ∈ l → fate T p l Drop) as Hrest by (intros Hin; apply IH; [|done]; intros y Hy; apply Ht; by right).
  pose proof (fate_drops T p l2 Ht2) as Hv2. destruct (matches x p) eqn:Ex.
  - destruct (Ht x ltac:(left)) as [Hx|Hx]; [by apply fate_drop|]. subst c.
    destruct (existsb (λ r, matches r p) l2) eqn:E2; [by eapply fate_jump|].
    eapply fate_back; [done..|]. apply Hrest. apply elem_of_cons in Hr as [->|]; [|done]. exfalso.
    destruct Hend as [Hd|(r2 & Hin & Hm2)]; [rewrite Hd in Hc; unfold builtin_targets in Hc; set_solver|].
    assert (existsb (λ r, matches r p) l2 = true) as E3; [|congruence]. apply existsb_exists. exists r2. by rewrite <-list_elem_of_In.
  - apply fate_skip; [done|]. apply Hrest. apply elem_of_cons in Hr as [->|]; [congruence|done].
Qed.

Lemma stage1_targets v r : inv ListenerPort v → r ∈ chain (tables v) chainDicerIsolationStage1 →
  target r = "DROP" ∨ target r = chainDicerIsolationStage2.
Proof.
  intros Hv Hr. pose proof (shape _ v Hv chainDicerIsolationStage1 ltac:(unfold guardedChains; set_solver)) as Hk.
  eapply Forall_forall in Hk as (b & args & Hb & Hform & Hp); [|exact Hr]. inversion Hform; subst.
  - left. by apply (reads_internal b).
  - right. by apply (reads_stage1 b).
Qed.

Lemma stage2_targets v r : inv ListenerPort v → r ∈ chain (tables v) chainDicerIsolationStage2 → target r = "DROP".
Proof.
  intros Hv Hr. pose proof (shape _ v Hv chainDicerIsolationStage2 ltac:(unfold guardedChains; set_solver)) as Hk.
  eapply Forall_forall in Hk as (b & args & Hb & Hform & Hp); [|exact Hr]. inversion Hform; subst. by apply (reads_stage2 b).
Qed.

Lemma chain_there T c r : r ∈ chain T c → T !! ("filter", c) = Some (chain T c).
Proof. unfold chain. destruct (T !! ("filter", c)); simpl; [done|]. by intros ?%elem_of_nil. Qed.

Lemma meets_stage1 v p r :
  inv ListenerPort v → is_Some (tables v !! ("filter", chainDicerIsolationStage2)) →
  r ∈ chain (tables v) chainDicerIsolationStage1 → matches r p = true →
  target r = "DROP" ∨ (∃ r2, r2 ∈ chain (tables v) chainDicerIsolationStage2 ∧ matches r2 p = true) →
  meets (tables v) chainDicerIsolationStage1 p Drop.
Proof.
  intros Hv [l2 Hl2] Hr Hm Hend. exists (chain (tables v) chainDicerIsolationStage1). split; [by eapply chain_there|].
  assert (chain (tables v) chainDicerIsolationStage2 = l2) as E by (unfold chain; by rewrite Hl2). rewrite E in Hend.
  eapply (fate_stages _ _ chainDicerIsolationStage2 _ l2 r); [|unfold builtin_targets; set_solver|done| |done..].
  - intros r'. by apply stage1_targets.
  - intros r' Hr'. eapply stage2_targets; [done|]. by rewrite E.
Qed.

(** C6: In every interleaving of setting bridges up and tearing them down,
    publishing ports and setting everything up again, whichever commands fail
    and whenever the daemon dies: once a network's bridge has been set up and
    until it is changed again, a packet from its guests to the guests of another
    such network is dropped, and so is one from the guests of an internal network
    to anywhere else that is not a reply. *)
Theorem guests_are_kept_apart w c :
  fresh w → reaches w c → let v := guarded (Conc.state c) in
  ∀ b internal p, walls v !! b = Some internal → iif p = b →
    (∀ b', is_Some (walls v !! b') → b' ≠ b → oif p = b' → meets (tables v) chainDicerIsolationStage1 p Drop) ∧
    (internal = true → oif p ≠ b → in_states "ESTABLISHED,RELATED" p = false → meets (tables v) chainDicerIsolationStage1 p Drop).
Proof.
  intros Hw Hc v b internal p Hb Hi. pose proof (reached_world_ok w c Hw Hc) as [Hv _]. fold v in Hv.
  destruct (walls_ok _ v Hv b internal Hb) as (Hfit & (r1 & Hp1 & Hin1) & (r2 & Hp2 & Hin2) & Hint).
  assert (is_Some (tables v !! ("filter", chainDicerIsolationStage2))) as Hs2.
  { eapply (stage2_there _ v Hv r1); [done|]. by apply (reads_stage1 b). }
  split.
  - intros b' [i' Hb'] Hne Ho. destruct (walls_ok _ v Hv b' i' Hb') as (Hfit' & _ & (r2' & Hp2' & Hin2') & _).
    apply (meets_stage1 v p r1); [done..| |].
    + rewrite (proj1 (reads_stage1 b Hfit r1 Hp1)), Hi, Ho. by rewrite bool_decide_true, bool_decide_false.
    + right. exists r2'. split; [done|]. rewrite (proj1 (reads_stage2 b' Hfit' r2' Hp2')). by rewrite bool_decide_true.
  - intros -> Ho Hn. destruct (Hint eq_refl) as (r & Hp & Hin).
    destruct (reads_internal b Hfit r Hp) as [Hm Ht]. apply (meets_stage1 v p r); [done..| |by left].
    rewrite Hm, Hn. by rewrite bool_decide_true, bool_decide_false.
Qed.

(** ** Access to the host *)

(** What a bridge's own rules decide of its guests' packets to the host. *)
Definition access (d : Door) (gateway : list Z) (p : Packet) : Verdict :=
  if negb (ListenerPort =? 0)%Z && (bool_decide (proto p = "tcp") && (dport p =? ListenerPort)%Z) then Drop
  else if door_internal d then
    if bool_decide (dst p = gateway) && (bool_decide (proto p ∈ ["udp"; "tcp"]) && (dport p =? 53)%Z) then Accept
    else if in_states "ESTABLISHED,RELATED" p then Accept
    else Drop
  else if bool_decide (dst p = gateway) then Accept
  else Return.

Lemma itoa_eqb x y : bool_decide (Str.itoa x = Str.itoa y) = (x =? y)%Z.
Proof. destruct (Z.eqb_spec x y) as [->|Hne]; [by apply bool_decide_true|]. apply bool_decide_false. by intros ?%(inj Str.itoa). Qed.

(** A rule that decides if it matches. *)
Lemma fate_decides T p r l m t v v' :
  reads r m t → t = "ACCEPT" ∧ v = Accept ∨ t = "DROP" ∧ v = Drop → fate T p l v' → fate T p (r :: l) (if m p then v else v').
Proof.
  intros [Hm Ht] Hv Hl. specialize (Hm p). destruct (m p).
  - destruct Hv as [[-> ->]|[-> ->]]; by constructor.
  - by constructor.
Qed.

Lemma fate_own T p b d a l :
  fit_bridge b → fit_gateway (door_gateway d) → address (door_gateway d) = Some a → iif p = b →
  made (inputRules b (door_gateway d) (door_internal d)) l → fate T p l (access d a p).
Proof.
  intros Hb Hgw Ha Hi Hm. unfold access, Firewall.inputRules in *.
  assert (∀ r, parse (listenerRule ListenerPort b) = Some r → reads r (λ p, bool_decide (iif p = b) && (bool_decide (proto p = "tcp") && (dport p =? ListenerPort)%Z)) "DROP") as Hlistener.
  { intros r Hr. destruct (reads_listener ListenerPort b Hb r Hr) as [Hread Ht]. split; [|done]. intros q. by rewrite Hread, itoa_eqb. }
  assert (∀ q, (bool_decide (Str.itoa (dport q) = "53")) = (dport q =? 53)%Z) as H53 by (intros; apply (itoa_eqb _ 53)).
  assert (bool_decide (proto p ∈ ["udp"; "tcp"]) = bool_decide (proto p = "udp") || bool_decide (proto p = "tcp")) as Hproto.
  { rewrite <-bool_decide_or. apply bool_decide_ext. set_solver. }
  assert (∀ l', made ((if door_internal d then [dnsRule b (door_gateway d) "udp"; dnsRule b (door_gateway d) "tcp"; repliesRule b; internalDropRule b]
      else [acceptRule b (door_gateway d)]) ++ [dropRule b (door_gateway d)]) l' →
    fate T p l' (if door_internal d then
      if bool_decide (dst p = a) && (bool_decide (proto p ∈ ["udp"; "tcp"]) && (dport p =? 53)%Z) then Accept
      else if in_states "ESTABLISHED,RELATED" p then Accept else Drop
      else if bool_decide (dst p = a) then Accept else Return)) as Hrest.
  { intros l' Hl. destruct (door_internal d); simpl in Hl;
      repeat (let r := fresh "r" in let Hr := fresh "Hr" in apply Forall2_cons_inv_l in Hl as (r & ? & Hr & Hl & ->));
      apply Forall2_nil_inv_l in Hl as ->.
    - pose proof (fate_decides T p r3 [] _ _ Drop _ (reads_drop b Hb _ a Hgw Ha r3 Hr3) ltac:(auto) (fate_end T p)) as F.
      apply (fate_decides T p r2 _ _ _ Drop _ (reads_internalDrop b Hb r2 Hr2) ltac:(auto)) in F.
      apply (fate_decides T p r1 _ _ _ Accept _ (reads_replies b Hb r1 Hr1) ltac:(auto)) in F.
      apply (fate_decides T p r0 _ _ _ Accept _ (reads_dns b Hb _ a Hgw Ha "tcp" r0 ltac:(auto) Hr0) ltac:(auto)) in F.
      apply (fate_decides T p r _ _ _ Accept _ (reads_dns b Hb _ a Hgw Ha "udp" r ltac:(auto) Hr) ltac:(auto)) in F.
      rewrite Hproto. cbn beta in F. rewrite !H53, (bool_decide_true (iif p = b)) in F by done. revert F. clear.
      destruct (bool_decide (dst p = a)), (bool_decide (proto p = "udp")), (bool_decide (proto p = "tcp")), (dport p =? 53)%Z,
        (in_states "ESTABLISHED,RELATED" p); done.
    - pose proof (fate_decides T p r0 [] _ _ Drop _ (reads_drop b Hb _ a Hgw Ha r0 Hr0) ltac:(auto) (fate_end T p)) as F.
      apply (fate_decides T p r _ _ _ Accept _ (reads_accept b Hb _ a Hgw Ha r Hr) ltac:(auto)) in F.
      cbn beta in F. rewrite (bool_decide_true (iif p = b)) in F by done. revert F. clear. by destruct (bool_decide (dst p = a)). }
  destruct (ListenerPort =? 0)%Z; simpl in *; [by apply Hrest|].
  apply Forall2_cons_inv_l in Hm as (r & l' & Hr & Hm & ->).
  pose proof (fate_decides T p r l' _ _ Drop _ (Hlistener r Hr) ltac:(auto) (Hrest l' Hm)) as Hf. simpl in Hf.
  by rewrite (bool_decide_true (iif p = b)) in Hf.
Qed.

(** Rules among others that drop what they match. *)
Lemma fate_among T p (P : Rule → Prop) `{∀ r, Decision (P r)} l v :
  (∀ r, r ∈ l → ¬ P r → matches r p = true → target r = "DROP") → fate T p (filter P l) v →
  (v = Drop → fate T p l Drop) ∧
  (v = Return → (∃ r, r ∈ l ∧ ¬ P r ∧ matches r p = true) → fate T p l Drop) ∧
  ((∀ r, r ∈ l → ¬ P r → matches r p = false) → fate T p l v).
Proof.
  revert v. induction l as [|r l IH]; intros v Hd Hf.
  { split_and!; [by intros ->|by intros _ (r & ?%elem_of_nil & _)|done]. }
  pose proof (λ v, IH v (λ r' Hr', Hd r' (list_elem_of_further r' r l Hr'))) as Hrest.
  rewrite filter_cons in Hf. case_decide as Hr.
  - assert (∀ r', r' ∈ r :: l → ¬ P r' → r' ∈ l) as Hin by (intros r' [->|]%elem_of_cons; done).
    inversion Hf as [|? ? ? Hm Hl|? ? Hm Ht|? ? Hm Ht|? ? ? ? Hm Ht Hl Hv Hne|? ? ? ? Hm Ht Hl Hv Hv2]; subst.
    + destruct (Hrest v Hl) as (H1 & H2 & H3). split_and!.
      * intros E. apply fate_skip; auto.
      * intros E (r' & Hr' & Hn & Hm'). apply fate_skip; [done|]. apply H2; [done|]. eauto.
      * intros Hno. apply fate_skip; [done|]. apply H3. intros r' Hr'. apply Hno. by right.
    + split_and!; [done..|]. intros _. by apply fate_accept.
    + split_and!; [|done|]; intros _; by apply fate_drop.
    + split_and!; [intros ->|intros ->; done|intros _]; by eapply fate_jump.
    + destruct (Hrest v Hv2) as (H1 & H2 & H3). split_and!.
      * intros E. eapply fate_back; eauto.
      * intros E (r' & Hr' & Hn & Hm'). eapply fate_back; [done..|]. apply H2; [done|]. eauto.
      * intros Hno. eapply fate_back; [done..|]. apply H3. intros r' Hr'. apply Hno. by right.
  - destruct (Hrest v Hf) as (H1 & H2 & H3). split_and!.
    + intros ->. destruct (matches r p) eqn:Em; [apply fate_drop; [done|]; apply Hd; [left|done..]|apply fate_skip; auto].
    + intros -> (r' & Hr' & Hn & Hm'). destruct (matches r p) eqn:Em; [apply fate_drop; [done|]; apply Hd; [left|done..]|].
      apply fate_skip; [done|]. apply H2; [done|]. apply elem_of_cons in Hr' as [->|Hr']; [congruence|eauto].
    + intros Hno. apply fate_skip; [apply Hno; [left|done]|]. apply H3. intros r' Hr'. apply Hno. by right.
Qed.

(** What the rules of other bridges match of a bridge's packets. *)
Lemma input_others v b p r :
  inv ListenerPort v → r ∈ chain (tables v) chainDicerInput → tag chainDicerInput r ∉ inputComments b → iif p = b → matches r p = true →
  target r = "DROP" ∧ ∃ b' gw, b' ≠ b ∧ parse (dropRule b' gw) = Some r ∧ address gw = Some (dst p).
Proof.
  intros Hv Hr Ht Hi Hm. pose proof (shape _ v Hv chainDicerInput ltac:(unfold guardedChains; set_solver)) as Hk.
  eapply Forall_forall in Hk as (b' & args & Hb' & Hform & Hp); [|exact Hr].
  assert (b' ≠ b) as Hne.
  { intros ->. apply Ht. pose proof (form_tag _ _ _ _ _ Hb' Hform Hp) as Htag. unfold commentsOf in Htag. by rewrite bool_decide_true in Htag. }
  assert (bool_decide (iif p = b') = false) as Hif by (apply bool_decide_false; congruence).
  inversion Hform as [| | |? gw internal ? Hgw Hin]; subst. pose proof Hgw as [_ [a Ha]].
  unfold Firewall.inputRules in Hin. rewrite !elem_of_app in Hin. destruct Hin as [Hin|[Hin|Hin]].
  - destruct (ListenerPort =? 0)%Z; [by apply elem_of_nil in Hin|]. apply list_elem_of_singleton in Hin as ->.
    rewrite (proj1 (reads_listener ListenerPort b' Hb' r Hp)), Hif in Hm. done.
  - destruct internal; [rewrite !elem_of_cons, elem_of_nil in Hin; destruct Hin as [->|[->|[->|[->|[]]]]]|apply list_elem_of_singleton in Hin as ->].
    + rewrite (proj1 (reads_dns b' Hb' gw a Hgw Ha "udp" r ltac:(auto) Hp)), Hif in Hm. done.
    + rewrite (proj1 (reads_dns b' Hb' gw a Hgw Ha "tcp" r ltac:(auto) Hp)), Hif in Hm. done.
    + rewrite (proj1 (reads_replies b' Hb' r Hp)), Hif in Hm. done.
    + rewrite (proj1 (reads_internalDrop b' Hb' r Hp)), Hif in Hm. done.
    + rewrite (proj1 (reads_accept b' Hb' gw a Hgw Ha r Hp)), Hif in Hm. done.
  - apply list_elem_of_singleton in Hin as ->. destruct (reads_drop b' Hb' gw a Hgw Ha r Hp) as [Hread Htarget].
    rewrite Hread in Hm. apply bool_decide_eq_true in Hm. split; [done|]. exists b', gw. rewrite Hm. done.
Qed.

(** What the chain [DICER-INPUT] decides of a network's packets. *)
Lemma access_decided v :
  inv ListenerPort v → failures v = 0 →
  ∀ b d a p, doors v !! b = Some d → address (door_gateway d) = Some a → iif p = b →
    (access d a p = Drop → meets (tables v) chainDicerInput p Drop) ∧
    (access d a p = Return → ∀ b' d', b' ≠ b → doors v !! b' = Some d' → address (door_gateway d') = Some (dst p) →
       meets (tables v) chainDicerInput p Drop) ∧
    ((∀ b' gw, b' ≠ b → holds (tables v) chainDicerInput (dropRule b' gw) → address gw ≠ Some (dst p)) →
       meets (tables v) chainDicerInput p (access d a p)).
Proof.
  intros Hv Hf b d a p Hd Ha Hi. destruct (doors_ok _ v Hv Hf b d Hd) as (Hb & Hgw & Hm).
  assert (∀ b d, doors v !! b = Some d → fit_bridge b ∧ fit_gateway (door_gateway d) ∧
    ∃ r, parse (dropRule b (door_gateway d)) = Some r ∧ r ∈ own (tables v) b) as Hdrop.
  { intros b' d' Hd'. destruct (doors_ok _ v Hv Hf b' d' Hd') as (? & ? & Hm'). split_and!; [done..|].
    rewrite inputRules_front in Hm'. apply Forall2_app_inv_l in Hm' as (l1 & l2 & _ & Hl2 & E).
    apply Forall2_cons_inv_l in Hl2 as (r & l3 & Hr & _ & ->). exists r. split; [done|]. rewrite E. set_solver. }
  destruct (Hdrop b d Hd) as (_ & _ & r0 & _ & Hr0). apply list_elem_of_filter in Hr0 as [_ Hr0].
  pose proof (chain_there _ _ _ Hr0) as Hl.
  destruct (fate_among (tables v) p (λ r, tag chainDicerInput r ∈ inputComments b) (chain (tables v) chainDicerInput) (access d a p)) as (H1 & H2 & H3).
  - intros r Hr Hn Hmatch. by apply (input_others v b p r).
  - by apply (fate_own _ _ b).
  - split_and!.
    + intros E. eexists. split; [exact Hl|auto].
    + intros E b' d' Hne Hd' Ha'. destruct (Hdrop b' d' Hd') as (Hb' & Hgw' & r & Hr & [Ht Hin]%list_elem_of_filter).
      eexists. split; [exact Hl|]. apply H2; [done|]. exists r. split_and!; [done| |].
      * intros Hb2. apply Hne. by eapply inputComments_apart.
      * rewrite (proj1 (reads_drop b' Hb' _ _ Hgw' Ha' r Hr)). by apply bool_decide_true.
    + intros Hno. eexists. split; [exact Hl|]. apply H3. intros r Hr Hn. destruct (matches r p) eqn:Em; [|done]. exfalso.
      destruct (input_others v b p r) as (_ & b' & gw & Hne & Hp & Hgw'); [done..|]. apply (Hno b' gw Hne); [|done]. by exists r.
Qed.

(** Nothing leads to a chain that is not there. *)
Definition unlinked (w : World) : Prop := ∀ r, r ∈ chain (tables (guarded w)) "INPUT" → target r ≠ chainDicerInput.

#[local] Existing Instance Entrance.entrance_rely.

Lemma started_stays w p (L : gset lock) :
  Entrance.J w → admissible w p L → wp Entrance.J Entrance.JG Entrance.JR Entrance.level p L w (λ _ L' _, finished_well Entrance.level L').
Proof.
  intros _ Ha. assert (∀ p : M unit, keeps Entrance.J Entrance.JG Entrance.JR Entrance.level
    (λ L P, L = ∅ ∧ ∀ w w', Entrance.onward (guarded w) (guarded w') → P w → P w') p →
    wp Entrance.J Entrance.JG Entrance.JR Entrance.level p ∅ w (λ _ L' _, finished_well Entrance.level L')) as Hstays.
  { intros q Hq. eapply wp_mono; [|by apply (Hq ∅ (λ _, True))]. intros a L' w' _ [-> _] l. set_solver. }
  destruct Ha; apply Hstays; try apply Entrance.stays_ignoring.
  - apply Entrance.stays_SetupBridge.
  - apply Entrance.stays_TeardownBridge.
  - apply Entrance.stays_PublishPorts.
  - apply Entrance.stays_UnpublishPorts.
  - apply Entrance.stays_reloaded.
Qed.

Lemma reached_gated w c : fresh w → unlinked w → reaches w c → Entrance.J (Conc.state c).
Proof.
  intros (_ & _ & _ & Hd & _) Hu Hc.
  apply (reachable_config_ok admissible crash Entrance.J Entrance.JG Entrance.JR Entrance.level started_stays) in Hc; [by apply Hc| |].
  - by intros s s' Hs ->.
  - split_and!; simpl; [|intros i j t u; by rewrite lookup_nil|intros t Ht; by apply elem_of_nil in Ht].
    intros _. split; [left|by rewrite Hd]. intros r l Hr Hl Hin. apply (Hu r); [|by apply Entrance.reads_jump].
    unfold chain. unfold Entrance.input in Hl. by rewrite Hl.
Qed.

(** C7: In every interleaving, while no command has failed to run: what becomes
    of a packet from a network's guests in the host's chain [INPUT] is what the
    network allows them, once their access has been set up and until it is
    changed again. None reaches the daemon's TCP listener; those of an internal
    network reach nothing but the gateway's DNS server, and only answer otherwise;
    those of others reach their gateway, and none another network's. What is not
    decided so is left to the host's own rules. *)
Theorem access_is_as_set_up w c :
  fresh w → unlinked w → reaches w c → let v := guarded (Conc.state c) in failures v = 0 →
  ∀ b d a p, doors v !! b = Some d → address (door_gateway d) = Some a → iif p = b →
    (access d a p = Drop → meets (tables v) "INPUT" p Drop) ∧
    (access d a p = Return → ∀ b' d', b' ≠ b → doors v !! b' = Some d' → address (door_gateway d') = Some (dst p) →
       meets (tables v) "INPUT" p Drop) ∧
    ((∀ b' gw, b' ≠ b → holds (tables v) chainDicerInput (dropRule b' gw) → address gw ≠ Some (dst p)) →
       Entrance.received (tables v) p (access d a p)).
Proof.
  intros Hw Hu Hc v Hf b d a p Hd Ha Hi. pose proof (reached_world_ok w c Hw Hc) as [Hv _]. fold v in Hv.
  assert (Entrance.entered v) as He.
  { apply (Entrance.doors_entered v); [by apply (reached_gated w c)|]. intros E. by rewrite E, lookup_empty in Hd. }
  destruct (access_decided v Hv Hf b d a p Hd Ha Hi) as (H1 & H2 & H3). split_and!.
  - intros E. apply (Entrance.entered_received v p Drop He), H1, E.
  - intros E b' d' Hne Hd' Ha'. by apply (Entrance.entered_received v p Drop He), (H2 E b' d').
  - intros Hno. by apply Entrance.entered_received, H3.
Qed.

(** ** Setting up records what is set up *)

Lemma run_rules {A} (p : M A) w Q :
  I w → inside I G guarded p {[rulesMu]} (guarded w) Q → run (with_lock rulesMu p) ∅ w (λ a L w', L = ∅ ∧ I w' ∧ Q a (guarded w')).
Proof.
  intros Hw Hp. apply run_with_lock; [set_solver|]. rewrite (right_id_L ∅ (∪)).
  eapply run_mono; [|by apply (inside_run I G guarded p {[rulesMu]} w Q)].
  intros a L' w' (-> & Hw' & HQ). split_and!; [set_solver|done..].
Qed.

(** Asking changes nothing. *)
Fixpoint asks {A} (p : M A) : Prop :=
  match p with
  | Ret _ _ => True
  | Ask _ q k => ∀ a, asks (k a)
  | _ => False
  end.

Lemma run_asks {A} (p : M A) L w (Q : A → gset lock → World → Prop) : asks p → (∀ a, Q a L w) → run p L w Q.
Proof. intros Hp HQ. induction p; simpl in *; by auto. Qed.

Lemma asks_ensureBridge : asks ensureBridge.
Proof. unfold ensureBridge, netlink. repeat first [done|case_match; cbn|intros ? ; cbn]. Qed.

Lemma asks_bind_zone : asks bind.
Proof. unfold bind, getZones, getZoneOfInterface, changeZone. repeat first [done|case_match; cbn|intros ? ; cbn]. Qed.

(** Whatever is set up at first, a network whose bridge is set up is behind its
    walls, and its guests have the access it gives them. *)
Lemma SetupBridge_guards nw w :
  fit nw → I w → run (SetupBridge UplinkInterface ListenerPort bus nw) ∅ w (λ res L w', L = ∅ ∧ (res = Ok tt →
    walls (guarded w') !! Network.Bridge nw = Some (Network.Internal nw) ∧
    doors (guarded w') !! Network.Bridge nw = Some (mkDoor (Network.Gateway nw) (Network.Internal nw)))).
Proof.
  intros [Hb Hgw] Hw. unfold SetupBridge. destruct (Addr.ParseCIDR _); [|done].
  refine (_ : run (ebind ensureBridge _) ∅ w _). apply run_ebind, run_asks; [apply asks_ensureBridge|].
  intros [[]|e]; [|done]. apply run_bind, run_with_lock; [set_solver|]. cbn [run modify].
  replace (({[mu]} ∪ ∅) ∖ {[mu]} : gset lock) with (∅ : gset lock) by set_solver.
  apply run_ebind, run_wrapping. eapply run_mono.
  2:{ apply run_rules; [|by apply ins_setupIPTables; [set_solver|]].
      destruct Hw as [Hi Hn]. split; [exact Hi|]. by apply map_Forall_insert_2. }
  intros [[]|e] L w2 (-> & Hw2 & Hwall); [|done]. specialize (Hwall eq_refl). cbn [wrap_err].
  apply run_wrapping, run_ebind, run_wrapping. eapply run_mono.
  2:{ apply run_rules; [done|]. by apply ins_ensureGatewayAccess; [set_solver|..]. }
  intros [[]|e] L w3 (-> & Hw3 & Hdoor); [|done]. destruct (Hdoor eq_refl) as [Hd Ew]. rewrite <-Ew in Hwall. cbn [wrap_err].
  destruct bus; cbn [negb]; [|done]. apply run_bind, run_asks; [apply asks_bind_zone|done].
Qed.

End Isolation.

(** ** Networks that are created are fit *)

Lemma plain_app_word s t : s ≠ "" → Forall (λ c, Words.plain_byte c = true) (Str.to_list s) →
  Forall (λ c, Words.plain_byte c = true) (Str.to_list t) → Words.plain (s +:+ t) = true.
Proof.
  intros Hs Hps Hpt. apply Words.plain_spec. rewrite Str.to_list_app, Forall_app. split; [|done]. by destruct s.
Qed.

Lemma hexDigit_plain z i : Words.plain_byte (Network.hexDigit (Z.land (Z.shiftr z i) 15)) = true.
Proof.
  change 15%Z with (Z.ones 4). rewrite Z.land_ones by lia. set (d := (Z.shiftr z i `mod` 2 ^ 4)%Z).
  assert (d ∈ seqZ 0 16) as Hd by (apply elem_of_seqZ; subst d; pose proof (Z.mod_pos_bound (Z.shiftr z i) (2 ^ 4)); lia).
  assert (forallb (λ d, Words.plain_byte (Network.hexDigit d)) (seqZ 0 16) = true) as Hall by (vm_compute; reflexivity).
  rewrite forallb_forall in Hall. by apply Hall, list_elem_of_In.
Qed.

Lemma BridgeName_plain name : Naming.valid_name name → Words.plain (Network.BridgeName name) = true.
Proof.
  intros Hn. unfold Network.BridgeName. destruct (_ <=? _).
  - apply plain_app_word; [done|by repeat constructor|]. apply Forall_forall. intros c [Hc| ->]%(Naming.valid_name_chars _ _ Hn); [|done].
    revert Hc. destruct c as [[] [] [] [] [] [] [] []]; by vm_compute.
  - apply plain_app_word; [done|by repeat constructor|]. unfold Network.shortHash. rewrite Str.to_of_list.
    repeat (constructor; [apply hexDigit_plain|]). constructor.
Qed.

Lemma BridgeName_fit name : Naming.valid_name name → fit_bridge (Network.BridgeName name).
Proof.
  intros Hn. split; [by apply BridgeName_plain|]. unfold Network.BridgeName. by destruct (_ <=? _).
Qed.

Lemma byte_plain a : Addr.is_byte a → Forall (λ c, Words.plain_byte c = true) (Str.to_list (Str.itoa a)).
Proof.
  intros Ha. assert (a ∈ seqZ 0 256) as Hin by (apply elem_of_seqZ; unfold Addr.is_byte in Ha; lia).
  assert (forallb (λ a, Words.plain (Str.itoa a)) (seqZ 0 256) = true) as Hall by (vm_compute; reflexivity).
  rewrite forallb_forall in Hall. by apply list_elem_of_In, Hall, Words.plain_spec in Hin as [_ Hp].
Qed.

Lemma String4_fit ip : Addr.is_ip4 ip → fit_gateway (Addr.String4 ip).
Proof.
  intros Hip. split.
  - apply Addr.is_ip4_inv in Hip as (a & b & c & d & -> & Ha & Hb & Hc & Hd). apply Words.plain_spec. rewrite Addr.String4_list. split.
    + intros E%(f_equal Str.to_list). rewrite Addr.String4_list in E. by destruct (Str.to_list (Str.itoa a)).
    + rewrite ?Forall_app, ?Forall_cons, ?Forall_app, ?Forall_cons, ?Forall_app. auto 12 using byte_plain.
  - unfold address. rewrite Addr.ParseIP_String4 by done. simpl. rewrite Addr.To4_As16 by apply Hip. eauto.
Qed.

Lemma created_networks_fit id now spec nw : Network.New id now spec = Ok nw → fit nw.
Proof.
  intros Hnew. pose proof (Network.New_well_formed _ _ _ _ Hnew) as (Hname & _ & _ & _ & ipNet & Hu & _ & Hgw). split.
  - replace (Network.Bridge nw) with (Network.BridgeName (Network.Name nw)); [by apply BridgeName_fit|].
    unfold Network.New in Hnew. case_bool_decide; [done|]. inv_ok. done.
  - apply Network.assignable_str_spec in Hgw as (ip & Hip & -> & _); [|apply Hu]. by apply String4_fit.
Qed.

(** ** An [iptables] there can be *)

Module Simple.

Abbreviation Tables Rule := (gmap (string * string) (list Rule)).

(** Rules are the arguments that make them, and are printed as they are. *)
Definition Rule : Type := {args : list string | forallb Words.plain args = true}.

#[export] Instance Rule_eq_dec : EqDecision Rule.
Proof. apply _. Defined.

Definition parse (args : list string) : option Rule :=
  match decide (forallb Words.plain args = true) with
  | left Hp => Some (args ↾ Hp)
  | right _ => None
  end.

Definition line (c : string) (r : Rule) : string := if Words.plain c then Words.unwords ("-A" :: c :: `r) else "".
Definition chain_line (_ c : string) : string := if Words.plain c then Words.unwords ["-N"; c] else "".

Fixpoint target_of (args : list string) : string :=
  match args with
  | o :: rest => if String.eqb o "-j" then default "" (head rest) else target_of rest
  | [] => ""
  end.

Definition target (r : Rule) : string := target_of (`r).
Definition matches (r : Rule) (p : Packet) : bool := default false (means (`r) p).

Definition jumps_somewhere (T : Tables Rule) (t : string) (r : Rule) : bool :=
  bool_decide (target r ∈ builtin_targets ∨ is_Some (T !! (t, target r))).

Definition command (t : string) (cmd : list string) (T : Tables Rule) : option (string * Tables Rule) :=
  match cmd with
  | o :: c :: args =>
      if String.eqb o "-N" then
        match args with
        | [] => if T !! (t, c) is Some _ then None else Some ("", <[(t, c) := []]> T)
        | _ => None
        end
      else
        l ← T !! (t, c);
        if String.eqb o "-S" then Some (listing (chain_line t c :: (line c <$> l)), T)
        else if String.eqb o "-I" then
          r ← parse (tail args); if jumps_somewhere T t r then Some ("", <[(t, c) := r :: l]> T) else None
        else
          r ← parse args;
          if String.eqb o "-C" then if decide (r ∈ l) then Some ("", T) else None
          else if String.eqb o "-A" then if jumps_somewhere T t r then Some ("", <[(t, c) := l ++ [r]]> T) else None
          else if String.eqb o "-D" then if decide (r ∈ l) then Some ("", <[(t, c) := remove_first r l]> T) else None
          else None
  | _ => None
  end.

Definition iptables (args : list string) (T : Tables Rule) : option (string * Tables Rule) :=
  match args with
  | _ :: o :: rest =>
      if String.eqb o "-t" then match rest with t :: cmd => command t cmd T | [] => None end else command "filter" (o :: rest) T
  | _ => None
  end.

Lemma parse_spec args r : parse args = Some r → `r = args.
Proof. unfold parse. case_match; [by intros [= <-]|done]. Qed.

Lemma plain_args args : forallb Words.plain args = true → Forall (λ a, Words.plain a = true) args.
Proof. rewrite forallb_forall, Forall_forall. intros Hp a Ha. by apply Hp, list_elem_of_In. Qed.

Lemma unwords_one ws : Forall (λ w, Words.plain w = true) ws → newline ∉ Str.to_list (Words.unwords ws).
Proof.
  induction 1 as [|w ws Hw _ IH]; [apply not_elem_of_nil|]. simpl. rewrite Str.to_list_app, elem_of_app. simpl. rewrite elem_of_cons.
  intros [Hin|[E|Hin]]; [|done..]. apply Words.plain_spec in Hw as [_ Hw]. rewrite Forall_forall in Hw.
  specialize (Hw _ Hin). vm_compute in Hw. discriminate.
Qed.

Lemma Fields_line c r : Words.plain c = true → Words.Fields (line c r) = "-A" :: c :: `r.
Proof.
  intros Hc. unfold line. rewrite Hc. apply Words.Fields_unwords. constructor; [done|]. constructor; [done|].
  apply plain_args, (proj2_sig r).
Qed.

Lemma target_of_app pre t post : "-j" ∉ pre → target_of (pre ++ "-j" :: t :: post) = t.
Proof.
  induction pre as [|o pre IH]; [done|]. rewrite not_elem_of_cons. intros [Ho Hpre]. simpl.
  rewrite (proj2 (String.eqb_neq o "-j")) by done. by apply IH.
Qed.

Definition simple : IPTables.
Proof.
  refine {| Firewall.Rule := Rule; Firewall.Rule_eq_dec := Rule_eq_dec; Firewall.parse := parse; Firewall.line := line; Firewall.chain_line := chain_line;
    Firewall.iptables := iptables; Firewall.matches := matches; Firewall.target := target |}.
  - intros c args T Hc. rewrite !elem_of_cons, elem_of_nil in Hc. by destruct Hc as [->|[->|[]]].
  - done.
  - intros t c args T. simpl. by destruct (T !! (t, c)).
  - intros t c args T. simpl. destruct (T !! (t, c)); [simpl|done]. destruct (parse args) as [r|]; [simpl|done].
    symmetry. apply decide_bool_decide.
  - intros t c args T. simpl. destruct (T !! (t, c)); [simpl|done]. destruct (parse args) as [r|]; [simpl|done].
    symmetry. apply decide_bool_decide.
  - intros t c args T. simpl. by destruct (T !! (t, c)).
  - intros t c T. simpl. by destruct (T !! (t, c)).
  - intros c r Hc. unfold line. rewrite Hc. apply unwords_one. constructor; [done|]. constructor; [done|]. apply plain_args, (proj2_sig r).
  - intros t c Hc. unfold chain_line. rewrite Hc. apply unwords_one. by repeat constructor.
  - intros t c Hc Hn. unfold chain_line. rewrite Hc, Words.Fields_unwords by (by repeat constructor). set_solver.
  - intros c r Hc. exists (`r). by apply Fields_line.
  - intros c shown args r Hf Ha Hp. destruct (Words.plain c) eqn:Hc; [|by unfold line in Hf; rewrite Hc in Hf].
    rewrite Fields_line in Hf by done. injection Hf as <-. apply parse_spec in Hp as Er. rewrite Er.
    assert (Words.unquote <$> args = args) as Eu.
    { rewrite <-(list_fmap_id args) at 2. apply list_fmap_ext. intros i a Hi. apply Words.unquote_plain.
      rewrite Forall_lookup in Ha. eauto. }
    rewrite Eu. split; [done|]. intros comment (pre & post & E & Hpre). exists pre, comment, post. split_and!; [done..|].
    apply Words.unquote_plain. rewrite Forall_forall in Ha. apply Ha. rewrite E. set_solver.
  - intros args r p b Hp Hm. unfold matches. by rewrite (parse_spec _ _ Hp), Hm.
  - intros pre t post r Hp Hj. unfold target. rewrite (parse_spec _ _ Hp). by apply target_of_app.
Defined.

End Simple.
(** ** An example *)

#[local] Existing Instance Simple.simple.

(** Two networks, of which [db] is internal. *)
Definition web : Network.Network := Network.mkNetwork "1" "web" "10.1.0.1" "10.1.0.0/24" "dicer-web" [] 0 false false 0 0.
Definition db : Network.Network := Network.mkNetwork "2" "db" "10.2.0.1" "10.2.0.0/24" "dicer-db" [] 0 false true 0 0.

(** A host with the chains that the kernel has. *)
Definition example_host : World :=
  mkWorld (mkGuarded (list_to_map ((λ tc, (tc, [])) <$> [("filter", "INPUT"); ("filter", "FORWARD"); ("filter", "OUTPUT");
    ("nat", "PREROUTING"); ("nat", "POSTROUTING"); ("nat", "OUTPUT")])) 0 ∅ ∅) ∅.

Definition example_world (q : query) (n : nat) : answer q :=
  match q with
  | QCommand | QNetlink | QCall => None
  | QForward => Ok "1"
  | QLinkName => Ok "eth0"
  | QZone => Ok "public"
  | QRoutes => Ok []
  | QLink => LinkNotFound
  | QParents | QRunning => false
  | QListen => Listens
  | QZones => Ok []
  end.

(** [db] is set up while [web] is. *)
Definition example_moves : list (move (S:=World) (answer:=answer) (lock:=lock)) :=
  [ Spawn (ignoring (SetupBridge "eth0" 2375 false web)) ∅; Go 0 30;
    Spawn (ignoring (SetupBridge "eth0" 2375 false db)) ∅; Go 1 10; Go 0 999; Go 1 999 ].

Definition both_set_up (c : config (S:=World) (answer:=answer) (lock:=lock)) : bool :=
  let v := guarded (Conc.state c) in
  bool_decide (walls v !! "dicer-web" = Some false ∧ walls v !! "dicer-db" = Some true ∧ failures v = 0 ∧
    doors v !! "dicer-web" = Some (mkDoor "10.1.0.1" false) ∧ doors v !! "dicer-db" = Some (mkDoor "10.2.0.1" true)).

Lemma web_fit : fit web.
Proof. split_and!; [by vm_compute..|vm_compute; eauto]. Qed.

Lemma db_fit : fit db.
Proof. split_and!; [by vm_compute..|vm_compute; eauto]. Qed.

Lemma bridges_playable : playable (admissible "eth0" 2375 false) example_world example_moves (mkConfig example_host []).
Proof.
  unfold example_moves. cbn [playable spawn]. split_and!; [constructor; apply web_fit|constructor; apply db_fit|done].
Qed.

Lemma example_fresh : fresh example_host.
Proof. split_and!; [|done..]. intros c Hc. unfold guardedChains in Hc. rewrite !elem_of_cons, elem_of_nil in Hc. by destruct_or! Hc; subst. Qed.

Lemma example_unlinked : unlinked example_host.
Proof. intros r Hr. by apply elem_of_nil in Hr. Qed.

Lemma guests_are_kept_apart_witness : ∃ c : config,
  reaches "eth0" 2375 false example_host c ∧
  meets (tables (guarded (Conc.state c))) chainDicerIsolationStage1 (mkPacket "dicer-web" "dicer-db" [10; 2; 0; 5]%Z "tcp" 80 ["NEW"]) Drop ∧
  meets (tables (guarded (Conc.state c))) chainDicerIsolationStage1 (mkPacket "dicer-db" "eth0" [9; 9; 9; 9]%Z "tcp" 443 ["NEW"]) Drop.
Proof.
  destruct (play_reaches _ crash example_world example_moves _ both_set_up bridges_playable) as (c & Hc & Hg);
    [vm_compute; reflexivity|].
  exists c. split; [exact Hc|]. apply bool_decide_eq_true in Hg as (Hweb & Hdb & _).
  pose proof (guests_are_kept_apart "eth0" 2375 false example_host c example_fresh Hc) as H.
  split.
  - destruct (H _ _ (mkPacket "dicer-web" "dicer-db" [10; 2; 0; 5]%Z "tcp" 80 ["NEW"]) Hweb eq_refl) as [Hother _].
    by apply (Hother "dicer-db"); [rewrite Hdb; eauto|..].
  - by apply (H _ _ (mkPacket "dicer-db" "eth0" [9; 9; 9; 9]%Z "tcp" 443 ["NEW"]) Hdb eq_refl).
Defined.

Lemma access_is_as_set_up_witness : ∃ c : config,
  reaches "eth0" 2375 false example_host c ∧
  meets (tables (guarded (Conc.state c))) "INPUT" (mkPacket "dicer-web" "" [10; 1; 0; 1]%Z "tcp" 2375 ["NEW"]) Drop ∧
  meets (tables (guarded (Conc.state c))) "INPUT" (mkPacket "dicer-web" "" [10; 2; 0; 1]%Z "tcp" 53 ["NEW"]) Drop.
Proof.
  destruct (play_reaches _ crash example_world example_moves _ both_set_up bridges_playable) as (c & Hc & Hg);
    [vm_compute; reflexivity|].
  exists c. split; [exact Hc|]. apply bool_decide_eq_true in Hg as (_ & _ & Hf & Hweb & Hdb).
  pose proof (access_is_as_set_up "eth0" 2375 false example_host c example_fresh example_unlinked Hc Hf) as H.
  split.
  - destruct (H _ _ [10; 1; 0; 1]%Z (mkPacket "dicer-web" "" [10; 1; 0; 1]%Z "tcp" 2375 ["NEW"]) Hweb eq_refl eq_refl) as [Hlistener _].
    by apply Hlistener.
  - destruct (H _ _ [10; 1; 0; 1]%Z (mkPacket "dicer-web" "" [10; 2; 0; 1]%Z "tcp" 53 ["NEW"]) Hweb eq_refl eq_refl) as (_ & Hother & _).
    by apply (Hother eq_refl "dicer-db" (mkDoor "10.2.0.1" true)).
Defined.


End Isolation.
