(* ===== verification/Dns.v ===== *)
(** * DNS servers

    [internal/dns]: the server that answers the guests of a network, from its
    instances' names and addresses or from upstream nameservers, and the servers
    of all networks. A server is a program of [Conc] whose state is the upstream
    that answered last; what is asked upstream are its questions.

    Messages are read and written by [golang.org/x/net/dns/dnsmessage], which is
    not part of the program: the class [Messages] has what is used of it, and
    what it documents. *)

From S2P Require Import Prelude Errdefs Naming Addr Network Conc.

Module Dns.
Import Addr.
Open Scope prog_scope.

(** ** Messages *)

Abbreviation bytes := (list Z).

Record Header := mkHeader { Header_ID : Z; Header_Response : bool; Header_OpCode : Z; Header_RecursionDesired : bool }.

Record Question := mkQuestion { Question_Name : string; Question_Type : Z; Question_Class : Z }.

(** The numbers of RFC 1035. *)
Definition TypeA : Z := 1.
Definition TypePTR : Z := 12.
Definition TypeALL : Z := 255.
Definition ClassINET : Z := 1.

Inductive RCode := RCodeSuccess | RCodeFormatError | RCodeServerFailure | RCodeNameError.

Inductive ResourceBody := AResource (A : bytes) | PTRResource (PTR : string).

Record Resource := mkResource {
  Resource_Name : string;
  Resource_Type : Z;
  Resource_Class : Z;
  Resource_TTL : Z;
  Body : ResourceBody;
}.

Record Message := mkMessage {
  ID : Z;
  Response : bool;
  OpCode : Z;
  Authoritative : bool;
  RecursionDesired : bool;
  RecursionAvailable : bool;
  Message_RCode : RCode;
  Questions : list Question;
  Answers : list Resource;
}.

#[global] Instance RCode_eq_dec : EqDecision RCode.
Proof. solve_decision. Defined.
#[global] Instance Question_eq_dec : EqDecision Question.
Proof. solve_decision. Defined.
#[global] Instance ResourceBody_eq_dec : EqDecision ResourceBody.
Proof. solve_decision. Defined.
#[global] Instance Resource_eq_dec : EqDecision Resource.
Proof. solve_decision. Defined.

(** [Parser.Start] and the [AllQuestions] after it, [Message.Pack], and
    [NewName], of names that are at most 255 bytes long. *)
Class Messages := {
  Start : bytes → option Header;
  AllQuestions : bytes → option (list Question);
  Pack : Message → option bytes;
  NewName : string → option string;
  NewName_short s : Str.len s ≤ 255 → NewName s = Some s;
  NewName_long s : 255 < Str.len s → NewName s = None;
}.

(** ** What a server knows *)

(** The interface [Resolver]. *)
Class Resolver := {
  LookupHost : string → string → list IP;
  LookupAddr : string → IP → list string;
}.

Definition InternalDomain : string := "dicer.internal".

Definition hostName : string := "host." +:+ InternalDomain.

Definition hostNames : list string := [hostName; "gateway." +:+ InternalDomain].

Definition ttl : Z := 5.

Definition maxMessage : Z := 65535.

(** [gateway] with its zone. *)
Record servedNetwork := mkServed {
  name : string;
  domain : string;
  subnet : Prefix;
  gateway : IP * list ascii;
  upstreams : list string;
  answersInstances : bool;
  internal : bool;
}.

#[global] Instance servedNetwork_eq_dec : EqDecision servedNetwork.
Proof. solve_decision. Defined.

(** [netip.Prefix.Contains] *)
Definition Contains (p : Prefix) (ip : IP) : bool :=
  (length (Prefix_ip p) =? length ip) && bool_decide (masked (Prefix_ip p) (Prefix_bits p) = masked ip (Prefix_bits p)).

Definition Port : Z := 53.

(** ** Answers *)

(** What becomes of a query: a reply, none, or a panic of the daemon. *)
Inductive Reply := Replied (msg : bytes) | NoReply | Panicked.

(** A UDP exchange is the datagrams that arrive and the error that ends the
    wait, and a TCP one the bytes that arrive before the connection ends. *)
Inductive query := QUDP (upstream : string) (msg : bytes) | QTCP (upstream : string) (framed : bytes) | QWrite.

Definition answer_type (q : query) : Type :=
  match q with
  | QUDP _ _ => result (list bytes * error)
  | QTCP _ _ => result bytes
  | QWrite => option error
  end.

Abbreviation M := (prog (S:=nat) (answer:=answer_type) (lock:=unit)).

(** *** Framing *)

Definition writeFramed (msg : bytes) : result bytes :=
  if (maxMessage <? Z.of_nat (length msg))%Z then Err (New "message too long")
  else
    let size := Z.of_nat (length msg) in
    Ok (Z.shiftr size 8 :: Z.land size 255 :: msg).

(** What is read, and what is left to be read. *)
Definition readFramed (input : bytes) : option (bytes * bytes) :=
  match input with
  | hi :: lo :: rest =>
      let size := Z.to_nat (Z.lor (Z.shiftl hi 8) lo) in
      if length rest <? size then None else Some (take size rest, drop size rest)
  | _ => None
  end.

(** *** Upstream *)

(** A datagram that answers the query. *)
Definition answers (msg datagram : bytes) : bool :=
  match msg, datagram with
  | q0 :: q1 :: _, d0 :: d1 :: _ => (d0 =? q0)%Z && (d1 =? q1)%Z
  | _, _ => false
  end.

Definition askUDP (msg : bytes) (upstream : string) : M (result bytes) :=
  '(datagrams, e) ←? ask (QUDP upstream msg);
  mret match List.find (answers msg) datagrams with Some datagram => Ok datagram | None => Err e end.

Definition errUnexpectedEOF : error := New "unexpected EOF".

Definition askTCP (msg : bytes) (upstream : string) : M (result bytes) :=
  framed ←? mret (writeFramed msg);
  input ←? ask (QTCP upstream framed);
  mret match readFramed input with Some (datagram, _) => Ok datagram | None => Err errUnexpectedEOF end.

Section Server.

Context (nw : servedNetwork).

(** The loop of [forwardEach], with [more] upstreams to ask. *)
Fixpoint forward_loop (askOne : string → M (result bytes)) (first i more : nat) (errs : option error) : M (result bytes) :=
  match more with
  | 0 => mret (if errs is Some e then Err e else Ok [])
  | S more =>
      let n := (first + i) `mod` length (upstreams nw) in
      r ← askOne (nth n (upstreams nw) "");
      match r with
      | Ok answer => modify (λ _, n) ≫= λ _, mret (Ok answer)
      | Err e => forward_loop askOne first (S i) more (joined errs (Errorf "%s: %w" e))
      end
  end.

Definition forwardEach (askOne : string → M (result bytes)) : M (result bytes) :=
  if bool_decide (upstreams nw = []) then mret (Err (New "no upstream nameservers"))
  else
    first ← gets (λ first, first);
    forward_loop askOne first 0 (length (upstreams nw)) None.

Definition forwardUDP (msg : bytes) : M (result bytes) := forwardEach (askUDP msg).

Definition forwardTCP (msg : bytes) : M (result bytes) := forwardEach (askTCP msg).

(** *** The network's own names *)

Context (unicodeToLower : string → string) {messages : Messages} {lookups : Resolver}.

Definition ToLower : string → string := Naming.ToLower unicodeToLower.

(** [strconv.ParseUint(label, 10, 8)] *)
Definition ParseUint8 (label : list ascii) : option Z :=
  if bool_decide (label = []) || negb (forallb Str.is_digit label) then None
  else
    let n := foldl (λ n c, n * 10 + (Z.of_N (N_of_ascii c) - 48))%Z 0%Z label in
    if (n <? 256)%Z then Some n else None.

Definition reverseAddr (name : string) : option IP :=
  rest ← Str.cut_suffix ".in-addr.arpa" name;
  match Str.split_list "." (Str.to_list rest) with
  | [l0; l1; l2; l3] =>
      n0 ← ParseUint8 l0; n1 ← ParseUint8 l1; n2 ← ParseUint8 l2; n3 ← ParseUint8 l3;
      Some [n3; n2; n1; n0]
  | _ => None
  end.

Definition aRecord (name : string) (addr : IP) : Resource := mkResource name TypeA ClassINET ttl (AResource addr).

(** [MustNewName] panics. *)
Definition ptrRecord (name target : string) : option Resource :=
  mkResource name TypePTR ClassINET ttl ∘ PTRResource <$> NewName target.

Definition addressRecords (q : Question) (addrs : list IP) : list Resource :=
  if negb (Question_Type q =? TypeA)%Z && negb (Question_Type q =? TypeALL)%Z then []
  else aRecord (Question_Name q) <$> addrs.

(** [None] of the first is a panic, and of the second a question that is not of
    the network's own. *)
Definition own_pointer (q : Question) (addr : IP) : option (list Resource) :=
  if bool_decide ((addr, []) = gateway nw) && negb (internal nw) then
    mapM (ptrRecord (Question_Name q)) [hostName +:+ "."]
  else if answersInstances nw then
    mapM (λ n, ptrRecord (Question_Name q) (n +:+ "." +:+ name nw +:+ ".")) (LookupAddr (name nw) addr)
  else Some [].

(** The name that is asked for, as it is compared. *)
Definition asked_name (q : Question) : string :=
  ToLower (default (Question_Name q) (Str.cut_suffix "." (Question_Name q))).

Definition ownRecords (q : Question) : option (option (list Resource * RCode)) :=
  let qname := asked_name q in
  if (Question_Type q =? TypePTR)%Z then
    match reverseAddr qname with
    | Some addr =>
        if negb (Contains (subnet nw) addr) then Some None
        else
          records ← own_pointer q addr;
          Some (Some (if bool_decide (records = []) then ([], RCodeNameError) else (records, RCodeSuccess)))
    | None => Some None
    end
  else if bool_decide (qname = InternalDomain) || bool_decide (is_Some (Str.cut_suffix ("." +:+ InternalDomain) qname)) then
    if internal nw || negb (bool_decide (qname ∈ hostNames)) then Some (Some ([], RCodeNameError))
    else Some (Some (addressRecords q [(gateway nw).1], RCodeSuccess))
  else if negb (answersInstances nw) then Some None
  else
    let cut := Str.cut_suffix ("." +:+ domain nw) qname in
    let host := default qname cut in
    if bool_decide (host = "") || Str.contains_byte "." host then Some None
    else
      match LookupHost (name nw) host with
      | [] => Some (if cut is Some _ then Some ([], RCodeNameError) else None)
      | addrs => Some (Some (addressRecords q addrs, RCodeSuccess))
      end.

Definition reply (header : Header) (questions : list Question) (rcode : RCode) (answers : list Resource) : Reply :=
  match Pack {|
    ID := Header_ID header;
    Response := true;
    OpCode := Header_OpCode header;
    Authoritative := negb (bool_decide (rcode = RCodeServerFailure)) && negb (bool_decide (rcode = RCodeFormatError));
    RecursionDesired := Header_RecursionDesired header;
    RecursionAvailable := true;
    Message_RCode := rcode;
    Questions := questions;
    Answers := answers |}
  with Some out => Replied out | None => NoReply end.

Definition answer (forward : bytes → M (result bytes)) (msg : bytes) : M Reply :=
  match Start msg with
  | None => mret NoReply
  | Some header =>
      if Header_Response header then mret NoReply
      else
        match AllQuestions msg with
        | Some [q] =>
            let others : M Reply :=
              if internal nw then mret (reply header [q] RCodeNameError [])
              else
                r ← forward msg;
                mret match r with
                     | Err _ => reply header [q] RCodeServerFailure []
                     | Ok upstream => Replied upstream
                     end in
            if (Question_Class q =? ClassINET)%Z then
              match ownRecords q with
              | None => mret Panicked
              | Some (Some (records, rcode)) => mret (reply header [q] rcode records)
              | Some None => others
              end
            else others
        | questions => mret (reply header (default [] questions) RCodeFormatError [])
        end
  end.

(** What was written to the connection, unless the daemon panicked. *)
Fixpoint serveConn (fuel : nat) (input : bytes) : M (option bytes) :=
  match fuel with
  | 0 => mret (Some [])
  | S fuel =>
      match readFramed input with
      | None => mret (Some [])
      | Some (msg, rest) =>
          r ← answer forwardTCP msg;
          match r with
          | Panicked => mret None
          | NoReply => mret (Some [])
          | Replied out =>
              match writeFramed out with
              | Err _ => mret (Some [])
              | Ok framed =>
                  e ← ask QWrite;
                  match e with
                  | Some _ => mret (Some [])
                  | None => written ← serveConn fuel rest; mret (app framed <$> written)
                  end
              end
          end
      end
  end.

End Server.

(** ** Servers ([servers.go]) *)

Definition sameNetwork (a b : servedNetwork) : bool :=
  bool_decide (name a = name b) && bool_decide (subnet a = subnet b) && bool_decide (gateway a = gateway b) &&
  bool_decide (upstreams a = upstreams b) && eqb (answersInstances a) (answersInstances b) && eqb (internal a) (internal b).

Section Servers.

Context (unicodeToLower : string → string) (DefaultNameservers : list string).

Definition networkOf (nw : Network.Network) : result servedNetwork :=
  match ParsePrefix (Network.Subnet nw) with
  | None => Err (New "network %q: subnet: %w")
  | Some subnet =>
      match ParseAddr (Network.Gateway nw) with
      | None => Err (New "network %q: gateway: %w")
      | Some gateway =>
          let nameservers :=
            if bool_decide (Network.Nameservers nw = []) && negb (Network.Internal nw) then DefaultNameservers
            else Network.Nameservers nw in
          Ok {| name := Network.Name nw;
                domain := ToLower unicodeToLower (Network.Name nw);
                subnet := mkPrefix (masked (Prefix_ip subnet) (Prefix_bits subnet)) (Prefix_bits subnet);
                gateway := gateway;
                upstreams := (λ ns, JoinHostPort ns (Str.itoa Port)) <$> nameservers;
                answersInstances := negb (Network.Isolated nw);
                internal := Network.Internal nw |}
      end
  end.

End Servers.

(** *** Their state and operations *)

(** The servers that were made, those of them that are listening, and the one
    of each network. *)
Record Servers := mkServers { made : list servedNetwork; open : gset nat; servers : gmap string nat }.

Definition with_open (s : Servers) (o : gset nat) : Servers := mkServers (made s) o (servers s).
Definition with_servers (s : Servers) (m : gmap string nat) : Servers := mkServers (made s) (open s) m.

Section Operations.

Context (unicodeToLower : string → string) (DefaultNameservers : list string).

(** The one question is whether the gateway can be listened on; the one mutex is
    [Servers.mu]. *)
Abbreviation MS := (prog (S:=Servers) (answer:=λ _ : unit, option error) (lock:=unit)).

Definition close (i : nat) : MS unit := modify (λ s, with_open s (open s ∖ {[i]})).

Definition listen (nw : servedNetwork) : MS (result nat) :=
  e ← ask tt;
  match e with
  | Some e => mret (Err e)
  | None => atomically (λ s, (Ok (length (made s)), mkServers (made s ++ [nw]) ({[length (made s)]} ∪ open s) (servers s)))
  end.

(** The server of a network. *)
Definition server_of (s : Servers) (networkName : string) : option (nat * servedNetwork) :=
  i ← servers s !! networkName; nw ← made s !! i; Some (i, nw).

Definition forget (networkName : string) : MS unit := modify (λ s, with_servers s (delete networkName (servers s))).

(** A server that serves [want] as it is, or else the one to close. *)
Definition replaced (want : servedNetwork) : MS (unit + option nat) :=
  with_lock tt (
    gets (λ s, server_of s (name want)) ≫= λ running : option (nat * servedNetwork),
    match running with
    | Some (i, nw) => if sameNetwork nw want then mret (inl tt) else forget (name want) ≫= λ _, mret (inr (Some i))
    | None => forget (name want) ≫= λ _, mret (inr None)
    end).

Definition Serve (nw : Network.Network) : MS (result unit) :=
  want ←? mret (networkOf unicodeToLower DefaultNameservers nw);
  r ← replaced want;
  match r with
  | inl _ => mret (Ok tt)
  | inr running =>
      (if running is Some i then close i else mret tt) ≫= λ _,
      srv ←? wrapping "serve DNS for network %q on %s: %w" (listen want);
      with_lock tt (modify (λ s, with_servers s (<[Network.Name nw := srv]> (servers s)))) ≫= λ _,
      mret (Ok tt)
  end.

Definition Stop (networkName : string) : MS unit :=
  srv ← with_lock tt (
    srv ← gets (λ s, servers s !! networkName);
    forget networkName ≫= λ _, mret srv);
  if srv is Some i then close i else mret tt.

Definition Close : MS unit :=
  all ← with_lock tt (atomically (λ s, ((map_to_list (servers s)).*2, with_servers s ∅)));
  for_all close all.

End Operations.

(** ** Framing *)

Lemma size_bytes n : (0 ≤ n < 65536)%Z → Z.lor (Z.shiftl (Z.shiftr n 8) 8) (Z.land n 255) = n.
Proof.
  intros Hn. change 255%Z with (Z.ones 8). rewrite Z.lor_comm, <-Z.ldiff_ones_r by lia.
  apply Z.bits_inj'. intros i Hi. rewrite Z.lor_spec, Z.ldiff_spec, Z.land_spec.
  destruct (Z.testbit n i), (Z.testbit (Z.ones 8) i); done.
Qed.

(** A message is read back from where it was written, whatever follows it. *)
Lemma readFramed_writeFramed msg framed rest : writeFramed msg = Ok framed → readFramed (framed ++ rest) = Some (msg, rest).
Proof.
  unfold writeFramed, maxMessage. destruct (Z.ltb_spec 65535 (Z.of_nat (length msg))) as [|Hl]; [done|]. intros [= <-].
  cbn [app readFramed]. rewrite size_bytes by lia. rewrite Nat2Z.id.
  destruct (Nat.ltb_spec (length (msg ++ rest)) (length msg)) as [Hlt|]; [rewrite length_app in Hlt; lia|].
  by rewrite take_app_length, drop_app_length.
Qed.

(** Reading leaves less to be read. *)
Lemma readFramed_shorter input msg rest : readFramed input = Some (msg, rest) → length rest < length input.
Proof.
  destruct input as [|hi [|lo rest0]]; [done..|]. simpl. destruct (_ <? _); [done|]. intros [= <- <-]. rewrite length_drop. lia.
Qed.

Section Termination.

Context (nw : servedNetwork) (unicodeToLower : string → string) {messages : Messages} {lookups : Resolver}.

(** A connection ends with what the client sends: as many rounds as there are
    bytes are enough. *)
Lemma serveConn_enough fuel fuel' input L s Q :
  length input < fuel → length input < fuel' →
  run (serveConn nw unicodeToLower fuel input) L s Q → run (serveConn nw unicodeToLower fuel' input) L s Q.
Proof.
  revert fuel' input L s Q. induction fuel as [|fuel IH]; intros [|fuel'] input L s Q Hf Hf'; [lia..|]. cbn [serveConn].
  destruct (readFramed input) as [[msg rest]|] eqn:E; [|done]. apply readFramed_shorter in E.
  intros Hr%run_bind_inv. apply run_bind. eapply run_mono; [|exact Hr]. clear Hr.
  intros [out| |] L1 s1; [|done..]. destruct (writeFramed out) as [framed|e]; [|done].
  intros Hr [e|]; [exact (Hr (Some e))|]. specialize (Hr None).
  apply (run_bind (serveConn _ _ fuel' rest)). apply IH; [lia..|]. by apply (run_bind_inv (serveConn _ _ fuel rest)).
Qed.

End Termination.

(** ** Forwarding *)

Section Forwarding.

Context (nw : servedNetwork).

Abbreviation count := (length (upstreams nw)).

(** The upstreams in the order they are asked. *)
Definition rotation (first : nat) : list string := (λ i, nth ((first + i) `mod` count) (upstreams nw) "") <$> seq 0 count.

Lemma lookup_nth (l : list string) i d : i < length l → Some (nth i l d) = l !! i.
Proof. intros [x Hx]%lookup_lt_is_Some_2. by rewrite nth_lookup, Hx. Qed.

Lemma rotation_cut first : first < count → rotation first = drop first (upstreams nw) ++ take first (upstreams nw).
Proof.
  intros Hf. unfold rotation. apply list_eq. intros i. rewrite list_lookup_fmap.
  destruct (decide (i < count)) as [Hi|Hi].
  - rewrite lookup_seq_lt by done. cbn [fmap option_fmap option_map]. rewrite Nat.add_0_l.
    destruct (decide (i < count - first)) as [Hd|Hd].
    + rewrite Nat.mod_small by lia. rewrite lookup_app_l by (rewrite length_drop; lia).
      rewrite lookup_drop. apply lookup_nth. lia.
    + rewrite lookup_app_r by (rewrite length_drop; lia). rewrite length_drop.
      replace ((first + i) `mod` count) with (i - (count - first)).
      2:{ rewrite <-(Nat.mod_small (i - (count - first)) count) by lia.
          replace (first + i) with (i - (count - first) + 1 * count) by lia. by rewrite Nat.Div0.mod_add. }
      rewrite lookup_take_lt by lia. apply lookup_nth. lia.
  - rewrite lookup_seq_ge by lia. symmetry. apply lookup_ge_None_2. rewrite length_app, length_drop, length_take. lia.
Qed.

(** Each is asked once. *)
Lemma rotation_perm first : rotation first ≡ₚ upstreams nw.
Proof.
  destruct (decide (count = 0)) as [H0|Hn].
  - apply length_zero_iff_nil in H0. unfold rotation. by rewrite H0.
  - replace (rotation first) with (rotation (first `mod` count)).
    2:{ unfold rotation. apply list_fmap_ext. intros i x _. by rewrite Nat.Div0.add_mod_idemp_l. }
    rewrite rotation_cut by (apply Nat.mod_upper_bound; lia). by rewrite Permutation_app_comm, take_drop.
Qed.

(** What is heard of an upstream that is asked, if all answer as [world] says. *)
Definition heardUDP (world : ∀ q, answer_type q) (msg : bytes) (upstream : string) : result bytes :=
  match world (QUDP upstream msg) with
  | Ok (datagrams, e) => match List.find (answers msg) datagrams with Some datagram => Ok datagram | None => Err e end
  | Err e => Err e
  end.

Definition heardTCP (world : ∀ q, answer_type q) (msg : bytes) (upstream : string) : result bytes :=
  match writeFramed msg with
  | Ok framed =>
      match world (QTCP upstream framed) with
      | Ok input => match readFramed input with Some (datagram, _) => Ok datagram | None => Err errUnexpectedEOF end
      | Err e => Err e
      end
  | Err e => Err e
  end.

Definition hears world (askOne : string → M (result bytes)) (heard : string → result bytes) : Prop :=
  ∀ u (g : result bytes → M (result bytes)) n L s, ∃ k, k ≤ 1 ∧ exec world (askOne u ≫= g) n L s = exec world (g (heard u)) (k + n) L s.

Lemma hears_UDP world msg : hears (λ q _, world q) (askUDP msg) (heardUDP world msg).
Proof.
  intros u g n L s. exists 1. split; [done|]. unfold heardUDP. cbn. destruct (world (QUDP u msg)) as [[datagrams e]|e]; [|done].
  cbn. by destruct (List.find _ _).
Qed.

Lemma hears_TCP world msg : hears (λ q _, world q) (askTCP msg) (heardTCP world msg).
Proof.
  intros u g n L s. unfold heardTCP, askTCP. destruct (writeFramed msg) as [framed|e]; [|by exists 0; split; [lia|]].
  exists 1. split; [done|]. cbn. destruct (world (QTCP u framed)) as [input|e]; [|done]. cbn. by destruct (readFramed input) as [[]|].
Qed.

Lemma forward_loop_exec world askOne heard L first i more errs n s :
  hears world askOne heard → i + more = count → (errs = None → i = 0) → 0 < count →
  ∃ res n', exec world (forward_loop nw askOne first i more errs) n L s =
    match list_find (λ u, is_ok (heard u)) (drop i (rotation first)) with
    | Some (j, u) => Some (heard u, (first + (i + j)) `mod` count, n')
    | None => Some (Err res, s, n')
    end.
Proof.
  intros Hh. assert (length (rotation first) = count) as Hlen by (unfold rotation; by rewrite length_fmap, length_seq).
  revert i errs n s. induction more as [|more IH]; intros i errs n s Hi He Hc; cbn [forward_loop].
  - rewrite drop_ge by lia. destruct errs as [e|]; [|specialize (He eq_refl); lia]. by exists e, n.
  - assert (rotation first !! i = Some (nth ((first + i) `mod` count) (upstreams nw) "")) as Hl.
    { unfold rotation. rewrite list_lookup_fmap, lookup_seq_lt by lia. done. }
    rewrite (drop_S _ _ _ Hl). set (u := nth _ _ _) in *.
    destruct (Hh u (λ r, match r with
      | Ok answer => modify (λ _, (first + i) `mod` count) ≫= λ _, mret (Ok answer)
      | Err e => forward_loop nw askOne first (S i) more (joined errs (Errorf "%s: %w" e)) end) n L s) as (k & _ & ->).
    cbn [list_find]. destruct (heard u) as [out|e] eqn:E; cbn [is_ok].
    + rewrite decide_True by done. rewrite E, Nat.add_0_r. by exists (New ""), (k + n).
    + rewrite decide_False by (by intros []).
      destruct (IH (S i) (joined errs (Errorf "%s: %w" e)) (k + n) s) as (res & n' & ->); [lia|done|done|]. exists res, n'.
      destruct (list_find _ _) as [[j v]|]; [|done]. cbn. by replace (first + S (i + j)) with (first + (i + S j)) by lia.
Qed.

End Forwarding.

(** ** Forwarding: what is heard *)

Section Heard.

Context (nw : servedNetwork).

(** C16: A query that is forwarded is answered by the first upstream that answers,
    if any does, over UDP and over TCP: the upstreams are asked one after the
    other, each once, and the one that answered last comes first. What is taken
    for an answer over UDP has the ID of the query. *)
Theorem forwarding_finds_who_answers world msg (first n : nat) L :
  upstreams nw ≠ [] →
  (∀ forward heard, (forward, heard) ∈ [(forwardUDP nw msg, heardUDP world msg); (forwardTCP nw msg, heardTCP world msg)] →
    ∃ e n', exec (λ q _, world q) forward n L first =
      match list_find (λ u, is_ok (heard u)) (rotation nw first) with
      | Some (j, u) => Some (heard u, (first + j) `mod` length (upstreams nw), n')
      | None => Some (Err e, first, n')
      end) ∧
  rotation nw first ≡ₚ upstreams nw ∧
  (∀ j, head (rotation nw ((first + j) `mod` length (upstreams nw))) = rotation nw first !! (j `mod` length (upstreams nw))) ∧
  (∀ u d, heardUDP world msg u = Ok d → ∃ id0 id1 q r, msg = id0 :: id1 :: q ∧ d = id0 :: id1 :: r).
Proof.
  intros Hne. assert (0 < length (upstreams nw)) as Hc by (by destruct (upstreams nw); [|simpl; lia]).
  split_and!; [|apply rotation_perm| |].
  - intros forward heard Hin.
    assert (∃ askOne, forward = forwardEach nw askOne ∧ hears (λ q _, world q) askOne heard) as (askOne & -> & Hh).
    { rewrite !elem_of_cons, elem_of_nil in Hin. destruct Hin as [[= -> ->]|[[= -> ->]|[]]];
        [exists (askUDP msg); split; [done|apply hears_UDP]|exists (askTCP msg); split; [done|apply hears_TCP]]. }
    unfold forwardEach. rewrite bool_decide_false by done.
    exact (forward_loop_exec nw _ askOne heard L first 0 _ None n first Hh eq_refl (λ _, eq_refl) Hc).
  - intros j. unfold rotation. rewrite head_lookup, !list_lookup_fmap.
    rewrite !lookup_seq_lt by (done || apply Nat.mod_upper_bound; lia).
    cbn. rewrite Nat.add_0_r, Nat.Div0.mod_mod, Nat.Div0.add_mod_idemp_r. done.
  - intros u d. unfold heardUDP. destruct (world (QUDP u msg)) as [[ds e]|e]; [|done].
    destruct (List.find (answers msg) ds) as [d'|] eqn:E; [|done]. intros [= ->]. apply find_some in E as [_ Ha].
    destruct msg as [|q0 [|q1 q]], d as [|d0 [|d1 r]]; try done. simpl in Ha. apply andb_true_iff in Ha as [->%Z.eqb_eq ->%Z.eqb_eq]. eauto 10.
Qed.

End Heard.

(** ** The network's own names *)

(** The name that a reverse lookup of an address asks for. *)
Definition reverseName (ip : IP) : string := String4 (reverse ip) +:+ ".in-addr.arpa".

Lemma ParseUint8_itoa b : is_byte b → ParseUint8 (Str.to_list (Str.itoa b)) = Some b.
Proof.
  intros Hb. apply (byte_forall (λ b, bool_decide (ParseUint8 (Str.to_list (Str.itoa b)) = Some b))) in Hb; [|by vm_compute].
  by apply bool_decide_eq_true in Hb.
Qed.

Lemma reverseAddr_reverseName ip : is_ip4 ip → reverseAddr (reverseName ip) = Some ip.
Proof.
  intros (a & b & c & d & -> & Ha & Hb & Hc & Hd)%is_ip4_inv. unfold reverseAddr, reverseName. rewrite Str.cut_suffix_app.
  cbn [mbind option_bind]. change (reverse [a; b; c; d]) with [d; c; b; a]. rewrite String4_list.
  assert (∀ b, is_byte b → "."%char ∉ Str.to_list (Str.itoa b)) as Hdot by (intros ? (_ & Hdigits & _)%itoa_octet; by apply digits_no_char).
  rewrite !Str.split_list_app, Str.split_list_no_sep by auto. cbn [app].
  by rewrite !ParseUint8_itoa by done.
Qed.

Section Own.

Context (nw : servedNetwork) (unicodeToLower : string → string) {messages : Messages} {lookups : Resolver}.

Abbreviation asked_name := (asked_name unicodeToLower).
Abbreviation ownRecords := (ownRecords nw unicodeToLower).
Abbreviation answer := (answer nw unicodeToLower).

Definition label (host : string) : Prop := host ≠ "" ∧ ("."%char ∉ Str.to_list host).

(** What is of the network's own: the addresses of its subnet, the host's domain,
    and, unless it is isolated, its domain and the names of its instances. *)
Definition own_question (q : Question) : Prop :=
  Question_Class q = ClassINET ∧
  (Question_Type q = TypePTR ∧ (∃ ip, is_ip4 ip ∧ asked_name q = reverseName ip ∧ Contains (subnet nw) ip = true) ∨
   Question_Type q ≠ TypePTR ∧
     (asked_name q = InternalDomain ∨ (∃ sub, asked_name q = sub +:+ "." +:+ InternalDomain) ∨
      answersInstances nw = true ∧ ∃ host, label host ∧
        (asked_name q = host +:+ "." +:+ domain nw ∨ asked_name q = host ∧ LookupHost (name nw) host ≠ []))).

Lemma dot_free_cut host suf : label host → Str.cut_suffix ("." +:+ suf) host = None.
Proof.
  intros [_ Hd]. destruct (Str.cut_suffix _ host) as [t|] eqn:E; [|done]. apply Str.cut_suffix_Some in E as ->.
  destruct Hd. rewrite !Str.to_list_app. set_solver.
Qed.

(** What is of the network's own is not left to others. *)
Lemma own_is_answered q : own_question q → ownRecords q ≠ Some None.
Proof.
  intros [_ [[Ht (ip & Hip & En & Hc)]|[Ht Hq]]]; unfold ownRecords.
  - rewrite Ht, En, reverseAddr_reverseName, Hc by done. cbn. by destruct (own_pointer _ _ _).
  - rewrite (proj2 (Z.eqb_neq _ _) Ht). destruct Hq as [En|[[sub En]|(Ha & host & Hl & Hq)]].
    + rewrite En. cbn. by destruct (internal nw).
    + rewrite (bool_decide_true (is_Some _)) by (rewrite En, Str.cut_suffix_app; eauto). rewrite orb_true_r. by destruct (_ || _).
    + case_match; [by case_match|]. rewrite Ha. cbn [negb].
      assert (default (asked_name q) (Str.cut_suffix ("." +:+ domain nw) (asked_name q)) = host) as Eh.
      { destruct Hq as [->|[-> _]]; [by rewrite Str.cut_suffix_app|]. by rewrite dot_free_cut. }
      rewrite Eh. destruct Hl as [Hne Hd]. unfold Str.contains_byte. rewrite !bool_decide_false by done. cbn [orb].
      destruct (LookupHost (name nw) host) eqn:El; [|done]. destruct Hq as [->|[_ Hs]]; [|done]. by rewrite Str.cut_suffix_app.
Qed.

(** What may be asked of upstream nameservers: the query as it came. *)
Definition to_upstream (msg : bytes) (asked : query) : Prop :=
  ∃ u, u ∈ upstreams nw ∧ (asked = QUDP u msg ∨ ∃ framed, writeFramed msg = Ok framed ∧ asked = QTCP u framed).

Lemma forwardEach_asks P askOne : (∀ u, u ∈ upstreams nw → asks_only P (askOne u)) → asks_only P (forwardEach nw askOne).
Proof.
  intros Ho. unfold forwardEach. case_bool_decide as Hne; [done|]. intros first. generalize (None : option error), 0.
  assert (0 < length (upstreams nw)) as Hc by (by destruct (upstreams nw); [|simpl; lia]).
  generalize (length (upstreams nw)) as more. induction more as [|more IH]; intros errs i; [done|]. cbn [forward_loop].
  apply asks_only_bind; [|intros [out|e]; [by intros []|apply IH]].
  apply Ho, list_elem_of_In, nth_In, Nat.mod_upper_bound. lia.
Qed.

Lemma askUDP_asks msg u : u ∈ upstreams nw → asks_only (to_upstream msg) (askUDP msg u).
Proof. intros Hu. split; [by exists u; eauto|]. by intros [[]|]. Qed.

Lemma askTCP_asks msg u : u ∈ upstreams nw → asks_only (to_upstream msg) (askTCP msg u).
Proof.
  intros Hu. unfold askTCP. destruct (writeFramed msg) as [framed|e] eqn:E; [|done].
  split; [by exists u; eauto|]. by intros [|].
Qed.


End Own.

(** ** One server for each network *)

Section Network.

Context (unicodeToLower : string → string) (DefaultNameservers : list string).

Abbreviation networkOf := (networkOf unicodeToLower DefaultNameservers).
Abbreviation Serve := (Serve unicodeToLower DefaultNameservers).

(** Servers listen for the networks they are of, one for each. *)
Definition servers_ok (s : Servers) : Prop :=
  (∀ n i, servers s !! n = Some i → i ∈ open s ∧ ∃ nw, made s !! i = Some nw ∧ name nw = n ∧ domain nw = ToLower unicodeToLower n) ∧
  (∀ i, i ∈ open s → ∃ nw, made s !! i = Some nw ∧ servers s !! name nw = Some i).

(** What listens for a network. *)
Definition serving (s : Servers) (nw : servedNetwork) : Prop :=
  ∃ i, servers s !! name nw = Some i ∧ made s !! i = Some nw ∧ i ∈ open s.

Definition unserved (s : Servers) (n : string) : Prop :=
  servers s !! n = None ∧ ∀ i nw, i ∈ open s → made s !! i = Some nw → name nw ≠ n.

Lemma sameNetwork_eq a b :
  domain a = ToLower unicodeToLower (name a) → domain b = ToLower unicodeToLower (name b) → sameNetwork a b = true ↔ a = b.
Proof.
  intros Ha Hb. unfold sameNetwork. rewrite !andb_true_iff, !bool_decide_eq_true, !eqb_true_iff. split.
  - destruct a, b. simpl in *. intros [[[[[-> ->] ->] ->] ->] ->]. by rewrite Ha, Hb.
  - by intros ->.
Qed.

Lemma networkOf_names nw n : networkOf nw = Ok n → name n = Network.Name nw ∧ domain n = ToLower unicodeToLower (name n).
Proof. unfold Dns.networkOf. destruct (ParsePrefix (Network.Subnet nw)), (ParseAddr (Network.Gateway nw)); try done. by intros [= <-]. Qed.

(** A network's server is taken from the others and closed. *)
Definition without (s : Servers) (n : string) : Servers :=
  mkServers (made s) (if servers s !! n is Some i then open s ∖ {[i]} else open s) (delete n (servers s)).

Lemma without_ok s n : servers_ok s → servers_ok (without s n) ∧ unserved (without s n) n.
Proof.
  intros [H1 H2].
  assert (∀ i, i ∈ (if servers s !! n is Some j then open s ∖ {[j]} else open s) →
    i ∈ open s ∧ servers s !! n ≠ Some i) as Hopen.
  { intros i Hi. destruct (servers s !! n) as [j|] eqn:E; [|done]. split; [set_solver|]. intros [= ->]. set_solver. }
  split; [split|split]; simpl.
  - intros m i [Hne Hm]%lookup_delete_Some. destruct (H1 m i Hm) as (Ho & nw & Hnw & En & Ed). split; [|by eauto].
    destruct (servers s !! n) as [j|] eqn:E; [|done]. apply elem_of_difference. split; [done|].
    intros ->%elem_of_singleton. destruct (H1 n j E) as (_ & nw' & Hnw' & En' & _). congruence.
  - intros i Hi. destruct (Hopen i Hi) as [Ho Hno]. destruct (H2 i Ho) as (nw & Hnw & Hs). exists nw. split; [done|].
    apply lookup_delete_Some. split; [|done]. intros ->. done.
  - apply lookup_delete_eq.
  - intros i nw Hi Hnw <-. destruct (Hopen i Hi) as [Ho Hno]. destruct (H2 i Ho) as (nw' & Hnw' & Hs). congruence.
Qed.

Lemma with_server_ok s nw :
  servers_ok s → unserved s (name nw) → domain nw = ToLower unicodeToLower (name nw) →
  let s' := mkServers (made s ++ [nw]) ({[length (made s)]} ∪ open s) (<[name nw := length (made s)]> (servers s)) in
  servers_ok s' ∧ serving s' nw.
Proof.
  intros [H1 H2] [Hn Ho] Hd s'. assert (made s' !! length (made s) = Some nw) as Hnew by (simpl; by apply list_lookup_middle).
  split; [split|]; simpl.
  - intros m i [[<- <-]|[Hne Hm]]%lookup_insert_Some; [split; [set_solver|by eauto]|].
    destruct (H1 m i Hm) as (Hi & nw' & Hnw' & ? & ?). split; [set_solver|]. exists nw'. split; [by apply lookup_app_l_Some|done].
  - intros i [->%elem_of_singleton|Hi]%elem_of_union; [exists nw; split; [done|apply lookup_insert_eq]|].
    destruct (H2 i Hi) as (nw' & Hnw' & Hs). exists nw'. split; [by apply lookup_app_l_Some|].
    rewrite lookup_insert_ne; [done|]. intros E. symmetry in E. by apply (Ho i nw' Hi Hnw').
  - exists (length (made s)). split_and!; [apply lookup_insert_eq|done|set_solver].
Qed.

Lemma run_replaced want s (Q : unit + option nat → gset unit → Servers → Prop) :
  servers_ok s → domain want = ToLower unicodeToLower (name want) →
  (serving s want → Q (inl tt) ∅ s) →
  (¬ serving s want → Q (inr (servers s !! name want)) ∅ (with_servers s (delete (name want) (servers s)))) →
  run (replaced want) ∅ s Q.
Proof.
  intros [H1 _] Hd Hsame Hother. apply run_with_lock; [set_solver|]. apply run_bind. cbn [run gets atomically].
  assert (({[()]} ∪ ∅) ∖ {[()]} = (∅ : gset unit)) as EL by set_solver.
  destruct (servers s !! name want) as [i|] eqn:Es.
  - destruct (H1 _ _ Es) as (Ho & nw & Hnw & En & Ed). unfold server_of. rewrite Es. cbn. rewrite Hnw. cbn.
    destruct (sameNetwork nw want) eqn:E; cbn; rewrite EL.
    + apply Hsame. apply sameNetwork_eq in E as ->; [|congruence|done]. by exists i.
    + apply Hother. intros (j & Hj & Hm & _). rewrite Es in Hj. injection Hj as <-. rewrite Hnw in Hm. injection Hm as ->.
      assert (sameNetwork want want = true) by by apply sameNetwork_eq. congruence.
  - unfold server_of. rewrite Es. cbn. rewrite EL. apply Hother. intros (j & Hj & _). congruence.
Qed.

Lemma run_Serve s nw : servers_ok s → run (Serve nw) ∅ s (λ res L s', L = ∅ ∧ servers_ok s' ∧
     match res, networkOf nw with
     | Ok _, Ok n => serving s' n ∧ (serving s n → s' = s)
     | Err _, Ok n => unserved s' (Network.Name nw)
     | Err e, Err e' => e = e' ∧ s' = s
     | Ok _, Err _ => False
     end).
Proof.
  intros Hs. unfold Dns.Serve. destruct (networkOf nw) as [want|e] eqn:Ew; [|done]. apply networkOf_names in Ew as [En Ed].
  refine (_ : run (replaced want ≫= _) ∅ s _). apply run_bind, run_replaced; [done..| |].
  - intros Hserving. done.
  - intros Hno. destruct (without_ok s (name want) Hs) as [Hok Hun].
    apply run_bind. apply (run_mono _ _ _ (λ _ L s', L = ∅ ∧ s' = without s (name want))).
    2:{ unfold without, with_servers, with_open. destruct (servers s !! name want); done. }
    intros [] L s' [-> ->]. intros [e|]; [split_and!; [done..|]; by rewrite <-En|]. cbn. split; [set_solver|].
    destruct (with_server_ok (without s (name want)) want Hok Hun Ed) as [Hok' Hserv]. rewrite <-En.
    split; [set_solver|]. split; [exact Hok'|]. split; [exact Hserv|done].
Qed.

Lemma run_Stop s n : servers_ok s →
  run (Stop n) ∅ s (λ _ L s', L = ∅ ∧ servers_ok s' ∧ unserved s' n ∧ ∀ nw, name nw ≠ n → serving s nw → serving s' nw).
Proof.
  intros Hs. destruct (without_ok s n Hs) as [Hok Hun]. destruct Hs as [H1 H2].
  apply run_bind, run_with_lock; [set_solver|]. cbn. replace (({[()]} ∪ ∅) ∖ {[()]}) with (∅ : gset unit) by set_solver.
  apply (run_mono _ _ _ (λ _ L s', L = ∅ ∧ s' = without s n)).
  2:{ unfold without, with_servers, with_open. destruct (servers s !! n); done. }
  intros [] L s' [-> ->]. split_and!; [done..|]. intros nw Hne (i & Hi & Hm & Ho). exists i. simpl.
  rewrite lookup_delete_ne by done. split_and!; [done..|]. destruct (servers s !! n) as [j|] eqn:E; [|done].
  apply elem_of_difference. split; [done|]. intros ->%elem_of_singleton. destruct (H1 n j E) as (_ & nw' & Hnw' & <- & _). congruence.
Qed.

Lemma run_close_all l s (Q : unit → gset unit → Servers → Prop) L :
  Q tt L (with_open s (open s ∖ list_to_set l)) → run (for_all close l) L s Q.
Proof.
  revert s. induction l as [|i l IH]; intros s HQ; cbn.
  - revert HQ. cbn. rewrite difference_empty_L. by destruct s.
  - apply IH. revert HQ. unfold with_open. cbn. by rewrite difference_difference_l_L.
Qed.

Lemma run_Close s : servers_ok s → run Close ∅ s (λ _ L s', L = ∅ ∧ servers s' = ∅ ∧ open s' = ∅).
Proof.
  intros [H1 H2]. apply run_bind, run_with_lock; [set_solver|]. cbn.
  replace (({[()]} ∪ ∅) ∖ {[()]}) with (∅ : gset unit) by set_solver. apply run_close_all. cbn. split_and!; [done..|].
  apply leibniz_equiv. intros i. rewrite elem_of_difference, elem_of_list_to_set. split; [|set_solver].
  intros [Hi Hn]. destruct (H2 i Hi) as (nw & _ & Hs). destruct Hn. apply list_elem_of_fmap. exists (name nw, i).
  split; [done|]. by apply elem_of_map_to_list.
Qed.

(** C17: Each network has at most one server, whatever happens when one is
    started: a network that is served has the server it needs, which is the one it
    had if nothing about the network has changed; a network whose server could not
    be started has none. A network whose server is stopped has none, and after
    [Close] nothing listens. *)
Theorem networks_are_served_once s :
  servers_ok s →
  (∀ nw, run (Serve nw) ∅ s (λ res L s', L = ∅ ∧ servers_ok s' ∧
     match res, networkOf nw with
     | Ok _, Ok n => serving s' n ∧ (serving s n → s' = s)
     | Err _, Ok n => unserved s' (Network.Name nw)
     | Err e, Err e' => e = e' ∧ s' = s
     | Ok _, Err _ => False
     end)) ∧
  (∀ n, run (Stop n) ∅ s (λ _ L s', L = ∅ ∧ servers_ok s' ∧ unserved s' n ∧ ∀ nw, name nw ≠ n → serving s nw → serving s' nw)) ∧
  run Close ∅ s (λ _ L s', L = ∅ ∧ servers s' = ∅ ∧ open s' = ∅).
Proof. intros Hs. split_and!; [intros nw; by apply run_Serve|intros n; by apply run_Stop|by apply run_Close]. Qed.

End Network.

(** ** An example *)

(** A simple way to write messages: the ID, whether it is a response, the type and
    the class of its question, and its name. *)
Definition example_messages : Messages.
Proof.
  refine {|
    Start msg := match msg with id0 :: id1 :: r :: _ => Some (mkHeader (id0 * 256 + id1) (r =? 1)%Z 0 true) | _ => None end;
    AllQuestions msg := match msg with
      | _ :: _ :: _ :: t :: c :: rest => Some [mkQuestion (Str.of_list ((λ b, ascii_of_N (Z.to_N b)) <$> rest)) t c]
      | _ => None
      end;
    Pack m := Some [ID m / 256; ID m `mod` 256; 1; Z.of_nat (length (Answers m))]%Z;
    NewName s := if Str.len s <=? 255 then Some s else None
  |}.
  - intros s Hs. by destruct (Nat.leb_spec (Str.len s) 255); [|lia].
  - intros s Hs. by destruct (Nat.leb_spec (Str.len s) 255); [lia|].
Defined.

Definition example_served : servedNetwork :=
  mkServed "web" "web" (mkPrefix [10; 0; 0; 0]%Z 24) ([10; 0; 0; 1]%Z, []) ["9.9.9.9:53"; "8.8.8.8:53"; "1.1.1.1:53"] true false.

Definition example_query : bytes := [7; 8; 0; 1; 1]%Z ++ ((λ c, Z.of_N (N_of_ascii c)) <$> Str.to_list "example.org.").

(** Of three upstreams, the second answers, after a stray datagram. *)
Definition example_upstreams (q : query) : answer_type q :=
  match q with
  | QUDP u _ => if String.eqb u "8.8.8.8:53" then Ok ([[9; 9; 1]; [7; 8; 1]]%Z, New "timeout") else Err (New "timeout")
  | QTCP u _ => if String.eqb u "8.8.8.8:53" then Ok [0; 3; 7; 8; 1]%Z else Err (New "refused")
  | QWrite => None
  end.

Lemma forwarding_finds_who_answers_witness :
  (∃ n', exec (λ q _, example_upstreams q) (forwardUDP example_served example_query) 0 ∅ 2 = Some (Ok [7; 8; 1]%Z, 1, n')) ∧
  rotation example_served 2 ≡ₚ upstreams example_served.
Proof.
  destruct (forwarding_finds_who_answers example_served example_upstreams example_query 2 0 ∅) as (Hf & Hp & _); [done|].
  split; [|exact Hp]. destruct (Hf (forwardUDP example_served example_query) (heardUDP example_upstreams example_query)) as (e & n' & E); [left|].
  exists n'. rewrite E. reflexivity.
Defined.


Lemma networks_are_served_once_witness :
  run (Serve Str.to_lower [] (Network.mkNetwork "1" "web" "10.1.0.1" "10.1.0.0/24" "dicer-web" ["1.1.1.1"] 0 false false 0 0)) ∅
    (mkServers [] ∅ ∅) (λ _ L s', L = ∅ ∧ servers_ok Str.to_lower s').
Proof.
  destruct (networks_are_served_once Str.to_lower [] (mkServers [] ∅ ∅)) as (Hserve & _).
  { split; [intros n i; cbn; by rewrite lookup_empty|cbn; set_solver]. }
  eapply run_mono; [|apply Hserve]. by intros r L s' (? & ? & _).
Defined.

End Dns.
