(* ===== verification/Images.v ===== *)
(** * Images

    [internal/image]: the images that the host holds, by the digest of their
    manifest, each with a disk that guests boot from and its metadata beside
    it; the pulls that callers of the same image share; deleting, pruning and
    collecting what is not in use; and the layer cache of [internal/registry].
    The index and the table of pulls have a mutex each, and a file has none: an
    operation is a program of [Conc], whose steps are those of the index, the
    table and the file system. *)

From S2P Require Import Prelude Paths Errdefs Health Conc.

Module Images.
Open Scope prog_scope.
Open Scope Z_scope.

(** ** Data ([image.go], [gc.go]) *)

Record Image := mkImage {
  Name : string;
  Digest : string;
  DiskPath : string;
  SizeBytes : Z;
  Entrypoint : list string;
  Cmd : list string;
  Env : gmap string string;
  WorkingDir : string;
  User : string;
  HealthCheck : option Health.Check;
  CreatedAt : Z;
  UpdatedAt : Z;
  LastUsedAt : Z;
}.

#[global] Instance Image_eq_dec : EqDecision Image.
Proof. solve_decision. Defined.

Definition set_LastUsedAt (i : Image) (at_ : Z) : Image :=
  mkImage (Name i) (Digest i) (DiskPath i) (SizeBytes i) (Entrypoint i) (Cmd i) (Env i) (WorkingDir i) (User i)
    (HealthCheck i) (CreatedAt i) (UpdatedAt i) at_.

Inductive PullPolicy := PullPolicyMissing | PullPolicyAlways | PullPolicyNever.

(** What is in use, by digest, each with what uses it. *)
Abbreviation InUse := (gmap string string).

Record GCPolicy := mkGCPolicy { MaxUnusedAge : Z; MaxSize : Z }.

Inductive GCReason := GCReasonUnused | GCReasonSize.

#[global] Instance GCReason_eq_dec : EqDecision GCReason.
Proof. solve_decision. Defined.

Record GCRemoval := mkGCRemoval { GCRemoval_Image : Image; Reason : GCReason }.

Record GCResult := mkGCResult { Removed : list GCRemoval; GCReclaimedBytes : Z }.

Record PruneResult := mkPruneResult { PrunedImages : list Image; ReclaimedBytes : Z }.

Definition gcGracePeriod : Z := 10 * 60 * second.

(** The order images are collected in. *)
Definition used_le (a b : Image) : Prop :=
  LastUsedAt a < LastUsedAt b ∨ LastUsedAt a = LastUsedAt b ∧ String.le (Digest a) (Digest b).

#[global] Instance used_le_dec a b : Decision (used_le a b).
Proof. unfold used_le. apply _. Defined.

(** An image that garbage collection may remove. *)
Definition collectable (inUse : InUse) (now : Z) (i : Image) : bool :=
  bool_decide (inUse !! Digest i = None) && negb (time_sub now (LastUsedAt i) <? gcGracePeriod).

Definition collectableImages (images : list Image) (inUse : InUse) (now : Z) : list Image :=
  merge_sort used_le (List.filter (collectable inUse now) images).

Definition expiredImages (p : GCPolicy) (images : list Image) (inUse : InUse) (now : Z) : list Image :=
  if MaxUnusedAge p <=? 0 then []
  else List.filter (λ i, MaxUnusedAge p <? time_sub now (LastUsedAt i)) (collectableImages images inUse now).

(** ** Digests and references ([files.go], [reference]) *)

(** The hex part of a digest, or all of one that has no algorithm. *)
Definition digestHex (digest : string) : string := default digest (Str.cut ":" digest).2.

(** The algorithms that [go-digest] has, and how long their digests are. *)
Definition algorithms : list (string * nat) := [("sha256", 64); ("sha384", 96); ("sha512", 128)]%nat.

(** A digest that [go-digest] parses, as far as its parts go. *)
Definition valid (d : string) : Prop :=
  List.Exists (λ '(algorithm, len), d = algorithm +:+ ":" +:+ digestHex d ∧ Str.len (digestHex d) = len) algorithms.

#[global] Instance valid_dec d : Decision (valid d).
Proof. unfold valid. apply Exists_dec. intros []. apply _. Defined.

(** What a parsed reference has of its own ([distribution/reference]): its
    domain and path, its digest if it has one, and how it is written, as it is
    and with the tag that it has or is given. *)
Record Named := mkNamed {
  Domain : string;
  NamedPath : string;
  Canonical : option string;
  AsIs : string;
  Tagged : string;
}.

Record Ref := mkRef { normalised : string; repository : string; digest : string }.

Record ResolvedRef := mkResolvedRef { ref : Ref; resolvedDigest : string }.

Definition DigestHex (r : ResolvedRef) : string := default "" (Str.cut ":" (resolvedDigest r)).2.

Section Parse.

Context (ParseNormalizedNamed : string → result Named).

Definition Parse (s : string) : result Ref :=
  named ← ParseNormalizedNamed s;
  let repository := Domain named +:+ "/" +:+ NamedPath named in
  Ok match Canonical named with
     | Some d => mkRef (AsIs named) repository d
     | None => mkRef (Tagged named) repository ""
     end.

End Parse.

Definition HasDigest (r : Ref) : bool := negb (bool_decide (digest r = "")).

(** ** Why a pull failed ([errors.go]) *)

(** An error of a registry, with the status of the answer it is about, if it
    is about one. Whether it is about credentials or the network changes the
    message alone, which is not kept. *)
Record Cause := mkCause { status : option Z; cause : error }.

Definition describe (c : Cause) : sentinel :=
  match status c with
  | Some 404 | Some 401 | Some 403 => ErrNotFound
  | Some 429 => ErrUnavailable
  | _ => ErrUnavailable
  end.

(** A [PullError], which unwraps to its cause and its class. *)
Definition PullError (c : Cause) : error := Classified (describe c) (cause c).

(** ** What an image declares ([health_check.go], [registry/client.go]) *)

Record HealthConfig := mkHealthConfig { Test_ : list string; Interval : Z; Timeout_ : Z; StartPeriod : Z; Retries : Z }.

Definition healthCheckFromDocker (hc : option HealthConfig) : result (option Health.Check) :=
  match hc with
  | None => Ok None
  | Some hc =>
      let check exec := Health.mkCheck exec None None (Interval hc) (Timeout_ hc) (StartPeriod hc) (Retries hc) false in
      let valid c := match Health.Validate c with Ok _ => Ok (Some c) | Err e => Err (Errorf "HEALTHCHECK: %w" e) end in
      match Test_ hc with
      | [] => Ok None
      | "NONE" :: _ => Ok (Some (Health.mkCheck [] None None 0 0 0 0 true))
      | "CMD" :: args => valid (check args)
      | ["CMD-SHELL"; arg] => valid (check ["/bin/sh"; "-c"; arg])
      | "CMD-SHELL" :: _ => Err (New "HEALTHCHECK CMD-SHELL takes one command, not %d")
      | _ => Err (New "unsupported HEALTHCHECK test %q")
      end
  end.

(** An image's configuration, as it is in its manifest. *)
Record ConfigFile := mkConfigFile {
  Config_Entrypoint : list string;
  Config_Cmd : list string;
  Config_Env : list string;
  Config_WorkingDir : string;
  Config_User : string;
  Config_Healthcheck : option HealthConfig;
}.

Definition parseEnv (l : list string) : gmap string string :=
  foldl (λ env variable, let '(key, value) := Str.cut "=" variable in <[key := default "" value]> env) ∅ l.

(** ** The index ([index.go]) *)

Abbreviation index_t := (gmap string Image).

Definition index_get (x : index_t) (digest : string) : option Image := x !! digest.

(** The images, in an order that Go leaves open. *)
Definition index_list (x : index_t) : list Image := (map_to_list x).*2.

Definition index_latestByName (x : index_t) (name : string) : option Image :=
  foldl (λ found i,
    if bool_decide (Name i = name) && match found with None => true | Some f => CreatedAt f <? CreatedAt i end
    then Some i else found) None (index_list x).

Definition index_create (x : index_t) (i : Image) : result unit * index_t :=
  match x !! Digest i with
  | Some _ => (Err (Sentinel ErrExists), x)
  | None => (Ok tt, <[Digest i := i]> x)
  end.

Definition index_markUsed (x : index_t) (digest : string) (at_ : Z) : option Image * index_t :=
  match x !! digest with
  | Some i =>
      if LastUsedAt i <? at_ then
        let updated := set_LastUsedAt i at_ in (Some updated, <[digest := updated]> x)
      else (None, x)
  | None => (None, x)
  end.

Definition index_delete (x : index_t) (digest : string) : result unit * index_t :=
  match x !! digest with
  | None => (Err (Sentinel ErrNotFound), x)
  | Some _ => (Ok tt, delete digest x)
  end.

(** ** The layer cache ([registry/cache.go]) *)

(** The images in the cache's index, by the hex of their digests, each with
    the blobs it is made of; and the blobs, with their sizes. *)
Record Cache := mkCache { manifests : list (string * list string); blobs : gmap string Z }.

(** What comes of pruning: there is no layout; or it is not read; or the index
    is not written any more after so many images are dropped; or the blobs are
    not read; or all of it is done but for the blobs that cannot be removed. *)
Inductive Pruning :=
  | NoLayout
  | NotRead (e : error)
  | NotDropped (n : nat) (e : error)
  | NotSwept (e : error)
  | Pruned (stuck : gset string).

Definition isCached (c : Cache) (hex : string) : bool := bool_decide (hex ∈ (manifests c).*1).

Definition sum_sizes (l : list Z) : Z := foldr Z.add 0 l.

(** [sweepBlobs]: what is removed is what is not reachable, and can be. *)
Definition sweepBlobs (stuck reachable : gset string) (c : Cache) : Z * Cache :=
  let gone := filter (λ '(hex, _), (hex ∉ reachable) ∧ (hex ∉ stuck)) (blobs c) in
  (sum_sizes (map_to_list gone).*2, mkCache (manifests c) (blobs c ∖ gone)).

Definition PruneCache (p : Pruning) (keep : list string) (c : Cache) : result Z * Cache :=
  let kept := List.filter (λ m, bool_decide (m.1 ∈ keep)) (manifests c) in
  let dropped := List.filter (λ m, negb (bool_decide (m.1 ∈ keep))) (manifests c) in
  match p with
  | NoLayout => (Ok 0, c)
  | NotRead e => (Err e, c)
  | NotDropped n e =>
      (* The first [n] are dropped. *)
      let gone := firstn n dropped in
      (if bool_decide (dropped = []) then Ok 0 else Err (Errorf "remove index entry %s: %w" e),
       mkCache (List.filter (λ m, negb (bool_decide (m ∈ gone))) (manifests c)) (blobs c))
  | NotSwept e => if bool_decide (dropped = []) then (Ok 0, c) else (Err (Errorf "read blobs: %w" e), mkCache kept (blobs c))
  | Pruned stuck =>
      if bool_decide (dropped = []) then (Ok 0, c)
      else
        let '(n, c) := sweepBlobs stuck (list_to_set (kept ≫= snd)) (mkCache kept (blobs c)) in
        (Ok n, c)
  end.

(** ** The state *)

(** A disk as a pull leaves it, or as one does that is not through. *)
Inductive Disk := Incomplete | Whole.

#[global] Instance Disk_eq_dec : EqDecision Disk.
Proof. solve_decision. Defined.

(** An image's directory. *)
Record ImageDir := mkImageDir { disk : option Disk; metadata : option Image }.

(** A pull: what is pulled, what came of it, whether it is done, whether its
    context is cancelled, and who waits. [callers] are those that wait, of
    which the code keeps the number only. *)
Record pull := mkPull {
  resolved : ResolvedRef;
  pulled : option (result Image);
  finished : bool;
  cancelled : bool;
  waiters : Z;
  abandoned : bool;
  callers : gset nat;
}.

Record Event := mkEvent { Event_Name : string; Event_Action : string; Event_Digest : string }.

(** [pulls] are the numbers of the pulls under way, by digest, and [started]
    is every pull. [spoiled] are the directories that were removed beside a
    pull or an image that has them, or that once had metadata and no whole
    disk; no code reads it. *)
Record World := mkWorld {
  index : index_t;
  dirs : gmap string ImageDir;
  unpacked : gset string;
  cache : Cache;
  pulls : gmap string nat;
  started : list pull;
  slots : Z;
  events : list Event;
  spoiled : gset string;
}.

Definition set_index (w : World) v :=
  mkWorld v (dirs w) (unpacked w) (cache w) (pulls w) (started w) (slots w) (events w) (spoiled w).

Definition set_unpacked (w : World) v :=
  mkWorld (index w) (dirs w) v (cache w) (pulls w) (started w) (slots w) (events w) (spoiled w).

Definition set_cache (w : World) v :=
  mkWorld (index w) (dirs w) (unpacked w) v (pulls w) (started w) (slots w) (events w) (spoiled w).

Definition set_pulls (w : World) v s :=
  mkWorld (index w) (dirs w) (unpacked w) (cache w) v s (slots w) (events w) (spoiled w).

Definition set_slots (w : World) v :=
  mkWorld (index w) (dirs w) (unpacked w) (cache w) (pulls w) (started w) v (events w) (spoiled w).

Definition set_events (w : World) v :=
  mkWorld (index w) (dirs w) (unpacked w) (cache w) (pulls w) (started w) (slots w) v (spoiled w).

Definition set_dirs (w : World) v s :=
  mkWorld (index w) v (unpacked w) (cache w) (pulls w) (started w) (slots w) (events w) s.

(** Metadata that vouches for a disk that is not whole. *)
Definition vouches (d : ImageDir) : bool := bool_decide (is_Some (metadata d)) && bool_decide (disk d ≠ Some Whole).

(** A directory as it now is. *)
Definition put_dir (w : World) (hex : string) (d : ImageDir) : World :=
  set_dirs w (<[hex := d]> (dirs w)) (if vouches d then {[hex]} ∪ spoiled w else spoiled w).

(** The index has an image in that directory, or there is a pull of one. *)
Definition claimed (w : World) (hex : string) : bool :=
  existsb (λ d, bool_decide (digestHex d = hex)) (elements (dom (index w)) ++ elements (dom (pulls w))).

(** ** Questions *)

(** The time; the outcome of a file operation; which files of a directory are
    removed first, its disk and its metadata; what a registry says a reference
    is; what pulling an image comes to; the outcome of [mkfs.erofs], and the
    size of what it made; the outcomes of pruning and measuring the cache;
    whether a caller's context is done, and the error that ends it; what is in
    use. *)
Inductive query := QNow | QFile | QRemove | QResolve | QPull | QMkfs | QSize | QPrune | QCacheSize | QContext | QEnd | QInUse.

(** A pull into the cache: the blobs that the image is made of, and its
    configuration; or those that were written before an error ended it, and
    whether the image was in the cache's index by then. *)
Inductive Fetch :=
  | Fetched (blobs : list (string * Z)) (config : ConfigFile)
  | NotFetched (blobs : list (string * Z)) (indexed : bool) (c : Cause).

Definition answer (q : query) : Type :=
  match q with
  | QNow | QSize => Z
  | QFile | QMkfs | QCacheSize | QContext => option error
  | QRemove => bool * bool
  | QResolve => Cause + { d : string | valid d }
  | QPull => Fetch
  | QPrune => Pruning
  | QEnd => error
  | QInUse => result InUse
  end.

(** What a caller and a pull are started with: a number of their own. *)
Inductive lock := Caller (n : nat) | PullOf (n : nat).

#[global] Instance lock_eq_dec : EqDecision lock.
Proof. solve_decision. Defined.

#[global] Instance lock_countable : Countable lock.
Proof.
  by refine (inj_countable' (λ l, match l with Caller n => inl n | PullOf n => inr n end)
    (λ n, match n with inl n => Caller n | inr n => PullOf n end) _); intros [].
Defined.

Abbreviation M := (prog (S:=World) (answer:=answer) (lock:=lock)).

(** A file operation that changes nothing the model has. *)
Definition attempt : M (result unit) := e ← ask QFile; mret (if e is Some e then Err e else Ok tt).

(** A step of the index. *)
Definition on_index {A} (f : index_t → A * index_t) : M A :=
  atomically (λ w, let '(a, x) := f (index w) in (a, set_index w x)).

Definition record (i : Image) (action : string) : M unit :=
  modify (λ w, set_events w (events w ++ [mkEvent (Name i) action (Digest i)])).

(** ** The files of an image ([files.go]) *)

Definition saveMetadata (hex : string) (i : Image) : M (result unit) :=
  e ← ask QFile;
  match e with
  | Some e => mret (Err e)
  | None =>
      atomically (λ w,
        match dirs w !! hex with
        | None => (Err (Sentinel ErrNotExist), w)
        | Some d => (Ok tt, put_dir w hex (mkImageDir (disk d) (Some i)))
        end)
  end.

Definition loadMetadata (hex : string) : M (result Image) :=
  wrapping "read metadata file: %w" attempt ?;
  gets (λ w, match dirs w !! hex ≫= metadata with Some i => Ok i | None => Err (Sentinel ErrNotExist) end).

Definition diskExists (hex : string) : M bool :=
  read ← attempt;
  gets (λ w, is_ok read && bool_decide (is_Some (dirs w !! hex ≫= disk))).

(** [os.MkdirAll] *)
Definition ensureImageDir (hex : string) : M (result unit) :=
  attempt ?;
  atomically (λ w, (Ok tt, if dirs w !! hex is Some _ then w else put_dir w hex (mkImageDir None None))).

Definition ensureRootfsDir (hex : string) : M (result unit) :=
  attempt ?;
  atomically (λ w, (Ok tt, set_unpacked w ({[hex]} ∪ unpacked w))).

Definition removeUnpackDir (hex : string) : M (result unit) :=
  attempt ?;
  atomically (λ w, (Ok tt, set_unpacked w (unpacked w ∖ {[hex]}))).

(** What a removal does to a directory. [own] is whether it is the removal of
    the pull that the directory belongs to. *)
Definition remove_from (own : bool) (hex : string) (f : ImageDir → option ImageDir) (w : World) : World :=
  match dirs w !! hex with
  | None => w
  | Some d =>
      let w := if negb own && claimed w hex then set_dirs w (dirs w) ({[hex]} ∪ spoiled w) else w in
      match f d with
      | None => set_dirs w (delete hex (dirs w)) (spoiled w)
      | Some d => put_dir w hex d
      end
  end.

(** [os.RemoveAll] of an image's directory: some of it goes first, and then
    the rest, or an error ends it. *)
Definition removeAll (own : bool) (hex : string) : M (result unit) :=
  '(noDisk, noMetadata) ← ask QRemove;
  modify (remove_from own hex (λ d,
    Some (mkImageDir (if noDisk : bool then None else disk d) (if noMetadata : bool then None else metadata d)))) ≫= λ _,
  attempt ?;
  modify (remove_from own hex (λ _, None)) ≫= λ _,
  mret (Ok tt).

Definition deleteFiles (own : bool) (hex : string) : M (result unit) :=
  wrapping "remove image directory: %w" (removeAll own hex) ?;
  ignoring (removeUnpackDir hex) ≫= λ _,
  mret (Ok tt).

(** ** The registry ([registry/client.go]) *)

(** [PullAndExport]: what is fetched is in the cache, and is unpacked. *)
Definition PullAndExport (d : string) : M (Cause + ConfigFile) :=
  match (Str.cut ":" d).2 with
  | None | Some "" => mret (inl (mkCause None (New "invalid digest %q")))
  | Some hex =>
      fetch ← ask QPull;
      atomically (λ w,
        let fetched (bs : list (string * Z)) (indexed : bool) :=
          if isCached (cache w) hex then w
          else set_cache w (mkCache (manifests (cache w) ++ if indexed then [(hex, hex :: bs.*1)] else [])
                                    (blobs (cache w) ∪ list_to_map bs)) in
        match fetch with
        | Fetched bs config => (inr config, fetched bs true)
        | NotFetched bs indexed c => (inl c, fetched bs indexed)
        end)
  end.

(** ** Pulling ([manager.go]) *)

Section Manager.

(** Where images are kept; how many may be pulled at once; how a reference is
    parsed; and how often a caller that waits looks again before its context
    is done. *)
Context (dataDir : string) (maxConcurrentPulls : Z) (ParseNormalizedNamed : string → result Named) (rounds : nat).

Definition diskPath (hex : string) : string := Path.Join [Path.Join [Path.Join [dataDir; "images"]; hex]; "disk.img"].

(** [Pack] of [erofs]: the disk is made in its place, and is not whole until
    [mkfs.erofs] is through. *)
Definition Pack (hex : string) : M (result Z) :=
  wrapping "create output directory: %w" (ensureImageDir hex) ?;
  atomically (λ w,
    match dirs w !! hex with
    | None => (Err (Sentinel ErrNotExist), w)
    | Some d => (Ok tt, put_dir w hex (mkImageDir (Some Incomplete) (metadata d)))
    end) ?;
  made ← ask QMkfs;
  match made with
  | Some e => mret (Err (Errorf "mkfs.erofs: %w: %s" e))
  | None =>
      modify (λ w,
        match dirs w !! hex with
        | Some (mkImageDir (Some Incomplete) m) => put_dir w hex (mkImageDir (Some Whole) m)
        | _ => w
        end) ≫= λ _,
      stat ← diskExists hex;
      size ← ask QSize;
      mret (if stat : bool then Ok size else Err (Errorf "stat output: %w" (Sentinel ErrNotExist)))
  end.

Definition discardFailedPull (hex : string) (e : error) : M (result unit) :=
  ignoring (deleteFiles true hex) ≫= λ _, mret (Err e).

Definition pullFromRegistry (r : ResolvedRef) : M (result unit) :=
  let d := resolvedDigest r in
  let hex := DigestHex r in
  made ← ensureImageDir hex;
  match made with
  | Err e => discardFailedPull hex e
  | Ok _ =>
      made ← ensureRootfsDir hex;
      match made with
      | Err e => discardFailedPull hex e
      | Ok _ =>
          deferred (ignoring (removeUnpackDir hex)) (
            fetched ← PullAndExport d;
            match fetched with
            | inl c => discardFailedPull hex (PullError c)
            | inr config =>
                packed ← Pack hex;
                match packed with
                | Err e => discardFailedPull hex (Errorf "convert image %s to %s: %v" e)
                | Ok sizeBytes =>
                    now ← ask QNow;
                    let check := match healthCheckFromDocker (Config_Healthcheck config) with Ok c => c | Err _ => None end in
                    let i := mkImage (normalised (ref r)) d (diskPath hex) sizeBytes (Config_Entrypoint config)
                      (Config_Cmd config) (parseEnv (Config_Env config)) (Config_WorkingDir config) (Config_User config)
                      check now now now in
                    created ← on_index (λ x, index_create x i);
                    match created with
                    | Err e => if Is e ErrExists then mret (Ok tt) else mret (Err e)
                    | Ok _ => mret (Ok tt)
                    end ?;
                    ignoring (saveMetadata hex i) ≫= λ _,
                    record i "pulled" ≫= λ _,
                    mret (Ok tt)
                end
            end)
      end
  end.

(** Whether the disk is there that metadata names: its own, or one that the
    model does not have. *)
Definition loadFromDisk (hex : string) : M (result Image) :=
  i ←? wrapping "load metadata: %w" (loadMetadata hex);
  stat ← (if decide (DiskPath i = diskPath hex) then diskExists hex else e ← ask QFile; mret (if e is Some _ then false else true));
  mret (if stat : bool then Ok i else Err (Errorf "disk file missing: %w" (Sentinel ErrNotExist))).

(** [Acquire] of a semaphore, for as long as the context allows. *)
Fixpoint acquireSlot (n : nat) : M (result unit) :=
  match n with
  | O => e ← ask QEnd; mret (Err e)
  | S n =>
      taken ← atomically (λ w, if slots w <? maxConcurrentPulls then (true, set_slots w (slots w + 1)) else (false, w));
      if taken : bool then mret (Ok tt)
      else
        gone ← ask QContext;
        match gone with
        | Some e => mret (Err e)
        | None => acquireSlot n
        end
  end.

Definition releaseSlot : M unit := modify (λ w, set_slots w (slots w - 1)).

Definition loadOrPull (r : ResolvedRef) : M (result Image) :=
  let d := resolvedDigest r in
  let hex := DigestHex r in
  let fetch :=
    acquireSlot rounds ?;
    deferred releaseSlot (
      pullFromRegistry r ?;
      found ← gets (λ w, index_get (index w) d);
      mret (if found is Some i then Ok i else Err (NotFound "no image %s"))) in
  found ← gets (λ w, index_get (index w) d);
  match found with
  | Some i => mret (Ok i)
  | None =>
      exists_ ← diskExists hex;
      if exists_ : bool then
        loaded ← loadFromDisk hex;
        match loaded with
        | Err _ => fetch
        | Ok i =>
            now ← ask QNow;
            let i := set_LastUsedAt i now in
            created ← on_index (λ x, index_create x i);
            match created with
            | Ok _ => mret (Ok i)
            | Err e => if Is e ErrExists then mret (Ok i) else fetch
            end
        end
      else fetch
  end.

(** ** Shared pulls ([pull.go]) *)

Definition alter_pull (w : World) (n : nat) (f : pull → pull) : World := set_pulls w (pulls w) (alter f n (started w)).

Definition set_pulled (r : result Image) (p : pull) : pull :=
  mkPull (resolved p) (Some r) (finished p) (cancelled p) (waiters p) (abandoned p) (callers p).

Definition set_finished (p : pull) : pull :=
  mkPull (resolved p) (pulled p) true true (waiters p) (abandoned p) (callers p).

Definition join_pull (c : nat) (p : pull) : pull :=
  mkPull (resolved p) (pulled p) (finished p) (cancelled p) (waiters p + 1) (abandoned p) ({[c]} ∪ callers p).

(** [leavePull] of the caller [c]. *)
Definition leave_pull (c : nat) (p : pull) : pull :=
  let last := waiters p - 1 =? 0 in
  mkPull (resolved p) (pulled p) (finished p) (cancelled p || last) (waiters p - 1) (abandoned p || last) (callers p ∖ {[c]}).

(** The goroutine of the pull [n], which [startPull] starts. *)
Definition runPull (n : nat) (r : ResolvedRef) : M unit :=
  result ← loadOrPull r;
  modify (λ w, alter_pull w n (set_pulled result)) ≫= λ _,
  modify (λ w, set_pulls w (delete (resolvedDigest r) (pulls w)) (started w)) ≫= λ _,
  modify (λ w, alter_pull w n set_finished).

(** What a caller does to the table, under its mutex: it finds a pull that
    everyone gave up on, or joins the one under way, or one that it starts. *)
Definition join (c : nat) (r : ResolvedRef) (w : World) : (nat + nat) * World :=
  let d := resolvedDigest r in
  match pulls w !! d with
  | Some n =>
      if default false (abandoned <$> started w !! n) then (inl n, w)
      else (inr n, alter_pull w n (join_pull c))
  | None =>
      let n := length (started w) in
      (inr n, set_pulls w (<[d := n]> (pulls w)) (started w ++ [mkPull r None false false 1 false {[c]}]))
  end.

Definition leavePull (c n : nat) : M unit := modify (λ w, alter_pull w n (leave_pull c)).

(** Waiting for a pull to be done, for as long as the context allows. *)
Fixpoint awaitPull (k n : nat) : M (result unit) :=
  match k with
  | O => e ← ask QEnd; mret (Err e)
  | S k =>
      gone ← ask QContext;
      match gone with
      | Some e => mret (Err e)
      | None =>
          done ← gets (λ w, default false (finished <$> started w !! n));
          if done : bool then mret (Ok tt) else awaitPull k n
      end
  end.

Fixpoint sharedPull (k c : nat) (r : ResolvedRef) : M (result Image) :=
  match k with
  | O => e ← ask QEnd; mret (Err e)
  | S k =>
      joined ← atomically (join c r);
      match joined with
      | inl n => awaitPull rounds n ?; sharedPull k c r
      | inr n =>
          done ← awaitPull rounds n;
          match done with
          | Err e => leavePull c n ≫= λ _, mret (Err e)
          | Ok _ => gets (λ w, default (Err (New "")) (started w !! n ≫= pulled))
          end
      end
  end.

(** ** Finding and pulling images *)

(** [markUsed] *)
Definition markUsed (d : string) (at_ : Z) : M unit :=
  updated ← on_index (λ x, index_markUsed x d at_);
  match updated with
  | None => mret tt
  | Some i => ignoring (saveMetadata (digestHex d) i)
  end.

Definition parseRef (s : string) : result Ref :=
  match Parse ParseNormalizedNamed s with
  | Ok r => Ok r
  | Err e => Err (Join (Sentinel ErrInvalidReference) e)
  end.

(** [reference.Resolve]: what a registry answers is a digest. *)
Definition Resolve (r : Ref) : M (result ResolvedRef) :=
  if HasDigest r then mret (Ok (mkResolvedRef r (digest r)))
  else
    found ← ask QResolve;
    mret match found with
         | inl c => Err (PullError (mkCause (status c) (Errorf "resolve manifest: %w" (cause c))))
         | inr d => Ok (mkResolvedRef r (`d))
         end.

(** [Pull], by the caller [c]. *)
Definition Pull (c : nat) (s : string) : M (result Image) :=
  parsed ←? mret (parseRef s);
  r ←? Resolve parsed;
  found ← gets (λ w, index_get (index w) (resolvedDigest r));
  match found with
  | Some i => now ← ask QNow; markUsed (resolvedDigest r) now ≫= λ _, mret (Ok i)
  | None => sharedPull rounds c r
  end.

(** [Image] of the manager. *)
Definition find_image (s : string) (x : index_t) : result Image :=
  parsed ← parseRef s;
  match (if HasDigest parsed then index_get x (digest parsed) else index_latestByName x (normalised parsed)) with
  | Some i => Ok i
  | None => Err (NotFound "no image %q")
  end.

Definition Ensure (c : nat) (s : string) (policy : PullPolicy) : M (result Image) :=
  match policy with
  | PullPolicyAlways => Pull c s
  | _ =>
      found ← gets (λ w, find_image s (index w));
      match found with
      | Ok i => now ← ask QNow; markUsed (Digest i) now ≫= λ _, mret (Ok i)
      | Err e =>
          if Is e ErrNotFound then
            match policy with
            | PullPolicyNever => mret (Err (NotFound "image %q is not on this host, and the pull policy is never: pull it first"))
            | _ => Pull c s
            end
          else mret (Err e)
      end
  end.

(** ** Removing images ([manager.go], [prune.go]) *)

Definition Delete (s : string) (inUse : InUse) : M (result unit) :=
  i ←? gets (λ w, find_image s (index w));
  if bool_decide (is_Some (inUse !! Digest i)) then mret (Err (InvalidState "image %q is in use by %s"))
  else
    deleted ← on_index (λ x, index_delete x (Digest i));
    match deleted with
    | Err e => if Is e ErrNotFound then mret (Ok tt) else mret (Err e)
    | Ok _ => mret (Ok tt)
    end ?;
    ignoring (deleteFiles false (digestHex (Digest i))) ≫= λ _,
    record i "deleted" ≫= λ _,
    mret (Ok tt).

(** The loop of [remove]: the images that it removed. *)
Fixpoint remove_each (images : list Image) (removed : list Image) : M (list Image * option error) :=
  match images with
  | [] => mret (removed, None)
  | i :: images =>
      deleted ← on_index (λ x, index_delete x (Digest i));
      match deleted with
      | Err e => if Is e ErrNotFound then remove_each images removed else mret (removed, Some e)
      | Ok _ =>
          gone ← deleteFiles false (digestHex (Digest i));
          remove_each images (if is_ok gone then removed ++ [i] else removed)
      end
  end.

(** The cache is pruned of all but what the index has. *)
Definition remaining (w : World) : list string := (λ i, digestHex (Digest i)) <$> index_list (index w).

Definition pruneOthers : M (result Z) :=
  keep ← gets remaining;
  pruning ← ask QPrune;
  atomically (λ w, let '(r, c) := PruneCache pruning keep (cache w) in (r, set_cache w c)).

Definition remove (images : list Image) : M (PruneResult * option error) :=
  remove_each images [] ≫= λ '((removed, failed) : list Image * option error),
  let result := mkPruneResult removed (sum_sizes (SizeBytes <$> removed)) in
  match failed with
  | Some e => mret (result, Some e)
  | None =>
      pruneOthers ≫= λ reclaimed,
      match reclaimed with
      | Err e => mret (result, Some (Errorf "prune layer cache: %w" e))
      | Ok n => mret (mkPruneResult removed (ReclaimedBytes result + n), None)
      end
  end.

Definition Prune (inUse : InUse) : M (PruneResult * option error) :=
  unused ← gets (λ w, List.filter (λ i, bool_decide (inUse !! Digest i = None)) (index_list (index w)));
  remove unused ≫= λ '((result, err) : PruneResult * option error),
  for_all (λ i, record i "deleted") (PrunedImages result) ≫= λ _,
  mret (result, err).

(** ** Garbage collection ([gc.go]) *)

Definition collect (images : list Image) (reason : GCReason) (result : GCResult) : M (GCResult * option error) :=
  match images with
  | [] => mret (result, None)
  | _ =>
      remove images ≫= λ '((removed, err) : PruneResult * option error),
      for_all (λ i, record i "collected") (PrunedImages removed) ≫= λ _,
      mret (mkGCResult (Removed result ++ ((λ i, mkGCRemoval i reason) <$> PrunedImages removed))
                       (GCReclaimedBytes result + ReclaimedBytes removed), err)
  end.

(** What the files of the layer cache take besides its blobs. *)
Context (layoutBytes : list (string * list string) → Z).

Definition CacheSize (c : Cache) : Z := layoutBytes (manifests c) + sum_sizes (map_to_list (blobs c)).*2.

Definition totalSize (w : World) : Z := foldl (λ total i, total + SizeBytes i) (CacheSize (cache w)) (index_list (index w)).

Definition storeSize : M (result Z) :=
  failed ← ask QCacheSize;
  match failed with
  | Some e => mret (Err (Errorf "measure layer cache: %w" e))
  | None =>
      cached ← gets (λ w, CacheSize (cache w));
      gets (λ w, Ok (foldl (λ total i, total + SizeBytes i) cached (index_list (index w))))
  end.

(** The loop of [CollectGarbage] over what may be removed for its size. *)
Fixpoint collect_over (p : GCPolicy) (images : list Image) (result : GCResult) : M (GCResult * option error) :=
  match images with
  | [] => mret (result, None)
  | i :: images =>
      size ← storeSize;
      match size with
      | Err e => mret (result, Some e)
      | Ok size =>
          if size <=? MaxSize p then mret (result, None)
          else
            collect [i] GCReasonSize result ≫= λ '((result, err) : GCResult * option error),
            match err with
            | Some e => mret (result, Some e)
            | None => collect_over p images result
            end
      end
  end.

Definition CollectGarbage (p : GCPolicy) (inUse : InUse) (now : Z) : M (GCResult * option error) :=
  for_all (λ d, markUsed d now) (elements (dom inUse)) ≫= λ _,
  expired ← gets (λ w, expiredImages p (index_list (index w)) inUse now);
  collect expired GCReasonUnused (mkGCResult [] 0) ≫= λ '((result, err) : GCResult * option error),
  match err with
  | Some e => mret (result, Some e)
  | None =>
      if MaxSize p <=? 0 then mret (result, None)
      else
        images ← gets (λ w, collectableImages (index_list (index w)) inUse now);
        collect_over p images result
  end.

Definition runGCPass (p : GCPolicy) : M unit :=
  keep ← ask QInUse;
  match keep with
  | Err _ => mret tt
  | Ok keep => now ← ask QNow; ignoring (CollectGarbage p keep now)
  end.

(** ** The daemon starts *)

(** One directory of [loadExistingImages]. *)
Definition loadExisting (hex : string) : M unit :=
  loaded ← loadFromDisk hex;
  match loaded with
  | Err _ => mret tt
  | Ok i =>
      i ← (if LastUsedAt i =? 0 then
             now ← ask QNow;
             let i := set_LastUsedAt i now in
             ignoring (saveMetadata hex i) ≫= λ _, mret i
           else mret i);
      ignoring (on_index (λ x, index_create x i))
  end.

Definition loadExistingImages : M (result unit) :=
  wrapping "read images directory: %w" attempt ?;
  hexes ← gets (λ w, elements (dom (dirs w)));
  for_all loadExisting hexes ≫= λ _,
  mret (Ok tt).

(** What is left when the daemon dies: its files. *)
Definition died (w : World) : World := mkWorld ∅ (dirs w) (unpacked w) (cache w) ∅ [] 0 (events w) (spoiled w).

(** [NewManager] *)
Definition NewManager : M (result unit) :=
  wrapping "initialise image storage: %w" attempt ?;
  ignoring loadExistingImages ≫= λ _,
  mret (Ok tt).

End Manager.

End Images.
