(* ===== verification/Pulls.v ===== *)
(** * Pulls are shared, and images are whole

    What holds of the images of a host however pulls, removals and collections
    interleave, and whenever the daemon dies: callers share one pull of an
    image, which is cancelled only once none of them waits; and an image that
    the host holds has a disk, and all of it. The second has exceptions, which
    are defects: they are shown at the end. *)

From S2P Require Import Prelude Paths Errdefs Health Conc Images.

Module Pulls.
Import Images.
Open Scope prog_scope.
Open Scope nat_scope.

(** ** Digests *)

(** The lengths of digests tell their algorithms apart. *)
Lemma valid_inj d1 d2 : valid d1 → valid d2 → digestHex d1 = digestHex d2 → d1 = d2.
Proof.
  unfold valid, algorithms. rewrite !Exists_cons, !Exists_nil. intros H1 H2 E. rewrite <-E in H2.
  destruct H1 as [[E1 H1]|[[E1 H1]|[[E1 H1]|[]]]], H2 as [[E2 H2]|[[E2 H2]|[[E2 H2]|[]]]]; congruence.
Qed.

Lemma DigestHex_valid r : valid (resolvedDigest r) → DigestHex r = digestHex (resolvedDigest r).
Proof.
  unfold DigestHex, valid, algorithms. rewrite !Exists_cons, !Exists_nil.
  intros [[E _]|[[E _]|[[E _]|[]]]]; rewrite E; done.
Qed.

Section Pulls.

Context (dataDir : string) (maxConcurrentPulls : Z) (ParseNormalizedNamed : string → result Named) (rounds : nat).
Context (layoutBytes : list (string * list string) → Z).

Implicit Types (w : World) (n c : nat) (r : ResolvedRef).

(** ** What is kept *)

Definition disk_at w (hex : string) : option Disk := dirs w !! hex ≫= disk.

(** An image as its directory has it. *)
Definition image_ok (hex : string) (i : Image) : Prop :=
  valid (Digest i) ∧ digestHex (Digest i) = hex ∧ DiskPath i = diskPath dataDir hex.

(** The directory has a whole disk, or has been spoiled. *)
Definition sound w (hex : string) : Prop := disk_at w hex = Some Whole ∨ hex ∈ spoiled w.

Record pull_ok (p : pull) : Prop := {
  waiters_ok : waiters p = Z.of_nat (size (callers p));
  abandoned_ok : abandoned p = true → callers p = ∅;
  cancelled_ok : cancelled p = true → pulled p = None → abandoned p = true;
  pulled_ok : ∀ i, pulled p = Some (Ok i) → Digest i = resolvedDigest (resolved p);
}.

Record I w : Prop := {
  index_ok : ∀ d i, index w !! d = Some i → Digest i = d ∧ image_ok (digestHex d) i ∧ sound w (digestHex d);
  metadata_ok : ∀ hex d i, dirs w !! hex = Some d → metadata d = Some i → image_ok hex i ∧ sound w hex;
  pulls_ok : ∀ d n, pulls w !! d = Some n → valid d ∧ ∃ p, started w !! n = Some p ∧ resolvedDigest (resolved p) = d;
  running_ok : ∀ n p, started w !! n = Some p → pulled p = None → pulls w !! resolvedDigest (resolved p) = Some n;
  pulls_well : ∀ n p, started w !! n = Some p → pull_ok p;
}.

(** What a thread may do: an image is added by its own pull alone, and another
    pull keeps its place in the table, and its disk or that it is spoiled; of a
    pull, its outcome is its own to set, and each caller comes and goes on its
    own account. *)
Definition G (L : gset lock) w w' : Prop :=
  (∀ d, index w !! d = None → is_Some (index w' !! d) → ∃ n, PullOf n ∈ L ∧ pulls w !! d = Some n) ∧
  (∀ d n, pulls w !! d = Some n → PullOf n ∉ L →
     pulls w' !! d = Some n ∧ (disk_at w' (digestHex d) = disk_at w (digestHex d) ∨ digestHex d ∈ spoiled w')) ∧
  (∀ n p, started w !! n = Some p → ∃ p', started w' !! n = Some p' ∧ resolved p' = resolved p ∧
     (PullOf n ∉ L → pulled p' = pulled p) ∧ ∀ c, Caller c ∉ L → (c ∈ callers p' ↔ c ∈ callers p)) ∧
  (∀ n p, length (started w) ≤ n → started w' !! n = Some p → ∀ c, c ∈ callers p → Caller c ∈ L) ∧
  spoiled w ⊆ spoiled w'.

(** What it can rely on. *)
Definition R (L : gset lock) w w' : Prop :=
  (∀ d n, PullOf n ∈ L → pulls w !! d = Some n →
     pulls w' !! d = Some n ∧ (index w !! d = None → index w' !! d = None) ∧
     (disk_at w' (digestHex d) = disk_at w (digestHex d) ∨ digestHex d ∈ spoiled w')) ∧
  (∀ n p, started w !! n = Some p → ∃ p', started w' !! n = Some p' ∧ resolved p' = resolved p ∧
     (PullOf n ∈ L → pulled p' = pulled p) ∧ ∀ c, Caller c ∈ L → (c ∈ callers p' ↔ c ∈ callers p)) ∧
  (∀ n p, length (started w) ≤ n → started w' !! n = Some p → ∀ c, Caller c ∈ L → c ∉ callers p) ∧
  spoiled w ⊆ spoiled w'.

Lemma started_grows w w' :
  (∀ n p, started w !! n = Some p → is_Some (started w' !! n)) → length (started w) ≤ length (started w').
Proof.
  intros H. destruct (decide (length (started w) = 0)) as [|Hne]; [lia|].
  destruct (lookup_lt_is_Some_2 (started w) (length (started w) - 1)) as [p Hp]; [lia|].
  apply H, lookup_lt_is_Some_1 in Hp. lia.
Qed.

#[global] Instance pulls_rely_guarantee : RelyGuarantee I G R.
Proof.
  split.
  - intros L w. split_and!; [by auto|naive_solver| |done]. intros n p Hn Hp%lookup_lt_Some. lia.
  - intros L w1 w2 w3 (H1 & H2 & H3 & H4) (K1 & K2 & K3 & K4). split_and!.
    + intros d n Hn Hd. destruct (H1 d n Hn Hd) as (Hd' & Hi & Hs). destruct (K1 d n Hn Hd') as (? & Hi' & Hs').
      split_and!; [done|by auto|]. destruct Hs' as [->|?]; [|by right]. destruct Hs as [->|?]; [by left|right; set_solver].
    + intros n p Hp. destruct (H2 n p Hp) as (p2 & Hp2 & E2 & Hr2 & Hc2). destruct (K2 n p2 Hp2) as (p3 & Hp3 & E3 & Hr3 & Hc3).
      exists p3. split_and!; [done|congruence|intros; by rewrite Hr3, Hr2|]. intros c Hc. by rewrite Hc3, Hc2.
    + intros n p Hn Hp c Hc. destruct (started w2 !! n) as [p2|] eqn:E.
      * destruct (K2 n p2 E) as (p3 & Hp3 & _ & _ & Hc3). simplify_eq. rewrite Hc3 by done. by eapply H3.
      * apply lookup_ge_None_1 in E. by eapply K3.
    + set_solver.
  - intros L1 L2 w w' HL HI (H1 & H2 & H3 & H4 & H5). split_and!; [| | |done].
    + intros d n Hn Hd. assert (PullOf n ∉ L1) by set_solver. destruct (H2 d n Hd) as [? ?]; [done|]. split_and!; [done| |done].
      intros Hi. destruct (index w' !! d) eqn:E; [|done]. destruct (H1 d Hi) as (n' & ? & ?); [eauto|]. congruence.
    + intros n p Hp. destruct (H3 n p Hp) as (p' & ? & ? & Hr & Hc). exists p'. split_and!; [done..| |]; intros; [apply Hr|apply Hc]; set_solver.
    + intros n p Hn Hp c Hc Hin. specialize (H4 n p Hn Hp c Hin). set_solver.
Qed.

(** ** Steps *)

Abbreviation triple := (Conc.triple (answer:=answer) I G R (λ _, 0)) (only parsing).
Abbreviation Stable := (Conc.Stable R) (only parsing).

#[local] Instance stable_true L : Stable L (λ _, True).
Proof. by intros w w'. Qed.

#[local] Instance stable_both L P Q : Stable L P → Stable L Q → Stable L (λ w, P w ∧ Q w).
Proof. intros HP HQ w w' HR [? ?]. split; [by eapply HP|by eapply HQ]. Qed.

#[local] Instance stable_const L (φ : Prop) : Stable L (λ _, φ).
Proof. by intros w w'. Qed.

(** A step that anyone may take, whatever they know. *)
Definition open_step w w' : Prop := I w' ∧ ∀ L, G L w w' ∧ R L w w'.

(** None of the images, directories and pulls change. *)
Lemma untouched_open w w' :
  I w → index w' = index w → dirs w' = dirs w → pulls w' = pulls w → started w' = started w → spoiled w' = spoiled w → open_step w w'.
Proof.
  intros [H1 H2 H3 H4 H5] Ei Ed Ep Es Eo.
  assert (∀ hex, disk_at w' hex = disk_at w hex) as Hd by (intros; unfold disk_at; by rewrite Ed).
  split; [|intros L; split].
  - split; rewrite ?Ei, ?Ed, ?Ep, ?Es; try done.
    + intros d i Hi. destruct (H1 d i Hi) as (? & ? & ?). split_and!; [done..|]. unfold sound. by rewrite Hd, Eo.
    + intros hex d i Hdir Hm. destruct (H2 hex d i Hdir Hm). split; [done|]. unfold sound. by rewrite Hd, Eo.
  - unfold G. setoid_rewrite Hd. rewrite Ei, Ep, Es, Eo. split_and!; [|by auto|naive_solver| |done].
    + intros d Hn [i Hi]. congruence.
    + intros n p Hn Hp%lookup_lt_Some. lia.
  - unfold R. setoid_rewrite Hd. rewrite Ei, Ep, Es, Eo. split_and!; [by auto|naive_solver| |done].
    intros n p Hn Hp%lookup_lt_Some. lia.
Qed.

(** Images are marked or removed. *)
Lemma index_open w x :
  I w → (∀ d i, x !! d = Some i → ∃ i0, index w !! d = Some i0 ∧ Digest i = Digest i0 ∧ DiskPath i = DiskPath i0) →
  open_step w (set_index w x).
Proof.
  intros HI Hx. pose proof HI as [H1 H2 H3 H4 H5]. split; [|intros L; split].
  - split; simpl; try done. intros d i Hi. destruct (Hx d i Hi) as (i0 & Hi0 & E1 & E2).
    destruct (H1 d i0 Hi0) as (? & (? & ? & ?) & ?). unfold image_ok. by rewrite E1, E2.
  - split_and!; simpl; [|by auto|naive_solver| |done].
    + intros d Hn [i Hi]. destruct (Hx d i Hi) as (i0 & ? & _). congruence.
    + intros n p Hn Hp%lookup_lt_Some. lia.
  - split_and!; simpl; [|naive_solver| |done].
    + intros d n Hn Hd. split_and!; [done| |by left]. intros Hi. destruct (x !! d) as [i|] eqn:E; [|done].
      destruct (Hx d i E) as (i0 & ? & _). congruence.
    + intros n p Hn Hp%lookup_lt_Some. lia.
Qed.

(** A directory changes. *)
Definition set_dir w (hex : string) (o : option ImageDir) (s : gset string) : World :=
  set_dirs w (partial_alter (λ _, o) hex (dirs w)) s.

Lemma disk_at_set w hex o s hex' : disk_at (set_dir w hex o s) hex' = if decide (hex' = hex) then o ≫= disk else disk_at w hex'.
Proof.
  unfold disk_at. simpl. case_decide as E; [subst; by rewrite lookup_partial_alter_eq|by rewrite lookup_partial_alter_ne].
Qed.

Lemma set_dir_I w hex o s :
  I w → spoiled w ⊆ s →
  (∀ d i, o = Some d → metadata d = Some i → image_ok hex i ∧ (disk d = Some Whole ∨ hex ∈ s)) →
  (∀ d, is_Some (index w !! d) → digestHex d = hex → o ≫= disk = disk_at w hex ∨ hex ∈ s) →
  I (set_dir w hex o s).
Proof.
  intros [H1 H2 H3 H4 H5] Hs Ho Hi. split; simpl; try done.
  - intros d i Hd. destruct (H1 d i Hd) as (? & ? & Hsound). split_and!; [done..|]. unfold sound in *. rewrite disk_at_set.
    simpl. case_decide as E; [|destruct Hsound; [by left|right; set_solver]].
    rewrite E in *. destruct (Hi d) as [->|?]; [eauto|done| |by right]. destruct Hsound; [by left|right; set_solver].
  - intros hex' d i. unfold sound. rewrite disk_at_set. simpl. case_decide as E.
    + subst. rewrite lookup_partial_alter_eq. intros Hd Hm. destruct (Ho d i Hd Hm) as [? Hw]. split; [done|]. rewrite Hd. done.
    + rewrite lookup_partial_alter_ne by done. intros Hd Hm. destruct (H2 hex' d i Hd Hm) as [? [?|?]]; split; [done|by left|done|].
      right. set_solver.
Qed.

Lemma set_dir_G L w hex o s :
  spoiled w ⊆ s →
  (∀ d n, pulls w !! d = Some n → digestHex d = hex → PullOf n ∉ L → o ≫= disk = disk_at w hex ∨ hex ∈ s) →
  G L w (set_dir w hex o s).
Proof.
  intros Hs Ho. split_and!; simpl; [|..|naive_solver| |done].
  - intros d Hn [i Hi]. congruence.
  - intros d n Hd Hn. split; [done|]. rewrite disk_at_set. case_decide as E; [|by left]. rewrite E. by eapply Ho.
  - intros n p Hn Hp%lookup_lt_Some. lia.
Qed.

Lemma set_dir_R L w hex o s :
  spoiled w ⊆ s →
  (∀ d n, pulls w !! d = Some n → digestHex d = hex → o ≫= disk = disk_at w hex ∨ hex ∈ s) →
  R L w (set_dir w hex o s).
Proof.
  intros Hs Ho. split_and!; simpl; [|naive_solver| |done].
  - intros d n Hn Hd. split_and!; [done..|]. rewrite disk_at_set. case_decide as E; [|by left]. rewrite E. by eapply Ho.
  - intros n p Hn Hp%lookup_lt_Some. lia.
Qed.

(** The spoiled directories, once [hex] is as it now is. *)
Definition spoils (hex : string) (d : ImageDir) (s : gset string) : gset string := if vouches d then {[hex]} ∪ s else s.

Lemma put_dir_set w hex d : put_dir w hex d = set_dir w hex (Some d) (spoils hex d (spoiled w)).
Proof. done. Qed.

Lemma spoils_mono hex d s : s ⊆ spoils hex d s.
Proof. unfold spoils. destruct (vouches d); set_solver. Qed.

Lemma spoils_metadata hex d s i : metadata d = Some i → disk d = Some Whole ∨ hex ∈ spoils hex d s.
Proof.
  intros Hm. unfold spoils, vouches. rewrite Hm. rewrite bool_decide_true by eauto. simpl.
  case_bool_decide; [right; set_solver|left; by destruct (decide (disk d = Some Whole))].
Qed.

(** *** Programs that change nothing that anyone relies on *)

Abbreviation calm := (keeps (answer:=answer) I G R (λ _, 0) Stable) (only parsing).
Abbreviation calm_ret := (keeps_ret (answer:=answer) I G R (λ _, 0) Stable (λ _ _ H, H)) (only parsing).
Abbreviation calm_ask := (keeps_ask I G R (λ _, 0) Stable (λ _ _ H, H)) (only parsing).
Abbreviation calm_bind := (keeps_bind (answer:=answer) I G R (λ _, 0) Stable) (only parsing).
Abbreviation calm_ebind := (keeps_ebind (answer:=answer) I G R (λ _, 0) Stable (λ _ _ H, H)) (only parsing).
Abbreviation calm_wrapping := (keeps_wrapping (answer:=answer) I G R (λ _, 0) Stable (λ _ _ H, H)) (only parsing).
Abbreviation calm_ignoring := (keeps_ignoring (answer:=answer) I G R (λ _, 0) Stable (λ _ _ H, H)) (only parsing).
Abbreviation calm_deferred := (keeps_deferred (answer:=answer) I G R (λ _, 0) Stable (λ _ _ H, H)) (only parsing).
Abbreviation calm_for_all := (keeps_for_all (answer:=answer) I G R (λ _, 0) Stable (λ _ _ H, H)) (only parsing).

Lemma open_atomically {B} (f : World → B * World) : (∀ w, I w → open_step w (f w).2) → calm (atomically f).
Proof.
  intros Hf. apply keeps_step; [done|]. intros L P w HP HI Hw. destruct (Hf w HI) as [HI' Ho]. destruct (Ho L).
  split_and!; [done..|]. by eapply HP.
Qed.

Lemma open_refl w : I w → open_step w w.
Proof. intros HI. by apply untouched_open. Qed.

Lemma open_gets {B} (f : World → B) : calm (gets f).
Proof. apply open_atomically. apply open_refl. Qed.

Lemma open_modify (f : World → World) : (∀ w, I w → open_step w (f w)) → calm (modify f).
Proof. intros Hf. by apply open_atomically. Qed.

Create HintDb images.
#[local] Hint Extern 1 (keeps _ _ _ _ Stable (ask ?q)) => exact (calm_ask q) : images.
#[local] Hint Extern 1 (keeps _ _ _ _ Stable (mret _)) => apply calm_ret : images.
#[local] Hint Extern 1 (keeps _ _ _ _ Stable (ebind _ _)) => apply calm_ebind : images.
#[local] Hint Extern 1 (keeps _ _ _ _ Stable (wrapping _ _)) => apply calm_wrapping : images.
#[local] Hint Extern 1 (keeps _ _ _ _ Stable (ignoring _)) => apply calm_ignoring : images.
#[local] Hint Extern 1 (keeps _ _ _ _ Stable (deferred _ _)) => apply calm_deferred : images.
#[local] Hint Extern 1 (keeps _ _ _ _ Stable (for_all _ _)) => apply calm_for_all : images.
#[local] Hint Extern 2 (keeps _ _ _ _ Stable (_ ≫= _)) => apply calm_bind : images.
#[local] Hint Extern 3 (keeps _ _ _ _ Stable (match ?x with _ => _ end)) => destruct x : images.
#[local] Hint Resolve open_gets : images.

Lemma open_attempt : calm attempt.
Proof. unfold attempt. auto with images. Qed.

Lemma open_record i action : calm (record i action).
Proof. apply open_modify. intros w HI. by apply untouched_open. Qed.

(** Steps on the index that add nothing. *)
Lemma open_delete d : calm (on_index (λ x, index_delete x d)).
Proof.
  apply open_atomically. intros w HI. unfold index_delete. destruct (index w !! d) as [i|] eqn:E; simpl.
  - apply index_open; [done|]. intros d' i' [_ Hi]%lookup_delete_Some. eauto.
  - apply index_open; [done|]. eauto.
Qed.

Lemma mark_open d at_ w : I w → open_step w (set_index w (index_markUsed (index w) d at_).2).
Proof.
  intros HI. unfold index_markUsed. destruct (index w !! d) as [i|] eqn:E; simpl.
  - destruct (LastUsedAt i <? at_)%Z; simpl; (apply index_open; [done|]); [|eauto].
    intros d' i' [[<- <-]|[_ Hi]]%lookup_insert_Some; eauto.
  - apply index_open; [done|]. eauto.
Qed.

(** Steps on a directory that leave its disk as it is. *)
Lemma open_put_dir w hex d :
  I w → disk d = disk_at w hex → (∀ i, metadata d = Some i → image_ok hex i) → open_step w (put_dir w hex d).
Proof.
  intros HI Hd Hm. rewrite put_dir_set. pose proof (spoils_mono hex d (spoiled w)). split; [|intros L; split].
  - apply set_dir_I; [done..| |by left]. intros d' i [= <-] Hi. split; [by apply Hm|]. by eapply spoils_metadata.
  - apply set_dir_G; [done|]. by left.
  - apply set_dir_R; [done|]. by left.
Qed.

Lemma open_saveMetadata hex i : image_ok hex i → calm (saveMetadata hex i).
Proof.
  intros Hi. unfold saveMetadata. apply calm_bind; [auto with images|]. intros [e|]; [auto with images|].
  apply open_atomically. intros w HI. destruct (dirs w !! hex) as [d|] eqn:E; [|by apply open_refl].
  apply open_put_dir; [done| |by intros ? [= <-]]. unfold disk_at. by rewrite E.
Qed.

Lemma open_ensureImageDir hex : calm (ensureImageDir hex).
Proof.
  unfold ensureImageDir. apply calm_ebind; [apply open_attempt|]. intros _. apply open_atomically. intros w HI. simpl.
  destruct (dirs w !! hex) as [d|] eqn:E; [by apply open_refl|]. apply open_put_dir; [done| |done]. unfold disk_at. by rewrite E.
Qed.

Lemma open_ensureRootfsDir hex : calm (ensureRootfsDir hex).
Proof.
  unfold ensureRootfsDir. apply calm_ebind; [apply open_attempt|]. intros _. apply open_atomically. intros w HI. by apply untouched_open.
Qed.

Lemma open_removeUnpackDir hex : calm (removeUnpackDir hex).
Proof.
  unfold removeUnpackDir. apply calm_ebind; [apply open_attempt|]. intros _. apply open_atomically. intros w HI. by apply untouched_open.
Qed.

Lemma open_diskExists hex : calm (diskExists hex).
Proof. unfold diskExists. apply calm_bind; [apply open_attempt|]. auto with images. Qed.

Lemma claimed_spec w hex :
  claimed w hex = true ↔ ∃ d, digestHex d = hex ∧ (is_Some (index w !! d) ∨ is_Some (pulls w !! d)).
Proof.
  unfold claimed. rewrite existsb_exists. setoid_rewrite <-list_elem_of_In. setoid_rewrite elem_of_app.
  setoid_rewrite elem_of_elements. setoid_rewrite elem_of_dom. setoid_rewrite bool_decide_eq_true. naive_solver.
Qed.

(** A removal: what is left of a directory is part of what there was. *)
Definition part_of (f : ImageDir → option ImageDir) : Prop := ∀ d d' i, f d = Some d' → metadata d' = Some i → metadata d = Some i.

Lemma open_remove_from hex f w : part_of f → I w → open_step w (remove_from false hex f w).
Proof.
  intros Hf HI. unfold remove_from. destruct (dirs w !! hex) as [d|] eqn:E; [|by apply open_refl]. cbn [negb andb].
  set (s := if claimed w hex then {[hex]} ∪ spoiled w else spoiled w).
  assert (∀ o s', s ⊆ s' → (∀ d' i, o = Some d' → metadata d' = Some i → metadata d = Some i ∧ (disk d' = Some Whole ∨ hex ∈ s')) →
    open_step w (set_dir w hex o s')) as Hset.
  { intros o s' Hs Ho. assert (spoiled w ⊆ s') as Hss by (subst s; destruct (claimed w hex); set_solver).
    assert (∀ d, digestHex d = hex → is_Some (index w !! d) ∨ is_Some (pulls w !! d) → hex ∈ s') as Hclaimed.
    { intros d' Hd' Hin. assert (claimed w hex = true) as Hc by (apply claimed_spec; eauto). subst s. rewrite Hc in Hs. set_solver. }
    split; [|intros L; split].
    - apply set_dir_I; [done..| |]; [|intros; right; by eapply Hclaimed; [|left]].
      intros d' i Hd' Hi. destruct (Ho d' i Hd' Hi) as [Hm ?]. split; [|done]. by eapply (metadata_ok _ HI).
    - apply set_dir_G; [done|]. intros. right. eapply Hclaimed; [done|]. right. eauto.
    - apply set_dir_R; [done|]. intros. right. eapply Hclaimed; [done|]. right. eauto. }
  destruct (f d) as [d'|] eqn:Ef.
  - assert (open_step w (set_dir w hex (Some d') (spoils hex d' s))) as H; [|by destruct (claimed w hex)].
    apply Hset; [apply spoils_mono|]. intros d2 i [= <-] Hi. split; [by eapply Hf|]. by eapply spoils_metadata.
  - assert (open_step w (set_dir w hex None s)) as H; [|by destruct (claimed w hex)]. by apply Hset.
Qed.

Lemma open_deleteFiles hex : calm (deleteFiles false hex).
Proof.
  unfold deleteFiles, removeAll. apply calm_ebind; [|intros _; apply calm_bind; [apply calm_ignoring, open_removeUnpackDir|auto with images]].
  apply calm_wrapping, calm_bind; [apply (calm_ask QRemove)|]. intros [noDisk noMetadata]. apply calm_bind.
  { apply open_modify. intros w. apply open_remove_from. intros d d' i [= <-]. simpl. by destruct noMetadata. }
  intros _. apply calm_ebind; [apply open_attempt|]. intros _. apply calm_bind; [|auto with images].
  apply open_modify. intros w. by apply open_remove_from.
Qed.

#[local] Hint Resolve open_attempt open_record open_delete open_ensureRootfsDir open_removeUnpackDir open_diskExists
  open_ensureImageDir open_deleteFiles : images.

(** A step that anyone may take, with what is known of its result. *)
Lemma open_result {B} (f : World → B * World) (φ : B → Prop) L P :
  (∀ w, I w → open_step w (f w).2 ∧ φ (f w).1) → Stable L P → triple L P (atomically f) (λ b w, φ b ∧ P w).
Proof.
  intros Hf HP. apply triple_step; [done|intros; apply _|]. intros w HI Hw. destruct (Hf w HI) as [[HI' Ho] Hφ].
  destruct (Ho L). split_and!; [done..|]. by eapply HP.
Qed.

(** *** Marking, removing and collecting images *)

Lemma marked_ok d at_ w i :
  I w → (index_markUsed (index w) d at_).1 = Some i → image_ok (digestHex d) i.
Proof.
  intros HI. unfold index_markUsed. destruct (index w !! d) as [i0|] eqn:E; [|done]. destruct (_ <? _)%Z; [|done]. intros [= <-].
  by destruct (index_ok _ HI d i0 E) as (_ & ? & _).
Qed.

Lemma open_markUsed d at_ : calm (markUsed d at_).
Proof.
  intros L P HP. unfold markUsed. eapply triple_bind; [apply _|apply (open_result _ (λ o, ∀ i, o = Some i → image_ok (digestHex d) i))|].
  - intros w HI. pose proof (mark_open d at_ w HI) as Ho. pose proof (λ i, marked_ok d at_ w i HI) as Hi.
    by destruct (index_markUsed (index w) d at_).
  - done.
  - intros [i|]; simpl; apply triple_pure; intros Hi; [apply calm_ignoring; [apply open_saveMetadata; by apply Hi|done]|by apply calm_ret].
Qed.

Lemma open_Delete s inUse : calm (Delete ParseNormalizedNamed s inUse).
Proof.
  unfold Delete. apply calm_ebind; [auto with images|]. intros i. case_bool_decide; [auto with images|].
  apply calm_bind; [auto with images|]. intros deleted. apply calm_ebind.
  - destruct deleted as [|e]; [auto with images|]. destruct (Is e ErrNotFound); auto with images.
  - intros _. apply calm_bind; [apply calm_ignoring; auto with images|]. intros _. apply calm_bind; auto with images.
Qed.

Lemma open_remove images : calm (remove images).
Proof.
  unfold remove. apply calm_bind.
  - generalize (@nil Image). induction images as [|i images IH]; intros removed; cbn [remove_each]; [auto with images|].
    apply calm_bind; [auto with images|]. intros [u|e].
    + apply calm_bind; auto with images.
    + destruct (Is e ErrNotFound); auto with images.
  - intros [removed [e|]]; [auto with images|]. apply calm_bind; [|intros []; auto with images].
    unfold pruneOthers. apply calm_bind; [auto with images|]. intros keep. apply calm_bind; [apply (calm_ask QPrune)|].
    intros pruning. apply open_atomically. intros w HI. destruct (PruneCache _ _ _). by apply untouched_open.
Qed.

Lemma open_records action images : calm (for_all (λ i, record i action) images).
Proof. apply calm_for_all. auto with images. Qed.

#[local] Hint Resolve open_markUsed open_Delete open_remove open_records : images.

Lemma open_Prune inUse : calm (Prune inUse).
Proof.
  unfold Prune. apply calm_bind; [auto with images|]. intros unused. apply calm_bind; [auto with images|]. intros [result err].
  apply calm_bind; auto with images.
Qed.

Lemma open_collect images reason result : calm (collect images reason result).
Proof.
  unfold collect. destruct images as [|i images]; [auto with images|]. apply calm_bind; [auto with images|].
  intros [removed err]. apply calm_bind; auto with images.
Qed.

Lemma open_collect_over p images result : calm (collect_over layoutBytes p images result).
Proof.
  revert result. induction images as [|i images IH]; intros result; cbn [collect_over]; [auto with images|].
  apply calm_bind; [unfold storeSize; apply calm_bind; [apply (calm_ask QCacheSize)|intros []; auto with images]|].
  intros [size|e]; [|auto with images]. destruct (_ <=? _)%Z; [auto with images|].
  apply calm_bind; [apply open_collect|]. intros [result' [e|]]; auto with images.
Qed.

Lemma open_CollectGarbage p inUse now : calm (CollectGarbage layoutBytes p inUse now).
Proof.
  unfold CollectGarbage. apply calm_bind; [apply calm_for_all; auto with images|]. intros _. apply calm_bind; [auto with images|].
  intros expired. apply calm_bind; [apply open_collect|]. intros [result [e|]]; [auto with images|].
  destruct (_ <=? _)%Z; [auto with images|]. apply calm_bind; [auto with images|]. intros images. apply open_collect_over.
Qed.

Lemma open_runGCPass p : calm (runGCPass layoutBytes p).
Proof.
  unfold runGCPass. apply calm_bind; [apply (calm_ask QInUse)|]. intros [keep|e]; [|auto with images].
  apply calm_bind; [apply (calm_ask QNow)|]. intros now. apply calm_ignoring, open_CollectGarbage.
Qed.

(** *** A pull *)

Section OnePull.

Context (n : nat) (r : ResolvedRef).

Abbreviation d := (resolvedDigest r).
Abbreviation hex := (digestHex d).

(** The pull is under way. *)
Definition active (L : gset lock) w : Prop := PullOf n ∈ L ∧ pulls w !! d = Some n.

#[local] Instance stable_active L : Stable L (active L).
Proof. intros w w' (H & _) [Hn Hp]. split; [done|]. by destruct (H _ _ Hn Hp). Qed.

(** Its image is not there yet, and its disk is as [F] says or spoiled. *)
Definition mine_at (F : option Disk → Prop) (L : gset lock) w : Prop :=
  active L w ∧ index w !! d = None ∧ (F (disk_at w hex) ∨ hex ∈ spoiled w).

Abbreviation mine := (mine_at (λ _, True)) (only parsing).

#[local] Instance stable_mine F L : Stable L (mine_at F L).
Proof.
  intros w w' HR ([Hn Hp] & Hi & HF). pose proof HR as (H & _ & _ & Hs). destruct (H _ _ Hn Hp) as (Hp' & Hi' & Hd).
  split; [done|]. split; [by auto|]. destruct Hd as [->|?]; [|by right]. destruct HF; [by left|right; set_solver].
Qed.

Lemma mine_weaken F L w : mine_at F L w → mine L w.
Proof. intros (? & ? & _). split_and!; [done..|by left]. Qed.

Lemma mine_active F L w : mine_at F L w → active L w.
Proof. by intros (? & _). Qed.

(** Its directory is its own to change. *)
Lemma own_set_dir L w o s F :
  I w → mine L w → spoiled w ⊆ s →
  (∀ dir i, o = Some dir → metadata dir = Some i → image_ok hex i ∧ (disk dir = Some Whole ∨ hex ∈ s)) →
  F (o ≫= disk) ∨ hex ∈ s →
  G L w (set_dir w hex o s) ∧ I (set_dir w hex o s) ∧ mine_at F L (set_dir w hex o s).
Proof.
  intros HI ([Hn Hp] & Hi & _) Hs Ho HF. destruct (pulls_ok _ HI _ _ Hp) as [Hv _]. split_and!.
  - apply set_dir_G; [done|]. intros d' n' Hd' Hhex Hn'. destruct (pulls_ok _ HI _ _ Hd') as [Hv' _].
    rewrite (valid_inj d' d) in Hd' by done. congruence.
  - apply set_dir_I; [done..|]. intros d' [i Hd'] Hhex. destruct (index_ok _ HI _ _ Hd') as (E & (Hv' & _) & _).
    rewrite E in Hv'. rewrite (valid_inj d' d) in Hd' by done. congruence.
  - split; [done|]. split; [done|]. rewrite disk_at_set. rewrite decide_True by done. done.
Qed.

Lemma own_put_dir L w dir F :
  I w → mine L w → (∀ i, metadata dir = Some i → image_ok hex i) → F (disk dir) →
  G L w (put_dir w hex dir) ∧ I (put_dir w hex dir) ∧ mine_at F L (put_dir w hex dir).
Proof.
  intros HI Hm Hi HF. rewrite put_dir_set. apply own_set_dir; [done|done|apply spoils_mono| |by left].
  intros dir' i [= <-] Hi'. split; [by apply Hi|by eapply spoils_metadata].
Qed.

Lemma own_remove_from L w f :
  part_of f → I w → mine L w → let w' := remove_from true hex f w in G L w w' ∧ I w' ∧ mine L w'.
Proof.
  intros Hf HI Hm. unfold remove_from. destruct (dirs w !! hex) as [dir|] eqn:E.
  - cbn [negb andb]. destruct (f dir) as [dir'|] eqn:Ef.
    + apply own_put_dir; [done..| |done]. intros i Hi. eapply (metadata_ok _ HI); [exact E|]. by eapply Hf.
    + apply (own_set_dir L w None); [done|done|done|done|by left].
  - destruct (open_refl w HI) as [_ Ho]. split_and!; [apply Ho|done|done].
Qed.

Abbreviation keeps_mine := (keeps (answer:=answer) I G R (λ _, 0) (λ L P, P = mine L)) (only parsing).
Lemma stable_is_mine L P : P = mine L → Stable L P.
Proof. intros ->. apply _. Qed.

Lemma calm_mine {A} (p : M A) : calm p → keeps_mine p.
Proof. intros Hp L P ->. apply Hp, _. Qed.

Lemma own_deleteFiles : keeps_mine (deleteFiles true hex).
Proof.
  assert (∀ f, part_of f → keeps_mine (modify (remove_from true hex f))) as Hstep.
  { intros f Hf. apply keeps_step; [apply stable_is_mine|]. intros L P w -> HI Hw. by apply own_remove_from. }
  unfold deleteFiles, removeAll. apply keeps_ebind; [apply _|apply stable_is_mine|..].
  2: { intros _. apply calm_mine, calm_bind; [apply calm_ignoring|]; auto with images. }
  apply keeps_wrapping; [apply _|apply stable_is_mine|]. apply keeps_bind; [apply _|apply calm_mine, (calm_ask QRemove)|].
  intros [noDisk noMetadata]. apply keeps_bind; [apply _|apply Hstep; intros ? ? ? [= <-]; simpl; by destruct noMetadata|].
  intros _. apply keeps_ebind; [apply _|apply stable_is_mine|apply calm_mine, open_attempt|]. intros _.
  apply keeps_bind; [apply _|by apply Hstep|]. intros _. apply calm_mine, calm_ret.
Qed.

Lemma own_discardFailedPull L e F :
  triple L (mine_at F L) (discardFailedPull hex e) (outcome (λ _, active L) (active L)).
Proof.
  eapply triple_pre; [apply mine_weaken|]. unfold discardFailedPull.
  eapply triple_bind; [apply _|exact (keeps_ignoring _ _ _ _ _ stable_is_mine _ own_deleteFiles L _ eq_refl)|].
  intros []. apply triple_ret; [apply _|]. intros w _. apply mine_active.
Qed.

(** The disk is made, and is whole. *)
Lemma own_Pack L :
  triple L (mine L) (Pack hex) (outcome (λ _, mine_at (λ o, o = Some Whole) L) (mine L)).
Proof.
  unfold Pack. eapply triple_ebind; [apply _| | |apply stable_mine|done].
  { eapply (triple_wrapping _ _ _ _ L _ _ _ (λ _, mine L) (mine L)); [|intros; apply _|apply _].
    eapply triple_post; [|apply open_ensureImageDir, _]. by intros [] w. }
  intros []. eapply (triple_ebind _ _ _ _ L _ _ _ (λ _, mine_at (λ o, o = Some Incomplete) L) (mine L)); [| |apply _|done].
  { apply triple_step; [apply _|intros; apply _|]. intros w HI Hw. destruct (dirs w !! hex) as [dir|] eqn:E; simpl.
    - apply own_put_dir; [done..| |done]. simpl. intros i Hi. by eapply (metadata_ok _ HI).
    - destruct (open_refl w HI) as [_ Ho]. split_and!; [apply Ho|done|done]. }
  intros []. eapply triple_bind; [apply _|apply (calm_ask QMkfs), _|]. intros [e|].
  { apply triple_ret; [apply _|]. intros w _. apply mine_weaken. }
  eapply (triple_bind _ _ _ _ L _ _ _ (λ _, mine_at (λ o, o = Some Whole) L)).
  { apply triple_step; [apply _|intros; apply _|]. intros w HI Hw. pose proof Hw as (Ha & Hi & Hd). simpl.
    destruct (open_refl w HI) as [_ Ho]. destruct (Ho L) as [HG _].
    assert (hex ∈ spoiled w → G L w w ∧ I w ∧ mine_at (λ o, o = Some Whole) L w) as Hsp
      by by intros Hs; refine (conj HG (conj HI (conj Ha (conj Hi _)))); right.
    unfold disk_at in Hd. destruct (dirs w !! hex) as [[[[]|] m]|] eqn:E; simpl in Hd; try (by apply Hsp; destruct Hd).
    apply own_put_dir; [done|by eapply mine_weaken| |done]. simpl. intros i Hm. by eapply (metadata_ok _ HI). }
  intros []. eapply triple_bind; [apply _|apply open_diskExists, _|]. intros stat.
  eapply triple_bind; [apply _|apply (calm_ask QSize), _|]. intros size. apply triple_ret; [apply _|].
  intros w _ Hw. destruct stat; [done|by eapply mine_weaken].
Qed.

Context (Hvalid : valid d).

(** Its image is added to the index. *)
Lemma own_create L i :
  image_ok hex i → Digest i = d →
  triple L (mine_at (λ o, o = Some Whole) L) (on_index (λ x, index_create x i)) (λ res w, res = Ok tt ∧ active L w).
Proof.
  intros Hi Ed. apply triple_step; [apply _|intros; apply _|]. intros w HI ([Hn Hp] & Hnone & Hs).
  unfold index_create. rewrite Ed, Hnone. simpl. split; [|split; [split|done]]; simpl.
  - split_and!; simpl; [|by auto|naive_solver| |done].
    + intros d' Hd' [i' Hi']. apply lookup_insert_Some in Hi' as [[<- _]|[_ ?]]; [eauto|congruence].
    + intros n' p' Hn' Hp'%lookup_lt_Some. lia.
  - intros d' i' [[<- <-]|[_ Hi']]%lookup_insert_Some; [done|]. by apply (index_ok _ HI).
  - apply (metadata_ok _ HI).
  - apply (pulls_ok _ HI).
  - apply (running_ok _ HI).
  - apply (pulls_well _ HI).
Qed.

Lemma open_PullAndExport d' : calm (PullAndExport d').
Proof.
  unfold PullAndExport. destruct (Str.cut ":" d').2 as [[|c h]|]; [auto with images| |auto with images].
  apply calm_bind; [apply (calm_ask QPull)|]. intros fetch. apply open_atomically. intros w HI.
  destruct fetch; simpl; destruct (isCached _ _); by apply untouched_open.
Qed.

Abbreviation Pulled := (outcome (λ _, active _) (active _)) (only parsing).

#[local] Instance stable_pulled {A} L (res : result A) : Stable L (outcome (λ _, active L) (active L) res).
Proof. apply _. Qed.

Lemma own_added L config sizeBytes now :
  let i := mkImage (normalised (ref r)) d (diskPath dataDir hex) sizeBytes (Config_Entrypoint config) (Config_Cmd config)
    (parseEnv (Config_Env config)) (Config_WorkingDir config) (Config_User config)
    (match healthCheckFromDocker (Config_Healthcheck config) with Ok c => c | Err _ => None end) now now now in
  triple L (mine_at (λ o, o = Some Whole) L)
    (created ← on_index (λ x, index_create x i);
     match created with
     | Err e => if Is e ErrExists then mret (Ok tt) else mret (Err e)
     | Ok _ => mret (Ok tt)
     end ?;
     ignoring (saveMetadata hex i) ≫= λ _,
     record i "pulled" ≫= λ _,
     mret (Ok tt)) (outcome (λ _, active L) (active L)).
Proof.
  intros i. assert (image_ok hex i) as Hi by done. eapply triple_bind; [apply _|by apply own_create|]. intros created. apply triple_pure. intros ->.
  eapply (triple_ebind _ _ _ _ L _ _ _ (λ _, active L) (active L)); [by apply triple_ret; [apply _|]| |apply _|done].
  intros []. eapply triple_bind; [apply _|apply calm_ignoring; [by apply open_saveMetadata|apply _]|]. intros [].
  eapply triple_bind; [apply _|apply open_record, _|]. intros []. by apply triple_ret; [apply _|].
Qed.

Lemma own_pullFromRegistry L :
  triple L (mine L) (pullFromRegistry dataDir r) (outcome (λ _, active L) (active L)).
Proof.
  unfold pullFromRegistry. rewrite DigestHex_valid by done.
  eapply triple_bind; [apply _|apply open_ensureImageDir, _|]. intros [[]|e]; [|apply own_discardFailedPull].
  eapply triple_bind; [apply _|apply open_ensureRootfsDir, _|]. intros [[]|e]; [|apply own_discardFailedPull].
  eapply (triple_deferred _ _ _ _ L _ _ _ (outcome (λ _, active L) (active L))); [|intros; apply calm_ignoring; auto with images|apply _].
  2: apply _.
  eapply triple_bind; [apply _|apply open_PullAndExport, _|]. intros [c|config]; [apply own_discardFailedPull|].
  eapply triple_bind; [apply _|apply own_Pack|]. intros [sizeBytes|e]; [|apply own_discardFailedPull].
  eapply triple_bind; [apply _|apply (calm_ask QNow), _|]. intros now. apply own_added.
Qed.

Lemma open_acquireSlot k : calm (acquireSlot maxConcurrentPulls k).
Proof.
  induction k as [|k IH]; cbn [acquireSlot]; [apply calm_bind; [apply (calm_ask QEnd)|auto with images]|].
  apply calm_bind.
  - apply open_atomically. intros w HI. destruct (_ <? _)%Z; by apply untouched_open.
  - intros []; [auto with images|]. apply calm_bind; [apply (calm_ask QContext)|]. intros []; auto with images.
Qed.

Lemma open_releaseSlot : calm releaseSlot.
Proof. apply open_modify. intros w HI. by apply untouched_open. Qed.

(** What is loaded is an image of its directory, which is whole or spoiled. *)
Lemma own_loadFromDisk L :
  triple L (mine L) (loadFromDisk dataDir hex)
    (outcome (λ i w, image_ok hex i ∧ mine_at (λ o, o = Some Whole) L w) (mine L)).
Proof.
  unfold loadFromDisk.
  eapply (triple_ebind _ _ _ _ L _ _ _ (λ i w, image_ok hex i ∧ mine_at (λ o, o = Some Whole) L w) (mine L)); [| |apply _|done].
  - apply triple_wrapping; [apply _| |intros; apply _|apply _].
    eapply (triple_ebind _ _ _ _ L _ _ _ (λ _, mine L) (mine L)); [| |apply _|done].
    + apply triple_wrapping; [apply _| |intros; apply _|apply _]. eapply triple_post; [|apply open_attempt, _]. by intros [] w.
    + intros []. apply triple_gets; [|apply _|intros; apply _|].
      * intros w HI. by destruct (open_refl w HI) as [_ Ho]; apply Ho.
      * intros w HI Hw. destruct (dirs w !! hex ≫= metadata) as [i|] eqn:E; [|done]. apply bind_Some in E as (dir & Hdir & Hm).
        destruct (metadata_ok _ HI _ _ _ Hdir Hm) as [? Hs]. destruct Hw as (? & ? & _). done.
  - intros i. apply triple_pure. intros Hi.
    eapply (triple_bind _ _ _ _ L _ _ _ (λ _, mine_at (λ o, o = Some Whole) L)).
    + assert (calm (if decide (DiskPath i = diskPath dataDir hex) then diskExists hex
                    else e ← ask QFile; mret (if e is Some _ then false else true))) as Hc; [|apply Hc, _].
      destruct (decide _); [apply open_diskExists|]. apply calm_bind; [apply (calm_ask QFile)|auto with images].
    + intros stat. apply triple_ret; [apply _|]. intros w _ Hw. destruct stat; [done|by eapply mine_weaken].
Qed.

(** What the pull returns is the image that was asked for. *)
Definition asked_for (res : result Image) : Prop := ∀ i, res = Ok i → Digest i = d.

Lemma own_fetch L :
  triple L (mine L)
    (acquireSlot maxConcurrentPulls rounds ?;
     deferred releaseSlot (
       pullFromRegistry dataDir r ?;
       found ← gets (λ w, index_get (index w) d);
       mret (if found is Some i then Ok i else Err (NotFound "no image %s")))) (λ res w, asked_for res ∧ active L w).
Proof.
  eapply (triple_post _ _ _ _ L _ _ (outcome (λ i w, Digest i = d ∧ active L w) (active L))).
  { intros [i|e] w _; [|by intros Ha]. intros [Hi Ha]. split; [by intros ? [= <-]|done]. }
  eapply (triple_ebind _ _ _ _ L _ _ _ (λ _, mine L) (mine L)); [| |apply _|intros w _; apply mine_active].
  { eapply triple_post; [|apply open_acquireSlot, _]. by intros [] w. }
  intros []. eapply triple_deferred; [apply _| |intros; apply open_releaseSlot; apply _|apply _].
  eapply (triple_ebind _ _ _ _ L _ _ _ (λ _, active L) (active L)); [apply own_pullFromRegistry| |apply _|done].
  intros []. eapply (triple_bind _ _ _ _ L _ _ _ (λ o w, (∀ i, o = Some i → Digest i = d) ∧ active L w)).
  - apply (open_result (λ w, (index_get (index w) d, w))); [|apply _]. intros w HI. split; [by apply open_refl|].
    intros i Hi. by destruct (index_ok _ HI _ _ Hi) as [? _].
  - intros o. apply triple_pure. intros Ho. apply triple_ret; [apply _|]. intros w _ Ha. destruct o as [i|]; [|done]. split; [by apply Ho|done].
Qed.

Lemma own_loadOrPull L :
  triple L (active L) (loadOrPull dataDir maxConcurrentPulls rounds r) (λ res w, asked_for res ∧ active L w).
Proof.
  unfold loadOrPull. rewrite DigestHex_valid by done. pose proof (own_fetch L) as Hfetch. set (fetch := ebind _ _) in *. clearbody fetch.
  eapply (triple_bind _ _ _ _ L _ _ _ (λ o w, match o with Some i => Digest i = d ∧ active L w | None => mine L w end)).
  { apply triple_gets; [|apply _|intros []; apply _|].
    - intros w HI. by destruct (open_refl w HI) as [_ Ho]; apply Ho.
    - intros w HI Hw. unfold index_get. destruct (index w !! d) as [i|] eqn:E; [by destruct (index_ok _ HI _ _ E)|].
      split; [done|]. split; [done|by left]. }
  intros [i|].
  { apply triple_ret; [apply _|]. intros w _ [Hi Ha]. split; [by intros ? [= <-]|done]. }
  eapply triple_bind; [apply _|apply open_diskExists, _|]. intros []; [|exact Hfetch].
  eapply triple_bind; [apply _|apply own_loadFromDisk|]. intros [i|e]; [|exact Hfetch].
  apply (triple_pure _ _ _ _ L (image_ok hex i)). intros Hi.
  assert (Digest i = d) as Ed by (destruct Hi as (? & ? & _); by apply valid_inj).
  eapply triple_bind; [apply _|apply (calm_ask QNow), _|]. intros now.
  eapply triple_bind; [apply _|by apply own_create|]. intros created. apply triple_pure. intros ->.
  apply triple_ret; [apply _|]. intros w _ Ha. split; [by intros ? [= <-]|done].
Qed.

(** A pull changes. *)
Lemma alter_pull_ok L w m f p :
  I w → started w !! m = Some p → resolved (f p) = resolved p → pull_ok (f p) →
  (pulled (f p) = None → pulled p = None) → (PullOf m ∉ L → pulled (f p) = pulled p) →
  (∀ c, Caller c ∉ L → (c ∈ callers (f p) ↔ c ∈ callers p)) →
  G L w (alter_pull w m f) ∧ I (alter_pull w m f) ∧ started (alter_pull w m f) !! m = Some (f p).
Proof.
  intros HI Hp Er Hok Hnone Hpulled Hcallers.
  assert (∀ k q, alter f m (started w) !! k = Some q →
    ∃ q0, started w !! k = Some q0 ∧ (k = m ∧ q0 = p ∧ q = f p ∨ k ≠ m ∧ q = q0)) as Hinv.
  { intros k q Hq. destruct (decide (k = m)) as [->|Hne].
    - rewrite list_lookup_alter_eq, Hp in Hq. injection Hq as <-. exists p. split; [done|by left].
    - rewrite list_lookup_alter_ne in Hq by done. exists q. split; [done|by right]. }
  split; [|split; [split|]]; simpl; [|apply (index_ok _ HI)|apply (metadata_ok _ HI)|..].
  - split_and!; simpl; [|by auto| | |done].
    + intros d' Hn' [i Hi]. congruence.
    + intros k q Hq. destruct (decide (k = m)) as [->|Hne].
      * rewrite list_lookup_alter_eq, Hp. rewrite Hp in Hq. injection Hq as <-. by exists (f p).
      * rewrite list_lookup_alter_ne by done. by exists q.
    + intros k q Hk Hq%lookup_lt_Some. rewrite length_alter in Hq. lia.
  - intros d' k Hk. destruct (pulls_ok _ HI d' k Hk) as (? & q & Hq & Eq). split; [done|].
    destruct (decide (k = m)) as [->|Hne].
    + rewrite list_lookup_alter_eq, Hp. exists (f p). split; [done|]. by rewrite Er; simplify_eq.
    + rewrite list_lookup_alter_ne by done. eauto.
  - intros k q (q0 & Hq0 & [(-> & -> & ->)|(Hne & ->)])%Hinv Hq; [rewrite Er|]; apply (running_ok _ HI); auto.
  - intros k q (q0 & Hq0 & [(-> & -> & ->)|(Hne & ->)])%Hinv; [done|by eapply (pulls_well _ HI)].
  - by rewrite list_lookup_alter_eq, Hp.
Qed.

(** The outcome of the pull is there. *)
Definition ended (L : gset lock) w : Prop :=
  PullOf n ∈ L ∧ ∃ p, started w !! n = Some p ∧ is_Some (pulled p).


#[local] Instance stable_ended L : Stable L (ended L).
Proof.
  intros w w' (_ & H & _) [Hn (p & Hp & Hs)]. split; [done|]. destruct (H n p Hp) as (p' & Hp' & _ & Hr & _).
  exists p'. by rewrite Hr.
Qed.

Lemma own_set_pulled L res :
  asked_for res →
  triple L (active L) (modify (λ w, alter_pull w n (set_pulled res))) (λ _ w, active L w ∧ ended L w).
Proof.
  intros Hres. apply triple_step; [apply _|intros; apply _|]. intros w HI [Hn Hp].
  destruct (pulls_ok _ HI _ _ Hp) as (_ & p & Hs & Ed). destruct (pulls_well _ HI _ _ Hs) as [H1 H2 H3 H4].
  destruct (alter_pull_ok L w n (set_pulled res) p) as (HG & HI' & Hs'); [done..| |done|done|done|].
  { split; simpl; [done..|]. intros i [= ->]. rewrite Ed. by apply Hres. }
  split; [exact HG|]. split; [exact HI'|]. split; [done|]. split; [done|]. eexists. split; [exact Hs'|]. by eexists.
Qed.

Lemma own_forget L :
  triple L (λ w, active L w ∧ ended L w) (modify (λ w, set_pulls w (delete d (pulls w)) (started w))) (λ _, ended L).
Proof.
  apply triple_step; [apply _|intros; apply _|]. intros w HI [[Hn Hp] He]. simpl. split; [|split; [split|done]]; simpl;
    [|apply (index_ok _ HI)|apply (metadata_ok _ HI)|..|apply (pulls_well _ HI)].
  - split_and!; simpl; [| |naive_solver| |done].
    + intros d' Hn' [i Hi]. congruence.
    + intros d' k Hk HkL. rewrite lookup_delete_ne; [by auto|]. intros E. rewrite <-E in Hk. congruence.
    + intros k q Hk Hq%lookup_lt_Some. lia.
  - intros d' k [_ Hk]%lookup_delete_Some. by apply (pulls_ok _ HI).
  - intros k q Hq Hnone. pose proof (running_ok _ HI _ _ Hq Hnone) as Hk. rewrite lookup_delete_ne; [done|].
    intros E. rewrite <-E, Hp in Hk. injection Hk as <-. destruct He as (_ & p & Hp' & [? ?]). congruence.
Qed.

Lemma own_set_finished L : triple L (ended L) (modify (λ w, alter_pull w n set_finished)) (λ _ _, True).
Proof.
  apply triple_step; [apply _|intros; apply _|]. intros w HI (Hn & p & Hs & [res Hr]).
  destruct (pulls_well _ HI _ _ Hs) as [H1 H2 H3 H4].
  destruct (alter_pull_ok L w n set_finished p) as (HG & HI' & _); [done..| |done|done|done|done].
  split; simpl; [done..| |done]. intros _. congruence.
Qed.

Lemma own_runPull L : triple L (active L) (runPull dataDir maxConcurrentPulls rounds n r) (λ _ _, True).
Proof.
  unfold runPull. eapply triple_bind; [apply _|apply own_loadOrPull|]. intros res. apply triple_pure. intros Hres.
  eapply triple_bind; [apply _|by apply own_set_pulled|]. intros []. eapply triple_bind; [apply _|apply own_forget|]. intros [].
  apply own_set_finished.
Qed.

End OnePull.

(** *** A caller *)

Section OneCaller.

Context (c : nat).

(** The caller has joined no pull; it has joined [n]. *)
Definition absent (L : gset lock) w : Prop := Caller c ∈ L ∧ ∀ n p, started w !! n = Some p → c ∉ callers p.

#[local] Instance stable_absent L : Stable L (absent L).
Proof.
  intros w w' (_ & H2 & H3 & _) [Hc Ha]. split; [done|]. intros n p Hp. destruct (started w !! n) as [p0|] eqn:E.
  - destruct (H2 n p0 E) as (p' & Hp' & _ & _ & Hiff). simplify_eq. rewrite Hiff by done. by eapply Ha.
  - apply lookup_ge_None_1 in E. by eapply H3.
Qed.

Definition joined (n : nat) (L : gset lock) w : Prop := Caller c ∈ L ∧ ∃ p, started w !! n = Some p ∧ c ∈ callers p.

#[local] Instance stable_joined n L : Stable L (joined n L).
Proof.
  intros w w' (_ & H2 & _) (Hc & p & Hp & Hin). split; [done|]. destruct (H2 n p Hp) as (p' & Hp' & _ & _ & Hiff).
  exists p'. split; [done|]. by apply Hiff.
Qed.

Lemma join_new L w r :
  I w → absent L w → valid (resolvedDigest r) → pulls w !! resolvedDigest r = None →
  let w' := set_pulls w (<[resolvedDigest r := length (started w)]> (pulls w))
              (started w ++ [mkPull r None false false 1 false {[c]}]) in
  G L w w' ∧ I w' ∧ joined (length (started w)) L w'.
Proof.
  intros HI [Hc Ha] Hv Hnone w'.
  assert (started w' !! length (started w) = Some (mkPull r None false false 1 false {[c]})) as Hnew
    by (simpl; by rewrite lookup_app_r, Nat.sub_diag).
  assert (∀ k q, started w' !! k = Some q → started w !! k = Some q ∨
    k = length (started w) ∧ q = mkPull r None false false 1 false {[c]}) as Hinv.
  { intros k q [Hk|[Hk Hq]]%lookup_app_Some; [by left|]. right. apply list_lookup_singleton_Some in Hq as [? <-]. split; [lia|done]. }
  assert (∀ k q, started w !! k = Some q → started w' !! k = Some q) as Hold by (intros; by apply lookup_app_l_Some).
  split; [|split; [split|]]; [|apply (index_ok _ HI)|apply (metadata_ok _ HI)|..].
  - split_and!; [| | | |done].
    + intros d' Hn' [i Hi]. simpl in Hi. congruence.
    + intros d' k Hk HkL. simpl. rewrite lookup_insert_ne; [by auto|]. intros E. by rewrite E, Hk in Hnone.
    + intros k q Hq. exists q. split_and!; [by apply Hold|done..].
    + intros k q Hk Hq c' Hc'. apply Hinv in Hq as [Hq%lookup_lt_Some|[_ ->]]; [lia|]. simpl in Hc'. set_solver.
  - simpl. intros d' k [[<- <-]|[_ Hk]]%lookup_insert_Some; [eauto|]. destruct (pulls_ok _ HI d' k Hk) as (? & q & Hq & ?). eauto.
  - intros k q Hq Hq'. simpl. apply Hinv in Hq as [Hq|[-> ->]]; [|by rewrite lookup_insert_eq].
    pose proof (running_ok _ HI _ _ Hq Hq') as Hk. rewrite lookup_insert_ne; [done|]. intros E. by rewrite E, Hk in Hnone.
  - intros k q [Hq|[-> ->]]%Hinv; [by eapply (pulls_well _ HI)|]. split; [cbn [waiters callers]; by rewrite size_singleton|done..].
  - split; [done|]. eexists. split; [exact Hnew|]. set_solver.
Qed.

Lemma own_join L r :
  valid (resolvedDigest r) →
  triple L (absent L) (atomically (join c r)) (λ j w, match j with inl _ => absent L w | inr n => joined n L w end).
Proof.
  intros Hv. apply triple_step; [apply _|intros []; apply _|]. intros w HI Ha. unfold join.
  destruct (pulls w !! resolvedDigest r) as [n|] eqn:E; [|by apply join_new].
  destruct (pulls_ok _ HI _ _ E) as (_ & p & Hp & _). rewrite Hp. simpl. destruct (abandoned p) eqn:Hab.
  - destruct (open_refl w HI) as [_ Ho]. split; [apply Ho|done].
  - destruct Ha as [Hc Ha]. pose proof (Ha _ _ Hp) as Hnot. destruct (pulls_well _ HI _ _ Hp) as [H1 H2 H3 H4].
    destruct (alter_pull_ok L w n (join_pull c) p) as (HG & HI' & Hp'); [done..| |done|done| |].
    + split; cbn [waiters callers abandoned cancelled pulled join_pull]; [|congruence|done|done]. rewrite size_union, size_singleton by set_solver. lia.
    + intros c' Hc'. simpl. assert (c' ≠ c) by congruence. set_solver.
    + split; [exact HG|]. split; [exact HI'|]. split; [done|]. eexists. split; [exact Hp'|]. set_solver.
Qed.

Lemma own_leavePull L n : triple L (joined n L) (leavePull c n) (λ _ _, True).
Proof.
  apply triple_step; [apply _|intros; apply _|]. intros w HI (Hc & p & Hp & Hin). destruct (pulls_well _ HI _ _ Hp) as [H1 H2 H3 H4].
  assert (size (callers p ∖ {[c]}) = size (callers p) - 1) as Hsize
    by (rewrite size_difference, size_singleton by set_solver; lia).
  assert (size (callers p) ≠ 0) as Hpos by (apply size_non_empty_iff; set_solver).
  destruct (alter_pull_ok L w n (leave_pull c) p) as (HG & HI' & _); [done..| |done|done| |done].
  - split; simpl.
    + rewrite H1, Hsize. lia.
    + intros [Hab|Hl]%orb_true_iff; [rewrite H2 in Hin by done; set_solver|]. apply leibniz_equiv, size_empty_iff. lia.
    + intros [Hcan|Hl]%orb_true_iff Hnone; apply orb_true_iff; [left; auto|by right].
    + done.
  - intros c' Hc'. simpl. assert (c' ≠ c) by congruence. set_solver.
Qed.

End OneCaller.

(** *** Calls *)

Lemma open_awaitPull k n : calm (awaitPull k n).
Proof.
  induction k as [|k IH]; cbn [awaitPull]; [apply calm_bind; [apply (calm_ask QEnd)|auto with images]|].
  apply calm_bind; [apply (calm_ask QContext)|]. intros [e|]; [auto with images|].
  apply calm_bind; [auto with images|]. intros []; auto with images.
Qed.

#[local] Existing Instance stable_absent.
#[local] Existing Instance stable_joined.

(** Only that a call keeps to the rules is asked. *)
Lemma calm_then {A B} L P (p : M A) (g : A → M B) :
  calm p → Stable L P → (∀ a, triple L P (g a) (λ _ _, True)) → triple L P (p ≫= g) (λ _ _, True).
Proof. intros Hp HP Hg. eapply triple_bind; [apply _|by apply Hp|exact Hg]. Qed.

Lemma calm_end {A} L P (p : M A) : calm p → Stable L P → triple L P p (λ _ _, True).
Proof. intros Hp HP. eapply triple_post; [|by apply Hp]. done. Qed.

Lemma call_sharedPull c r k L :
  valid (resolvedDigest r) → triple L (absent c L) (sharedPull rounds k c r) (λ _ _, True).
Proof.
  intros Hv. induction k as [|k IH]; cbn [sharedPull].
  - apply calm_then; [apply (calm_ask QEnd)|apply _|]. intros e. by apply triple_ret; [apply _|].
  - eapply triple_bind; [apply _|by apply own_join|]. intros [n|n].
    + apply calm_then; [apply open_awaitPull|apply _|]. intros [[]|e]; [exact IH|]. by apply triple_ret; [apply _|].
    + apply calm_then; [apply open_awaitPull|apply _|]. intros [[]|e]; [apply calm_end; [auto with images|apply _]|].
      eapply triple_bind; [apply _|apply own_leavePull|]. intros []. by apply triple_ret; [apply _|].
Qed.

(** What [distribution/reference] says of a reference that has a digest. *)
Context (Hparse : ∀ s named dg, ParseNormalizedNamed s = Ok named → Canonical named = Some dg → valid dg).

Lemma parsed_valid s rf : parseRef ParseNormalizedNamed s = Ok rf → HasDigest rf = true → valid (digest rf).
Proof.
  unfold parseRef, Parse. destruct (ParseNormalizedNamed s) as [named|e] eqn:E; simpl; [|done].
  destruct (Canonical named) as [dg|] eqn:Ed; intros [= <-]; [|done]. intros _. by eapply Hparse.
Qed.

Lemma call_Pull c s L : triple L (absent c L) (Pull ParseNormalizedNamed rounds c s) (λ _ _, True).
Proof.
  unfold Pull. destruct (parseRef ParseNormalizedNamed s) as [rf|e] eqn:Er; [|by apply triple_ret; [apply _|]].
  change (triple L (absent c L) (ebind (Resolve rf) (λ r0,
    found ← gets (λ w, index_get (index w) (resolvedDigest r0));
    match found with
    | Some i => now ← ask QNow; markUsed (resolvedDigest r0) now ≫= λ _, mret (Ok i)
    | None => sharedPull rounds rounds c r0
    end)) (λ _ _, True)).
  eapply (triple_bind _ _ _ _ L _ _ _ (λ res w, (∀ r0, res = Ok r0 → valid (resolvedDigest r0)) ∧ absent c L w)).
  - unfold Resolve. destruct (HasDigest rf) eqn:Hd.
    + apply triple_ret; [apply _|]. intros w _ Ha. split; [|done]. intros r0 [= <-]. by eapply parsed_valid.
    + eapply triple_bind; [apply _|apply (calm_ask QResolve), _|]. intros [cause|[dg Hdg]]; (apply triple_ret; [apply _|]);
        intros w _ Ha; (split; [|done]); intros r0 [=]; by subst.
  - intros [r0|e]; apply triple_pure; intros Hv; [|by apply triple_ret; [apply _|]].
    apply calm_then; [auto with images|apply _|]. intros [i|]; [|by apply call_sharedPull, Hv].
    apply calm_end; [|apply _]. apply calm_bind; [apply (calm_ask QNow)|]. intros now. apply calm_bind; auto with images.
Qed.

Lemma call_Ensure c s policy L : triple L (absent c L) (Ensure ParseNormalizedNamed rounds c s policy) (λ _ _, True).
Proof.
  unfold Ensure. assert (triple L (absent c L) (found ← gets (λ w, find_image ParseNormalizedNamed s (index w));
      match found with
      | Ok i => now ← ask QNow; markUsed (Digest i) now ≫= λ _, mret (Ok i)
      | Err e =>
          if Is e ErrNotFound then
            match policy with
            | PullPolicyNever => mret (Err (NotFound "image %q is not on this host, and the pull policy is never: pull it first"))
            | _ => Pull ParseNormalizedNamed rounds c s
            end
          else mret (Err e)
      end) (λ _ _, True)) as Hfound; [|destruct policy; [exact Hfound|apply call_Pull|exact Hfound]].
  apply calm_then; [auto with images|apply _|]. intros [i|e].
  - apply calm_end; [|apply _]. apply calm_bind; [apply (calm_ask QNow)|]. intros now. apply calm_bind; auto with images.
  - destruct (Is e ErrNotFound); [|by apply triple_ret; [apply _|]].
    destruct policy; [apply call_Pull|apply call_Pull|by apply triple_ret; [apply _|]].
Qed.

(** ** The daemon starts *)

Lemma starts_load hex w :
  I w → run (loadFromDisk dataDir hex) ∅ w (λ res L' w', L' = ∅ ∧ w' = w ∧ ∀ i, res = Ok i → image_ok hex i ∧ sound w hex).
Proof.
  intros HI. unfold loadFromDisk. apply run_ebind, run_wrapping, run_ebind, run_wrapping, (run_ask QFile). intros [e|]; [done|].
  apply (run_step _ mret). destruct (dirs w !! hex ≫= metadata) as [i|] eqn:E; simpl; [|done].
  apply bind_Some in E as (dir & Hdir & Hm). destruct (metadata_ok _ HI _ _ _ Hdir Hm) as [Hi Hs].
  assert (∀ stat : bool, ∀ i', (if stat then Ok i else Err (Errorf "disk file missing: %w" (Sentinel ErrNotExist))) = Ok i' →
    image_ok hex i' ∧ sound w hex) as Hres by (intros [] i' [= <-]; done).
  apply run_bind. case_decide.
  - intros failed. refine (conj eq_refl (conj eq_refl _)). apply Hres.
  - intros failed. refine (conj eq_refl (conj eq_refl _)). apply Hres.
Qed.

Lemma starts_create hex i w :
  image_ok hex i → sound w hex → I w → run (ignoring (on_index (λ x, index_create x i))) ∅ w (λ _ L' w', L' = ∅ ∧ I w').
Proof.
  intros Hi Hs HI. split; [done|]. unfold index_create. simpl. destruct (index w !! Digest i) as [i'|] eqn:E; simpl.
  - by apply (index_open w (index w)); [|eauto].
  - pose proof Hi as (_ & Ehex & _). rewrite <-Ehex in Hi, Hs.
    split; [|apply (metadata_ok _ HI)|apply (pulls_ok _ HI)|apply (running_ok _ HI)|apply (pulls_well _ HI)].
    simpl. intros d' i' [[<- <-]|[_ Hi']]%lookup_insert_Some; [done|]. by apply (index_ok _ HI).
Qed.

Lemma starts_save hex i w :
  image_ok hex i → I w → sound w hex →
  run (ignoring (saveMetadata hex i)) ∅ w (λ _ L' w', L' = ∅ ∧ I w' ∧ sound w' hex).
Proof.
  intros Hi HI Hs [e|]; [done|]. simpl. split; [done|]. destruct (dirs w !! hex) as [dir|] eqn:E; [|done]. simpl.
  destruct (open_put_dir w hex (mkImageDir (disk dir) (Some i))) as [HI' _]; [done| |by intros ? [= <-]|].
  { unfold disk_at. by rewrite E. }
  split; [exact HI'|]. by eapply (metadata_ok _ HI'); [apply lookup_insert_eq|].
Qed.

Lemma starts_loadExisting hex w : I w → run (loadExisting dataDir hex) ∅ w (λ _ L' w', L' = ∅ ∧ I w').
Proof.
  intros HI. unfold loadExisting. apply run_bind. eapply run_mono; [|by apply starts_load]. intros [i|e] L' w' (-> & -> & Hi); [|done].
  destruct (Hi i eq_refl) as [Hi' Hs]. destruct (LastUsedAt i =? 0)%Z.
  - apply run_bind, (run_ask QNow). intros now. apply run_bind.
    eapply run_mono; [|apply (starts_save hex (set_LastUsedAt i now) w); done].
    intros [] L' w' (-> & HI' & Hs'). by apply (starts_create hex).
  - by apply (starts_create hex).
Qed.

(** ** Every interleaving *)

(** A number that no caller had before. *)
Definition new_caller w c : Prop := ∀ n p, started w !! n = Some p → c ∉ callers p.

(** What may be started: calls, each by a caller of its own; the goroutine of
    a pull, once; removals, whatever is in use; and garbage collection. *)
Inductive admissible w : M unit → gset lock → Prop :=
  | may_pull c s : new_caller w c → admissible w (ignoring (Pull ParseNormalizedNamed rounds c s)) {[Caller c]}
  | may_ensure c s policy :
      new_caller w c → admissible w (ignoring (Ensure ParseNormalizedNamed rounds c s policy)) {[Caller c]}
  | may_run n p :
      started w !! n = Some p → pulled p = None →
      admissible w (runPull dataDir maxConcurrentPulls rounds n (resolved p)) {[PullOf n]}
  | may_delete s inUse : admissible w (ignoring (Delete ParseNormalizedNamed s inUse)) ∅
  | may_prune inUse : admissible w (ignoring (Prune inUse)) ∅
  | may_collect p : admissible w (runGCPass layoutBytes p) ∅.

(** The daemon dies and is started again, on the files that it left. *)
Definition crash w w' : Prop :=
  ∃ world (res : result unit) n, exec world (NewManager dataDir) 0 ∅ (died w) = Some (res, w', n).

Definition reaches w (c : config) : Prop := rtc (step admissible crash) (Conc.mkConfig w []) c.

(** A host that never held an image. *)
Definition initial w : Prop := index w = ∅ ∧ dirs w = ∅ ∧ pulls w = ∅ ∧ started w = [] ∧ spoiled w = ∅.

Lemma ignoring_end {A} L P (p : M A) : triple L P p (λ _ _, True) → triple L P (ignoring p) (λ _ _, True).
Proof. intros Hp. eapply triple_bind; [apply _|exact Hp|]. intros a. by apply triple_ret; [apply _|]. Qed.

Lemma admissible_follows w p L : I w → admissible w p L → ∃ P, P w ∧ triple L P p (λ _ _, True).
Proof.
  intros HI. destruct 1 as [c s Hc|c s policy Hc|n p Hp Hnone|s inUse|inUse|p].
  - exists (absent c {[Caller c]}). split; [split; [set_solver|done]|]. apply ignoring_end, call_Pull.
  - exists (absent c {[Caller c]}). split; [split; [set_solver|done]|]. apply ignoring_end, call_Ensure.
  - exists (active n (resolved p) {[PullOf n]}). pose proof (running_ok _ HI _ _ Hp Hnone) as Hn.
    destruct (pulls_ok _ HI _ _ Hn) as [Hv _]. split; [split; [set_solver|done]|]. by apply own_runPull.
  - exists (λ _, True). split; [done|]. apply calm_end; [|apply _]. apply calm_ignoring; auto with images.
  - exists (λ _, True). split; [done|]. apply calm_end; [|apply _]. apply calm_ignoring, open_Prune.
  - exists (λ _, True). split; [done|]. apply calm_end; [apply open_runGCPass|apply _].
Qed.

Lemma died_ok w : I w → I (died w).
Proof.
  intros HI. split; simpl; try done. intros hex dir i Hd Hi. destruct (metadata_ok _ HI _ _ _ Hd Hi). done.
Qed.

Lemma starts_again w : I w → run (NewManager dataDir) ∅ w (λ _ _ w', I w').
Proof.
  intros HI. unfold NewManager. apply run_ebind, run_wrapping, (run_ask QFile). intros [e|]; [done|].
  apply run_bind, run_bind. unfold loadExistingImages. apply run_ebind, run_wrapping, (run_ask QFile). intros [e|]; [done|].
  apply run_bind. cbn [run gets atomically fst snd]. apply run_bind.
  eapply run_mono; [|apply (run_for_all _ _ ∅ _ I); [intros hex; apply starts_loadExisting|exact HI]].
  by intros [] L' w' [-> HI'].
Qed.

Lemma restart_ok w w' : I w → crash w w' → I w'.
Proof.
  intros HI (world & r & n & He). destruct (run_exec world _ 0 _ _ _ (starts_again _ (died_ok _ HI))) as (a & s' & n' & L' & He' & HI').
  rewrite He in He'. by simplify_eq.
Qed.

Lemma reaches_I w cfg : initial w → reaches w cfg → I (Conc.state cfg).
Proof.
  intros (E1 & E2 & E3 & E4 & E5) Hc.
  apply (reachable_config_ok admissible crash I G R (λ _, 0)) in Hc as (HI & _); [done| |apply restart_ok|].
  - intros w' p L HI Hp. destruct (admissible_follows w' p L HI Hp) as (P & HP & Ht).
    eapply wp_mono; [|by apply Ht]. intros a L' s' _ [-> _] l _. done.
  - split_and!; simpl; [|by intros i j t u|by intros t Ht%elem_of_nil]. split; rewrite ?E1, ?E2, ?E3, ?E4; done.
Qed.

(** C18: however calls, removals and collections interleave, and whenever the
    daemon dies: two pulls of one image are never under way at the same time;
    a pull knows how many callers it has, and is cancelled before it is through
    only if none is left; and what it gives its callers is the image that they
    asked for. *)
Theorem pulls_are_shared w cfg :
  initial w → reaches w cfg → let w' := Conc.state cfg in
  (∀ n1 n2 p1 p2, started w' !! n1 = Some p1 → started w' !! n2 = Some p2 → pulled p1 = None → pulled p2 = None →
     resolvedDigest (resolved p1) = resolvedDigest (resolved p2) → n1 = n2) ∧
  (∀ n p, started w' !! n = Some p →
     waiters p = Z.of_nat (size (callers p)) ∧
     (cancelled p = true → pulled p = None → callers p = ∅) ∧
     ∀ i, pulled p = Some (Ok i) → Digest i = resolvedDigest (resolved p)).
Proof.
  intros Hw Hc w'. pose proof (reaches_I w cfg Hw Hc) as HI. split.
  - intros n1 n2 p1 p2 H1 H2 N1 N2 E. pose proof (running_ok _ HI _ _ H1 N1) as R1. pose proof (running_ok _ HI _ _ H2 N2) as R2.
    rewrite E in R1. congruence.
  - intros n p Hp. destruct (pulls_well _ HI _ _ Hp) as [H1 H2 H3 H4]. split_and!; [done| |done]. auto.
Qed.

(** C19: however calls, removals and collections interleave, and whenever the
    daemon dies, an image that the host holds is held under its digest and has
    its own disk, which is there and whole: unless its directory was removed
    while it was held or pulled, or had metadata without a whole disk. *)
Theorem images_are_whole w cfg :
  initial w → reaches w cfg → let w' := Conc.state cfg in
  ∀ d i, index w' !! d = Some i →
    Digest i = d ∧ DiskPath i = diskPath dataDir (digestHex d) ∧
    (disk_at w' (digestHex d) = Some Whole ∨ digestHex d ∈ spoiled w').
Proof.
  intros Hw Hc w' d i Hi. destruct (index_ok _ (reaches_I w cfg Hw Hc) d i Hi) as (? & (_ & _ & ?) & ?). done.
Qed.

End Pulls.

(** ** An example *)

Definition example_hex : string := "0123456789abcdef0123456789abcdef0123456789abcdef0123456789abcdef".

Definition example_digest : string := "sha256:" +:+ example_hex.

Lemma example_valid : valid example_digest.
Proof. apply (bool_decide_unpack _). vm_compute. exact Logic.I. Qed.

(** An image has a name, or a name and its digest. *)
Definition example_parse (s : string) : result Named :=
  match Str.cut "@" s with
  | (name, None) => Ok (mkNamed "docker.io" name None name (name +:+ ":latest"))
  | (name, Some dg) =>
      if decide (valid dg) then Ok (mkNamed "docker.io" name (Some dg) s s) else Err (New "invalid reference format")
  end.

Lemma example_parse_valid s named dg : example_parse s = Ok named → Canonical named = Some dg → valid dg.
Proof. unfold example_parse. destruct (Str.cut "@" s) as [name [dg'|]]; [destruct (decide _)|]; by intros [= <-] [= <-]. Qed.

Definition example_ref : ResolvedRef := mkResolvedRef (mkRef "app:latest" "docker.io/app" "") example_digest.

(** Everything that is asked for is done. *)
Definition example_world (q : query) (n : nat) : answer q :=
  match q with
  | QNow => 7%Z
  | QFile | QMkfs | QCacheSize | QContext => None
  | QRemove => (true, false)
  | QResolve => inr (example_digest ↾ example_valid)
  | QPull => Fetched [("layer", 10%Z)] (mkConfigFile ["/app"] [] ["A=1"] "/" "" None)
  | QSize => 4096%Z
  | QPrune => Pruned ∅
  | QEnd => Sentinel Canceled
  | QInUse => Ok ∅
  end.

Definition empty_world : World := mkWorld ∅ ∅ ∅ (mkCache [] ∅) ∅ [] 0 [] ∅.

Abbreviation schedule := (list (move (S:=World) (answer:=answer) (lock:=lock))) (only parsing).
Abbreviation config_t := (config (S:=World) (answer:=answer) (lock:=lock)) (only parsing).
Abbreviation example_reaches := (reaches "/var/lib/dicer" 3 example_parse 3 (λ _, 0%Z)) (only parsing).
Abbreviation example_admissible := (admissible "/var/lib/dicer" 3 example_parse 3 (λ _, 0%Z)) (only parsing).

Definition pull_by (c : nat) : M unit := ignoring (Pull example_parse 3 c "app").

Definition run_pull (n : nat) : M unit := runPull "/var/lib/dicer" 3 3 n example_ref.

(** Two callers share a pull. *)
Definition shared_moves : schedule :=
  [ Spawn (pull_by 0) {[Caller 0]}; Go 0 3; Spawn (pull_by 1) {[Caller 1]}; Go 1 3;
    Spawn (run_pull 0) {[PullOf 0]}; Go 2 99; Go 0 99; Go 1 99 ].

Lemma shared_playable : playable example_admissible example_world shared_moves (Conc.mkConfig empty_world []).
Proof.
  unfold shared_moves, pull_by, run_pull. cbn [playable spawn]. split_and!; [apply may_pull|apply may_pull| |done].
  - by intros n p.
  - intros n p. vm_compute. destruct n as [|n]; [intros [= <-]; set_solver|by destruct n].
  - refine (may_run _ _ _ _ _ _ 0 (mkPull example_ref None false false 2 false {[0; 1]}) _ _); vm_compute; reflexivity.
Qed.

Definition shared_outcome (c : config_t) : bool :=
  match started (Conc.state c) with
  | [p] => (waiters p =? 2)%Z && finished p && match pulled p with Some (Ok i) => bool_decide (Name i = "app:latest") | _ => false end
  | _ => false
  end && bool_decide (disk_at (Conc.state c) example_hex = Some Whole) &&
  bool_decide (spoiled (Conc.state c) = ∅) && bool_decide (is_Some (index (Conc.state c) !! example_digest)).

Lemma pulls_are_shared_witness :
  ∃ c, example_reaches empty_world c ∧ shared_outcome c = true ∧
    ∀ n p, started (Conc.state c) !! n = Some p → waiters p = Z.of_nat (size (callers p)).
Proof.
  destruct (play_reaches _ (crash "/var/lib/dicer") example_world shared_moves _ shared_outcome shared_playable) as (c & Hc & Hg);
    [vm_compute; reflexivity|].
  exists c. split; [exact Hc|]. split; [exact Hg|]. intros n p Hp.
  assert (initial empty_world) as Hw by by split_and!.
  exact (proj1 (proj2 (pulls_are_shared _ _ _ _ _ example_parse_valid empty_world c Hw Hc) n p Hp)).
Defined.

Lemma images_are_whole_witness :
  ∃ c, example_reaches empty_world c ∧ shared_outcome c = true ∧
    ∀ d i, index (Conc.state c) !! d = Some i → Digest i = d.
Proof.
  destruct (play_reaches _ (crash "/var/lib/dicer") example_world shared_moves _ shared_outcome shared_playable) as (c & Hc & Hg);
    [vm_compute; reflexivity|].
  exists c. split; [exact Hc|]. split; [exact Hg|]. intros d i Hi.
  assert (initial empty_world) as Hw by by split_and!.
  exact (proj1 (images_are_whole _ _ _ _ _ example_parse_valid empty_world c Hw Hc d i Hi)).
Defined.

(** ** Two defects *)

(** An image is pulled; it is deleted, and pulled again before its files are
    removed. *)
Definition overtaken_moves : schedule :=
  [ Spawn (pull_by 0) {[Caller 0]}; Go 0 3; Spawn (run_pull 0) {[PullOf 0]}; Go 1 99; Go 0 99;
    Spawn (ignoring (Delete example_parse "app" ∅)) ∅; Go 2 2;
    Spawn (pull_by 1) {[Caller 1]}; Go 3 3; Spawn (run_pull 1) {[PullOf 1]}; Go 4 99; Go 3 99;
    Go 2 99 ].

Lemma overtaken_playable : playable example_admissible example_world overtaken_moves (Conc.mkConfig empty_world []).
Proof.
  unfold overtaken_moves, pull_by, run_pull. cbn [playable spawn]. split_and!; [apply may_pull| |apply may_delete|apply may_pull| |done].
  - by intros n p.
  - refine (may_run _ _ _ _ _ _ 0 (mkPull example_ref None false false 1 false {[0]}) _ _); vm_compute; reflexivity.
  - intros n p. vm_compute. destruct n as [|n]; [intros [= <-]; set_solver|by destruct n].
  - refine (may_run _ _ _ _ _ _ 1 (mkPull example_ref None false false 1 false {[1]}) _ _); vm_compute; reflexivity.
Qed.

(** Every call has returned, and the host holds an image that has no files. *)
Definition gone (c : config_t) : bool :=
  forallb (λ t, match code t with Ret _ _ => true | _ => false end) (threads c) &&
  bool_decide (is_Some (index (Conc.state c) !! example_digest)) && bool_decide (dirs (Conc.state c) !! example_hex = None).

(** C40: an image may lose its disk and still be held: it is deleted, and its
    files are removed only after it has been pulled again. *)
Theorem pulled_again_image_loses_its_disk :
  ∃ c, example_reaches empty_world c ∧ gone c = true.
Proof.
  destruct (play_reaches _ (crash "/var/lib/dicer") example_world overtaken_moves _ gone overtaken_playable) as (c & Hc & Hg);
    [vm_compute; reflexivity|]. by exists c.
Qed.

(** The daemon dies while it removes an image, whose metadata is there still;
    and again, while it makes the disk of the image that was pulled again. *)
Definition dies_removing : schedule :=
  [ Spawn (pull_by 0) {[Caller 0]}; Go 0 3; Spawn (run_pull 0) {[PullOf 0]}; Go 1 99; Go 0 99;
    Spawn (ignoring (Delete example_parse "app" ∅)) ∅; Go 2 4 ].

Definition dies_making : schedule :=
  [ Spawn (pull_by 0) {[Caller 0]}; Go 0 3; Spawn (run_pull 0) {[PullOf 0]}; Go 1 14 ].

(** What a schedule comes to if the daemon dies at its end, and is started
    again. *)
Definition restarted (moves : schedule) (w : World) : option World :=
  c ← play example_world moves (Conc.mkConfig w []);
  '(_, w', _) ← exec example_world (NewManager "/var/lib/dicer") 0 ∅ (died (Conc.state c));
  Some w'.

Lemma restarted_reaches moves w w' :
  playable example_admissible example_world moves (Conc.mkConfig w []) → restarted moves w = Some w' →
  rtc (step example_admissible (crash "/var/lib/dicer")) (Conc.mkConfig w []) (Conc.mkConfig w' []).
Proof.
  intros Hp. unfold restarted. intros ([s ts] & Hc & H)%bind_Some. apply bind_Some in H as ([[res w2] n] & He & [= <-]).
  eapply rtc_r; [by eapply play_steps|]. apply step_crash. by exists example_world, res, n.
Qed.

Definition half_removed : World := default empty_world (restarted dies_removing empty_world).

Definition half_made : World := default empty_world (restarted dies_making half_removed).

Lemma removing_playable : playable example_admissible example_world dies_removing (Conc.mkConfig empty_world []).
Proof.
  unfold dies_removing, pull_by, run_pull. cbn [playable spawn]. split_and!; [apply may_pull| |apply may_delete|done].
  - by intros n p.
  - refine (may_run _ _ _ _ _ _ 0 (mkPull example_ref None false false 1 false {[0]}) _ _); vm_compute; reflexivity.
Qed.

Lemma half_removed_idle : started half_removed = [].
Proof. vm_compute. reflexivity. Qed.

Lemma making_playable : playable example_admissible example_world dies_making (Conc.mkConfig half_removed []).
Proof.
  unfold dies_making, pull_by, run_pull. cbn [playable spawn]. split_and!; [apply may_pull| |done].
  - intros n p. cbn [Conc.state]. rewrite half_removed_idle. discriminate.
  - refine (may_run _ _ _ _ _ _ 0 (mkPull example_ref None false false 1 false {[0]}) _ _); vm_compute; reflexivity.
Qed.

Lemma half_removed_is : restarted dies_removing empty_world = Some half_removed.
Proof. vm_compute. reflexivity. Qed.

Lemma half_made_is : restarted dies_making half_removed = Some half_made.
Proof. vm_compute. reflexivity. Qed.

(** A disk that is not whole may be taken for an image: metadata that an
    interrupted removal left vouches for whatever disk is there when the daemon
    starts, and an interrupted pull leaves part of one. *)
Theorem interrupted_pull_is_taken_for_an_image :
  example_reaches empty_world (Conc.mkConfig half_made []) ∧
  is_Some (index half_made !! example_digest) ∧ disk_at half_made example_hex = Some Incomplete.
Proof.
  split_and!; [|by apply (bool_decide_unpack _); vm_compute|vm_compute; reflexivity].
  unfold reaches. etrans; [exact (restarted_reaches _ _ _ removing_playable half_removed_is)|].
  exact (restarted_reaches _ _ _ making_playable half_made_is).
Qed.

End Pulls.
