(* ===== verification/Collect.v ===== *)
(** * What garbage collection removes

    A pass of garbage collection of images, on its own: whatever it is
    answered, it removes only what nothing uses and nothing used of late, for
    its age or, the least recently used first, for the size of the store; and
    a pass that returns no error leaves nothing that is too old, and brings the
    store under its size unless nothing more may go. *)

From S2P Require Import Prelude Paths Errdefs Health Conc Images.

Module Collect.
Import Images.
Open Scope prog_scope.
Open Scope Z_scope.

(** ** Orders and indexes *)

#[global] Instance used_le_total : Total used_le.
Proof.
  intros a b. unfold used_le. destruct (Z.lt_trichotomy (LastUsedAt a) (LastUsedAt b)) as [?|[?|?]]; [by auto| |by auto].
  destruct (total String.le (Digest a) (Digest b)); auto.
Qed.

#[global] Instance used_le_trans : Transitive used_le.
Proof.
  intros a b c [?|[E1 ?]] [?|[E2 ?]]; unfold used_le; [left; lia..|]. right. split; [congruence|by etrans].
Qed.

(** Images that are held under their digests. *)
Definition keyed (x : index_t) : Prop := ∀ d i, x !! d = Some i → Digest i = d.

Lemma elem_of_index_list x i : keyed x → i ∈ index_list x ↔ x !! Digest i = Some i.
Proof.
  intros Hx. unfold index_list. rewrite list_elem_of_fmap. split.
  - intros ([d i'] & -> & Hi%elem_of_map_to_list). simpl. by rewrite (Hx d i').
  - intros Hi. exists (Digest i, i). split; [done|]. by apply elem_of_map_to_list.
Qed.

Definition without (images : list Image) (x : index_t) : index_t := foldl (λ x i, delete (Digest i) x) x images.

Lemma lookup_without images x d i :
  without images x !! d = Some i ↔ x !! d = Some i ∧ ∀ j, j ∈ images → Digest j ≠ d.
Proof.
  unfold without. revert x. induction images as [|j images IH]; intros x; simpl.
  - split; [|naive_solver]. intros ?. split; [done|]. by intros j Hj%elem_of_nil.
  - rewrite IH, lookup_delete_Some. setoid_rewrite elem_of_cons. naive_solver.
Qed.

(** An image that is in use. *)
Definition touch (now : Z) (i : Image) : Image := if LastUsedAt i <? now then set_LastUsedAt i now else i.

Lemma lookup_marked now ds x d :
  foldl (λ x d, (index_markUsed x d now).2) x ds !! d = if decide (d ∈ ds) then touch now <$> x !! d else x !! d.
Proof.
  assert (∀ i, touch now (touch now i) = touch now i) as Htouch.
  { intros i. unfold touch. destruct (LastUsedAt i <? now) eqn:E; simpl; [by rewrite Z.ltb_irrefl|by rewrite E]. }
  assert (∀ x d', (index_markUsed x d' now).2 !! d = if decide (d = d') then touch now <$> x !! d else x !! d) as Hone.
  { intros y d'. unfold index_markUsed, touch. destruct (y !! d') as [i|] eqn:E; [destruct (LastUsedAt i <? now) eqn:El|]; simpl.
    - case_decide as Ed; [subst; by rewrite lookup_insert_eq, E; simpl; rewrite El|by rewrite lookup_insert_ne].
    - case_decide as Ed; [|done]. subst. rewrite E. simpl. by rewrite El.
    - case_decide as Ed; [|done]. subst. by rewrite E. }
  revert x. induction ds as [|d' ds IH]; intros x; simpl; [done|]. rewrite IH, Hone.
  destruct (decide (d ∈ ds)) as [Hd|Hd], (decide (d = d')) as [->|Hne].
  - rewrite decide_True by set_solver. destruct (x !! d'); simpl; [by rewrite Htouch|done].
  - by rewrite decide_True by set_solver.
  - by rewrite decide_True by set_solver.
  - by rewrite decide_False by set_solver.
Qed.

(** ** What the programs do to the index *)

Section Run.

Context (layoutBytes : list (string * list string) → Z).

Implicit Types (w : World) (x : index_t).

(** A program that does not change the index. *)
Definition still {A} (p : M A) : Prop := ∀ L w, run p L w (λ _ L' w', L' = L ∧ index w' = index w).

Lemma still_bind {A B} (p : M A) (g : A → M B) : still p → (∀ a, still (g a)) → still (p ≫= g).
Proof.
  intros Hp Hg L w. apply run_bind. eapply run_mono; [|apply Hp]. intros a L' w' [-> <-]. apply Hg.
Qed.

Lemma still_ebind {A B} (p : M (result A)) (g : A → M (result B)) : still p → (∀ a, still (g a)) → still (ebind p g).
Proof. intros Hp Hg. apply still_bind; [done|]. intros [a|e]; [apply Hg|done]. Qed.

Lemma still_ask q : still (ask q).
Proof. by intros L w a. Qed.

Lemma still_ret {A} (a : A) : still (mret a).
Proof. by intros L w. Qed.

#[local] Hint Resolve still_ret : core.

Lemma still_modify f : (∀ w, index (f w) = index w) → still (modify f).
Proof. intros Hf L w. split; [done|apply Hf]. Qed.

(** What follows a program that does not change the index. *)
Lemma run_still {A B} (p : M A) (g : A → M B) L w Q :
  still p → (∀ a w', index w' = index w → run (g a) L w' Q) → run (p ≫= g) L w Q.
Proof. intros Hp Hg. apply run_bind. eapply run_mono; [|apply Hp]. intros a L' w' [-> E]. by apply Hg. Qed.

Lemma index_remove_from own hex f w : index (remove_from own hex f w) = index w.
Proof. unfold remove_from. destruct (dirs w !! hex); [|done]. destruct (negb own && claimed w hex), (f i); done. Qed.

Lemma still_deleteFiles own hex : still (deleteFiles own hex).
Proof.
  assert (still attempt) as Hatt by (apply still_bind; [apply (still_ask QFile)|done]).
  unfold deleteFiles, removeAll. apply still_ebind.
  - apply still_bind; [|done]. apply still_bind; [apply (still_ask QRemove)|]. intros [noDisk noMetadata].
    apply still_bind; [apply still_modify; intros; apply index_remove_from|]. intros _. apply still_ebind; [done|]. intros _.
    apply still_bind; [apply still_modify; intros; apply index_remove_from|done].
  - intros _. apply still_bind; [|done]. apply still_bind; [|done]. apply still_ebind; [done|done].
Qed.

Lemma still_saveMetadata hex i : still (saveMetadata hex i).
Proof.
  apply still_bind; [apply (still_ask QFile)|]. intros [e|]; [done|]. intros L w. simpl. by destruct (dirs w !! hex).
Qed.

Lemma still_records action images : still (for_all (λ i, record i action) images).
Proof. induction images as [|i images IH]; [done|]. by apply still_bind. Qed.

Lemma run_markUsed d now L w Q :
  (∀ w', index w' = (index_markUsed (index w) d now).2 → Q tt L w') → run (markUsed d now) L w Q.
Proof.
  intros HQ. unfold markUsed, on_index. apply run_step.
  destruct (index_markUsed (index w) d now) as [o x] eqn:E. cbn [fst snd]. destruct o as [i|]; [|by apply HQ].
  apply run_still; [apply still_saveMetadata|]. intros a w' E'. by apply HQ.
Qed.

Lemma run_mark_all ds now L w :
  run (for_all (λ d, markUsed d now) ds) L w
    (λ _ L' w', L' = L ∧ index w' = foldl (λ x d, (index_markUsed x d now).2) (index w) ds).
Proof.
  revert w. induction ds as [|d ds IH]; intros w; [done|]. cbn [for_all foldl]. apply run_bind, run_markUsed. intros w' <-. apply IH.
Qed.

(** The index without some images. *)
Lemma run_remove_each images removed L w :
  run (remove_each images removed) L w (λ r L' w', L' = L ∧ index w' = without images (index w)).
Proof.
  revert removed w. induction images as [|i images IH]; intros removed w; [done|]. cbn [remove_each]. unfold on_index. apply run_step.
  unfold index_delete. destruct (index w !! Digest i) as [i'|] eqn:E; cbn [fst snd].
  - apply run_still; [apply still_deleteFiles|]. intros gone w' E'. eapply run_mono; [|apply IH].
    intros r L' w2 [-> ->]. by rewrite E'.
  - eapply run_mono; [|apply IH]. intros r L' w2 [-> ->]. split; [done|]. unfold without. cbn [foldl]. by rewrite delete_id.
Qed.

Lemma run_remove images L w : run (remove images) L w (λ _ L' w', L' = L ∧ index w' = without images (index w)).
Proof.
  unfold remove. apply run_bind. eapply run_mono; [|apply run_remove_each]. intros [removed err] L' w' [-> <-].
  assert (still (match err with
    | Some e => mret (mkPruneResult removed (sum_sizes (SizeBytes <$> removed)), Some e)
    | None => pruneOthers ≫= λ reclaimed, match reclaimed with
        | Err e => mret (mkPruneResult removed (sum_sizes (SizeBytes <$> removed)), Some (Errorf "prune layer cache: %w" e))
        | Ok n => mret (mkPruneResult removed (sum_sizes (SizeBytes <$> removed) + n), None)
        end
    end)) as Hs; [|apply Hs].
  destruct err as [e|]; [done|]. apply still_bind; [|by intros []]. unfold pruneOthers. apply still_bind; [done|]. intros keep.
  apply still_bind; [apply (still_ask QPrune)|]. intros pruning L' w2. simpl. by destruct (PruneCache _ _ _).
Qed.

Lemma run_collect images reason result L w :
  run (collect images reason result) L w (λ _ L' w', L' = L ∧ index w' = without images (index w)).
Proof.
  unfold collect. destruct images as [|i images]; [done|]. apply run_bind. eapply run_mono; [|apply run_remove].
  intros [removed err] L' w' [-> <-]. apply still_bind; [apply still_records|done].
Qed.

Lemma still_ret_run {A} (a : A) L w (Q : A → gset lock → World → Prop) : Q a L w → run (mret a : M A) L w Q.
Proof. done. Qed.

Lemma through_storeSize L w past Q :
  (∀ e, Q (Err e) L w past) → Q (Ok (totalSize layoutBytes w)) L w (w :: w :: past) → run_through (storeSize layoutBytes) L w past Q.
Proof. intros He Hs. by intros [e|]; [apply He|]. Qed.

(** Images go in their order, each while the store is too large, until it is
    small enough. *)
Lemma through_collect_over p images result L w past :
  run_through (collect_over layoutBytes p images result) L w past (λ r L' w' past',
    L' = L ∧ past `suffix_of` past' ∧ ∃ gone rest, images = gone ++ rest ∧ index w' = without gone (index w) ∧
      (r.2 = None → rest = [] ∨ totalSize layoutBytes w' ≤ MaxSize p) ∧
      ∀ before i after, gone = before ++ i :: after →
        ∃ w0, w0 ∈ past' ∧ index w0 = without before (index w) ∧ MaxSize p < totalSize layoutBytes w0).
Proof.
  assert (∀ before (i : Image) after, [] = before ++ i :: after → False) as Hnil by by intros [].
  revert result w past. induction images as [|i images IH]; intros result w past.
  { split_and!; [done..|]. exists [], []. split_and!; [done..|by left|]. by intros ? ? ? []%Hnil. }
  cbn [collect_over]. apply run_through_bind, through_storeSize.
  { intros e. split_and!; [done..|]. exists [], (i :: images). split_and!; [done..|]. by intros ? ? ? []%Hnil. }
  destruct (totalSize layoutBytes w <=? MaxSize p) eqn:Hsize.
  { split_and!; [done|by do 2 apply suffix_cons_r|]. exists [], (i :: images). split_and!; [done..| |by intros ? ? ? []%Hnil].
    right. by apply Z.leb_le. }
  apply run_through_bind. eapply run_through_mono; [|apply run_through_run, run_collect]. intros [result' err] L' w' past' [[-> E] Hpast].
  assert (past `suffix_of` past') as Hp by (etrans; [|exact Hpast]; by do 2 apply suffix_cons_r).
  assert (w ∈ past') as Hin by (destruct Hpast as [pre ->]; set_solver). apply Z.leb_gt in Hsize.
  destruct err as [e|].
  { split_and!; [done..|]. exists [i], images. split_and!; [done..|]. intros [|? before] i' after Hgone; simplify_eq/=;
      [exists w; by split_and!|by destruct before]. }
  eapply run_through_mono; [|apply IH]. intros r L' w2 past2 (-> & Hp2 & gone & rest & -> & E2 & Hend & Hover). split_and!; [done|by etrans|].
  exists (i :: gone), rest. split_and!; [done|by rewrite E2, E|done|]. intros before i' after Hgone.
  destruct before as [|i0 before]; simplify_eq/=.
  - exists w. split_and!; [|done..]. destruct Hp2 as [pre ->]. set_solver.
  - destruct (Hover before i' after eq_refl) as (w0 & ? & E0 & ?). exists w0. split_and!; [done| |done]. by rewrite E0, E.
Qed.

(** ** A pass *)

Definition expired (p : GCPolicy) (now : Z) (i : Image) : bool :=
  (0 <? MaxUnusedAge p) && (MaxUnusedAge p <? time_sub now (LastUsedAt i)).

Lemma elem_of_collectable x inUse now i :
  keyed x → i ∈ collectableImages (index_list x) inUse now ↔ x !! Digest i = Some i ∧ collectable inUse now i = true.
Proof.
  intros Hx. unfold collectableImages. rewrite merge_sort_Permutation. rewrite list_elem_of_In, filter_In, <-list_elem_of_In.
  by rewrite elem_of_index_list.
Qed.

Lemma elem_of_expired p x inUse now i :
  keyed x → i ∈ expiredImages p (index_list x) inUse now ↔
    x !! Digest i = Some i ∧ collectable inUse now i = true ∧ expired p now i = true.
Proof.
  intros Hx. unfold expiredImages, expired. rewrite Z.leb_antisym. destruct (0 <? MaxUnusedAge p); simpl.
  - rewrite list_elem_of_In, filter_In, <-list_elem_of_In, elem_of_collectable by done. naive_solver.
  - rewrite elem_of_nil. naive_solver.
Qed.

Lemma sorted_collectable images inUse now : StronglySorted used_le (collectableImages images inUse now).
Proof. apply (StronglySorted_merge_sort used_le). Qed.

Lemma keyed_without images x : keyed x → keyed (without images x).
Proof. intros Hx d i [Hi _]%lookup_without. by apply Hx. Qed.

Definition all_marked (inUse : InUse) (now : Z) (x : index_t) : index_t :=
  foldl (λ x d, (index_markUsed x d now).2) x (elements (dom inUse)).

Lemma lookup_all_marked inUse now x d :
  all_marked inUse now x !! d = if decide (is_Some (inUse !! d)) then touch now <$> x !! d else x !! d.
Proof.
  unfold all_marked. rewrite lookup_marked. apply decide_ext. by rewrite elem_of_elements, elem_of_dom.
Qed.

Lemma keyed_all_marked inUse now x : keyed x → keyed (all_marked inUse now x).
Proof.
  intros Hx d i. rewrite lookup_all_marked. case_decide; [|apply Hx]. rewrite fmap_Some. intros (i' & Hi & ->).
  rewrite <-(Hx d i' Hi). unfold touch. by destruct (_ <? _).
Qed.

(** How a pass goes: the images in use are marked, those that are too old go,
    and then [gone] go, of those that may, for the size of the store; each while
    the store is too large. *)
Definition passed (p : GCPolicy) (inUse : InUse) (now : Z) (x x' : index_t) (past : list World) (gone rest : list Image) : Prop :=
  let x1 := all_marked inUse now x in
  let x2 := without (expiredImages p (index_list x1) inUse now) x1 in
  x' = without gone x2 ∧
  ((gone = [] ∧ rest = []) ∨ 0 < MaxSize p ∧ gone ++ rest = collectableImages (index_list x2) inUse now) ∧
  ∀ before i after, gone = before ++ i :: after →
    ∃ w0, w0 ∈ past ∧ index w0 = without before x2 ∧ MaxSize p < totalSize layoutBytes w0.

Lemma through_CollectGarbage p inUse now L w :
  run_through (CollectGarbage layoutBytes p inUse now) L w [w] (λ r L' w' past,
    L' = L ∧ ∃ gone rest, passed p inUse now (index w) (index w') past gone rest ∧
      (r.2 = None → 0 < MaxSize p →
         gone ++ rest = collectableImages (index_list (without (expiredImages p (index_list (all_marked inUse now (index w))) inUse now)
           (all_marked inUse now (index w)))) inUse now ∧ (rest = [] ∨ totalSize layoutBytes w' ≤ MaxSize p))).
Proof.
  unfold CollectGarbage. apply run_through_bind. eapply run_through_mono; [|apply run_through_run, run_mark_all]. intros [] L' w1 past1 [[-> E1] _].
  apply run_through_bind. simpl. apply run_through_bind. eapply run_through_mono; [|apply run_through_run, run_collect].
  intros [result err] L' w2 past2 [[-> E2] _]. fold (all_marked inUse now (index w)) in E1. rewrite E1 in E2.
  assert (∀ past, passed p inUse now (index w) (index w2) past [] []) as Hnone.
  { intros past. split_and!; [by rewrite E2|by left|by intros []]. }
  destruct err as [e|]; [split; [done|]; by exists [], []|].
  destruct (MaxSize p <=? 0) eqn:Hmax.
  { apply Z.leb_le in Hmax. split; [done|]. exists [], []. split; [done|lia]. }
  cbn [run_through Conc.bind]. eapply run_through_mono; [|apply through_collect_over].
  intros r L' w3 past3 (-> & _ & gone & rest & E & E3 & Hend & Hover). apply Z.leb_gt in Hmax.
  cbn [fst snd] in E, E3, Hover. setoid_rewrite E2 in Hover. rewrite E2 in E, E3.
  split; [done|]. exists gone, rest. split; [|by split; [|apply Hend]]. split_and!; [done|right; by split|done].
Qed.

Section Passed.

Context (p : GCPolicy) (inUse : InUse) (now : Z) (x x' : index_t) (past : list World) (gone rest : list Image).
Context (Hx : keyed x) (Hp : passed p inUse now x x' past gone rest).

Abbreviation x1 := (all_marked inUse now x).
Abbreviation x2 := (without (expiredImages p (index_list x1) inUse now) x1).

Lemma keyed_aged : keyed x2.
Proof. apply keyed_without. by apply keyed_all_marked. Qed.

Lemma elem_of_gone i : i ∈ gone ++ rest → x2 !! Digest i = Some i ∧ collectable inUse now i = true ∧ 0 < MaxSize p.
Proof.
  destruct Hp as (_ & [[-> ->]|[Hmax ->]] & _); [by intros Hi%elem_of_nil|].
  intros [? ?]%elem_of_collectable; [done|apply keyed_aged].
Qed.

(** What is left, and what is not. *)
Lemma lookup_passed d i :
  x' !! d = Some i ↔ x1 !! d = Some i ∧ (∀ j, j ∈ expiredImages p (index_list x1) inUse now → Digest j ≠ d) ∧
    ∀ j, j ∈ gone → Digest j ≠ d.
Proof. destruct Hp as [-> _]. rewrite !lookup_without. naive_solver. Qed.

Lemma collectable_unused i : collectable inUse now i = true → inUse !! Digest i = None.
Proof. unfold collectable. by intros [?%bool_decide_eq_true _]%andb_true_iff. Qed.

Lemma passed_keeps d i : x !! d = Some i → is_Some (inUse !! d) → x' !! d = Some (touch now i).
Proof.
  intros Hi [u Hu]. apply lookup_passed. rewrite lookup_all_marked, decide_True, Hi by eauto. split_and!; [done|..].
  - intros j (_ & Hj%collectable_unused & _)%elem_of_expired; [|by apply keyed_all_marked]. congruence.
  - intros j Hj. destruct (elem_of_gone j) as (_ & Hc%collectable_unused & _); [set_solver|]. congruence.
Qed.

Lemma passed_same d i : inUse !! d = None → x' !! d = Some i → x !! d = Some i.
Proof.
  intros Hu (Hi & _)%lookup_passed. rewrite lookup_all_marked, decide_False in Hi; [done|]. rewrite Hu. by intros [? ?].
Qed.

Lemma passed_aged d i : x' !! d = Some i → collectable inUse now i = true → expired p now i = false.
Proof.
  intros (Hi & He & _)%lookup_passed Hc. apply not_true_iff_false. intros Hexp.
  assert (Digest i = d) as Hd by by eapply keyed_all_marked. apply (He i); [|done].
  apply elem_of_expired; [by apply keyed_all_marked|]. by rewrite Hd.
Qed.

(** What is left of those that may go is the rest of them. *)
Lemma passed_rest d i :
  0 < MaxSize p → gone ++ rest = collectableImages (index_list x2) inUse now →
  x' !! d = Some i → collectable inUse now i = true → i ∈ rest.
Proof.
  intros Hmax E Hi Hc. destruct Hp as [Ex _]. rewrite Ex, lookup_without in Hi. destruct Hi as [Hi Hg].
  assert (Digest i = d) as Hd by by eapply keyed_aged.
  assert (i ∈ gone ++ rest) as Hin by (rewrite E; apply elem_of_collectable; [apply keyed_aged|by rewrite Hd]).
  apply elem_of_app in Hin as [Hin|?]; [|done]. by destruct (Hg i Hin).
Qed.

Lemma passed_all :
  rest = [] → 0 < MaxSize p → gone ++ rest = collectableImages (index_list x2) inUse now →
  ∀ d i, x' !! d = Some i → collectable inUse now i = false.
Proof.
  intros Hrest Hmax E d i Hi. apply not_true_iff_false. intros Hc. pose proof (passed_rest d i Hmax E Hi Hc) as Hin.
  rewrite Hrest in Hin. by apply elem_of_nil in Hin.
Qed.

(** An image that has gone for the size of the store was the next to go when
    the store was too large. *)
Definition crowded_out (p : GCPolicy) (inUse : InUse) (now : Z) (i : Image) (w0 : World) : Prop :=
  MaxSize p < totalSize layoutBytes w0 ∧ index w0 !! Digest i = Some i ∧
  ∀ d j, index w0 !! d = Some j → collectable inUse now j = true → used_le i j.

Lemma gone_crowded_out i : i ∈ gone → 0 < MaxSize p ∧ ∃ w0, w0 ∈ past ∧ crowded_out p inUse now i w0.
Proof.
  intros Hg. destruct (elem_of_gone i) as (Hi & _ & Hmax); [set_solver|]. split; [done|].
  destruct (list_elem_of_split_l gone i Hg) as (before & after & Egone & Hnot).
  destruct Hp as (_ & [[-> _]|[_ E]] & Hover); [by apply elem_of_nil in Hg|].
  destruct (Hover before i after Egone) as (w0 & Hin & E0 & Hsize). exists w0. split; [done|]. split_and!; [done|..].
  - rewrite E0, lookup_without. split; [done|]. intros j Hj Ed.
    destruct (elem_of_gone j) as (Hj' & _); [set_solver|]. rewrite Ed in Hj'. congruence.
  - intros d j Hj Hc. rewrite E0, lookup_without in Hj. destruct Hj as [Hj Hb].
    assert (Digest j = d) as Hd by by eapply keyed_aged.
    assert (j ∈ collectableImages (index_list x2) inUse now) as Hjin by (apply elem_of_collectable; [apply keyed_aged|by rewrite Hd]).
    pose proof (sorted_collectable (index_list x2) inUse now) as Hs. rewrite <-E, Egone, <-(assoc_L (++)) in Hs, Hjin.
    apply StronglySorted_app in Hs as (_ & _ & Hs). apply StronglySorted_inv in Hs as [_ Hs]. rewrite Forall_forall in Hs.
    apply elem_of_app in Hjin as [Hjin|Hjin]; [by destruct (Hb j Hjin)|]. apply elem_of_cons in Hjin as [->|Hjin]; [|by apply Hs].
    by destruct (used_le_total i i).
Qed.

Lemma passed_removed d i :
  x !! d = Some i → x' !! d = None →
  collectable inUse now i = true ∧
  (expired p now i = true ∨ 0 < MaxSize p ∧ ∃ w0, w0 ∈ past ∧ crowded_out p inUse now i w0).
Proof.
  intros Hi Hnone. destruct (inUse !! d) as [u|] eqn:Hu; [by rewrite (passed_keeps d i) in Hnone|].
  assert (x1 !! d = Some i) as Hi1 by (rewrite lookup_all_marked, decide_False; [done|rewrite Hu; by intros [? ?]]).
  assert (Digest i = d) as Hd by by apply Hx.
  destruct (decide (i ∈ expiredImages p (index_list x1) inUse now)) as [He|He].
  { apply elem_of_expired in He as (_ & ? & ?); [by auto|by apply keyed_all_marked]. }
  assert (i ∈ gone) as Hg.
  { destruct (decide (i ∈ gone)) as [|Hng]; [done|]. exfalso. assert (x' !! d = Some i); [|congruence].
    apply lookup_passed. split_and!; [done|..]; intros j Hj E.
    - pose proof Hj as (Hj' & _)%elem_of_expired; [|by apply keyed_all_marked]. rewrite E in Hj'. congruence.
    - destruct (elem_of_gone j) as (Hj' & _); [set_solver|]. apply lookup_without in Hj' as [Hj' _]. rewrite E in Hj'. congruence. }
  destruct (elem_of_gone i) as (_ & Hc & _); [set_solver|]. split; [done|]. right. by apply gone_crowded_out.
Qed.

End Passed.

(** C20: whatever a pass of garbage collection is answered: it keeps every
    image in use, as used now, and changes no other that it keeps; it removes
    only what is not in use and was not used for the grace period, and that is
    too old, or was the least recently used of those that may go at a moment of
    the pass when the store was larger than it may be; it leaves no image that is
    too old; and if it returns no error, the store is no larger than it may be
    unless nothing is left to remove. *)
Theorem collection_spec p inUse now w :
  keyed (index w) →
  run_through (CollectGarbage layoutBytes p inUse now) ∅ w [w] (λ r _ w' past,
    let x := index w in let x' := index w' in
    (∀ d i, x !! d = Some i → is_Some (inUse !! d) → x' !! d = Some (touch now i)) ∧
    (∀ d i, inUse !! d = None → x' !! d = Some i → x !! d = Some i) ∧
    (∀ d i, x !! d = Some i → x' !! d = None →
       collectable inUse now i = true ∧
       (expired p now i = true ∨ 0 < MaxSize p ∧ ∃ w0, w0 ∈ past ∧ crowded_out p inUse now i w0)) ∧
    (∀ d i, x' !! d = Some i → collectable inUse now i = true → expired p now i = false) ∧
    (r.2 = None → 0 < MaxSize p →
       totalSize layoutBytes w' ≤ MaxSize p ∨ ∀ d i, x' !! d = Some i → collectable inUse now i = false)).
Proof.
  intros Hx. eapply run_through_mono; [|apply through_CollectGarbage]. intros r L' w' past (-> & gone & rest & Hp & Hend). cbv zeta. split_and!.
  - by eapply passed_keeps.
  - by eapply passed_same.
  - by eapply passed_removed.
  - by eapply passed_aged.
  - intros Hr Hmax. destruct (Hend Hr Hmax) as [E [->|Hsize]]; [right|by left]. by eapply passed_all.
Qed.

End Run.

(** *** An example *)

Definition example_image (d : string) (size last : Z) : Image :=
  mkImage "app:latest" d "" size [] [] ∅ "/" "" None 0 0 last.

(** One image in use, one that is too old, two that are not, of which the
    store has no room for one. *)
Definition example_images : World :=
  mkWorld (list_to_map ((λ i, (Digest i, i)) <$>
    [example_image "sha256:used" 100 0; example_image "sha256:old" 100 1;
     example_image "sha256:older" 100 (3000 * second); example_image "sha256:newer" 100 (4000 * second)]))
    ∅ ∅ (mkCache [] ∅) ∅ [] 0 [] ∅.

Definition example_policy : GCPolicy := mkGCPolicy (6000 * second) 250.

Definition example_uses : InUse := {[ "sha256:used" := "instance" ]}.

Definition example_answers (q : query) (n : nat) : answer q :=
  match q with
  | QNow | QSize => 0
  | QFile | QMkfs | QCacheSize | QContext => None
  | QRemove => (true, true)
  | QResolve => inl (mkCause None (New ""))
  | QPull => NotFetched [] false (mkCause None (New ""))
  | QPrune => Pruned ∅
  | QEnd => Sentinel Canceled
  | QInUse => Ok ∅
  end.

Lemma collection_spec_witness :
  run (CollectGarbage (λ _, 0) example_policy example_uses (8000 * second)) ∅ example_images
    (λ _ _ w', is_Some (index w' !! "sha256:used")) ∧
  (match exec example_answers (CollectGarbage (λ _, 0) example_policy example_uses (8000 * second)) 0 ∅ example_images with
   | Some (_, w', _) => bool_decide (dom (index w') = {[ "sha256:used"; "sha256:newer" ]})
   | None => false
   end) = true.
Proof.
  split; [|vm_compute; reflexivity].
  assert (keyed (index example_images)) as Hx.
  { intros d i Hi. by apply elem_of_list_to_map_2 in Hi as (i' & [= -> ->] & _)%list_elem_of_fmap. }
  eapply run_mono; [|eapply run_run_through, (collection_spec (λ _, 0) example_policy example_uses (8000 * second) example_images Hx)].
  intros r L w' (past & Hkeep & _). erewrite Hkeep; [by eexists|vm_compute; reflexivity|by eexists].
Defined.

End Collect.
