(* ===== verification/Sha256.v ===== *)
(** * SHA-256 and base32

    What tokens use of [crypto/sha256], [encoding/hex] and [encoding/base32]:
    the daemon keeps the hash of a secret in its place, and writes the secrets
    it makes up in base32. *)

From S2P Require Import Prelude.

Module Sha256.
Open Scope Z_scope.

(** ** 32-bit words *)

Definition add32 (a b : Z) : Z := uint32_wrap (a + b).

Definition rotr (n x : Z) : Z := Z.lor (Z.shiftr x n) (uint32_wrap (Z.shiftl x (32 - n))).

Definition not32 (x : Z) : Z := Z.lxor x 4294967295.

Definition Ch (x y z : Z) : Z := Z.lxor (Z.land x y) (Z.land (not32 x) z).

Definition Maj (x y z : Z) : Z := Z.lxor (Z.lxor (Z.land x y) (Z.land x z)) (Z.land y z).

Definition Sigma0 (x : Z) : Z := Z.lxor (Z.lxor (rotr 2 x) (rotr 13 x)) (rotr 22 x).

Definition Sigma1 (x : Z) : Z := Z.lxor (Z.lxor (rotr 6 x) (rotr 11 x)) (rotr 25 x).

Definition sigma0 (x : Z) : Z := Z.lxor (Z.lxor (rotr 7 x) (rotr 18 x)) (Z.shiftr x 3).

Definition sigma1 (x : Z) : Z := Z.lxor (Z.lxor (rotr 17 x) (rotr 19 x)) (Z.shiftr x 10).

(** *** Constants

    The first 32 bits of the fractions of square and cube roots of the first
    primes. *)

Definition is_prime (n : nat) : bool :=
  (1 <? n)%nat && forallb (λ d, negb (n mod d =? 0)%nat) (seq 2 (n - 2)).

(** The first 64 primes. *)
Definition primes : list Z := Z.of_nat <$> List.filter is_prime (seq 2 310).

(** The largest number below [2^bits] more than [r] whose cube is no more than
    [x], bit by bit. *)
Fixpoint cube_root (bits : nat) (r x : Z) : Z :=
  match bits with
  | O => r
  | S bits =>
      let r' := r + 2 ^ Z.of_nat bits in
      cube_root bits (if r' ^ 3 <=? x then r' else r) x
  end.

(** The root of a prime times [2^32], without what is above its fraction. *)
Definition K : list Z :=
  Eval vm_compute in (λ p, uint32_wrap (cube_root 36 0 (p * 2 ^ 96))) <$> primes.

Definition H0 : list Z :=
  Eval vm_compute in (λ p, uint32_wrap (Z.sqrt (p * 2 ^ 64))) <$> firstn 8 primes.

(** ** Blocks *)

(** The schedule of a block, the last word first: each new word is made of
    those 2, 7, 15 and 16 before it. *)
Fixpoint extend (n : nat) (w : list Z) : list Z :=
  match n with
  | O => w
  | S n =>
      extend n (add32 (add32 (sigma1 (nth 1 w 0)) (nth 6 w 0)) (add32 (sigma0 (nth 14 w 0)) (nth 15 w 0)) :: w)
  end.

Definition round (h : list Z) (kw : Z * Z) : list Z :=
  match h with
  | [a; b; c; d; e; f; g; hh] =>
      let t1 := add32 (add32 (add32 hh (Sigma1 e)) (add32 (Ch e f g) kw.1)) kw.2 in
      let t2 := add32 (Sigma0 a) (Maj a b c) in
      [add32 t1 t2; a; b; c; add32 d t1; e; f; g]
  | _ => h
  end.

Definition block (h : list Z) (w : list Z) : list Z :=
  zip_with add32 h (foldl round h (zip K (reverse (extend 48 (reverse w))))).

(** ** Messages *)

Definition bytes_of (s : string) : list Z := (λ c, Z.of_N (N_of_ascii c)) <$> Str.to_list s.

(** The most significant byte first. *)
Fixpoint big_endian (n : nat) (z : Z) : list Z :=
  match n with
  | O => []
  | S n => (Z.shiftr z (8 * Z.of_nat n)) `mod` 256 :: big_endian n z
  end.

(** A one bit, zeros to 8 bytes short of a block's end, and the length in
    bits. *)
Definition padded (m : list Z) : list Z :=
  let zeros := Z.to_nat ((55 - Z.of_nat (length m)) `mod` 64) in
  m ++ [128] ++ repeat 0 zeros ++ big_endian 8 (8 * Z.of_nat (length m)).

Fixpoint words (m : list Z) : list Z :=
  match m with
  | a :: b :: c :: d :: m => Z.lor (Z.shiftl a 24) (Z.lor (Z.shiftl b 16) (Z.lor (Z.shiftl c 8) d)) :: words m
  | _ => []
  end.

(** The blocks of a message, 16 words each. There are no more than words. *)
Fixpoint blocks (fuel : nat) (h w : list Z) : list Z :=
  match fuel, w with
  | S fuel, _ :: _ => blocks fuel (block h (firstn 16 w)) (skipn 16 w)
  | _, _ => h
  end.

(** [sha256.Sum256] *)
Definition Sum256 (m : list Z) : list Z :=
  let w := words (padded m) in flat_map (big_endian 4) (blocks (length w) H0 w).

(** ** Texts *)

Definition hex_digits : list ascii := Str.to_list "0123456789abcdef".

(** [hex.EncodeToString] *)
Definition hex_encode (m : list Z) : string :=
  Str.of_list (flat_map (λ b, [nth (Z.to_nat (b / 16)) hex_digits "0"%char; nth (Z.to_nat (b `mod` 16)) hex_digits "0"%char]) m).

(** The bits of bytes, the most significant first. *)
Definition bits (m : list Z) : list bool :=
  flat_map (λ b, (λ i, Z.testbit b i) <$> [7; 6; 5; 4; 3; 2; 1; 0]) m.

Definition base32_digits : list ascii := Str.to_list "abcdefghijklmnopqrstuvwxyz234567".

(** Five bits at a time, the last filled with zeros. *)
Fixpoint base32_groups (fuel : nat) (l : list bool) : list ascii :=
  match fuel, l with
  | S fuel, _ :: _ =>
      let group := firstn 5 (firstn 5 l ++ repeat false 5) in
      let digit := foldl (λ (n : nat) (b : bool), (2 * n + (if b then 1 else 0))%nat) 0%nat group in
      nth digit base32_digits "a"%char :: base32_groups fuel (skipn 5 l)
  | _, _ => []
  end.

(** [strings.ToLower(encoding.EncodeToString(b))] *)
Definition base32_encode (m : list Z) : string := Str.of_list (base32_groups (length (bits m)) (bits m)).

(** ** Checks against published values *)

Example sum256_empty :
  hex_encode (Sum256 (bytes_of "")) = "e3b0c44298fc1c149afbf4c8996fb92427ae41e4649b934ca495991b7852b855".
Proof. vm_compute. reflexivity. Qed.

Example sum256_abc :
  hex_encode (Sum256 (bytes_of "abc")) = "ba7816bf8f01cfea414140de5dae2223b00361a396177a9cb410ff61f20015ad".
Proof. vm_compute. reflexivity. Qed.

Example sum256_two_blocks :
  hex_encode (Sum256 (bytes_of "abcdbcdecdefdefgefghfghighijhijkijkljklmklmnlmnomnopnopq")) =
  "248d6a61d20638b8e5c026930c3e6039a33ce45964ff2167f6ecedd419db06c1".
Proof. vm_compute. reflexivity. Qed.

Example base32_foobar : base32_encode (bytes_of "foobar") = "mzxw6ytboi".
Proof. vm_compute. reflexivity. Qed.

(** ** Lemmas *)

Lemma length_bits m : length (bits m) = (8 * length m)%nat.
Proof. induction m as [|b m IH]; [done|]. change (bits (b :: m)) with (((λ i, Z.testbit b i) <$> [7; 6; 5; 4; 3; 2; 1; 0]) ++ bits m). rewrite length_app, IH. simpl. lia. Qed.

Lemma base32_digit_alnum n : Str.is_alnum (nth n base32_digits "a"%char) = true.
Proof. do 32 (destruct n as [|n]; [reflexivity|]). by destruct n. Qed.

Lemma base32_groups_alnum fuel l : Forall (λ c, Str.is_alnum c = true) (base32_groups fuel l).
Proof.
  revert l. induction fuel as [|fuel IH]; intros l; [constructor|]. destruct l as [|b l]; [constructor|].
  constructor; [apply base32_digit_alnum|apply IH].
Qed.

(** Every group takes five bits, so there is one for each five. *)
Lemma base32_groups_length fuel l : (length l <= fuel)%nat → (length l <= 5 * length (base32_groups fuel l))%nat.
Proof.
  revert l. induction fuel as [|fuel IH]; intros l Hl; [lia|]. destruct l as [|b l]; [simpl; lia|].
  cbn [base32_groups length]. specialize (IH (skipn 5 (b :: l))). rewrite length_skipn in IH. cbn [length] in *. lia.
Qed.

Lemma round_length h kw : length (round h kw) = length h.
Proof. do 8 (destruct h as [|? h]; [done|]). by destruct h. Qed.

Lemma block_length h w : length (block h w) = length h.
Proof.
  assert (∀ l, length (foldl round h l) = length h) as Hl.
  { induction l as [|kw l IH] using rev_ind; [done|]. by rewrite foldl_app; simpl; rewrite round_length. }
  unfold block. rewrite length_zip_with, Hl. lia.
Qed.

Lemma blocks_length fuel h w : length (blocks fuel h w) = length h.
Proof.
  revert h w. induction fuel as [|fuel IH]; intros h w; [done|]. destruct w; [done|]. cbn [blocks]. by rewrite IH, block_length.
Qed.

Lemma Sum256_length m : length (Sum256 m) = 32%nat.
Proof.
  unfold Sum256. cbv zeta. pose proof (blocks_length (length (words (padded m))) H0 (words (padded m))) as Hl.
  assert (∀ l, length (flat_map (big_endian 4) l) = (4 * length l)%nat) as ->; [|by rewrite Hl].
  induction l as [|z l IH]; [done|]. cbn [flat_map length]. rewrite length_app, IH. simpl. lia.
Qed.

(** What a hash is written as is 64 digits, in lower case. *)
Lemma hex_digit_cases n : nth n hex_digits "0"%char ∈ hex_digits.
Proof. do 16 (destruct n as [|n]; [by apply (bool_decide_unpack _); vm_compute|]). by destruct n; apply (bool_decide_unpack _); vm_compute. Qed.

Lemma hex_encode_digits m :
  length (Str.to_list (hex_encode m)) = (2 * length m)%nat ∧ Forall (λ c, c ∈ hex_digits) (Str.to_list (hex_encode m)).
Proof.
  unfold hex_encode. rewrite Str.to_of_list. induction m as [|b m [IHl IHf]]; [done|]. cbn [flat_map]. split.
  - rewrite length_app, IHl. simpl. lia.
  - constructor; [apply hex_digit_cases|]. constructor; [apply hex_digit_cases|exact IHf].
Qed.

End Sha256.
