(* ===== verification/Resources.v ===== *)
(** * Networks, volumes and kernels: their managers

    [lifecycle.go] and [default_network.go] of [internal/network], and the
    managers of [internal/volume] and [internal/kernel]: what they check, and
    in which order they change definitions, allocation tables and files. No
    mutex is held from one of their steps to the next, so each operation is a
    program of [Conc], whose steps are the store's and the file system's. *)

From S2P Require Import Prelude Paths Errdefs Naming Health Token Addr Network NetworkManager Instance Definitions FileStore Conc Sha256.

Module Resources.
Open Scope prog_scope.

(** ** The state *)

Record Event := mkEvent {
  Event_Kind : string;
  Event_ID : string;
  Event_Name : string;
  Event_Action : string;
}.

(** The store and the allocation tables; the disks of volumes, by ID, and the
    files that disks are made in; the binaries of kernels, by ID, and the files
    that they are received in; the events; and the IDs of volumes and kernels
    that were deleted, which no code reads. *)
Record World := mkWorld {
  store : Store.Store;
  tables : NetworkManager.Manager;
  disks : gmap string Z;
  unmadeDisks : gset string;
  binaries : gmap string (list Z);
  partials : gmap string (list Z);
  events : list Event;
  retired : gset string;
}.

Definition set_store (w : World) v :=
  mkWorld v (tables w) (disks w) (unmadeDisks w) (binaries w) (partials w) (events w) (retired w).

Definition set_tables (w : World) v :=
  mkWorld (store w) v (disks w) (unmadeDisks w) (binaries w) (partials w) (events w) (retired w).

Definition set_disks (w : World) v u :=
  mkWorld (store w) (tables w) v u (binaries w) (partials w) (events w) (retired w).

Definition set_binaries (w : World) v p :=
  mkWorld (store w) (tables w) (disks w) (unmadeDisks w) v p (events w) (retired w).

Definition set_events (w : World) v :=
  mkWorld (store w) (tables w) (disks w) (unmadeDisks w) (binaries w) (partials w) v (retired w).

Definition set_retired (w : World) v :=
  mkWorld (store w) (tables w) (disks w) (unmadeDisks w) (binaries w) (partials w) (events w) v.

(** The time; the outcome of writing or removing a definition; the host's
    subnets; the outcome of another file operation, or of [mke2fs]; of removing
    a directory; what is read of a kernel, and the error that ends it; what an
    allocation draws and meets. *)
Inductive query := QNow | QWrite | QHostSubnets | QFile | QRemoveAll | QRead | QAllocate.

Definition answer (q : query) : Type :=
  match q with
  | QNow => Z
  | QWrite | QFile => option error
  | QHostSubnets => result (list Addr.Prefix)
  | QRemoveAll => Store.RemoveAll
  | QRead => list Z * option error
  | QAllocate => NetworkManager.Env
  end.

(** What an operation is started with: an ID that nothing else is given. *)
Inductive lock := NewID (id : string).

#[global] Instance lock_eq_dec : EqDecision lock.
Proof. solve_decision. Defined.

#[global] Instance lock_countable : Countable lock.
Proof. by refine (inj_countable' (λ '(NewID id), id) NewID _); intros []. Defined.

Abbreviation M := (prog (S:=World) (answer:=answer) (lock:=lock)).

(** A file operation that changes nothing the model has. *)
Definition attempt : M (result unit) := e ← ask QFile; mret (if e is Some e then Err e else Ok tt).

(** A step of the store. *)
Definition on_store (f : option error → Store.Store → result unit * Store.Store) : M (result unit) :=
  e ← ask QWrite;
  atomically (λ w, let '(r, s) := f e (store w) in (r, set_store w s)).

Definition record (kind id name action : string) : M unit :=
  modify (λ w, set_events w (events w ++ [mkEvent kind id name action])).

(** ** Networks ([lifecycle.go], [default_network.go]) *)

Definition DefaultName : string := "default".

Definition checkSubnetIsFree (n : Network.Network) : M (result unit) :=
  hostSubnets ←? wrapping "list the host's subnets: %w" (ask QHostSubnets);
  gets (λ w, Network.CheckSubnetOverlap n (Store.Networks (store w)) hostSubnets).

Definition createNetwork (n : Network.Network) : M (result unit) := on_store (λ e s, Store.CreateNetwork e s n).

Definition recordNetwork (n : Network.Network) (action : string) : M unit :=
  record "network" (Network.ID n) (Network.Name n) action.

(** [Create], of a network whose generated ID is [id]. *)
Definition CreateNetwork (id : string) (spec : Network.Spec) : M (result Network.Network) :=
  now ← ask QNow;
  n ←? mret (Network.New id now spec);
  found ← gets (λ w, Store.Network (store w) (Network.Name n));
  if is_ok found then mret (Err (Exists "network %q already exists"))
  else
    checkSubnetIsFree n ?;
    createNetwork n ?;
    recordNetwork n "created" ≫= λ _,
    mret (Ok n).

(** [Forget] of the allocation tables. *)
Definition forget (network : string) : M (result unit) :=
  e ← ask QFile;
  atomically (λ w, let '(r, m) := NetworkManager.Forget e (tables w) network in (r, set_tables w m)).

Definition DeleteNetwork (nameOrID : string) : M (result unit) :=
  n ←? gets (λ w, Store.Network (store w) nameOrID);
  if bool_decide (Network.Name n = DefaultName) then mret (Err (InvalidArgument "the default network cannot be deleted"))
  else
    on_store (λ e s, Store.DeleteNetwork e s (Network.ID n)) ?;
    recordNetwork n "deleted" ≫= λ _,
    wrapping "discard allocations: %w" (forget (Network.Name n)).

(** [EnsureDefault] of networks. *)
Definition EnsureDefaultNetwork (id subnet : string) : M (result unit) :=
  found ← gets (λ w, Store.Network (store w) DefaultName);
  if is_ok found then mret (Ok tt)
  else
    now ← ask QNow;
    n ←? mret (wrap_err (Errorf "create the default network: %w")
                 (Network.New id now (Network.mkSpec DefaultName subnet "" 0 [] false false)));
    wrapping "create the default network: %w" (checkSubnetIsFree n) ?;
    wrapping "create the default network: %w" (createNetwork n) ?;
    recordNetwork n "created" ≫= λ _,
    mret (Ok tt).

(** [Allocate], for an instance that starts. *)
Definition allocate (n : Network.Network) (instanceID staticIP : string) : M (result Network.Allocation) :=
  env ← ask QAllocate;
  atomically (λ w, let '(r, m) := NetworkManager.Allocate env (tables w) n instanceID staticIP in (r, set_tables w m)).

(** ** Volumes *)

Section Managers.

(** Where disks are kept; the architecture and checksum of the default kernel,
    which each build has its own of, and the kernel itself. *)
Context (dataDir : string) (defaultArchitecture defaultSHA256 : string) (defaultBinary : list Z).

Definition diskPath (id : string) : string := Path.Join [Path.Join [dataDir; "volumes"; id]; "disk.raw"].

(** [os.RemoveAll] of a volume's directory. *)
Definition removeDisk (id : string) : M (result unit) :=
  removed ← ask QRemoveAll;
  let gone w := set_disks w (delete id (disks w)) (unmadeDisks w ∖ {[id]}) in
  match removed with
  | Store.Removed => modify gone ≫= λ _, mret (Ok tt)
  | Store.NotRemoved e g => modify (λ w, if g then gone w else w) ≫= λ _, mret (Err e)
  end.

(** [os.Remove] of a file, whose outcome is ignored. *)
Definition discard (f : World → World) : M unit :=
  e ← ask QFile;
  match e with Some _ => mret tt | None => modify f end.

(** [CreateExt4]: the disk is made in a file beside it, which [os.CreateTemp]
    names, and takes its place. *)
Definition CreateExt4 (id : string) (sizeBytes : Z) : M (result unit) :=
  wrapping "create disk directory: %w" attempt ?;
  wrapping "create disk file: %w" attempt ?;
  modify (λ w, set_disks w (disks w) ({[id]} ∪ unmadeDisks w)) ≫= λ _,
  on_error (discard (λ w, set_disks w (disks w) (unmadeDisks w ∖ {[id]})))
    (wrapping "allocate disk: %w" attempt ?;
     wrapping "close disk file: %w" attempt ?;
     wrapping "format disk: %w: %s" attempt ?;
     wrapping "install disk: %w" attempt ?;
     modify (λ w, set_disks w (<[id := sizeBytes]> (disks w)) (unmadeDisks w ∖ {[id]})) ≫= λ _,
     mret (Ok tt)).

Definition recordVolume (v : Volume.Volume) (action : string) : M unit :=
  record "volume" (Volume.ID v) (Volume.Name v) action.

(** [Create], of a volume whose generated ID is [id]. *)
Definition CreateVolume (id name : string) (sizeBytes : Z) : M (result Volume.Volume) :=
  now ← ask QNow;
  let volume := Volume.mkVolume id name (diskPath id) sizeBytes now now in
  mret (Volume.Volume_Validate volume) ?;
  found ← gets (λ w, Store.Volume (store w) name);
  if is_ok found then mret (Err (Exists "volume %q already exists"))
  else
    made ← CreateExt4 id sizeBytes;
    match made with
    | Err e => removeDisk id ≫= λ _, mret (Err (Errorf "create volume disk: %w" e))
    | Ok _ =>
        created ← on_store (λ e s, Store.CreateVolume e s volume);
        match created with
        | Err e => removeDisk id ≫= λ _, mret (Err e)
        | Ok _ => recordVolume volume "created" ≫= λ _, mret (Ok volume)
        end
    end.

(** [DeleteVolume] of the store, which retires an ID. *)
Definition deleteVolume (id : string) : M (result unit) :=
  e ← ask QWrite;
  atomically (λ w, let '(r, s) := Store.DeleteVolume e (store w) id in
                   (r, if is_ok r then set_retired (set_store w s) ({[id]} ∪ retired w) else set_store w s)).

Definition DeleteVolume (nameOrID : string) : M (result unit) :=
  volume ←? gets (λ w, Store.Volume (store w) nameOrID);
  deleteVolume (Volume.ID volume) ?;
  recordVolume volume "deleted" ≫= λ _,
  wrapping "remove volume disk: %w" (removeDisk (Volume.ID volume)).

(** ** Kernels *)

Definition Default : Kernel.Kernel := Kernel.mkKernel "" DefaultName defaultArchitecture defaultSHA256 0 0.

Definition MaxImportBytes : Z := Z.shiftl 512 20.

Definition digestOf (content : list Z) : string := Sha256.hex_encode (Sha256.Sum256 content).

Definition removeBinary (id : string) : M (result unit) :=
  removed ← ask QRemoveAll;
  let gone w := set_binaries w (delete id (binaries w)) (delete id (partials w)) in
  match removed with
  | Store.Removed => modify gone ≫= λ _, mret (Ok tt)
  | Store.NotRemoved e g => modify (λ w, if g then gone w else w) ≫= λ _, mret (Err e)
  end.

Definition removePartial (id : string) : M unit :=
  discard (λ w, set_binaries w (binaries w) (delete id (partials w))).

(** [createFile] of a kernel's partial file: [src] is what is read, and the
    error that ends it. What is returned in place of how many bytes were
    written is the bytes. *)
Definition createFile (id : string) (src : M (list Z * option error)) : M (result (list Z)) :=
  wrapping "create file: %w" attempt ?;
  modify (λ w, set_binaries w (binaries w) (<[id := []]> (partials w))) ≫= λ _,
  on_error (removePartial id)
    (r ← (read ← src;
          modify (λ w, set_binaries w (binaries w) (<[id := read.1]> (partials w))) ≫= λ _,
          match read.2 with
          | Some e => mret (Err (Errorf "write file: %w" e))
          | None =>
              wrapping "chmod: %w" attempt ?;
              wrapping "sync: %w" attempt ?;
              mret (Ok read.1)
          end);
     closed ← attempt;
     mret (match r, closed with
           | Ok _, Err e => Err (Errorf "close %s: %w" e)
           | _, _ => r
           end)).

(** [os.Rename] of the partial file to the binary. *)
Definition install (id : string) : M (result unit) :=
  attempt ?;
  atomically (λ w,
    match partials w !! id with
    | Some content => (Ok tt, set_binaries w (<[id := content]> (binaries w)) (delete id (partials w)))
    | None => (Err (Errdefs.New "no such file or directory"), w)
    end).

(** What [io.LimitReader] lets through. *)
Definition limited (n : Z) (content : list Z) : list Z :=
  if (Z.of_nat (length content) <=? n)%Z then content else firstn (Z.to_nat n) content.

(** [writeBinary], of what is read from the client. *)
Definition writeBinary (id wantSHA256 : string) : M (result string) :=
  wrapping "create kernel directory: %w" attempt ?;
  deferred (removePartial id)
    (content ←? createFile id (read ← ask QRead; mret (limited (MaxImportBytes + 1) read.1, read.2));
     if (Z.of_nat (length content) =? 0)%Z then mret (Err (InvalidArgument "the kernel is empty"))
     else if (MaxImportBytes <? Z.of_nat (length content))%Z then mret (Err (InvalidArgument "the kernel is larger than %s"))
     else if negb (bool_decide (wantSHA256 = "")) && negb (bool_decide (digestOf content = wantSHA256))
     then mret (Err (InvalidArgument "the kernel's SHA-256 is %s, not %s"))
     else
       wrapping "install kernel: %w" (install id) ?;
       mret (Ok (digestOf content))).

Definition recordKernel (k : Kernel.Kernel) (action : string) : M unit :=
  record "kernel" (Kernel.ID k) (Kernel.Name k) action.

(** A kernel with another checksum. *)
Definition withSHA256 (k : Kernel.Kernel) (digest : string) : Kernel.Kernel :=
  Kernel.mkKernel (Kernel.ID k) (Kernel.Name k) (Kernel.Architecture k) digest (Kernel.CreatedAt k) (Kernel.UpdatedAt k).

(** [Import], of a kernel whose generated ID is [id]. *)
Definition Import (id name architecture sha256 : string) : M (result Kernel.Kernel) :=
  now ← ask QNow;
  let k := Kernel.mkKernel id name architecture (Str.to_lower sha256) now now in
  mret (Kernel.Kernel_Validate k) ?;
  if bool_decide (Kernel.Name k = DefaultName)
  then mret (Err (InvalidArgument "%q is the default kernel's name: import the kernel under another"))
  else
    found ← gets (λ w, Store.Kernel (store w) (Kernel.Name k));
    if is_ok found then mret (Err (Exists "kernel %q already exists"))
    else
      written ← writeBinary id (Kernel.SHA256 k);
      match written with
      | Err e => removeBinary id ≫= λ _, mret (Err e)
      | Ok digest =>
          let k := withSHA256 k digest in
          created ← on_store (λ e s, Store.CreateKernel e s k);
          match created with
          | Err e => removeBinary id ≫= λ _, mret (Err e)
          | Ok _ => recordKernel k "imported" ≫= λ _, mret (Ok k)
          end
      end.

(** [DeleteKernel] of the store, which retires an ID. *)
Definition deleteKernel (id : string) : M (result unit) :=
  e ← ask QWrite;
  atomically (λ w, let '(r, s) := Store.DeleteKernel e (store w) id in
                   (r, if is_ok r then set_retired (set_store w s) ({[id]} ∪ retired w) else set_store w s)).

Definition DeleteKernel (nameOrID : string) : M (result unit) :=
  k ←? gets (λ w, Store.Kernel (store w) nameOrID);
  if bool_decide (Kernel.Name k = DefaultName) then mret (Err (InvalidArgument "the default kernel cannot be deleted"))
  else
    deleteKernel (Kernel.ID k) ?;
    recordKernel k "deleted" ≫= λ _,
    wrapping "remove kernel binary: %w" (removeBinary (Kernel.ID k)).

Definition fileSHA256 (id : string) : M (result string) :=
  wrapping "open file: %w" attempt ?;
  found ← gets (λ w, binaries w !! id);
  match found with
  | None => mret (Err (Errorf "open file: %w" (Errdefs.New "no such file or directory")))
  | Some content => wrapping "hash file: %w" attempt ?; mret (Ok (digestOf content))
  end.

(** [Path] of a kernel's binary: that it is there, and is as it should be. *)
Definition checkBinary (k : Kernel.Kernel) : M (result unit) :=
  wrapping "find kernel %q: %w" attempt ?;
  found ← gets (λ w, binaries w !! Kernel.ID k);
  if bool_decide (found = None) then mret (Err (InvalidState "kernel %q is missing from the host: %s"))
  else if bool_decide (Kernel.SHA256 k = "")
  then mret (Err (InvalidState "kernel %q has no checksum to check it by: %s"))
  else
    got ←? wrapping "checksum kernel %q: %w" (fileSHA256 (Kernel.ID k));
    mret (refuse_if (negb (bool_decide (got = Kernel.SHA256 k)))
      (InvalidState "kernel %q on the host does not match its checksum: %s")).

(** [Extract]: what is read of the kernel the daemon carries is
    [defaultBinary], unless it cannot be read or decompressed. *)
Definition Extract (id : string) : M (result unit) :=
  found ← gets (λ w, binaries w !! id);
  unreadable ← ask QFile;
  if bool_decide (is_Some found) && bool_decide (unreadable = None) then mret (Ok tt)
  else
    wrapping "read embedded kernel: %w" attempt ?;
    wrapping "decompress embedded kernel: %w" attempt ?;
    wrapping "create kernel directory: %w" attempt ?;
    deferred (removePartial id)
      (wrapping "write kernel: %w"
         (createFile id (read ← ask QRead; mret (if read.2 is Some _ then read else (defaultBinary, None)))) ?;
       wrapping "install kernel: %w" (install id)).

Definition extractDefault (id : string) : M (result unit) :=
  wrapping "remove the previous default kernel: %w" (removeBinary id) ?;
  wrapping "extract the default kernel: %w" (Extract id).

(** [EnsureDefault] of kernels. *)
Definition EnsureDefaultKernel (id : string) : M (result unit) :=
  found ← gets (λ w, Store.Kernel (store w) DefaultName);
  match found with
  | Err e =>
      if Is e ErrNotFound then
        now ← ask QNow;
        let want := Kernel.mkKernel id (Kernel.Name Default) (Kernel.Architecture Default) (Kernel.SHA256 Default) now now in
        extractDefault id ?;
        wrapping "define the default kernel: %w" (on_store (λ e s, Store.CreateKernel e s want)) ?;
        recordKernel want "imported" ≫= λ _,
        mret (Ok tt)
      else mret (Err (Errorf "define the default kernel: %w" e))
  | Ok k =>
      if bool_decide (Kernel.Architecture k = Kernel.Architecture Default) &&
         bool_decide (Kernel.SHA256 k = Kernel.SHA256 Default) then
        there ← checkBinary k;
        if is_ok there then mret (Ok tt)
        else
          extractDefault (Kernel.ID k) ?;
          recordKernel k "imported" ≫= λ _,
          mret (Ok tt)
      else
        extractDefault (Kernel.ID k) ?;
        now ← ask QNow;
        let k := Kernel.mkKernel (Kernel.ID k) (Kernel.Name k) (Kernel.Architecture Default)
          (Kernel.SHA256 Default) (Kernel.CreatedAt k) now in
        wrapping "update the default kernel: %w" (on_store (λ e s, Store.UpdateKernel e s k)) ?;
        recordKernel k "updated" ≫= λ _,
        mret (Ok tt)
  end.

End Managers.

End Resources.
