(* ===== verification/Files.v ===== *)
(** * Every definition has its file

    What holds of [Resources]'s operations however they interleave, and
    whenever the daemon dies: a volume that is defined has its disk, and a
    kernel its binary. An ID is generated for each new definition, so what is
    made under it is nobody else's business until the definition is there. *)

From S2P Require Import Prelude Errdefs Naming Health Token Addr Network NetworkManager Instance Definitions FileStore Conc Sha256 Resources.

Module Files.
Import Kind Resources.
Open Scope prog_scope.

Section Files.

(** The IDs that are generated: none is a name a client gives. *)
Context (generated : string → bool) (dataDir defaultArchitecture defaultSHA256 : string) (defaultBinary : list Z).

Abbreviation volumes w := (Store.volumes (store w)) (only parsing).
Abbreviation kernels w := (Store.kernels (store w)) (only parsing).

(** An ID that neither is nor was a volume's or a kernel's. *)
Definition unused (id : string) (w : World) : Prop :=
  namesByID (volumes w) !! id = None ∧ namesByID (kernels w) !! id = None ∧ id ∉ retired w.

Definition has_disk (w : World) (v : Volume.Volume) : Prop := disks w !! Volume.ID v = Some (Volume.SizeBytes v).

Definition has_binary (w : World) (k : Kernel.Kernel) : Prop :=
  ∃ content, binaries w !! Kernel.ID k = Some content ∧ digestOf content = Kernel.SHA256 k.

(** Definitions are under names that are not generated, with IDs that are, and
    are on disk as they are in memory. *)
Definition kind_ok {A} `{Named A} (k : Kind A) : Prop :=
  kind_wf k ∧ synced k ∧ ∀ n v, byName k !! n = Some v → generated n = false ∧ generated (id_of v) = true.

(** The default kernel is put back when the daemon starts: all others have
    their binary, as it was imported. *)
Record I (w : World) : Prop := {
  volumes_ok : kind_ok (volumes w);
  kernels_ok : kind_ok (kernels w);
  ids_apart : ∀ id, is_Some (namesByID (volumes w) !! id) → namesByID (kernels w) !! id = None;
  retired_ok : ∀ id, id ∈ retired w → namesByID (volumes w) !! id = None ∧ namesByID (kernels w) !! id = None;
  disks_ok : ∀ n v, byName (volumes w) !! n = Some v → has_disk w v;
  binaries_ok : ∀ n k, byName (kernels w) !! n = Some k → n ≠ DefaultName → has_binary w k;
}.

(** A kernel's ID keeps its name, until the kernel is deleted; the default
    kernel is not. *)
Definition named (id name : string) (w : World) : Prop :=
  namesByID (kernels w) !! id = Some name ∨ (name ≠ DefaultName ∧ id ∈ retired w).

Definition same_files (id : string) (w w' : World) : Prop :=
  disks w' !! id = disks w !! id ∧ binaries w' !! id = binaries w !! id ∧ partials w' !! id = partials w !! id.

(** What may change, where the IDs that [kept] says are left alone. *)
Definition evolves (kept : string → Prop) (w w' : World) : Prop :=
  retired w ⊆ retired w' ∧
  (∀ id name, named id name w → named id name w') ∧
  (∀ id, kept id → unused id w → unused id w' ∧ same_files id w w').

Definition G (L : gset lock) : World → World → Prop := evolves (λ id, NewID id ∉ L).

Definition R (L : gset lock) : World → World → Prop := evolves (λ id, NewID id ∈ L).

Lemma evolves_refl kept w : evolves kept w w.
Proof. split_and!; done. Qed.

Lemma evolves_trans kept w1 w2 w3 : evolves kept w1 w2 → evolves kept w2 w3 → evolves kept w1 w3.
Proof.
  intros (Hr1 & Hn1 & Hu1) (Hr2 & Hn2 & Hu2). split_and!; [by etrans|by auto|].
  intros id Hk Hu. destruct (Hu1 id Hk Hu) as [Hu' (?&?&?)]. destruct (Hu2 id Hk Hu') as [? (?&?&?)].
  split; [done|]. split_and!; congruence.
Qed.

#[local] Instance files_rg : RelyGuarantee I G R.
Proof.
  split.
  - intros L w. apply evolves_refl.
  - intros L w1 w2 w3. apply evolves_trans.
  - intros L1 L2 w w' Hd _ (Hr & Hn & Hu). split_and!; [done..|]. intros id Hid. apply Hu. set_solver.
Qed.

Abbreviation triple := (Conc.triple (answer:=answer) I G R (λ _, 0)) (only parsing).
Abbreviation Stable := (Conc.Stable R) (only parsing).

(** *** What others leave as it is *)

#[local] Instance stable_True L : Stable L (λ _, True).
Proof. done. Qed.

#[local] Instance stable_retired L id : Stable L (λ w, id ∈ retired w).
Proof. intros w w' (Hr & _). set_solver. Qed.

#[local] Instance stable_named L id name : Stable L (named id name).
Proof. intros w w' (_ & Hn & _). apply Hn. Qed.

(** What is known of an ID's files while it is unused, and nobody else has. *)
Definition holds (id : string) (L : gset lock) (F : option Z → option (list Z) → option (list Z) → Prop) (w : World) : Prop :=
  NewID id ∈ L ∧ unused id w ∧ F (disks w !! id) (binaries w !! id) (partials w !! id).

#[local] Instance stable_holds id L F : Stable L (holds id L F).
Proof.
  intros w w' (_ & _ & Hu) (Hid & Hun & HF). destruct (Hu id Hid Hun) as [? (E1&E2&E3)].
  split_and!; [done..|]. by rewrite E1, E2, E3.
Qed.

Abbreviation reserved id L := (holds id L (λ _ _ _, True)) (only parsing).

(** An ID whose files a program may change. *)
Definition own (id : string) (L : gset lock) (w : World) : Prop :=
  reserved id L w ∨ id ∈ retired w ∨ named id DefaultName w.

(** *** Steps *)

(** All that the invariant speaks of is as it was, but an ID's files. *)
Definition alike (w w' : World) : Prop :=
  volumes w' = volumes w ∧ kernels w' = kernels w ∧ retired w' = retired w.

Definition only_at (id : string) (w w' : World) : Prop :=
  alike w w' ∧ ∀ j, j ≠ id → same_files j w w'.

Lemma I_unused_volume w id n v : I w → unused id w ∨ id ∈ retired w ∨ named id DefaultName w →
  byName (volumes w) !! n = Some v → Volume.ID v ≠ id.
Proof.
  intros HI Hown Hv <-. destruct (volumes_ok w HI) as ([Hwf _] & _). destruct (Hwf n v Hv) as (_ & _ & Hid & _). simpl in Hid.
  destruct Hown as [(Hno & _)|[Hr|[Hd|[? _]]]]; [congruence|destruct (retired_ok w HI _ Hr); congruence| |done].
  pose proof (ids_apart w HI (Volume.ID v)) as Ha. rewrite Hid in Ha. rewrite Ha in Hd; [done|eauto].
Qed.

Lemma I_unused_kernel w id n k : I w → unused id w ∨ id ∈ retired w ∨ named id DefaultName w →
  byName (kernels w) !! n = Some k → n ≠ DefaultName → Kernel.ID k ≠ id.
Proof.
  intros HI Hown Hk Hn <-. destruct (kernels_ok w HI) as ([Hwf _] & _). destruct (Hwf n k Hk) as (_ & _ & Hid & _). simpl in Hid.
  destruct Hown as [(_ & Hno & _)|[Hr|[Hd|[? _]]]]; [congruence|destruct (retired_ok w HI _ Hr); congruence|congruence|done].
Qed.

Lemma own_weaken id L w : own id L w → unused id w ∨ id ∈ retired w ∨ named id DefaultName w.
Proof. intros [(_ & H & _)|H]; auto. Qed.

(** Changing the files of an ID that is one's own. *)
Lemma only_at_ok id L w w' : I w → own id L w → only_at id w w' → I w' ∧ G L w w'.
Proof.
  intros HI Ho ((Ev & Ek & Er) & Hf). split_and!.
  - pose proof HI as [H1 H2 H3 H4 H5 H6]. split; rewrite ?Ev, ?Ek, ?Er; try done.
    + intros n v Hv. pose proof (I_unused_volume w id n v HI (own_weaken _ _ _ Ho) Hv).
      unfold has_disk. destruct (Hf (Volume.ID v)) as (-> & _); [done|]. by eapply H5.
    + intros n k Hk Hn. pose proof (I_unused_kernel w id n k HI (own_weaken _ _ _ Ho) Hk Hn).
      unfold has_binary. destruct (Hf (Kernel.ID k)) as (_ & -> & _); [done|]. by eapply H6.
  - split_and!; unfold named, unused; rewrite ?Ev, ?Ek, ?Er; try done.
    intros j Hj Hu. split; [done|]. apply Hf. intros ->. destruct Ho as [(? & _)|[?|[Hd|[? _]]]]; [done| |..|done].
    + by destruct Hu as (_ & _ & ?).
    + destruct Hu as (_ & ? & _). congruence.
Qed.

(** Why an ID's files are one's own, whatever they are. *)
Class Tenure (id : string) (L : gset lock) (P : World → Prop) : Prop := {
  #[global] tenure_stable :: Stable L P;
  tenure_own : ∀ w, P w → own id L w;
  tenure_alike : ∀ w w', alike w w' → P w → P w';
}.

#[local] Instance tenure_reserved id L : Tenure id L (reserved id L).
Proof.
  split; [apply _|by left|]. intros w w' (Ev & Ek & Er) (? & Hu & _). split_and!; [done| |done].
  unfold unused in *. by rewrite Ev, Ek, Er.
Qed.

#[local] Instance tenure_retired id L : Tenure id L (λ w, id ∈ retired w).
Proof. split; [apply _|right; by left|]. by intros w w' (_ & _ & ->). Qed.

#[local] Instance tenure_default id L : Tenure id L (named id DefaultName).
Proof. split; [apply _|by right; right|]. intros w w' (_ & Ek & Er). unfold named. by rewrite Ek, Er. Qed.

(** A step that changes none of it. *)
Lemma alike_ok L w w' : I w → alike w w' → (∀ j, same_files j w w') → I w' ∧ G L w w' ∧ R L w w'.
Proof.
  intros HI (Ev & Ek & Er) Hf. split_and!.
  - destruct HI as [H1 H2 H3 H4 H5 H6]. split; rewrite ?Ev, ?Ek, ?Er; try done.
    + intros n v Hv. unfold has_disk. destruct (Hf (Volume.ID v)) as (-> & _). by eapply H5.
    + intros n k Hk Hn. unfold has_binary. destruct (Hf (Kernel.ID k)) as (_ & -> & _). by eapply H6.
  - split_and!; unfold named, unused; rewrite ?Ev, ?Ek, ?Er; by auto.
  - split_and!; unfold named, unused; rewrite ?Ev, ?Ek, ?Er; by auto.
Qed.

(** *** Programs that change nothing of it, and programs that change an ID's files *)

Abbreviation calm := (keeps (answer:=answer) I G R (λ _, 0) Stable) (only parsing).
Abbreviation calm_ret := (keeps_ret (answer:=answer) I G R (λ _, 0) Stable (λ _ _ H, H)) (only parsing).
Abbreviation calm_ask := (keeps_ask (answer:=answer) I G R (λ _, 0) Stable (λ _ _ H, H)) (only parsing).
Abbreviation calm_bind := (keeps_bind (answer:=answer) I G R (λ _, 0) Stable) (only parsing).
Abbreviation calm_ebind := (keeps_ebind (answer:=answer) I G R (λ _, 0) Stable (λ _ _ H, H)) (only parsing).
Abbreviation calm_wrapping := (keeps_wrapping (answer:=answer) I G R (λ _, 0) Stable (λ _ _ H, H)) (only parsing).

Abbreviation at_id id := (keeps (answer:=answer) I G R (λ _, 0) (Tenure id)) (only parsing).
Abbreviation at_bind := (keeps_bind (answer:=answer) I G R (λ _, 0) (Tenure _)) (only parsing).
Abbreviation at_ebind := (keeps_ebind (answer:=answer) I G R (λ _, 0) (Tenure _) (λ _ _ H, tenure_stable)) (only parsing).
Abbreviation at_wrapping := (keeps_wrapping (answer:=answer) I G R (λ _, 0) (Tenure _) (λ _ _ H, tenure_stable)) (only parsing).
Abbreviation at_on_error := (keeps_on_error (answer:=answer) I G R (λ _, 0) (Tenure _) (λ _ _ H, tenure_stable)) (only parsing).
Abbreviation at_deferred := (keeps_deferred (answer:=answer) I G R (λ _, 0) (Tenure _) (λ _ _ H, tenure_stable)) (only parsing).

Lemma calm_at_id {A} id (p : M A) : calm p → at_id id p.
Proof. intros Hp L P HP. apply Hp, _. Qed.

Lemma calm_step {B} (f : World → B * World) :
  (∀ w, alike w (f w).2 ∧ ∀ j, same_files j w (f w).2) → calm (atomically f).
Proof.
  intros Hf. apply keeps_step; [done|]. intros L P w HP HI Hw. destruct (Hf w) as [Ha Hj].
  destruct (alike_ok L _ _ HI Ha Hj) as (HI' & HG & HR). split_and!; [done..|]. by eapply HP.
Qed.

Lemma calm_gets {B} (f : World → B) : calm (gets f).
Proof. by apply calm_step. Qed.

Lemma at_step {B} id (f : World → B * World) : (∀ w, only_at id w (f w).2) → at_id id (atomically f).
Proof.
  intros Hf. apply keeps_step; [by intros ? ? []|]. intros L P w HP HI Hw.
  destruct (only_at_ok id L _ _ HI (tenure_own _ Hw) (Hf w)) as [? ?]. split_and!; [done..|].
  eapply tenure_alike; [apply Hf|done].
Qed.

Lemma calm_attempt : calm attempt.
Proof. apply calm_bind; [apply calm_ask|]. intros. apply calm_ret. Qed.

Lemma calm_record k id name action : calm (record k id name action).
Proof. by apply calm_step. Qed.

Create HintDb files.
#[local] Hint Extern 1 (keeps _ _ _ _ Stable (ask ?q)) => exact (calm_ask q) : files.
#[local] Hint Extern 1 (keeps _ _ _ _ Stable (mret _)) => apply calm_ret : files.
#[local] Hint Extern 1 (keeps _ _ _ _ Stable (_ ≫= _)) => apply calm_bind : files.
#[local] Hint Extern 1 (keeps _ _ _ _ Stable (ebind _ _)) => apply calm_ebind : files.
#[local] Hint Extern 1 (keeps _ _ _ _ Stable (wrapping _ _)) => apply calm_wrapping : files.
#[local] Hint Extern 2 (keeps _ _ _ _ (Tenure _) (_ ≫= _)) => apply at_bind : files.
#[local] Hint Extern 2 (keeps _ _ _ _ (Tenure _) (ebind _ _)) => apply at_ebind : files.
#[local] Hint Extern 2 (keeps _ _ _ _ (Tenure _) (wrapping _ _)) => apply at_wrapping : files.
#[local] Hint Extern 2 (keeps _ _ _ _ (Tenure _) (on_error _ _)) => apply at_on_error : files.
#[local] Hint Extern 2 (keeps _ _ _ _ (Tenure _) (deferred _ _)) => apply at_deferred : files.
#[local] Hint Resolve calm_gets calm_attempt calm_record calm_at_id at_step : files.

(** A change of an ID's files, read off its definition. *)
Ltac solve_only_at :=
  intros w; repeat case_match; (split; [done|intros j Hj]); split_and!; simpl;
  rewrite ?lookup_insert_ne, ?lookup_delete_ne by congruence; done.

Lemma at_removeDisk id : at_id id (removeDisk id).
Proof.
  unfold removeDisk. apply at_bind; [auto with files|]. intros [|e []]; (apply at_bind; [apply at_step; solve_only_at|auto with files]).
Qed.

Lemma at_removeBinary id : at_id id (removeBinary id).
Proof.
  unfold removeBinary. apply at_bind; [auto with files|]. intros [|e []]; (apply at_bind; [apply at_step; solve_only_at|auto with files]).
Qed.

Lemma at_discard id f : (∀ w, only_at id w (f w)) → at_id id (discard f).
Proof. intros Hf. unfold discard. apply at_bind; [auto with files|]. intros [e|]; [auto with files|]. by apply at_step. Qed.

Lemma at_removePartial id : at_id id (removePartial id).
Proof. apply at_discard. solve_only_at. Qed.

#[local] Hint Resolve at_removeDisk at_removeBinary at_removePartial : files.

Lemma at_CreateExt4 id size : at_id id (CreateExt4 id size).
Proof.
  unfold CreateExt4. do 2 (apply at_ebind; [auto with files|]; intros _). apply at_bind; [apply at_step; solve_only_at|]. intros _.
  apply at_on_error; [apply at_discard; solve_only_at|].
  do 4 (apply at_ebind; [auto with files|]; intros _). apply at_bind; [apply at_step; solve_only_at|auto with files].
Qed.

Lemma at_createFile id src : calm src → at_id id (createFile id src).
Proof.
  intros Hs. unfold createFile. apply at_ebind; [auto with files|]. intros _. apply at_bind; [apply at_step; solve_only_at|]. intros _.
  apply at_on_error; [auto with files|]. apply at_bind; [|auto with files]. apply at_bind; [auto with files|]. intros read.
  apply at_bind; [apply at_step; solve_only_at|]. intros _. destruct read.2; auto 6 with files.
Qed.

Lemma at_install id : at_id id (install id).
Proof. unfold install. apply at_ebind; [auto with files|]. intros _. apply at_step. solve_only_at. Qed.

Lemma at_extractDefault id : at_id id (extractDefault defaultBinary id).
Proof.
  unfold extractDefault. apply at_ebind; [auto with files|]. intros _. apply at_wrapping. unfold Extract. apply at_bind; [auto with files|]. intros found.
  apply at_bind; [auto with files|]. intros unreadable. destruct (_ && _); [auto with files|].
  do 3 (apply at_ebind; [auto with files|]; intros _). apply at_deferred; [auto with files|].
  apply at_ebind; [apply at_wrapping, at_createFile; auto with files|]. intros _. apply at_wrapping, at_install.
Qed.

(** *** The files of a new ID *)

Lemma holds_own id L F w : holds id L F w → own id L w.
Proof. intros (? & ? & _). by left. Qed.

Lemma holds_weaken id L F F' w : (∀ d b p, F d b p → F' d b p) → holds id L F w → holds id L F' w.
Proof. intros HF (? & ? & ?). split_and!; auto. Qed.

Lemma holds_step {B} id L F (f : World → B * World) (F' : B → option Z → option (list Z) → option (list Z) → Prop) :
  (∀ w, only_at id w (f w).2) →
  (∀ w, F (disks w !! id) (binaries w !! id) (partials w !! id) →
     F' (f w).1 (disks (f w).2 !! id) (binaries (f w).2 !! id) (partials (f w).2 !! id)) →
  triple L (holds id L F) (atomically f) (λ b, holds id L (F' b)).
Proof.
  intros Hf HF. apply triple_step; [apply _..|]. intros w HI Hw.
  destruct (only_at_ok id L _ _ HI (holds_own _ _ _ _ Hw) (Hf w)) as [? ?]. split_and!; [done..|].
  destruct Hw as (? & Hu & HFw), (Hf w) as ((Ev & Ek & Er) & _). split_and!; [done| |by apply HF].
  unfold unused in *. by rewrite Ev, Ek, Er.
Qed.

Lemma ask_bind q {B} (g : answer q → M B) L P T :
  Stable L P → (∀ a, triple L P (g a) T) → triple L P (ask q ≫= g) T.
Proof. intros HP Hg. eapply triple_bind; [apply _|by apply calm_ask|done]. Qed.

Lemma ret_keeps {A} (a : A) L P : Stable L P → triple L P (mret a) (λ _, P).
Proof. apply calm_ret. Qed.

Lemma calm_outcome {A} (p : M (result A)) L P : calm p → Stable L P → triple L P p (outcome (λ _, P) P).
Proof. intros Hp HP. eapply triple_post; [|by apply Hp]. by intros [a|e]. Qed.

(** Removing a file beside the one that is known. *)
Lemma holds_discard id L F f :
  (∀ w, only_at id w (f w)) →
  (∀ w, F (disks w !! id) (binaries w !! id) (partials w !! id) →
     F (disks (f w) !! id) (binaries (f w) !! id) (partials (f w) !! id)) →
  triple L (holds id L F) (discard f) (λ _, holds id L F).
Proof.
  intros Hf HF. unfold discard. apply (ask_bind QFile); [apply _|]. intros [e|]; [apply ret_keeps, _|].
  by apply (holds_step id L F (λ w, (tt, f w)) (λ _, F)).
Qed.

Lemma holds_removePartial id L (F : option Z → option (list Z) → option (list Z) → Prop) :
  (∀ d b p p', F d b p → F d b p') → triple L (holds id L F) (removePartial id) (λ _, holds id L F).
Proof. intros HF. apply holds_discard; [solve_only_at|]. intros w. apply HF. Qed.

(** What is removed of a new ID leaves it new. *)
Lemma reserved_removal id L F (f : World → World) :
  (∀ w, only_at id w (f w)) → triple L (holds id L F) (modify f) (λ _, reserved id L).
Proof. intros Hf. by apply (holds_step id L F (λ w, (tt, f w)) (λ _ _ _ _, True)). Qed.

(** An operation on a new ID's files leaves it new. *)
Lemma reserved_at {A} id L F (p : M A) : at_id id p → triple L (holds id L F) p (λ _, reserved id L).
Proof. intros Hp. eapply triple_pre; [|apply Hp, _]. intros w. by apply holds_weaken. Qed.

(** A fallible program that changes nothing, and what follows. *)
Lemma try_ebind {A B} (p : M (result A)) (g : A → M (result B)) L P X Y :
  calm p → Stable L P → (∀ w, P w → Y w) → (∀ a, triple L P (g a) (outcome X Y)) → triple L P (ebind p g) (outcome X Y).
Proof.
  intros Hp HP HY Hg. eapply triple_ebind; [apply _|by apply calm_outcome|exact Hg|done|]. auto.
Qed.

Ltac reserve := intros; by (eapply holds_weaken; [|eassumption]).

Lemma CreateExt4_makes id L size :
  triple L (reserved id L) (CreateExt4 id size) (outcome (λ _, holds id L (λ d _ _, d = Some size)) (reserved id L)).
Proof.
  unfold CreateExt4. do 2 (apply try_ebind; [auto with files|apply _|done|intros _]).
  eapply triple_bind; [apply _|apply reserved_removal; solve_only_at|]. intros [].
  eapply triple_on_error; [apply _| |apply holds_discard; [solve_only_at|done]|apply _..].
  do 4 (apply try_ebind; [auto with files|apply _|done|intros _]).
  eapply triple_bind; [apply _| |].
  - apply (holds_step id L _ (λ w, (tt, _)) (λ _ d _ _, d = Some size)); [solve_only_at|].
    intros w _. simpl. apply lookup_insert_eq.
  - intros []. apply triple_ret; [apply _|done].
Qed.

Lemma createFile_writes id L src :
  calm src →
  triple L (reserved id L) (createFile id src) (outcome (λ c, holds id L (λ _ _ p, p = Some c)) (reserved id L)).
Proof.
  intros Hs. unfold createFile. apply try_ebind; [auto with files|apply _|done|intros _].
  eapply triple_bind; [apply _|apply reserved_removal; solve_only_at|]. intros [].
  eapply triple_on_error; [apply _| |by apply holds_removePartial|apply _..].
  eapply (triple_bind _ _ _ _ _ _ _ _ (outcome (λ c, holds id L (λ _ _ p, p = Some c)) (reserved id L))).
  - eapply triple_bind; [apply _|by apply Hs, _|]. intros [c e]. cbn [fst snd].
    eapply triple_bind; [apply _| |].
    { apply (holds_step id L _ (λ w, (tt, _)) (λ _ _ _ p, p = Some c)); [solve_only_at|].
      intros w _. simpl. apply lookup_insert_eq. }
    intros []. destruct e as [e|]; [apply triple_ret; [apply _|reserve]|].
    do 2 (apply try_ebind; [auto with files|apply _|reserve|intros _]). apply triple_ret; [apply _|done].
  - intros r. eapply triple_bind; [apply _|apply calm_attempt; destruct r; apply _|]. intros [[]|e].
    + apply triple_ret; [destruct r; apply _|]. by destruct r.
    + apply triple_ret; [destruct r; apply _|]. destruct r; [reserve|done].
Qed.

Lemma install_installs id L c :
  triple L (holds id L (λ _ _ p, p = Some c)) (install id)
    (outcome (λ _, holds id L (λ _ b _, b = Some c)) (reserved id L)).
Proof.
  unfold install. apply try_ebind; [auto with files|apply _|reserve|intros _].
  eapply triple_post; [|apply (holds_step id L _ _ (λ r _ b _, is_ok r = true → b = Some c))].
  - intros [a|e] w _ Hw; [|reserve]. eapply holds_weaken; [|exact Hw]. auto.
  - solve_only_at.
  - intros w Hp. rewrite Hp. simpl. intros _. apply lookup_insert_eq.
Qed.

Lemma writeBinary_writes id L want :
  triple L (reserved id L) (writeBinary id want)
    (outcome (λ digest, holds id L (λ _ b _, ∃ c, b = Some c ∧ digestOf c = digest)) (reserved id L)).
Proof.
  unfold writeBinary. apply try_ebind; [auto with files|apply _|done|intros _].
  eapply triple_deferred with (Q := outcome (λ digest, holds id L (λ _ b _, ∃ c, b = Some c ∧ digestOf c = digest)) (reserved id L)).
  { apply _. }
  - eapply triple_ebind; [apply _|apply createFile_writes; auto with files| |apply _|done]. intros c.
    do 3 (case_match; [apply triple_ret; [apply _|reserve]|]).
    eapply triple_ebind; [apply _|apply triple_wrapping; [apply _|apply install_installs|apply _..]| |apply _|done].
    intros []. apply triple_ret; [apply _|]. intros w _ Hw. eapply holds_weaken; [|exact Hw]. intros d b p ->. by exists c.
  - intros [digest|e]; simpl; apply holds_removePartial; done.
  - intros [|]; apply _.
Qed.

(** *** The steps of the store *)

Section KindSteps.

Context {A : Type} `{Named A}.

Lemma kind_ok_put (k : Kind A) v :
  kind_ok k → generated (id_of v) = true → id_of v ≠ "" → generated (name_of v) = false →
  namesByID k !! id_of v = None → Naming.valid_name (name_of v) →
  byName k !! name_of v = None → namesByID k !! name_of v = None → kind_ok (put (write k v) v).
Proof.
  intros (Hwf & Hs & Hg) Hid Hne Hn Hi Hvalid Hb Hnb. split_and!.
  - apply put_fresh_wf; try done. split_and!; [done|congruence|done|].
    destruct (byName k !! id_of v) as [v'|] eqn:E; [|done]. destruct (Hg _ _ E). congruence.
  - by apply put_synced.
  - intros n v'. simpl. intros [[<- <-]|[_ Hv]]%lookup_insert_Some; [done|by apply Hg].
Qed.

Lemma kind_ok_drop (k : Kind A) v :
  kind_ok k → byName k !! name_of v = Some v → kind_ok (drop_mem (unlink k (name_of v)) v).
Proof.
  intros (Hwf & Hs & Hg) Hv. split_and!; [by apply drop_wf|by apply drop_synced|].
  intros n v'. simpl. intros [_ Hv']%lookup_delete_Some. by apply Hg.
Qed.

Lemma kind_ok_revise (k : Kind A) v :
  kind_ok k → revises k v → kind_ok (put (write k v) v).
Proof.
  intros (Hwf & Hs & Hg) Hr. split_and!; [by apply put_revise_wf|by apply put_synced|].
  destruct Hr as (v0 & Hv0 & Hid). intros n v'. simpl. intros [[<- <-]|[_ Hv]]%lookup_insert_Some; [|by apply Hg].
  destruct (Hg _ _ Hv0) as [? Hgi]. by rewrite Hid in Hgi.
Qed.

(** An ID that is generated is not looked up as a name. *)
Lemma remove_by_id notFound check w (k : Kind A) id r k' :
  kind_ok k → generated id = true → remove notFound check w k id = (r, k') →
  (k' = k ∧ is_ok r = false) ∨
  (∃ v, k' = drop_mem (unlink k (name_of v)) v ∧ r = Ok tt ∧ byName k !! name_of v = Some v ∧ id_of v = id ∧
     namesByID k !! id = Some (name_of v)).
Proof.
  intros (Hwf & _ & Hg) Hid E. apply Store.remove_cases in E as [?|(v & u & -> & -> & _ & Hv & Hx)]; [by left| |done].
  right. exists v. destruct (proj1 Hwf _ _ Hv) as (_ & _ & Hi & _). destruct (Hg _ _ Hv) as [Hn _].
  destruct Hx as [->| ->]; [congruence|done].
Qed.

Lemma find_generated notFound (k : Kind A) x v :
  kind_ok k → find notFound k x = Ok v →
  generated (id_of v) = true ∧ byName k !! name_of v = Some v ∧ namesByID k !! id_of v = Some (name_of v).
Proof.
  intros (Hwf & _ & Hg) Hf. destruct (find_Ok _ _ _ _ Hwf Hf) as [Hv _]. destruct (Hg _ _ Hv).
  destruct (proj1 Hwf _ _ Hv) as (_ & _ & Hi & _). done.
Qed.

End KindSteps.

Lemma set_store_same w : set_store w (store w) = w.
Proof. by destruct w. Qed.

Lemma same_volumes s : Store.set_volumes s (Store.volumes s) = s.
Proof. by destruct s. Qed.

Lemma same_kernels s : Store.set_kernels s (Store.kernels s) = s.
Proof. by destruct s. Qed.

(** A new ID given to a definition. *)
Lemma evolves_new L w w' id :
  NewID id ∈ L → retired w' = retired w → disks w' = disks w → binaries w' = binaries w → partials w' = partials w →
  (∀ i, i ≠ id → namesByID (volumes w') !! i = namesByID (volumes w) !! i) →
  (∀ i, i ≠ id → namesByID (kernels w') !! i = namesByID (kernels w) !! i) →
  namesByID (kernels w) !! id = None → G L w w'.
Proof.
  intros HL Er Ed Eb Ep Hv Hk Hid. split_and!; [by rewrite Er| |].
  - intros i n. unfold named. rewrite Er. destruct (decide (i = id)) as [->|Hne]; [rewrite Hid|by rewrite Hk].
    intros [?|?]; [done|by right].
  - intros i Hi Hu. assert (i ≠ id) by congruence. unfold unused, same_files in *. by rewrite Er, Ed, Eb, Ep, Hv, Hk.
Qed.

Lemma put_namesByID {A} `{Named A} (k : Kind A) v i : i ≠ id_of v → namesByID (put (write k v) v) !! i = namesByID k !! i.
Proof. intros Hi. simpl. case_bool_decide; [done|]. by rewrite lookup_insert_ne by congruence. Qed.

Lemma CreateVolume_step L w v e r s' :
  generated (Volume.ID v) = true → Volume.ID v ≠ "" → generated (Volume.Name v) = false →
  I w → holds (Volume.ID v) L (λ d _ _, d = Some (Volume.SizeBytes v)) w →
  Store.CreateVolume e (store w) v = (r, s') →
  G L w (set_store w s') ∧ I (set_store w s') ∧ (is_ok r = false → s' = store w).
Proof.
  intros Hid Hne Hn HI (HL & (Hv & Hk & Hr) & Hd). unfold Store.CreateVolume.
  destruct (create _ _ _ _ _ _) as [r0 k] eqn:E. intros [= <- <-].
  apply Store.create_cases in E as [[-> He]|(-> & -> & Hvalid & Hb & Hnb)].
  { rewrite same_volumes, set_store_same. split_and!; [apply evolves_refl|done|done]. }
  split_and!; [|split|done]; destruct HI as [H1 H2 H3 H4 H5 H6].
  - apply (evolves_new _ _ _ (Volume.ID v)); try done. intros i Hi. by apply (put_namesByID (volumes w) v).
  - by apply kind_ok_put.
  - done.
  - intros i. destruct (decide (i = Volume.ID v)) as [->|Hi]; [done|]. cbn [store set_store Store.volumes Store.set_volumes].
    rewrite put_namesByID by done. apply H3.
  - intros i Hi. cbn [store set_store Store.volumes Store.set_volumes]. rewrite put_namesByID; [by apply H4|].
    simpl. intros ->. done.
  - intros n v'. simpl. intros [[<- <-]|[_ Hv']]%lookup_insert_Some; [exact Hd|by eapply H5].
  - done.
Qed.

Lemma CreateKernel_step L w k e r s' :
  generated (Kernel.ID k) = true → Kernel.ID k ≠ "" → generated (Kernel.Name k) = false →
  I w → reserved (Kernel.ID k) L w → (Kernel.Name k ≠ DefaultName → has_binary w k) →
  Store.CreateKernel e (store w) k = (r, s') →
  G L w (set_store w s') ∧ I (set_store w s') ∧ (is_ok r = false → s' = store w).
Proof.
  intros Hid Hne Hn HI (HL & (Hv & Hk & Hr) & _) Hbin. unfold Store.CreateKernel.
  destruct (create _ _ _ _ _ _) as [r0 k'] eqn:E. intros [= <- <-].
  apply Store.create_cases in E as [[-> He]|(-> & -> & Hvalid & Hb & Hnb)].
  { rewrite same_kernels, set_store_same. split_and!; [apply evolves_refl|done|done]. }
  split_and!; [|split|done]; destruct HI as [H1 H2 H3 H4 H5 H6].
  - apply (evolves_new _ _ _ (Kernel.ID k)); try done. intros i Hi. by apply (put_namesByID (kernels w) k).
  - done.
  - by apply kind_ok_put.
  - intros i Hi. cbn [store set_store Store.kernels Store.set_kernels]. rewrite put_namesByID; [by apply H3|].
    simpl. intros ->. simpl in *. rewrite Hv in Hi. by destruct Hi.
  - intros i Hi. cbn [store set_store Store.kernels Store.set_kernels]. rewrite put_namesByID; [by apply H4|].
    simpl. intros ->. done.
  - done.
  - intros n k'. simpl. intros [[<- <-]|[_ Hk']]%lookup_insert_Some Hn'; [by apply Hbin|by eapply H6].
Qed.

(** A definition that is deleted: its ID is not used again. *)
Lemma DeleteVolume_step L w id e r s' :
  generated id = true → I w → Store.DeleteVolume e (store w) id = (r, s') →
  let w' := if is_ok r then set_retired (set_store w s') ({[id]} ∪ retired w) else set_store w s' in
  G L w w' ∧ I w' ∧ (is_ok r = true → id ∈ retired w').
Proof.
  intros Hid HI. unfold Store.DeleteVolume. destruct (remove _ _ _ _ _) as [r0 k] eqn:E. intros [= <- <-].
  apply remove_by_id in E as [[-> ->]|(v & -> & -> & Hv & <- & Hi)]; [..|apply HI|done].
  { rewrite same_volumes, set_store_same. split_and!; [apply evolves_refl|done|done]. }
  destruct HI as [H1 H2 H3 H4 H5 H6]. cbn [is_ok]. split_and!; [| |simpl; set_solver].
  - split_and!; simpl.
    + set_solver.
    + intros i n [?|[? ?]]; [by left|right; simpl; set_solver].
    + intros i _ (Hu1 & Hu2 & Hu3). assert (i ≠ id_of v) by congruence. split; [|done]. split_and!; simpl; [|done|set_solver].
      by rewrite lookup_delete_ne by done.
  - split; [exact (kind_ok_drop (volumes w) v H1 Hv)|done|..]; simpl.
    + intros i Hs. apply H3. destruct (decide (i = id_of v)) as [->|Hne]; [eauto|].
      by rewrite lookup_delete_ne in Hs by done.
    + intros i [->%elem_of_singleton|Hr]%elem_of_union.
      * split; [apply lookup_delete_eq|]. apply H3. eauto.
      * destruct (H4 i Hr). split; [|done]. rewrite lookup_delete_None. auto.
    + intros n v' [_ Hv']%lookup_delete_Some. by eapply H5.
    + done.
Qed.

Lemma DeleteKernel_step L w id name e r s' :
  generated id = true → name ≠ DefaultName → I w → named id name w → Store.DeleteKernel e (store w) id = (r, s') →
  let w' := if is_ok r then set_retired (set_store w s') ({[id]} ∪ retired w) else set_store w s' in
  G L w w' ∧ I w' ∧ (is_ok r = true → id ∈ retired w').
Proof.
  intros Hid Hname HI Hnamed. unfold Store.DeleteKernel. destruct (remove _ _ _ _ _) as [r0 k] eqn:E. intros [= <- <-].
  apply remove_by_id in E as [[-> ->]|(v & -> & -> & Hv & <- & Hi)]; [..|apply HI|done].
  { rewrite same_kernels, set_store_same. split_and!; [apply evolves_refl|done|done]. }
  destruct HI as [H1 H2 H3 H4 H5 H6]. cbn [is_ok].
  assert (name_of v ≠ DefaultName) as Hnd.
  { destruct Hnamed as [Hn|[_ Hr]]; [congruence|]. destruct (H4 _ Hr). congruence. }
  split_and!; [| |simpl; set_solver].
  - split_and!; simpl.
    + set_solver.
    + intros i n [Hn|[? ?]]; [|right; simpl; set_solver]. unfold named. simpl.
      destruct (decide (i = id_of v)) as [->|Hne]; [|left; by rewrite lookup_delete_ne by done].
      right. split; [congruence|set_solver].
    + intros i _ (Hu1 & Hu2 & Hu3). assert (i ≠ id_of v) by congruence. split; [|done]. split_and!; simpl; [done| |set_solver].
      by rewrite lookup_delete_ne by done.
  - split; [done|exact (kind_ok_drop (kernels w) v H2 Hv)|..]; simpl.
    + intros i Hs. rewrite lookup_delete_None. right. by apply H3.
    + intros i [->%elem_of_singleton|Hr]%elem_of_union.
      * split; [|apply lookup_delete_eq]. destruct (namesByID (volumes w) !! id_of v) as [n|] eqn:En; [|done].
        specialize (H3 (id_of v)). rewrite En in H3. rewrite H3 in Hi by eauto. done.
      * destruct (H4 i Hr). split; [done|]. rewrite lookup_delete_None. auto.
    + done.
    + intros n k' [_ Hk']%lookup_delete_Some. by eapply H6.
Qed.

(** The default kernel keeps its ID. *)
Lemma UpdateKernel_step L w k e r s' :
  Kernel.Name k = DefaultName → I w → named (Kernel.ID k) DefaultName w → Store.UpdateKernel e (store w) k = (r, s') →
  G L w (set_store w s') ∧ I (set_store w s').
Proof.
  intros Hname HI Hnamed. unfold Store.UpdateKernel. destruct (update _ _ _ _ _) as [r0 k'] eqn:E. intros [= <- <-].
  apply Store.update_cases in E as [[-> He]|(-> & -> & _)].
  { rewrite same_kernels, set_store_same. split_and!; [apply evolves_refl|done]. }
  destruct HI as [H1 H2 H3 H4 H5 H6]. destruct Hnamed as [Hn|[? _]]; [|done].
  assert (revises (kernels w) k) as Hrev.
  { destruct H2 as ([Hwf1 Hwf2] & _). destruct (Hwf2 _ _ Hn) as (k0 & Hk0 & Hid0). exists k0. simpl. by rewrite Hname. }
  assert (namesByID (put (write (kernels w) k) k) = namesByID (kernels w)) as Eids.
  { simpl. rewrite Hname. case_bool_decide; [done|]. by apply insert_id. }
  split; [split_and!|split]; unfold named, unused; cbn [store set_store Store.kernels Store.set_kernels retired]; rewrite ?Eids;
    try done.
  - by apply kind_ok_revise.
  - intros n k'. simpl. intros [[<- <-]|[_ Hk']]%lookup_insert_Some Hn'; [done|by eapply H6].
Qed.

(** *** The operations *)

#[local] Instance stable_pure L (φ : Prop) : Stable L (λ _, φ).
Proof. by intros w w' _ H. Qed.

(** What an operation relies on is [P]; that it keeps to the rules is all that
    is asked of it. *)
Definition heeds {A} (L : gset lock) (P : World → Prop) (p : M A) : Prop := triple L P p (λ _ _, True).

Lemma heeds_calm {A} L P (p : M A) : calm p → Stable L P → heeds L P p.
Proof. intros Hp HP. eapply triple_post; [|by apply Hp]. done. Qed.

Lemma heeds_ret {A} L P (a : A) : Stable L P → heeds L P (mret a).
Proof. intros HP. by apply triple_ret. Qed.

Lemma heeds_bind {A B} L P Q (p : M A) (g : A → M B) : triple L P p Q → (∀ a, heeds L (Q a) (g a)) → heeds L P (p ≫= g).
Proof. intros Hp Hg. eapply triple_bind; [apply _|exact Hp|exact Hg]. Qed.

Lemma heeds_ebind {A B} L P X Y (p : M (result A)) (g : A → M (result B)) :
  triple L P p (outcome X Y) → (∀ a, heeds L (X a) (g a)) → Stable L Y → heeds L P (ebind p g).
Proof. intros Hp Hg HY. eapply heeds_bind; [exact Hp|]. intros [a|e]; [apply Hg|by apply heeds_ret]. Qed.

Lemma heeds_try {A B} L P (p : M (result A)) (g : A → M (result B)) :
  calm p → Stable L P → (∀ a, heeds L P (g a)) → heeds L P (ebind p g).
Proof. intros Hp HP Hg. eapply heeds_ebind; [by apply calm_outcome|exact Hg|done]. Qed.

Lemma heeds_ask {B} q (g : answer q → M B) L P : Stable L P → (∀ a, heeds L P (g a)) → heeds L P (ask q ≫= g).
Proof. apply ask_bind. Qed.

Lemma heeds_gets {B C} (f : World → B) (g : B → M C) L P : Stable L P → (∀ b, heeds L P (g b)) → heeds L P (gets f ≫= g).
Proof. intros HP Hg. eapply heeds_bind; [by apply calm_gets|done]. Qed.

Lemma recorded {A} k id name action (a : A) : calm (record k id name action ≫= λ _, mret a).
Proof. apply calm_bind; [apply calm_record|]. intros ?. apply calm_ret. Qed.

(** A definition that is read. *)
Lemma read_ebind {A B} (f : World → result A) (g : A → M (result B)) L P X :
  Stable L P → (∀ a, Stable L (X a)) → (∀ w a, I w → P w → f w = Ok a → X a w) → (∀ a, heeds L (X a) (g a)) →
  heeds L P (ebind (gets f) g).
Proof.
  intros HP HX Hf Hg. eapply (heeds_ebind _ _ X (λ _, True)); [|exact Hg|done].
  apply triple_gets; [intros; apply evolves_refl|apply _|apply _|].
  intros w HI Hw. destruct (f w) eqn:E; [by eapply Hf|done].
Qed.

(** A step of the store. *)
Lemma on_store_step (f : option error → Store.Store → result unit * Store.Store) L P Y :
  Stable L P → Stable L Y →
  (∀ w e r s, I w → P w → f e (store w) = (r, s) →
     G L w (set_store w s) ∧ I (set_store w s) ∧ (is_ok r = false → Y (set_store w s))) →
  triple L P (on_store f) (outcome (λ _ _, True) Y).
Proof.
  intros HP HY Hf. apply (ask_bind QWrite); [done|]. intros e. apply triple_step; [done|apply _|]. intros w HI Hw.
  destruct (f e (store w)) as [r s] eqn:E. destruct (Hf _ _ _ _ HI Hw E) as (? & ? & Hr). split_and!; [done..|].
  destruct r as [a|err]; [done|by apply Hr].
Qed.

Lemma calm_on_store (f : option error → Store.Store → result unit * Store.Store) :
  (∀ e s, Store.volumes (f e s).2 = Store.volumes s ∧ Store.kernels (f e s).2 = Store.kernels s) → calm (on_store f).
Proof.
  intros Hf. apply calm_bind; [apply (calm_ask QWrite)|]. intros e. apply calm_step. intros w. specialize (Hf e (store w)).
  destruct (f e (store w)) as [r s]. destruct Hf as [Hv Hk]. split; [|done]. split_and!; [exact Hv|exact Hk|done].
Qed.

Lemma heeds_CreateVolume id name size L :
  generated id = true → id ≠ "" → generated name = false → heeds L (reserved id L) (CreateVolume dataDir id name size).
Proof.
  intros Hid Hne Hn. unfold CreateVolume. apply (heeds_ask QNow); [apply _|]. intros now.
  apply heeds_try; [auto with files|apply _|]. intros _. apply heeds_gets; [apply _|]. intros found.
  destruct (is_ok found); [apply heeds_ret, _|]. eapply heeds_bind; [apply CreateExt4_makes|]. intros [[]|e].
  - set (v := Volume.mkVolume _ _ _ _ _ _). eapply heeds_bind.
    + apply (on_store_step _ L _ (reserved id L)); [apply _..|]. intros w e r s HI Hw E.
      destruct (CreateVolume_step L w v e r s) as (? & ? & Hf); [done..|]. split_and!; [done..|].
      intros He. rewrite Hf, set_store_same by done. reserve.
    + intros [[]|e]; [apply heeds_calm; [apply recorded|apply _]|].
      eapply heeds_bind; [apply reserved_at, at_removeDisk|]. intros ?. apply heeds_ret, _.
  - eapply heeds_bind; [apply reserved_at, at_removeDisk|]. intros ?. apply heeds_ret, _.
Qed.

Lemma heeds_Import id name arch sha L :
  generated id = true → id ≠ "" → generated name = false → heeds L (reserved id L) (Import id name arch sha).
Proof.
  intros Hid Hne Hn. unfold Import. apply (heeds_ask QNow); [apply _|]. intros now.
  apply heeds_try; [auto with files|apply _|]. intros _. case_bool_decide as Hdef; [apply heeds_ret, _|].
  apply heeds_gets; [apply _|]. intros found. destruct (is_ok found); [apply heeds_ret, _|].
  eapply heeds_bind; [apply writeBinary_writes|]. intros [digest|e].
  - set (k := withSHA256 _ _). eapply heeds_bind.
    + apply (on_store_step _ L _ (reserved id L)); [apply _..|]. intros w e r s HI Hw E.
      destruct (CreateKernel_step L w k e r s) as (? & ? & Hf); [done..|reserve| |done|].
      * intros _. by destruct Hw as (_ & _ & c & ? & ?); exists c.
      * split_and!; [done..|]. intros He. rewrite Hf, set_store_same by done. reserve.
    + intros [[]|e]; [apply heeds_calm; [apply recorded|apply _]|].
      eapply heeds_bind; [apply reserved_at, at_removeBinary|]. intros ?. apply heeds_ret, _.
  - eapply heeds_bind; [apply reserved_at, at_removeBinary|]. intros ?. apply heeds_ret, _.
Qed.

(** Files that are removed once their definition is. *)
Lemma heeds_own {A} id L P (p : M A) : at_id id p → Tenure id L P → heeds L P p.
Proof. intros Hp HP. eapply triple_post; [|by apply Hp]. done. Qed.

Lemma heeds_DeleteVolume x L : heeds L (λ _, True) (DeleteVolume x).
Proof.
  unfold DeleteVolume. apply (read_ebind _ _ _ _ (λ v _, generated (Volume.ID v) = true)); [apply _..| |].
  { intros w v HI _ Hf. by apply (find_generated _ (volumes w) x v (volumes_ok w HI)) in Hf as (? & _). }
  intros v. eapply (heeds_ebind _ _ (λ _ w, Volume.ID v ∈ retired w) (λ _, True)); [|intros []|apply _].
  - apply (ask_bind QWrite); [apply _|]. intros e. apply triple_step; [apply _..|]. intros w HI Hid.
    destruct (Store.DeleteVolume e (store w) (Volume.ID v)) as [r s] eqn:E.
    destruct (DeleteVolume_step L w _ e r s Hid HI E) as (? & ? & Hr). split_and!; [done..|].
    destruct r; [by apply Hr|done].
  - eapply heeds_bind; [by apply calm_record, _|]. intros [].
    apply (heeds_own (Volume.ID v)); [auto with files|apply _].
Qed.

Lemma heeds_DeleteKernel x L : heeds L (λ _, True) (DeleteKernel x).
Proof.
  unfold DeleteKernel.
  apply (read_ebind _ _ _ _ (λ k w, generated (Kernel.ID k) = true ∧ named (Kernel.ID k) (Kernel.Name k) w)); [apply _| | |].
  { intros k w w' Hr [? Hn]. split; [done|]. exact (stable_named _ _ _ _ _ Hr Hn). }
  { intros w k HI _ Hf. apply (find_generated _ (kernels w) x k (kernels_ok w HI)) in Hf as (? & _ & ?). split; [done|by left]. }
  intros k. assert (Stable L (λ w, generated (Kernel.ID k) = true ∧ named (Kernel.ID k) (Kernel.Name k) w)).
  { intros w w' Hr [? Hn]. split; [done|]. exact (stable_named _ _ _ _ _ Hr Hn). }
  case_bool_decide as Hdef; [by apply heeds_ret|].
  eapply (heeds_ebind _ _ (λ _ w, Kernel.ID k ∈ retired w) (λ _, True)); [|intros []|apply _].
  - apply (ask_bind QWrite); [done|]. intros e. apply triple_step; [done|apply _|]. intros w HI [Hid Hnamed].
    destruct (Store.DeleteKernel e (store w) (Kernel.ID k)) as [r s] eqn:E.
    destruct (DeleteKernel_step L w _ _ e r s Hid Hdef HI Hnamed E) as (? & ? & Hr). split_and!; [done..|].
    destruct r; [by apply Hr|done].
  - eapply heeds_bind; [by apply calm_record, _|]. intros [].
    apply (heeds_own (Kernel.ID k)); [auto with files|apply _].
Qed.

Lemma calm_checkBinary k : calm (checkBinary k).
Proof.
  unfold checkBinary, fileSHA256. apply calm_ebind; [auto with files|]. intros _. apply calm_bind; [auto with files|].
  intros found. do 2 (case_bool_decide; [auto with files|]). apply calm_ebind; [|auto with files].
  apply calm_wrapping, calm_ebind; [auto with files|]. intros _. apply calm_bind; [auto with files|].
  intros [c|]; auto with files.
Qed.

Lemma find_default w k : generated DefaultName = false → I w → Store.Kernel (store w) DefaultName = Ok k →
  named (Kernel.ID k) DefaultName w ∧ Kernel.Name k = DefaultName.
Proof.
  intros Hd HI Hf. pose proof (kernels_ok w HI) as Hok. destruct (find_generated _ _ _ _ Hok Hf) as (Hg & Hk & Hi).
  destruct (find_Ok _ _ _ _ (proj1 Hok) Hf) as [_ [E|E]]; simpl in *; [by split; [left; rewrite E|]|congruence].
Qed.

Abbreviation EnsureDefault := (EnsureDefaultKernel defaultArchitecture defaultSHA256 defaultBinary) (only parsing).

(** Extracting the default kernel, and what follows. *)
Lemma heeds_extract {B} id L P (g : unit → M (result B)) :
  Tenure id L P → (∀ a, heeds L P (g a)) → heeds L P (ebind (extractDefault defaultBinary id) g).
Proof.
  intros HP Hg. eapply (heeds_ebind _ _ (λ _, P) P); [|exact Hg|apply _].
  eapply triple_post; [|by apply at_extractDefault]. by intros [a|e].
Qed.

Lemma heeds_store_wrapped {B} format f (g : unit → M (result B)) L P :
  triple L P (on_store f) (outcome (λ _ _, True) (λ _, True)) → (∀ a, heeds L (λ _, True) (g a)) →
  heeds L P (ebind (wrapping format (on_store f)) g).
Proof.
  intros Hf Hg. eapply (heeds_ebind _ _ (λ _ _, True) (λ _, True)); [|exact Hg|apply _].
  by apply triple_wrapping; [apply _| |apply _..].
Qed.

Lemma default_found id L : generated DefaultName = false →
  triple L (reserved id L) (gets (λ w, Store.Kernel (store w) DefaultName)) (λ r w, match r with
    | Ok k => Kernel.Name k = DefaultName ∧ named (Kernel.ID k) DefaultName w | Err _ => reserved id L w end).
Proof.
  intros Hd. apply triple_gets; [intros; apply evolves_refl|apply _| |].
  - intros [k|e]; [|apply _]. intros w w' Hr [? Hn]. split; [done|]. exact (stable_named _ _ _ _ _ Hr Hn).
  - intros w HI Hw. destruct (Store.Kernel (store w) DefaultName) as [k|e] eqn:E; [|done].
    by destruct (find_default w k Hd HI E).
Qed.

Lemma heeds_EnsureDefaultKernel id L :
  generated id = true → id ≠ "" → generated DefaultName = false → heeds L (reserved id L) (EnsureDefault id).
Proof.
  intros Hid Hne Hd. eapply heeds_bind; [by apply default_found|]. intros [k|e].
  - apply triple_pure. intros Hname. destruct (_ && _).
    + eapply heeds_bind; [apply calm_checkBinary, _|]. intros there. destruct (is_ok there); [apply heeds_ret, _|].
      apply heeds_extract; [apply _|]. intros []. apply heeds_calm; [apply recorded|apply _].
    + apply heeds_extract; [apply _|]. intros []. apply (heeds_ask QNow); [apply _|]. intros now.
      apply heeds_store_wrapped; [|intros []; apply heeds_calm; [apply recorded|apply _]].
      apply on_store_step; [apply _..|]. intros w e r s HI Hn E.
      by apply (UpdateKernel_step L) in E as [? ?].
  - destruct (Is e ErrNotFound); [|apply heeds_ret, _]. apply (heeds_ask QNow); [apply _|]. intros now.
    apply heeds_extract; [apply _|]. intros [].
    apply heeds_store_wrapped; [|intros []; apply heeds_calm; [apply recorded|apply _]].
    apply on_store_step; [apply _..|]. intros w e' r s HI Hw E. by apply (CreateKernel_step L) in E as (? & ? & _).
Qed.

Lemma calm_checkSubnetIsFree n : calm (checkSubnetIsFree n).
Proof. apply calm_ebind; [apply calm_wrapping, (calm_ask QHostSubnets)|]. intros. apply calm_gets. Qed.

Lemma calm_createNetwork n : calm (createNetwork n).
Proof. apply calm_on_store. intros e s. unfold Store.CreateNetwork. by destruct (create _ _ _ _ _ _). Qed.

Lemma calm_CreateNetwork id spec : calm (CreateNetwork id spec).
Proof.
  unfold CreateNetwork. apply calm_bind; [apply (calm_ask QNow)|]. intros now. apply calm_ebind; [apply calm_ret|]. intros n.
  apply calm_bind; [apply calm_gets|]. intros found. destruct (is_ok found); [apply calm_ret|].
  apply calm_ebind; [apply calm_checkSubnetIsFree|]. intros _. apply calm_ebind; [apply calm_createNetwork|]. intros _.
  apply recorded.
Qed.

Lemma calm_EnsureDefaultNetwork id subnet : calm (EnsureDefaultNetwork id subnet).
Proof.
  unfold EnsureDefaultNetwork. apply calm_bind; [apply calm_gets|]. intros found. destruct (is_ok found); [apply calm_ret|].
  apply calm_bind; [apply (calm_ask QNow)|]. intros now. apply calm_ebind; [apply calm_ret|]. intros n.
  apply calm_ebind; [apply calm_wrapping, calm_checkSubnetIsFree|]. intros _.
  apply calm_ebind; [apply calm_wrapping, calm_createNetwork|]. intros _. apply recorded.
Qed.

(** The allocation tables are none of it. *)
Lemma calm_tables {A} q (f : answer q → NetworkManager.Manager → result A * NetworkManager.Manager) :
  calm (a ← ask q; atomically (λ w, let '(r, m) := f a (tables w) in (r, set_tables w m))).
Proof.
  apply calm_bind; [apply calm_ask|]. intros a. apply calm_step. intros w. by destruct (f a (tables w)).
Qed.

Lemma calm_DeleteNetwork x : calm (DeleteNetwork x).
Proof.
  unfold DeleteNetwork. apply calm_ebind; [apply calm_gets|]. intros n. case_bool_decide; [apply calm_ret|].
  apply calm_ebind.
  { apply calm_on_store. intros e s. unfold Store.DeleteNetwork. by destruct (remove _ _ _ _ _). }
  intros _. apply calm_bind; [apply calm_record|]. intros _. apply calm_wrapping.
  apply (calm_tables QFile (λ e m, NetworkManager.Forget e m (Network.Name n))).
Qed.

(** *** Everything that may happen *)

(** A write of another kind of definition. *)
Definition elsewhere (o : Store.op) : bool :=
  match o with
  | Store.OpCreateNetwork _ _ | Store.OpDeleteNetwork _ _ | Store.OpCreateVolume _ _ | Store.OpDeleteVolume _ _
  | Store.OpCreateKernel _ _ | Store.OpUpdateKernel _ _ | Store.OpDeleteKernel _ _ => false
  | _ => true
  end.

Lemma elsewhere_keeps o s :
  elsewhere o = true → Store.volumes (Store.run o s).2 = Store.volumes s ∧ Store.kernels (Store.run o s).2 = Store.kernels s.
Proof.
  destruct o; intros [=]; cbn [Store.run];
    unfold Store.CreateInstance, Store.UpdateInstance, Store.RenameInstance, Store.DeleteInstance, Store.CreateSnapshot,
      Store.DeleteSnapshot, Store.CreateToken, Store.UpdateToken, Store.RecordTokenUse, Store.DeleteToken;
    repeat case_match; simplify_eq; done.
Qed.

(** What may be started, each request with an ID that nobody was given. *)
Inductive admissible (w : World) : M unit → gset lock → Prop :=
  | may_create_network id spec : admissible w (ignoring (CreateNetwork id spec)) ∅
  | may_delete_network x : admissible w (ignoring (DeleteNetwork x)) ∅
  | may_ensure_network id subnet : admissible w (ignoring (EnsureDefaultNetwork id subnet)) ∅
  | may_allocate n instanceID staticIP : admissible w (ignoring (allocate n instanceID staticIP)) ∅
  | may_write o : elsewhere o = true → admissible w (modify (λ w, set_store w (Store.run o (store w)).2)) ∅
  | may_create_volume id name size :
      generated id = true → id ≠ "" → generated name = false → unused id w →
      admissible w (ignoring (CreateVolume dataDir id name size)) {[NewID id]}
  | may_delete_volume x : admissible w (ignoring (DeleteVolume x)) ∅
  | may_import id name arch sha :
      generated id = true → id ≠ "" → generated name = false → unused id w →
      admissible w (ignoring (Import id name arch sha)) {[NewID id]}
  | may_delete_kernel x : admissible w (ignoring (DeleteKernel x)) ∅
  | may_check_kernel k : admissible w (ignoring (checkBinary k)) ∅
  | may_ensure_kernel id :
      generated id = true → id ≠ "" → generated DefaultName = false → unused id w →
      admissible w (ignoring (EnsureDefaultKernel defaultArchitecture defaultSHA256 defaultBinary id)) {[NewID id]}.

(** The daemon dies and is started again, on the files that it left. *)
Definition restarted (w : World) : World :=
  mkWorld (Store.New (store w)) (NetworkManager.NewManager (NetworkManager.dir (tables w))) (disks w) (unmadeDisks w)
    (binaries w) (partials w) (events w) (retired w).

Definition crash (w w' : World) : Prop := w' = restarted w.

(** A host on which nothing was ever defined. *)
Definition initial (w : World) : Prop := store w = Store.empty_store ∧ retired w = ∅.

Definition reaches (w : World) (c : config) : Prop := rtc (step admissible crash) (Conc.mkConfig w []) c.

Lemma heeds_ignoring {A} L P (p : M A) : heeds L P p → heeds L P (ignoring p).
Proof. intros Hp. eapply heeds_bind; [exact Hp|]. intros a. apply heeds_ret, _. Qed.

#[local] Hint Resolve heeds_ignoring heeds_calm heeds_CreateVolume heeds_Import heeds_DeleteVolume heeds_DeleteKernel
  heeds_EnsureDefaultKernel calm_CreateNetwork calm_DeleteNetwork calm_EnsureDefaultNetwork calm_checkBinary
  stable_True : files.

Lemma admissible_heeds w p L : admissible w p L →
  heeds L (λ _, True) p ∨ ∃ id, L = {[NewID id]} ∧ unused id w ∧ heeds L (reserved id L) p.
Proof.
  destruct 1; [..|right; exists id|left|right; exists id|left|left|right; exists id]; eauto 6 with files; left.
  all: auto with files.
  - apply heeds_ignoring, heeds_calm; [|apply _].
    apply (calm_tables QAllocate (λ env m, NetworkManager.Allocate env m n instanceID staticIP)).
  - apply heeds_calm; [|apply _]. apply calm_step. intros w'. destruct (elsewhere_keeps o (store w')) as [? ?]; [done|].
    by split; [split_and!|].
Qed.

Lemma admissible_wp w p L : I w → admissible w p L → wp I G R (λ _, 0) p L w (λ _ L' _, finished_well (λ _, 0) L').
Proof.
  intros HI Hp. apply (wp_mono I G R _ p L w (λ a L' w', L' = L ∧ True)); [done|].
  destruct (admissible_heeds w p L Hp) as [Hs|(id & -> & Hu & Hs)]; apply Hs; [done|].
  split_and!; [set_solver|done|done].
Qed.

Lemma kind_ok_load {A} `{Named A} (k : Kind A) : kind_ok k → load (files k) = k.
Proof. intros (Hwf & Hs & _). by apply load_synced. Qed.

Lemma crash_ok w w' : I w → crash w w' → I w'.
Proof.
  intros HI ->. destruct HI as [H1 H2 H3 H4 H5 H6].
  assert (Store.volumes (Store.New (store w)) = volumes w) as Ev by apply (kind_ok_load _ H1).
  assert (Store.kernels (Store.New (store w)) = kernels w) as Ek by apply (kind_ok_load _ H2).
  split; cbn [store restarted disks binaries retired]; rewrite ?Ev, ?Ek; done.
Qed.

Lemma kind_ok_empty {A} `{Named A} : kind_ok (empty_kind (A:=A) ∅).
Proof. split_and!; [split; done| |done]. intros n v. unfold placed. simpl. rewrite !lookup_empty. naive_solver. Qed.

Lemma initial_ok w : initial w → I w.
Proof. intros [Es Er]. split; rewrite ?Es, ?Er; try done; apply kind_ok_empty. Qed.

Lemma reaches_kept w c : initial w → reaches w c → I (Conc.state c).
Proof.
  intros Hw Hc. apply (reachable_config_ok admissible crash I G R (λ _, 0)) in Hc as (HI & _);
    [done|apply admissible_wp|apply crash_ok|].
  split_and!; simpl; [by apply initial_ok|by intros i j t u|by intros t Ht%elem_of_nil].
Qed.

(** C21: however requests interleave, and whenever the daemon dies, every
    volume that is defined has its disk, of the size it is defined with, and
    every kernel but the default one has its binary, which the checksum it is
    defined with is the checksum of. *)
Theorem definitions_have_their_files w c :
  initial w → reaches w c → let w' := Conc.state c in
  (∀ v, v ∈ Store.Volumes (store w') → disks w' !! Volume.ID v = Some (Volume.SizeBytes v)) ∧
  (∀ k, k ∈ Store.Kernels (store w') → Kernel.Name k ≠ DefaultName →
     ∃ content, binaries w' !! Kernel.ID k = Some content ∧ digestOf content = Kernel.SHA256 k).
Proof.
  intros Hw Hc w'. pose proof (reaches_kept w c Hw Hc) as HI. split.
  - intros v [n Hv]%Store.elem_of_sorted_values. by eapply (disks_ok _ HI).
  - intros k [n Hk]%Store.elem_of_sorted_values Hn. eapply (binaries_ok _ HI); [exact Hk|].
    by destruct (proj1 (proj1 (kernels_ok _ HI)) _ _ Hk) as [<- _].
Qed.

End Files.

(** *** An example *)

Definition empty_world : World :=
  mkWorld Store.empty_store (NetworkManager.NewManager ∅) ∅ ∅ ∅ ∅ [] ∅.

(** Every file operation succeeds, and the kernel sent is [abc]. *)
Definition example_world (q : query) (n : nat) : answer q :=
  match q with
  | QNow => 7%Z
  | QWrite | QFile => None
  | QHostSubnets => Ok []
  | QRemoveAll => Store.Removed
  | QRead => (Sha256.bytes_of "abc", None)
  | QAllocate => NetworkManager.mkEnv (λ _, 0%Z) (Ok (2, 0, 0, 0, 0, 1)%Z) None
  end.

Definition example_generated (id : string) : bool := bool_decide (id ∈ ["id-1"; "id-2"; "id-3"; "id-4"]).

Abbreviation schedule := (list (move (S:=World) (answer:=answer) (lock:=lock))).

(** A volume is created and another deleted while a kernel is imported. *)
Definition example_moves : schedule :=
  [ Spawn (ignoring (CreateVolume "/var/lib/dicer" "id-1" "data" 1073741824)) {[NewID "id-1"]}; Go 0 99;
    Spawn (ignoring (Import "id-2" "mine" "x86_64" "")) {[NewID "id-2"]}; Go 1 9;
    Spawn (ignoring (CreateVolume "/var/lib/dicer" "id-3" "cache" 1048576)) {[NewID "id-3"]}; Go 2 99;
    Spawn (ignoring (DeleteVolume "data")) ∅; Go 3 3;
    Go 1 99 ].

Lemma example_playable :
  playable (admissible example_generated "/var/lib/dicer" "x86_64" "" []) example_world example_moves
    (Conc.mkConfig empty_world []).
Proof.
  unfold example_moves. cbn [playable spawn]. split_and!; [apply may_create_volume|apply may_import|apply may_create_volume|constructor|done];
    vm_compute; done.
Qed.

Definition example_outcome (c : config (S:=World) (answer:=answer) (lock:=lock)) : bool :=
  bool_decide (Volume.Name <$> Store.Volumes (store (Conc.state c)) = ["cache"]) &&
  bool_decide (Kernel.Name <$> Store.Kernels (store (Conc.state c)) = ["mine"]).

Lemma definitions_have_their_files_witness :
  ∃ c, reaches example_generated "/var/lib/dicer" "x86_64" "" [] empty_world c ∧ example_outcome c = true ∧
    ∀ v, v ∈ Store.Volumes (store (Conc.state c)) → disks (Conc.state c) !! Volume.ID v = Some (Volume.SizeBytes v).
Proof.
  destruct (play_reaches _ crash example_world example_moves _ example_outcome example_playable) as (c & Hc & Hg);
    [vm_compute; reflexivity|].
  exists c. split; [exact Hc|]. split; [exact Hg|].
  refine (proj1 (definitions_have_their_files example_generated "/var/lib/dicer" "x86_64" "" [] empty_world c _ Hc)).
  split; reflexivity.
Defined.

End Files.

