(* ===== verification/Networks.v ===== *)
(** * Networks

    What [Resources]'s operations on networks keep when they run one at a
    time, and two ways in which they do not keep it when they interleave. *)

From S2P Require Import Prelude Errdefs Naming Health Token Addr Network NetworkManager Instance Definitions FileStore Conc Sha256 Resources Files.

Module Networks.
Import Kind Resources Addr Network.
Open Scope prog_scope.

(** Two networks with no address in common. *)
Definition apart (n m : Network) : Prop :=
  ∀ a b, ParseCIDR (Subnet n) = Some a → ParseCIDR (Subnet m) = Some b → ¬ ∃ v, in_net a v ∧ in_net b v.

(** Networks are well formed, and no two have an address in common. *)
Definition networks_ok (w : World) : Prop :=
  kind_wf (Store.networks (store w)) ∧
  (∀ n, n ∈ Store.Networks (store w) → well_formed n) ∧
  (∀ n m, n ∈ Store.Networks (store w) → m ∈ Store.Networks (store w) → n ≠ m → apart n m).

(** An ID that no network has, nor has as its name. *)
Definition new_id (id : string) (w : World) : Prop :=
  id ≠ "" ∧ namesByID (Store.networks (store w)) !! id = None ∧ byName (Store.networks (store w)) !! id = None.

Lemma apart_sym n m : apart n m → apart m n.
Proof. intros H a b Ha Hb (v & ? & ?). apply (H b a Hb Ha). eauto. Qed.

Lemma checked_apart n networks hosts m :
  CheckSubnetOverlap n networks hosts = Ok tt → well_formed n → well_formed m → m ∈ networks → apart m n.
Proof.
  unfold CheckSubnetOverlap. intros H Hn Hm Hin b a Hb Ha.
  destruct (well_formed_prefix n Hn) as (a' & [Ha' _] & _ & HC & HP). destruct (well_formed_prefix m Hm) as (b' & [Hb' _] & _ & HC' & HP').
  simplify_eq. rewrite HP in H. apply bind_Ok in H as ([] & H & _). rewrite for_each_Ok in H. specialize (H m Hin).
  rewrite HP', refuse_if_Ok in H. rewrite <-Overlaps_spec by done. by rewrite H.
Qed.

Lemma elem_of_Networks s n : n ∈ Store.Networks s ↔ ∃ x, byName (Store.networks s) !! x = Some n.
Proof. apply Store.elem_of_sorted_values. Qed.

(** The definitions with one network more, or less. *)
Definition with_network (s s' : Store.Store) (n : Network) : Prop :=
  s' = Store.set_networks s (Store.networks s') ∧ (n ∉ Store.Networks s) ∧
  ∀ m, m ∈ Store.Networks s' ↔ m = n ∨ m ∈ Store.Networks s.

Definition without_network (s s' : Store.Store) (n : Network) : Prop :=
  s' = Store.set_networks s (Store.networks s') ∧ n ∈ Store.Networks s ∧
  ∀ m, m ∈ Store.Networks s' ↔ m ∈ Store.Networks s ∧ m ≠ n.

(** No instance or snapshot is on it. *)
Definition unused (s : Store.Store) (n : Network) : Prop :=
  (∀ i, i ∈ Store.Instances s → Instance.NetworkName i ≠ Name n) ∧
  (∀ sn, sn ∈ Store.Snapshots s → Instance.NetworkName (Snapshot.Instance sn) ≠ Name n).

(** A network that passes the check, and is then created. *)
Lemma created_ok w n hosts e r s' :
  networks_ok w → new_id (Network.ID n) w → Network.ID n ≠ Name n → well_formed n →
  CheckSubnetOverlap n (Store.Networks (store w)) hosts = Ok tt → Store.CreateNetwork e (store w) n = (r, s') →
  networks_ok (set_store w s') ∧ (is_ok r = true → with_network (store w) s' n) ∧ (is_ok r = false → s' = store w).
Proof.
  intros (Hwf & Hall & Hapart) (Hne & Hi & Hb) Hname Hn Hc. unfold Store.CreateNetwork.
  destruct (create _ _ _ _ _ _) as [r0 k] eqn:E. intros [= <- <-].
  apply Store.create_cases in E as [[-> He]|(-> & -> & Hvalid & Hnb & Hni)].
  { assert (Store.set_networks (store w) (Store.networks (store w)) = store w) as -> by by destruct (store w).
    split_and!; [done..|congruence|done]. }
  split_and!; [split_and!|intros _|done].
  - by apply put_fresh_wf.
  - intros m [x Hm]%elem_of_Networks. simpl in Hm. apply lookup_insert_Some in Hm as [[_ <-]|[_ Hm]]; [done|].
    apply Hall, elem_of_Networks. eauto.
  - assert (∀ x m, byName (Store.networks (store w)) !! x = Some m → apart m n) as Hnew.
    { intros x m Hm. eapply checked_apart; [done..| |]; [apply Hall|]; apply elem_of_Networks; eauto. }
    intros m1 m2 [x1 H1]%elem_of_Networks [x2 H2]%elem_of_Networks Hne12. simpl in H1, H2.
    apply lookup_insert_Some in H1 as [[_ <-]|[_ H1]], H2 as [[_ <-]|[_ H2]]; [done|by apply apart_sym; eauto|eauto|].
    apply Hapart; [apply elem_of_Networks; eauto..|done].
  - split_and!; [done|intros [x Hx]%elem_of_Networks; destruct (proj1 Hwf _ _ Hx) as [E _]; simpl in *; congruence|].
    intros m. rewrite !elem_of_Networks. simpl. split.
    + intros [x [[_ <-]|[_ Hm]]%lookup_insert_Some]; [by left|right; eauto].
    + intros [->|[x Hm]]; [exists (Name n); apply lookup_insert_eq|]. exists x. rewrite lookup_insert_ne; [done|]. intros <-. simpl in *. congruence.
Qed.

(** What creating a network leaves, by what it returns: the network as it was
    asked for beside the others, or what was there. *)
Definition created (id : string) (spec : Spec) (w : World) (r : result Network) (L : gset lock) (w' : World) : Prop :=
  networks_ok w' ∧ tables w' = tables w ∧
  match r with
  | Ok n => (∃ now, New id now spec = Ok n) ∧ with_network (store w) (store w') n
  | Err _ => store w' = store w
  end.

Definition default_spec (subnet : string) : Spec := mkSpec DefaultName subnet "" 0 [] false false.

(** What ensuring the default network leaves. *)
Definition ensured (id subnet : string) (w : World) (r : result unit) (L : gset lock) (w' : World) : Prop :=
  networks_ok w' ∧ tables w' = tables w ∧ (is_ok r = true → is_ok (Store.Network (store w') DefaultName) = true) ∧
  (store w' = store w ∨
   r = Ok tt ∧ ∃ now n, New id now (default_spec subnet) = Ok n ∧ with_network (store w) (store w') n).

(** What deleting one leaves: the network and its allocations are gone, or
    nothing has changed, or what kept its allocations could not be removed and
    they are left behind. *)
Definition deleted (x : string) (w : World) (r : result unit) (L : gset lock) (w' : World) : Prop :=
  networks_ok w' ∧
  ((is_ok r = false ∧ store w' = store w ∧ tables w' = tables w) ∨
   ∃ n, Store.Network (store w) x = Ok n ∧ Name n ≠ DefaultName ∧ unused (store w) n ∧
     without_network (store w) (store w') n ∧ is_ok (Store.Network (store w') x) = false ∧
     if is_ok r then
       NetworkManager.allocationTables (tables w') = delete (Name n) (NetworkManager.allocationTables (tables w)) ∧
       NetworkManager.dir (tables w') = delete (Name n) (NetworkManager.dir (tables w))
     else tables w' = tables w).

Lemma New_ID id now spec n : New id now spec = Ok n → Network.ID n = id ∧ Name n = Spec_Name spec.
Proof.
  unfold New. case_bool_decide; [done|]. intros (ipNet & _ & H1)%bind_Ok. apply bind_Ok in H1 as (gateway & _ & H1).
  apply bind_Ok in H1 as (u & _ & H1). by injection H1 as <-.
Qed.

Lemma run_checkSubnetIsFree n L w (Q : result unit → gset lock → World → Prop) :
  (∀ e, Q (Err e) L w) →
  (∀ hosts, CheckSubnetOverlap n (Store.Networks (store w)) hosts = Ok tt → Q (Ok tt) L w) →
  run (checkSubnetIsFree n) L w Q.
Proof.
  intros He Hok. apply run_ebind, run_wrapping. intros [hosts|e]; simpl; [|apply He].
  destruct (CheckSubnetOverlap _ _ _) as [[]|e] eqn:E; [by eapply Hok|apply He].
Qed.

Lemma run_on_store f L w (Q : result unit → gset lock → World → Prop) :
  (∀ e r s, f e (store w) = (r, s) → Q r L (set_store w s)) → run (on_store f) L w Q.
Proof. intros HQ e. simpl. destruct (f e (store w)) as [r s] eqn:E. by apply (HQ e). Qed.

(** The creation that follows the check. *)
Lemma run_createNetwork id now spec n hosts L w (Q : result unit → gset lock → World → Prop) :
  networks_ok w → new_id id w → id ≠ Spec_Name spec → New id now spec = Ok n →
  CheckSubnetOverlap n (Store.Networks (store w)) hosts = Ok tt →
  (∀ e, Q (Err e) L w) →
  (∀ s', networks_ok (set_store w s') → with_network (store w) s' n → Q (Ok tt) L (set_store w s')) →
  run (createNetwork n) L w Q.
Proof.
  intros Hok Hid Hne HN Hc He Hg. apply run_on_store. intros e r s E. destruct (New_ID _ _ _ _ HN) as [Eid En].
  destruct (created_ok w n hosts e r s) as (Hok' & Hr & Hf); [done|by rewrite Eid|by rewrite Eid, En|by eapply New_well_formed|done..|].
  destruct r as [[]|err]; [apply Hg; auto|]. rewrite Hf, Files.set_store_same by done. apply He.
Qed.

Lemma run_CreateNetwork w id spec :
  networks_ok w → new_id id w → id ≠ Spec_Name spec → run (CreateNetwork id spec) ∅ w (created id spec w).
Proof.
  intros Hok Hid Hne. apply (run_ask QNow). intros now. apply run_ebind.
  destruct (New id now spec) as [n|e] eqn:HN; [|by split]. apply run_step. cbn [fst snd].
  destruct (is_ok _); [by split|]. apply run_ebind, run_checkSubnetIsFree; [by split|]. intros hosts Hc.
  apply run_ebind. eapply run_createNetwork; [done..|by split|]. intros s' Hok' Hin. split_and!; [done..|eauto|done].
Qed.

Lemma found_default s n : kind_wf (Store.networks s) → n ∈ Store.Networks s → is_ok (Store.Network s (Name n)) = true.
Proof.
  intros Hwf [x Hx]%elem_of_Networks. destruct (proj1 Hwf _ _ Hx) as [E _]. simpl in E. subst x.
  unfold Store.Network. by rewrite (proj1 (find_by _ _ _ _ Hwf Hx)).
Qed.

Lemma run_EnsureDefaultNetwork w id subnet :
  networks_ok w → new_id id w → id ≠ DefaultName → run (EnsureDefaultNetwork id subnet) ∅ w (ensured id subnet w).
Proof.
  intros Hok Hid Hne. assert (∀ e, ensured id subnet w (Err e) ∅ w) as Hsame by (intros e; split_and!; [done..|by left]).
  apply run_step. cbn [fst snd]. destruct (is_ok _) eqn:Hf; [by split_and!; [..|left]|].
  apply (run_ask QNow). intros now. apply run_ebind. destruct (New id now _) as [n|e] eqn:HN; [|apply Hsame].
  apply run_ebind, run_wrapping, run_checkSubnetIsFree; [intros e; apply Hsame|]. intros hosts Hc.
  apply run_ebind, run_wrapping. apply (run_createNetwork id now (default_spec subnet) n hosts); [done|done|exact Hne|done|done|intros e; apply Hsame|].
  intros s' Hok' Hin. destruct (New_ID _ _ _ _ HN) as [_ En]. split_and!; [done|done| |].
  - intros _. change Network.DefaultName with Resources.DefaultName. cbn [Spec_Name] in En. rewrite <-En. apply found_default; [apply Hok'|]. apply Hin. by left.
  - right. split; [done|]. by exists now, n.
Qed.

(** A network that is deleted is found no more, by its name or its ID. *)
Lemma dropped k n x : kind_wf k → byName k !! Name n = Some n → x = Name n ∨ x = Network.ID n →
  ∀ e, find e (drop_mem (unlink k (Name n)) n) x = Err e.
Proof.
  intros [H1 H2] Hn Hx e. destruct (H1 _ _ Hn) as (_ & _ & Hi & Hno & _). unfold find. simpl.
  assert (delete (Name n) (byName k) !! x = None) as ->.
  { destruct Hx as [->| ->]; [apply lookup_delete_eq|]. apply lookup_delete_None. right.
    destruct (byName k !! Network.ID n) as [m|] eqn:Em; [|done]. destruct (H1 _ _ Em) as (_ & _ & _ & Hno' & _). simpl in *. congruence. }
  assert (delete (Network.ID n) (namesByID k) !! x = None) as ->; [|done].
  destruct Hx as [->| ->]; [|apply lookup_delete_eq]. apply lookup_delete_None. by right.
Qed.

Lemma networks_ok_drop w n : networks_ok w → byName (Store.networks (store w)) !! Name n = Some n →
  networks_ok (set_store w (Store.set_networks (store w) (drop_mem (unlink (Store.networks (store w)) (Name n)) n))).
Proof.
  intros (Hwf & Hall & Hapart) Hn.
  assert (∀ m, m ∈ Store.Networks (Store.set_networks (store w) (drop_mem (unlink (Store.networks (store w)) (Name n)) n)) →
    m ∈ Store.Networks (store w)) as Hsub.
  { intros m [x Hm]%elem_of_Networks. simpl in Hm. apply lookup_delete_Some in Hm as [_ Hm]. apply elem_of_Networks. eauto. }
  split_and!; [exact (drop_wf _ n Hwf Hn)|auto|auto].
Qed.

Lemma without_drop s n : kind_wf (Store.networks s) → byName (Store.networks s) !! Name n = Some n →
  without_network s (Store.set_networks s (drop_mem (unlink (Store.networks s) (Name n)) n)) n.
Proof.
  intros Hwf Hn. split_and!; [done|apply elem_of_Networks; eauto|]. intros m. rewrite !elem_of_Networks. simpl. split.
  - intros [x [Hx Hm]%lookup_delete_Some]. split; [eauto|]. intros ->. destruct (proj1 Hwf _ _ Hm) as [E _]. simpl in E. congruence.
  - intros [[x Hm] Hne]. exists x. apply lookup_delete_Some. split; [|done]. intros <-. congruence.
Qed.

Lemma checked_unused s n e1 e2 u :
  Store.checkUnused s (λ i, bool_decide (Instance.NetworkName i = Name n)) e1 e2 = Ok u → unused s n.
Proof.
  intros ([] & H1 & H2)%bind_Ok. destruct u. rewrite for_each_Ok in H1. rewrite for_each_Ok in H2. split.
  - intros i Hi. specialize (H1 i Hi). apply refuse_if_Ok in H1. by apply bool_decide_eq_false in H1.
  - intros sn Hsn. specialize (H2 sn Hsn). apply refuse_if_Ok in H2. by apply bool_decide_eq_false in H2.
Qed.

Lemma run_DeleteNetwork w x : networks_ok w → run (DeleteNetwork x) ∅ w (deleted x w).
Proof.
  intros Hok. assert (∀ e, deleted x w (Err e) ∅ w) as Hsame by (intros e; split; [done|by left]).
  apply run_ebind. cbn [run gets atomically fst snd]. destruct (Store.Network (store w) x) as [n|e] eqn:Hf; [|apply Hsame].
  destruct Hok as (Hwf & Hrest). destruct (find_Ok _ _ _ _ Hwf Hf) as [Hn Hx]. case_bool_decide as Hd; [apply Hsame|].
  apply run_ebind, run_on_store. intros e r0 s. unfold Store.DeleteNetwork.
  destruct (remove _ _ _ _ _) as [r k] eqn:E. intros [= <- <-]. apply Store.remove_cases in E as [[-> He]|(m & u & -> & -> & Hcheck & Hm & Hxm)]; [| |done].
  { assert (Store.set_networks (store w) (Store.networks (store w)) = store w) as -> by by destruct (store w).
    rewrite Files.set_store_same. destruct r; [done|apply Hsame]. }
  assert (m = n) as ->.
  { destruct (proj1 Hwf _ _ Hn) as (_ & _ & Hi & _). destruct (proj1 Hwf _ _ Hm) as (_ & _ & Him & Hnm & _).
    destruct Hxm as [E|E]; simpl in *; [rewrite E in Hi; congruence|]. rewrite E, Him in Hi. simplify_eq. congruence. }
  apply run_step, run_wrapping. intros e'. pose proof (networks_ok_drop w n (conj Hwf Hrest) Hn) as Hok'.
  pose proof (without_drop (store w) n Hwf Hn) as Hwithout. apply checked_unused in Hcheck.
  assert (is_ok (find (NotFound "no network %q") (drop_mem (unlink (Store.networks (store w)) (Name n)) n) x) = false) as Hgone
    by by rewrite (dropped _ n x Hwf Hn Hx).
  destruct e' as [e'|]; (split; [exact Hok'|right]); exists n; split_and!; done || apply Hwithout.
Qed.


(** ** Networks whose operations interleave *)

Definition web : Spec := mkSpec "web" "10.1.0.0/24" "" 0 [] false false.

Definition db : Spec := mkSpec "db" "10.1.0.0/16" "" 0 [] false false.


Abbreviation configuration := (config (S:=World) (answer:=answer) (lock:=lock)).

(** What may be started, and the crashes there may be, as in [Files]. *)
Abbreviation may := (Files.admissible Files.example_generated "/var/lib/dicer" "x86_64" "" []) (only parsing).

(** A network is checked, and before it is created another is. *)
Definition overlap_moves : Files.schedule :=
  [ Spawn (ignoring (CreateNetwork "id-1" web)) ∅; Go 0 4;
    Spawn (ignoring (CreateNetwork "id-2" db)) ∅; Go 1 99;
    Go 0 99 ].

Definition subnets_overlap (c : configuration) : bool :=
  match Store.Networks (store (Conc.state c)) with
  | [n; m] =>
      match ParsePrefix (Subnet n), ParsePrefix (Subnet m) with
      | Some p, Some q => Overlaps p q
      | _, _ => false
      end
  | _ => false
  end.

(** Two networks that are created at the same time may have addresses in
    common: each is checked against the networks there are before either is
    created. *)
Theorem concurrent_networks_overlap :
  ∃ c, Files.reaches Files.example_generated "/var/lib/dicer" "x86_64" "" [] Files.empty_world c ∧ subnets_overlap c = true.
Proof.
  apply (play_reaches may Files.crash Files.example_world overlap_moves); [|vm_compute; reflexivity].
  unfold overlap_moves. cbn [playable spawn]. split_and!; [constructor|constructor|done].
Qed.

(** An instance on [web]. *)
Definition on_web (id name : string) : Instance.Spec := {|
  Instance.ID := id; Instance.Name := name; Instance.Hostname := ""; Instance.ImageRef := "nginx"; Instance.ImageDigest := "sha256:0";
  Instance.HypervisorType := ""; Instance.HypervisorVersion := ""; Instance.KernelName := "mine"; Instance.KernelArgs := "";
  Instance.VCPUs := 1; Instance.MemoryBytes := 1073741824; Instance.DiskBytes := 10737418240; Instance.NetworkName := "web";
  Instance.StaticIP := ""; Instance.MaxVCPUs := 0; Instance.MaxMemoryBytes := 0; Instance.DiskBytesPerSecond := 0;
  Instance.DiskIOPS := 0; Instance.UploadBytesPerSecond := 0; Instance.DownloadBytesPerSecond := 0; Instance.StandbyAfter := 0;
  Instance.Ports := []; Instance.Mounts := []; Instance.Env := ∅; Instance.Cmd := []; Instance.InitMode := "";
  Instance.User := ""; Instance.Labels := ∅; Instance.Restart := Instance.mkRestartPolicy "no" 0; Instance.HealthCheck := None;
  Instance.CreatedAt := 1; Instance.UpdatedAt := 1; Instance.RemoveOnExit := false; Instance.StoppedByUser := false;
|}.

(** The network as it is created. *)
Definition web_network : Network :=
  default Store.example_network (match New "id-3" 7 web with Ok n => Some n | Err _ => None end).

Definition define_instance (v : Instance.Spec) : M unit :=
  modify (λ w, set_store w (Store.run (Store.OpCreateInstance None None v) (store w)).2).

(** A network is deleted; before its allocations are discarded, it is created
    again, and an instance on it is given an address. *)
Definition recreate_moves : Files.schedule :=
  [ Spawn (ignoring (Import "id-1" "mine" "x86_64" "")) {[NewID "id-1"]}; Go 0 99;
    Spawn (ignoring (CreateNetwork "id-2" web)) ∅; Go 1 99;
    Spawn (ignoring (DeleteNetwork "web")) ∅; Go 2 4;
    Spawn (ignoring (CreateNetwork "id-3" web)) ∅; Go 3 99;
    Spawn (define_instance (on_web "i1" "one")) ∅; Go 4 99;
    Spawn (ignoring (allocate web_network "i1" "")) ∅; Go 5 99 ].

(** The allocations are discarded, and another instance is given an address. *)
Definition reuse_moves : Files.schedule :=
  [ Go 2 99;
    Spawn (define_instance (on_web "i2" "two")) ∅; Go 6 99;
    Spawn (ignoring (allocate web_network "i2" "")) ∅; Go 7 99 ].

Definition address (c : configuration) (id : string) : option string :=
  match NetworkManager.AllocationOf (tables (Conc.state c)) "web" id with
  | Ok a => Some (Allocation_IP a)
  | Err _ => None
  end.

Definition instances (c : configuration) : list string :=
  Instance.Name <$> Store.Instances (store (Conc.state c)).

Lemma recreate_outcome :
  ∃ c c', play Files.example_world recreate_moves (Conc.mkConfig Files.empty_world []) = Some c ∧
    play Files.example_world reuse_moves c = Some c' ∧
    instances c' = ["one"; "two"] ∧ address c "i1" = Some "10.1.0.2" ∧ address c' "i2" = Some "10.1.0.2".
Proof.
  assert ((if play Files.example_world recreate_moves (Conc.mkConfig Files.empty_world []) is Some c then
           if play Files.example_world reuse_moves c is Some c' then
             bool_decide (instances c' = ["one"; "two"]) &&
             (bool_decide (address c "i1" = Some "10.1.0.2") && bool_decide (address c' "i2" = Some "10.1.0.2"))
           else false else false) = true) as Hgood by (vm_compute; reflexivity).
  destruct (play _ recreate_moves _) as [c|]; [|done]. destruct (play _ reuse_moves c) as [c'|] eqn:E; [|done].
  exists c, c'. split; [reflexivity|]. split; [exact E|]. apply andb_prop in Hgood as [H1 H2].
  apply andb_prop in H2 as [H2 H3]. apply bool_decide_eq_true in H1, H2, H3. auto.
Qed.

Lemma recreate_playable : playable may Files.example_world recreate_moves (Conc.mkConfig Files.empty_world []).
Proof.
  unfold recreate_moves. cbn [playable spawn].
  split_and!; [apply Files.may_import; vm_compute; done|apply Files.may_create_network|apply Files.may_delete_network
    |apply Files.may_create_network|by apply Files.may_write|apply Files.may_allocate|exact I].
Qed.

Lemma reuse_playable c : playable may Files.example_world reuse_moves c.
Proof. unfold reuse_moves. cbn [playable spawn]. split_and!; [by apply Files.may_write|apply Files.may_allocate|exact I]. Qed.

(** C39: an address may be given to two instances: a network that is created
    under the name of one that is being deleted loses the allocations it made
    in the meantime. *)
Theorem recreated_network_gives_an_address_twice :
  ∃ c c', Files.reaches Files.example_generated "/var/lib/dicer" "x86_64" "" [] Files.empty_world c ∧
    rtc (step may Files.crash) c c' ∧
    instances c' = ["one"; "two"] ∧ address c "i1" = Some "10.1.0.2" ∧ address c' "i2" = Some "10.1.0.2".
Proof.
  destruct recreate_outcome as (c & c' & E & E' & Hgood). exists c, c'. split; [|split; [|exact Hgood]].
  - exact (play_steps may Files.crash Files.example_world recreate_moves _ _ recreate_playable E).
  - exact (play_steps may Files.crash Files.example_world reuse_moves _ _ (reuse_playable c) E').
Qed.
End Networks.
