(* ===== verification/Auth.v ===== *)
(** * Who may call what

    The token manager ([internal/token/manager.go]), and what stands between a
    call over TCP and its handler ([internal/grpcserver]): the authentication
    of its token, its authorization by the token's scopes, and what the token
    handlers themselves check. Calls are served at the same time, so each is a
    program of [Conc] over the store, whose operations are its atomic steps. *)

From S2P Require Import Prelude Paths Errdefs Naming Token Sha256 FileStore Conc.

(** ** What is asked of the world *)
Module Auth.

(** How much randomness a secret that is made up holds. *)
Definition secretBytes : nat := 32.

(** The outcome of writing or removing a token's file; the time; the random
    bytes of a secret; a new ID. *)
Inductive query := QWrite | QNow | QRandom | QNewID.

Definition answer (q : query) : Type :=
  match q with
  | QWrite => option error
  | QNow => Z
  | QRandom => vec Byte.byte secretBytes
  | QNewID => string
  end.

Abbreviation M := (prog (S:=Store.Store) (answer:=answer) (lock:=unit)).

End Auth.

Module Serve.
Import Auth.
Open Scope prog_scope.

(** ** Secrets ([token.go]) *)

(** [NewSecret], of the bytes that [rand.Read] fills in. *)
Definition NewSecret (random : vec Byte.byte secretBytes) : string :=
  Sha256.base32_encode ((λ b, Z.of_N (Byte.to_N b)) <$> vec_to_list random).

Definition SecretSHA256 (secret : string) : string := Sha256.hex_encode (Sha256.Sum256 (Sha256.bytes_of secret)).

(** [Fingerprint], of a certificate's [RawSubjectPublicKeyInfo]. *)
Definition Fingerprint (key : list Z) : string := Sha256.hex_encode (Sha256.Sum256 key).

(** ** The token manager ([manager.go]) *)

Definition newSecret (given : string) : M (result string) :=
  if bool_decide (given = "") then random ← ask QRandom; mret (Ok (NewSecret random))
  else
    mret (wrap_err (λ _, InvalidArgument "%v") (Token.ValidateSecret given)) ?;
    found ← gets (λ s, Store.TokenBySecretSHA256 s (SecretSHA256 given));
    mret (match found with
          | Ok _ => Err (Exists "another token has that secret")
          | Err e => if Is e ErrNotFound then Ok given else Err e
          end).

(** [CreateToken] of the store, and its like. *)
Definition createToken (t : Token.Token) : M (result unit) :=
  e ← ask QWrite; atomically (λ s, Store.CreateToken e s t).

Definition updateToken (t : Token.Token) : M (result unit) :=
  e ← ask QWrite; atomically (λ s, Store.UpdateToken e s t).

Definition Create (name secret : string) (scopes : list Token.Scope) : M (result (Token.Token * string)) :=
  secret ←? newSecret secret;
  now ← ask QNow;
  newID ← ask QNewID;
  let t := Token.mkToken newID name (SecretSHA256 secret) scopes now now 0 in
  mret (Token.Validate t) ?;
  createToken t ?;
  mret (Ok (t, secret)).

(** A token with another secret. *)
Definition withSecret (t : Token.Token) (secretSHA256 : string) (now : Z) : Token.Token :=
  Token.mkToken (Token.ID t) (Token.Name t) secretSHA256 (Token.Scopes t) (Token.CreatedAt t) now (Token.LastUsedAt t).

Definition Rotate (nameOrID secret : string) : M (result (Token.Token * string)) :=
  t ←? gets (λ s, Store.Token s nameOrID);
  secret ←? newSecret secret;
  now ← ask QNow;
  let t := withSecret t (SecretSHA256 secret) now in
  updateToken t ?;
  mret (Ok (t, secret)).

Definition TokenBySecret (secret : string) : M (result Token.Token) :=
  gets (λ s, Store.TokenBySecretSHA256 s (SecretSHA256 secret)).

Definition RecordUse (nameOrID : string) (at_ : Z) : M (result unit) :=
  e ← ask QWrite; atomically (λ s, Store.RecordTokenUse e s nameOrID at_).

Definition Delete (nameOrID : string) : M (result unit) :=
  e ← ask QWrite; atomically (λ s, Store.DeleteToken e s nameOrID).

(** ** Authentication ([authentication.go]) *)

Definition lastUseResolution : Z := 60 * second.

(** [presentedToken], of the values of the authorization header. *)
Definition presentedToken (values : list string) : M (result Token.Token) :=
  match values with
  | [] => mret (Err (Unauthenticated "no authorization header"))
  | header :: _ =>
      match Str.cut_prefix "Bearer " header with
      | None => mret (Err (Unauthenticated "authorization header is not Bearer"))
      | Some value =>
          ' (secret, _) ←? mret (wrap_err (λ _, Unauthenticated "%v") (Token.Parse value));
          found ← TokenBySecret secret;
          mret (wrap_err (λ e, if Is e ErrNotFound then Unauthenticated "unknown token" else e) found)
      end
  end.

(** [recordUse]: [Truncate] rounds down to a multiple since the zero time. *)
Definition recordUse (t : Token.Token) : M unit :=
  now ← ask QNow;
  if (time_sub now (Token.LastUsedAt t) <? lastUseResolution)%Z then mret tt
  else RecordUse (Token.ID t) (now - now `mod` lastUseResolution)%Z ≫= λ _, mret tt.

(** [authenticate]. The status the error becomes is that of its class. *)
Definition authenticate (values : list string) : M (result Token.Token) :=
  found ← presentedToken values;
  match found with
  | Err e => mret (Err (if Is e ErrUnauthenticated then Unauthenticated "unauthenticated" else e))
  | Ok t => recordUse t ≫= λ _, mret (Ok t)
  end.

(** ** Authorization ([authorization.go]) *)

Definition methodScopes : list (string * Token.Scope) :=
  [ ("CreateInstance", "instances:write"); ("UpdateInstance", "instances:write"); ("RenameInstance", "instances:write");
    ("StartInstance", "instances:write"); ("StopInstance", "instances:write"); ("PauseInstance", "instances:write");
    ("ResumeInstance", "instances:write"); ("StandbyInstance", "instances:write"); ("ForkInstance", "instances:write");
    ("ResizeInstance", "instances:write"); ("DeleteInstance", "instances:write"); ("ListInstances", "instances:read");
    ("GetInstance", "instances:read"); ("WaitInstance", "instances:read"); ("GetInstanceLogs", "instances:read");
    ("GetInstanceStats", "instances:read"); ("ListInstanceProcesses", "instances:read");
    ("ExecInstance", "instances:write"); ("CopyToInstance", "instances:write"); ("CopyFromInstance", "instances:write");
    ("CreateSnapshot", "snapshots:write"); ("ListSnapshots", "snapshots:read"); ("GetSnapshot", "snapshots:read");
    ("DeleteSnapshot", "snapshots:write"); ("RestoreSnapshot", "instances:write"); ("ForkSnapshot", "instances:write");
    ("CreateNetwork", "networks:write"); ("ListNetworks", "networks:read"); ("GetNetwork", "networks:read");
    ("DeleteNetwork", "networks:write"); ("ListNetworkAllocations", "networks:read"); ("CreateVolume", "volumes:write");
    ("ListVolumes", "volumes:read"); ("GetVolume", "volumes:read"); ("DeleteVolume", "volumes:write");
    ("PullImage", "images:write"); ("ListImages", "images:read"); ("GetImage", "images:read");
    ("DeleteImage", "images:write"); ("PruneImages", "images:write"); ("ImportKernel", "kernels:write");
    ("ListKernels", "kernels:read"); ("GetKernel", "kernels:read"); ("DeleteKernel", "kernels:write");
    ("CreateToken", "tokens:write"); ("ListTokens", "tokens:read"); ("GetToken", "tokens:read");
    ("RotateToken", "tokens:write"); ("DeleteToken", "tokens:write"); ("GetHostInfo", ""); ("CheckHost", "");
    ("GetResources", "instances:read"); ("GetEvents", "events:read") ].

(** The scope of a method, if it is known. *)
Definition scopeOf (method : string) : option Token.Scope :=
  snd <$> List.find (λ p, bool_decide (p.1 = method)) methodScopes.

Definition authorize (t : option Token.Token) (fullMethod : string) : result unit :=
  match t, scopeOf (Path.Base fullMethod) with
  | None, _ => Err (PermissionDenied "%s needs a token")
  | _, None => Err (PermissionDenied "%s is not open to tokens")
  | Some t, Some scope =>
      refuse_if (negb (bool_decide (scope = "")) && negb (Token.Allows t scope)) (PermissionDenied "token %q lacks scope %s")
  end.

(** A call over TCP: its token is authenticated, then its method authorized,
    and then it is handled. *)
Definition serve {A} (values : list string) (fullMethod : string) (handler : option Token.Token → M (result A))
  : M (result A) :=
  t ←? authenticate values;
  mret (authorize (Some t) fullMethod) ?;
  handler (Some t).

(** ** The token handlers ([token_handler.go]) *)

Section Handlers.

(** Whether the daemon serves TCP, and the fingerprint its tokens carry. *)
Context (servesTCP : bool) (fingerprint : string).

Definition checkServesTCP : result unit :=
  if servesTCP then Ok tt
  else Err (InvalidState "tokens are for the daemon's TCP listener, which is off: set server.listen in the daemon's configuration and restart it").

Definition checkCallerAllows (caller : option Token.Token) (scopes : list Token.Scope) : result unit :=
  match caller with
  | Some caller => refuse_if (negb (Token.AllowsAll caller scopes)) (PermissionDenied "token %q lacks some of the scopes of token %q")
  | None => Ok tt
  end.

(** What is returned of a token that is made or rotated: the token, and its
    value. *)
Definition issued (r : Token.Token * string) : Token.Token * string := (r.1, Token.Format r.2 fingerprint).

Definition CreateToken (name secret : string) (scopes : list Token.Scope) (caller : option Token.Token)
  : M (result (Token.Token * string)) :=
  mret checkServesTCP ?;
  let scopes := if bool_decide (scopes = []) then [Token.ScopeAll] else scopes in
  mret (checkCallerAllows caller scopes) ?;
  made ←? Create name secret scopes;
  mret (Ok (issued made)).

Definition RotateToken (name secret : string) (caller : option Token.Token) : M (result (Token.Token * string)) :=
  mret checkServesTCP ?;
  t ←? gets (λ s, Store.Token s name);
  mret (checkCallerAllows caller (Token.Scopes t)) ?;
  rotated ←? Rotate (Token.ID t) secret;
  mret (Ok (issued rotated)).

Definition DeleteToken (name : string) (caller : option Token.Token) : M (result unit) :=
  t ←? gets (λ s, Store.Token s name);
  mret (checkCallerAllows caller (Token.Scopes t)) ?;
  Delete (Token.ID t).

End Handlers.

(** ** No call gives more than its caller has *)

Section Escalation.

(** The tokens there were. *)
Context (s0 : Store.Store).

(** A token that can do no more than one of them. *)
Definition dominated (t : Token.Token) : Prop :=
  ∃ n t0, Kind.byName (Store.tokens s0) !! n = Some t0 ∧ ∀ scope, Token.Allows t scope = true → Token.Allows t0 scope = true.

(** Every token in memory or on disk is. *)
Definition I (s : Store.Store) : Prop :=
  (∀ n t, Kind.byName (Store.tokens s) !! n = Some t → dominated t) ∧
  (∀ n t, Kind.placed (Kind.files (Store.tokens s)) n t → dominated t).

(** The programs need nothing else of each other, and take no locks. *)
Definition anything (L : gset unit) (s s' : Store.Store) : Prop := True.

#[local] Instance no_interference : RelyGuarantee I anything anything.
Proof. by split. Qed.

Abbreviation wpt := (wp I anything anything (λ _, 0)).

(** A program that keeps the invariant, and whose results are as [P] says. *)
Definition yields {A} (p : M A) (P : A → Prop) : Prop := ∀ s, wpt p ∅ s (λ a L _, L = ∅ ∧ P a).

Lemma yields_ret {A} (a : A) (P : A → Prop) : P a → yields (mret a) P.
Proof. by intros HP s s' _ _. Qed.

Lemma yields_bind {A B} (p : M A) (g : A → M B) P Q : yields p P → (∀ a, P a → yields (g a) Q) → yields (p ≫= g) Q.
Proof.
  intros Hp Hg s. apply wp_bind; [apply _|]. eapply wp_mono; [|apply Hp]. intros a L s' _ [-> Ha]. by apply Hg.
Qed.

Lemma yields_ebind {A B} (p : M (result A)) (g : A → M (result B)) P Q :
  yields p (λ r, match r with Ok a => P a | Err _ => True end) → (∀ a, P a → yields (g a) Q) → (∀ e, Q (Err e)) →
  yields (ebind p g) Q.
Proof. intros Hp Hg He. eapply yields_bind; [exact Hp|]. intros [a|e] Ha; [by apply Hg|by apply yields_ret]. Qed.

Lemma yields_ask q (P : answer q → Prop) : (∀ a, P a) → yields (ask q) P.
Proof. intros HP s a s' _ _ s2 _ _. split; auto. Qed.

Lemma yields_gets {B} (f : Store.Store → B) (P : B → Prop) : (∀ s, I s → P (f s)) → yields (gets f) P.
Proof. intros HP s s' _ HI. split_and!; [done|done|]. intros s2 _ _. split; [done|]. by apply HP. Qed.

Lemma yields_step {B} (f : Store.Store → B * Store.Store) : (∀ s, I s → I (f s).2) → yields (atomically f) (λ _, True).
Proof. intros HP s s' _ HI. split_and!; [done|by apply HP|]. by intros s2 _ _. Qed.

Lemma yields_mono {A} (p : M A) (P Q : A → Prop) : (∀ a, P a → Q a) → yields p P → yields p Q.
Proof. intros HPQ Hp s. eapply wp_mono; [|apply Hp]. intros a L s' _ [-> H]. split; auto. Qed.

(** *** The store's operations *)

Lemma dominated_scopes t t' : Token.Scopes t' = Token.Scopes t → dominated t → dominated t'.
Proof.
  intros E (n & t0 & Hn & Ht). exists n, t0. split; [done|]. intros scope Hs. apply Ht. unfold Token.Allows in *. by rewrite <-E.
Qed.

(** A token without scopes can do nothing, so one that there was suffices. *)
Lemma dominated_nothing t c : dominated c → Token.Scopes t = [] → dominated t.
Proof.
  intros (n & t0 & Hn & _) E. exists n, t0. split; [done|]. intros scope. unfold Token.Allows. rewrite E.
  rewrite !bool_decide_false by set_solver. destruct (Str.cut_suffix ":read" scope); [|done].
  rewrite bool_decide_false by set_solver. done.
Qed.

Lemma dominated_by_caller c t : dominated c → Token.AllowsAll c (Token.Scopes t) = true → dominated t.
Proof.
  intros (n & t0 & Hn & Hc) Ha. exists n, t0. split; [done|]. intros scope Hs. apply Hc. by eapply Token.AllowsAll_dominates.
Qed.

Lemma find_dominated s x t c : I s → dominated c → Store.Token s x = Ok t → dominated t.
Proof.
  intros [HI _] Hc. unfold Store.Token, Kind.find. destruct (Kind.byName (Store.tokens s) !! x) as [v|] eqn:Ex.
  { intros [= <-]. by eapply HI. }
  destruct (Kind.namesByID (Store.tokens s) !! x) as [n|]; [|done]. intros [= <-].
  destruct (Kind.byName (Store.tokens s) !! n) as [v|] eqn:En; [by eapply HI|]. by eapply dominated_nothing.
Qed.

Lemma I_put s t : I s → dominated t → I (Store.set_tokens s (Kind.put (Kind.write (Store.tokens s) t) t)).
Proof.
  intros [H1 H2] Ht. split; simpl; intros n t'; [rewrite lookup_insert_Some; naive_solver|].
  intros [Hr Hn]. rewrite Store.read_insert in Hr. case_decide; [rewrite Kind.read_write in Hr; congruence|by apply (H2 n)].
Qed.

Lemma I_create e s t : I s → dominated t → I (Store.CreateToken e s t).2.
Proof.
  intros HI Ht. unfold Store.CreateToken. destruct (Kind.create _ _ _ _ _ _) as [r k] eqn:E.
  apply Store.create_cases in E as [[-> _]|(-> & _)]; [|by apply I_put]. by destruct s.
Qed.

Lemma I_update e s t : I s → dominated t → I (Store.UpdateToken e s t).2.
Proof.
  intros HI Ht. unfold Store.UpdateToken. destruct (Kind.update _ _ _ _ _) as [r k] eqn:E.
  apply Store.update_cases in E as [[-> _]|(-> & _)]; [|by apply I_put]. by destruct s.
Qed.

Lemma I_record e s x at_ c : I s → dominated c → I (Store.RecordTokenUse e s x at_).2.
Proof.
  intros HI Hc. unfold Store.RecordTokenUse. destruct (Store.Token s x) as [t|] eqn:Et; [|done]. destruct e; [done|].
  apply I_put; [done|]. eapply dominated_scopes; [|by eapply find_dominated]. done.
Qed.

Lemma I_delete e s x : I s → I (Store.DeleteToken e s x).2.
Proof.
  intros [H1 H2]. unfold Store.DeleteToken, Kind.remove. destruct (_ ≫= _) as [v|] eqn:E; [|by destruct s].
  destruct e; [by destruct s|]. split; simpl; intros n t; [rewrite lookup_delete_Some; naive_solver|].
  intros [Hr Hn]. rewrite Store.read_delete in Hr. case_decide; [done|by apply (H2 n)].
Qed.

(** *** The calls *)

Lemma yields_newSecret given : yields (newSecret given) (λ _, True).
Proof.
  unfold newSecret. destruct (bool_decide (given = "")).
  - eapply yields_bind; [by apply (yields_ask QRandom (λ _, True))|]. intros random _. by apply yields_ret.
  - eapply (yields_ebind _ _ (λ _, True)); [apply yields_ret; by destruct (wrap_err _ _)|intros _ _|done].
    eapply yields_bind; [by apply (yields_gets _ (λ _, True))|]. intros found _. by apply yields_ret.
Qed.

Lemma yields_write (f : option error → Store.Store → result unit * Store.Store) :
  (∀ e s, I s → I (f e s).2) → yields (e ← ask QWrite; atomically (f e)) (λ _, True).
Proof. intros Hf. eapply yields_bind; [by apply (yields_ask QWrite (λ _, True))|]. intros e _. apply yields_step, Hf. Qed.

Lemma yields_lookup x c :
  dominated c → yields (gets (λ s, Store.Token s x)) (λ r, match r with Ok t => dominated t | Err _ => True end).
Proof.
  intros Hc. apply yields_gets. intros s HI. destruct (Store.Token s x) as [t|] eqn:E; [|done]. by eapply find_dominated.
Qed.

Lemma yields_authenticate values :
  yields (authenticate values) (λ r, match r with Ok t => dominated t | Err _ => True end).
Proof.
  assert (yields (presentedToken values) (λ r, match r with Ok t => dominated t | Err _ => True end)) as Hp.
  { unfold presentedToken. destruct values as [|h values]; [by apply yields_ret|].
    destruct (Str.cut_prefix "Bearer " h) as [v|]; [|by apply yields_ret].
    eapply (yields_ebind _ _ (λ _, True)); [apply yields_ret; by destruct (wrap_err _ _)|intros [secret fp] _|done].
    eapply yields_bind.
    { apply (yields_gets _ (λ r, match r with Ok t => dominated t | Err _ => True end)). intros s [HI _].
      unfold Store.TokenBySecretSHA256. destruct (List.find _ _) as [t|] eqn:E; [|done].
      apply find_some in E as [Hin _]. apply list_elem_of_In, list_elem_of_fmap in Hin as ([n t'] & -> & Hin).
      apply elem_of_map_to_list in Hin. by eapply HI. }
    intros [t|e] Ht; by apply yields_ret. }
  eapply yields_bind; [exact Hp|]. intros [t|e] Ht; [|by apply yields_ret].
  eapply (yields_bind _ _ (λ _, True)); [|intros _ _; by apply yields_ret]. unfold recordUse.
  eapply yields_bind; [by apply (yields_ask QNow (λ _, True))|]. intros now _.
  destruct (_ <? _)%Z; [by apply yields_ret|]. eapply (yields_bind _ _ (λ _, True)); [|intros _ _; by apply yields_ret].
  apply (yields_write (λ e s, Store.RecordTokenUse e s _ _)). intros e s HI. by eapply I_record.
Qed.

Lemma yields_checkCaller c t : dominated c →
  yields (mret (checkCallerAllows (Some c) (Token.Scopes t))) (λ r, match r with Ok _ => dominated t | Err _ => True end).
Proof.
  intros Hc. apply yields_ret. simpl. destruct (Token.AllowsAll c (Token.Scopes t)) eqn:E; [|done].
  by eapply dominated_by_caller.
Qed.

Lemma yields_CreateToken tcp fp name secret scopes c : dominated c → yields (CreateToken tcp fp name secret scopes (Some c)) (λ _, True).
Proof.
  intros Hc. unfold CreateToken. set (all := if bool_decide _ then _ else _).
  eapply (yields_ebind _ _ (λ _, True)); [apply yields_ret; by destruct (checkServesTCP _)|intros _ _|done].
  eapply (yields_ebind _ _ (λ _, ∀ t, Token.Scopes t = all → dominated t)); [|intros _ Hall|done].
  { apply yields_ret. simpl. destruct (Token.AllowsAll c all) eqn:E; [|done]. intros t Ht. eapply dominated_by_caller; [done|]. by rewrite Ht. }
  eapply (yields_ebind _ _ (λ _, True)); [|intros m _; by apply yields_ret|done]. unfold Create.
  eapply (yields_ebind _ _ (λ _, True)); [eapply yields_mono; [|apply yields_newSecret]; by intros []|intros sec _|by intros].
  eapply yields_bind; [by apply (yields_ask QNow (λ _, True))|]. intros now _.
  eapply yields_bind; [by apply (yields_ask QNewID (λ _, True))|]. intros newID _.
  eapply (yields_ebind _ _ (λ _, True)); [apply yields_ret; by destruct (Token.Validate _)|intros _ _|by intros].
  eapply (yields_ebind _ _ (λ _, True)); [|intros _ _; by apply yields_ret|by intros].
  eapply yields_mono; [|apply (yields_write (λ e s, Store.CreateToken e s _))]; [by intros []|].
  intros e s HI. apply I_create; [done|]. by apply Hall.
Qed.

Lemma yields_RotateToken tcp fp name secret c : dominated c → yields (RotateToken tcp fp name secret (Some c)) (λ _, True).
Proof.
  intros Hc. unfold RotateToken.
  eapply (yields_ebind _ _ (λ _, True)); [apply yields_ret; by destruct (checkServesTCP _)|intros _ _|done].
  eapply yields_ebind; [by eapply yields_lookup|intros t Ht|done].
  eapply yields_ebind; [by apply (yields_checkCaller c t)|intros _ _|done].
  eapply (yields_ebind _ _ (λ _, True)); [|intros m _; by apply yields_ret|done]. unfold Rotate.
  eapply yields_ebind; [by eapply yields_lookup|intros t' Ht'|by intros].
  eapply (yields_ebind _ _ (λ _, True)); [eapply yields_mono; [|apply yields_newSecret]; by intros []|intros sec _|by intros].
  eapply yields_bind; [by apply (yields_ask QNow (λ _, True))|]. intros now _.
  eapply (yields_ebind _ _ (λ _, True)); [|intros _ _; by apply yields_ret|by intros].
  eapply yields_mono; [|apply (yields_write (λ e s, Store.UpdateToken e s _))]; [by intros []|].
  intros e s HI. apply I_update; [done|]. by eapply dominated_scopes.
Qed.

Lemma yields_DeleteToken name c : dominated c → yields (DeleteToken name (Some c)) (λ _, True).
Proof.
  intros Hc. unfold DeleteToken. eapply yields_ebind; [by eapply yields_lookup|intros t Ht|done].
  eapply yields_ebind; [by apply (yields_checkCaller c t)|intros _ _|done].
  apply (yields_write (λ e s, Store.DeleteToken e s _)). intros e s HI. by apply I_delete.
Qed.

Lemma yields_serve {A} values m (handler : option Token.Token → M (result A)) :
  (∀ c, dominated c → yields (handler (Some c)) (λ _, True)) → yields (serve values m handler) (λ _, True).
Proof.
  intros Hh. eapply yields_ebind; [apply yields_authenticate|intros c Hc|done].
  eapply (yields_ebind _ _ (λ _, True)); [apply yields_ret; by destruct (authorize _ _)|intros _ _; by apply Hh|done].
Qed.

End Escalation.

(** The calls a client may make over TCP, with whatever header, and whatever it
    asks for. A call of another handler leaves the tokens as they are. *)
Inductive remote_call (tcp : bool) (fp : string) : M unit → Prop :=
  | call_create values m name secret scopes :
      remote_call tcp fp (ignoring (serve values m (CreateToken tcp fp name secret scopes)))
  | call_rotate values m name secret : remote_call tcp fp (ignoring (serve values m (RotateToken tcp fp name secret)))
  | call_delete values m name : remote_call tcp fp (ignoring (serve values m (DeleteToken name)))
  | call_other values m (f : Store.Store → Store.Store) :
      (∀ s, Store.tokens (f s) = Store.tokens s) →
      remote_call tcp fp (ignoring (serve values m (λ _, modify f ≫= λ _, mret (Ok tt)))).

(** The daemon dies, and loads the tokens from their files when it starts. *)
Definition restarts (s s' : Store.Store) : Prop := s' = Store.New s.

Lemma remote_call_ok tcp fp s0 p s L :
  remote_call tcp fp p → L = ∅ → wp (I s0) anything anything (λ _, 0) p L s (λ _ L' _, finished_well (λ _, 0) L').
Proof.
  intros Hp ->. enough (yields s0 p (λ _, True)) as Hy by (eapply wp_mono; [|apply Hy]; by intros a L' s' _ [-> _]).
  destruct Hp as [values m name secret scopes|values m name secret|values m name|values m f Hf].
  - eapply yields_bind; [apply yields_serve; intros; by apply yields_CreateToken|by intros; apply yields_ret].
  - eapply yields_bind; [apply yields_serve; intros; by apply yields_RotateToken|by intros; apply yields_ret].
  - eapply yields_bind; [apply yields_serve; intros; by apply yields_DeleteToken|by intros; apply yields_ret].
  - eapply yields_bind; [apply yields_serve; intros c Hc|by intros; apply yields_ret].
    eapply yields_bind; [apply yields_step|by intros; apply yields_ret]. intros s1 [H1 H2]. unfold I. simpl. by rewrite Hf.
Qed.

Lemma restarts_ok s0 s s' : I s0 s → restarts s s' → I s0 s'.
Proof.
  intros [H1 H2] ->. unfold I, Store.New, Store.loadTokens. simpl. rewrite Kind.load_files. split; [|done].
  intros n t Ht%Kind.load_byName. by eapply H2.
Qed.

(** C8: no privilege is gained over TCP. Whatever calls clients make, with
    whatever tokens, however the calls interleave, whichever writes fail and
    whenever the daemon restarts: what a token allows, one token that was there
    in the beginning allows. *)
Theorem no_privilege_is_gained tcp fp s0 c n t :
  Kind.synced (Store.tokens s0) →
  rtc (step (λ _ p L, remote_call tcp fp p ∧ L = ∅) restarts) (mkConfig s0 []) c →
  Kind.byName (Store.tokens (state c)) !! n = Some t →
  ∃ n0 t0, Kind.byName (Store.tokens s0) !! n0 = Some t0 ∧ ∀ scope, Token.Allows t scope = true → Token.Allows t0 scope = true.
Proof.
  intros Hsync Hc Ht. assert (I s0 s0) as HI.
  { split; intros m u Hu; exists m, u; (split; [|done]); [done|by apply Hsync]. }
  assert (config_ok (I s0) anything anything (λ _, 0) c) as [[Hmem _] _]; [|by eapply Hmem].
  eapply reachable_config_ok; [apply no_interference| |apply restarts_ok| |exact Hc].
  - intros s p L _ [Hp HL]. by eapply remote_call_ok.
  - split_and!; [done|intros i j u v; simpl; by rewrite lookup_nil|intros u Hu; by apply elem_of_nil in Hu].
Qed.

(** ** What a call must carry *)

(** The token that a header presents: it has the hash of the header's secret. *)
Definition presents (s : Store.Store) (values : list string) (t : Token.Token) : Prop :=
  ∃ value secret fp,
    head values = Some ("Bearer " +:+ value) ∧ Token.Parse value = Ok (secret, fp) ∧
    Token.SecretSHA256 t = SecretSHA256 secret ∧ ∃ n, Kind.byName (Store.tokens s) !! n = Some t.

(** What authentication may change: when one token was last used. *)
Definition only_used (s s' : Store.Store) : Prop :=
  s' = s ∨ ∃ x t at_, Store.Token s x = Ok t ∧ s' = (Store.RecordTokenUse None s x at_).2.

(** The methods a token needs [scope], and no more, for. *)
Definition opens (t : Token.Token) (fullMethod : string) : Prop :=
  ∃ scope, scopeOf (Path.Base fullMethod) = Some scope ∧ (scope = "" ∨ Token.Allows t scope = true).

Lemma authorize_Some t m : authorize (Some t) m = Ok tt ↔ opens t m.
Proof.
  unfold authorize, opens. destruct (scopeOf (Path.Base m)) as [scope|]; [|split; [done|by intros (? & ? & _)]].
  unfold refuse_if. destruct (decide (scope = "")) as [->|Hs]; [rewrite bool_decide_true by done|rewrite bool_decide_false by done];
    simpl; [split; [by exists ""; auto|done]|]. destruct (Token.Allows t scope) eqn:E; simpl; split.
  - intros _. exists scope. auto.
  - done.
  - done.
  - intros (scope' & [= <-] & [?|?]); congruence.
Qed.

Lemma TokenBySecretSHA256_spec s sha :
  match Store.TokenBySecretSHA256 s sha with
  | Ok t => Token.SecretSHA256 t = sha ∧ ∃ n, Kind.byName (Store.tokens s) !! n = Some t
  | Err e => Is e ErrNotFound = true ∧ ∀ n t, Kind.byName (Store.tokens s) !! n = Some t → Token.SecretSHA256 t ≠ sha
  end.
Proof.
  unfold Store.TokenBySecretSHA256. destruct (List.find _ _) as [t|] eqn:E.
  - apply find_some in E as [Hin Hsha]. apply list_elem_of_In, list_elem_of_fmap in Hin as ([n t'] & -> & Hin).
    apply elem_of_map_to_list in Hin. apply bool_decide_eq_true in Hsha. eauto.
  - split; [done|]. intros n t Ht Hsha. apply (find_none _ _) with (x:=t) in E; [by rewrite bool_decide_true in E|].
    apply list_elem_of_In, list_elem_of_fmap. exists (n, t). split; [done|]. by apply elem_of_map_to_list.
Qed.

Lemma run_authenticate values L s Q :
  (∀ t s', presents s values t → only_used s s' → Q (Ok t) L s') →
  (∀ e, Is e ErrUnauthenticated = true → (∀ t, ¬ presents s values t) → Q (Err e) L s) →
  run (authenticate values) L s Q.
Proof.
  intros Hok Herr. apply run_bind. unfold presentedToken. destruct values as [|h values].
  { apply Herr; [done|]. by intros t (? & ? & ? & ? & _). }
  destruct (Str.cut_prefix "Bearer " h) as [v|] eqn:Ev; cycle 1.
  { apply Herr; [done|]. intros t (v & ? & ? & [= ->] & _). by rewrite Str.cut_prefix_app in Ev. }
  apply Str.cut_prefix_Some in Ev as ->. apply run_bind. cbn [run].
  assert (∀ t v', presents s (("Bearer " +:+ v) :: values) t → head (("Bearer " +:+ v) :: values) = Some ("Bearer " +:+ v') → v' = v) as Hv.
  { intros t v' _ Hh. cbn in Hh. by simplify_eq. }
  destruct (Token.Parse v) as [[secret fp]|e] eqn:Ep; cbn [wrap_err]; cycle 1.
  { apply Herr; [done|]. intros t Ht. pose proof Ht as (v' & ? & ? & Hh & Hp & _). rewrite (Hv _ _ Ht Hh) in Hp. congruence. }
  apply run_bind. cbn [run gets atomically fst snd]. pose proof (TokenBySecretSHA256_spec s (SecretSHA256 secret)) as Hr.
  unfold TokenBySecret.  cbn. destruct (Store.TokenBySecretSHA256 _ _) as [t|e]; cbn; cycle 1.
  { destruct Hr as [-> Hr]. apply Herr; [done|]. intros t Ht. pose proof Ht as (v' & ? & ? & Hh & Hp & Hsha & n & Hn).
    rewrite (Hv _ _ Ht Hh) in Hp. rewrite Ep in Hp. injection Hp as <- <-. by eapply Hr. }
  assert (presents s (("Bearer " +:+ v) :: values) t) as Ht by (exists v, secret, fp; naive_solver).
  intros now. destruct (_ <? _)%Z; [by apply Hok; [|left]|]. cbn. intros e. apply Hok; [done|].
  unfold Store.RecordTokenUse at 1. destruct (Store.Token s (Token.ID t)) as [u|] eqn:Eu; [|by left].
  destruct e; [by left|]. right. exists (Token.ID t), u. eexists. split; [done|]. unfold Store.RecordTokenUse. by rewrite Eu.
Qed.


(** The methods that change nothing: [CheckHost] boots a test instance, but
    its handler does so only for a token with [instances:write]. *)
Definition reading_methods : list string :=
  [ "ListInstances"; "GetInstance"; "WaitInstance"; "GetInstanceLogs"; "GetInstanceStats"; "ListInstanceProcesses";
    "ListSnapshots"; "GetSnapshot"; "ListNetworks"; "GetNetwork"; "ListNetworkAllocations"; "ListVolumes"; "GetVolume";
    "ListImages"; "GetImage"; "ListKernels"; "GetKernel"; "ListTokens"; "GetToken"; "GetHostInfo"; "CheckHost";
    "GetResources"; "GetEvents" ].

(** A token whose scopes all are for reading makes no call but one that
    reads: none that makes, changes or deletes anything, or that goes into a
    guest. *)
Theorem reading_scopes_only_read t m :
  (∀ scope, scope ∈ Token.Scopes t → ∃ resource, scope = resource +:+ ":read") →
  authorize (Some t) m = Ok tt → Path.Base m ∈ reading_methods.
Proof.
  intros Hread (scope & Hs & Ha)%authorize_Some.
  assert (∀ p, p ∈ methodScopes → p.1 ∈ reading_methods ∨ p.2 ≠ "" ∧ Str.cut_suffix ":read" p.2 = None) as Htable
    by (apply Forall_forall, (bool_decide_unpack _); vm_compute; exact Logic.I).
  unfold scopeOf in Hs. apply fmap_Some in Hs as ([m' scope'] & [Hin%list_elem_of_In Hm]%find_some & ->).
  apply bool_decide_eq_true in Hm as <-. destruct (Htable _ Hin) as [Hm|[Hne Hw]]; [exact Hm|simpl in *]. exfalso.
  destruct Ha as [|Ha]; [done|]. unfold Token.Allows in Ha. rewrite Hw in Ha.
  destruct (bool_decide (Token.ScopeAll ∈ _)) eqn:E; simpl_bools.
  - destruct (Hread _ E) as [r Hr]. assert (Str.cut_suffix ":read" Token.ScopeAll = Some r) as Hc; [|done].
    by rewrite Hr, Str.cut_suffix_app.
  - destruct (bool_decide (scope' ∈ _)) eqn:E'; [|done]. simpl_bools. destruct (Hread _ E') as [r ->].
    by rewrite Str.cut_suffix_app in Hw.
Qed.

(** ** What is issued works *)

Lemma NewSecret_valid random : Token.ValidateSecret (NewSecret random) = Ok tt.
Proof.
  apply Token.ValidateSecret_Ok. unfold NewSecret, Sha256.base32_encode, Str.len. rewrite Str.to_of_list.
  split; [|apply Sha256.base32_groups_alnum]. set (m := _ <$> _).
  assert (length m = 32) as Hm by (unfold m; by rewrite length_fmap, length_vec_to_list).
  pose proof (Sha256.base32_groups_length (length (Sha256.bits m)) (Sha256.bits m)) as Hl.
  rewrite Sha256.length_bits, Hm in Hl. unfold Token.MinSecretLength. rewrite Sha256.length_bits, Hm. lia.
Qed.

Lemma Fingerprint_valid key : Token.isFingerprint (Fingerprint key) = true.
Proof.
  unfold Fingerprint. destruct (Sha256.hex_encode_digits (Sha256.Sum256 key)) as [Hl Hf]. rewrite Sha256.Sum256_length in Hl.
  set (s := Sha256.hex_encode _) in *. clearbody s.
  assert (Forall (λ c, Token.isHexDigit c = true ∧ Str.lower_byte c = c) Sha256.hex_digits) as Hd
    by (apply (bool_decide_unpack _); vm_compute; exact Logic.I). rewrite Forall_forall in Hd, Hf.
  unfold Token.isFingerprint, Token.isSHA256Hex, Str.len. rewrite Hl. apply andb_true_iff. split; [apply andb_true_iff; split; [|done]|].
  - apply forallb_forall. intros c Hc%list_elem_of_In. by apply Hd, Hf.
  - apply bool_decide_eq_true, Str.to_list_inj. unfold Str.to_lower. rewrite Str.to_of_list.
    rewrite <-(list_fmap_id (Str.to_list s)) at 1. apply list_fmap_ext. intros i c Hc%list_elem_of_lookup_2. symmetry. by apply Hd, Hf.
Qed.

(** A token's value: that of a fingerprint, if the daemon has a certificate. *)
Definition fingerprint_of (key : option (list Z)) : string := if key is Some key then Fingerprint key else "".

Lemma issued_presents key s t secret :
  Token.ValidateSecret secret = Ok tt → Token.SecretSHA256 t = SecretSHA256 secret →
  presents (Store.set_tokens s (Kind.put (Kind.write (Store.tokens s) t) t))
    ["Bearer " +:+ Token.Format secret (fingerprint_of key)] t.
Proof.
  intros Hs Ht. exists (Token.Format secret (fingerprint_of key)), secret, (fingerprint_of key). split_and!; [done| |done|].
  - apply Token.Parse_Format; [done|]. destruct key; [right; apply Fingerprint_valid|by left].
  - exists (Token.Name t). apply lookup_insert_eq.
Qed.

Lemma run_newSecret given L s Q :
  (∀ secret, Token.ValidateSecret secret = Ok tt → Q (Ok secret) L s) → (∀ e, Q (Err e) L s) → run (newSecret given) L s Q.
Proof.
  intros Hok Herr. unfold newSecret. case_bool_decide.
  - cbn. intros random. apply Hok, NewSecret_valid.
  - apply run_bind. cbn [run]. destruct (Token.ValidateSecret given) as [[]|e] eqn:E; cbn; [|apply Herr].
    destruct (Store.TokenBySecretSHA256 _ _) as [t|e]; cbn; [apply Herr|]. destruct (Is e ErrNotFound); auto.
Qed.

(** A token is stored, or there is an error and nothing has changed. *)
Definition stored (t : Token.Token) (s : Store.Store) (r : result unit * Store.Store) : Prop :=
  (∃ e, r = (Err e, s)) ∨ r = (Ok tt, Store.set_tokens s (Kind.put (Kind.write (Store.tokens s) t) t)).

Lemma CreateToken_stored e s t : stored t s (Store.CreateToken e s t).
Proof.
  unfold Store.CreateToken. destruct (Kind.create _ _ _ _ _ _) as [r k] eqn:E.
  apply Store.create_cases in E as [[-> Hr]|(-> & -> & _)]; [|by right].
  destruct r as [|e']; [done|]. left. exists e'. by destruct s.
Qed.

Lemma UpdateToken_stored e s t : stored t s (Store.UpdateToken e s t).
Proof.
  unfold Store.UpdateToken. destruct (Kind.update _ _ _ _ _) as [r k] eqn:E.
  apply Store.update_cases in E as [[-> Hr]|(-> & -> & _)]; [|by right].
  destruct r as [|e']; [done|]. left. exists e'. by destruct s.
Qed.

(** C34: what is issued works. Whatever is asked for and whoever asks, the value
    that making or rotating a token returns is one by which a call presents
    that token, with the secret given or with one made up, and with the
    fingerprint of the daemon's certificate or none; and if there is an error,
    the tokens are as they were. *)
Theorem issued_tokens_work key tcp name secret scopes caller L s :
  let works r s' :=
    match r with
    | Ok (t, value) => presents s' ["Bearer " +:+ value] t
    | Err _ => s' = s
    end in
  run (CreateToken tcp (fingerprint_of key) name secret scopes caller) L s (λ r _ s', works r s') ∧
  run (RotateToken tcp (fingerprint_of key) name secret caller) L s (λ r _ s', works r s').
Proof.
  intros works. split.
  - apply run_bind. cbn [run]. destruct (checkServesTCP tcp); [|done].
    apply run_bind. cbn [run]. destruct (checkCallerAllows _ _); [|done]. apply run_bind.
    apply run_bind, run_newSecret; [|done]. intros sec Hsec. cbn. intros now newID.
    destruct (Token.Validate _); cbn; [|done]. intros e. set (t := Token.mkToken _ _ _ _ _ _ _).
    destruct (CreateToken_stored e s t) as [[e' ->]| ->]; cbn; [done|]. by apply issued_presents.
  - apply run_bind. cbn [run]. destruct (checkServesTCP tcp); [|done].
    apply run_bind. cbn. destruct (Store.Token s name) as [u|]; [|done].
    destruct (checkCallerAllows caller _); [|done]. cbn. destruct (Store.Token s (Token.ID u)) as [t|]; [|done].
    apply run_bind, run_bind, run_newSecret; [|done]. intros sec Hsec. cbn. intros now e.
    destruct (UpdateToken_stored e s (withSecret t (SecretSHA256 sec) now)) as [[e' ->]| ->]; cbn; [done|].
    by apply issued_presents.
Qed.

(** ** Examples *)

Definition example_secret : string := "abcdefghijklmnopqrstuvwxyz234567".

(** A token for tokens, and for reading instances. *)
Definition example_token : Token.Token :=
  Token.mkToken "t1" "admin" (SecretSHA256 example_secret) ["tokens:write"; "instances:read"] 0 0 0.

Definition example_store : Store.Store := (Store.CreateToken None Store.empty_store example_token).2.

Definition example_header : list string := ["Bearer " +:+ Token.Format example_secret ""].

(** An hour past the zero time, and a secret of 32 bytes. *)
Definition example_world (q : query) (n : nat) : answer q :=
  match q with
  | QWrite => None
  | QNow => (3600 * second)%Z
  | QRandom => vreplicate secretBytes Byte.x2a
  | QNewID => "t2"
  end.

(** Its holder makes a token for reading instances. *)
Definition example_call : M unit :=
  ignoring (serve example_header "/dicer.v1.Dicer/CreateToken" (CreateToken true "" "ci" "" ["instances:read"])).

Definition example_end : config (S:=Store.Store) (answer:=answer) (lock:=unit) :=
  turns example_world 0 99 0 (mkConfig example_store [mkThread example_call ∅]).

Lemma example_synced : Kind.synced (Store.tokens example_store).
Proof.
  intros n t. change (Store.tokens example_store) with
    (Kind.mkKind {["admin" := example_token]} {["t1" := "admin"]} {["admin" := Kind.writeDefinition example_token]}).
  unfold Kind.placed. simpl. rewrite lookup_singleton_Some. split.
  - intros [<- <-]. by rewrite lookup_singleton_eq.
  - intros [(f & [<- <-]%lookup_singleton_Some & Ht)%bind_Some _]. rewrite Kind.read_write in Ht. by injection Ht as <-.
Qed.

Definition example_made : option Token.Token := Kind.byName (Store.tokens (state example_end)) !! "ci".

Lemma no_privilege_is_gained_witness :
  ∃ t, example_made = Some t ∧ Token.Allows t "instances:read" = true ∧
  ∃ n0 t0, Kind.byName (Store.tokens example_store) !! n0 = Some t0 ∧
    ∀ scope, Token.Allows t scope = true → Token.Allows t0 scope = true.
Proof.
  assert (match example_made with Some t => Token.Allows t "instances:read" | None => false end = true) as H
    by (vm_compute; reflexivity).
  destruct example_made as [t|] eqn:E; [|done]. exists t. split_and!; [done|done|].
  apply (no_privilege_is_gained true "" example_store example_end "ci" t); [exact example_synced| |exact E].
  eapply rtc_l; [apply (step_spawn _ _ example_store [] example_call ∅)|apply turns_steps].
  - split; [apply call_create|reflexivity].
  - intros u Hu. by apply elem_of_nil in Hu.
Defined.

Lemma example_presents t : presents example_store example_header t ↔ t = example_token.
Proof.
  assert (Kind.byName (Store.tokens example_store) = {["admin" := example_token]}) as E by reflexivity.
  unfold presents. rewrite E. split.
  - intros (_ & _ & _ & _ & _ & _ & n & Hn). by apply lookup_singleton_Some in Hn as [_ <-].
  - intros ->. exists (Token.Format example_secret ""), example_secret, "". split_and!; [done|by vm_compute|done|].
    exists "admin". by rewrite lookup_singleton_eq.
Qed.


Lemma reading_scopes_only_read_witness :
  let t := Token.mkToken "t3" "watch" "" ["instances:read"; "events:read"] 0 0 0 in
  Path.Base "/dicer.v1.Dicer/GetEvents" ∈ reading_methods.
Proof.
  apply (reading_scopes_only_read (Token.mkToken "t3" "watch" "" ["instances:read"; "events:read"] 0 0 0)); [|by vm_compute].
  simpl. intros scope [->|[->|[]%elem_of_nil]%elem_of_cons]%elem_of_cons; [by exists "instances"|by exists "events"].
Defined.

End Serve.
