(* ===== verification/EventLog.v ===== *)
(** * The event log

    [internal/event]: events kept in memory, handed to subscribers, and
    written behind to a file by a goroutine of its own. What an operation does
    under the log's mutex is one step on the log; the writer is a program of
    [Conc], whose steps interleave with the operations and with crashes. *)

From S2P Require Import Prelude Errdefs Conc.

Module EventLog.

(** ** Events ([event.go]) *)

Record Event := mkEvent {
  Time : Z;
  Kind : string;
  ID : string;
  Name : string;
  Action : string;
  Message : string;
  Attributes : gmap string string;
}.

#[global] Instance Event_eq_dec : EqDecision Event.
Proof. solve_decision. Defined.

Record Filter := mkFilter {
  Filter_Kind : string;
  Filter_ID : string;
  Names : list string;
  Since : Z;
}.

Definition Matches (f : Filter) (e : Event) : bool :=
  (bool_decide (Filter_Kind f = "") || bool_decide (Kind e = Filter_Kind f)) &&
  (bool_decide (Filter_ID f = "") || bool_decide (ID e = Filter_ID f)) &&
  (bool_decide (Names f = []) || bool_decide (Name e ∈ Names f)) &&
  negb (Time e <? Since f)%Z.

(** ** The log ([log.go]) *)

Definition DefaultMaxCount : Z := 10000.

Definition writeBuffer : Z := 1024.

Definition compactionRetryDelay : Z := 30 * second.

Definition subscriptionBuffer : Z := 256.

Record Config := mkConfig {
  MaxCount : Z;
  MaxAge : Z;
}.

Record pendingEvent := mkPending {
  number : nat;
  event : Event;
}.

Inductive subscriptionError := ErrFellBehind.

(** A subscription's channel: what waits in it, and whether it was closed. *)
Record Subscription := mkSubscription {
  filter : Filter;
  waiting : list Event;
  ended : bool;
  err : option subscriptionError;
}.

Record Log := mkLog {
  maxCount : Z;
  maxAge : Z;
  writes : list pendingEvent;
  events : list Event;
  recorded : nat;
  dropped : nat;
  droppedThrough : nat;
  dropping : bool;
  closed : bool;
  recordedAfterClose : bool;
  subscriptions : gset nat;
  made : gmap nat Subscription;
}.

Definition set_events (l : Log) (v : list Event) : Log :=
  mkLog (maxCount l) (maxAge l) (writes l) v (recorded l) (dropped l) (droppedThrough l) (dropping l) (closed l)
    (recordedAfterClose l) (subscriptions l) (made l).

Definition set_writes (l : Log) (v : list pendingEvent) : Log :=
  mkLog (maxCount l) (maxAge l) v (events l) (recorded l) (dropped l) (droppedThrough l) (dropping l) (closed l)
    (recordedAfterClose l) (subscriptions l) (made l).

Definition set_subscriptions (l : Log) (v : gset nat) (m : gmap nat Subscription) : Log :=
  mkLog (maxCount l) (maxAge l) (writes l) (events l) (recorded l) (dropped l) (droppedThrough l) (dropping l) (closed l)
    (recordedAfterClose l) v m.

(** *** Limits *)

(** The loop of [trim]. *)
Fixpoint drop_before (oldest : Z) (es : list Event) : list Event :=
  match es with
  | e :: es' => if (Time e <? oldest)%Z then drop_before oldest es' else es
  | [] => []
  end.

Definition trimmed (maxCount maxAge now : Z) (es : list Event) : list Event :=
  let es := skipn (Z.to_nat (Z.max (Z.of_nat (length es) - maxCount) 0)) es in
  if (0 <? maxAge)%Z then drop_before (now - maxAge) es else es.

Definition trim (now : Z) (l : Log) : Log := set_events l (trimmed (maxCount l) (maxAge l) now (events l)).

(** *** Subscriptions ([subscription.go]) *)

(** [end]: [i] is the subscription. *)
Definition end_ (i : nat) (e : option subscriptionError) (l : Log) : Log :=
  if decide (i ∈ subscriptions l) then
    set_subscriptions l (subscriptions l ∖ {[i]})
      (alter (λ s, mkSubscription (filter s) (waiting s) true e) i (made l))
  else l.

Definition send (i : nat) (e : Event) (l : Log) : Log :=
  match made l !! i with
  | Some s =>
      if (Z.of_nat (length (waiting s)) <? subscriptionBuffer)%Z
      then set_subscriptions l (subscriptions l) (<[i := mkSubscription (filter s) (waiting s ++ [e]) (ended s) (err s)]> (made l))
      else end_ i (Some ErrFellBehind) l
  | None => l
  end.

(** The loop of [Record] over the subscriptions. *)
Definition send_all (e : Event) (l : Log) : Log :=
  foldl (λ l i, match made l !! i with
                | Some s => if Matches (filter s) e then send i e l else l
                | None => l
                end) l (elements (subscriptions l)).

Definition list_ (f : Filter) (limit : Z) (l : Log) : list Event :=
  let out := List.filter (Matches f) (events l) in
  if (0 <? limit)%Z && (limit <? Z.of_nat (length out))%Z
  then skipn (length out - Z.to_nat limit) out else out.

Definition List_ (f : Filter) (limit : Z) (l : Log) : list Event := list_ f limit l.

(** [Subscribe]: [i] is a subscription that there was not. *)
Definition Subscribe (i : nat) (f : Filter) (limit : Z) (l : Log) : list Event * Log :=
  let l := set_subscriptions l ({[i]} ∪ subscriptions l) (<[i := mkSubscription f [] false None]> (made l)) in
  let l := if closed l then end_ i None l else l in
  (list_ f limit l, l).

(** [Close] of a subscription. *)
Definition Unsubscribe (i : nat) (l : Log) : Log := end_ i None l.

(** A receive from a subscription's channel. *)
Definition receive (i : nat) (l : Log) : option (Event * Log) :=
  match made l !! i with
  | Some (mkSubscription f (e :: es) d r) => Some (e, set_subscriptions l (subscriptions l) (<[i := mkSubscription f es d r]> (made l)))
  | _ => None
  end.

(** *** Recording *)

Inductive queueWarning := queueWarningNone | queueWarningDropping | queueWarningClosed.

Definition queue (p : pendingEvent) (l : Log) : queueWarning * Log :=
  if closed l then
    (if recordedAfterClose l then queueWarningNone else queueWarningClosed,
     mkLog (maxCount l) (maxAge l) (writes l) (events l) (recorded l) (dropped l) (droppedThrough l) (dropping l) (closed l)
       true (subscriptions l) (made l))
  else if (Z.of_nat (length (writes l)) <? writeBuffer)%Z then
    (queueWarningNone,
     mkLog (maxCount l) (maxAge l) (writes l ++ [p]) (events l) (recorded l) (dropped l) (droppedThrough l) false (closed l)
       (recordedAfterClose l) (subscriptions l) (made l))
  else
    (if dropping l then queueWarningNone else queueWarningDropping,
     mkLog (maxCount l) (maxAge l) (writes l) (events l) (recorded l) (S (dropped l)) (number p) true (closed l)
       (recordedAfterClose l) (subscriptions l) (made l)).

(** [l.recorded++] *)
Definition count (l : Log) : Log :=
  mkLog (maxCount l) (maxAge l) (writes l) (events l) (S (recorded l)) (dropped l) (droppedThrough l) (dropping l) (closed l)
    (recordedAfterClose l) (subscriptions l) (made l).

(** The time an event is recorded with. *)
Definition stamped (now : Z) (e : Event) : Event :=
  if bool_decide (Time e = 0%Z) then mkEvent now (Kind e) (ID e) (Name e) (Action e) (Message e) (Attributes e) else e.

(** [Record], of an event that has its time: [now] is when [trim] is called.
    What it warns of goes to the daemon's own log. *)
Definition Record_ (now : Z) (e : Event) (l : Log) : Log :=
  let l := trim now (set_events l (events l ++ [e])) in
  let l := count l in
  let '(_, l) := queue (mkPending (recorded l) e) l in
  send_all e l.

Definition droppedSince (n : nat) (l : Log) : bool := n <? droppedThrough l.

Definition keptEvents (l : Log) : list Event * nat := (events l, recorded l).

(** [Close], up to where it waits for the writer. *)
Definition Close (l : Log) : Log :=
  if closed l then l
  else
    let l := mkLog (maxCount l) (maxAge l) (writes l) (events l) (recorded l) (dropped l) (droppedThrough l) (dropping l) true
      (recordedAfterClose l) (subscriptions l) (made l) in
    foldl (λ l i, end_ i None l) l (elements (subscriptions l)).

(** ** The file *)

(** What follows the last newline: nothing, part of a line, or a line that
    lacks its newline. *)
Inductive Tail := NoTail | Torn | Unterminated (e : Event).

(** The lines of the file, each an event's JSON or not readable. *)
Record File := mkFile {
  lines : list (option Event);
  tail : Tail;
}.

(** What [load] reads of it. *)
Definition readable (f : File) : list Event :=
  omap id (lines f) ++ (if tail f is Unterminated e then [e] else []).

(** Appending an event's line: to a line without its newline, it makes a line
    of both. *)
Definition append (e : Event) (f : File) : File :=
  mkFile (lines f ++ [if tail f is NoTail then Some e else None]) NoTail.

(** What a write that fails leaves: nothing, some of the line, or all of it
    but its newline. *)
Inductive leftover := LeftNothing | LeftPart | LeftWhole.

Definition leave (e : Event) (some : leftover) (f : File) : File :=
  match some, tail f with
  | LeftNothing, _ => f
  | LeftWhole, NoTail => mkFile (lines f) (Unterminated e)
  | _, _ => mkFile (lines f) Torn
  end.

(** Replacing it whole. *)
Definition replaced (es : list Event) : File := mkFile (Some <$> es) NoTail.

(** ** The writer *)

(** The log and its file; and what is remembered of them, which no code reads:
    the events it was opened with and all that were recorded since, the last
    event the writer took, how many were recorded before [Close], and what
    each subscription was given, was made after, and has read. *)
Record World := mkWorld {
  log : Log;
  file : option File;
  past : list Event;
  taken : nat;
  accepted : nat;
  journal : gmap nat (list Event * nat * list Event);
}.

(** The time; whether a write of an event fails; encoding, replacing, opening
    and closing the file; making its directory, and reading it. *)
Inductive query := QNow | QWrite | QEncode | QReplace | QOpen | QClose | QMkdir | QRead.

(** A time is after the zero time. *)
Definition answer (q : query) : Type :=
  match q with
  | QNow => N
  | QWrite => option (error * leftover)
  | _ => option error
  end.

Abbreviation M := (prog (S:=World) (answer:=answer) (lock:=unit)).

Definition set_log (w : World) (v : Log) : World := mkWorld v (file w) (past w) (taken w) (accepted w) (journal w).

Definition set_file (w : World) (v : File) : World := mkWorld (log w) (Some v) (past w) (taken w) (accepted w) (journal w).

Record eventsFile := mkEventsFile {
  is_open : bool;
  written : Z;
  compactedThrough : nat;
  retryAt : Z;
}.

Definition discarded (f : eventsFile) : eventsFile := mkEventsFile false (written f) (compactedThrough f) (retryAt f).

(** A write to the file, if it is there. *)
Definition on_file (g : File → File) (w : World) : World := if file w is Some d then set_file w (g d) else w.

Definition writeEvent (f : eventsFile) (e : Event) : M (option error * eventsFile) :=
  outcome ← ask QWrite;
  match outcome with
  | Some (err, some) => modify (on_file (leave e some)) ≫= λ _, mret (Some err, f)
  | None => modify (on_file (append e)) ≫= λ _, mret (None, mkEventsFile (is_open f) (written f + 1) (compactedThrough f) (retryAt f))
  end.

Definition discard (f : eventsFile) : M eventsFile := ask QClose ≫= λ _, mret (discarded f).

Definition compact (f : eventsFile) : M (option error * eventsFile) :=
  ' (es, last) ← gets (λ w, keptEvents (log w));
  encoded ← ask QEncode;
  if encoded is Some e then mret (Some (Errorf "encode event: %w" e), f)
  else
    failed ← ask QReplace;
    if failed is Some e then mret (Some (Errorf "write events: %w" e), f)
    else
      modify (λ w, set_file w (replaced es)) ≫= λ _,
      opened ← ask QOpen;
      if opened is Some e then mret (Some (Errorf "open events: %w" e), mkEventsFile false (written f) last (retryAt f))
      else mret (None, mkEventsFile true (Z.of_nat (length es)) last (retryAt f)).

Definition tryCompact (f : eventsFile) : M eventsFile :=
  now ← ask QNow;
  if (Z.of_N now <? retryAt f)%Z then mret f
  else
    ' (failed, f) ← compact f;
    if failed is Some _
    then mret (mkEventsFile (is_open f) (written f) (compactedThrough f) (Z.of_N now + compactionRetryDelay))
    else mret f.

(** The body of the loop of [write]. *)
Definition write_one (f : eventsFile) (p : pendingEvent) : M eventsFile :=
  f ← (if (compactedThrough f <? number p) && is_open f then
         ' (failed, f) ← writeEvent f (event p);
         if failed is Some _ then discard f else mret f
       else mret f);
  empty ← gets (λ w, bool_decide (writes (log w) = []));
  caughtUp ← (if (empty : bool) then gets (λ w, droppedSince (compactedThrough f) (log w)) else mret false);
  limit ← gets (λ w, int64_wrap (maxCount (log w) + maxCount (log w) / 4));
  if negb (is_open f) || (limit <? written f)%Z || caughtUp then tryCompact f else mret f.

(** [errors.Join] *)
Definition join (a b : option error) : option error :=
  match a, b with
  | Some a, Some b => Some (Join a b)
  | Some a, None => Some a
  | None, b => b
  end.

(** The end of [write]. *)
Definition finish (f : eventsFile) : M (option error) :=
  lacking ← (if negb (is_open f) then mret true else gets (λ w, droppedSince (compactedThrough f) (log w)));
  ' (failed, f) ← (if (lacking : bool) then compact f else mret (None, f));
  failedClose ← (if is_open f then e ← ask QClose; mret (Errorf "close events: %w" <$> e) else mret None);
  mret (join failed failedClose).

(** *** Opening *)

Definition newLog (cfg : Config) : Log :=
  mkLog (if (MaxCount cfg <=? 0)%Z then DefaultMaxCount else MaxCount cfg) (MaxAge cfg) [] [] 0 0 0 false false false ∅ ∅.

(** [load], of the file's readable lines. *)
Definition load : M (option error) :=
  failed ← ask QRead;
  w ← gets id;
  match file w, failed with
  | None, _ => mret None
  | Some _, Some e => mret (Some (Errorf "read events: %w" e))
  | Some d, None => modify (λ w, set_log w (set_events (log w) (events (log w) ++ readable d))) ≫= λ _, mret None
  end.

Definition open_ (cfg : Config) : M (result eventsFile) :=
  modify (λ w, set_log w (newLog cfg)) ≫= λ _,
  failed ← ask QMkdir;
  if failed is Some e then mret (Err (Errorf "create the events file's directory: %w" e))
  else
    failed ← load;
    if failed is Some e then mret (Err e)
    else
      now ← ask QNow;
      modify (λ w, set_log w (trim (Z.of_N now) (log w))) ≫= λ _,
      ' (failed, f) ← compact (mkEventsFile false 0 0 0);
      if failed is Some e then mret (Err e) else mret (Ok f).

(** ** The log at work *)

(** What is called of the log, with the times the calls see. *)
Inductive call :=
  | CallRecord (stamp now : Z) (e : Event)
  | CallSubscribe (i : nat) (f : Filter) (limit : Z)
  | CallUnsubscribe (i : nat)
  | CallReceive (i : nat)
  | CallClose.

Definition do_call (c : call) (w : World) : World :=
  match c with
  | CallRecord stamp now e =>
      let e := stamped stamp e in
      let l := Record_ now e (log w) in
      mkWorld l (file w) (past w ++ [e]) (taken w) (if closed (log w) then accepted w else recorded l) (journal w)
  | CallSubscribe i f limit =>
      if decide (made (log w) !! i = None) then
        let '(given, l) := Subscribe i f limit (log w) in
        mkWorld l (file w) (past w) (taken w) (accepted w) (<[i := (given, length (past w), [])]> (journal w))
      else w
  | CallUnsubscribe i => set_log w (Unsubscribe i (log w))
  | CallReceive i =>
      match receive i (log w) with
      | Some (e, l) =>
          mkWorld l (file w) (past w) (taken w) (accepted w)
            (alter (λ '(given, from, got), (given, from, got ++ [e])) i (journal w))
      | None => w
      end
  | CallClose => set_log w (Close (log w))
  end.

(** The writer takes the next event. *)
Definition take_next (p : pendingEvent) (rest : list pendingEvent) (w : World) : World :=
  mkWorld (set_writes (log w) rest) (file w) (past w) (number p) (accepted w) (journal w).

(** Where the writer is: there is none; it waits for an event; it writes one;
    it comes to its end; it has stopped. *)
Inductive writer :=
  | Down
  | Waiting (f : eventsFile)
  | Writing (p : M eventsFile)
  | Finishing (p : M (option error))
  | Stopped (closeErr : option error).

Definition opened (t : writer) : bool := if t is Down then false else true.

(** What is left when the daemon dies: the file, to which part of a line may
    have been written. *)
Definition after_crash (torn : bool) (w : World) : World :=
  let f := if torn then (λ d, mkFile (lines d) (if tail d is NoTail then Torn else tail d)) <$> file w else file w in
  mkWorld (newLog (mkConfig 0 0)) f (from_option readable [] f) 0 0 ∅.

Section Steps.

Context (cfg : Config).

Inductive step : World * writer → World * writer → Prop :=
  | step_open world w r w' n :
      exec world (open_ cfg) 0 ∅ w = Some (r, w', n) → step (w, Down) (w', if r is Ok f then Waiting f else Down)
  | step_call c w t : opened t = true → step (w, t) (do_call c w, t)
  | step_take w f p rest : writes (log w) = p :: rest → step (w, Waiting f) (take_next p rest w, Writing (write_one f p))
  | step_write_atomic w B (f : World → B * World) k : step (w, Writing (Atomic _ B f k)) ((f w).2, Writing (k (f w).1))
  | step_write_ask w q k a : step (w, Writing (Ask _ q k)) (w, Writing (k a))
  | step_written w f : step (w, Writing (Ret _ f)) (w, Waiting f)
  | step_drained w f : writes (log w) = [] → closed (log w) = true → step (w, Waiting f) (w, Finishing (finish f))
  | step_finish_atomic w B (f : World → B * World) k : step (w, Finishing (Atomic _ B f k)) ((f w).2, Finishing (k (f w).1))
  | step_finish_ask w q k a : step (w, Finishing (Ask _ q k)) (w, Finishing (k a))
  | step_stopped w e : step (w, Finishing (Ret _ e)) (w, Stopped e)
  | step_crash torn w t : step (w, t) (after_crash torn w, Down).

(** Before the first start, there is a file, or none. *)
Definition first_world (f : option File) : World :=
  mkWorld (newLog cfg) f (from_option readable [] f) 0 0 ∅.

Definition reaches (w : World) (t : writer) : Prop := ∃ f, rtc step (first_world f, Down) (w, t).

End Steps.

(** ** What the file holds *)

Definition loaded (w : World) : nat := length (past w) - recorded (log w).

Definition start (w : World) : nat := length (past w) - length (events (log w)).

Definition on_disk (w : World) : list Event := from_option readable [] (file w).

(** At all times: what waits to be written are the events recorded after the
    last the writer took, in order, but for those dropped; and the file holds
    events of the past, in order. *)
Record I (w : World) : Prop := {
  ok_events : events (log w) `suffix_of` past w;
  ok_recorded : recorded (log w) ≤ length (past w);
  ok_queued : ∀ p, p ∈ writes (log w) →
    taken w < number p ≤ accepted w ∧ past w !! (loaded w + number p - 1) = Some (event p);
  ok_sorted : StronglySorted (λ p q, number p < number q) (writes (log w));
  ok_all : ∀ n, droppedThrough (log w) < n → taken w < n ≤ accepted w → ∃ p, p ∈ writes (log w) ∧ number p = n;
  ok_accepted : accepted w ≤ recorded (log w);
  ok_open : recordedAfterClose (log w) = false → accepted w = recorded (log w);
  ok_late : closed (log w) = false → recordedAfterClose (log w) = false;
  ok_dropped : droppedThrough (log w) ≤ accepted w;
  ok_taken : taken w ≤ accepted w;
  ok_disk : on_disk w `sublist_of` past w;
}.

(** What calls may do while the writer is at work. *)
Record calls (w w' : World) : Prop := {
  calls_file : file w' = file w;
  calls_taken : taken w' = taken w;
  calls_past : ∃ new, past w' = past w ++ new ∧ recorded (log w') = recorded (log w) + length new;
  calls_start : start w ≤ start w';
  calls_writes : ∃ q, writes (log w') = writes (log w) ++ q;
  calls_accepted : accepted w ≤ accepted w';
  calls_dropped : droppedThrough (log w') = droppedThrough (log w) ∨
    recorded (log w) < droppedThrough (log w') ∧ writes (log w') ≠ [];
  calls_closed : closed (log w) = true →
    closed (log w') = true ∧ writes (log w') = writes (log w) ∧
    droppedThrough (log w') = droppedThrough (log w) ∧ accepted w' = accepted w;
}.

(** The writer alone holds the one lock there is. *)
Definition G (L : gset unit) (w w' : World) : Prop := tt ∉ L → calls w w'.

Definition R (L : gset unit) (w w' : World) : Prop := tt ∈ L → calls w w'.

Lemma calls_refl w : calls w w.
Proof. split; auto. - exists []. rewrite app_nil_r. split; [done|simpl; lia]. - exists []. by rewrite app_nil_r. Qed.

Lemma calls_trans w1 w2 w3 : calls w1 w2 → calls w2 w3 → calls w1 w3.
Proof.
  intros [F1 T1 (n1 & P1 & r1) S1 (q1 & Q1) A1 D1 C1] [F2 T2 (n2 & P2 & r2) S2 (q2 & Q2) A2 D2 C2].
  split; [congruence|congruence| |lia| |lia| |].
  - exists (n1 ++ n2). rewrite P2, P1, r2, r1, length_app, app_assoc. split; [done|lia].
  - exists (q1 ++ q2). by rewrite Q2, Q1, app_assoc.
  - destruct D2 as [->|[? ?]]; [|right; split; [lia|done]]. destruct D1 as [->|[? Hq]]; [by left|right]. split; [lia|].
    rewrite Q2. by intros [? _]%app_nil.
  - intros Hc. destruct (C1 Hc) as (Hc' & E1 & E2 & E3). destruct (C2 Hc') as (? & ? & ? & ?). split_and!; congruence.
Qed.

#[local] Instance calls_interfere : RelyGuarantee I G R.
Proof.
  split.
  - intros L w _. apply calls_refl.
  - intros L w1 w2 w3 H1 H2 HL. eapply calls_trans; eauto.
  - intros L1 L2 w w' Hd _ HG HL. apply HG. set_solver.
Qed.

Abbreviation wpl p w Q := (wp (answer:=answer) I G R (λ _, 0) p {[tt]} w (λ a L w', L = {[tt]} ∧ Q a w')).

(** The past up to the event numbered [m]. *)
Definition through (w : World) (m : nat) : list Event := take (loaded w + m) (past w).

(** Events are all those from one on that memory still holds, up to the one
    numbered [m]. *)
Definition complete (es : list Event) (m : nat) (w : World) : Prop :=
  ∃ k, k ≤ start w ∧ k ≤ loaded w + m ∧ es = drop k (through w m).

(** A file that is open holds only events numbered up to [m]; and all of them,
    if none was dropped since it was compacted. *)
Record holds (f : eventsFile) (m : nat) (w : World) : Prop := {
  holds_compacted : compactedThrough f ≤ recorded (log w);
  holds_recorded : m ≤ recorded (log w);
  holds_past : recorded (log w) ≤ length (past w);
  holds_file : is_open f = true → ∃ es, file w = Some (replaced es) ∧ es `sublist_of` through w m ∧
    (droppedThrough (log w) ≤ compactedThrough f → complete es m w);
}.

(** None was dropped since the file was compacted, or there is more to write. *)
Definition caught_up (n : nat) (w : World) : Prop := droppedThrough (log w) ≤ n ∨ writes (log w) ≠ [].

(** What holds of the file between two events. *)
Definition at_rest (f : eventsFile) (w : World) : Prop :=
  holds f (compactedThrough f `max` taken w) w ∧
  (retryAt f = 0%Z → is_open f = true ∧ caught_up (compactedThrough f) w).

(** *** Calls change none of it *)

Section Stable.

Context (w w' : World) (Hc : calls w w').

Lemma calls_loaded : recorded (log w) ≤ length (past w) → loaded w' = loaded w.
Proof. destruct (calls_past _ _ Hc) as (new & E & Er). unfold loaded. rewrite E, Er, length_app. lia. Qed.

Lemma calls_through m : recorded (log w) ≤ length (past w) → m ≤ recorded (log w) → through w' m = through w m.
Proof.
  intros Hr Hm. unfold through. rewrite calls_loaded by done. destruct (calls_past _ _ Hc) as (new & -> & _).
  rewrite take_app_le; [done|]. unfold loaded. lia.
Qed.

Lemma calls_recorded : recorded (log w) ≤ recorded (log w').
Proof. destruct (calls_past _ _ Hc) as (new & _ & ->). lia. Qed.

Lemma calls_complete es m :
  recorded (log w) ≤ length (past w) → m ≤ recorded (log w) → complete es m w → complete es m w'.
Proof.
  intros Hr Hm (k & Hk & Hk' & ->). exists k. rewrite calls_through, calls_loaded by done.
  pose proof (calls_start _ _ Hc). split_and!; [lia|done|done].
Qed.

Lemma calls_caught_up n : n ≤ recorded (log w) → caught_up n w → caught_up n w'.
Proof.
  intros Hn [Hd|Hq]; unfold caught_up.
  - destruct (calls_dropped _ _ Hc) as [->|[_ ?]]; auto.
  - right. destruct (calls_writes _ _ Hc) as [q ->]. by intros [? _]%app_nil.
Qed.

Lemma calls_holds f m : holds f m w → holds f m w'.
Proof.
  intros [H1 H2 H3 H4]. pose proof calls_recorded as Hr.
  split; [lia|lia|destruct (calls_past _ _ Hc) as (new & -> & ->); rewrite length_app; lia|].
  intros Ho. destruct (H4 Ho) as (es & Hf & Hs & Hall). exists es. rewrite (calls_file _ _ Hc), calls_through by done.
  split_and!; [done..|]. intros Hd. apply calls_complete; [done..|]. apply Hall.
  destruct (calls_dropped _ _ Hc) as [<-|[? _]]; [done|lia].
Qed.

Lemma calls_at_rest f : at_rest f w → at_rest f w'.
Proof.
  intros [H1 H2]. split; [rewrite (calls_taken _ _ Hc); by apply calls_holds|].
  intros Hz. destruct (H2 Hz). split; [done|]. apply calls_caught_up; [apply H1|done].
Qed.

End Stable.

(** *** What each step of the writer does *)

Lemma writer_free w w' : G {[tt]} w w'.
Proof. intros H. by destruct H; apply elem_of_singleton. Qed.

Lemma writer_rely w w' : R {[tt]} w w' → calls w w'.
Proof. intros H. by apply H, elem_of_singleton. Qed.

Lemma wpl_ret {A} (a : A) w (Q : A → World → Prop) :
  Q a w → (∀ w', calls w w' → Q a w → Q a w') → wpl (mret a) w Q.
Proof. intros HQ Hs w' Hr _. split; [done|]. apply Hs; [by apply writer_rely|done]. Qed.

Lemma wpl_bind {A B} (p : M A) (k : A → M B) w (P : A → World → Prop) (Q : B → World → Prop) :
  wpl p w P → (∀ a w', I w' → P a w' → wpl (k a) w' Q) → wpl (p ≫= k) w Q.
Proof. intros Hp Hk. apply wp_bind; [apply _|]. eapply wp_mono; [|exact Hp]. intros a L w' HI [-> Ha]. by apply Hk. Qed.

Lemma wpl_ask {B} q (k : answer q → M B) w Q :
  (∀ a w', calls w w' → I w' → wpl (k a) w' Q) → wpl (ask q ≫= k) w Q.
Proof. intros Hk a w' Hr HI. apply Hk; [by apply writer_rely|done]. Qed.

Lemma wpl_gets {A B} (g : World → A) (k : A → M B) w Q :
  (∀ w', calls w w' → I w' → wpl (k (g w')) w' Q) → wpl (gets g ≫= k) w Q.
Proof. intros Hk w' Hr HI. split_and!; [apply writer_free|done|]. apply Hk; [by apply writer_rely|done]. Qed.

Lemma wpl_gets_end {A} (g : World → A) w (Q : A → World → Prop) :
  (∀ w', calls w w' → I w' → Q (g w') w') → (∀ a w1 w2, calls w1 w2 → Q a w1 → Q a w2) → wpl (gets g) w Q.
Proof.
  intros HQ Hs w' Hr HI. apply writer_rely in Hr. split_and!; [apply writer_free|done|]. intros w2 Hr2%writer_rely _.
  split; [done|]. eapply Hs; [exact Hr2|by apply HQ].
Qed.

Lemma wpl_modify {B} (g : World → World) (k : unit → M B) w Q :
  (∀ w', calls w w' → I w' → I (g w') ∧ wpl (k tt) (g w') Q) → wpl (modify g ≫= k) w Q.
Proof. intros Hk w' Hr HI. destruct (Hk w'); [by apply writer_rely|done|]. split_and!; [apply writer_free|done|done]. Qed.

(** How a compaction ends. *)
Definition compacts (f : eventsFile) (r : option error * eventsFile) (w : World) : Prop :=
  retryAt r.2 = retryAt f ∧ holds r.2 (compactedThrough r.2 `max` taken w) w ∧
  (r.1 = None → is_open r.2 = true ∧ caught_up (compactedThrough r.2) w).

Lemma calls_compacts f r w w' : calls w w' → compacts f r w → compacts f r w'.
Proof.
  intros Hc (H1 & H2 & H3). split_and!; [done|rewrite (calls_taken _ _ Hc); by apply (calls_holds _ _ Hc)|].
  intros Hn. destruct (H3 Hn). split; [done|]. eapply calls_caught_up; [done|apply H2|done].
Qed.

(** The events kept are all up to the last that was recorded. *)
Lemma kept_complete w : I w → complete (events (log w)) (recorded (log w)) w.
Proof.
  intros HI. destruct (ok_events w HI) as [pre E]. exists (start w). pose proof (ok_recorded w HI) as Hr.
  assert (through w (recorded (log w)) = past w) as -> by (unfold through, loaded; rewrite take_ge; [done|lia]).
  unfold start, loaded. rewrite E, length_app. replace (length pre + _ - _) with (length pre) by lia.
  split_and!; [done| |by rewrite drop_app_length]. rewrite E, length_app in Hr. lia.
Qed.

Lemma readable_replaced es : readable (replaced es) = es.
Proof.
  unfold readable, replaced. cbn [lines tail]. rewrite app_nil_r. induction es as [|e es IH]; [done|]. cbn. by f_equal.
Qed.

(** A file that is written whole. *)
Lemma I_set_file w d : I w → readable d `sublist_of` past w → I (set_file w d).
Proof. intros []. by split. Qed.

Lemma complete_sublist es m w : complete es m w → es `sublist_of` through w m.
Proof. intros (k & _ & _ & ->). apply sublist_drop. Qed.

Lemma through_sublist w m : through w m `sublist_of` past w.
Proof. apply sublist_take. Qed.

(** Whatever calls and writes to the file do not change is kept. *)
Lemma wpl_compact (P : World → Prop) f w :
  (∀ w1 w2, calls w1 w2 → P w1 → P w2) → (∀ w d, P w → P (set_file w d)) →
  P w → holds f (compactedThrough f `max` taken w) w → wpl (compact f) w (λ r w', compacts f r w' ∧ P w').
Proof.
  intros HPc HPf HP Hf. apply wpl_gets. intros w1 Hc1 HI1. cbn [keptEvents]. apply (HPc _ _ Hc1) in HP.
  assert (∀ r w1 w2, calls w1 w2 → compacts f r w1 ∧ P w1 → compacts f r w2 ∧ P w2) as Hst.
  { intros r v v' Hc []. split; [by eapply calls_compacts|by eapply HPc]. }
  assert (∀ e, compacts f (Some e, f) w1) as Hfail.
  { intros e. split_and!; [done|rewrite (calls_taken _ _ Hc1); by apply (calls_holds _ _ Hc1)|done]. }
  assert (∀ e w2, calls w1 w2 → wpl (mret (Some e, f)) w2 (λ r w', compacts f r w' ∧ P w')) as Hstop.
  { intros e w2 Hc2. apply (wpl_ret (Some e, f)); [|intros; by eapply Hst]. eapply Hst; [exact Hc2|done]. }
  pose proof (kept_complete w1 HI1) as Hk. set (es := events (log w1)) in *. set (last := recorded (log w1)) in *.
  assert (caught_up last w1) as Hu by (left; pose proof (ok_dropped w1 HI1); pose proof (ok_accepted w1 HI1); lia).
  assert (taken w1 ≤ last) as Ht by (pose proof (ok_taken w1 HI1); pose proof (ok_accepted w1 HI1); lia).
  assert (last ≤ recorded (log w1)) as Hl by done. pose proof (ok_recorded w1 HI1) as Hr1.
  clearbody es last. apply wpl_ask. intros encoded w2 Hc2 _. destruct encoded as [e|]; [by apply Hstop|].
  apply wpl_ask. intros failed w3 Hc3 _. pose proof (calls_trans _ _ _ Hc2 Hc3) as Hc13. destruct failed as [e|]; [by apply Hstop|].
  apply wpl_modify. intros w4 Hc4 HI4. pose proof (calls_trans _ _ _ Hc13 Hc4) as Hc14.
  apply (calls_complete _ _ Hc14) in Hk; [|done..]. apply (calls_caught_up _ _ Hc14) in Hu; [|done].
  pose proof (complete_sublist _ _ _ Hk) as Hs. apply (HPc _ _ Hc14), (HPf _ (replaced es)) in HP.
  split; [apply I_set_file; [done|]; rewrite readable_replaced; etrans; [exact Hs|apply through_sublist]|].
  apply wpl_ask. intros opened w5 Hc5 _. rewrite <-(calls_taken _ _ Hc14) in Ht.
  assert (∀ f' r, retryAt f' = retryAt f → compactedThrough f' = last → (r = None → is_open f' = true) →
    compacts f (r, f') w5 ∧ P w5) as Hend.
  { intros f' r Er Ec Ho. eapply Hst; [exact Hc5|]. split; [|done]. split_and!; [done| |intros Hr; simpl in *; rewrite Ec; auto].
    simpl. rewrite Ec, Nat.max_l by done. pose proof (calls_recorded _ _ Hc14). pose proof (ok_recorded w4 HI4).
    split; simpl; [lia..|]. intros _. by exists es. }
  destruct opened as [e|].
  - apply (wpl_ret (Some _, _)); [by apply Hend|intros; by eapply Hst].
  - apply (wpl_ret (None, _)); [by apply Hend|intros; by eapply Hst].
Qed.

Lemma wpl_tryCompact f w : holds f (compactedThrough f `max` taken w) w → wpl (tryCompact f) w at_rest.
Proof.
  intros Hf. apply wpl_ask. intros now w1 Hc1 _.
  assert (holds f (compactedThrough f `max` taken w1) w1) as Hf1
    by (rewrite (calls_taken _ _ Hc1); by apply (calls_holds _ _ Hc1)).
  destruct (Z.ltb_spec (Z.of_N now) (retryAt f)).
  { apply wpl_ret; [split; [done|lia]|intros; by eapply calls_at_rest]. }
  eapply wpl_bind; [by apply (wpl_compact (λ _, True))|]. intros [failed f'] w2 _ [(Er & Hh & Hok) _]. simpl in *.
  destruct failed as [e|]; (apply wpl_ret; [|intros; by eapply calls_at_rest]).
  - split; [|unfold compactionRetryDelay, second; simpl; lia]. destruct Hh. by split.
  - split; [done|]. intros _. by apply Hok.
Qed.

(** An event that was taken, and is not written yet: it is the next after
    those that the file holds. *)
Definition about_to (f : eventsFile) (p : pendingEvent) (w : World) : Prop :=
  ∃ m, compactedThrough f ≤ m ∧ holds f m w ∧ taken w = number p ∧
    past w !! (loaded w + number p - 1) = Some (event p) ∧ 1 ≤ number p ≤ recorded (log w) ∧
    (if compactedThrough f <? number p
     then m < number p ∧ (droppedThrough (log w) ≤ compactedThrough f → number p = S m)
     else m = compactedThrough f).

Lemma calls_about_to f p w w' : calls w w' → about_to f p w → about_to f p w'.
Proof.
  intros Hc (m & Hm & Hh & Ht & Hp & Hn & Hnext). exists m. pose proof (calls_recorded _ _ Hc).
  split_and!; [done|by apply (calls_holds _ _ Hc)|by rewrite (calls_taken _ _ Hc)| |lia..|].
  - rewrite (calls_loaded _ _ Hc) by apply Hh. destruct (calls_past _ _ Hc) as (new & -> & _). by apply lookup_app_l_Some.
  - destruct (_ <? _); [|done]. destruct Hnext as [? Hnext]. split; [done|]. intros Hd. apply Hnext.
    pose proof (holds_compacted _ _ _ Hh). destruct (calls_dropped _ _ Hc) as [<-|[? _]]; [done|lia].
Qed.

Lemma sublist_snoc (es l : list Event) a b e :
  es `sublist_of` take a l → a ≤ b → l !! b = Some e → es ++ [e] `sublist_of` take (S b) l.
Proof.
  intros Hs Hab He. rewrite (take_S_r _ _ _ He). apply sublist_app; [|done]. etrans; [exact Hs|].
  rewrite <-(Nat.min_l a b) by done. rewrite <-take_take. apply sublist_take.
Qed.

Lemma append_replaced es e : append e (replaced es) = replaced (es ++ [e]).
Proof. unfold append, replaced. cbn. by rewrite fmap_app. Qed.

Lemma readable_leave es e some : readable (leave e some (replaced es)) = es ∨ readable (leave e some (replaced es)) = es ++ [e].
Proof.
  pose proof (readable_replaced es) as E. unfold readable, leave, replaced in *. cbn in *. rewrite app_nil_r in E.
  destruct some; cbn; rewrite E, ?app_nil_r; auto.
Qed.

(** The event that comes next, after what the file holds. *)
Lemma next_event f p es m w :
  compactedThrough f < number p → m < number p →
  (droppedThrough (log w) ≤ compactedThrough f → number p = S m) → past w !! (loaded w + number p - 1) = Some (event p) →
  es `sublist_of` through w m → (droppedThrough (log w) ≤ compactedThrough f → complete es m w) →
  (es ++ [event p] `sublist_of` through w (number p)) ∧
  (droppedThrough (log w) ≤ compactedThrough f → complete (es ++ [event p]) (number p) w).
Proof.
  intros Hc Hm Hnext Hp Hs Hall. unfold through in *. replace (loaded w + number p) with (S (loaded w + number p - 1)) by lia. split.
  - eapply sublist_snoc; [exact Hs|lia|done].
  - intros Hd. destruct (Hall Hd) as (k & Hk & Hk' & ->). specialize (Hnext Hd). exists k. split_and!; [done|lia|].
    unfold through. replace (loaded w + number p) with (S (loaded w + number p - 1)) by lia.
    rewrite (take_S_r _ _ _ Hp). replace (loaded w + number p - 1) with (loaded w + m) by lia.
    rewrite drop_app_le; [done|]. rewrite length_take. apply lookup_lt_Some in Hp. lia.
Qed.

(** The state of the file once the event that was taken is dealt with. *)
Definition dealt (f : eventsFile) (w : World) : Prop := holds f (compactedThrough f `max` taken w) w.

Lemma calls_dealt f w w' : calls w w' → dealt f w → dealt f w'.
Proof. intros Hc H. unfold dealt. rewrite (calls_taken _ _ Hc). by apply (calls_holds _ _ Hc). Qed.

Lemma closed_dealt f p w : about_to f p w → compactedThrough f < number p → is_open f = false → dealt f w.
Proof.
  intros (m & Hm & [? ? ? _] & Ht & _ & Hn & _) Hlt Ho. unfold dealt. rewrite Ht, Nat.max_r by lia. split; [done|lia|done|congruence].
Qed.

Lemma wpl_writeEvent f p w :
  about_to f p w → compactedThrough f < number p → is_open f = true →
  wpl ('(failed, f) ← writeEvent f (event p); if failed is Some _ then discard f else mret f) w dealt.
Proof.
  intros Ha Hlt Ho. apply wpl_ask. intros outcome w1 Hc1 _. apply (calls_about_to _ _ _ _ Hc1) in Ha.
  assert (∀ w2, about_to f p w2 → ∃ es m, file w2 = Some (replaced es) ∧ es `sublist_of` through w2 m ∧
    (es ++ [event p] `sublist_of` through w2 (number p)) ∧
    (droppedThrough (log w2) ≤ compactedThrough f → complete (es ++ [event p]) (number p) w2)) as Hnext.
  { intros w2 (m & Hm & Hh & Ht & Hp & Hn & Hnext). destruct (holds_file _ _ _ Hh Ho) as (es & Hf & Hs & Hall).
    rewrite (proj2 (Nat.ltb_lt _ _) Hlt) in Hnext. destruct Hnext. exists es, m. split_and!; [done..| |]; by eapply next_event. }
  destruct outcome as [[err some]|]; apply wpl_modify; intros w2 Hc2 HI2; apply (calls_about_to _ _ _ _ Hc2) in Ha;
    destruct (Hnext w2 Ha) as (es & m & Hf & Hs & Hs' & Hall); unfold on_file; rewrite Hf.
  - split.
    { apply I_set_file; [done|]. destruct (readable_leave es (event p) some) as [-> | ->];
        (etrans; [eassumption|apply through_sublist]). }
    eapply (wpl_ask QClose). intros _ w3 Hc3 _. apply wpl_ret; [|intros; by eapply calls_dealt]. eapply calls_dealt; [exact Hc3|].
    destruct Ha as (m' & ? & [] & Ht & _ & Hn & _). unfold dealt. simpl. rewrite Ht, Nat.max_r by lia. split; simpl; [done|lia|done|done].
  - rewrite append_replaced. split.
    { apply I_set_file; [done|]. rewrite readable_replaced. etrans; [exact Hs'|apply through_sublist]. }
    apply wpl_ret; [|intros; by eapply calls_dealt]. destruct Ha as (m' & ? & [] & Ht & _ & Hn & _).
    unfold dealt. simpl. rewrite Ht, Nat.max_r by lia. split; simpl; [done|lia|done|]. intros _. by exists (es ++ [event p]).
Qed.

(** What the writer knows once it has looked whether it has caught up. *)
Definition known (f : eventsFile) (caughtUp : bool) (w : World) : Prop :=
  dealt f w ∧ (caughtUp = false → caught_up (compactedThrough f) w).

Lemma calls_known f b w w' : calls w w' → known f b w → known f b w'.
Proof.
  intros Hc [H1 H2]. split; [by eapply calls_dealt|]. intros Hb. eapply calls_caught_up; [done|apply H1|auto].
Qed.

Lemma wpl_write_one f p w : about_to f p w → wpl (write_one f p) w at_rest.
Proof.
  intros Ha. unfold write_one. eapply wpl_bind.
  { destruct (Nat.ltb_spec (compactedThrough f) (number p)) as [Hlt|Hle]; cbn [andb].
    - destruct (is_open f) eqn:Ho; [by apply wpl_writeEvent|].
      apply wpl_ret; [by eapply closed_dealt|intros; by eapply calls_dealt].
    - apply (wpl_ret f _ dealt); [|intros; by eapply calls_dealt]. destruct Ha as (m & Hm & Hh & Ht & _ & _ & Hnext).
      rewrite (proj2 (Nat.ltb_ge _ _) Hle) in Hnext. subst m. unfold dealt. by rewrite Ht, Nat.max_l. }
  intros f' w1 _ Hd. apply wpl_gets. intros w2 Hc2 _. apply (calls_dealt _ _ _ Hc2) in Hd.
  eapply (wpl_bind _ _ _ (known f')).
  { case_bool_decide as Hq; [|by apply wpl_ret; [split; [done|intros _; by right]|intros; by eapply calls_known]].
    apply wpl_gets_end; [|intros; by eapply calls_known]. intros w3 Hc3 _. apply (calls_dealt _ _ _ Hc3) in Hd.
    split; [done|]. intros Hb. left. by apply Nat.ltb_ge. }
  intros caughtUp w3 _ Hk. apply wpl_gets. intros w4 Hc4 _. apply (calls_known _ _ _ _ Hc4) in Hk. destruct Hk as [Hd4 Hu].
  destruct (is_open f') eqn:Ho; cbn [negb orb]; [|by apply wpl_tryCompact].
  destruct (_ <? _)%Z; cbn [orb]; [by apply wpl_tryCompact|]. destruct caughtUp; [by apply wpl_tryCompact|].
  apply wpl_ret; [|intros; by eapply calls_at_rest]. split; [done|]. intros _. split; [done|]. by apply Hu.
Qed.

(** The file holds all that was recorded before [Close]. *)
Definition file_complete (w : World) : Prop :=
  ∃ m, accepted w ≤ m ≤ recorded (log w) ∧ recorded (log w) ≤ length (past w) ∧ complete (on_disk w) m w.

Lemma calls_file_complete w w' : closed (log w) = true → calls w w' → file_complete w → file_complete w'.
Proof.
  intros Hcl Hc (m & Hm & Hr & Hk). exists m. destruct (calls_closed _ _ Hc Hcl) as (_ & _ & _ & ->).
  pose proof (calls_recorded _ _ Hc). split_and!; [lia..| |].
  - destruct (calls_past _ _ Hc) as (new & -> & ->). rewrite length_app. lia.
  - unfold on_disk. rewrite (calls_file _ _ Hc). apply (calls_complete _ _ Hc); [done|lia|done].
Qed.

(** An open file that lacks no dropped event, with no event waiting. *)
Lemma drained_complete f w :
  I w → dealt f w → is_open f = true → droppedThrough (log w) ≤ compactedThrough f → writes (log w) = [] → file_complete w.
Proof.
  intros HI [Hc Hm Hp Hf] Ho Hd Hq. exists (compactedThrough f `max` taken w).
  destruct (Hf Ho) as (es & Ef & _ & Hall). split_and!; [|done|done|].
  - destruct (decide (accepted w ≤ compactedThrough f `max` taken w)) as [|Hlt]; [done|exfalso].
    destruct (ok_all w HI (accepted w)) as (p & Hp' & _); [lia..|]. rewrite Hq in Hp'. by apply elem_of_nil in Hp'.
  - unfold on_disk. rewrite Ef. simpl. rewrite readable_replaced. by apply Hall.
Qed.

(** The end of the writer: nothing waits, and nothing more will. *)
Definition draining (w : World) : Prop := closed (log w) = true ∧ writes (log w) = [].

Lemma calls_draining w w' : calls w w' → draining w → draining w'.
Proof. intros Hc [Hcl Hq]. destruct (calls_closed _ _ Hc Hcl) as (? & E & _). split; [done|congruence]. Qed.

Definition closes_well (e : option error) (w : World) : Prop := draining w ∧ (e = None → file_complete w).

Lemma calls_closes_well e w w' : calls w w' → closes_well e w → closes_well e w'.
Proof.
  intros Hc [Hd He]. split; [by eapply calls_draining|]. intros E. eapply calls_file_complete; [apply Hd|done|auto].
Qed.

Lemma wpl_finish f w : dealt f w → draining w → wpl (finish f) w closes_well.
Proof.
  intros Hd Hdr. set (P := λ (b : bool) w, dealt f w ∧ draining w ∧ (b = false → is_open f = true ∧ file_complete w)).
  assert (∀ b w1 w2, calls w1 w2 → P b w1 → P b w2) as HP.
  { intros b w1 w2 Hc (H1 & H2 & H3). split_and!; [by eapply calls_dealt|by eapply calls_draining|].
    intros Hb. destruct (H3 Hb). split; [done|]. eapply calls_file_complete; [apply H2|done..]. }
  eapply (wpl_bind _ _ _ P).
  { destruct (is_open f) eqn:Ho; cbn [negb]; [|apply wpl_ret; [done|intros; by eapply HP]].
    apply wpl_gets_end; [|apply HP]. intros w1 Hc1 HI1. apply (calls_dealt _ _ _ Hc1) in Hd.
    apply (calls_draining _ _ Hc1) in Hdr. split_and!; [done..|]. intros Hb%Nat.ltb_ge.
    split; [done|]. apply (drained_complete f); [done..|apply Hdr]. }
  intros lacking w1 _ (Hd1 & Hdr1 & Hn). set (Q := λ (r : option error * eventsFile) w, closes_well r.1 w).
  eapply (wpl_bind _ _ _ Q).
  { destruct lacking; [|apply (wpl_ret (None, f)); [split; [done|]; by intros _; apply Hn|intros; by eapply calls_closes_well]].
    eapply wp_mono; [|by apply (wpl_compact draining); [apply calls_draining|..]].
    intros r L w2 HI2 [-> [(_ & Hh & Hok) Hdr2]]. split; [done|]. split; [done|]. intros E. destruct (Hok E) as [Ho [Hdt|Hq]].
    - by apply (drained_complete r.2); [..|apply Hdr2].
    - by destruct Hq; apply Hdr2. }
  intros [failed f'] w2 _ Hq. unfold Q in Hq. simpl in Hq.
  assert (∀ e, closes_well (join failed e) w2) as Hj.
  { intros e. destruct Hq as [H1 H2]. split; [done|]. destruct failed, e; simpl; auto; done. }
  destruct (is_open f').
  - apply wpl_ask. intros e w3 Hc3 _. apply wpl_ret; [|intros; by eapply calls_closes_well]. eapply calls_closes_well; [exact Hc3|done].
  - apply wpl_ret; [done|intros; by eapply calls_closes_well].
Qed.

(** *** Calls *)

(** A log that differs in its subscriptions only. *)
Definition same_log (l l' : Log) : Prop := ∃ v m, l' = set_subscriptions l v m.

#[local] Instance same_log_preorder : PreOrder same_log.
Proof.
  split.
  - intros []. by eexists _, _.
  - intros l1 l2 l3 (v & m & ->) (v' & m' & ->). by exists v', m'.
Qed.

Lemma end_same i e l : same_log l (end_ i e l).
Proof. unfold end_. destruct (decide _); [by eexists _, _|reflexivity]. Qed.

Lemma send_same i e l : same_log l (send i e l).
Proof.
  unfold send. destruct (made l !! i); [|reflexivity]. destruct (_ <? _)%Z; [by eexists _, _|apply end_same].
Qed.

Lemma foldl_same {B} (g : Log → B → Log) l bs : (∀ l b, same_log l (g l b)) → same_log l (foldl g l bs).
Proof. intros Hg. revert l. induction bs as [|b bs IH]; intros l; [reflexivity|]. simpl. etrans; [apply Hg|apply IH]. Qed.

Lemma send_all_same e l : same_log l (send_all e l).
Proof.
  apply foldl_same. intros l' i. destruct (made l' !! i); [|reflexivity]. destruct (Matches _ _); [apply send_same|reflexivity].
Qed.

Lemma Close_same l : ∃ l', same_log l' (Close l) ∧
  l' = mkLog (maxCount l) (maxAge l) (writes l) (events l) (recorded l) (dropped l) (droppedThrough l) (dropping l) true
    (recordedAfterClose l) (subscriptions l) (made l).
Proof.
  eexists. split; [|done]. unfold Close. destruct l as [? ? ? ? ? ? ? ? [] ? ? ?]; simpl; [reflexivity|].
  apply foldl_same. intros. apply end_same.
Qed.

Lemma trimmed_suffix maxCount maxAge now es : trimmed maxCount maxAge now es `suffix_of` es.
Proof.
  assert (∀ oldest es, drop_before oldest es `suffix_of` es) as Hb.
  { intros oldest l. induction l as [|e l IH]; simpl; [done|]. destruct (_ <? _)%Z; [by apply suffix_cons_r|done]. }
  unfold trimmed. destruct (_ <? _)%Z; [etrans; [apply Hb|]|]; apply suffix_drop.
Qed.

Lemma calls_same w l : same_log (log w) l → I w → I (set_log w l) ∧ calls w (set_log w l).
Proof.
  intros (v & m & ->) []. split; [by split|]. pose proof (calls_refl w) as []. by split.
Qed.

(** A log that was recorded in, before subscribers are told. *)
Definition queued (now : Z) (e : Event) (l : Log) : Log :=
  let l := count (trim now (set_events l (events l ++ [e]))) in (queue (mkPending (recorded l) e) l).2.

Lemma Record_queued now e l : same_log (queued now e l) (Record_ now e l).
Proof. unfold Record_, queued. destruct (queue _ _) as [warning l']. apply send_all_same. Qed.

Lemma queued_fields now e l :
  events (queued now e l) = trimmed (maxCount l) (maxAge l) now (events l ++ [e]) ∧
  recorded (queued now e l) = S (recorded l) ∧ closed (queued now e l) = closed l ∧
  if closed l then
    writes (queued now e l) = writes l ∧ droppedThrough (queued now e l) = droppedThrough l ∧ recordedAfterClose (queued now e l) = true
  else
    recordedAfterClose (queued now e l) = recordedAfterClose l ∧
    (writes (queued now e l) = writes l ++ [mkPending (S (recorded l)) e] ∧ droppedThrough (queued now e l) = droppedThrough l ∨
     writes (queued now e l) = writes l ∧ writes l ≠ [] ∧ droppedThrough (queued now e l) = S (recorded l)).
Proof.
  unfold queued, queue. simpl. destruct (closed l) eqn:Hc; [done|].
  destruct (Z.ltb_spec (Z.of_nat (length (writes l))) writeBuffer) as [|Hfull]; simpl; split_and!; auto.
  right. split_and!; [done| |done]. intros E. rewrite E in Hfull. by unfold writeBuffer in Hfull.
Qed.

(** The world once an event is recorded. *)
Definition with_event (e : Event) (l : Log) (w : World) : World :=
  mkWorld l (file w) (past w ++ [e]) (taken w) (if closed (log w) then accepted w else recorded l) (journal w).

Lemma recorded_calls now e w : I w → calls w (with_event e (queued now e (log w)) w).
Proof.
  intros HI. destruct (queued_fields now e (log w)) as (Ee & Er & Ec & Eq).
  pose proof (ok_accepted w HI). pose proof (ok_open w HI). pose proof (ok_late w HI).
  split; simpl; [done..| | | | | |].
  - exists [e]. rewrite Er. simpl. split; [done|lia].
  - unfold start. simpl. rewrite Ee, length_app. simpl.
    destruct (trimmed_suffix (maxCount (log w)) (maxAge (log w)) now (events (log w) ++ [e])) as [pre E].
    apply (f_equal length) in E. rewrite !length_app in E. simpl in E. lia.
  - destruct (closed (log w)); [destruct Eq as (-> & _); exists []; by rewrite app_nil_r|].
    destruct Eq as (_ & [[-> _]|(-> & _)]); [by eexists|exists []; by rewrite app_nil_r].
  - rewrite Er. destruct (closed (log w)); [done|lia].
  - destruct (closed (log w)); [left; apply Eq|]. destruct Eq as (_ & [[_ ->]|(-> & ? & ->)]); [by left|right]. split; [lia|done].
  - intros Hc. rewrite Hc in *. destruct Eq as (? & ? & _). by rewrite Ec.
Qed.

Lemma recorded_I now e w : I w → I (with_event e (queued now e (log w)) w).
Proof.
  intros HI. destruct (queued_fields now e (log w)) as (Ee & Er & Ec & Eq). destruct HI as [H1 H2 H3 H4 H5 H6 H7 H8 H9 H10 H11].
  set (w' := with_event _ _ _).
  assert (loaded w' = loaded w) as Hl by (unfold loaded; simpl; rewrite Er, length_app; simpl; lia).
  assert (∀ p, p ∈ writes (log w) → taken w < number p ≤ accepted w ∧ (past w ++ [e]) !! (loaded w + number p - 1) = Some (event p)) as H3'.
  { intros p Hp. destruct (H3 p Hp). split; [done|]. by apply lookup_app_l_Some. }
  split; simpl; rewrite ?Hl, ?Er.
  - rewrite Ee. etrans; [apply trimmed_suffix|]. destruct H1 as [pre ->]. exists pre. by rewrite app_assoc.
  - rewrite length_app. simpl. lia.
  - intros p Hp. destruct (closed (log w)) eqn:Hc.
    { destruct Eq as (Ew & _). rewrite Ew in Hp. by apply H3'. }
    specialize (H7 (H8 eq_refl)). destruct Eq as (_ & [[Ew _]|(Ew & _)]); rewrite Ew in Hp; [|destruct (H3' p Hp); split; [lia|done]].
    apply elem_of_app in Hp as [Hp| ->%list_elem_of_singleton]; [destruct (H3' p Hp); split; [lia|done]|]. simpl. split; [lia|].
    apply lookup_app_Some. right. unfold loaded. split; [lia|]. by replace (_ - _) with 0 by lia.
  - destruct (closed (log w)) eqn:Hc; [destruct Eq as (-> & _); done|].
    destruct Eq as (_ & [[-> _]|(-> & _)]); [|done]. apply StronglySorted_app_2; [|done|by repeat constructor].
    intros p q Hp ->%list_elem_of_singleton. simpl. destruct (H3 p Hp). lia.
  - intros n Hn Ht. destruct (closed (log w)) eqn:Hc.
    { destruct Eq as (-> & Ed & _). rewrite Ed in Hn. by apply H5. }
    specialize (H7 (H8 eq_refl)). destruct Eq as (_ & [[-> Ed]|(_ & _ & Ed)]); rewrite Ed in Hn; [|lia].
    destruct (decide (n = S (recorded (log w)))) as [->|Hne].
    + eexists. split; [apply elem_of_app; right; by apply list_elem_of_singleton|done].
    + destruct (H5 n) as (p & Hp & En); [lia..|]. exists p. split; [apply elem_of_app; by left|done].
  - destruct (closed (log w)); lia.
  - intros Hr. destruct (closed (log w)); [|done]. destruct Eq as (_ & _ & Eq). congruence.
  - rewrite Ec. intros Hc. rewrite Hc in Eq. destruct Eq as (-> & _). auto.
  - destruct (closed (log w)) eqn:Hc; [destruct Eq as (_ & -> & _); done|].
    specialize (H7 (H8 eq_refl)). destruct Eq as (_ & [[_ ->]|(_ & _ & ->)]); lia.
  - destruct (closed (log w)) eqn:Hc; [done|]. specialize (H7 (H8 eq_refl)). lia.
  - change (on_disk w') with (on_disk w). etrans; [exact H11|]. by apply sublist_inserts_r.
Qed.

(** What subscriptions read is written down elsewhere. *)
Lemma calls_journal w j : I w → I (mkWorld (log w) (file w) (past w) (taken w) (accepted w) j) ∧
  calls w (mkWorld (log w) (file w) (past w) (taken w) (accepted w) j).
Proof. intros []. split; [by split|]. pose proof (calls_refl w) as []. by split. Qed.

Lemma receive_same i l e l' : receive i l = Some (e, l') → same_log l l'.
Proof. unfold receive. destruct (made l !! i) as [[f [|e' es] d r]|]; [done| |done]. intros [= <- <-]. by eexists _, _. Qed.

Lemma Subscribe_same i f limit l : same_log l (Subscribe i f limit l).2.
Proof.
  unfold Subscribe. simpl. etrans; [by eexists _, _|]. destruct (closed l); [apply end_same|reflexivity].
Qed.

Lemma Close_calls w : I w → I (set_log w (Close (log w))) ∧ calls w (set_log w (Close (log w))).
Proof.
  intros HI. destruct (Close_same (log w)) as (l & Hs & El).
  assert (I (set_log w l) ∧ calls w (set_log w l)) as [HIl Hcl].
  { destruct HI. subst l. split; [split; try done; simpl; intros; done|]. pose proof (calls_refl w) as []. split; try done. }
  destruct (calls_same (set_log w l) (Close (log w)) Hs HIl) as [HI2 Hc2]. split; [done|]. by eapply calls_trans.
Qed.

Lemma do_call_ok c w : I w → I (do_call c w) ∧ calls w (do_call c w).
Proof.
  intros HI. destruct c as [stamp now e|i f limit|i|i|]; cbn [do_call].
  - set (e' := stamped stamp e). pose proof (recorded_I now e' w HI) as HI1. pose proof (recorded_calls now e' w HI) as Hc1.
    destruct (Record_queued now e' (log w)) as (v & m & E). rewrite E.
    destruct (calls_same (with_event e' (queued now e' (log w)) w) (set_subscriptions (queued now e' (log w)) v m)) as [HI2 Hc2];
      [by eexists _, _|done|].
    split; [exact HI2|]. eapply calls_trans; [exact Hc1|exact Hc2].
  - destruct (decide _); [|split; [done|apply calls_refl]]. destruct (Subscribe i f limit (log w)) as [given l] eqn:E.
    destruct (calls_same w l) as [HI1 Hc1]; [|done|].
    { pose proof (Subscribe_same i f limit (log w)) as Hs. by rewrite E in Hs. }
    destruct (calls_journal (set_log w l) (<[i := (given, length (past w), [])]> (journal w)) HI1) as [HI2 Hc2].
    split; [exact HI2|]. eapply calls_trans; [exact Hc1|exact Hc2].
  - apply calls_same; [apply end_same|done].
  - destruct (receive i (log w)) as [[e l]|] eqn:E; [|split; [done|apply calls_refl]].
    destruct (calls_same w l) as [HI1 Hc1]; [by eapply receive_same|done|].
    destruct (calls_journal (set_log w l) (alter (λ '(given, from, got), (given, from, got ++ [e])) i (journal w)) HI1) as [HI2 Hc2].
    split; [exact HI2|]. eapply calls_trans; [exact Hc1|exact Hc2].
  - by apply Close_calls.
Qed.

Lemma take_next_ok f p rest w :
  I w → at_rest f w → writes (log w) = p :: rest → I (take_next p rest w) ∧ about_to f p (take_next p rest w).
Proof.
  intros HI [Hh _] Hq. pose proof (ok_queued w HI p) as Hp. rewrite Hq in Hp.
  destruct Hp as [[Ht Ha] Hp]; [left|]. pose proof (ok_sorted w HI) as Hs. rewrite Hq in Hs.
  apply StronglySorted_inv in Hs as [Hs Hlt]. rewrite Forall_forall in Hlt. split.
  - destruct HI as [H1 H2 H3 H4 H5 H6 H7 H8 H9 H10 H11]. split; simpl; try done.
    + intros q Hq'. destruct (H3 q) as [? ?]; [rewrite Hq; by right|]. specialize (Hlt q Hq'). simpl in Hlt. split; [lia|done].
    + intros n Hn Htn. destruct (H5 n Hn) as (q & Hin & <-); [lia|]. rewrite Hq in Hin.
      apply elem_of_cons in Hin as [->|Hin]; [lia|eauto].
  - exists (compactedThrough f `max` taken w). pose proof (ok_accepted w HI).
    split_and!; [lia| |done|done|simpl; lia..|].
    + destruct Hh. by split.
    + destruct (Nat.ltb_spec (compactedThrough f) (number p)); [|lia]. split; [lia|]. simpl. intros Hd.
      destruct (decide (number p = S (compactedThrough f `max` taken w))) as [|Hne]; [done|exfalso].
      destruct (ok_all w HI (S (compactedThrough f `max` taken w))) as (q & Hin & En); [lia..|].
      rewrite Hq in Hin. apply elem_of_cons in Hin as [->|Hin]; [lia|]. specialize (Hlt q Hin). simpl in Hlt. lia.
Qed.

(** *** Opening *)

(** A log in which nothing was recorded, over a file that holds all of the past
    from some event on. *)
Record down (w : World) : Prop := {
  down_writes : writes (log w) = [];
  down_recorded : recorded (log w) = 0;
  down_dropped : droppedThrough (log w) = 0;
  down_late : recordedAfterClose (log w) = false;
  down_events : events (log w) `suffix_of` past w;
  down_disk : on_disk w `suffix_of` past w;
  down_taken : taken w = 0;
  down_accepted : accepted w = 0;
  down_told : subscriptions (log w) = ∅ ∧ made (log w) = ∅;
}.

Lemma down_I w : down w → I w.
Proof.
  intros []. split; rewrite ?down_writes0, ?down_recorded0, ?down_dropped0, ?down_taken0, ?down_accepted0; auto; try lia.
  - by intros p ?%elem_of_nil.
  - constructor.
  - destruct down_disk0 as [k ->]. by apply sublist_inserts_l.
Qed.

Lemma down_file w d : down w → readable d `suffix_of` past w → down (set_file w d).
Proof. intros []. by split. Qed.

Lemma down_set_events w es : down w → es `suffix_of` past w → down (set_log w (set_events (log w) es)).
Proof. intros []. by split. Qed.

Lemma down_newLog cfg w : down w → down (set_log w (newLog cfg)).
Proof. intros []. split; try done. apply suffix_nil. Qed.

Lemma run_load w Q :
  down w → events (log w) = [] → (∀ r w', down w' → Q r ∅ w') → run load ∅ w Q.
Proof.
  intros Hd He HQ. intros failed. cbn. destruct (file w) as [d|] eqn:Ef; [|by apply HQ]. destruct failed as [e|]; [by apply HQ|].
  cbn. apply HQ, down_set_events; [done|]. rewrite He. simpl. pose proof (down_disk w Hd) as Hs. unfold on_disk in Hs. by rewrite Ef in Hs.
Qed.

Lemma run_open cfg w :
  down w → run (open_ cfg) ∅ w (λ r _ w', match r with Ok f => at_rest f w' | Err _ => True end ∧ down w').
Proof.
  intros Hd. apply run_bind. cbn [run atomically modify fst snd]. apply (down_newLog cfg) in Hd. set (w1 := set_log w _) in *.
  assert (events (log w1) = []) as He by done. clearbody w1. apply run_bind. intros failed. cbn [run]. destruct failed; [done|].
  apply run_bind, run_load; [done..|]. clear w1 Hd He. intros failed w1 Hd. destruct failed; [done|]. intros now. cbn.
  apply (down_set_events _ (trimmed (maxCount (log w1)) (maxAge (log w1)) (Z.of_N now) (events (log w1)))) in Hd; cycle 1.
  { etrans; [apply trimmed_suffix|apply Hd]. }
  change (set_log w1 _) with (set_log w1 (trim (Z.of_N now) (log w1))) in Hd. set (w2 := set_log w1 (trim _ _)) in *.
  change (trimmed _ _ _ _) with (events (log w2)). change (recorded (log w1)) with (recorded (log w2)).
  clearbody w2. intros encoded. destruct encoded; [done|]. intros failed. destruct failed; [done|].
  cbn. apply (down_file _ (replaced (events (log w2)))) in Hd as Hd3; [|rewrite readable_replaced; apply Hd].
  set (w3 := set_file w2 _) in *. intros opened. destruct opened; [done|]. cbn. pose proof (down_I _ Hd3) as HI. split; [|done].
  pose proof (kept_complete w3 HI) as Hk. destruct Hd3. split; [|intros _; split; [done|left; change (log w3) with (log w2) in *; simpl; lia]].
  change (taken w2) with (taken w3). cbn [compactedThrough]. rewrite down_taken0, Nat.max_0_r. split; simpl; [done|done|by apply ok_recorded in HI|].
  intros _. exists (events (log w2)). split_and!; [done| |by intros]. by apply complete_sublist in Hk.
Qed.

(** *** Every state that is reached *)

Definition inv (c : World * writer) : Prop :=
  let '(w, t) := c in
  I w ∧
  match t with
  | Down => down w
  | Waiting f => at_rest f w
  | Writing p => wpl p w at_rest
  | Finishing p => wpl p w closes_well
  | Stopped e => closes_well e w
  end.

Lemma wpl_calls {A} (p : M A) w w' (Q : A → World → Prop) : calls w w' → wpl p w Q → wpl p w' Q.
Proof. intros Hc. apply wp_rely; [apply _|]. by intros _. Qed.

Lemma wpl_atomic {A B} (f : World → B * World) k w (Q : A → World → Prop) :
  I w → wpl (Atomic _ B f k) w Q → I (f w).2 ∧ wpl (k (f w).1) (f w).2 Q.
Proof. intros HI Hp. destruct (Hp w) as (_ & ? & ?); [by intros _; apply calls_refl|done|done]. Qed.

Lemma wpl_asked {A} q k a w (Q : A → World → Prop) : I w → wpl (Ask _ q k) w Q → wpl (k a) w Q.
Proof. intros HI Hp. apply Hp; [by intros _; apply calls_refl|done]. Qed.

Lemma wpl_done {A} (a : A) w (Q : A → World → Prop) : I w → wpl (Ret _ a) w Q → Q a w.
Proof. intros HI Hp. by apply (Hp w); [intros _; apply calls_refl|]. Qed.

Lemma crash_down torn w : down (after_crash torn w).
Proof. split; try done. simpl. apply suffix_nil. Qed.

Lemma step_inv cfg c c' : inv c → step cfg c c' → inv c'.
Proof.
  intros Hinv Hstep. destruct Hstep as [world w r w' n He|c w t Ho|w f p rest Hq|w B f k|w q k a|w f|w f Hq Hc|w B f k|w q k a|w e|torn w t];
    destruct Hinv as [HI Ht].
  - destruct (run_exec world _ 0 _ _ _ (run_open cfg w Ht)) as (r' & w'' & n' & L & E & HQ). rewrite He in E. injection E as <- <- <-.
    destruct HQ as [Hr Hd]. split; [by apply down_I|]. by destruct r.
  - destruct (do_call_ok c w HI) as [HI' Hc]. split; [done|]. destruct t as [|f|p|p|e]; [done|..].
    + by eapply calls_at_rest.
    + by eapply wpl_calls.
    + by eapply wpl_calls.
    + by eapply calls_closes_well.
  - destruct (take_next_ok f p rest w HI Ht Hq) as [HI' Ha]. split; [done|]. by apply wpl_write_one.
  - by apply wpl_atomic in Ht.
  - split; [done|]. by apply wpl_asked.
  - split; [done|]. by apply wpl_done in Ht.
  - split; [done|]. apply wpl_finish; [apply Ht|done].
  - by apply wpl_atomic in Ht.
  - split; [done|]. by apply wpl_asked.
  - split; [done|]. by apply wpl_done in Ht.
  - pose proof (crash_down torn w). split; [by apply down_I|done].
Qed.

Lemma reaches_inv cfg w t : reaches cfg w t → inv (w, t).
Proof.
  intros [f Hr]. assert (inv (first_world cfg f, Down)) as H0.
  { assert (down (first_world cfg f)) as Hd by (split; try done; apply suffix_nil). split; [by apply down_I|done]. }
  revert Hr H0. generalize (first_world cfg f, Down). generalize (w, t). intros c' c Hr H0.
  induction Hr as [|c1 c2 c3 H12 _ IH]; [done|]. apply IH. by eapply step_inv.
Qed.

(** A complete file holds at its end what memory holds. *)
Lemma complete_suffix es w :
  I w → complete es (recorded (log w)) w → events (log w) `suffix_of` es.
Proof.
  intros HI (k & Hk & _ & ->). assert (through w (recorded (log w)) = past w) as ->.
  { unfold through, loaded. rewrite take_ge; [done|]. pose proof (ok_recorded w HI). lia. }
  destruct (ok_events w HI) as [pre E]. unfold start in Hk. rewrite E, length_app in Hk. rewrite E.
  rewrite drop_app_le by lia. by exists (drop k pre).
Qed.

(** The writer has nothing left to do: it waits with nothing to write, and no
    compaction has failed; or it has stopped, without an error. *)
Definition settled (t : writer) (w : World) : Prop :=
  match t with
  | Waiting f => writes (log w) = [] ∧ retryAt f = 0%Z
  | Stopped closeErr => closeErr = None
  | _ => False
  end.

(** C10: the file is true to the log. Whatever fails, and whenever the daemon
    dies, what is read back from it are events that were recorded, in the
    order they were, and none of them twice. Once the writer waits with nothing
    left to write, or has stopped without an error, all that memory keeps is at
    the end of the file: even if events came faster than they were written and
    were dropped, or writing some of them failed. Of events recorded after
    [Close], nothing is promised. *)
Theorem file_is_true_to_the_log cfg w t :
  reaches cfg w t →
  (on_disk w `sublist_of` past w) ∧
  (settled t w → recordedAfterClose (log w) = false → events (log w) `suffix_of` on_disk w).
Proof.
  intros [HI Ht]%reaches_inv. split; [apply HI|]. intros Hrest Hlate. assert (file_complete w) as (m & Hm & _ & Hk).
  { destruct t as [|f|p|p|e]; [done| |done|done|by apply Ht]. destruct Hrest as [Hq Hz], Ht as [Hd Hu].
    destruct (Hu Hz) as [Ho [Hle|Hne]]; [by eapply drained_complete|done]. }
  rewrite (ok_open w HI Hlate) in Hm. replace m with (recorded (log w)) in Hk by lia. by apply complete_suffix.
Qed.

(** ** What subscribers are told *)

(** A subscription, and whether it is among the log's. *)
Definition view (l : Log) (i : nat) : option Subscription * bool := (made l !! i, bool_decide (i ∈ subscriptions l)).

Definition ended_view (e : option subscriptionError) (v : option Subscription * bool) : option Subscription * bool :=
  if v.2 then ((λ s, mkSubscription (filter s) (waiting s) true e) <$> v.1, false) else v.

Definition told_view (e : Event) (v : option Subscription * bool) : option Subscription * bool :=
  match v.1 with
  | Some s =>
      if Matches (filter s) e then
        if (Z.of_nat (length (waiting s)) <? subscriptionBuffer)%Z
        then (Some (mkSubscription (filter s) (waiting s ++ [e]) (ended s) (err s)), v.2)
        else ended_view (Some ErrFellBehind) v
      else v
  | None => v
  end.

Lemma view_end i j e l : view (end_ i e l) j = if decide (i = j) then ended_view e (view l j) else view l j.
Proof.
  unfold end_, view, ended_view. destruct (decide (i = j)) as [<-|Hne]; cbn.
  - destruct (decide (i ∈ subscriptions l)) as [Hi|Hi]; [rewrite (bool_decide_true (i ∈ subscriptions l)) by done|by rewrite bool_decide_false].
    cbn. rewrite lookup_alter_eq, bool_decide_false; [done|set_solver].
  - destruct (decide (i ∈ subscriptions l)); [|done]. cbn. rewrite lookup_alter_ne by done. f_equal.
    apply bool_decide_ext. set_solver.
Qed.

Lemma view_told i j e l :
  view (match made l !! i with Some s => if Matches (filter s) e then send i e l else l | None => l end) j =
  if decide (i = j) then told_view e (view l j) else view l j.
Proof.
  unfold send, told_view. destruct (made l !! i) as [s|] eqn:E; [|destruct (decide _) as [<-|]; [|done]; cbn; by rewrite E].
  destruct (decide (i = j)) as [<-|Hne]; cbn; [rewrite E|].
  - destruct (Matches _ _); [|unfold view; by rewrite E]. destruct (_ <? _)%Z.
    + unfold view. cbn. by rewrite lookup_insert_eq.
    + rewrite view_end, decide_True by done. unfold view. by rewrite E.
  - destruct (Matches _ _); [|done]. destruct (_ <? _)%Z; [|by rewrite view_end, decide_False].
    unfold view. cbn. by rewrite lookup_insert_ne.
Qed.

(** Each of some subscriptions is treated alike. *)
Lemma view_foldl (g : Log → nat → Log) (h : option Subscription * bool → option Subscription * bool) ids l i :
  (∀ l i j, view (g l i) j = if decide (i = j) then h (view l j) else view l j) → NoDup ids →
  view (foldl g l ids) i = if decide (i ∈ ids) then h (view l i) else view l i.
Proof.
  intros Hg Hnd. revert l. induction Hnd as [|j ids Hj Hnd IH]; intros l; simpl; [done|]. rewrite IH, Hg.
  destruct (decide (j = i)) as [->|Hne].
  - rewrite decide_False by done. rewrite decide_True by set_solver. done.
  - destruct (decide (i ∈ ids)); [rewrite decide_True by set_solver|rewrite decide_False by set_solver]; done.
Qed.

Lemma view_send_all e l i : view (send_all e l) i = if (view l i).2 then told_view e (view l i) else view l i.
Proof.
  unfold send_all. rewrite (view_foldl _ (told_view e)); [|intros; apply view_told|apply NoDup_elements].
  unfold view at 3. cbn. destruct (decide (i ∈ elements _)) as [H|H]; rewrite elem_of_elements in H;
    [by rewrite bool_decide_true|by rewrite bool_decide_false].
Qed.

Lemma view_Close l i : closed l = false → view (Close l) i = ended_view None (view l i).
Proof.
  intros Hc. unfold Close. rewrite Hc. rewrite (view_foldl _ (ended_view None)); [|intros; apply view_end|apply NoDup_elements].
  unfold ended_view, view. cbn. destruct (decide (i ∈ elements _)) as [H|H]; rewrite elem_of_elements in H;
    [by rewrite bool_decide_true|by rewrite bool_decide_false].
Qed.

(** A subscription's channel holds what was recorded after it was made and has
    not been read; or, once it has ended, as far as it got. *)
Definition good_view (past : list Event) (v : option Subscription * bool) (j : option (list Event * nat * list Event)) : Prop :=
  match v.1 with
  | None => v.2 = false
  | Some s =>
      v.2 = negb (ended s) ∧
      ∃ given from got before missed, j = Some (given, from, got) ∧
        List.filter (Matches (filter s)) past = before ++ given ++ got ++ waiting s ++ missed ∧ (ended s = false → missed = [])
  end.

Definition J (w : World) : Prop := ∀ i, good_view (past w) (view (log w) i) (journal w !! i).

Lemma good_ended past v j e : good_view past v j → good_view past (ended_view e v) j.
Proof.
  unfold good_view, ended_view. destruct v as [[s|] []]; cbn; [|done..]. intros (_ & given & from & got & before & missed & -> & E & _).
  split; [done|]. exists given, from, got, before, missed. done.
Qed.

Lemma good_recorded past v j e :
  good_view past v j → good_view (past ++ [e]) (if v.2 then told_view e v else v) j.
Proof.
  unfold good_view, told_view, ended_view. destruct v as [[s|] b]; cbn; [|by intros ->].
  intros (-> & given & from & got & before & missed & Ej & E & Hm).
  destruct (ended s) eqn:Hs; cbn.
  - rewrite Hs. split; [done|]. exists given, from, got, before, (missed ++ List.filter (Matches (filter s)) [e]).
    split; [done|]. split; [|done]. by rewrite List.filter_app, E, <-!app_assoc.
  - specialize (Hm eq_refl) as ->. rewrite app_nil_r in E. destruct (Matches (filter s) e) eqn:HM; cbn; cycle 1.
    { rewrite Hs. split; [done|]. exists given, from, got, before, []. rewrite List.filter_app, E. cbn. rewrite HM, !app_nil_r. done. }
    destruct (_ <? _)%Z; cbn.
    + rewrite ?Hs. split; [done|]. exists given, from, got, before, []. rewrite List.filter_app, E. cbn. rewrite HM, !app_nil_r.
      split_and!; [done| |done]. by rewrite <-!app_assoc.
    + split; [done|]. exists given, from, got, before, [e]. rewrite List.filter_app, E. cbn. rewrite HM, <-!app_assoc. done.
Qed.

Lemma list_suffix f limit l : list_ f limit l `suffix_of` List.filter (Matches f) (events l).
Proof. unfold list_. destruct (_ && _); [apply suffix_drop|done]. Qed.

Lemma J_subscribe i f limit w : I w → J w → J (do_call (CallSubscribe i f limit) w).
Proof.
  intros HI HJ k. cbn [do_call]. destruct (decide _) as [Hn|]; [|apply HJ]. unfold Subscribe. cbv zeta.
  set (l := set_subscriptions _ _ _). set (l' := if closed l then _ else _). cbn.
  assert (list_ f limit l' = list_ f limit (log w)) as ->.
  { unfold l'. destruct (closed l); [|done]. destruct (end_same i None l) as (v & m & ->). done. }
  assert (view l k = if decide (i = k) then (Some (mkSubscription f [] false None), true) else view (log w) k) as Hv.
  { unfold view, l. cbn. destruct (decide (i = k)) as [<-|]; [rewrite lookup_insert_eq, bool_decide_true by set_solver; done|].
    rewrite lookup_insert_ne by done. f_equal. apply bool_decide_ext. set_solver. }
  assert (good_view (past w) (view l k) (<[i := (list_ f limit (log w), length (past w), [])]> (journal w) !! k)) as Hg.
  { rewrite Hv. destruct (decide (i = k)) as [<-|]; [|rewrite lookup_insert_ne by done; apply HJ]. rewrite lookup_insert_eq.
    split; [done|]. destruct (ok_events w HI) as [pre E]. destruct (list_suffix f limit (log w)) as [pre' E'].
    eexists _, _, _, (List.filter (Matches f) pre ++ pre'), []. split; [done|]. split; [|done]. cbn.
    by rewrite E, List.filter_app, E', app_nil_r, app_assoc. }
  unfold l'. destruct (closed l); [|done]. rewrite view_end. destruct (decide (i = k)); [by apply good_ended|done].
Qed.

Lemma J_receive i w : J w → J (do_call (CallReceive i) w).
Proof.
  intros HJ k. cbn [do_call]. unfold receive. specialize (HJ k). destruct (made (log w) !! i) as [[f [|e es] d r]|] eqn:E; [done| |done].
  cbn. unfold view in *. cbn. destruct (decide (i = k)) as [<-|Hne]; [|by rewrite lookup_insert_ne, lookup_alter_ne].
  rewrite lookup_insert_eq, lookup_alter_eq. rewrite E in HJ.
  destruct HJ as (Hb & given & from & got & before & missed & Ej & Ef & Hm). cbn in *. split; [done|]. rewrite Ej. cbn.
  eexists given, from, (got ++ [e]), before, missed. split; [done|]. split; [|done]. by rewrite Ef, <-!app_assoc.
Qed.

Lemma J_call c w : I w → J w → J (do_call c w).
Proof.
  intros HI HJ. destruct c as [stamp now e|i f limit|i|i|]; [|by apply J_subscribe| |by apply J_receive|]; intros k; specialize (HJ k).
  - cbn [do_call]. unfold Record_. set (e' := stamped stamp e). destruct (queue _ _) as [warning l] eqn:Eq. cbn.
    rewrite view_send_all. assert (view l k = view (log w) k) as ->; [|by apply good_recorded].
    unfold queue in Eq. destruct (closed _); [by injection Eq as <- <-|]. destruct (_ <? _)%Z; by injection Eq as <- <-.
  - cbn. unfold Unsubscribe. rewrite view_end. destruct (decide (i = k)); [by apply good_ended|done].
  - cbn. destruct (closed (log w)) eqn:Hc; [unfold Close; by rewrite Hc|]. rewrite view_Close by done. by apply good_ended.
Qed.

(** The writer tells nobody anything. *)
Fixpoint blind {A} (p : M A) : Prop :=
  match p with
  | Ret _ _ => True
  | Atomic _ _ f k => ∀ w, (log (f w).2 = log w ∧ past (f w).2 = past w ∧ journal (f w).2 = journal w) ∧ blind (k (f w).1)
  | Ask _ q k => ∀ a, blind (k a)
  | _ => False
  end.

Lemma blind_bind {A B} (p : M A) (k : A → M B) : blind p → (∀ a, blind (k a)) → blind (p ≫= k).
Proof.
  intros Hp Hk. induction p as [a|C f k' IH|q k' IH|l k' IH|l k' IH]; [apply Hk| | |done|done].
  - intros w. destruct (Hp w). split; [done|]. by apply IH.
  - intros a. by apply IH.
Qed.

(** A program is blind if its parts are. *)
Ltac blind :=
  repeat first
    [ done
    | progress intros
    | match goal with
      | |- blind (_ ≫= _) => apply blind_bind
      | |- blind (if _ then _ else _) => case_match
      | |- blind (match _ with _ => _ end) => case_match
      | |- _ ∧ _ => split
      end ].

Lemma blind_on_file g : blind (modify (on_file g)).
Proof. intros w. unfold on_file. cbn. by destruct (file w). Qed.

Lemma blind_compact f : blind (compact f).
Proof. unfold compact. blind. Qed.

Lemma blind_tryCompact f : blind (tryCompact f).
Proof. pose proof blind_compact. unfold tryCompact. blind; auto. Qed.

Lemma blind_write_one f p : blind (write_one f p).
Proof.
  pose proof blind_on_file. pose proof blind_tryCompact. unfold write_one, writeEvent, discard. blind; auto.
Qed.

Lemma blind_finish f : blind (finish f).
Proof. pose proof blind_compact. unfold finish. blind; auto. Qed.

Definition told (c : World * writer) : Prop :=
  J c.1 ∧ match c.2 with Writing p => blind p | Finishing p => blind p | _ => True end.

Lemma down_J w : down w → J w.
Proof. intros Hd i. destruct (down_told w Hd) as [E1 E2]. unfold view, good_view. by rewrite E1, E2. Qed.

Lemma J_same w w' : log w' = log w → past w' = past w → journal w' = journal w → J w → J w'.
Proof. intros E1 E2 E3 HJ i. rewrite E1, E2, E3. apply HJ. Qed.

Lemma step_told cfg c c' : inv c → told c → step cfg c c' → told c'.
Proof.
  intros Hinv [HJ Hb] Hstep. destruct Hstep as [world w r w' n He|c w t Ho|w f p rest Hq|w B f k|w q k a|w f|w f Hq Hc|w B f k|w q k a|w e|torn w t];
    destruct Hinv as [HI Ht]; cbn [fst snd] in *.
  - destruct (run_exec world _ 0 _ _ _ (run_open cfg w Ht)) as (r' & w'' & n' & L & E & HQ). rewrite He in E. injection E as <- <- <-.
    destruct HQ as [_ Hd]. split; [by apply down_J|]. by destruct r.
  - split; [by apply J_call|done].
  - split; [intros i; apply (HJ i)|apply blind_write_one].
  - destruct (Hb w) as [(E1 & E2 & E3) Hk]. split; [by apply (J_same w)|done].
  - split; [done|]. first [done|apply Hb].
  - split; [done|]. first [done|apply Hb].
  - split; [done|apply blind_finish].
  - destruct (Hb w) as [(E1 & E2 & E3) Hk]. split; [by apply (J_same w)|done].
  - split; [done|]. first [done|apply Hb].
  - split; [done|]. first [done|apply Hb].
  - split; [apply down_J, crash_down|done].
Qed.

Lemma reaches_told cfg w t : reaches cfg w t → told (w, t).
Proof.
  intros [f Hr]. assert (down (first_world cfg f)) as Hd by (split; try done; apply suffix_nil).
  assert (inv (first_world cfg f, Down) ∧ told (first_world cfg f, Down)) as H0.
  { split; [split; [by apply down_I|done]|split; [by apply down_J|done]]. }
  revert Hr H0. generalize (first_world cfg f, Down). generalize (w, t). intros c' c Hr H0.
  induction Hr as [|c1 c2 c3 H12 _ IH]; [by destruct H0|]. destruct H0. apply IH.
  split; [by eapply step_inv|by eapply step_told].
Qed.

(** C11: a subscriber misses nothing and is told nothing twice. Of the events
    that its filter picks, those it was given when it subscribed, those it has
    read since and those that wait for it follow each other without a gap, in
    the order they were recorded; and unless its subscription has ended, they
    are the last there are. *)
Theorem subscriptions_have_no_gap cfg w t i s given from got :
  reaches cfg w t → made (log w) !! i = Some s → journal w !! i = Some (given, from, got) →
  ∃ before missed,
    List.filter (Matches (filter s)) (past w) = before ++ given ++ got ++ waiting s ++ missed ∧
    (ended s = false → missed = []).
Proof.
  intros [HJ _]%reaches_told Hs Hj. specialize (HJ i). unfold good_view, view in HJ. cbn in HJ. rewrite Hs, Hj in HJ.
  destruct HJ as (_ & given' & from' & got' & before & missed & [= <- <- <-] & E & Hm). by exists before, missed.
Qed.

(** ** Examples *)

(** The writer's next step, with these answers. *)
Definition advance (cfg : Config) (world : ∀ q, nat → answer q) (c : World * writer) : World * writer :=
  match c with
  | (w, Down) => if exec world (open_ cfg) 0 ∅ w is Some (r, w', _) then (w', if r is Ok f then Waiting f else Down) else c
  | (w, Waiting f) =>
      match writes (log w) with
      | p :: rest => (take_next p rest w, Writing (write_one f p))
      | [] => if closed (log w) then (w, Finishing (finish f)) else c
      end
  | (w, Writing p) =>
      match p with
      | Ret _ f => (w, Waiting f)
      | Atomic _ _ f k => ((f w).2, Writing (k (f w).1))
      | Ask _ q k => (w, Writing (k (world q 0)))
      | _ => c
      end
  | (w, Finishing p) =>
      match p with
      | Ret _ e => (w, Stopped e)
      | Atomic _ _ f k => ((f w).2, Finishing (k (f w).1))
      | Ask _ q k => (w, Finishing (k (world q 0)))
      | _ => c
      end
  | (w, Stopped _) => c
  end.

Lemma advance_step cfg world c : rtc (step cfg) c (advance cfg world c).
Proof.
  destruct c as [w [|f|p|p|e]]; simpl.
  - destruct (exec _ _ _ _ _) as [[[r w'] n]|] eqn:E; [apply rtc_once; exact (step_open _ _ _ _ _ _ E)|apply rtc_refl].
  - destruct (writes (log w)) as [|p rest] eqn:E; [|apply rtc_once; by apply step_take].
    destruct (closed (log w)) eqn:Hc; [apply rtc_once; by apply step_drained|apply rtc_refl].
  - destruct p; first [apply rtc_refl|apply rtc_once; constructor].
  - destruct p; first [apply rtc_refl|apply rtc_once; constructor].
  - apply rtc_refl.
Qed.

(** A call, or some steps of the writer. *)
Inductive move := Do (c : call) | Go (steps : nat).

Definition play_one (cfg : Config) (world : ∀ q, nat → answer q) (c : World * writer) (m : move) : World * writer :=
  match m with
  | Do a => if opened c.2 then (do_call a c.1, c.2) else c
  | Go n => Nat.iter n (advance cfg world) c
  end.

Definition play (cfg : Config) (world : ∀ q, nat → answer q) (moves : list move) (c : World * writer) : World * writer :=
  foldl (play_one cfg world) c moves.

Lemma play_reached cfg world moves f c :
  c = play cfg world moves (first_world cfg f, Down) → reaches cfg c.1 c.2.
Proof.
  intros ->. exists f. rewrite <-surjective_pairing. generalize (first_world cfg f, Down). unfold play.
  induction moves as [|m moves IH]; intros c; [apply rtc_refl|]. simpl. etrans; [|apply IH]. destruct m as [a|n]; simpl.
  - destruct c as [w' t']. simpl. destruct (opened t') eqn:Ho; [apply rtc_once; by apply step_call|apply rtc_refl].
  - induction n as [|n IHn]; [apply rtc_refl|]. simpl. etrans; [exact IHn|apply advance_step].
Qed.

Definition example_cfg : Config := mkConfig 2 0.

(** A write fails, and leaves part of a line. *)
Definition example_world (write : option (error * leftover)) (q : query) (n : nat) : answer q :=
  match q with
  | QNow => 5%N
  | QWrite => write
  | _ => None
  end.

Definition example_event (name : string) : Event := mkEvent 0 "instance" "i1" name "started" "" ∅.

(** Three events are recorded and seen by a subscriber; the first cannot be
    written; the log is closed. *)
Definition example_moves : list move :=
  [ Go 1; Do (CallSubscribe 0 (mkFilter "" "" [] 0) 0); Do (CallRecord 1 1 (example_event "a")); Go 2;
    Do (CallRecord 2 2 (example_event "b")); Go 7; Do (CallReceive 0); Do (CallRecord 3 3 (example_event "c"));
    Do CallClose; Go 40 ].

Definition example_end : World * writer :=
  play example_cfg (example_world (Some (New "disk full", LeftPart))) example_moves (first_world example_cfg None, Down).

Lemma example_reached : reaches example_cfg example_end.1 example_end.2.
Proof.
  apply (play_reached example_cfg (example_world (Some (New "disk full", LeftPart))) example_moves None). reflexivity.
Qed.

Lemma example_settled : settled example_end.2 example_end.1 ∧ recordedAfterClose (log example_end.1) = false.
Proof. vm_compute. done. Qed.

Lemma file_is_true_to_the_log_witness : events (log example_end.1) `suffix_of` on_disk example_end.1.
Proof.
  generalize example_reached, example_settled. generalize example_end. intros c Hr [Hs Hl].
  by apply (file_is_true_to_the_log example_cfg c.1 c.2 Hr).
Defined.

Lemma example_subscription :
  ∃ s got, made (log example_end.1) !! 0 = Some s ∧ journal example_end.1 !! 0 = Some ([], 0, got) ∧ length got = 1.
Proof. vm_compute. eexists _, _. split_and!; reflexivity. Qed.

Lemma subscriptions_have_no_gap_witness :
  ∃ s got before missed, made (log example_end.1) !! 0 = Some s ∧ length got = 1 ∧
    List.filter (Matches (filter s)) (past example_end.1) = before ++ [] ++ got ++ waiting s ++ missed.
Proof.
  generalize example_reached, example_subscription. generalize example_end. intros c Hr (s & got & Hs & Hj & Hg).
  destruct (subscriptions_have_no_gap example_cfg c.1 c.2 0 s [] 0 got Hr Hs Hj) as (before & missed & E & _).
  by exists s, got, before, missed.
Defined.

End EventLog.
