(* ===== verification/Interpolate.v ===== *)
(** * Variables in compose files

    [interpolate.go] and [env_file.go] of [internal/compose]: the replacement of
    variables in a compose file, and the files that variables are read from. *)

From S2P Require Import Prelude Errdefs.

Module Interpolate.

Abbreviation bytes := (list ascii).

(** ** Interpolation *)

(** A variable's value, if it is set ([Lookup]). *)
Abbreviation Lookup := (string → option string).

Definition isNameStart (c : ascii) : bool :=
  bool_decide (c = "_"%char) || Str.in_range "a" "z" c || Str.in_range "A" "Z" c.

Definition isNameCharacter (c : ascii) : bool := isNameStart c || Str.in_range "0" "9" c.

(** The name that a string starts with, and what follows. *)
Fixpoint span_name (l : bytes) : bytes * bytes :=
  match l with
  | c :: l' => if isNameCharacter c then let '(name, rest) := span_name l' in (c :: name, rest) else ([], l)
  | [] => ([], [])
  end.

(** [closingBrace], as what is before the brace and what is after it. *)
Fixpoint closingBrace (depth : nat) (l : bytes) : option (bytes * bytes) :=
  match l with
  | [] => None
  | c :: l' =>
      match bool_decide (c = "$"%char), l' with
      | true, b :: l'' =>
          if bool_decide (b = "{"%char) then prod_map (λ body, c :: b :: body) id <$> closingBrace (S depth) l''
          else prod_map (cons c) id <$> closingBrace depth l'
      | _, _ =>
          if bool_decide (c = "}"%char) then
            match depth with
            | S (S depth) => prod_map (cons c) id <$> closingBrace (S depth) l'
            | _ => Some ([], l')
            end
          else prod_map (cons c) id <$> closingBrace depth l'
      end
  end.

Definition errUnclosed : error := New "invalid interpolation %q: no closing }".
Definition errNoName : error := New "invalid interpolation ${%s}: want a variable name".
Definition errNoOperator : error := New "invalid interpolation ${%s}".
Definition errOperator : error := New "invalid interpolation ${%s}: want :-, -, :?, ?, :+ or + after the name".

(** The message, which the text of the error holds. *)
Definition errRequired (name msg : string) : error := New ("required variable " +:+ name +:+ ": " +:+ msg).

Section Interpolate.

Context (lookup : Lookup).

(** [None] is running out of fuel. *)
Abbreviation outcome := (option (result bytes)).

Definition bind_ok (r : outcome) (k : bytes → outcome) : outcome :=
  match r with Some (Ok v) => k v | _ => r end.

(** [expand], which interpolates the argument. *)
Definition expand (interpolate : bytes → outcome) (body : bytes) : outcome :=
  let '(name, rest) := span_name body in
  match name with
  | [] => Some (Err errNoName)
  | c :: _ =>
      if negb (isNameStart c) then Some (Err errNoName)
      else
        let set := lookup (Str.of_list name) in
        let value := Str.to_list (default "" set) in
        match rest with
        | [] => Some (Ok value)
        | d :: rest' =>
            let emptyCounts := bool_decide (d = ":"%char) in
            match (if emptyCounts then rest' else rest) with
            | [] => Some (Err errNoOperator)
            | op :: arg =>
                let present := bool_decide (is_Some set) && (negb emptyCounts || negb (bool_decide (value = []))) in
                if bool_decide (op = "-"%char) then if present then Some (Ok value) else interpolate arg
                else if bool_decide (op = "?"%char) then
                  if present then Some (Ok value)
                  else
                    bind_ok (interpolate arg) (λ msg,
                      Some (Err (errRequired (Str.of_list name)
                        (if bool_decide (msg = []) then "it is not set" else Str.of_list msg))))
                else if bool_decide (op = "+"%char) then if present then interpolate arg else Some (Ok [])
                else Some (Err errOperator)
            end
        end
  end.

(** The loop of [interpolate]: each round takes at least one byte. *)
Fixpoint interpolate_fuel (fuel : nat) (l : bytes) : outcome :=
  match fuel with
  | 0 => None
  | S fuel =>
      match l with
      | [] => Some (Ok [])
      | c :: l' =>
          if negb (bool_decide (c = "$"%char)) then bind_ok (interpolate_fuel fuel l') (λ out, Some (Ok (c :: out)))
          else
            match l' with
            | [] => Some (Ok [c])
            | next :: l'' =>
                if bool_decide (next = "$"%char) then bind_ok (interpolate_fuel fuel l'') (λ out, Some (Ok (c :: out)))
                else if bool_decide (next = "{"%char) then
                  match closingBrace 1 l'' with
                  | None => Some (Err errUnclosed)
                  | Some (body, rest) =>
                      bind_ok (expand (interpolate_fuel fuel) body) (λ value,
                      bind_ok (interpolate_fuel fuel rest) (λ out, Some (Ok (value ++ out))))
                  end
                else if isNameStart next then
                  let '(name, rest) := span_name l' in
                  bind_ok (interpolate_fuel fuel rest) (λ out,
                    Some (Ok (Str.to_list (default "" (lookup (Str.of_list name))) ++ out)))
                else bind_ok (interpolate_fuel fuel l') (λ out, Some (Ok (c :: out)))
            end
      end
  end.

(** As much fuel as there are bytes, which is enough. *)
Definition interpolate (s : string) : result string :=
  match interpolate_fuel (S (Str.len s)) (Str.to_list s) with
  | Some (Ok out) => Ok (Str.of_list out)
  | Some (Err e) => Err e
  | None => Err (New "")
  end.

End Interpolate.

(** ** What a template means *)

Inductive operator := IfUnset | Require | IfSet.

(** The text of a file, as what it is made of: bytes, [$$], a [$] that starts
    nothing, [$name], [${name}], and a name with an operator and its argument, with
    or without a colon. *)
Inductive template :=
  | End
  | Byte (c : ascii) (t : template)
  | Escaped (t : template)
  | Lone (t : template)
  | Plain (name : bytes) (t : template)
  | Braced (name : bytes) (t : template)
  | Operator (name : bytes) (colon : bool) (o : operator) (arg t : template).

Definition operator_byte (o : operator) : ascii :=
  match o with IfUnset => "-" | Require => "?" | IfSet => "+" end.

Fixpoint print (t : template) : bytes :=
  match t with
  | End => []
  | Byte c t => c :: print t
  | Escaped t => "$"%char :: "$"%char :: print t
  | Lone t => "$"%char :: print t
  | Plain name t => "$"%char :: name ++ print t
  | Braced name t => "$"%char :: "{"%char :: name ++ "}"%char :: print t
  | Operator name colon o arg t =>
      "$"%char :: "{"%char :: name ++ (if colon then [":"%char] else []) ++ operator_byte o :: print arg ++ "}"%char :: print t
  end.

Definition good_name (name : bytes) : Prop :=
  (∃ c l, name = c :: l ∧ isNameStart c = true) ∧ Forall (λ c, isNameCharacter c = true) name.

Definition starts (P : ascii → Prop) (l : bytes) : Prop := ∃ c l', l = c :: l' ∧ P c.

(** Texts that are read as they are written. In an argument, a brace is neither
    closed by a byte nor opened after [$$]. *)
Fixpoint good (nested : bool) (t : template) : Prop :=
  match t with
  | End => True
  | Byte c t => c ≠ "$"%char ∧ (nested = true → c ≠ "}"%char) ∧ good nested t
  | Escaped t => (nested = true → ¬ starts (λ c, c = "{"%char) (print t)) ∧ good nested t
  | Lone t => ¬ starts (λ c, c = "$"%char ∨ c = "{"%char ∨ isNameStart c = true) (print t) ∧ good nested t
  | Plain name t => good_name name ∧ ¬ starts (λ c, isNameCharacter c = true) (print t) ∧ good nested t
  | Braced name t => good_name name ∧ good nested t
  | Operator name _ _ arg t => good_name name ∧ good true arg ∧ good nested t
  end.

Section Meaning.

Context (lookup : Lookup).

Definition value_of (name : bytes) : bytes := Str.to_list (default "" (lookup (Str.of_list name))).

(** Set and, where a colon is, not empty. *)
Definition present (name : bytes) (colon : bool) : Prop :=
  match lookup (Str.of_list name) with Some v => colon = true → v ≠ "" | None => False end.

#[global] Instance present_dec name colon : Decision (present name colon).
Proof. unfold present. destruct (lookup _); apply _. Defined.

(** A name with an operator, of what its argument means. *)
Definition operator_value (name : bytes) (colon : bool) (o : operator) (arg : result bytes) : result bytes :=
  match o with
  | IfUnset => if decide (present name colon) then Ok (value_of name) else arg
  | Require =>
      if decide (present name colon) then Ok (value_of name)
      else
        msg ← arg;
        Err (errRequired (Str.of_list name) (if decide (msg = []) then "it is not set" else Str.of_list msg))
  | IfSet => if decide (present name colon) then arg else Ok []
  end.

(** As the comment of [interpolate] says it. *)
Fixpoint meaning (t : template) : result bytes :=
  match t with
  | End => Ok []
  | Byte c t => out ← meaning t; Ok (c :: out)
  | Escaped t | Lone t => out ← meaning t; Ok ("$"%char :: out)
  | Plain name t | Braced name t => out ← meaning t; Ok (value_of name ++ out)
  | Operator name colon o arg t =>
      value ← operator_value name colon o (meaning arg);
      out ← meaning t;
      Ok (value ++ out)
  end.

End Meaning.

(** ** Names and braces *)

Lemma not_starts_app P x l : ¬ starts P x → ¬ starts P l → ¬ starts P (x ++ l).
Proof. intros Hx Hl (c & l' & E & Hc). destruct x as [|c' x]; [by apply Hl; exists c, l'|]. injection E as -> _. apply Hx. by exists c, x. Qed.

Lemma span_name_app name l :
  Forall (λ c, isNameCharacter c = true) name → ¬ starts (λ c, isNameCharacter c = true) l → span_name (name ++ l) = (name, l).
Proof.
  intros Hn Hl. induction Hn as [|c name Hc _ IH]; simpl; [|by rewrite Hc, IH].
  destruct l as [|c l]; [done|]. simpl. destruct (isNameCharacter c) eqn:E; [|done]. destruct Hl. by exists c, l.
Qed.

Lemma name_byte c : isNameCharacter c = true → c ≠ "$"%char ∧ c ≠ "{"%char ∧ c ≠ "}"%char ∧ c ≠ ":"%char.
Proof. intros Hc. split_and!; intros ->; by vm_compute in Hc. Qed.

Lemma operator_not_name o : isNameCharacter (operator_byte o) = false ∧ operator_byte o ≠ "$"%char ∧
  operator_byte o ≠ "}"%char ∧ operator_byte o ≠ ":"%char.
Proof. by destruct o. Qed.

Abbreviation before x := (prod_map (app x) (id : bytes → bytes)).

Lemma before_app (x y : bytes) (r : option (bytes * bytes)) : before x <$> (before y <$> r) = before (x ++ y) <$> r.
Proof. destruct r as [[a b]|]; [|done]. cbn. by rewrite <-(assoc_L (++)). Qed.

(** A byte that is neither a dollar nor a brace. *)
Lemma closing_byte d c l : c ≠ "$"%char → c ≠ "}"%char → closingBrace d (c :: l) = before [c] <$> closingBrace d l.
Proof. intros H1 H2. cbn. by rewrite !bool_decide_false by done. Qed.

Lemma closing_dollar d l : ¬ starts (λ c, c = "{"%char) l → closingBrace d ("$"%char :: l) = before ["$"%char] <$> closingBrace d l.
Proof.
  intros Hl. cbn [closingBrace]. rewrite bool_decide_true by done. destruct l as [|b l]; [done|].
  rewrite bool_decide_false; [done|]. intros ->. destruct Hl. by eexists _, _.
Qed.

Lemma closing_open d l : closingBrace d ("$"%char :: "{"%char :: l) = before ["$"%char; "{"%char] <$> closingBrace (S d) l.
Proof. done. Qed.

Lemma closing_close d l : closingBrace (S (S d)) ("}"%char :: l) = before ["}"%char] <$> closingBrace (S d) l.
Proof. done. Qed.

Lemma closing_bytes d x l :
  Forall (λ c, c ≠ "$"%char ∧ c ≠ "}"%char) x → closingBrace d (x ++ l) = before x <$> closingBrace d l.
Proof.
  induction 1 as [|c x [H1 H2] _ IH]; [cbn [app]; by destruct (closingBrace d l) as [[]|]|].
  change ((c :: x) ++ l) with (c :: (x ++ l)). rewrite closing_byte, IH by done. apply (before_app [c] x).
Qed.

Lemma name_bytes name : good_name name → Forall (λ c, c ≠ "$"%char ∧ c ≠ "}"%char) name.
Proof. intros [_ Hn]. eapply Forall_impl; [exact Hn|]. intros c Hc. by destruct (name_byte c Hc) as (? & ? & ? & ?). Qed.

(** An argument has no brace that closes what is around it. *)
Lemma closing_print t d l :
  good true t → ¬ starts (λ c, c = "{"%char) l → closingBrace (S d) (print t ++ l) = before (print t) <$> closingBrace (S d) l.
Proof.
  intros Ht Hl. revert d l Ht Hl.
  induction t as [|c t IH|t IH|t IH|name t IH|name t IH|name colon o arg IHa t IH]; intros d l Ht Hl; cbn [print app].
  - by destruct (closingBrace (S d) l) as [[]|].
  - destruct Ht as (H1 & H2 & Ht). rewrite closing_byte, IH by auto. apply (before_app [c]).
  - destruct Ht as (H1 & Ht). rewrite closing_dollar; [|by intros (? & ? & [= <- <-] & ?)].
    rewrite closing_dollar, IH, !before_app; [done..|]. apply not_starts_app; auto.
  - destruct Ht as (H1 & Ht). rewrite closing_dollar, IH; [apply (before_app ["$"%char])|done..|].
    apply not_starts_app; [|done]. intros (c & l' & E & ->). apply H1. exists "{"%char, l'. auto.
  - destruct Ht as (Hn & H1 & Ht). rewrite <-(assoc_L (++)). rewrite closing_dollar.
    + rewrite closing_bytes, IH, !before_app by (done || by apply name_bytes). done.
    + destruct Hn as [(c & n & -> & Hc) _]. intros (c' & l' & [= -> _] & ->). by vm_compute in Hc.
  - destruct Ht as (Hn & Ht). rewrite closing_open, <-(assoc_L (++)). cbn [app].
    rewrite closing_bytes, closing_close, IH, !before_app by (done || by apply name_bytes).
    destruct (closingBrace (S d) l) as [[x y]|]; [cbn|done]. by rewrite <-!(assoc_L (++)).
  - destruct Ht as (Hn & Ha & Ht). rewrite closing_open, <-!(assoc_L (++)). cbn [app]. rewrite <-(assoc_L (++)). cbn [app].
    destruct (operator_not_name o) as (_ & Ho1 & Ho2 & _).
    rewrite closing_bytes, closing_bytes, closing_byte, IHa, closing_close, IH, !before_app; try done.
    + destruct (closingBrace (S d) l) as [[x y]|]; [cbn|done]. rewrite <-!(assoc_L (++)). cbn [app]. by rewrite <-(assoc_L (++)).
    + by intros (c & l' & [= <- <-] & ?).
    + destruct colon; by repeat constructor.
    + by apply name_bytes.
Qed.

(** The body of a brace that is closed. *)
Lemma closing_body body rest : closingBrace 1 (body ++ "}"%char :: rest) = before body <$> closingBrace 1 ("}"%char :: rest) →
  closingBrace 1 (body ++ "}"%char :: rest) = Some (body, rest).
Proof. intros ->. change (closingBrace 1 ("}"%char :: rest)) with (Some ([] : bytes, rest)). cbn. by rewrite app_nil_r. Qed.

Lemma closing_name name rest : good_name name → closingBrace 1 (name ++ "}"%char :: rest) = Some (name, rest).
Proof. intros Hn. apply closing_body, closing_bytes, name_bytes, Hn. Qed.

Lemma closing_operator name (colon : bool) o arg rest :
  good_name name → good true arg →
  let body := name ++ (if colon then [":"%char] else []) ++ operator_byte o :: print arg in
  closingBrace 1 (body ++ "}"%char :: rest) = Some (body, rest).
Proof.
  intros Hn Ha body. apply closing_body. subst body. destruct (operator_not_name o) as (_ & Ho1 & Ho2 & _).
  rewrite <-!(assoc_L (++)). cbn [app]. rewrite closing_bytes, closing_bytes, closing_byte, closing_print, !before_app; try done.
  - by rewrite <-!(assoc_L (++)).
  - by intros (c & l' & [= <- <-] & ?).
  - destruct colon; by repeat constructor.
  - by apply name_bytes.
Qed.

(** Bytes that are compared are known. *)
#[local] Ltac eval_bytes :=
  repeat match goal with
  | |- context [bool_decide (@eq ascii ?a ?b)] =>
      let x := eval vm_compute in (bool_decide (a = b)) in
      match x with true => idtac | false => idtac end; change (bool_decide (@eq ascii a b)) with x
  end; cbv iota.

Section Reads.

Context (lookup : Lookup).

Lemma present_bool name colon :
  bool_decide (is_Some (lookup (Str.of_list name))) && (negb colon || negb (bool_decide (value_of lookup name = []))) = true ↔
  present lookup name colon.
Proof.
  unfold present, value_of. rewrite andb_true_iff, orb_true_iff, !negb_true_iff, bool_decide_eq_true, bool_decide_eq_false.
  destruct (lookup _) as [v|]; cbn [default]; [|split; [by intros [[? ?] _]|done]]. split.
  - intros [_ [->|Hv]]; [done|]. intros _ ->. by apply Hv.
  - intros Hv. split; [by eauto|]. destruct colon; [|by left]. right. intros E. by apply (Hv eq_refl), Str.to_list_inj.
Qed.

Lemma expand_name f name : good_name name → expand lookup f name = Some (Ok (value_of lookup name)).
Proof.
  intros [(c & l & E & Hc) Hn]. unfold expand.
  rewrite <-(app_nil_r name) at 1. rewrite span_name_app by (done || by intros (? & ? & ? & ?)). rewrite E at 1. by rewrite Hc.
Qed.

Lemma expand_operator f name (colon : bool) o arg :
  good_name name → f (print arg) = Some (meaning lookup arg) →
  expand lookup f (name ++ (if colon then [":"%char] else []) ++ operator_byte o :: print arg) =
  Some (operator_value lookup name colon o (meaning lookup arg)).
Proof.
  intros [(c & l & E & Hc) Hn] Hf. destruct (operator_not_name o) as (Ho & _ & _ & Hcolon). unfold expand.
  rewrite span_name_app; [|done|].
  2:{ destruct colon; intros (c' & l' & [= <- _] & H'); [by vm_compute in H'|congruence]. }
  rewrite E at 1. rewrite Hc. cbn [negb]. fold (value_of lookup name).
  assert (∀ T (x y : T), (if bool_decide (is_Some (lookup (Str.of_list name))) && (negb colon || negb (bool_decide (value_of lookup name = [])))
    then x else y) = if decide (present lookup name colon) then x else y) as Hif.
  { intros T x y. destruct (decide (present lookup name colon)) as [Hp|Hp]; [by rewrite (proj2 (present_bool name colon) Hp)|].
    destruct (_ && _) eqn:Eb; [|done]. by apply present_bool in Eb. }
  destruct colon; cbn [app negb orb] in *.
  - eval_bytes. cbn [negb orb]. destruct o; cbn [operator_byte]; eval_bytes; rewrite Hif, ?Hf; unfold operator_value; [by case_decide| |by case_decide].
    case_decide; [done|]. destruct (meaning lookup arg) as [[|c' msg]|e]; done.
  - rewrite bool_decide_false by done. cbn [negb orb]. destruct o; cbn [operator_byte]; eval_bytes; rewrite Hif, ?Hf; unfold operator_value; [by case_decide| |by case_decide].
    case_decide; [done|]. destruct (meaning lookup arg) as [[|c' msg]|e]; done.
Qed.

(** A template is read as it is meant. *)
Lemma interpolate_print t nested fuel :
  good nested t → length (print t) < fuel → interpolate_fuel lookup fuel (print t) = Some (meaning lookup t).
Proof.
  revert nested fuel. induction t as [|c t IH|t IH|t IH|name t IH|name t IH|name colon o arg IHa t IH];
    intros nested [|fuel] Ht Hf; try lia; cbn [print interpolate_fuel meaning] in *; cbn [length] in Hf.
  - done.
  - destruct Ht as (H1 & _ & Ht). rewrite bool_decide_false by done. cbn [negb]. rewrite (IH nested) by (done || lia).
    by destruct (meaning lookup t).
  - destruct Ht as (_ & Ht). eval_bytes. cbn [negb]. rewrite (IH nested) by (done || lia). by destruct (meaning lookup t).
  - destruct Ht as (Hs & Ht). specialize (IH nested fuel Ht ltac:(lia)). eval_bytes. cbn [negb].
    destruct (print t) as [|next l]; [destruct fuel; [lia|]; cbn in IH; by injection IH as <-|].
    assert (next ≠ "$"%char ∧ next ≠ "{"%char ∧ isNameStart next = false) as (H1 & H2 & H3).
    { split_and!; [intros ->; apply Hs; eexists _, _; by eauto..|]. apply not_true_is_false. intros E. apply Hs. exists next, l. auto. }
    rewrite !bool_decide_false, H3 by done. rewrite IH. by destruct (meaning lookup t).
  - destruct Ht as (Hn & Hs & Ht). rewrite length_app in Hf. eval_bytes. cbn [negb].
    pose proof Hn as [(c & l & -> & Hc) Hall]. cbn [app]. pose proof (name_byte c) as (H1 & H2 & _); [by apply Forall_cons in Hall as [? _]|].
    rewrite !bool_decide_false, Hc by done. change (c :: l ++ print t) with ((c :: l) ++ print t).
    rewrite span_name_app by done. rewrite (IH nested) by first [done | cbn [length] in Hf; lia]. by destruct (meaning lookup t).
  - destruct Ht as (Hn & Ht). rewrite length_app in Hf. cbn [length] in Hf. eval_bytes. cbn [negb].
    rewrite closing_name, expand_name by done. cbn [bind_ok]. rewrite (IH nested) by (done || lia). by destruct (meaning lookup t).
  - destruct Ht as (Hn & Ha & Ht). rewrite !length_app in Hf. cbn [length] in Hf. rewrite length_app in Hf. cbn [length] in Hf.
    eval_bytes. cbn [negb].
    replace (name ++ (if colon then [":"%char] else []) ++ operator_byte o :: print arg ++ "}"%char :: print t)
      with ((name ++ (if colon then [":"%char] else []) ++ operator_byte o :: print arg) ++ "}"%char :: print t) by (by rewrite <-!(assoc_L (++))).
    rewrite closing_operator by done. rewrite expand_operator by first [done | apply (IHa true); [done|lia]].
    destruct (operator_value _ _ _ _ _) as [value|e]; [|done]. cbn [bind_ok]. rewrite (IH nested) by (done || lia). by destruct (meaning lookup t).
Qed.

End Reads.

(** ** Every text *)

(** As much fuel as there are bytes is enough, whatever the text. *)
Lemma span_name_length l : length (span_name l).2 ≤ length l.
Proof. induction l as [|c l IH]; simpl; [lia|]. destruct (isNameCharacter c); [|done]. destruct (span_name l). simpl in *. lia. Qed.

Lemma closingBrace_length d l body rest : closingBrace d l = Some (body, rest) → length body + length rest < length l.
Proof.
  revert d body rest. induction l as [l IH] using (induction_ltof1 _ length). unfold ltof in IH. intros d body rest.
  destruct l as [|c l']; [done|]. cbn [closingBrace].
  assert (∀ c' d', (prod_map (cons c') id <$> closingBrace d' l') = Some (body, rest) → length body + length rest < S (length l')) as Hcons.
  { intros c' d'. destruct (closingBrace d' l') as [[b r]|] eqn:E; [|done]. intros [= <- <-]. apply IH in E; simpl in *; [lia|lia]. }
  destruct (bool_decide (c = "$"%char)).
  - destruct l' as [|b l'']; [case_bool_decide; [|apply Hcons]; destruct d as [|[|d]]; [by intros [= <- <-]; simpl; lia..|apply Hcons]|].
    case_bool_decide; [|apply Hcons]. destruct (closingBrace (S d) l'') as [[x y]|] eqn:E; [|done]. intros [= <- <-].
    apply IH in E; simpl in *; lia.
  - case_bool_decide; [|apply Hcons]. destruct d as [|[|d]]; [by intros [= <- <-]; simpl; lia..|apply Hcons].
Qed.

Section Total.

Context (lookup : Lookup).

Lemma bind_ok_total r k : is_Some r → (∀ v, is_Some (k v)) → is_Some (bind_ok r k).
Proof. intros [[v|e] ->] Hk; [apply Hk|]. by eexists. Qed.

Lemma expand_total f body : (∀ arg, length arg ≤ length body → is_Some (f arg)) → is_Some (expand lookup f body).
Proof.
  intros Hf. unfold expand. pose proof (span_name_length body) as Hl. destruct (span_name body) as [name rest]. simpl in Hl.
  destruct name as [|c name]; [by eexists|]. destruct (isNameStart c); [|by eexists]. cbn [negb].
  destruct rest as [|d rest]; [by eexists|]. cbn [length] in Hl.
  destruct (if bool_decide (d = ":"%char) then rest else d :: rest) as [|op arg] eqn:E; [by eexists|].
  assert (length arg ≤ length body) as Ha.
  { case_bool_decide; simplify_eq; simpl in *; lia. }
  specialize (Hf arg Ha). repeat match goal with |- is_Some (if ?b then _ else _) => destruct b end; try done; try by eexists.
  apply bind_ok_total; [done|]. by eexists.
Qed.

Lemma interpolate_total fuel l : length l < fuel → is_Some (interpolate_fuel lookup fuel l).
Proof.
  revert l. induction fuel as [|fuel IH]; intros l Hl; [lia|]. cbn [interpolate_fuel].
  destruct l as [|c l']; [by eexists|]. cbn [length] in Hl.
  assert (∀ l'' k, length l'' ≤ length l' → (∀ v, is_Some (k v)) → is_Some (bind_ok (interpolate_fuel lookup fuel l'') k)) as Hnext.
  { intros l'' k Hl'' Hk. apply bind_ok_total; [|done]. apply IH. lia. }
  destruct (negb _); [apply Hnext; [done|by eexists]|]. destruct l' as [|next l'']; [by eexists|].
  destruct (bool_decide (next = "$"%char)); [apply Hnext; [simpl; lia|by eexists]|].
  destruct (bool_decide (next = "{"%char)).
  - destruct (closingBrace 1 l'') as [[body rest]|] eqn:E; [|by eexists]. apply closingBrace_length in E. cbn [length] in *.
    apply bind_ok_total; [apply expand_total; intros arg Ha; apply IH; lia|]. intros v. apply Hnext; [lia|by eexists].
  - destruct (isNameStart next); [|apply Hnext; [done|by eexists]].
    pose proof (span_name_length (next :: l'')) as Hs. destruct (span_name (next :: l'')) as [name rest].
    apply Hnext; [done|by eexists].
Qed.

(** C32: Interpolation does what it documents. A text that is made of bytes,
    variables, and variables with operators, whose arguments are texts again to any
    depth, is replaced by what it means: the values of the variables, the arguments
    where the operators say so, or the error of the first variable that is required
    and is not there. And it ends on every text. *)
Theorem interpolation_is_as_documented t :
  good false t →
  interpolate lookup (Str.of_list (print t)) =
    match meaning lookup t with Ok out => Ok (Str.of_list out) | Err e => Err e end ∧
  ∀ s, is_Some (interpolate_fuel lookup (S (Str.len s)) (Str.to_list s)).
Proof.
  intros Ht. split.
  - unfold interpolate, Str.len. rewrite Str.to_of_list, (interpolate_print lookup t false) by (done || lia). by destruct (meaning lookup t).
  - intros s. apply interpolate_total. unfold Str.len. lia.
Qed.

End Total.

(** ** Environment files ([env_file.go]) *)

Definition newline : ascii := "010".
Definition quote : ascii := "034".

(** [bufio.ScanLines]: what is between newlines, without a carriage return at its
    end, and without an empty line at the end of the file. *)
Definition dropCR (l : bytes) : bytes :=
  match reverse l with
  | c :: r => if bool_decide (c = "013"%char) then reverse r else l
  | [] => l
  end.

Definition raw_lines (input : bytes) : list bytes :=
  let parts := Str.split_list newline input in
  match reverse parts with
  | [] :: r => reverse r
  | _ => parts
  end.

(** A line that the scanner's buffer does not hold is [bufio.ErrTooLong]. *)
Definition MaxScanTokenSize : Z := 65536.

Definition ErrTooLong : error := New "bufio.Scanner: token too long".

Definition errLine : error := New "line %d: want KEY=VALUE, not %q".

(** The quotes around a value. *)
Definition strip_quotes (value : string) : string :=
  match Str.to_list value with
  | c :: rest =>
      match reverse rest with
      | d :: r => if (bool_decide (c = quote) || bool_decide (c = "'"%char)) && bool_decide (d = c) then Str.of_list (reverse r) else value
      | [] => value
      end
  | [] => value
  end.

(** One line: nothing, a key with or without a value, or an error. *)
Definition parseLine (line : bytes) : result (option (string * option string)) :=
  let text := Str.trim_space (Str.of_list (dropCR line)) in
  if bool_decide (text = "") || Str.has_prefix "#" text then Ok None
  else
    let text := default text (Str.cut_prefix "export " text) in
    let '(key, value) := Str.cut "=" text in
    let key := Str.trim_space key in
    if bool_decide (key = "") || Str.contains_byte " " key || Str.contains_byte "009" key then Err errLine
    else Ok (Some (key, strip_quotes ∘ Str.trim_space <$> value)).

Fixpoint parseLines (lines : list bytes) (env : gmap string (option string)) : result (gmap string (option string)) :=
  match lines with
  | [] => Ok env
  | line :: lines =>
      if (MaxScanTokenSize <=? Z.of_nat (length line))%Z then Err ErrTooLong
      else
        entry ← parseLine line;
        parseLines lines (if entry is Some (key, value) then <[key := value]> env else env)
  end.

(** The whole file, which is read before [readErr], if that is what ends it. *)
Definition parseEnvFile (input : bytes) (readErr : option error) : result (gmap string (option string)) :=
  env ← parseLines (raw_lines input) ∅;
  if readErr is Some e then Err e else Ok env.

(** *** Reading back what is written *)

Definition good_key (key : string) : Prop :=
  key ≠ "" ∧ Forall (λ c, Str.is_graphic c = true ∧ c ≠ "="%char) (Str.to_list key) ∧ Str.has_prefix "#" key = false.

(** A line of a file, with the value in quotes. *)
Definition env_line (kv : string * string) : bytes :=
  Str.to_list kv.1 ++ "="%char :: quote :: Str.to_list kv.2 ++ [quote].

Definition good_entry (kv : string * string) : Prop :=
  good_key kv.1 ∧ (newline ∉ Str.to_list kv.2) ∧ (Z.of_nat (Str.len kv.1 + Str.len kv.2) + 3 < 65536)%Z.

Lemma dropCR_quoted l : dropCR (l ++ [quote]) = l ++ [quote].
Proof. unfold dropCR. by rewrite reverse_app. Qed.

Lemma strip_quotes_quoted v : strip_quotes (Str.of_list (quote :: Str.to_list v ++ [quote])) = v.
Proof.
  unfold strip_quotes. rewrite Str.to_of_list, reverse_app. change (reverse [quote]) with [quote]. cbn [app].
  rewrite !bool_decide_true by done. cbn [orb andb]. rewrite reverse_involutive. apply Str.of_to_list.
Qed.

(** What a file's line starts with is a key, and not what may come before one. *)
Lemma no_export k r : Forall (λ c, Str.is_graphic c = true ∧ c ≠ "="%char) k →
  Str.cut_prefix "export " (Str.of_list (k ++ "="%char :: r)) = None.
Proof.
  intros Hk. destruct (Str.cut_prefix _ _) as [t|] eqn:E; [|done]. apply Str.cut_prefix_Some in E.
  apply (f_equal Str.to_list) in E. rewrite Str.to_of_list, Str.to_list_app in E. simpl in E. exfalso.
  do 6 (destruct k as [|? k]; [discriminate E|injection E as -> E; apply Forall_cons in Hk as [_ Hk]]).
  destruct k as [|? k]; [discriminate E|]. injection E as -> _. apply Forall_cons in Hk as [[Hg _] _]. by vm_compute in Hg.
Qed.

Lemma graphic_ends s : s ≠ "" → Forall (λ c, Str.is_graphic c = true) (Str.to_list s) → Str.trim_space s = s.
Proof.
  intros Hne Hs. destruct (Str.to_list s) as [|c l] eqn:E; [by destruct s|].
  destruct (last (c :: l)) as [d|] eqn:Ed; [|by apply last_None in Ed].
  rewrite Forall_forall in Hs. apply (Str.trim_space_graphic s c d); [by rewrite E|by rewrite E|apply Hs; set_solver|].
  apply Hs. apply last_Some in Ed as [l' ->]. set_solver.
Qed.

Lemma parseLine_env_line kv : good_entry kv → parseLine (env_line kv) = Ok (Some (kv.1, Some kv.2)).
Proof.
  destruct kv as [k v]. intros ((Hne & Hk & Hhash) & _ & _). cbn [fst snd] in *.
  assert (Forall (λ c, Str.is_graphic c = true) (Str.to_list k)) as Hg by (eapply Forall_impl; [exact Hk|]; by intros c [? _]).
  destruct (Str.to_list k) as [|c l] eqn:El; [by destruct k|]. unfold parseLine, env_line. cbn [fst snd]. rewrite El.
  set (q := quote :: Str.to_list v ++ [quote]).
  assert (dropCR ((c :: l) ++ "="%char :: q) = (c :: l) ++ "="%char :: q) as ->.
  { subst q. replace ((c :: l) ++ "="%char :: quote :: Str.to_list v ++ [quote]) with (((c :: l) ++ "="%char :: quote :: Str.to_list v) ++ [quote]).
    - apply dropCR_quoted. - by rewrite <-(assoc_L (++)). }
  assert (Str.trim_space (Str.of_list ((c :: l) ++ "="%char :: q)) = Str.of_list ((c :: l) ++ "="%char :: q)) as ->.
  { apply (Str.trim_space_graphic _ c quote); rewrite ?Str.to_of_list; [done| |by apply Forall_cons in Hg as [? _]|done].
    subst q. rewrite app_comm_cons. by rewrite !app_comm_cons, (assoc_L (++)), last_snoc. }
  assert (k = Str.of_list (c :: l)) as Ek by (by rewrite <-El, Str.of_to_list).
  assert (Str.has_prefix "#" (Str.of_list ((c :: l) ++ "="%char :: q)) = false) as ->.
  { rewrite Ek in Hhash. revert Hhash. unfold Str.has_prefix. cbn. by case_decide. }
  rewrite bool_decide_false by done. cbn [orb]. rewrite no_export by done. cbn [default].
  assert (Str.cut "=" (Str.of_list ((c :: l) ++ "="%char :: q)) = (k, Some (Str.of_list q))) as E.
  { apply Str.cut_Some. split.
    - apply Str.to_list_inj. rewrite Str.to_list_app, El, Str.to_of_list. cbn. by rewrite Str.to_of_list.
    - rewrite El. intros Hin. rewrite Forall_forall in Hk. by destruct (Hk _ Hin). }
  unfold id. rewrite E. rewrite (graphic_ends k) by (done || by rewrite El). rewrite bool_decide_false by done.
  assert (∀ b, Str.is_graphic b = false → Str.contains_byte b k = false) as Hno.
  { intros b Hb. apply bool_decide_false. rewrite El. intros Hin. rewrite Forall_forall in Hg. rewrite (Hg _ Hin) in Hb. done. }
  rewrite !Hno by done. cbn [orb fmap option_fmap option_map compose].
  assert (Str.trim_space (Str.of_list q) = Str.of_list q) as ->.
  { apply (Str.trim_space_graphic _ quote quote); rewrite ?Str.to_of_list; [done| |done..]. subst q. by rewrite app_comm_cons, last_snoc. }
  do 4 f_equal. apply strip_quotes_quoted.
Qed.

Lemma env_line_one kv : good_entry kv → newline ∉ env_line kv.
Proof.
  intros ((_ & Hk & _) & Hv & _). unfold env_line. rewrite elem_of_app, !elem_of_cons, elem_of_app, list_elem_of_singleton.
  intros [Hin|[E|[E|[Hin|E]]]]; try done. rewrite Forall_forall in Hk. by destruct (Hk _ Hin) as [Hg _].
Qed.

Lemma raw_lines_env entries :
  Forall good_entry entries → raw_lines (concat ((λ kv, env_line kv ++ [newline]) <$> entries)) = env_line <$> entries.
Proof.
  intros He. unfold raw_lines.
  assert (Str.split_list newline (concat ((λ kv, env_line kv ++ [newline]) <$> entries)) = (env_line <$> entries) ++ [[]]) as ->.
  { induction He as [|kv entries Hkv _ IH]; [done|]. csimpl. rewrite <-(assoc_L (++)). cbn [app].
    by rewrite Str.split_list_app, IH by by apply env_line_one. }
  rewrite reverse_app. change (reverse [[]]) with [[] : bytes]. cbn [app]. apply reverse_involutive.
Qed.

Lemma parseLines_env entries env :
  Forall good_entry entries →
  parseLines (env_line <$> entries) env = Ok (foldl (λ env kv, <[kv.1 := Some kv.2]> env) env entries).
Proof.
  intros He. revert env. induction He as [|kv entries Hkv _ IH]; intros env; [done|]. csimpl.
  assert ((MaxScanTokenSize <=? Z.of_nat (length (env_line kv)))%Z = false) as ->.
  { apply Z.leb_gt. destruct Hkv as (_ & _ & Hlen). unfold env_line, MaxScanTokenSize, Str.len in *.
    rewrite length_app. cbn [length]. rewrite length_app. cbn [length]. lia. }
  rewrite parseLine_env_line by done. cbn. apply IH.
Qed.

(** What is written to an environment file is read back, whatever the values
    are: keys that have no blank and no equals sign, and do not start a comment,
    with values in quotes that have no newline. Of a key that is written more than
    once, the last value counts. *)
Theorem env_file_roundtrip entries :
  Forall good_entry entries →
  parseEnvFile (concat ((λ kv, env_line kv ++ [newline]) <$> entries)) None =
    Ok (foldl (λ env kv, <[kv.1 := Some kv.2]> env) ∅ entries).
Proof. intros He. unfold parseEnvFile. by rewrite raw_lines_env, parseLines_env. Qed.

(** ** Examples *)

(** [${HOST:-${NAME:?no name}}:$PORT$$]. *)
Definition example_template : template :=
  Operator (Str.to_list "HOST") true IfUnset (Operator (Str.to_list "NAME") true Require
    (foldr Byte End (Str.to_list "no name")) End) (Byte ":" (Plain (Str.to_list "PORT") (Escaped End))).

Lemma interpolation_is_as_documented_witness :
  let lookup x := if bool_decide (x = "HOST") then Some "" else if bool_decide (x = "NAME") then Some "db" else Some "80" in
  interpolate lookup "${HOST:-${NAME:?no name}}:$PORT$$" = Ok "db:80$".
Proof.
  intros lookup. destruct (interpolation_is_as_documented lookup example_template) as [E _]; [|exact E].
  assert (∀ x, forallb isNameCharacter (Str.to_list x) = true → (∃ c l, Str.to_list x = c :: l ∧ isNameStart c = true) →
    good_name (Str.to_list x)) as Hname.
  { intros x Hx Hs. split; [done|]. apply Forall_forall. intros c Hc. rewrite forallb_forall in Hx. by apply Hx, list_elem_of_In. }
  cbn [example_template good foldr Str.to_list].
  split_and!; try done; try (apply (Hname "HOST") || apply (Hname "NAME") || apply (Hname "PORT")); try done; try (by eexists _, _).
  intros (c & l & [= <- _] & H'). by vm_compute in H'.
Defined.

Lemma env_file_roundtrip_witness :
  parseEnvFile (Str.to_list "USER=" ++ [quote] ++ Str.to_list " a b " ++ [quote; newline]) None = Ok {["USER" := Some " a b "]}.
Proof.
  apply (env_file_roundtrip [("USER", " a b ")]). apply Forall_singleton. split_and!; cbn [fst snd].
  - split_and!; [discriminate| |done]. repeat (apply Forall_cons; split; [done|]). by apply Forall_nil.
  - vm_compute. set_solver.
  - by vm_compute.
Defined.


End Interpolate.
