(* ===== verification/Compose.v ===== *)
(** * Compose projects

    Parts of [internal/compose]: the order a project's services are started
    in, and the check that there is one ([project.go], [build.go]); and the
    subnets that are picked for a project's networks ([subnet.go]). *)

From S2P Require Import Prelude Errdefs Addr.

Module Compose.
Import Addr.

(** ** Services *)

Record Dependency := mkDependency {
  Dependency_Service : string;
  Condition : string;
}.

(** A service, with the name of its instance's definition. *)
Record Service := mkService {
  Name : string;
  InstanceName : string;
  DependsOn : list Dependency;
}.

Record Project := mkProject {
  Project_Name : string;
  Services : gmap string Service;
}.

Definition ServiceNames (p : Project) : list string := sorted_keys (Services p).

(** *** Their order *)

(** The [visit] of [Order], on what is in order and what was visited. There is
    no result if the fuel runs out, or a service that is not there is used. *)
Fixpoint visit (fuel : nat) (p : Project) (name : string) (st : list Service * gset string)
  : option (list Service * gset string) :=
  match fuel with
  | O => None
  | S fuel =>
      let '(order, visited) := st in
      if decide (name ∈ visited) then Some st
      else
        match Services p !! name with
        | None => None
        | Some s =>
            '(order, visited) ← foldl (λ st dep, st ≫= visit fuel p (Dependency_Service dep))
                                  (Some (order, {[name]} ∪ visited)) (DependsOn s);
            Some (order ++ [s], visited)
        end
  end.

(** Every service is visited once, so there are no more visits within each
    other than services, and one that returns at once. *)
Definition depth (p : Project) : nat := S (size (Services p)).

(** The loop of [Order] over the names. *)
Fixpoint visit_all (p : Project) (names : list string) (st : list Service * gset string) : option (result (list Service)) :=
  match names with
  | [] => Some (Ok st.1)
  | name :: names =>
      match Services p !! name with
      | None => Some (Err (New "no such service: %s"))
      | Some _ => st ← visit (depth p) p name st; visit_all p names st
      end
  end.

Definition Order (p : Project) (names : list string) : option (result (list Service)) :=
  visit_all p (if bool_decide (names = []) then ServiceNames p else names) ([], ∅).

Definition Select (p : Project) (names : list string) : option (result (list Service)) :=
  order ← Order p names;
  match order with
  | Err e => Some (Err e)
  | Ok order =>
      if bool_decide (names = []) then Some (Ok order)
      else Some (Ok (List.filter (λ s, bool_decide (Name s ∈ names)) order))
  end.

(** *** The check of their dependencies *)

(** The loop over each service's dependencies. *)
Definition checkPresent (p : Project) : result unit :=
  for_each (λ name,
    match Services p !! name with
    | Some s =>
        for_each (λ dep,
          refuse_if (bool_decide (Dependency_Service dep = name)) (New "service %s depends on itself") ;;
          refuse_if (bool_decide (Services p !! Dependency_Service dep = None)) (New "service %s depends on %s, which is not a service"))
          (DependsOn s)
    | None => Ok tt
    end) (ServiceNames p).

Inductive visitState := visiting | visited.

(** The [visit] of [checkDependencies], on the state of each service. The path
    to it is only written in the error. *)
Fixpoint check (fuel : nat) (p : Project) (name : string) (st : gmap string visitState) : option (result (gmap string visitState)) :=
  match fuel with
  | O => None
  | S fuel =>
      match st !! name with
      | Some visiting => Some (Err (New "services depend on each other in a cycle: %s"))
      | Some visited => Some (Ok st)
      | None =>
          match Services p !! name with
          | None => None
          | Some s =>
              r ← foldl (λ r dep, r ≫= λ r, match r with
                                            | Ok st => check fuel p (Dependency_Service dep) st
                                            | Err e => Some (Err e)
                                            end)
                    (Some (Ok (<[name := visiting]> st))) (DependsOn s);
              Some (match r with Ok st => Ok (<[name := visited]> st) | Err e => Err e end)
          end
      end
  end.

Fixpoint check_all (p : Project) (names : list string) (st : gmap string visitState) : option (result unit) :=
  match names with
  | [] => Some (Ok tt)
  | name :: names =>
      r ← check (depth p) p name st;
      match r with
      | Ok st => check_all p names st
      | Err e => Some (Err e)
      end
  end.

Definition checkDependencies (p : Project) : option (result unit) :=
  match checkPresent p with
  | Err e => Some (Err e)
  | Ok _ => check_all p (ServiceNames p) ∅
  end.

(** The loop of [checkInstanceNames]: the instance names seen so far. *)
Fixpoint instanceNames (p : Project) (names : list string) (seen : gmap string string) : result unit :=
  match names with
  | [] => Ok tt
  | name :: names =>
      match Services p !! name with
      | None => Ok tt
      | Some s =>
          match seen !! InstanceName s with
          | Some _ => Err (New "services %s and %s would both be instance %s")
          | None => instanceNames p names (<[InstanceName s := name]> seen)
          end
      end
  end.

Definition checkInstanceNames (p : Project) : result unit := instanceNames p (ServiceNames p) ∅.

(** ** Subnets *)

Definition SubnetPool : Prefix := mkPrefix [10; 213; 0; 0]%Z 16.

Definition subnetBits : Z := 24.

(** The subnets that are in use: what cannot be parsed is passed over. *)
Definition usedSubnets (taken : list string) : list Prefix :=
  omap (λ s, (λ p, mkPrefix (masked (Prefix_ip p) (Prefix_bits p)) (Prefix_bits p)) <$> ParsePrefix s) taken.

(** The [i]th subnet of the pool: [base + uint32(i*step)]. *)
Definition candidate (i : nat) : Prefix :=
  let step := Z.shiftl 1 (32 - subnetBits) in
  mkPrefix (bytes4 (uint32_wrap (value (Prefix_ip SubnetPool) + Z.of_nat i * step))) subnetBits.

Definition Prefix_String (p : Prefix) : string := String4 (Prefix_ip p) +:+ "/" +:+ Str.itoa (Prefix_bits p).

Definition FreeSubnet (taken : list string) : result string :=
  let used := usedSubnets taken in
  let count := Z.to_nat (Z.shiftl 1 (subnetBits - Prefix_bits SubnetPool)) in
  match List.find (λ c, forallb (λ u, negb (Overlaps u c)) used) (candidate <$> seq 0 count) with
  | Some c => Ok (Prefix_String c)
  | None => Err (New "no free subnet left in %s: give the network a subnet")
  end.

(** ** What the check and the order mean *)

Section Graph.

Context (p : Project).

(** A service depends on another. *)
Definition depends (a b : string) : Prop := ∃ s dep, Services p !! a = Some s ∧ dep ∈ DependsOn s ∧ Dependency_Service dep = b.

(** What is depended on is there. *)
Definition present : Prop := ∀ a b, depends a b → is_Some (Services p !! b).

Definition acyclic : Prop := ∀ a, ¬ tc depends a a.

(** Services that nothing circular is reached from. *)
Definition grounded (a : string) : Prop := Acc (flip depends) a.

Lemma grounded_acyclic : (∀ a, grounded a) → acyclic.
Proof.
  intros Hg a Ha. specialize (Hg a). induction Hg as [a _ IH].
  assert (∃ b, depends a b ∧ tc depends b b) as (b & Hab & Hb); [|by apply (IH b)].
  inversion Ha as [? ? H|? b ? H1 H2]; subst; [exists a; by split|].
  exists b. split; [done|]. by eapply tc_r.
Qed.

(** What is left to visit. *)
Definition unvisited (seen : gset string) : nat := size (dom (Services p) ∖ seen).

Lemma unvisited_mono seen seen' : seen ⊆ seen' → unvisited seen' ≤ unvisited seen.
Proof. intros H. unfold unvisited. apply subseteq_size. set_solver. Qed.

Lemma unvisited_new seen a : is_Some (Services p !! a) → a ∉ seen → unvisited ({[a]} ∪ seen) < unvisited seen.
Proof. intros Ha%elem_of_dom Hn. unfold unvisited. apply subset_size. set_solver. Qed.

(** *** Cycles *)

(** Services that were checked are grounded. *)
Definition checked (st : gmap string visitState) : Prop := ∀ a, st !! a = Some visited → grounded a.

(** How a visit changes the states: it settles some. *)
Record settles (st st' : gmap string visitState) : Prop := {
  settles_visiting : ∀ a, st' !! a = Some visiting ↔ st !! a = Some visiting;
  settles_visited : ∀ a, st !! a = Some visited → st' !! a = Some visited;
  settles_checked : checked st';
}.

Lemma settles_trans st1 st2 st3 : settles st1 st2 → settles st2 st3 → settles st1 st3.
Proof. intros [A1 B1 C1] [A2 B2 C2]. split; [intros a; by rewrite A2, A1|auto|done]. Qed.

Lemma settles_dom st st' : settles st st' → dom st ⊆ dom st'.
Proof.
  intros [A B _] a [[] Ha]%elem_of_dom; apply elem_of_dom; [exists visiting; by apply A|exists visited; auto].
Qed.

(** The outcome of a visit of [a] whose states were [st]. *)
Definition visit_outcome (st : gmap string visitState) (names : list string) (r : result (gmap string visitState)) : Prop :=
  match r with
  | Ok st' => settles st st' ∧ ∀ a, a ∈ names → st' !! a = Some visited
  | Err _ => ∃ a, tc depends a a
  end.

(** The loop over the dependencies of [a], while it is being visited. *)
Lemma check_deps fuel a st deps :
  (∀ b st, is_Some (Services p !! b) → unvisited (dom st) < fuel → checked st → (∀ c, st !! c = Some visiting → tc depends c b) →
    ∃ r, check fuel p b st = Some r ∧ visit_outcome st [b] r) →
  (∀ dep, dep ∈ deps → depends a (Dependency_Service dep) ∧ is_Some (Services p !! Dependency_Service dep)) →
  unvisited (dom st) < fuel → checked st → (∀ c, st !! c = Some visiting → c = a ∨ tc depends c a) →
  ∃ r, foldl (λ r dep, r ≫= λ r, match r with
                                | Ok st => check fuel p (Dependency_Service dep) st
                                | Err e => Some (Err e)
                                end) (Some (Ok st)) deps = Some r ∧
    visit_outcome st (Dependency_Service <$> deps) r.
Proof.
  intros IH Hdeps Hf Hck Hst. induction deps as [|dep deps IHd] using rev_ind.
  { exists (Ok st). split; [done|]. split; [by split|]. by intros c ?%elem_of_nil. }
  destruct IHd as (r & E & Hr); [intros d Hd; apply Hdeps; set_solver|]. rewrite foldl_app, E. simpl.
  destruct r as [st1|e]; [|by exists (Err e)]. destruct Hr as [Hs Hv].
  destruct (Hdeps dep) as [Hd Hp]; [set_solver|]. destruct (IH (Dependency_Service dep) st1) as (r & E' & Hr); [done|..|].
  - pose proof (unvisited_mono _ _ (settles_dom _ _ Hs)). lia.
  - apply Hs.
  - intros c Hc%(settles_visiting _ _ Hs). destruct (Hst c Hc) as [->|Hca]; [by apply tc_once|by eapply tc_r].
  - exists r. split; [done|]. destruct r as [st2|e]; [|done]. destruct Hr as [Hs' Hv']. split; [by eapply settles_trans|].
    intros c. rewrite fmap_app, elem_of_app. intros [Hc|Hc]; [by apply Hs', Hv|]. by apply Hv'.
Qed.

Lemma check_spec fuel a st :
  present → is_Some (Services p !! a) → unvisited (dom st) < fuel → checked st → (∀ c, st !! c = Some visiting → tc depends c a) →
  ∃ r, check fuel p a st = Some r ∧ visit_outcome st [a] r.
Proof.
  intros Hp. revert a st. induction fuel as [|fuel IH]; intros a st [s Ha] Hf Hck Hst; [lia|]. cbn [check].
  destruct (st !! a) as [[]|] eqn:E.
  - eexists. split; [done|]. exists a. auto.
  - eexists. split; [done|]. split; [by split|]. by intros c ->%list_elem_of_singleton.
  - rewrite Ha. destruct (check_deps fuel a (<[a := visiting]> st) (DependsOn s)) as (r & E' & Hr).
    + intros b st1 Hb Hf1 Hck1 Hst1. by apply IH.
    + intros dep Hdep. assert (depends a (Dependency_Service dep)) as Hd by (by exists s, dep). split; [done|]. by eapply Hp.
    + rewrite dom_insert_L. pose proof (unvisited_new (dom st) a). rewrite not_elem_of_dom in H. specialize (H ltac:(eauto) E). lia.
    + intros c [[_ ?]|[_ Hc]]%lookup_insert_Some; [done|by apply Hck].
    + intros c [[<- _]|[_ Hc]]%lookup_insert_Some; auto.
    + rewrite E'. simpl. eexists. split; [done|]. destruct r as [st1|e]; [|done]. destruct Hr as [[A B C] Hv]. split; [split|].
      * intros c. rewrite lookup_insert_Some, A, lookup_insert_Some. naive_solver.
      * intros c Hc. destruct (decide (c = a)) as [->|]; [by rewrite lookup_insert_eq|]. rewrite lookup_insert_ne by done.
        apply B. by rewrite lookup_insert_ne.
      * intros c [[<- _]|[_ Hc]]%lookup_insert_Some; [|by apply C]. constructor. intros b (s' & dep & Hs' & Hdep & <-).
        apply C, Hv. rewrite Ha in Hs'. injection Hs' as <-. by apply list_elem_of_fmap_2.
      * intros c ->%list_elem_of_singleton. by rewrite lookup_insert_eq.
Qed.

Lemma unvisited_depth seen : unvisited seen < depth p.
Proof.
  unfold unvisited, depth. rewrite <-(size_dom (D:=gset string)). apply Nat.lt_succ_r, subseteq_size. set_solver.
Qed.

Lemma check_all_spec names st :
  present → (∀ a, a ∈ names → is_Some (Services p !! a)) → checked st → (∀ a, st !! a ≠ Some visiting) →
  ∃ r, check_all p names st = Some r ∧ if r is Ok _ then ∀ a, a ∈ names → grounded a else ∃ a, tc depends a a.
Proof.
  intros Hp. revert st. induction names as [|a names IH]; intros st Hn Hck Hst; cbn [check_all].
  { exists (Ok tt). split; [done|]. by intros a ?%elem_of_nil. }
  destruct (check_spec (depth p) a st) as (r & E & Hr); [done|apply Hn; left|apply unvisited_depth|done|by intros c Hc; destruct (Hst c)|].
  rewrite E. simpl. destruct r as [st1|e]; [|by exists (Err e)]. destruct Hr as [[A B C] Hv].
  destruct (IH st1) as (r & E' & Hr'); [set_solver|done|intros c; rewrite A; apply Hst|]. exists r. split; [done|].
  destruct r; [|done]. intros c [->|Hc]%elem_of_cons; [apply C, Hv; left|by apply Hr'].
Qed.

Lemma checkPresent_spec : checkPresent p = Ok tt ↔ present ∧ ∀ a, ¬ depends a a.
Proof.
  unfold checkPresent. rewrite for_each_Ok. setoid_rewrite elem_of_sorted_keys. split.
  - intros H. assert (∀ a b, depends a b → b ≠ a ∧ is_Some (Services p !! b)) as Hd; [|split; [intros a b Hab; by eapply Hd|intros a Ha; by destruct (Hd a a Ha)]].
    intros a b (s & dep & Ha & Hdep & <-). specialize (H a (ex_intro _ s Ha)). rewrite Ha, for_each_Ok in H.
    specialize (H dep Hdep). apply bind_Ok in H as ([] & H1 & H2). apply refuse_if_Ok in H1, H2. simpl_bools.
    split; [done|]. by apply not_eq_None_Some.
  - intros [Hp Hs] a [s Ha]. rewrite Ha, for_each_Ok. intros dep Hdep.
    assert (depends a (Dependency_Service dep)) as Hd by (by exists s, dep). apply bind_Ok. exists tt.
    rewrite !refuse_if_Ok. split; apply bool_decide_eq_false.
    + intros E. apply (Hs a). by rewrite E in Hd.
    + apply not_eq_None_Some. by eapply Hp.
Qed.

(** What the check accepts. *)
Lemma checkDependencies_iff :
  ∃ r, checkDependencies p = Some r ∧ (r = Ok tt ↔ present ∧ acyclic).
Proof.
  unfold checkDependencies. pose proof checkPresent_spec as Hc. destruct (checkPresent p) as [[]|e] eqn:E; cycle 1.
  { exists (Err e). split; [done|]. split; [done|]. intros [Hp Ha]. assert (Err e = Ok tt) as Hno; [|done].
    apply Hc. split; [done|]. intros a Haa. by apply (Ha a), tc_once. }
  destruct (proj1 Hc eq_refl) as [Hp _].
  destruct (check_all_spec (ServiceNames p) ∅ Hp) as (r & E' & Hr); [by intros a ?%elem_of_sorted_keys|by intros a|by intros a|].
  exists r. split; [done|]. destruct r as [[]|e].
  - split; [|done]. intros _. split; [done|]. apply grounded_acyclic. intros a. destruct (Services p !! a) as [s|] eqn:Ea.
    + apply Hr, elem_of_sorted_keys. eauto.
    + constructor. intros b (s & dep & Hs & _). congruence.
  - split; [done|]. intros [_ Ha]. destruct Hr as [a Haa]. by destruct (Ha a).
Qed.

(** C29: the dependencies of services are checked in full. The check returns;
    and it accepts a project if and only if every service that is depended on
    is there, and no service depends on itself, not even by way of others. *)
Theorem checkDependencies_spec :
  ∃ r, checkDependencies p = Some r ∧ (r = Ok tt ↔ present ∧ acyclic).
Proof. apply checkDependencies_iff. Qed.

(** *** The order *)

(** Each service is under its own name. *)
Definition named : Prop := ∀ a s, Services p !! a = Some s → Name s = a.

(** In order: each service once, after those it depends on. *)
Record in_order (order : list Service) : Prop := {
  order_once : NoDup (Name <$> order);
  order_services : ∀ s, s ∈ order → Services p !! Name s = Some s;
  order_after : ∀ i s b, order !! i = Some s → depends (Name s) b → ∃ j, j < i ∧ (Name <$> order) !! j = Some b;
}.

(** While services in [active] are being visited: what was visited is one of
    them, or in order. *)
Record visiting_ (active : gset string) (st : list Service * gset string) : Prop := {
  visiting_visited : ∀ a, a ∈ st.2 ↔ a ∈ active ∨ a ∈ Name <$> st.1;
  visiting_active : ∀ a, a ∈ active → a ∉ Name <$> st.1;
  visiting_order : in_order st.1;
}.

(** A visit adds services that are reached from [a]. *)
Definition adds (active : gset string) (a : string) (st st' : list Service * gset string) : Prop :=
  visiting_ active st' ∧ ∃ new, st'.1 = st.1 ++ new ∧ ∀ s, s ∈ new → rtc depends a (Name s).

Lemma adds_refl active a st : visiting_ active st → adds active a st st.
Proof. intros H. split; [done|]. exists []. split; [by rewrite app_nil_r|]. by intros s ?%elem_of_nil. Qed.

Lemma adds_trans active a b st1 st2 st3 :
  rtc depends a b → adds active a st1 st2 → adds active b st2 st3 → adds active a st1 st3.
Proof.
  intros Hab [_ (n1 & E1 & H1)] [H2 (n2 & E2 & H2')]. split; [done|]. exists (n1 ++ n2). rewrite E2, E1, app_assoc. split; [done|].
  intros s [Hs|Hs]%elem_of_app; [by apply H1|]. etrans; [exact Hab|by apply H2'].
Qed.

Lemma adds_visited active a st st' : visiting_ active st → adds active a st st' → st.2 ⊆ st'.2.
Proof.
  intros [H1 _ _] [[H2 _ _] (new & E & _)] b Hb. apply H2. rewrite E, fmap_app. apply H1 in Hb. set_solver.
Qed.

(** The loop over the dependencies of [a]. *)
Lemma visit_deps fuel active a st deps :
  (∀ b st, is_Some (Services p !! b) → unvisited st.2 < fuel → visiting_ active st → (∀ c, c ∈ active → tc depends c b) →
    ∃ st', visit fuel p b st = Some st' ∧ adds active b st st' ∧ b ∈ Name <$> st'.1) →
  (∀ dep, dep ∈ deps → depends a (Dependency_Service dep) ∧ is_Some (Services p !! Dependency_Service dep)) →
  unvisited st.2 < fuel → visiting_ active st → (∀ c, c ∈ active → c = a ∨ tc depends c a) →
  ∃ st', foldl (λ st dep, st ≫= visit fuel p (Dependency_Service dep)) (Some st) deps = Some st' ∧
    adds active a st st' ∧ ∀ dep, dep ∈ deps → Dependency_Service dep ∈ Name <$> st'.1.
Proof.
  intros IH Hdeps Hf Hst Hact. induction deps as [|dep deps IHd] using rev_ind.
  { exists st. split; [done|]. split; [by apply adds_refl|]. by intros d ?%elem_of_nil. }
  destruct IHd as (st1 & E & Ha & Hin); [intros d Hd; apply Hdeps; set_solver|]. rewrite foldl_app, E. simpl.
  destruct (Hdeps dep) as [Hd Hp]; [set_solver|].
  destruct (IH (Dependency_Service dep) st1) as (st2 & E' & Ha' & Hin'); [done| |apply Ha| |].
  - pose proof (unvisited_mono _ _ (adds_visited _ _ _ _ Hst Ha)). lia.
  - intros c Hc. destruct (Hact c Hc) as [->|Hca]; [by apply tc_once|by eapply tc_r].
  - exists st2. split; [done|]. split; [eapply adds_trans; [by apply rtc_once|done..]|].
    intros d [Hd'|Hd']%elem_of_app; [|by apply list_elem_of_singleton in Hd' as ->].
    destruct Ha' as [_ (new & Enew & _)]. rewrite Enew, fmap_app. apply elem_of_app. left. by apply Hin.
Qed.

Lemma in_order_snoc order s :
  in_order order → Services p !! Name s = Some s → Name s ∉ Name <$> order →
  (∀ b, depends (Name s) b → b ∈ Name <$> order) → in_order (order ++ [s]).
Proof.
  intros [H1 H2 H3] Hs Hn Hd. split.
  - rewrite fmap_app. apply NoDup_app. split; [done|]. split; [set_solver|apply NoDup_singleton].
  - intros s' [Hs'|Hs']%elem_of_app; [auto|]. by apply list_elem_of_singleton in Hs' as ->.
  - intros i s' b Hi Hb. rewrite fmap_app. apply lookup_app_Some in Hi as [Hi|[Hle Hi]].
    + destruct (H3 i s' b Hi Hb) as (j & Hj & E). exists j. split; [done|]. by apply lookup_app_l_Some.
    + apply list_lookup_singleton_Some in Hi as [Hi ->]. apply Hd in Hb. apply list_elem_of_lookup in Hb as [j Hj].
      exists j. split; [|by apply lookup_app_l_Some]. apply lookup_lt_Some in Hj. rewrite length_fmap in Hj. lia.
Qed.

Context (Hpresent : present) (Hacyclic : acyclic) (Hnamed : named).

Lemma visit_spec fuel active a st :
  is_Some (Services p !! a) → unvisited st.2 < fuel → visiting_ active st → (∀ c, c ∈ active → tc depends c a) →
  ∃ st', visit fuel p a st = Some st' ∧ adds active a st st' ∧ a ∈ Name <$> st'.1.
Proof.
  revert active a st. induction fuel as [|fuel IH]; intros active a st [s Ha] Hf Hst Hact; [lia|]. cbn [visit]. destruct st as [order seen].
  destruct (decide (a ∈ seen)) as [Hin|Hin].
  { exists (order, seen). split; [done|]. split; [by apply adds_refl|]. apply (visiting_visited _ _ Hst) in Hin as [Hin|Hin]; [|done].
    by destruct (Hacyclic a); apply Hact. }
  rewrite Ha. assert ((a ∉ active) ∧ (a ∉ Name <$> order)) as [Hna Hno].
  { pose proof (visiting_visited _ _ Hst a). simpl in *. naive_solver. }
  destruct (visit_deps fuel ({[a]} ∪ active) a (order, {[a]} ∪ seen) (DependsOn s)) as ([order' seen'] & E & Hadd & Hdeps).
  - intros b st Hb Hfb Hstb Hactb. by apply IH.
  - intros dep Hdep. assert (depends a (Dependency_Service dep)) as Hd by (by exists s, dep). split; [done|]. by eapply Hpresent.
  - simpl in *. pose proof (unvisited_new seen a (ex_intro _ s Ha) Hin). lia.
  - destruct Hst as [H1 H2 H3]. simpl in *. split; simpl; [set_solver|set_solver|done].
  - intros c. rewrite elem_of_union, elem_of_singleton. naive_solver.
  - rewrite E. simpl. eexists. split; [done|]. destruct Hadd as [[H1 H2 H3] (new & Enew & Hreach)]. simpl in *.
    assert (Name s = a) as Es by by apply Hnamed. split; [split; [split; simpl|]|]; simpl.
    + intros b. rewrite H1, fmap_app. simpl. rewrite Es. set_solver.
    + intros b Hb. rewrite fmap_app. simpl. rewrite Es. specialize (H2 b). set_solver.
    + apply in_order_snoc; rewrite ?Es; [done|done|apply H2; set_solver|].
      intros b (s' & dep & Hs' & Hdep & <-). rewrite Ha in Hs'. injection Hs' as <-. by apply Hdeps.
    + exists (new ++ [s]). rewrite Enew, app_assoc. split; [done|].
      intros s' [Hs'|Hs']%elem_of_app; [by apply Hreach|]. apply list_elem_of_singleton in Hs' as ->. rewrite Es. apply rtc_refl.
    + rewrite fmap_app. simpl. rewrite Es. set_solver.
Qed.

Lemma visit_all_spec names st :
  visiting_ ∅ st →
  ∃ r, visit_all p names st = Some r ∧
    match r with
    | Ok order => in_order order ∧ (∀ a, a ∈ names → a ∈ Name <$> order) ∧
        ∃ new, order = st.1 ++ new ∧ ∀ s, s ∈ new → ∃ a, a ∈ names ∧ rtc depends a (Name s)
    | Err _ => ∃ a, a ∈ names ∧ Services p !! a = None
    end.
Proof.
  revert st. induction names as [|a names IH]; intros st Hst; cbn [visit_all].
  { exists (Ok st.1). split; [done|]. split; [apply Hst|]. split; [by intros a ?%elem_of_nil|]. exists []. rewrite app_nil_r.
    split; [done|]. by intros s ?%elem_of_nil. }
  destruct (Services p !! a) as [s|] eqn:Ea; [|eexists; split; [done|]; exists a; split; [left|done]].
  destruct (visit_spec (depth p) ∅ a st) as (st1 & E & [Hst1 (new & E1 & Hnew)] & Hin); [eauto|apply unvisited_depth|done|set_solver|].
  rewrite E. simpl. destruct (IH st1 Hst1) as (r & E' & Hr). exists r. split; [done|]. destruct r as [order|e]; [|set_solver].
  destruct Hr as (Ho & Hall & new' & E2 & Hnew'). split; [done|]. split.
  - intros b [->|Hb]%elem_of_cons; [|auto]. rewrite E2, fmap_app. set_solver.
  - exists (new ++ new'). rewrite E2, E1, app_assoc. split; [done|]. intros s' [Hs'|Hs']%elem_of_app.
    + exists a. split; [left|auto].
    + destruct (Hnew' s' Hs') as (b & Hb & Hr). exists b. split; [by right|done].
Qed.

(** What is in order is closed under what it depends on. *)
Lemma in_order_closed order a b : in_order order → a ∈ Name <$> order → rtc depends a b → b ∈ Name <$> order.
Proof.
  intros Ho Ha Hab. induction Hab as [|a c b Hac _ IH]; [done|]. apply IH. apply list_elem_of_fmap in Ha as (s & -> & Hs).
  apply list_elem_of_lookup in Hs as [i Hi]. destruct (order_after _ Ho i s c Hi Hac) as (j & _ & Hj). by apply list_elem_of_lookup_2 in Hj.
Qed.

End Graph.

(** C30: services are started in an order that works. For a project whose
    dependencies are all there and not circular, [Order] returns; it fails
    only for a name that is no service's; and it gives the services that were
    named, or all of them, with all that they depend on and no others, each
    once, and each after every service it depends on. *)
Theorem Order_spec p names :
  present p → acyclic p → named p →
  ∃ r, Order p names = Some r ∧
    match r with
    | Ok order => in_order p order ∧
        ∀ a, a ∈ Name <$> order ↔ if decide (names = []) then is_Some (Services p !! a) else ∃ n, n ∈ names ∧ rtc (depends p) n a
    | Err _ => ∃ n, n ∈ names ∧ Services p !! n = None
    end.
Proof.
  intros Hp Ha Hn. unfold Order. set (names' := if bool_decide _ then _ else _).
  assert (visiting_ p ∅ ([], ∅)) as H0 by (split; simpl; [set_solver|set_solver|]; split; [apply NoDup_nil_2|set_solver|done]).
  destruct (visit_all_spec p Hp Ha Hn names' ([], ∅) H0) as (r & E & Hr). exists r. split; [done|].
  assert (names' = if decide (names = []) then ServiceNames p else names) as En.
  { unfold names'. destruct (decide (names = [])); [by rewrite bool_decide_true|by rewrite bool_decide_false]. }
  rewrite En in Hr. destruct r as [order|e].
  - destruct Hr as (Ho & Hall & new & -> & Hnew). split; [done|]. simpl in *. intros a. destruct (decide (names = [])).
    + split; [|intros Hs; by apply Hall, elem_of_sorted_keys]. intros (s & -> & Hs)%list_elem_of_fmap. exists s. by apply (order_services _ _ Ho).
    + split; [intros (s & -> & Hs)%list_elem_of_fmap; by apply Hnew|]. intros (n0 & Hn0 & Hr). eapply in_order_closed; [done|by apply Hall|done].
  - destruct Hr as (a & Ha' & Hnone). destruct (decide (names = [])); [|by exists a].
    apply elem_of_sorted_keys in Ha' as [s Hs]. congruence.
Qed.

(** ** Free subnets *)

(** The [i]th subnet of the pool, as a network. *)
Definition pool_net (i : nat) : IPNet := mkIPNet [10; 213; Z.of_nat i; 0]%Z 24 32.

Definition pool : IPNet := mkIPNet [10; 213; 0; 0]%Z 16 32.

Lemma candidate_net i : i < 256 → candidate i = mkPrefix (IPNet_IP (pool_net i)) (IPNet_ones (pool_net i)) ∧ is_net4 (pool_net i).
Proof.
  intros Hi. assert (Forall (λ i, candidate i = mkPrefix (IPNet_IP (pool_net i)) 24 ∧
    keep_bits 24 (value (IPNet_IP (pool_net i))) = value (IPNet_IP (pool_net i))) (seq 0 256)) as H
    by (apply (bool_decide_unpack _); vm_compute; exact Logic.I).
  rewrite Forall_forall in H. destruct (H i) as [E1 E2]; [apply elem_of_seq; lia|]. split; [exact E1|].
  split_and!; [|done|simpl; lia..|exact E2]. apply is_ip4_inv. unfold is_byte. do 4 eexists. split; [done|]. lia.
Qed.

(** A subnet that is in use is written without bits past its prefix. *)
Lemma usedSubnets_nets nets :
  Forall is_net4 nets → usedSubnets (IPNet_String <$> nets) = (λ n, mkPrefix (IPNet_IP n) (IPNet_ones n)) <$> nets.
Proof.
  induction 1 as [|n nets Hn Hnets IH]; [done|]. unfold usedSubnets in *. cbn. rewrite ParsePrefix_String by done. cbn.
  rewrite IH. repeat f_equal. destruct Hn as (Hip & _ & Ho & Hk). unfold masked. rewrite BitLen_ip4 by done.
  destruct (masked_value (IPNet_IP n) (IPNet_ones n)) as [Hm Hv]; [done..|]. apply value_inj; [done..|congruence].
Qed.

(** C31: a subnet that is picked for a network is free: it is one of the pool's
    256, and shares no address with a subnet in use; and none is picked only if
    every one of the pool shares an address with a subnet in use. *)
Theorem FreeSubnet_spec nets :
  Forall is_net4 nets →
  let disjoint a b := ¬ ∃ v, in_net a v ∧ in_net b v in
  match FreeSubnet (IPNet_String <$> nets) with
  | Ok s => ∃ i, i < 256 ∧ s = IPNet_String (pool_net i) ∧ (∀ v, in_net (pool_net i) v → in_net pool v) ∧
      ∀ n, n ∈ nets → disjoint n (pool_net i)
  | Err _ => ∀ i, i < 256 → ∃ n, n ∈ nets ∧ ¬ disjoint n (pool_net i)
  end.
Proof.
  intros Hnets disjoint. assert (∀ i, i < 256 → forallb (λ u, negb (Overlaps u (candidate i))) (usedSubnets (IPNet_String <$> nets)) = true ↔
    ∀ n, n ∈ nets → disjoint n (pool_net i)) as Hfree.
  { intros i Hi. destruct (candidate_net i Hi) as [-> Hc]. rewrite usedSubnets_nets by done. rewrite forallb_forall.
    rewrite Forall_forall in Hnets. split.
    - intros H n Hn. unfold disjoint. rewrite <-Overlaps_spec by auto. apply not_true_iff_false, negb_true_iff, H, list_elem_of_In.
      apply list_elem_of_fmap. eauto.
    - intros H u (n & -> & Hn)%list_elem_of_In%list_elem_of_fmap. apply negb_true_iff, not_true_iff_false.
      rewrite Overlaps_spec by auto. by apply H. }
  unfold FreeSubnet. change (Z.to_nat _) with 256. destruct (List.find _ _) as [c|] eqn:E.
  - apply find_some in E as [(i & -> & Hi%elem_of_seq)%list_elem_of_In%list_elem_of_fmap Hf]. exists i. split; [lia|].
    split; [destruct (candidate_net i) as [-> _]; [lia|done]|]. split; [|apply Hfree; [lia|done]].
    intros v. unfold in_net, pool_net, pool. simpl. rewrite !value4. change (2 ^ 8)%Z with 256%Z. change (2 ^ 16)%Z with 65536%Z. lia.
  - intros i Hi. pose proof (find_none _ _ E (candidate i)) as Hn. apply not_true_iff_false in Hn.
    + rewrite Hfree in Hn by done. destruct (decide (List.Exists (λ n, Overlaps (mkPrefix (IPNet_IP n) (IPNet_ones n)) (candidate i) = true) nets))
        as [(n & Hin & Ho)%Exists_exists|Hno].
      * exists n. split; [done|]. intros Hd. apply Hd. rewrite Forall_forall in Hnets. destruct (candidate_net i Hi) as [Ec Hc].
        rewrite Ec in Ho. by apply Overlaps_spec in Ho; auto.
      * destruct Hn. intros n Hin. unfold disjoint. destruct (candidate_net i Hi) as [Ec Hc]. rewrite Forall_forall in Hnets.
        rewrite <-Overlaps_spec by auto. rewrite <-Ec. intros Ho. apply Hno, Exists_exists. eauto.
    + apply list_elem_of_In, list_elem_of_fmap. exists i. split; [done|]. apply elem_of_seq. lia.
Qed.

(** ** Examples *)

Definition example_service (name : string) (deps : list string) : Service :=
  mkService name ("shop-" +:+ name) ((λ d, mkDependency d "service_started") <$> deps).

Definition example_project : Project :=
  mkProject "shop" (list_to_map ((λ s, (Name s, s)) <$>
    [example_service "api" ["db"; "cache"]; example_service "cache" []; example_service "db" []; example_service "web" ["api"]])).

Lemma example_accepted : present example_project ∧ acyclic example_project ∧ named example_project.
Proof.
  destruct (checkDependencies_iff example_project) as (r & E & [H _]).
  assert (checkDependencies example_project = Some (Ok tt)) as E' by (vm_compute; reflexivity).
  destruct H as [Hp Ha]; [congruence|]. split_and!; [done..|].
  assert (map_Forall (λ a s, Name s = a) (Services example_project)) as Hn by (apply (bool_decide_unpack _); vm_compute; exact Logic.I).
  exact Hn.
Qed.

Lemma Order_spec_witness :
  match Order example_project ["web"] with Some (Ok order) => Name <$> order | _ => [] end = ["db"; "cache"; "api"; "web"] ∧
  ∃ r, Order example_project ["web"] = Some r ∧
    match r with
    | Ok order => in_order example_project order ∧
        ∀ a, a ∈ Name <$> order ↔ if decide (["web"] = []) then is_Some (Services example_project !! a)
          else ∃ n, n ∈ ["web"] ∧ rtc (depends example_project) n a
    | Err _ => ∃ n, n ∈ ["web"] ∧ Services example_project !! n = None
    end.
Proof.
  split; [vm_compute; reflexivity|]. destruct example_accepted as (Hp & Ha & Hn).
  exact (Order_spec example_project ["web"] Hp Ha Hn).
Defined.

Definition example_nets : list IPNet := [pool_net 0; mkIPNet [172; 20; 0; 0]%Z 16 32].

Lemma example_nets_ok : Forall is_net4 example_nets.
Proof.
  repeat constructor; try done; simpl; try lia; unfold is_byte; lia.
Qed.

Lemma FreeSubnet_spec_witness :
  FreeSubnet (IPNet_String <$> example_nets) = Ok "10.213.1.0/24" ∧
  ∃ i, i < 256 ∧ ∀ n, n ∈ example_nets → ¬ ∃ v, in_net n v ∧ in_net (pool_net i) v.
Proof.
  assert (FreeSubnet (IPNet_String <$> example_nets) = Ok "10.213.1.0/24") as E by (vm_compute; reflexivity).
  split; [exact E|]. pose proof (FreeSubnet_spec example_nets example_nets_ok) as H. cbv zeta in H. rewrite E in H.
  destruct H as (i & Hi & _ & _ & Hd). by exists i.
Defined.

End Compose.
