(* ===== verification/Host.v ===== *)
(** * The instance manager: its state, and what it asks

    [internal/instance]: what a [Manager] and the host keep of instances, the
    questions the daemon asks of the world outside it, and its mutexes. Each
    operation of [Manager] is a program of [Conc] over this state: every file
    operation and every access under a mutex of its own is one atomic step. *)

From S2P Require Import Prelude Errdefs Naming Health Token Addr Network NetworkManager Instance Definitions FileStore Conc.

Module Host.
Import Instance.

(** ** What the manager is given *)

(** A hypervisor version that the daemon has ([hypervisor.Starter]). *)
Record Starter := mkStarter { Version : string; DefaultKernelArgs : string; PowerOffEndsVM : bool }.

(** [Capacity]: what it is unset, and what [Allocatable] computes from it. The
    overcommit factors are floating-point numbers. *)
Record Capacity := mkCapacity { Unlimited : bool; Capacity_Host : Res.Resources; Allocatable : Res.Resources }.

(** The configuration of a [Manager]. *)
Record Config := mkConfig {
  runDir : string;
  dataDir : string;
  starters : string → list Starter;
  capacity : Capacity;
  sharesDirectories : bool;
  servesDNS : bool;
}.

(** An image of the host ([image.Image]), as far as an instance is started
    from it. *)
Record Image := mkImage {
  Digest : string;
  DiskPath : string;
  Entrypoint : list string;
  Image_Cmd : list string;
  Image_Env : gmap string string;
  WorkingDir : string;
  Image_User : string;
  Image_HealthCheck : option Health.Check;
}.

(** What [hypervisor.Capabilities] says of a hypervisor. *)
Record Capabilities := mkCapabilities {
  SupportsSnapshot : bool;
  SupportsHotplugMemory : bool;
  SupportsHotplugCPU : bool;
  SupportsPause : bool;
}.

(** ** What is kept *)

(** An active instance's VMM, by a handle of its process, and its health
    monitor. *)
Record supervised := mkSupervised { vmm : Z; health : option Health.Monitor }.

(** A waiter: what it has been sent of its instance's stops and health. *)
Record Waiter := mkWaiter { stopped : option Status; healthy : bool }.

(** The actions of instances' events. *)
Inductive Action :=
  | ActionCreated | ActionUpdated | ActionDeleted | ActionStarted | ActionStopped | ActionPaused
  | ActionResumed | ActionStandby | ActionExited | ActionDied | ActionRestarting | ActionRenamed
  | ActionResized | ActionHealthy | ActionUnhealthy | ActionSnapshotRestored.

(** The kinds of resource events are about, and an event without its time and
    its texts. *)
Inductive EventKind := KindInstance | KindSnapshot.

Record Event := mkEvent { Event_Kind : EventKind; Event_ID : string; Event_Name : string; Event_Action : Action }.

(** The daemon's state and the host's. On disk: the definitions, the address
    allocations, each instance's status by ID ([None] for a file that cannot
    be read), and what each has frozen on standby by name. On the host: the
    VMM and virtiofsd processes, each network's and instance's devices, and the
    ports published for each instance, by ID.
    In memory: the rest. *)
Record Host := mkHost {
  store : Store.Store;
  networks : NetworkManager.Manager;
  statuses : gmap string (option Status);
  standbys : gmap string (option Snapshot.Snapshot);
  processes : gset Z;
  bridges : gset string;
  taps : gset string;
  published : gmap string (list Network.PortMapping);
  dnsServers : gset string;
  vmms : gmap string supervised;
  wakers : gset string;
  waiters : gmap string (gmap nat Waiter);
  restarts : gmap string nat;
  lastPending : nat;
  removals : list Spec;
  events : list Event;
  closing : bool;
}.

Definition set_store (s : Host) x := mkHost x (networks s) (statuses s) (standbys s) (processes s) (bridges s) (taps s) (published s) (dnsServers s) (vmms s) (wakers s) (waiters s) (restarts s) (lastPending s) (removals s) (events s) (closing s).

Definition set_networks (s : Host) x := mkHost (store s) x (statuses s) (standbys s) (processes s) (bridges s) (taps s) (published s) (dnsServers s) (vmms s) (wakers s) (waiters s) (restarts s) (lastPending s) (removals s) (events s) (closing s).

Definition set_statuses (s : Host) x := mkHost (store s) (networks s) x (standbys s) (processes s) (bridges s) (taps s) (published s) (dnsServers s) (vmms s) (wakers s) (waiters s) (restarts s) (lastPending s) (removals s) (events s) (closing s).

Definition set_standbys (s : Host) x := mkHost (store s) (networks s) (statuses s) x (processes s) (bridges s) (taps s) (published s) (dnsServers s) (vmms s) (wakers s) (waiters s) (restarts s) (lastPending s) (removals s) (events s) (closing s).

Definition set_processes (s : Host) x := mkHost (store s) (networks s) (statuses s) (standbys s) x (bridges s) (taps s) (published s) (dnsServers s) (vmms s) (wakers s) (waiters s) (restarts s) (lastPending s) (removals s) (events s) (closing s).

Definition set_bridges (s : Host) x := mkHost (store s) (networks s) (statuses s) (standbys s) (processes s) x (taps s) (published s) (dnsServers s) (vmms s) (wakers s) (waiters s) (restarts s) (lastPending s) (removals s) (events s) (closing s).

Definition set_taps (s : Host) x := mkHost (store s) (networks s) (statuses s) (standbys s) (processes s) (bridges s) x (published s) (dnsServers s) (vmms s) (wakers s) (waiters s) (restarts s) (lastPending s) (removals s) (events s) (closing s).

Definition set_published (s : Host) x := mkHost (store s) (networks s) (statuses s) (standbys s) (processes s) (bridges s) (taps s) x (dnsServers s) (vmms s) (wakers s) (waiters s) (restarts s) (lastPending s) (removals s) (events s) (closing s).

Definition set_dnsServers (s : Host) x := mkHost (store s) (networks s) (statuses s) (standbys s) (processes s) (bridges s) (taps s) (published s) x (vmms s) (wakers s) (waiters s) (restarts s) (lastPending s) (removals s) (events s) (closing s).

Definition set_vmms (s : Host) x := mkHost (store s) (networks s) (statuses s) (standbys s) (processes s) (bridges s) (taps s) (published s) (dnsServers s) x (wakers s) (waiters s) (restarts s) (lastPending s) (removals s) (events s) (closing s).

Definition set_wakers (s : Host) x := mkHost (store s) (networks s) (statuses s) (standbys s) (processes s) (bridges s) (taps s) (published s) (dnsServers s) (vmms s) x (waiters s) (restarts s) (lastPending s) (removals s) (events s) (closing s).

Definition set_waiters (s : Host) x := mkHost (store s) (networks s) (statuses s) (standbys s) (processes s) (bridges s) (taps s) (published s) (dnsServers s) (vmms s) (wakers s) x (restarts s) (lastPending s) (removals s) (events s) (closing s).

Definition set_restarts (s : Host) x n := mkHost (store s) (networks s) (statuses s) (standbys s) (processes s) (bridges s) (taps s) (published s) (dnsServers s) (vmms s) (wakers s) (waiters s) x n (removals s) (events s) (closing s).

Definition set_removals (s : Host) x := mkHost (store s) (networks s) (statuses s) (standbys s) (processes s) (bridges s) (taps s) (published s) (dnsServers s) (vmms s) (wakers s) (waiters s) (restarts s) (lastPending s) x (events s) (closing s).

Definition set_events (s : Host) x := mkHost (store s) (networks s) (statuses s) (standbys s) (processes s) (bridges s) (taps s) (published s) (dnsServers s) (vmms s) (wakers s) (waiters s) (restarts s) (lastPending s) (removals s) x (closing s).

(** ** What is asked of the world *)

(** What a VM is started with ([hypervisor.VMSpec]). *)
Record DiskConfig := mkDiskConfig { Disk_Path : string; Disk_ReadOnly : bool; RateLimitBytesPerSecond : Z; RateLimitIOPS : Z }.

Record FilesystemConfig := mkFilesystemConfig { Tag : string; Socket : string }.

Record NetworkInterfaceConfig := mkNIC { TAPDevice : string; NIC_IP : string; NIC_MAC : string; NIC_Netmask : string; NIC_MTU : Z }.

Record VMSpec := mkVMSpec {
  KernelPath : string;
  VM_KernelArgs : string;
  InitrdPath : string;
  CPU_Count : Z;
  CPU_MaxCount : Z;
  SizeBytes : Z;
  HotplugBytes : Z;
  Disks : list DiskConfig;
  Filesystems : list FilesystemConfig;
  NetworkInterfaces : list NetworkInterfaceConfig;
  VM_CID : Z;
}.

(** A step that may fail; the removal of a directory; the time; an image; a
    path to be found; a VMM or virtiofsd to start, or to find running; a
    connection to a hypervisor, and a command to it; whether a VMM exits
    before a deadline; what a guest left on its status disk, and a VMM's
    exit; the draws and the write of an address allocation; a disk's size; the
    writes of networks' allocations; the ports whose rules can be removed; a new
    ID. *)
Inductive query :=
  | QDo (what : string)
  | QRemoveAll (what : string)
  | QNow
  | QImage (ref : string)
  | QPath (what : string)
  | QStartVM (socket : string) (spec : VMSpec)
  | QRestoreVM (socket dir : string)
  | QAttach (pid : Z)
  | QShare (dir : string)
  | QConnect (version : string)
  | QVMPaused
  | QExits (vmm : Z)
  | QGuestStatus (dir : string)
  | QVMMErr (vmm : Z)
  | QAllocate
  | QDiskSize (path : string)
  | QWrites
  | QUnpublish
  | QNewID.

Definition answer (q : query) : Type :=
  match q with
  | QDo _ => option error
  | QRemoveAll _ => Store.RemoveAll
  | QNow => Z
  | QImage _ => result Image
  | QPath _ => result string
  | QStartVM _ _ | QRestoreVM _ _ | QAttach _ | QShare _ => result Z
  | QConnect _ => result Capabilities
  | QVMPaused => result bool
  | QExits _ => bool
  | QGuestStatus _ => result GuestStatus
  | QVMMErr _ => VMMExit
  | QAllocate => NetworkManager.Env
  | QDiskSize _ => result (option Z)
  | QWrites => string → option error
  | QUnpublish => Network.PortMapping → bool
  | QNewID => string
  end.

(** The manager's mutexes: [lock], [networkLock] and [admissionMu]. A new
    instance's ID is known to nobody but the request that generated it, as a
    lock that is never waited for. *)
Inductive lock := InstanceLock (id : string) | NetworkLock (name : string) | AdmissionLock | NewID (id : string).

#[global] Instance lock_eq_dec : EqDecision lock.
Proof. solve_decision. Defined.

#[global] Instance lock_countable : Countable lock.
Proof.
  refine (inj_countable' (λ l, match l with
    | InstanceLock x => (0, x) | NetworkLock x => (1, x) | AdmissionLock => (2, EmptyString) | NewID x => (3, x) end)
    (λ p : nat * string, match p with
    | (0, x) => InstanceLock x | (1, x) => NetworkLock x | (2, _) => AdmissionLock | (_, x) => NewID x end) _).
  by intros [].
Defined.

Abbreviation M := (prog (S:=Host) (answer:=answer) (lock:=lock)).

(** *** Fallible programs *)

(** A step whose outcome is an error or none. *)
Definition attempt (what : string) : M (result unit) :=
  ask (QDo what : query) ≫= λ e : option error, mret (if e is Some e then Err e else Ok tt).

End Host.

Open Scope prog_scope.
