(* ===== verification/Manager.v ===== *)
(** * The instance manager: its operations

    [internal/instance]: admission, starting and stopping instances, pausing,
    standby, resizing, snapshots, restarts, and recovery after the daemon
    restarts. Each operation is the program its source is: its steps in
    order, its early returns, and what it undoes when it fails. What only
    writes logs or metrics is left out. *)

From S2P Require Import Prelude Errdefs Naming Health Token Addr Network NetworkManager Instance Definitions FileStore Conc Host.

Module Manager.
Import Instance Host.

Section Manager.

Context (cfg : Config).

(** ** Paths ([paths.go]) *)

Definition runtimeDir (instanceID : string) : string := Str.join "/" [runDir cfg; "instances"; instanceID].

Definition hypervisorSocketPath (instanceID : string) : string := runtimeDir instanceID +:+ "/hypervisor.sock".

Definition vsockPath (instanceID : string) : string := runtimeDir instanceID +:+ "/vsock.sock".

(** ** Status ([instance_status.go], [state.go]) *)

(** A status of which only the state is set. *)
Definition bareStatus (id : string) (state : State) (err : option error) : Status :=
  mkStatus id state err None "" "" 0 "" 0 0 "" "" "" None 0 0 None 0 0 0.

Definition setState (s : Status) (state : State) (err : option error) : Status :=
  mkStatus (InstanceID s) state err (VMMPID s) (HypervisorSocketPath s) (Status_HypervisorVersion s) (VsockCID s)
    (VsockPath s) (Status_VCPUs s) (Status_MemoryBytes s) (Status_ImageDigest s) (IP s) (MAC s) (Status_HealthCheck s)
    (StartedAt s) (Status_UpdatedAt s) (ExitCode s) (FinishedAt s) (RestartCount s) (NextRestartAt s).

Definition setResources (r : Res.Resources) (s : Status) : Status :=
  mkStatus (InstanceID s) (Status_State s) (StateError s) (VMMPID s) (HypervisorSocketPath s) (Status_HypervisorVersion s)
    (VsockCID s) (VsockPath s) (Res.VCPUs r) (Res.MemoryBytes r) (Status_ImageDigest s) (IP s) (MAC s)
    (Status_HealthCheck s) (StartedAt s) (Status_UpdatedAt s) (ExitCode s) (FinishedAt s) (RestartCount s)
    (NextRestartAt s).

Definition setUpdatedAt (s : Status) (now : Z) : Status :=
  mkStatus (InstanceID s) (Status_State s) (StateError s) (VMMPID s) (HypervisorSocketPath s) (Status_HypervisorVersion s)
    (VsockCID s) (VsockPath s) (Status_VCPUs s) (Status_MemoryBytes s) (Status_ImageDigest s) (IP s) (MAC s)
    (Status_HealthCheck s) (StartedAt s) now (ExitCode s) (FinishedAt s) (RestartCount s) (NextRestartAt s).

Definition forgetProcess (s : Status) : Status :=
  mkStatus (InstanceID s) (Status_State s) (StateError s) None "" (Status_HypervisorVersion s) (VsockCID s)
    (VsockPath s) 0 0 (Status_ImageDigest s) (IP s) (MAC s) (Status_HealthCheck s)
    0 (Status_UpdatedAt s) (ExitCode s) (FinishedAt s) (RestartCount s) 0.

(** What [ended] sets besides the state. *)
Definition setEnd (s : Status) (id : string) (code : option Z) (finishedAt restarts nextRestartAt : Z) : Status :=
  mkStatus id (Status_State s) (StateError s) (VMMPID s) (HypervisorSocketPath s) (Status_HypervisorVersion s) (VsockCID s)
    (VsockPath s) (Status_VCPUs s) (Status_MemoryBytes s) (Status_ImageDigest s) (IP s) (MAC s) (Status_HealthCheck s)
    (StartedAt s) (Status_UpdatedAt s) code finishedAt restarts nextRestartAt.

(** What a status file says: none is a stopped instance, and one that cannot
    be read a failed one. *)
Definition status_in (m : gmap string (option Status)) (id : string) : Status :=
  match m !! id with
  | None => bareStatus id StateStopped None
  | Some None => bareStatus id StateFailed (Some (Errdefs.New "corrupt instance status"))
  | Some (Some s) => s
  end.

Definition readStatus (instanceID : string) : M Status := gets (λ s, status_in (statuses s) instanceID).

Definition onStandby (instance : Spec) : M bool := gets (λ s, bool_decide (is_Some (standbys s !! Name instance))).

Definition statusOf (instance : Spec) : M Status :=
  status ← readStatus (ID instance);
  if bool_decide (Status_State status = StateStopped) || bool_decide (Status_State status = StateFailed) then
    frozen ← onStandby instance;
    mret (if frozen : bool then setState status StateStandby (StateError status) else status)
  else mret status.

Definition writeStatus (status : Status) : M (result unit) :=
  wrapping "create runtime directory %s: %w" (attempt "mkdir runtime directory") ?;
  now ← ask QNow;
  attempt "write status" ?;
  modify (λ s, set_statuses s (<[InstanceID status := Some (setUpdatedAt status now)]> (statuses s))) ≫= λ _,
  mret (Ok tt).

(** [removeRuntimeDir]. A removal that fails may have removed the status. *)
Definition removeRuntimeDir (instanceID : string) : M (result unit) :=
  outcome ← ask (QRemoveAll "runtime directory");
  match outcome : Store.RemoveAll with
  | Store.Removed => modify (λ s, set_statuses s (delete instanceID (statuses s))) ≫= λ _, mret (Ok tt)
  | Store.NotRemoved e gone =>
      (if gone : bool then modify (λ s, set_statuses s (delete instanceID (statuses s))) else mret tt) ≫= λ _,
      mret (Err (Errorf "remove runtime directory %s: %w" e))
  end.

Definition transitionWith (instance : Spec) (to : State) (update : Status → Status) : M (result unit) :=
  status ← statusOf instance;
  if negb (bool_decide (Status_State status = to)) && negb (CanTransitionTo (Status_State status) to)
  then mret (Err (InvalidState "instance %q is %s, and cannot become %s"))
  else writeStatus (update (setState status to None)).

Definition transition (instance : Spec) (to : State) : M (result unit) := transitionWith instance to id.

(** ** Waiters and events ([wait.go], [events.go]) *)

(** A channel that holds one value takes no second one. *)
Definition notifyWaiters (status : Status) : M unit :=
  modify (λ s, set_waiters s (alter (fmap (λ w : Waiter,
    match stopped w with None => mkWaiter (Some status) (healthy w) | Some _ => w end)) (InstanceID status) (waiters s))).

Definition notifyHealthy (instanceID : string) : M unit :=
  modify (λ s, set_waiters s (alter (fmap (λ w : Waiter, mkWaiter (stopped w) true)) instanceID (waiters s))).

Definition isStopped (state : State) : bool := bool_decide (state = StateStopped) || bool_decide (state = StateFailed).

Definition record (instance : Spec) (action : Action) : M unit :=
  modify (λ s, set_events s (events s ++ [mkEvent KindInstance (ID instance) (Name instance) action])).

Definition recordSnapshot (snapshot : Snapshot.Snapshot) (action : Action) : M unit :=
  modify (λ s, set_events s (events s ++ [mkEvent KindSnapshot (Snapshot.ID snapshot) (Snapshot.Name snapshot) action])).

(** [fail] *)
Definition fail (instanceID : string) (cause : error) : M unit :=
  status ← readStatus instanceID;
  let status := setState (forgetProcess status) StateFailed (Some cause) in
  writeStatus status ≫= λ _,
  found ← gets (λ s, Store.Instance (store s) instanceID);
  match found with
  | Ok instance => frozen ← onStandby instance; if frozen : bool then mret tt else notifyWaiters status
  | Err _ => notifyWaiters status
  end.

Definition rereadDefinition (instance : Spec) : M (result Spec) := gets (λ s, Store.Instance (store s) (ID instance)).

Definition lookupInstance (nameOrID : string) : M (result Spec) := gets (λ s, Store.Instance (store s) nameOrID).

(** ** Wakers ([wake.go]) *)

Definition stopWaker (instanceID : string) : M unit := modify (λ s, set_wakers s (wakers s ∖ {[instanceID]})).

Definition syncWaker (instanceID : string) : M unit :=
  found ← gets (λ s, Store.Instance (store s) instanceID);
  want ← match found with
    | Ok instance =>
        if (0 <? StandbyAfter instance)%Z then
          frozen ← onStandby instance;
          if frozen : bool then status ← statusOf instance; mret (negb (IsActive (Status_State status)))
          else mret false
        else mret false
    | Err _ => mret false
    end;
  running ← gets (λ s, bool_decide (instanceID ∈ wakers s));
  if want && negb running then modify (λ s, set_wakers s ({[instanceID]} ∪ wakers s))
  else if negb want && running then stopWaker instanceID
  else mret tt.

(** ** Standby's files ([standby.go]) *)

Definition readStandby (instance : Spec) : M (result Snapshot.Snapshot) :=
  gets (λ s, match standbys s !! Name instance with
             | None => Err (Errorf "read standby: %w" (Sentinel ErrNotExist))
             | Some None => Err (Errorf "parse standby: %w" (Errdefs.New "not JSON"))
             | Some (Some standby) => Ok standby
             end).

(** A removal that fails may have removed what says the instance is on
    standby. *)
Definition removeStandby (instance : Spec) : M (result unit) :=
  outcome ← ask (QRemoveAll "standby directory");
  match outcome : Store.RemoveAll with
  | Store.Removed => modify (λ s, set_standbys s (delete (Name instance) (standbys s))) ≫= λ _, mret (Ok tt)
  | Store.NotRemoved e gone =>
      (if gone : bool then modify (λ s, set_standbys s (delete (Name instance) (standbys s))) else mret tt) ≫= λ _,
      mret (Err e)
  end.

Definition discardStandby (instance : Spec) : M (result unit) := wrapping "discard standby: %w" (removeStandby instance).

(** ** Hypervisors ([hypervisor.go]) *)

Definition resolveStarter (instance : Spec) (version : string) : result Starter :=
  match starters cfg (EffectiveHypervisorType instance) with
  | [] => Err (Errorf "hypervisor %s: %w" (Sentinel ErrUnsupported))
  | (first :: _) as all =>
      if bool_decide (version = "") then Ok first
      else match List.find (λ s, bool_decide (Version s = version)) all with
           | Some s => Ok s
           | None => Err (InvalidArgument "no hypervisor %s %s on this host")
           end
  end.

Definition snapshotStarter (snapshot : Snapshot.Snapshot) : result Starter :=
  match List.find (λ s, bool_decide (Version s = Snapshot.HypervisorVersion snapshot))
          (starters cfg (Snapshot.HypervisorType snapshot)) with
  | Some s => Ok s
  | None => Err (InvalidState "snapshot %q was taken with %s %s, which this daemon does not have")
  end.

Definition connect (instance : Spec) (status : Status) : M (result Capabilities) :=
  match resolveStarter instance (Status_HypervisorVersion status) with
  | Err e => mret (Err e)
  | Ok starter =>
      wrapping "connect to hypervisor: %w" (r ← ask (QConnect (Version starter)); mret (r : result Capabilities))
  end.

Definition requireCapability (supported : bool) : result unit :=
  if supported then Ok tt else Err (Errorf "hypervisor %s does not support %s: %w" (Sentinel ErrUnsupported)).

(** ** Supervision ([supervise.go]) *)

Definition supervise (instance : Spec) (vmm : Z) (status : Status) : M unit :=
  modify (λ s, set_vmms s (<[ID instance := mkSupervised vmm
    ((λ check, Health.NewMonitor check (StartedAt status)) <$> Status_HealthCheck status)]> (vmms s))).

Definition vmmOf (instanceID : string) : M (option Z) := gets (λ s, match vmms s !! instanceID with Some v => Some (vmm v) | None => None end).

Definition forget (instanceID : string) : M unit := modify (λ s, set_vmms s (delete instanceID (vmms s))).

(** The end of a process, and the start of one. *)
Definition process_ends (vmm : Z) : M unit := modify (λ s, set_processes s (processes s ∖ {[vmm]})).

Definition process_starts (vmm : Z) : M unit := modify (λ s, set_processes s ({[vmm]} ∪ processes s)).

Inductive stopOutcome := stopNotRunning | stopGraceful | stopTimedOut | stopForced.

Definition shutdownGracefully (status : Status) (vmm : Z) : M stopOutcome :=
  if negb (bool_decide (Status_State status = StateRunning)) || bool_decide (VsockPath status = "") then mret stopForced
  else
    asked ← attempt "ask the guest to shut down";
    match asked with
    | Err _ => mret stopForced
    | Ok _ => exits ← ask (QExits vmm); mret (if exits : bool then stopGraceful else stopTimedOut)
    end.

(** [syncGuest] *)
Definition syncGuest (status : Status) : M unit :=
  if negb (bool_decide (Status_State status = StateRunning)) || bool_decide (VsockPath status = "") then mret tt
  else attempt "flush the guest's disks" ≫= λ _, mret tt.

(** [stopVMM]: the VMM ends, by itself, by being shut down or by being
    killed. *)
Definition stopVMM (instance : Spec) (status : Status) (graceful : bool) : M stopOutcome :=
  found ← vmmOf (ID instance);
  match found with
  | None => mret stopNotRunning
  | Some vmm =>
      deferred (forget (ID instance)) (
        outcome ← (if graceful then shutdownGracefully status vmm else mret stopForced);
        match outcome with
        | stopGraceful => process_ends vmm ≫= λ _, mret stopGraceful
        | _ =>
            syncGuest status ≫= λ _,
            hv ← connect instance status;
            (match hv with
             | Ok _ => attempt "shut the hypervisor down" ≫= λ _, mret tt
             | Err _ => attempt "kill the hypervisor" ≫= λ _, mret tt
             end) ≫= λ _,
            (** Killed if it does not exit in time. *)
            ask (QExits vmm) ≫= λ _,
            process_ends vmm ≫= λ _,
            mret outcome
        end)
  end.

(** [scheduleRestart]: the pending restart of an instance, by its number. *)
Definition scheduleRestart (instanceID : string) : M unit :=
  modify (λ s, if closing s then s
               else set_restarts s (<[instanceID := S (lastPending s)]> (restarts s)) (S (lastPending s))).

Definition cancelRestart (instanceID : string) : M unit :=
  modify (λ s, set_restarts s (delete instanceID (restarts s)) (lastPending s)).

(** [scheduleRemoval]: the instance is deleted by a goroutine of its own. *)
Definition scheduleRemoval (instance : Spec) : M unit :=
  if negb (RemoveOnExit instance) then mret tt else modify (λ s, set_removals s (removals s ++ [instance])).

(** ** The host's network ([network.go]) *)

Definition allocationOf (instance : Spec) : M (result Network.Allocation) :=
  gets (λ s, NetworkManager.AllocationOf (networks s) (NetworkName instance) (ID instance)).

(** The loop of [networkInUse]. *)
Fixpoint networkInUse (others : list Spec) (nw : Network.Network) (excludeID : string) : M bool :=
  match others with
  | [] => mret false
  | other :: others =>
      if bool_decide (ID other = excludeID) || negb (bool_decide (NetworkName other = Network.Name nw))
      then networkInUse others nw excludeID
      else
        status ← statusOf other;
        if IsActive (Status_State status) || bool_decide (Status_State status = StateStarting) then mret true
        else networkInUse others nw excludeID
  end.

(** A port of an instance is published while there is a rule of it. *)
Definition publish (instanceID : string) (p : Network.PortMapping) : M unit :=
  modify (λ s, set_published s (<[instanceID := default [] (published s !! instanceID) ++ [p]]> (published s))).

(** [UnpublishPorts]: the rules that can be removed are, and what is left of the
    others stays. *)
Definition unpublishPorts (instanceID : string) : M unit :=
  removed ← ask QUnpublish;
  modify (λ s, set_published s (partial_alter (λ ports,
    let left := List.filter (λ p, negb (removed p)) (default [] ports) in
    if bool_decide (left = []) then None else Some left) instanceID (published s))).

Definition deleteTAP (instanceID : string) : M (result unit) :=
  attempt "delete TAP" ?;
  modify (λ s, set_taps s (taps s ∖ {[instanceID]})) ≫= λ _, mret (Ok tt).

(** [RemoveTAP]: a device that cannot be deleted stays. *)
Definition removeTAP (instanceID : string) : M unit :=
  ignoring (attempt "remove upload limit") ≫= λ _, ignoring (deleteTAP instanceID).

(** [addTAP]. Once the device is there, each of the rest may fail. *)
Definition addTAP (instanceID : string) : M (result unit) :=
  wrapping "create TAP %s: %w" (attempt "create TAP") ?;
  modify (λ s, set_taps s ({[instanceID]} ∪ taps s)) ≫= λ _,
  wrapping "look up TAP %s: %w" (attempt "look up TAP") ?;
  wrapping "set TAP %s up: %w" (attempt "set TAP up") ?;
  attempt "connect TAP".

(** [CreateTAP]. On failure the device may be left behind. *)
Definition createTAP (instanceID : string) (upload download : Z) : M (result unit) :=
  wrapping "remove stale upload limit: %w" (attempt "remove upload limit") ?;
  wrapping "delete existing TAP: %w" (deleteTAP instanceID) ?;
  on_error (ignoring (deleteTAP instanceID)) (addTAP instanceID) ?;
  (if (0 <? download)%Z then wrapping "apply download limit: %w" (attempt "limit download") else mret (Ok tt)) ?;
  (if (0 <? upload)%Z then wrapping "apply upload limit: %w" (attempt "limit upload") else mret (Ok tt)).

Definition teardownNetwork (instance : Spec) : M unit :=
  found ← gets (λ s, Store.Network (store s) (NetworkName instance));
  match found with
  | Err _ => mret tt
  | Ok nw =>
      unpublishPorts (ID instance) ≫= λ _,
      removeTAP (ID instance) ≫= λ _,
      with_lock (NetworkLock (Network.Name nw)) (
        others ← gets (λ s, Store.Instances (store s));
        used ← networkInUse others nw (ID instance);
        if used : bool then mret tt
        else
          (if servesDNS cfg then modify (λ s, set_dnsServers s (dnsServers s ∖ {[Network.Name nw]})) else mret tt) ≫= λ _,
          deleted ← attempt "delete bridge";
          if is_ok deleted then modify (λ s, set_bridges s (bridges s ∖ {[Network.Name nw]})) else mret tt)
  end.

(** What attaching an instance to its network comes to. *)
Record networkSetup := mkNetworkSetup {
  setup_network : Network.Network;
  nic : NetworkInterfaceConfig;
  gateway : string;
  nameservers : list string;
  prefixLen : Z;
}.

Definition guestAddress (setup : networkSetup) : string := NIC_IP (nic setup) +:+ "/" +:+ Str.itoa (prefixLen setup).

Definition upstreamNameservers (nw : Network.Network) : list string :=
  if Network.Internal nw then []
  else if bool_decide (Network.Nameservers nw = []) then [Network.DefaultNameserver]
  else Network.Nameservers nw.

Definition serveDNS (nw : Network.Network) : M bool :=
  if negb (servesDNS cfg) then mret false
  else
    served ← attempt "serve DNS";
    match served with
    | Err _ => mret false
    | Ok _ => modify (λ s, set_dnsServers s ({[Network.Name nw]} ∪ dnsServers s)) ≫= λ _, mret true
    end.

Definition attachTAP (nw : Network.Network) (instance : Spec) : M (result bool) :=
  with_lock (NetworkLock (Network.Name nw)) (
    wrapping "set up bridge %q: %w" (attempt "set up bridge") ?;
    modify (λ s, set_bridges s ({[Network.Name nw]} ∪ bridges s)) ≫= λ _,
    on_error (removeTAP (ID instance))
      (wrapping "create TAP device: %w" (createTAP (ID instance) (UploadBytesPerSecond instance) (DownloadBytesPerSecond instance))) ?;
    served ← serveDNS nw;
    mret (Ok served)).

(** [undo] of [setupNetwork] *)
Definition undoNetwork (instanceID : string) : M unit := unpublishPorts instanceID ≫= λ _, removeTAP instanceID.

(** The loop of [PublishPorts] that adds the two rules of each port. *)
Fixpoint publishEach (instanceID : string) (ports : list Network.PortMapping) : M (result unit) :=
  match ports with
  | [] => mret (Ok tt)
  | p :: ports =>
      on_error (unpublishPorts instanceID) (wrapping "publish port %s: %w" (
        attempt "append forward rule" ?;
        publish instanceID p ≫= λ _,
        attempt "append DNAT rule")) ?;
      publishEach instanceID ports
  end.

(** [PublishPorts], of an instance that has ports. *)
Definition publishPorts (instance : Spec) : M (result unit) :=
  if bool_decide (Ports instance = []) then mret (Ok tt)
  else
    wrapping "set up %s chain: %w" (attempt "set up DNAT chain") ?;
    unpublishPorts (ID instance) ≫= λ _,
    attempt "check host ports" ?;
    publishEach (ID instance) (Ports instance).

Definition allocate (nw : Network.Network) (instance : Spec) : M (result Network.Allocation) :=
  env ← ask QAllocate;
  atomically (λ s,
    let '(r, m) := NetworkManager.Allocate env (networks s) nw (ID instance) (StaticIP instance) in
    (r, Host.set_networks s m)).

Definition setupNetwork (instance : Spec) : M (result networkSetup) :=
  nw ←? wrapping "get network %q: %w" (gets (λ s, Store.Network (store s) (NetworkName instance)));
  allocation ←? wrapping "allocate address on network %q: %w" (allocate nw instance);
  serves ←? attachTAP nw instance;
  on_error (undoNetwork (ID instance)) (
    publishPorts instance ?;
    netmask ←? mret (Network.Netmask nw);
    prefixLen ←? mret (Network.PrefixLen nw);
    let mtu := if (Network.MTU nw =? 0)%Z then Network.DefaultMTU else Network.MTU nw in
    mret (Ok (mkNetworkSetup nw
      (mkNIC (Network.TAPName (ID instance)) (Network.Allocation_IP allocation) (Network.Allocation_MAC allocation) netmask mtu)
      (Network.Gateway nw) (if serves : bool then [Network.Gateway nw] else upstreamNameservers nw) prefixLen))).

(** ** Admission ([admission.go]) *)

Definition CheckResources (r : Res.Resources) : result unit :=
  if Unlimited (capacity cfg) then Ok tt
  else
    refuse_if (Res.VCPUs (Capacity_Host (capacity cfg)) <? Res.VCPUs r)%Z
      (InvalidArgument "%d vCPUs is more than the host's %d CPUs") ;;
    refuse_if (negb (Res.Fits r (Allocatable (capacity cfg))))
      (InvalidArgument "%s is more than this host can give instances in total (%s)").

(** The loop of [allocated]. *)
Fixpoint allocated_loop (instances : list Spec) (excludeID : string) (total : Res.Resources) : M Res.Resources :=
  match instances with
  | [] => mret total
  | instance :: instances =>
      if bool_decide (ID instance = excludeID) then allocated_loop instances excludeID total
      else
        status ← statusOf instance;
        allocated_loop instances excludeID (Res.Add total (HeldResources status))
  end.

Definition allocated (excludeID : string) : M Res.Resources :=
  instances ← gets (λ s, Store.Instances (store s));
  allocated_loop instances excludeID Res.zero.

Definition checkRoom (instance : Spec) (need : Res.Resources) : M (result unit) :=
  if Unlimited (capacity cfg) then mret (Ok tt)
  else
    total ← allocated (ID instance);
    mret (refuse_if (negb (Res.Fits (Res.Add total need) (Allocatable (capacity cfg))))
      (ResourceExhausted "instance %q needs %s, but %s of the %s this host allows is committed")).

(** Whether a port of one instance overlaps one of the other. *)
Definition portsOverlap (instance other : Spec) : bool :=
  existsb (λ p, existsb (Network.PortsOverlap p) (Ports other)) (Ports instance).

(** The loop of [checkPorts] and that of [checkVolumes]: an instance that has
    none of what is looked for, or does not hold what it has, is passed
    over. *)
Fixpoint checkOthers (instance : Spec) (none clash : Spec → bool) (err : error) (instances : list Spec) : M (result unit) :=
  match instances with
  | [] => mret (Ok tt)
  | other :: instances =>
      if bool_decide (ID other = ID instance) || none other then checkOthers instance none clash err instances
      else
        status ← statusOf other;
        if negb (HoldsPortsAndVolumes (Status_State status)) then checkOthers instance none clash err instances
        else if clash other then mret (Err err)
        else checkOthers instance none clash err instances
  end.

Definition checkPorts (instance : Spec) : M (result unit) :=
  if bool_decide (Ports instance = []) then mret (Ok tt)
  else 
    instances ← gets (λ s, Store.Instances (store s));
    checkOthers instance (λ other, bool_decide (Ports other = [])) (portsOverlap instance)
      (InvalidState "port %s is already published by instance %q, which is %s") instances.

Definition isVolume (m : Mount) : bool := bool_decide (Mount_Type m = MountTypeVolume).

(** Whether the instances mount a volume that either may write to. *)
Definition volumesClash (instance other : Spec) : bool :=
  existsb (λ mine, isVolume mine &&
    match VolumeMount other (Source mine) with
    | Some theirs => negb (ReadOnly mine) || negb (ReadOnly theirs)
    | None => false
    end) (Mounts instance).

Definition checkVolumes (instance : Spec) : M (result unit) :=
  if negb (existsb isVolume (Mounts instance)) then mret (Ok tt)
  else 
    instances ← gets (λ s, Store.Instances (store s));
    checkOthers instance (λ other, negb (existsb isVolume (Mounts other))) (volumesClash instance)
      (InvalidState "volume %q is attached to instance %q, which is %s, and a volume can be shared only while every instance mounts it read-only") instances.

Definition admit_ (instance : Spec) (need : Res.Resources) : M (result unit) :=
  with_lock AdmissionLock (
    lookupInstance (ID instance) ?;
    checkRoom instance need ?;
    checkPorts instance ?;
    checkVolumes instance ?;
    transitionWith instance StateStarting (setResources need)).

Definition reserve (instance : Spec) (need : Res.Resources) : M (result unit) :=
  with_lock AdmissionLock (
    checkRoom instance need ?;
    transitionWith instance StateRunning (setResources need)).

(** ** What an instance boots from ([start.go]) *)

(** Where a guest's mount comes from, and the mount ([guest.Mount]). *)
Inductive GuestSource :=
  | VolumeSource (device : string)
  | FileSource (data : string) (mode : Z)
  | DirectorySource (tag : string)
  | TmpfsSource.

Record GuestMount := mkGuestMount { Guest_Target : string; Guest_ReadOnly : bool; Guest_Source : GuestSource }.

Record directoryShare := mkDirectoryShare { tag : string; target : string; source : string; readOnly : bool }.

Record resolvedMounts := mkResolvedMounts {
  guest : list GuestMount;
  disks : list (string * bool);
  shares : list directoryShare;
}.

(** [Path] of the volume manager *)
Definition volumePath (v : Volume.Volume) : string := Str.join "/" [dataDir cfg; "volumes"; Volume.ID v; "disk.raw"].

Definition volumeDisk (name : string) : M (result string) :=
  volume ←? wrapping "get volume %q: %w" (gets (λ s, Store.Volume (store s) name));
  wrapping "volume %q disk: %w" (attempt "stat volume disk") ?;
  mret (Ok (volumePath volume)).

(** [fmt.Sprintf("/dev/vd%c", 'e'+n)] *)
Definition volumeDevice (n : nat) : string :=
  "/dev/vd" +:+ Str.of_list [ascii_of_nat (nat_of_ascii "e" + n)].

(** One turn of the loop of [resolveMounts]. *)
Definition resolveMount (mount : Mount) (r : resolvedMounts) : M (result resolvedMounts) :=
  let add src disks shares :=
    mkResolvedMounts (guest r ++ [mkGuestMount (Target mount) (ReadOnly mount) src]) disks shares in
  if bool_decide (Mount_Type mount = MountTypeVolume) then
    path ←? volumeDisk (Source mount);
    mret (Ok (add (VolumeSource (volumeDevice (length (disks r)))) (disks r ++ [(path, ReadOnly mount)]) (shares r)))
  else if bool_decide (Mount_Type mount = MountTypeFile) then
    mret (Ok (add (FileSource (Content mount) (FileMode mount)) (disks r) (shares r)))
  else if bool_decide (Mount_Type mount = MountTypeDirectory) then
    found ←? wrapping "mount on %s: %w" (r ← ask (QPath "allowed directory"); mret (r : result string));
    let share := mkDirectoryShare ("dicerfs" +:+ Str.itoa (Z.of_nat (length (shares r)))) (Target mount) found (ReadOnly mount) in
    mret (Ok (add (DirectorySource (tag share)) (disks r) (shares r ++ [share])))
  else if bool_decide (Mount_Type mount = MountTypeTmpfs) then mret (Ok (add TmpfsSource (disks r) (shares r)))
  else mret (Err (Errdefs.New "mount on %s: unknown type %q")).

Fixpoint resolveMounts_loop (mounts : list Mount) (r : resolvedMounts) : M (result resolvedMounts) :=
  match mounts with
  | [] => mret (Ok r)
  | mount :: mounts => r ←? resolveMount mount r; resolveMounts_loop mounts r
  end.

Definition resolveMounts (instance : Spec) : M (result resolvedMounts) :=
  resolveMounts_loop (Mounts instance) (mkResolvedMounts [] [] []).

Record bootAssets := mkBootAssets {
  image : Image;
  kernelPath : string;
  kernelArgs : string;
  initrdPath : string;
  mounts : resolvedMounts;
  filesystems : list FilesystemConfig;
}.

Definition ensureImage (ref : string) : M (result Image) := r ← ask (QImage ref); mret (r : result Image).

Definition findPath (what : string) : M (result string) := r ← ask (QPath what); mret (r : result string).

(** [resolveBoot]. The reference of the image, at its digest, is found by the
    reference parser. *)
Definition resolveBoot (instance : Spec) (starter : Starter) : M (result bootAssets) :=
  let args := if bool_decide (KernelArgs instance = "") then DefaultKernelArgs starter else KernelArgs instance in
  pinned ←? wrapping "image %q: %w" (findPath "pinned image reference");
  image ←? wrapping "get image %q: %w" (ensureImage pinned);
  wrapping "get kernel %q: %w" (gets (λ s, Store.Kernel (store s) (KernelName instance))) ?;
  kernelPath ←? findPath "kernel";
  initrdPath ←? wrapping "prepare initrd: %w" (findPath "initrd");
  mounts ←? resolveMounts instance;
  mret (Ok (mkBootAssets image kernelPath args initrdPath mounts [])).

(** [vsockCID], of an ID in ASCII. *)
Definition vsockCID (instanceID : string) : Z :=
  let sum := foldl (λ sum c, int64_wrap (sum * 37 + Z.of_nat (nat_of_ascii c)))%Z 0%Z
               (Str.to_list (Str.take 8 instanceID)) in
  (Z.rem sum 4294967292 + 3)%Z.

Definition vmSpec (instance : Spec) (b : bootAssets) (nic : NetworkInterfaceConfig) : VMSpec :=
  let disk '(path, ro) := mkDiskConfig path ro (DiskBytesPerSecond instance) (DiskIOPS instance) in
  mkVMSpec (kernelPath b) (kernelArgs b) (initrdPath b) (VCPUs instance) (MaxVCPUs instance) (MemoryBytes instance)
    (Z.max (int64_wrap (MaxMemoryBytes instance - MemoryBytes instance)) 0)
    (disk <$> [(DiskPath (image b), true); ("overlay.img", false); ("config.img", true); ("status.img", false)]
       ++ disks (mounts b))
    (filesystems b) [nic] (vsockCID (ID instance)).

(** The loop of [startShares]: the virtiofsd processes started so far are
    stopped if one cannot start. *)
Fixpoint startShares_loop (i : nat) (shares : list directoryShare) (procs : list Z) (fs : list FilesystemConfig)
  : M (result (list FilesystemConfig * list Z)) :=
  match shares with
  | [] => mret (Ok (fs, procs))
  | share :: shares =>
      started ← ask (QShare (source share));
      match started : result Z with
      | Err e => for_all process_ends procs ≫= λ _, mret (Err (Errorf "mount on %s: %w" e))
      | Ok p =>
          process_starts p ≫= λ _,
          startShares_loop (1 + i) shares (procs ++ [p])
            (fs ++ [mkFilesystemConfig (tag share) ("fs" +:+ Str.itoa (Z.of_nat i) +:+ ".sock")])
      end
  end.

Definition startShares (instance : Spec) (shares : list directoryShare) : M (result (list FilesystemConfig * list Z)) :=
  if bool_decide (length shares = 0) then mret (Ok ([], []))
  else if negb (sharesDirectories cfg)
  then mret (Err (InvalidState "this host cannot share directories with guests: dicerd logged why when it started"))
  else if negb (bool_decide (EffectiveHypervisorType instance = TypeCloudHypervisor))
  then mret (Err (InvalidState "directory mounts need %s, not %s"))
  else startShares_loop 0 shares [] [].

(** The configuration handed to the guest ([guest.Config]). *)
Record GuestConfig := mkGuestConfig {
  Guest_Hostname : string;
  Guest_Entrypoint : list string;
  Guest_Cmd : list string;
  Workdir : string;
  Guest_Env : gmap string string;
  Guest_Mode : string;
  Guest_User : string;
  Guest_Mounts : list GuestMount;
  StatusDevice : string;
  HaltPowerOff : bool;
  Guest_Nameservers : list string;
  Guest_Address : string;
  Guest_MTU : Z;
  Guest_Gateway : string;
}.

(** [cmp.Or] of two strings *)
Definition or_string (a b : string) : string := if bool_decide (a = "") then b else a.

Definition mergeEnv (base override : gmap string string) : gmap string string := override ∪ base.

Definition buildInitConfig (instance : Spec) (image : Image) (mounts : list GuestMount) (setup : networkSetup)
  (starter : Starter) : GuestConfig :=
  let own := negb (bool_decide (Cmd instance = [])) in
  mkGuestConfig (or_string (Hostname instance) (Name instance))
    (if own then Cmd instance else Entrypoint image) (if own then [] else Image_Cmd image) (WorkingDir image)
    (mergeEnv (Image_Env image) (Env instance)) (or_string (InitMode instance) "auto")
    (or_string (User instance) (Image_User image)) mounts "/dev/vdd" (PowerOffEndsVM starter)
    (nameservers setup) (guestAddress setup) (NIC_MTU (nic setup)) (gateway setup).

Definition writeGuestDisks (config : GuestConfig) : M (result unit) :=
  wrapping "invalid init config: %w" (attempt "validate init config") ?;
  wrapping "provision config disk: %w" (attempt "provision config disk") ?;
  wrapping "write status disk: %w" (attempt "write status disk").

(** ** Recording a run *)

Record runRecord := mkRunRecord {
  run_hypervisorVersion : string;
  run_held : Res.Resources;
  run_imageDigest : string;
  run_vsockCID : Z;
  run_restarts : Z;
  run_healthCheck : option Health.Check;
}.

(** The status of a run that starts now. *)
Definition runningStatus (instance : Spec) (vmm : Z) (run : runRecord) (now : Z) : Status :=
  mkStatus (ID instance) StateRunning None (Some vmm) (hypervisorSocketPath (ID instance)) (run_hypervisorVersion run)
    (run_vsockCID run) (vsockPath (ID instance)) (Res.VCPUs (run_held run)) (Res.MemoryBytes (run_held run))
    (run_imageDigest run) "" "" (run_healthCheck run) now 0 None 0 (run_restarts run) 0.

Definition recordRunning (instance : Spec) (vmm : Z) (run : runRecord) : M (result Status) :=
  now ← ask QNow;
  let status := runningStatus instance vmm run now in
  wrapping "record instance status: %w" (writeStatus status) ?;
  mret (Ok status).

(** The VMM a starter launches. *)
Definition startVM (socket : string) (spec : VMSpec) : M (result Z) :=
  started ← ask (QStartVM socket spec);
  match started : result Z with
  | Err e => mret (Err (Errorf "start vm: %w" e))
  | Ok vmm => process_starts vmm ≫= λ _, mret (Ok vmm)
  end.

Definition prepareRuntimeDir : M (result unit) := attempt "prepare runtime directory".

Definition boot (instance : Spec) (restarts : Z) : M (result unit) :=
  starter ←? mret (resolveStarter instance (HypervisorVersion instance));
  b ←? resolveBoot instance starter;
  discardStandby instance ?;
  prepareRuntimeDir ?;
  on_error (ignoring (removeRuntimeDir (ID instance))) (
    wrapping "provision overlay disk: %w" (attempt "ensure overlay disk") ?;
    setup ←? setupNetwork instance;
    on_error (undoNetwork (ID instance)) (
      ' (fs, procs) ←? startShares instance (shares (mounts b));
      on_error (for_all process_ends procs) (
        let b := mkBootAssets (image b) (kernelPath b) (kernelArgs b) (initrdPath b) (mounts b) fs in
        writeGuestDisks (buildInitConfig instance (image b) (guest (mounts b)) setup starter) ?;
        vmm ←? startVM (hypervisorSocketPath (ID instance)) (vmSpec instance b (nic setup));
        on_error (process_ends vmm) (
          status ←? recordRunning instance vmm
            (mkRunRecord (Version starter) (Spec_Resources instance) (Digest (image b)) (vsockCID (ID instance)) restarts
               (Health.EffectiveCheck (HealthCheck instance) (Image_HealthCheck (image b))));
          supervise instance vmm status ≫= λ _,
          record instance ActionStarted ≫= λ _,
          mret (Ok tt))))).

(** A definition with [StoppedByUser] set. *)
Definition withStoppedByUser (s : Spec) (stopped : bool) : Spec := {|
  ID := ID s; Name := Name s; Hostname := Hostname s; ImageRef := ImageRef s; ImageDigest := ImageDigest s;
  HypervisorType := HypervisorType s; HypervisorVersion := HypervisorVersion s; KernelName := KernelName s;
  KernelArgs := KernelArgs s; VCPUs := VCPUs s; MemoryBytes := MemoryBytes s; DiskBytes := DiskBytes s;
  NetworkName := NetworkName s; StaticIP := StaticIP s; MaxVCPUs := MaxVCPUs s; MaxMemoryBytes := MaxMemoryBytes s;
  DiskBytesPerSecond := DiskBytesPerSecond s; DiskIOPS := DiskIOPS s; UploadBytesPerSecond := UploadBytesPerSecond s;
  DownloadBytesPerSecond := DownloadBytesPerSecond s; StandbyAfter := StandbyAfter s; Ports := Ports s; Mounts := Mounts s;
  Env := Env s; Cmd := Cmd s; InitMode := InitMode s; User := User s; Labels := Labels s; Restart := Restart s;
  HealthCheck := HealthCheck s; CreatedAt := CreatedAt s; UpdatedAt := UpdatedAt s; RemoveOnExit := RemoveOnExit s;
  StoppedByUser := stopped;
|}.

(** [UpdateInstance] of the store. *)
Definition updateInstance (v : Spec) : M (result unit) :=
  e ← ask (QDo "write definition");
  atomically (λ s, let '(r, st) := Store.UpdateInstance e (store s) v in (r, set_store s st)).

Definition setStoppedByUser (instance : Spec) (stopped : bool) : M unit :=
  found ← lookupInstance (ID instance);
  match found with
  | Err _ => mret tt
  | Ok current =>
      if Bool.eqb (StoppedByUser current) stopped then mret tt
      else ignoring (updateInstance (withStoppedByUser current stopped))
  end.

(** ** The end of a run ([supervise.go], [exit.go]) *)

Definition readExit (instanceID : string) (vmmErr : VMMExit) : M Exit :=
  found ← ask (QGuestStatus (runtimeDir instanceID));
  mret (classifyExit (match found : result GuestStatus with Ok g => g | Err _ => mkGuestStatus None 0 end) vmmErr).

(** [recordEnd] *)
Definition recordEnd (instance : Spec) (exit : Exit) (decision : restartDecision) : M unit :=
  record instance (if Exit_Clean exit then ActionExited else ActionDied) ≫= λ _,
  if restart decision then record instance ActionRestarting else mret tt.

(** The status [ended] records of a run that ended. *)
Definition endedStatus (instance : Spec) (prev : Status) (exit : Exit) (decision : restartDecision) (now : Z) : Status :=
  let '(state, err, next) :=
    if restart decision then (StateRestarting, Failure exit, (now + delay decision)%Z)
    else if Exit_Clean exit then (StateStopped, None, 0%Z)
    else if gaveUp decision then (StateFailed, Errorf "gave up after %s: %v" <$> Failure exit, 0%Z)
    else (StateFailed, Failure exit, 0%Z) in
  setState (setEnd (forgetProcess prev) (ID instance) (Code exit) now (Instance.restarts decision) next) state err.

Definition ended (instance : Spec) (prev : Status) (exit : Exit) : M unit :=
  teardownNetwork instance ≫= λ _,
  since ← ask QNow;
  let ranFor := if (StartedAt prev =? 0)%Z then 0%Z else time_sub since (StartedAt prev) in
  let decision := decideRestart (Restart instance) exit (RestartCount prev) ranFor in
  now ← ask QNow;
  let status := endedStatus instance prev exit decision now in
  ignoring (writeStatus status) ≫= λ _,
  recordEnd instance exit decision ≫= λ _,
  if restart decision then scheduleRestart (ID instance)
  else notifyWaiters status ≫= λ _, scheduleRemoval instance.

(** ** Resuming a frozen guest ([snapshot.go], [standby.go]) *)

(** A memory snapshot's guest, or an instance's on standby, which has no disk
    to put back. *)
Record frozenGuest := mkFrozenGuest { frozen_snapshot : Snapshot.Snapshot; frozen_dir : string; frozen_overlay : string }.

Definition frozenSnapshot (snapshot : Snapshot.Snapshot) : frozenGuest :=
  mkFrozenGuest snapshot (Str.join "/" [dataDir cfg; "snapshots"; Snapshot.Name snapshot])
    (Str.join "/" [dataDir cfg; "snapshots"; Snapshot.Name snapshot; "overlay.img"]).

Definition restoreVM (socket dir : string) : M (result Z) :=
  started ← ask (QRestoreVM socket dir);
  match started : result Z with
  | Err e => mret (Err (Errorf "restore vm: %w" e))
  | Ok vmm => process_starts vmm ≫= λ _, mret (Ok vmm)
  end.

(** [frozenGuestStatus] *)
Definition frozenGuestStatus (dir : string) : M (result GuestStatus) :=
  found ← ask (QGuestStatus dir);
  mret (match found : result GuestStatus with
        | Ok g => Ok g
        | Err e => if Is e ErrNotExist then Ok (mkGuestStatus None 1) else Err e
        end).

(** [endedAsItResumed] *)
Definition endedAsItResumed (instance : Spec) (vmm : Z) : M (result unit) :=
  exited ← ask (QExits vmm);
  if negb (exited : bool) then mret (Ok tt)
  else
    vmmErr ← ask (QVMMErr vmm);
    exit ← readExit (ID instance) vmmErr;
    mret (Err (match Failure exit with
               | None => Errdefs.New "the guest of instance %q ended as it resumed, with exit code 0"
               | Some e => Errorf "the guest of instance %q ended as it resumed: %w" e
               end)).

(** The overlay disk a restore replaces is kept until the restore succeeds,
    and put back if it fails. *)
Definition keepingOverlay {A} (overlay : string) (p : M (result A)) : M (result A) :=
  if bool_decide (overlay = "") then p
  else
    ignoring (attempt "remove kept overlay disk") ≫= λ _,
    linked ← ask (QDiskSize "overlay disk");
    match linked : result (option Z) with
    | Err e => mret (Err (Errorf "keep overlay disk: %w" e))
    | Ok kept =>
        let rest := wrapping "restore overlay disk: %w" (attempt "copy overlay disk") ?; p in
        if kept is Some _ then on_error (ignoring (attempt "put overlay disk back")) rest else rest
    end.

(** A call to the guest's agent: one that fails because the guest has ended is
    the guest's end. *)
Definition toAgent (instance : Spec) (vmm : Z) (what : string) (failed : error → result unit) : M (result unit) :=
  answered ← attempt what;
  match answered with
  | Ok _ => mret (Ok tt)
  | Err e => endedAsItResumed instance vmm ?; mret (failed e)
  end.

(** [grpcstatus.Code(err) == codes.Unimplemented] *)
Fixpoint isUnimplemented (e : error) : bool :=
  match e with
  | GRPCStatus c _ => bool_decide (c = CodeUnimplemented)
  | Errorf _ e => isUnimplemented e
  | _ => false
  end.

(** [restore], and what its caller does with the VMM before it releases what
    undoes the restore. *)
Definition restore {A} (instance : Spec) (frozen : frozenGuest) (starter : Starter) (image : Image)
  (k : Z → M (result A)) : M (result A) :=
  prepareRuntimeDir ?;
  on_error (ignoring (removeRuntimeDir (ID instance))) (
    keepingOverlay (frozen_overlay frozen) (
      mounts ←? resolveMounts instance;
      setup ←? setupNetwork instance;
      on_error (undoNetwork (ID instance)) (
        let forked := negb (bool_decide (ID instance = ID (Snapshot.Instance (frozen_snapshot frozen)))) in
        (if forked then attempt "disconnect TAP" else mret (Ok tt)) ?;
        frozenGuestStatus (frozen_dir frozen) ?;
        writeGuestDisks (buildInitConfig instance image (guest mounts) setup starter) ?;
        vmm ←? restoreVM (hypervisorSocketPath (ID instance)) (frozen_dir frozen);
        on_error (process_ends vmm) (
          wrapping "resume restored instance: %w" (attempt "resume VM") ?;
          (if bool_decide (frozen_overlay frozen = "") then ignoring (removeStandby instance) else mret tt) ≫= λ _,
          toAgent instance vmm "set the guest's clock" (λ _, Ok tt) ?;
          (if forked then
             toAgent instance vmm "set the guest's identity" (λ e, Err (
               if isUnimplemented e
               then InvalidState "the guest of instance %q has an agent too old to take another identity; restart that instance, then fork it or a new snapshot of it"
               else Errorf "give the guest its own identity: %w" e)) ?;
             attempt "connect TAP"
           else mret (Ok tt)) ?;
          k vmm)))).

Definition snapshotImage : M (result Image) :=
  pinned ←? wrapping "image %q: %w" (findPath "pinned image reference");
  wrapping "get image %q: %w" (ensureImage pinned).

Definition snapshotResources (snapshot : Snapshot.Snapshot) : Res.Resources :=
  Res.mkResources (Snapshot.VCPUs snapshot) (Snapshot.MemoryBytes snapshot).

Definition resume (instance : Spec) (frozen : frozenGuest) : M (result unit) :=
  let snapshot := frozen_snapshot frozen in
  starter ←? mret (snapshotStarter snapshot);
  admit_ instance (snapshotResources snapshot) ?;
  setStoppedByUser instance false ≫= λ _,
  r ← (image ←? snapshotImage;
       restore instance frozen starter image (λ vmm,
         status ←? recordRunning instance vmm
           (mkRunRecord (Snapshot.HypervisorVersion snapshot) (snapshotResources snapshot) (Snapshot.ImageDigest snapshot)
              (vsockCID (ID (Snapshot.Instance snapshot))) 0
              (Health.EffectiveCheck (HealthCheck instance) (Image_HealthCheck image)));
         ignoring (attempt "remove kept overlay disk") ≫= λ _,
         supervise instance vmm status ≫= λ _,
         mret (Ok tt)));
  match r with
  | Err e => fail (ID instance) e ≫= λ _, mret (Err e)
  | Ok _ => mret (Ok tt)
  end.

Definition standbyDir (instance : Spec) : string := Str.join "/" [dataDir cfg; "instances"; Name instance; "standby"].

Definition resumeStandby (instance : Spec) : M (result unit) :=
  standby ←? readStandby instance;
  stopWaker (ID instance) ≫= λ _,
  on_error (record instance ActionDied) (resume instance (mkFrozenGuest standby (standbyDir instance) "")) ?;
  record instance ActionStarted ≫= λ _,
  mret (Ok tt).

(** ** Starting and stopping ([start.go], [stop.go], [delete.go]) *)

Definition start (instance : Spec) : M (result unit) :=
  with_lock (InstanceLock (ID instance)) (
    instance ←? rereadDefinition instance;
    deferred (syncWaker (ID instance)) (
      status ← statusOf instance;
      if IsActive (Status_State status) then mret (Err (InvalidState "instance %q is already %s"))
      else
        cancelRestart (ID instance) ≫= λ _,
        frozen ← onStandby instance;
        if frozen : bool then resumeStandby instance
        else
          admit_ instance (Spec_Resources instance) ?;
          setStoppedByUser instance false ≫= λ _,
          booted ← boot instance 0;
          match booted with
          | Err e => fail (ID instance) e ≫= λ _, record instance ActionDied ≫= λ _, mret (Err e)
          | Ok _ => mret (Ok tt)
          end)).

Definition Start (nameOrID : string) : M (result unit) := instance ←? lookupInstance nameOrID; start instance.

Definition stop (instance : Spec) : M (result unit) :=
  with_lock (InstanceLock (ID instance)) (
    instance ←? rereadDefinition instance;
    deferred (syncWaker (ID instance)) (
      cancelRestart (ID instance) ≫= λ _,
      setStoppedByUser instance true ≫= λ _,
      status ← statusOf instance;
      discardStandby instance ?;
      match Status_State status with
      | StateStopped => mret (Ok tt)
      | StateStandby =>
          record instance ActionStopped ≫= λ _,
          notifyWaiters (bareStatus (ID instance) StateStopped None) ≫= λ _,
          scheduleRemoval instance ≫= λ _,
          mret (Ok tt)
      | _ =>
          transition instance StateStopping ?;
          stopVMM instance status true ≫= λ _,
          teardownNetwork instance ≫= λ _,
          wrapping "remove runtime directory: %w" (removeRuntimeDir (ID instance)) ?;
          record instance ActionStopped ≫= λ _,
          notifyWaiters (bareStatus (ID instance) StateStopped None) ≫= λ _,
          scheduleRemoval instance ≫= λ _,
          mret (Ok tt)
      end)).

Definition Stop (nameOrID : string) : M (result unit) := instance ←? lookupInstance nameOrID; stop instance.

Definition releaseAddress (network instanceID : string) : M (result unit) :=
  e ← ask (QDo "write allocations");
  atomically (λ s, let '(r, m) := NetworkManager.Release e (networks s) network instanceID in (r, Host.set_networks s m)).

(** [DeleteInstance] of the store: the instance's directory goes, and what it
    has on standby with it. *)
Definition deleteInstance (nameOrID : string) : M (result unit) :=
  outcome ← ask (QRemoveAll "instance directory");
  atomically (λ s,
    match Store.Instance (store s) nameOrID with
    | Err e => (Err e, s)
    | Ok v =>
        let '(r, st) := Store.DeleteInstance outcome (store s) nameOrID in
        let frozen := match outcome with
          | Store.Removed | Store.NotRemoved _ true => delete (Name v) (standbys s)
          | Store.NotRemoved _ false => standbys s
          end in
        (r, set_standbys (set_store s st) frozen)
    end).

Definition delete (instance : Spec) (force : bool) : M (result unit) :=
  with_lock (InstanceLock (ID instance)) (
    instance ←? rereadDefinition instance;
    deferred (syncWaker (ID instance)) (
      status ← statusOf instance;
      if IsActive (Status_State status) && negb force then mret (Err (InvalidState "instance %q is %s"))
      else
        cancelRestart (ID instance) ≫= λ _,
        stopVMM instance status false ≫= λ _,
        teardownNetwork instance ≫= λ _,
        ignoring (releaseAddress (NetworkName instance) (ID instance)) ≫= λ _,
        ignoring (removeRuntimeDir (ID instance)) ≫= λ _,
        wrapping "delete instance %q: %w" (deleteInstance (Name instance)) ?;
        record instance ActionDeleted ≫= λ _,
        notifyWaiters (if isStopped (Status_State status) then status else bareStatus (ID instance) StateStopped None) ≫= λ _,
        mret (Ok tt))).

Definition Delete (nameOrID : string) (force : bool) : M (result unit) :=
  instance ←? lookupInstance nameOrID; delete instance force.

(** ** Pausing and standby ([pause.go], [standby.go], [wake.go]) *)

Record pauseMove := mkPauseMove { from : State; to : State; do : string; move_event : Action }.

Definition setPaused (instance : Spec) (move : pauseMove) : M (result unit) :=
  with_lock (InstanceLock (ID instance)) (
    instance ←? rereadDefinition instance;
    status ← statusOf instance;
    if negb (bool_decide (Status_State status = from move)) then mret (Err (InvalidState "instance %q is %s, not %s"))
    else
      hv ←? connect instance status;
      mret (requireCapability (SupportsPause hv)) ?;
      attempt (do move) ?;
      transition instance (to move) ?;
      record instance (move_event move) ≫= λ _,
      mret (Ok tt)).

Definition Pause (nameOrID : string) : M (result unit) :=
  instance ←? lookupInstance nameOrID;
  setPaused instance (mkPauseMove StateRunning StatePaused "pause VM" ActionPaused).

Definition Resume (nameOrID : string) : M (result unit) :=
  instance ←? lookupInstance nameOrID;
  setPaused instance (mkPauseMove StatePaused StateRunning "resume VM" ActionResumed).

(** [snapshotVM]. Each round pauses a running guest, and resumes it if it
    could not be snapshotted; the hypervisor that is still restoring the
    guest's memory is asked again until the context is done, [rounds] times
    at most. *)
Fixpoint snapshotVM (running : bool) (rounds : nat) : M (result unit) :=
  (if running then wrapping "pause instance: %w" (attempt "pause VM") else mret (Ok tt)) ?;
  taken ← attempt "snapshot VM";
  match taken with
  | Ok _ => mret (Ok tt)
  | Err e =>
      resumed ← (if running then attempt "resume VM" else mret (Ok tt));
      match resumed with
      | Err resumeErr => mret (Err (Join e (Errorf "resume instance: %w" resumeErr)))
      | Ok _ =>
          if negb (Is e ErrRestoringMemory) then mret (Err e)
          else match rounds with
               | 0 => mret (Err (Join e (Sentinel DeadlineExceeded)))
               | S rounds => snapshotVM running rounds
               end
      end
  end.

(** What standby records of the guest it froze. *)
Definition standbyRecord (instance : Spec) (status : Status) (allocation : Network.Allocation) (now : Z) : Snapshot.Snapshot :=
  Snapshot.mkSnapshot "" "standby" Snapshot.SnapshotKindMemory instance (Network.Allocation_IP allocation)
    (Network.Allocation_MAC allocation) (EffectiveHypervisorType instance) (Status_HypervisorVersion status)
    (Status_VCPUs status) (Status_MemoryBytes status) (Status_ImageDigest status) now.

(** [standby]. [rounds] is how often the hypervisor may be asked before the
    context is done. *)
Definition standby (rounds : nat) (instance : Spec) (idleFor : Z) : M (result unit) :=
  with_lock (InstanceLock (ID instance)) (
    instance ←? rereadDefinition instance;
    deferred (syncWaker (ID instance)) (
      status ← statusOf instance;
      still ← (if (0 <? idleFor)%Z then
          current ← lookupInstance (ID instance);
          mret (match current with
            | Err _ => false
            | Ok current => bool_decide (Status_State status = StateRunning) && negb (StandbyAfter current =? 0)%Z &&
                (StandbyAfter current <=? idleFor)%Z
            end)
        else mret true);
      if negb still then mret (Ok tt)
      else if negb (IsActive (Status_State status))
      then mret (Err (InvalidState "instance %q is %s; only a running or paused instance can be put on standby"))
      else if HasDirectoryMount instance
      then mret (Err (InvalidState "instance %q mounts a host directory, whose device cannot be frozen"))
      else
        allocation ←? allocationOf instance;
        hv ←? connect instance status;
        mret (requireCapability (SupportsSnapshot hv)) ?;
        attempt "remove staged standby" ?;
        removeStandby instance ?;
        wrapping "create standby directory: %w" (attempt "mkdir staged standby") ?;
        let running := bool_decide (Status_State status = StateRunning) in
        snapshotVM running rounds ?;
        now ← ask QNow;
        on_error (if running then ignoring (attempt "resume VM") else mret tt) (
          wrapping "copy status disk: %w" (attempt "copy status disk") ?;
          attempt "write standby record") ?;
        stopVMM instance (setState status StatePaused (StateError status)) false ≫= λ _,
        moved ← attempt "move standby into place";
        match moved with
        | Err e =>
            let e := Errorf "move standby into place: %w" e in
            teardownNetwork instance ≫= λ _, fail (ID instance) e ≫= λ _, mret (Err e)
        | Ok _ =>
            modify (λ s, set_standbys s (<[Name instance := Some (standbyRecord instance status allocation now)]> (standbys s))) ≫= λ _,
            teardownNetwork instance ≫= λ _,
            wrapping "remove runtime directory: %w" (removeRuntimeDir (ID instance)) ?;
            record instance ActionStandby ≫= λ _,
            mret (Ok tt)
        end)).

Definition Standby (rounds : nat) (nameOrID : string) : M (result unit) :=
  instance ←? lookupInstance nameOrID; standby rounds instance 0.

Definition wake (instanceID : string) : M (result unit) :=
  with_lock (InstanceLock instanceID) (
    deferred (syncWaker instanceID) (
      instance ←? lookupInstance instanceID;
      status ← statusOf instance;
      if IsActive (Status_State status) then mret (Ok tt)
      else
        frozen ← onStandby instance;
        if frozen : bool then resumeStandby instance
        else mret (Err (InvalidState "instance %q is %s, not on standby")))).

(** ** Definitions ([create.go], [update.go], [rename.go]) *)

Fixpoint checkMounts (mounts : list Mount) : M (result unit) :=
  match mounts with
  | [] => mret (Ok tt)
  | mount :: mounts =>
      (if bool_decide (Mount_Type mount = MountTypeVolume) then
         found ← gets (λ s, Store.Volume (store s) (Source mount));
         mret (wrap_err (λ _, InvalidArgument "%v") found ;; Ok tt)
       else if bool_decide (Mount_Type mount = MountTypeDirectory) then
         found ← findPath "allowed directory";
         mret (wrap_err (λ _, InvalidArgument "mount on %s: %v") found ;; Ok tt)
       else mret (Ok tt)) ?;
      checkMounts mounts
  end.

(** The check of a static address. *)
Definition checkStaticIP (instance : Spec) (n : Network.Network) : result unit :=
  if bool_decide (StaticIP instance = "") then Ok tt
  else
    subnet ← Network.ParseSubnet (Network.Subnet n);
    match Addr.ParseIP (StaticIP instance) with
    | None => Err (InvalidArgument "static IP %q is not an address network %q can assign: its subnet is %s, and its gateway %s")
    | Some ip =>
        refuse_if (negb (Network.Assignable subnet ip) || bool_decide (Addr.ParseIP (Network.Gateway n) = Some ip))
          (InvalidArgument "static IP %q is not an address network %q can assign: its subnet is %s, and its gateway %s")
    end.

Definition checkCanStart (instance : Spec) : M (result unit) :=
  k ← gets (λ s, Store.Kernel (store s) (KernelName instance));
  mret (wrap_err (λ _, InvalidArgument "%v") k) ?;
  n ← gets (λ s, Store.Network (store s) (NetworkName instance));
  n ←? mret (wrap_err (λ _, InvalidArgument "%v") n);
  mret (checkStaticIP instance n) ?;
  checkMounts (Mounts instance) ?;
  mret (CheckResources (MaxResources instance)).

(** [CreateInstance] of the store. *)
Definition createInstance (v : Spec) : M (result unit) :=
  e1 ← ask (QDo "mkdir instance");
  e2 ← ask (QDo "write definition");
  atomically (λ s, let '(r, st) := Store.CreateInstance e1 e2 (store s) v in (r, set_store s st)).

Definition withImageDigest (s : Spec) (digest : string) : Spec := {|
  ID := ID s; Name := Name s; Hostname := Hostname s; ImageRef := ImageRef s; ImageDigest := digest;
  HypervisorType := HypervisorType s; HypervisorVersion := HypervisorVersion s; KernelName := KernelName s;
  KernelArgs := KernelArgs s; VCPUs := VCPUs s; MemoryBytes := MemoryBytes s; DiskBytes := DiskBytes s;
  NetworkName := NetworkName s; StaticIP := StaticIP s; MaxVCPUs := MaxVCPUs s; MaxMemoryBytes := MaxMemoryBytes s;
  DiskBytesPerSecond := DiskBytesPerSecond s; DiskIOPS := DiskIOPS s; UploadBytesPerSecond := UploadBytesPerSecond s;
  DownloadBytesPerSecond := DownloadBytesPerSecond s; StandbyAfter := StandbyAfter s; Ports := Ports s; Mounts := Mounts s;
  Env := Env s; Cmd := Cmd s; InitMode := InitMode s; User := User s; Labels := Labels s; Restart := Restart s;
  HealthCheck := HealthCheck s; CreatedAt := CreatedAt s; UpdatedAt := UpdatedAt s; RemoveOnExit := RemoveOnExit s;
  StoppedByUser := StoppedByUser s;
|}.

Definition Create (instance : Spec) : M (result unit) :=
  mret (Validate instance) ?;
  found ← lookupInstance (Name instance);
  mret (refuse_if (is_ok found) (Exists "instance %q already exists")) ?;
  checkCanStart instance ?;
  resolved ←? ensureImage (ImageRef instance);
  let instance := withImageDigest instance (Digest resolved) in
  createInstance instance ?;
  record instance ActionCreated ≫= λ _,
  mret (Ok tt).

(** The definition with what [onlyPoliciesDiffer] does not compare blanked. *)
Definition withoutPolicies (s : Spec) : Spec := {|
  ID := ID s; Name := Name s; Hostname := Hostname s; ImageRef := ImageRef s; ImageDigest := ImageDigest s;
  HypervisorType := HypervisorType s; HypervisorVersion := HypervisorVersion s; KernelName := KernelName s;
  KernelArgs := KernelArgs s; VCPUs := VCPUs s; MemoryBytes := MemoryBytes s; DiskBytes := DiskBytes s;
  NetworkName := NetworkName s; StaticIP := StaticIP s; MaxVCPUs := MaxVCPUs s; MaxMemoryBytes := MaxMemoryBytes s;
  DiskBytesPerSecond := DiskBytesPerSecond s; DiskIOPS := DiskIOPS s; UploadBytesPerSecond := UploadBytesPerSecond s;
  DownloadBytesPerSecond := DownloadBytesPerSecond s; StandbyAfter := 0; Ports := Ports s; Mounts := Mounts s;
  Env := Env s; Cmd := Cmd s; InitMode := InitMode s; User := User s; Labels := Labels s; Restart := mkRestartPolicy "" 0;
  HealthCheck := HealthCheck s; CreatedAt := CreatedAt s; UpdatedAt := 0; RemoveOnExit := RemoveOnExit s;
  StoppedByUser := StoppedByUser s;
|}.

Definition onlyPoliciesDiffer (a b : Spec) : bool := bool_decide (withoutPolicies a = withoutPolicies b).

Definition checkCanUpdate (current updated : Spec) (state : State) : M (result unit) :=
  if negb (bool_decide (state = StateStopped)) && negb (onlyPoliciesDiffer current updated)
  then mret (Err (InvalidState "instance %q is %s; stop it before changing it"))
  else if (DiskBytes updated =? DiskBytes current)%Z then mret (Ok tt)
  else
    size ← ask (QDiskSize "overlay disk");
    mret (match size : result (option Z) with
          | Err e => Err (Errorf "read overlay disk size: %w" e)
          | Ok None => Ok tt
          | Ok (Some size) => refuse_if (DiskBytes updated <? size)%Z
              (InvalidArgument "instance %q has a %s overlay disk, which cannot shrink: give it at least %[2]s, or recreate the instance for a smaller disk")
          end).

Definition Update (updated : Spec) : M (result unit) :=
  with_lock (InstanceLock (ID updated)) (
    deferred (syncWaker (ID updated)) (
      current ←? lookupInstance (ID updated);
      if negb (bool_decide (Name updated = Name current))
      then mret (Err (InvalidState "instance %q was renamed to %q while it was being updated: update it again"))
      else
        status ← statusOf current;
        mret (Validate updated) ?;
        checkCanUpdate current updated (Status_State status) ?;
        checkCanStart updated ?;
        wrapping "update instance %q: %w" (updateInstance updated) ?;
        record updated ActionUpdated ≫= λ _,
        (if bool_decide (NetworkName current = NetworkName updated) && bool_decide (StaticIP current = StaticIP updated)
         then mret tt else ignoring (releaseAddress (NetworkName current) (ID current))) ≫= λ _,
        mret (Ok tt))).

Definition withName (s : Spec) (name : string) : Spec := {|
  ID := ID s; Name := name; Hostname := Hostname s; ImageRef := ImageRef s; ImageDigest := ImageDigest s;
  HypervisorType := HypervisorType s; HypervisorVersion := HypervisorVersion s; KernelName := KernelName s;
  KernelArgs := KernelArgs s; VCPUs := VCPUs s; MemoryBytes := MemoryBytes s; DiskBytes := DiskBytes s;
  NetworkName := NetworkName s; StaticIP := StaticIP s; MaxVCPUs := MaxVCPUs s; MaxMemoryBytes := MaxMemoryBytes s;
  DiskBytesPerSecond := DiskBytesPerSecond s; DiskIOPS := DiskIOPS s; UploadBytesPerSecond := UploadBytesPerSecond s;
  DownloadBytesPerSecond := DownloadBytesPerSecond s; StandbyAfter := StandbyAfter s; Ports := Ports s; Mounts := Mounts s;
  Env := Env s; Cmd := Cmd s; InitMode := InitMode s; User := User s; Labels := Labels s; Restart := Restart s;
  HealthCheck := HealthCheck s; CreatedAt := CreatedAt s; UpdatedAt := UpdatedAt s; RemoveOnExit := RemoveOnExit s;
  StoppedByUser := StoppedByUser s;
|}.

Definition renameable (state : State) : bool := bool_decide (state = StateStopped) || bool_decide (state = StateFailed).

(** [RenameInstance] of the store: what the instance's directory holds moves
    with it. *)
Definition renameInstance (current renamed : Spec) : M (result unit) :=
  e1 ← ask (QDo "rename instance directory");
  e2 ← ask (QDo "write definition");
  atomically (λ s,
    let '(r, st) := Store.RenameInstance e1 e2 (store s) (ID current) renamed in
    let moved := match r, standbys s !! Name current with
      | Ok _, Some frozen => <[Name renamed := frozen]> (base.delete (Name current) (standbys s))
      | _, _ => standbys s
      end in
    (r, set_standbys (set_store s st) moved)).

Definition rename (instance : Spec) (newName : string) : M (result Spec) :=
  with_lock (InstanceLock (ID instance)) (
    current ←? lookupInstance (ID instance);
    status ← statusOf current;
    if negb (renameable (Status_State status)) then mret (Err (InvalidState "instance %q is %s; rename it once it has stopped"))
    else if bool_decide (newName = Name current) then mret (Ok current)
    else
      let renamed := withName current newName in
      wrapping "rename instance %q: %w" (renameInstance current renamed) ?;
      record renamed ActionRenamed ≫= λ _,
      mret (Ok renamed)).

Definition Rename (nameOrID newName : string) : M (result Spec) :=
  instance ←? lookupInstance nameOrID; rename instance newName.

(** ** Resizing ([resize.go]) *)

Definition checkResize (instance : Spec) (held want : Res.Resources) : result unit :=
  refuse_if (negb (Res.VCPUs want =? Res.VCPUs held)%Z && (MaxVCPUs instance =? 0)%Z)
    (InvalidArgument "instance %q has no max_vcpus, so its vCPUs cannot change while it runs: set one while it is stopped") ;;
  refuse_if ((MaxVCPUs instance <? Res.VCPUs want)%Z && (0 <? MaxVCPUs instance)%Z)
    (InvalidArgument "instance %q can have at most %s while it runs, its max_vcpus, not %d") ;;
  refuse_if (negb (Res.MemoryBytes want =? Res.MemoryBytes held)%Z && (MaxMemoryBytes instance =? 0)%Z)
    (InvalidArgument "instance %q has no max_memory_bytes, so its memory cannot change while it runs: set one while it is stopped") ;;
  refuse_if ((MaxMemoryBytes instance <? Res.MemoryBytes want)%Z && (0 <? MaxMemoryBytes instance)%Z)
    (InvalidArgument "instance %q can have at most %s memory while it runs, its max_memory_bytes, not %s").

Definition resizeVM (held want : Res.Resources) : M (result unit) :=
  (if (Res.MemoryBytes want =? Res.MemoryBytes held)%Z then mret (Ok tt) else attempt "resize VM memory") ?;
  if (Res.VCPUs want =? Res.VCPUs held)%Z then mret (Ok tt) else attempt "resize VM CPU".

Definition withResources (s : Spec) (r : Res.Resources) (now : Z) : Spec := {|
  ID := ID s; Name := Name s; Hostname := Hostname s; ImageRef := ImageRef s; ImageDigest := ImageDigest s;
  HypervisorType := HypervisorType s; HypervisorVersion := HypervisorVersion s; KernelName := KernelName s;
  KernelArgs := KernelArgs s; VCPUs := Res.VCPUs r; MemoryBytes := Res.MemoryBytes r; DiskBytes := DiskBytes s;
  NetworkName := NetworkName s; StaticIP := StaticIP s; MaxVCPUs := MaxVCPUs s; MaxMemoryBytes := MaxMemoryBytes s;
  DiskBytesPerSecond := DiskBytesPerSecond s; DiskIOPS := DiskIOPS s; UploadBytesPerSecond := UploadBytesPerSecond s;
  DownloadBytesPerSecond := DownloadBytesPerSecond s; StandbyAfter := StandbyAfter s; Ports := Ports s; Mounts := Mounts s;
  Env := Env s; Cmd := Cmd s; InitMode := InitMode s; User := User s; Labels := Labels s; Restart := Restart s;
  HealthCheck := HealthCheck s; CreatedAt := CreatedAt s; UpdatedAt := now; RemoveOnExit := RemoveOnExit s;
  StoppedByUser := StoppedByUser s;
|}.

Definition resize (instance : Spec) (want : Res.Resources) : M (result unit) :=
  with_lock (InstanceLock (ID instance)) (
    instance ←? rereadDefinition instance;
    status ← statusOf instance;
    if negb (bool_decide (Status_State status = StateRunning))
    then mret (Err (InvalidState "instance %q is %s; only a running instance can be resized"))
    else
      let held := HeldResources status in
      mret (checkResize instance held want) ?;
      if bool_decide (want = held) then mret (Ok tt)
      else
        hv ←? connect instance status;
        mret (if (Res.VCPUs want =? Res.VCPUs held)%Z then Ok tt else requireCapability (SupportsHotplugCPU hv)) ?;
        mret (if (Res.MemoryBytes want =? Res.MemoryBytes held)%Z then Ok tt else requireCapability (SupportsHotplugMemory hv)) ?;
        let larger := Res.mkResources (Z.max (Res.VCPUs held) (Res.VCPUs want))
                        (Z.max (Res.MemoryBytes held) (Res.MemoryBytes want)) in
        reserve instance larger ?;
        resized ← resizeVM held want;
        match resized with
        | Err e =>
            if Is e ErrInvalidArgument then
              back ← reserve instance held;
              mret (Err (match back with Err err => Join e err | Ok _ => e end))
            else
              now ← ask QNow;
              wrapping "update instance %q: %w" (updateInstance (withResources instance want now)) ?;
              mret (Err (Errorf "resize instance %q: %w; restart it to give it %s" e))
        | Ok _ =>
            now ← ask QNow;
            wrapping "update instance %q: %w" (updateInstance (withResources instance want now)) ?;
            reserve instance want ?;
            record instance ActionResized ≫= λ _,
            mret (Ok tt)
        end).

(** [Resize], as its handler calls it: what is asked for is positive. *)
Definition Resize (nameOrID : string) (want : Res.Resources) : M (result unit) :=
  mret (refuse_if (Res.VCPUs want <=? 0)%Z (InvalidArgument "an instance needs at least 1 vCPU")) ?;
  mret (refuse_if (Res.MemoryBytes want <=? 0)%Z (InvalidArgument "an instance needs more than 0 bytes of memory")) ?;
  instance ←? lookupInstance nameOrID;
  resize instance want.

(** ** Snapshots ([snapshot.go]) *)

Definition writableVolume (m : Mount) : bool := bool_decide (Mount_Type m = MountTypeVolume) && negb (ReadOnly m).

Definition writeMemorySnapshot (rounds : nat) (instance : Spec) (status : Status) : M (result unit) :=
  hv ←? connect instance status;
  mret (requireCapability (SupportsSnapshot hv)) ?;
  let running := bool_decide (Status_State status = StateRunning) in
  snapshotVM running rounds ?;
  deferred (if running then ignoring (attempt "resume VM") else mret tt) (
    wrapping "copy status disk: %w" (attempt "copy status disk") ?;
    wrapping "copy overlay disk: %w" (attempt "copy overlay disk")).

Definition writeSnapshot (rounds : nat) (instance : Spec) : M (result Snapshot.Snapshot) :=
  with_lock (InstanceLock (ID instance)) (
    instance ←? rereadDefinition instance;
    status ← statusOf instance;
    match Status_State status with
    | StateRunning | StatePaused =>
        if HasDirectoryMount instance
        then mret (Err (InvalidState "instance %q mounts a host directory, which a memory snapshot cannot hold; stop it first"))
        else if existsb writableVolume (Mounts instance)
        then mret (Err (InvalidState "instance %q can write to a volume, which a snapshot does not hold; stop it first, or mount its volumes read-only"))
        else
          allocation ←? allocationOf instance;
          writeMemorySnapshot rounds instance status ?;
          mret (Ok (Snapshot.mkSnapshot "" "" Snapshot.SnapshotKindMemory instance (Network.Allocation_IP allocation)
            (Network.Allocation_MAC allocation) (EffectiveHypervisorType instance) (Status_HypervisorVersion status)
            (Status_VCPUs status) (Status_MemoryBytes status) (Status_ImageDigest status) 0))
    | StateStopped | StateFailed =>
        size ← ask (QDiskSize "overlay disk");
        match size : result (option Z) with
        | Ok None => mret (Err (InvalidState "instance %q has never started, so it has no disk to copy"))
        | _ =>
            wrapping "copy overlay disk: %w" (attempt "copy overlay disk") ?;
            mret (Ok (Snapshot.mkSnapshot "" "" Snapshot.SnapshotKindDisk instance "" "" "" "" 0 0 "" 0))
        end
    | _ => mret (Err (InvalidState "instance %q is %s; snapshot or fork it once it is running, paused or stopped"))
    end).

Definition withSnapshotName (s : Snapshot.Snapshot) (id name : string) (now : Z) : Snapshot.Snapshot :=
  Snapshot.mkSnapshot id name (Snapshot.Kind s) (Snapshot.Instance s) (Snapshot.IP s) (Snapshot.MAC s)
    (Snapshot.HypervisorType s) (Snapshot.HypervisorVersion s) (Snapshot.VCPUs s) (Snapshot.MemoryBytes s)
    (Snapshot.ImageDigest s) now.

(** [createSnapshot]. What is left of the staging directory is removed in the
    end. *)
Definition createSnapshot (rounds : nat) (instance : Spec) (name : string) : M (result Snapshot.Snapshot) :=
  started ← ask QNow;
  let name := if bool_decide (name = "") then Name instance +:+ "-" +:+ time_stamp started else name in
  mret (Naming.Validate name) ?;
  found ← gets (λ s, Store.Snapshot (store s) name);
  mret (refuse_if (is_ok found) (Exists "snapshot %q already exists")) ?;
  attempt "stage snapshot" ?;
  deferred (ignoring (attempt "remove staged snapshot")) (
    snapshot ←? writeSnapshot rounds instance;
    newID ← ask QNewID;
    let snapshot := withSnapshotName snapshot newID name started in
    e1 ← ask (QDo "write definition");
    e2 ← ask (QDo "move snapshot into place");
    atomically (λ s, let '(r, st) := Store.CreateSnapshot e1 e2 (store s) snapshot in (r, set_store s st)) ?;
    recordSnapshot snapshot ActionCreated ≫= λ _,
    mret (Ok snapshot)).

Definition CreateSnapshot (rounds : nat) (nameOrID name : string) : M (result Snapshot.Snapshot) :=
  instance ←? lookupInstance nameOrID; createSnapshot rounds instance name.

Definition deleteSnapshot (snapshot : Snapshot.Snapshot) : M (result unit) :=
  with_lock (InstanceLock (ID (Snapshot.Instance snapshot))) (
    outcome ← ask (QRemoveAll "snapshot directory");
    atomically (λ s, let '(r, st) := Store.DeleteSnapshot outcome (store s) (Snapshot.ID snapshot) in (r, set_store s st)) ?;
    recordSnapshot snapshot ActionDeleted ≫= λ _,
    mret (Ok tt)).

Definition DeleteSnapshot (nameOrID : string) : M (result unit) :=
  snapshot ←? gets (λ s, Store.Snapshot (store s) nameOrID); deleteSnapshot snapshot.

(** [slices.EqualFunc(a, b, Mount.Equal)] *)
Definition mountsEqual (a b : list Mount) : bool :=
  (length a =? length b) && forallb (λ '(x, y), Mount_Equal x y) (zip a b).

Definition restoreMemory (instance : Spec) (snapshot : Snapshot.Snapshot) : M (result unit) :=
  if negb (mountsEqual (Mounts instance) (Mounts (Snapshot.Instance snapshot)))
  then mret (Err (InvalidState "instance %q's mounts have changed since snapshot %q was taken, and its guest expects them as they were; change them back to restore it"))
  else
    found ← allocationOf instance;
    address ←? mret (match found with
      | Ok a => Ok (Network.Allocation_IP a, Network.Allocation_MAC a)
      | Err e => if Is e ErrNotFound then Ok ("", "") else Err e
      end);
    if negb (bool_decide (address = (Snapshot.IP snapshot, Snapshot.MAC snapshot)))
    then mret (Err (InvalidState "instance %q no longer has the address %s, which the guest in snapshot %q has; a memory snapshot can be restored only where it was taken, or forked"))
    else
      resume instance (frozenSnapshot snapshot) ?;
      record instance ActionSnapshotRestored ≫= λ _,
      mret (Ok tt).

Definition restoreDisk (instance : Spec) : M (result unit) :=
  wrapping "restore overlay disk: %w" (attempt "copy overlay disk") ?;
  record instance ActionSnapshotRestored ≫= λ _,
  mret (Ok tt).

Definition restoreSnapshot (snapshot : Snapshot.Snapshot) : M (result Spec) :=
  with_lock (InstanceLock (ID (Snapshot.Instance snapshot))) (
    found ← lookupInstance (ID (Snapshot.Instance snapshot));
    instance ←? mret (wrap_err (λ e,
      if Is e ErrNotFound then NotFound "instance %q, which snapshot %q was taken of, has been deleted" else e) found);
    status ← statusOf instance;
    if IsActive (Status_State status) then mret (Err (InvalidState "instance %q is %s; stop it before restoring a snapshot"))
    else if bool_decide (Status_State status = StateStandby)
    then mret (Err (InvalidState "instance %q is on standby; stop it, which discards its frozen guest, before restoring a snapshot"))
    else
      cancelRestart (ID instance) ≫= λ _,
      (if bool_decide (Snapshot.Kind snapshot = Snapshot.SnapshotKindMemory) then restoreMemory instance snapshot
       else if bool_decide (Snapshot.Kind snapshot = Snapshot.SnapshotKindDisk) then restoreDisk instance
       else mret (Err (New "snapshot %q is of unknown kind %q"))) ?;
      mret (Ok instance)).

Definition RestoreSnapshot (nameOrID : string) : M (result Spec) :=
  snapshot ←? gets (λ s, Store.Snapshot (store s) nameOrID); restoreSnapshot snapshot.

(** ** Forks ([fork.go]) *)

(** [fork]. A fork that fails is deleted, once its lock is released. *)
Definition fork (frozen : frozenGuest) (instance : Spec) : M (result unit) :=
  createInstance instance ?;
  record instance ActionCreated ≫= λ _,
  on_error (ignoring (delete instance true)) (
    if bool_decide (Snapshot.Kind (frozen_snapshot frozen) = Snapshot.SnapshotKindDisk)
    then wrapping "copy overlay disk: %w" (attempt "copy overlay disk")
    else
      with_lock (InstanceLock (ID instance)) (
        resume instance frozen ?;
        allocationOf instance ?;
        record instance ActionStarted ≫= λ _,
        mret (Ok tt))).

Definition forkSnapshot (snapshot : Snapshot.Snapshot) (instance : Spec) : M (result unit) :=
  checkCanStart instance ?;
  fork (frozenSnapshot snapshot) instance.

Definition ForkSnapshot (nameOrID : string) (instance : Spec) : M (result unit) :=
  snapshot ←? gets (λ s, Store.Snapshot (store s) nameOrID); forkSnapshot snapshot instance.

(** [forkInstance]. What was staged is removed in the end. *)
Definition forkInstance (rounds : nat) (source instance : Spec) : M (result unit) :=
  checkCanStart instance ?;
  found ← lookupInstance (Name instance);
  mret (refuse_if (is_ok found) (Exists "instance %q already exists")) ?;
  staged ←? findPath "staged snapshot";
  deferred (ignoring (attempt "remove staged snapshot")) (
    snapshot ←? writeSnapshot rounds source;
    fork (mkFrozenGuest snapshot staged (staged +:+ "/overlay.img")) instance).

Definition ForkInstance (rounds : nat) (sourceNameOrID : string) (instance : Spec) : M (result unit) :=
  source ←? lookupInstance sourceNameOrID; forkInstance rounds source instance.

(** ** Restarts and unexpected ends ([supervise.go], [health.go]) *)

(** The part of [restart] under [restartsMu]: whether the pending restart is
    still the instance's. *)
Definition takePending (instanceID : string) (pending : nat) : M bool :=
  atomically (λ s,
    if closing s || negb (bool_decide (restarts s !! instanceID = Some pending)) then (false, s)
    else (true, set_restarts s (base.delete instanceID (restarts s)) (lastPending s))).

Definition restart (instanceID : string) (pending : nat) : M unit :=
  due ← takePending instanceID pending;
  if negb (due : bool) then mret tt
  else with_lock (InstanceLock instanceID) (
    found ← lookupInstance instanceID;
    match found with
    | Err _ => mret tt
    | Ok instance =>
        status ← statusOf instance;
        if negb (bool_decide (Status_State status = StateRestarting)) then mret tt
        else
          admitted ← admit_ instance (Spec_Resources instance);
          match admitted with
          | Err e => ended instance status (mkExit None (Some (Errorf "restart: %w" e)))
          | Ok _ =>
              booted ← boot instance (RestartCount status);
              match booted with
              | Err e => ended instance status (mkExit None (Some (Errorf "restart: %w" e)))
              | Ok _ => mret tt
              end
          end
    end).

(** The definition as it is now, or as the caller had it. *)
Definition currentOr (instance : Spec) : M Spec :=
  found ← lookupInstance (ID instance);
  mret (match found with Ok current => current | Err _ => instance end).

Definition handleExit (instance : Spec) (vmm : Z) : M unit :=
  with_lock (InstanceLock (ID instance)) (
    registered ← vmmOf (ID instance);
    if negb (bool_decide (registered = Some vmm)) then mret tt
    else
      forget (ID instance) ≫= λ _,
      instance ← currentOr instance;
      status ← statusOf instance;
      vmmErr ← ask (QVMMErr vmm);
      exit ← readExit (ID instance) vmmErr;
      ended instance status exit).

Definition handleUnhealthy (instance : Spec) (vmm : Z) : M unit :=
  with_lock (InstanceLock (ID instance)) (
    registered ← vmmOf (ID instance);
    if negb (bool_decide (registered = Some vmm)) then mret tt
    else
      instance ← currentOr instance;
      status ← statusOf instance;
      if negb (bool_decide (Status_State status = StateRunning)) then mret tt
      else
        let exit := mkExit None (Some (Errdefs.New "health check %q failed %d times in a row: %s")) in
        now ← ask QNow;
        let decision := decideRestart (Restart instance) exit (RestartCount status) (time_sub now (StartedAt status)) in
        if negb (Instance.restart decision) && negb (gaveUp decision) then mret tt
        else
          stopVMM instance status true ≫= λ _,
          ended instance status exit).

(** ** Recovery ([recover.go]) *)

Inductive recovery := recoveryNone | recoveryAdopted | recoveryCleaned.

(** [resumeLeftPaused] *)
Definition resumeLeftPaused (instance : Spec) (status : Status) : M unit :=
  hv ← connect instance status;
  match hv with
  | Err _ => mret tt
  | Ok _ =>
      paused ← ask QVMPaused;
      match paused : result bool with
      | Ok true => ignoring (attempt "resume VM")
      | _ => mret tt
      end
  end.

Definition recoverInstance (instance : Spec) : M recovery :=
  with_lock (InstanceLock (ID instance)) (
    deferred (syncWaker (ID instance)) (
      status ← statusOf instance;
      match Status_State status with
      | StateStopped | StateFailed | StateStandby => mret recoveryNone
      | StateRestarting => scheduleRestart (ID instance) ≫= λ _, mret recoveryNone
      | _ =>
          vmm ← match VMMPID status with
            | None => mret None
            | Some pid => r ← ask (QAttach pid); mret (match r : result Z with Ok vmm => Some vmm | Err _ => None end)
            end;
          if IsActive (Status_State status) then
            match vmm with
            | Some vmm =>
                (if bool_decide (Status_State status = StateRunning) then resumeLeftPaused instance status else mret tt) ≫= λ _,
                supervise instance vmm status ≫= λ _,
                mret recoveryAdopted
            | None =>
                exit ← readExit (ID instance) ExitStatusUnknown;
                let exit := mkExit (Code exit) (Errorf "%w, while dicerd was not running" <$> Failure exit) in
                ended instance status exit ≫= λ _,
                mret recoveryCleaned
            end
          else
            (if vmm is Some vmm then process_ends vmm else mret tt) ≫= λ _,
            teardownNetwork instance ≫= λ _,
            fail (ID instance) (Errdefs.New "%s interrupted by a daemon restart") ≫= λ _,
            record instance ActionDied ≫= λ _,
            mret recoveryCleaned
      end)).

(** [restoreNetwork] *)
Definition restoreNetwork (nw : Network.Network) : M unit :=
  with_lock (NetworkLock (Network.Name nw)) (
    up ← attempt "set up bridge";
    (if is_ok up then modify (λ s, set_bridges s ({[Network.Name nw]} ∪ bridges s)) else mret tt) ≫= λ _,
    serveDNS nw ≫= λ _,
    mret tt).

(** The loop of [restoreAdoptedNetworks]. *)
Fixpoint restoreAdoptedNetworks (instances : list Spec) (restored : gset string) : M unit :=
  match instances with
  | [] => mret tt
  | instance :: instances =>
      if bool_decide (NetworkName instance ∈ restored) then restoreAdoptedNetworks instances restored
      else
        status ← statusOf instance;
        if negb (IsActive (Status_State status)) then restoreAdoptedNetworks instances restored
        else
          found ← gets (λ s, Store.Network (store s) (NetworkName instance));
          match found with
          | Err _ => restoreAdoptedNetworks instances restored
          | Ok nw => restoreNetwork nw ≫= λ _, restoreAdoptedNetworks instances ({[NetworkName instance]} ∪ restored)
          end
  end.

Definition reconcileNetworks (names live : gset string) : M unit :=
  writes ← ask QWrites;
  modify (λ s, Host.set_networks s (NetworkManager.Reconcile writes (networks s) (elements names) live 0).2).

Definition Recover : M unit :=
  instances ← gets (λ s, Store.Instances (store s));
  for_all (λ instance, recoverInstance instance ≫= λ _, mret tt) instances ≫= λ _,
  defined ← gets (λ s, Store.Networks (store s));
  reconcileNetworks (list_to_set (NetworkName <$> instances) ∪ list_to_set (Network.Name <$> defined))
    (list_to_set (ID <$> instances)) ≫= λ _,
  restoreAdoptedNetworks instances ∅.

(** [StartOnBoot], of a context that is not done. *)
Definition StartOnBoot : M unit :=
  instances ← gets (λ s, Store.Instances (store s));
  for_all (λ instance,
    if negb (StartsOnBoot (Restart instance) (StoppedByUser instance)) then mret tt
    else
      status ← statusOf instance;
      if isStopped (Status_State status) then ignoring (start instance) else mret tt) instances.

(** [Close]: the pending restarts are dropped, under their mutex, and then the
    wakers are closed. It waits for the restarts that are under way before it
    closes the wakers, and for those that watch VMMs at the end, holding no mutex;
    here it may go on without them. *)
Definition Close : M unit :=
  modify (λ s, mkHost (store s) (networks s) (statuses s) (standbys s) (processes s) (bridges s) (taps s) (published s)
    (dnsServers s) (vmms s) (wakers s) (waiters s) ∅ (lastPending s) (removals s) (events s) true) ≫= λ _,
  modify (λ s, set_wakers s ∅).

End Manager.
End Manager.
