(* ===== verification/Names.v ===== *)
(** * The names of instances

    [internal/instance/dns.go]: what the instance manager tells the DNS server
    of a network of its instances, and that the answers of the server about
    names and about addresses agree. *)

From S2P Require Import Prelude Errdefs Naming Health Token Addr Network NetworkManager Instance Definitions FileStore Conc Host Manager Dns.

Module Names.
Import Instance Host Manager.
Open Scope prog_scope.

Abbreviation M := (prog (S:=Host) (answer:=answer) (lock:=lock)).

Section Lookup.

(** [strings.EqualFold] of strings that are not both ASCII, by Unicode's case
    tables. *)
Context (unicodeEqualFold : string → string → bool).

Definition is_ascii (s : string) : bool := forallb (λ c, (N_of_ascii c <? 128)%N) (Str.to_list s).

Definition EqualFold (s t : string) : bool :=
  if is_ascii s && is_ascii t then bool_decide (Str.to_lower s = Str.to_lower t) else unicodeEqualFold s t.

Record answerableInstance := mkAnswerable { spec : Spec; addr : Addr.IP }.

(** Running, paused or starting. *)
Definition answerable_state (s : State) : bool := IsActive s || bool_decide (s = StateStarting).

Fixpoint answerable_each (network : string) (instances : list Spec) : M (list answerableInstance) :=
  match instances with
  | [] => mret []
  | instance :: instances =>
      status ← statusOf instance;
      if negb (answerable_state (Status_State status)) then answerable_each network instances
      else
        allocation ← gets (λ s, NetworkManager.AllocationOf (networks s) network (ID instance));
        match allocation with
        | Err _ => answerable_each network instances
        | Ok a =>
            match Addr.ParseAddr (Network.Allocation_IP a) with
            | None => answerable_each network instances
            | Some (ip, _) => out ← answerable_each network instances; mret (mkAnswerable instance ip :: out)
            end
        end
  end.

Definition answerableInstances (network : string) (matches : Spec → bool) : M (list answerableInstance) :=
  instances ← gets (λ s, Store.MatchingInstances (store s) (λ i, bool_decide (NetworkName i = network) && matches i));
  answerable_each network instances.

Definition called (name : string) (i : Spec) : bool := EqualFold (Name i) name || EqualFold (Hostname i) name.

Definition LookupHost (network name : string) : M (list Addr.IP) :=
  answerableInstances network (called name) ≫= λ found : list answerableInstance,
  mret (addr <$> found).

(** The names of an instance. *)
Definition names_of (i : Spec) : list string :=
  Name i :: (if negb (bool_decide (Hostname i = "")) && negb (EqualFold (Hostname i) (Name i)) then [Hostname i] else []).

Definition LookupAddr (network : string) (ip : Addr.IP) : M (list string) :=
  found ← gets (λ s, NetworkManager.InstanceAt (networks s) network (Addr.String4 ip));
  match found with
  | None => mret []
  | Some instanceID =>
      answerableInstances network (λ i, bool_decide (ID i = instanceID)) ≫= λ found : list answerableInstance,
      mret (if found is f :: _ then names_of (spec f) else [])
  end.

(** ** As the state is *)

(** The status that [statusOf] reads. *)
Definition status_now (s : Host) (i : Spec) : Status :=
  let status := status_in (statuses s) (ID i) in
  if (bool_decide (Status_State status = StateStopped) || bool_decide (Status_State status = StateFailed)) &&
     bool_decide (is_Some (standbys s !! Name i))
  then setState status StateStandby (StateError status) else status.

Definition answerable_now (s : Host) (network : string) (i : Spec) : option answerableInstance :=
  if answerable_state (Status_State (status_now s i)) then
    match NetworkManager.AllocationOf (networks s) network (ID i) with
    | Ok a => (λ ip, mkAnswerable i ip.1) <$> Addr.ParseAddr (Network.Allocation_IP a)
    | Err _ => None
    end
  else None.

Definition answerable_list (s : Host) (network : string) (matches : Spec → bool) : list answerableInstance :=
  omap (answerable_now s network)
    (Store.MatchingInstances (store s) (λ i, bool_decide (NetworkName i = network) && matches i)).

(** What the manager tells the server, of one state. *)
Definition resolver (s : Host) : Dns.Resolver := {|
  Dns.LookupHost network name := addr <$> answerable_list s network (called name);
  Dns.LookupAddr network ip :=
    match NetworkManager.InstanceAt (networks s) network (Addr.String4 ip) with
    | None => []
    | Some instanceID =>
        if answerable_list s network (λ i, bool_decide (ID i = instanceID)) is f :: _ then names_of (spec f) else []
    end |}.

Lemma run_statusOf i L s (Q : Status → gset lock → Host → Prop) : Q (status_now s i) L s → run (statusOf i) L s Q.
Proof.
  intros HQ. unfold statusOf, readStatus, onStandby, status_now in *. cbn. destruct (_ || _); cbn; [|done].
  by destruct (bool_decide _).
Qed.

Lemma run_answerable_each network l L s (Q : list answerableInstance → gset lock → Host → Prop) :
  Q (omap (answerable_now s network) l) L s → run (answerable_each network l) L s Q.
Proof.
  revert Q. induction l as [|i l IH]; intros Q HQ; [done|]. cbn [answerable_each]. apply run_bind, run_statusOf.
  cbn in HQ. unfold answerable_now at 1 in HQ. destruct (answerable_state _); cbn [negb]; [|by apply IH].
  cbn. destruct (NetworkManager.AllocationOf _ _ _) as [a|e]; [|by apply IH].
  destruct (Addr.ParseAddr _) as [[ip zone]|]; [|by apply IH]. apply run_bind. by apply IH.
Qed.

(** What the manager answers is what the state says, while nothing else changes it. *)
Lemma run_LookupHost network name L s :
  run (LookupHost network name) L s (λ found L' s', L' = L ∧ s' = s ∧ found = Dns.LookupHost (Resolver:=resolver s) network name).
Proof. apply run_bind. by apply (run_answerable_each network). Qed.

Lemma run_LookupAddr network ip L s :
  run (LookupAddr network ip) L s (λ found L' s', L' = L ∧ s' = s ∧ found = Dns.LookupAddr (Resolver:=resolver s) network ip).
Proof.
  cbn. destruct (NetworkManager.InstanceAt _ _ _) as [id|]; [|done]. apply run_bind. by apply (run_answerable_each network).
Qed.

End Lookup.

(** ** Names and addresses agree *)

Lemma lower_byte_idem c : Str.lower_byte (Str.lower_byte c) = Str.lower_byte c.
Proof. by destruct c as [[] [] [] [] [] [] [] []]. Qed.

Lemma to_lower_idem s : Str.to_lower (Str.to_lower s) = Str.to_lower s.
Proof.
  unfold Str.to_lower. rewrite Str.to_of_list. f_equal. rewrite <-list_fmap_compose. apply list_fmap_ext.
  intros i c _. apply lower_byte_idem.
Qed.

Lemma to_lower_app s t : Str.to_lower (s +:+ t) = Str.to_lower s +:+ Str.to_lower t.
Proof. unfold Str.to_lower. apply Str.to_list_inj. by rewrite !Str.to_of_list, !Str.to_list_app, !Str.to_of_list, fmap_app. Qed.

Lemma is_ascii_lower s : is_ascii (Str.to_lower s) = is_ascii s.
Proof.
  unfold is_ascii, Str.to_lower. rewrite Str.to_of_list. induction (Str.to_list s) as [|c l IH]; [done|]. cbn. rewrite IH. f_equal.
  by destruct c as [[] [] [] [] [] [] [] []].
Qed.

Lemma is_ascii_app s t : is_ascii (s +:+ t) = is_ascii s && is_ascii t.
Proof. unfold is_ascii. by rewrite Str.to_list_app, forallb_app. Qed.

Lemma valid_name_ascii x : Naming.valid_name x → is_ascii x = true.
Proof.
  intros Hx. unfold is_ascii. apply forallb_forall. intros c Hc%list_elem_of_In.
  destruct (Naming.valid_name_chars x c Hx Hc) as [Hn| ->]; [|done].
  revert Hn. by destruct c as [[] [] [] [] [] [] [] []].
Qed.

Lemma ToLower_ascii unicodeToLower s : is_ascii s = true → Dns.ToLower unicodeToLower s = Str.to_lower s.
Proof. unfold Dns.ToLower, Naming.ToLower, is_ascii. by intros ->. Qed.

Lemma lower_label x : Dns.label x → Dns.label (Str.to_lower x).
Proof.
  intros [Hne Hd]. split.
  - by destruct x.
  - unfold Str.to_lower. rewrite Str.to_of_list. intros (c & Ec & Hc)%list_elem_of_fmap. destruct Hd.
    replace "."%char with c; [done|]. clear Hc. revert Ec. by destruct c as [[] [] [] [] [] [] [] []].
Qed.

(** *** The addresses of a network *)

Lemma in_subnet nw ipNet ip :
  Addr.is_net4 ipNet → Addr.is_ip4 ip → Addr.in_net ipNet (Addr.value ip) →
  let bits := Addr.IPNet_ones ipNet in
  nw = Addr.mkPrefix (Addr.masked (Addr.IPNet_IP ipNet) bits) bits → Dns.Contains nw ip = true.
Proof.
  intros (Hip & Hbits & Hones & Hnorm) H Hin bits ->. subst bits. set (bits := Addr.IPNet_ones ipNet) in *. unfold Dns.Contains. simpl.
  assert (Addr.is_ip4 (Addr.masked (Addr.IPNet_IP ipNet) bits) ∧
    Addr.value (Addr.masked (Addr.IPNet_IP ipNet) bits) = Addr.value (Addr.IPNet_IP ipNet)) as [Hm Hv].
  { unfold Addr.masked. rewrite Addr.BitLen_ip4 by done.
    destruct (Addr.masked_value (Addr.IPNet_IP ipNet) bits Hip Hones) as [? ->]. by split. }
  rewrite (Addr.is_ip4_len _ Hm), (Addr.is_ip4_len _ H). apply andb_true_iff. split; [done|].
  apply bool_decide_eq_true, Addr.masked_eq; [done..|]. rewrite Hv, Hnorm. symmetry. by apply Addr.keep_bits_eq.
Qed.

(** An allocation, by the instance that has it and by its address. *)
Lemma AllocationOf_InstanceAt defs m network id a :
  NetworkManager.manager_ok defs m → NetworkManager.AllocationOf m network id = Ok a →
  NetworkManager.InstanceAt m network (Network.Allocation_IP a) = Some id ∧
  ∃ t, NetworkManager.allocationTables m !! network = Some t ∧ a ∈ NetworkManager.allocations t.
Proof.
  intros [_ Hok]. unfold NetworkManager.AllocationOf, NetworkManager.InstanceAt.
  destruct (NetworkManager.allocationTableOf m network) as [t|e] eqn:Et; [cbn|done].
  destruct (NetworkManager.byInstance t !! id) as [i|] eqn:Ei; [cbn|done].
  destruct (NetworkManager.allocations t !! i) as [b|] eqn:Ea; [|done]. intros [= ->].
  unfold NetworkManager.allocationTableOf in Et. destruct (_ !! network) as [err|]; [done|].
  destruct (NetworkManager.allocationTables m !! network) as [t'|] eqn:Em; [injection Et as ->|by injection Et as <-].
  destruct (Hok network t Em) as [[Enew Hu] _]. set (l := NetworkManager.allocations t) in *. destruct Hu as [Hu1 Hu2].
  rewrite Enew in Ei. apply NetworkManager.byInstance_spec in Ei as (a' & Ha' & <-); [|done].
  rewrite Ea in Ha'. injection Ha' as <-.
  assert (∃ j b, NetworkManager.byIP t !! Network.Allocation_IP a = Some j ∧ l !! j = Some b ∧
    Network.Allocation_IP b = Network.Allocation_IP a) as (j & b & Hj & Hb & Eb).
  { rewrite Enew. unfold NetworkManager.newAllocationTable.
    destruct (NetworkManager.indexAllocations_lookup 0 l ∅ ∅ Hu1 Hu2) as [_ Hp].
    destruct (NetworkManager.indexAllocations 0 l ∅ ∅) as [bi bp]; simpl in *. rewrite Hp.
    destruct (list_find _ l) as [[j b]|] eqn:E; [apply list_find_Some in E as (? & ? & _); eauto|].
    apply list_find_None in E. rewrite Forall_forall in E. exfalso. by apply (E a); [eapply list_elem_of_lookup_2|]. }
  rewrite Hj. cbn. rewrite Hb. cbn. assert (j = i) as ->.
  { apply (NoDup_lookup _ _ _ (Network.Allocation_IP a) Hu2); rewrite list_lookup_fmap; [by rewrite Hb, <-Eb|by rewrite Ea]. }
  rewrite Ea in Hb. injection Hb as <-. split; [done|]. exists t. split; [done|]. by eapply list_elem_of_lookup_2.
Qed.

Section Agreement.

Context (unicodeToLower : string → string) (unicodeEqualFold : string → string → bool) (DefaultNameservers : list string).
Context {messages : Dns.Messages} (s : Host) (defs : gmap string Network.Network) (nw : Network.Network) (n : Dns.servedNetwork).

Abbreviation resolver := (resolver unicodeEqualFold).
Abbreviation names_of := (names_of unicodeEqualFold).
Abbreviation called := (called unicodeEqualFold).
Abbreviation ownRecords := (Dns.ownRecords n unicodeToLower (lookups:=resolver s)).

(** An instance with an address on the network, which is running, paused or starting. *)
Definition running (i : Spec) (ip : Addr.IP) : Prop :=
  Kind.byName (Store.instances (store s)) !! Name i = Some i ∧ NetworkName i = Network.Name nw ∧
  answerable_state (Status_State (status_now s i)) = true ∧
  ∃ a, NetworkManager.AllocationOf (networks s) (Network.Name nw) (ID i) = Ok a ∧ Addr.is_ip4 ip ∧
    Network.Allocation_IP a = Addr.String4 ip.

(** What the state keeps, and that the network is served. *)
Definition agreeable : Prop :=
  Kind.kind_wf (Store.instances (store s)) ∧ NetworkManager.manager_ok defs (networks s) ∧
  defs !! Network.Name nw = Some nw ∧ Network.well_formed nw ∧ Network.Isolated nw = false ∧
  Dns.networkOf unicodeToLower DefaultNameservers nw = Ok n.

Context (Hok : agreeable).

(** Allocated addresses are of the network, and not its gateway. *)
Lemma allocated a id :
  NetworkManager.AllocationOf (networks s) (Network.Name nw) id = Ok a →
  ∃ ip, Addr.is_ip4 ip ∧ Network.Allocation_IP a = Addr.String4 ip ∧ Dns.Contains (Dns.subnet n) ip = true ∧
    Dns.gateway n ≠ (ip, []) ∧ NetworkManager.InstanceAt (networks s) (Network.Name nw) (Addr.String4 ip) = Some id.
Proof.
  intros Ha. destruct Hok as (_ & Hm & Hdef & Hnw & _ & Hn).
  destruct (AllocationOf_InstanceAt defs _ _ _ _ Hm Ha) as (Hat & t & Ht & Hin).
  destruct (proj2 Hm _ _ Ht) as [_ Hserves]. destruct (Hserves nw Hdef) as (ipNet & Hp & Hall).
  rewrite Forall_forall in Hall. destruct (Hall a Hin) as [Has Hgw].
  destruct (Network.well_formed_prefix nw Hnw) as (ipNet' & Hu & _ & Hp' & Hpp). rewrite Hp in Hp'. injection Hp' as <-.
  pose proof Has as (ip & Hip & Ea & Hassign)%Network.assignable_str_spec; [|apply Hu].
  exists ip. unfold Dns.networkOf in Hn. rewrite Hpp in Hn.
  destruct Hnw as (_ & _ & _ & _ & ipNet2 & Hu2 & _ & (gw & Hgw4 & Eg & _)%Network.assignable_str_spec); [|apply Hu2].
  rewrite Eg, Addr.ParseAddr_String4 in Hn by done. injection Hn as <-. simpl. split_and!; [done..| | |by rewrite <-Ea].
  - eapply in_subnet; [apply Hu|done| |done].
    assert (Addr.To4 ip = Some ip) as HT by (unfold Addr.To4; by rewrite (Addr.is_ip4_len _ Hip)).
    rewrite (Network.Assignable_spec ipNet _ _ (proj1 Hu) (proj2 Hip) HT) in Hassign.
    unfold Addr.in_net. unfold Network.net_size in Hassign. lia.
  - intros [= E]. apply Hgw. by rewrite Ea, Eg, E.
Qed.

Lemma matching i f :
  i ∈ Store.MatchingInstances (store s) (λ i, bool_decide (NetworkName i = Network.Name nw) && f i) ↔
  Kind.byName (Store.instances (store s)) !! Name i = Some i ∧ NetworkName i = Network.Name nw ∧ f i = true.
Proof.
  destruct Hok as [[Hwf _] _]. unfold Store.MatchingInstances. rewrite list_elem_of_In, filter_In, <-list_elem_of_In, list_elem_of_fmap.
  rewrite andb_true_iff, bool_decide_eq_true. split.
  - intros [([k v] & -> & Hv%elem_of_map_to_list) [Hn Hf]]. split_and!; [|done..].
    simpl in *. by destruct (Hwf _ _ Hv) as [-> _].
  - intros (Hi & Hn & Hf). split; [|done]. exists (Name i, i). split; [done|]. by apply elem_of_map_to_list.
Qed.

Lemma answerable_spec f x :
  x ∈ answerable_list s (Network.Name nw) f ↔ f (spec x) = true ∧ running (spec x) (addr x).
Proof.
  unfold answerable_list. rewrite list_elem_of_omap. unfold answerable_now, running. split.
  - intros (i & (Hi & Hn & Hf)%matching & Ha). destruct (answerable_state _) eqn:Es; [|done].
    destruct (NetworkManager.AllocationOf _ _ _) as [a|] eqn:Ea; [|done].
    destruct (Addr.ParseAddr (Network.Allocation_IP a)) as [[ip zone]|] eqn:Ep; [|done]. injection Ha as <-. simpl.
    split_and!; [done..|]. exists a. split; [done|].
    destruct (allocated a (ID i) Ea) as (ip' & Hip' & E' & _). rewrite E', Addr.ParseAddr_String4 in Ep by done.
    injection Ep as <- _. done.
  - intros (Hf & Hi & Hn & Hs & a & Ha & Hip & Ea). exists (spec x). split; [by apply matching|].
    rewrite Hs, Ha, Ea, Addr.ParseAddr_String4 by done. by destruct x.
Qed.

Lemma running_ids i j ip jp : running i ip → running j jp → ID i = ID j → i = j.
Proof.
  intros (Hi & _) (Hj & _) E. destruct Hok as [[Hwf _] _].
  destruct (Hwf _ _ Hi) as (_ & _ & Hi' & _), (Hwf _ _ Hj) as (_ & _ & Hj' & _). cbn in Hi', Hj'.
  rewrite E, Hj' in Hi'. injection Hi' as E'. rewrite E' in Hj. rewrite Hi in Hj. by injection Hj.
Qed.

Lemma lookup_addr i ip : running i ip → Dns.LookupAddr (Resolver:=resolver s) (Network.Name nw) ip = names_of i.
Proof.
  intros Hr. pose proof Hr as (_ & _ & _ & a & Ha & Hip & Ea). destruct (allocated a _ Ha) as (ip' & Hip' & Ea' & _ & _ & Hat).
  assert (ip' = ip) as -> by (apply Addr.String4_inj; congruence). cbn. rewrite Hat.
  set (l := answerable_list s (Network.Name nw) _).
  assert (∀ x, x ∈ l → spec x = i) as Hall.
  { intros x [E%bool_decide_eq_true Hx]%answerable_spec. by eapply running_ids. }
  assert (mkAnswerable i ip ∈ l) as Hin by (apply answerable_spec; split; [by apply bool_decide_eq_true|done]).
  destruct l as [|x l]; [by apply elem_of_nil in Hin|]. by rewrite (Hall x) by set_solver.
Qed.

Lemma lookup_host x ip :
  ip ∈ Dns.LookupHost (Resolver:=resolver s) (Network.Name nw) x ↔ ∃ i, running i ip ∧ called x i = true.
Proof.
  cbn. rewrite list_elem_of_fmap. split.
  - intros (y & -> & [Hc Hr]%answerable_spec). eauto.
  - intros (i & Hr & Hc). exists (mkAnswerable i ip). split; [done|]. by apply answerable_spec.
Qed.

(** The host's domain. *)
Definition reserved (x : string) : Prop := x = Dns.InternalDomain ∨ ∃ sub, x = sub +:+ "." +:+ Dns.InternalDomain.

Lemma served_instances : Dns.name n = Network.Name nw ∧ Dns.answersInstances n = true.
Proof.
  destruct Hok as (_ & _ & _ & _ & Hiso & Hn). split; [by apply (Dns.networkOf_names _ _ _ _ Hn)|]. unfold Dns.networkOf in Hn.
  destruct (Addr.ParsePrefix (Network.Subnet nw)), (Addr.ParseAddr (Network.Gateway nw)); try done. injection Hn as <-. simpl. by rewrite Hiso.
Qed.

Lemma own_address q ip :
  Dns.Question_Type q = Dns.TypePTR → Dns.asked_name unicodeToLower q = Dns.reverseName ip → Addr.is_ip4 ip →
  Dns.Contains (Dns.subnet n) ip = true → Dns.gateway n ≠ (ip, []) →
  ownRecords q =
    records ← mapM (λ x, Dns.ptrRecord (Dns.Question_Name q) (x +:+ "." +:+ Network.Name nw +:+ "."))
      (Dns.LookupAddr (Resolver:=resolver s) (Network.Name nw) ip);
    Some (Some (if bool_decide (records = []) then ([], Dns.RCodeNameError) else (records, Dns.RCodeSuccess))).
Proof.
  intros Ht En Hip Hc Hg. unfold Dns.ownRecords. rewrite Ht, En, Dns.reverseAddr_reverseName, Hc by done. cbn [Z.eqb negb].
  unfold Dns.own_pointer. rewrite (bool_decide_false (_ = Dns.gateway n)) by (intros E; by apply Hg). cbn [andb].
  by destruct served_instances as [-> ->].
Qed.

Lemma own_name q host :
  Dns.Question_Type q ≠ Dns.TypePTR → ¬ reserved (Dns.asked_name unicodeToLower q) → Dns.label host →
  Dns.asked_name unicodeToLower q = host +:+ "." +:+ Dns.domain n →
  ownRecords q = Some (Some
    match Dns.LookupHost (Resolver:=resolver s) (Network.Name nw) host with
    | [] => ([], Dns.RCodeNameError)
    | addrs => (Dns.addressRecords q addrs, Dns.RCodeSuccess)
    end).
Proof.
  intros Ht Hres [Hne Hd] En. unfold Dns.ownRecords. rewrite (proj2 (Z.eqb_neq _ _) Ht).
  rewrite (bool_decide_false (_ = Dns.InternalDomain)) by (intros E; apply Hres; by left).
  rewrite (bool_decide_false (is_Some _)).
  2:{ intros [sub E%Str.cut_suffix_Some]. apply Hres. right. by exists sub. }
  destruct served_instances as [-> ->].
  rewrite En, Str.cut_suffix_app. cbn [default orb negb]. unfold Str.contains_byte. rewrite !bool_decide_false by done.
  cbn [orb]. by destruct (Dns.LookupHost _ _).
Qed.

(** A name in the network's domain, as it is asked for. *)
Lemma asked_qualified q x :
  Naming.valid_name x → Dns.Question_Name q = x +:+ "." +:+ Network.Name nw +:+ "." →
  Dns.asked_name unicodeToLower q = Str.to_lower x +:+ "." +:+ Dns.domain n.
Proof.
  intros Hx En. destruct Hok as (_ & _ & _ & Hnw & _ & Hn). pose proof (Dns.networkOf_names _ _ _ _ Hn) as [E Ed].
  rewrite Ed, E. destruct Hnw as [Hname _]. apply valid_name_ascii in Hname, Hx.
  unfold Dns.asked_name. rewrite En. replace (x +:+ "." +:+ Network.Name nw +:+ ".") with ((x +:+ "." +:+ Network.Name nw) +:+ ".").
  2:{ apply Str.to_list_inj. by rewrite !Str.to_list_app, <-!(assoc_L (++)). }
  rewrite Str.cut_suffix_app. unfold default, id. rewrite !ToLower_ascii by (by rewrite ?is_ascii_app, ?Hx, ?Hname).
  by rewrite !to_lower_app.
Qed.

Lemma called_self i x : Naming.valid_name x → Naming.valid_name (Name i) → x ∈ names_of i → called (Str.to_lower x) i = true.
Proof.
  intros Hx%valid_name_ascii Hi%valid_name_ascii Hin. unfold called, EqualFold. rewrite is_ascii_lower, Hx, Hi. cbn [andb].
  unfold names_of in Hin. rewrite elem_of_cons in Hin. destruct Hin as [->|Hin].
  - by rewrite to_lower_idem, bool_decide_true.
  - assert (x = Hostname i) as E by (destruct (_ && _); set_solver). rewrite <-E, Hx, to_lower_idem. cbn [andb].
    by rewrite (bool_decide_true (Str.to_lower x = Str.to_lower x)), orb_true_r.
Qed.

(** C14: Names and addresses agree. On a network that is served and not isolated,
    a reverse lookup of the address of an instance that is running, paused or
    starting, by any guest of the network, gives the name of the instance and its hostname, in the
    network's domain, if they are no longer there than a name of DNS may be. Each
    of these that is one label, and is not of the host's domain, has that address;
    and all the addresses that it has are of such instances that are called so. *)
Theorem names_and_addresses_agree i ip q :
  running i ip → (Hostname i = "" ∨ Naming.valid_name (Hostname i)) →
  Forall (λ x, Str.len x + Str.len (Network.Name nw) + 2 ≤ 255) (names_of i) →
  Dns.Question_Type q = Dns.TypePTR → Dns.asked_name unicodeToLower q = Dns.reverseName ip →
  let target x := x +:+ "." +:+ Network.Name nw +:+ "." in
  ownRecords q = Some (Some (
    (λ x, Dns.mkResource (Dns.Question_Name q) Dns.TypePTR Dns.ClassINET 5 (Dns.PTRResource (target x))) <$> names_of i, Dns.RCodeSuccess)) ∧
  ∀ x q', x ∈ names_of i → Dns.label x → Dns.Question_Name q' = target x → Dns.Question_Type q' = Dns.TypeA →
    ¬ reserved (Dns.asked_name unicodeToLower q') →
    ∃ addrs, ownRecords q' = Some (Some (Dns.aRecord (target x) <$> addrs, Dns.RCodeSuccess)) ∧
      ip ∈ addrs ∧ ∀ ip', ip' ∈ addrs → ∃ j, running j ip' ∧ called (Str.to_lower x) j = true.
Proof.
  intros Hr Hh Hfit Ht En target. pose proof Hr as (Hi & _ & _ & a & Ha & Hip & Ea).
  assert (Naming.valid_name (Name i)) as Hname by (by destruct Hok as [[Hwf _] _]; apply (Hwf _ _ Hi)). split.
  - destruct (allocated a _ Ha) as (ip' & Hip' & Ea' & Hc & Hg & _). assert (ip' = ip) as -> by (apply Addr.String4_inj; congruence).
    rewrite (own_address q ip), (lookup_addr i ip Hr) by done.
    assert (mapM (λ x, Dns.ptrRecord (Dns.Question_Name q) (target x)) (names_of i) = Some
      ((λ x, Dns.mkResource (Dns.Question_Name q) Dns.TypePTR Dns.ClassINET 5 (Dns.PTRResource (target x))) <$> names_of i)) as Em.
    { apply mapM_Some, Forall2_fmap_r, Forall_Forall2_diag. eapply Forall_impl; [exact Hfit|]. intros x Hx. cbn in Hx.
      unfold Dns.ptrRecord. rewrite Dns.NewName_short; [done|]. subst target. cbn beta. rewrite !Network.len_app. cbn. lia. }
    subst target. cbn beta in Em. rewrite Em. done.
  - intros x q' Hx Hl Eq Ht' Hres. assert (Naming.valid_name x) as Hvx.
    { unfold names_of in Hx. destruct (_ && _) eqn:Eh; [|set_solver]. apply andb_true_iff in Eh as [Eh _].
      apply negb_true_iff, bool_decide_eq_false in Eh. destruct Hh; [done|]. set_solver. }
    pose proof (called_self i x Hvx Hname Hx) as Hcall. pose proof (asked_qualified q' x Hvx Eq) as Eask.
    assert (ip ∈ Dns.LookupHost (Resolver:=resolver s) (Network.Name nw) (Str.to_lower x)) as Hin by (apply lookup_host; eauto).
    exists (Dns.LookupHost (Resolver:=resolver s) (Network.Name nw) (Str.to_lower x)). split_and!; [|done|].
    + rewrite (own_name q' (Str.to_lower x)); [|by rewrite Ht'|done|by apply lower_label|done].
      unfold Dns.addressRecords. rewrite Ht', Eq. cbn [Z.eqb negb andb].
      destruct (Dns.LookupHost _ _); [by apply elem_of_nil in Hin|done].
    + intros ip' Hin'. by apply lookup_host.
Qed.

(** A reverse lookup of an address whose names in the domain are too long is the
    end of the daemon. *)
Lemma long_pointers_panic i ip q :
  running i ip → 255 < Str.len (Name i) + Str.len (Network.Name nw) + 2 →
  Dns.Question_Type q = Dns.TypePTR → Dns.asked_name unicodeToLower q = Dns.reverseName ip → ownRecords q = None.
Proof.
  intros Hr Hlong Ht En. pose proof Hr as (Hi & _ & _ & a & Ha & Hip & Ea).
  destruct (allocated a _ Ha) as (ip' & Hip' & Ea' & Hc & Hg & _). assert (ip' = ip) as -> by (apply Addr.String4_inj; congruence).
  rewrite (own_address q ip), (lookup_addr i ip Hr) by done. unfold Names.names_of. cbn [mapM].
  assert (Dns.ptrRecord (Dns.Question_Name q) (Name i +:+ "." +:+ Network.Name nw +:+ ".") = None) as ->; [|done].
  unfold Dns.ptrRecord. rewrite Dns.NewName_long; [done|]. rewrite !Network.len_app. cbn. lia.
Qed.

(** C36: Names can bring the daemon down. Whatever instance runs on a network
    that is not isolated, if its name in the network's domain is longer than a
    name of DNS may be, then a guest that looks up the name of the instance's
    address, its own for instance, makes the network's DNS server panic, which
    ends the daemon. Names that are valid can be that long. *)
Theorem long_names_bring_the_daemon_down i ip forward msg header q :
  running i ip → 255 < Str.len (Name i) + Str.len (Network.Name nw) + 2 →
  Dns.Start msg = Some header → Dns.Header_Response header = false → Dns.AllQuestions msg = Some [q] →
  Dns.Question_Class q = Dns.ClassINET → Dns.Question_Type q = Dns.TypePTR →
  Dns.asked_name unicodeToLower q = Dns.reverseName ip →
  Dns.answer n unicodeToLower (lookups:=resolver s) forward msg = mret Dns.Panicked.
Proof.
  intros Hr Hlong Hs Hresp Hq Hc Ht Hn. unfold Dns.answer. rewrite Hs, Hresp, Hq, Hc. cbn [Z.eqb].
  by erewrite long_pointers_panic.
Qed.

End Agreement.

(** ** An example *)

(** A network, and an instance that runs on it. *)
Definition example_network (name : string) : Network.Network :=
  Network.mkNetwork "n1" name "10.0.0.1" "10.0.0.0/24" (Network.BridgeName name) [Network.DefaultNameserver] Network.DefaultMTU false false 0 0.

Definition example_instance (network : string) : Spec := {|
  ID := "i1"; Name := "db"; Hostname := "Postgres"; ImageRef := "postgres"; ImageDigest := "sha256:0";
  HypervisorType := ""; HypervisorVersion := ""; KernelName := "mine"; KernelArgs := "";
  VCPUs := 1; MemoryBytes := 1073741824; DiskBytes := 10737418240; NetworkName := network;
  StaticIP := ""; MaxVCPUs := 0; MaxMemoryBytes := 0; DiskBytesPerSecond := 0;
  DiskIOPS := 0; UploadBytesPerSecond := 0; DownloadBytesPerSecond := 0; StandbyAfter := 0;
  Ports := []; Mounts := []; Env := ∅; Cmd := []; InitMode := "";
  User := ""; Labels := ∅; Restart := mkRestartPolicy "no" 0; HealthCheck := None;
  CreatedAt := 1; UpdatedAt := 1; RemoveOnExit := false; StoppedByUser := false;
|}.

Definition example_host (network : string) : Host :=
  mkHost (Store.set_instances Store.empty_store (Kind.put (Kind.write (Kind.empty_kind ∅) (example_instance network)) (example_instance network)))
    (NetworkManager.NewManager {[network := Ok [Network.mkAllocation "n1" "i1" "10.0.0.2" "02:00:00:00:00:02"]]})
    {["i1" := Some (bareStatus "i1" StateRunning None)]} ∅ ∅ ∅ ∅ ∅ ∅ ∅ ∅ ∅ ∅ 0 [] [] false.

(** A name as long as a name may be. *)
Definition longest_name : string :=
  Str.join "." (Str.of_list <$> [repeat "a"%char 63; repeat "b"%char 63; repeat "c"%char 63; repeat "d"%char 61]).

Definition example_served (network : string) : Dns.servedNetwork :=
  Dns.mkServed network network (Addr.mkPrefix [10; 0; 0; 0]%Z 24) ([10; 0; 0; 1]%Z, []) ["8.8.8.8:53"] true false.

Definition example_allocation : Network.Allocation := Network.mkAllocation "n1" "i1" "10.0.0.2" "02:00:00:00:00:02".

Lemma example_agreeable network :
  Network.New "n1" 0 (Network.mkSpec network "10.0.0.0/24" "" 0 [] false false) = Ok (example_network network) →
  Dns.networkOf Str.to_lower [] (example_network network) = Ok (example_served network) →
  agreeable Str.to_lower [] (example_host network) {[network := example_network network]} (example_network network) (example_served network) ∧
  running (example_host network) (example_network network) (example_instance network) [10; 0; 0; 2]%Z.
Proof.
  intros Hnew Hserved. pose proof (Network.New_well_formed _ _ _ _ Hnew) as Hnw. split; [split_and!|split_and!].
  - apply Kind.put_fresh_wf; [split; intros x y; cbn; by rewrite lookup_empty|by repeat split|by apply Naming.Validate_Ok|done..].
  - split; [done|]. intros name t. cbn. rewrite lookup_omap. intros (f & [<- <-]%lookup_singleton_Some & Ht)%bind_Some.
    injection Ht as <-. split.
    + split; [done|]. split; apply NoDup_singleton.
    + intros nw [_ <-]%lookup_singleton_Some. destruct (Network.well_formed_prefix _ Hnw) as (ipNet & Hu & _ & Hp & _).
      exists ipNet. split; [done|]. apply Forall_singleton. split; [|done]. simpl in Hp. vm_compute in Hp. injection Hp as <-.
      exists 2%Z. split; [vm_compute; by split|by vm_compute].
  - apply lookup_singleton_eq.
  - done.
  - done.
  - done.
  - by vm_compute.
  - done.
  - by vm_compute.
  - exists example_allocation. split_and!; [|split; [done|repeat (apply Forall_cons; split; [vm_compute; by split|]); by apply Forall_nil]|by vm_compute].
    cbn. unfold NetworkManager.AllocationOf, NetworkManager.allocationTableOf. cbn. rewrite !lookup_omap, lookup_singleton_eq. done.
Qed.

Lemma example_network_new : Network.New "n1" 0 (Network.mkSpec "backend" "10.0.0.0/24" "" 0 [] false false) = Ok (example_network "backend").
Proof. by vm_compute. Qed.

Lemma example_network_served : Dns.networkOf Str.to_lower [] (example_network "backend") = Ok (example_served "backend").
Proof. by vm_compute. Qed.

Lemma names_and_addresses_agree_witness :
  let q := Dns.mkQuestion "2.0.0.10.in-addr.arpa." Dns.TypePTR Dns.ClassINET in
  let lookups := resolver (λ _ _, false) (example_host "backend") in
  (∃ records, Dns.ownRecords (example_served "backend") Str.to_lower (messages:=Dns.example_messages) (lookups:=lookups) q =
    Some (Some (records, Dns.RCodeSuccess)) ∧
    Dns.PTRResource "db.backend." ∈ Dns.Body <$> records ∧ Dns.PTRResource "Postgres.backend." ∈ Dns.Body <$> records) ∧
  ∃ addrs, Dns.ownRecords (example_served "backend") Str.to_lower (messages:=Dns.example_messages) (lookups:=lookups)
      (Dns.mkQuestion "Postgres.backend." Dns.TypeA Dns.ClassINET) =
    Some (Some (Dns.aRecord "Postgres.backend." <$> addrs, Dns.RCodeSuccess)) ∧ [10; 0; 0; 2]%Z ∈ addrs.
Proof.
  intros q lookups. destruct (example_agreeable "backend" example_network_new example_network_served) as [Hok Hr].
  destruct (names_and_addresses_agree Str.to_lower (λ _ _, false) [] (messages:=Dns.example_messages) _ _ _ _ Hok _ _ q Hr) as [Hptr Ha].
  - right. by apply Naming.Validate_Ok.
  - repeat (apply Forall_cons; split; [vm_compute; lia|]). by apply Forall_nil.
  - done.
  - by vm_compute.
  - split.
    + eexists. split; [exact Hptr|]. vm_compute. split; [left|right; left].
    + destruct (Ha "Postgres" (Dns.mkQuestion "Postgres.backend." Dns.TypeA Dns.ClassINET)) as (addrs & E & Hin & _);
        [vm_compute; right; left|split; [done|vm_compute; set_solver]|done|done| |by exists addrs].
      intros [E|[sub E%(f_equal (Str.cut_suffix ("." +:+ Dns.InternalDomain)))]]; [by vm_compute in E|].
      rewrite Str.cut_suffix_app in E. by vm_compute in E.
Defined.

(** A guest asks for the name of its own address. *)
Definition example_lookup : list Z := [0; 7; 0; 12; 1]%Z ++ ((λ c, Z.of_N (N_of_ascii c)) <$> Str.to_list "2.0.0.10.in-addr.arpa.").

Lemma long_names_bring_the_daemon_down_witness :
  Network.New "n1" 0 (Network.mkSpec longest_name "10.0.0.0/24" "" 0 [] false false) = Ok (example_network longest_name) ∧
  Validate (example_instance longest_name) = Ok tt ∧
  Dns.answer (example_served longest_name) Str.to_lower (messages:=Dns.example_messages)
    (lookups:=resolver (λ _ _, false) (example_host longest_name)) (λ _, mret (Ok [])) example_lookup = mret Dns.Panicked.
Proof.
  assert (Network.New "n1" 0 (Network.mkSpec longest_name "10.0.0.0/24" "" 0 [] false false) = Ok (example_network longest_name)) as Hnew
    by (vm_compute; reflexivity).
  assert (Dns.networkOf Str.to_lower [] (example_network longest_name) = Ok (example_served longest_name)) as Hserved by (vm_compute; reflexivity).
  destruct (example_agreeable longest_name Hnew Hserved) as [Hok Hr]. split_and!; [exact Hnew|vm_compute; reflexivity|].
  eapply (long_names_bring_the_daemon_down Str.to_lower (λ _ _, false) [] _ _ _ _ Hok _ _ _ _ _ _ Hr); try (vm_compute; reflexivity).
  vm_compute. lia.
Defined.

End Names.
