(* ===== verification/Safety.v ===== *)
(** * Safety of concurrent operations

    However the operations of [Manager] other than forks interleave, whatever
    the world answers, and wherever the daemon crashes: the instances never
    hold more than the host allows, and no two that run publish ports that
    overlap or share a volume that one of them may write to. The instance locks
    and the admission lock are what makes it so; [R] and [G] say how. *)

From S2P Require Import Prelude Errdefs Naming Health Token Addr Network NetworkManager Instance Definitions FileStore Conc Host Manager.

Module Safety.
Import Instance Host Manager.

Section Safety.

Context (cfg : Config).

(** The IDs that are generated: none is a name a client gives. *)
Context (generated : string → bool).

(** ** What is shared *)

(** An instance's definition, by ID. *)
Definition def_of (s : Host) (id : string) : option Spec :=
  match Kind.namesByID (Store.instances (store s)) !! id with
  | Some n => Kind.byName (Store.instances (store s)) !! n
  | None => None
  end.

(** An instance's status, as its file says. *)
Definition raw (s : Host) (id : string) : Status := status_in (statuses s) id.

(** Whether a status is of an instance with a VM: one that starts, runs or is
    paused, or one that stops and ran before. *)
Definition vmst (st : Status) : bool :=
  HoldsResources (Status_State st) || (bool_decide (Status_State st = StateStopping) && bool_decide (VMMPID st ≠ None)).

Definition has_vm (s : Host) (id : string) : Prop := is_Some (def_of s id) ∧ vmst (raw s id) = true.

(** What a defined instance holds. *)
Definition heldOf (s : Host) (id : string) : Res.Resources :=
  match def_of s id with Some _ => HeldResources (raw s id) | None => Res.zero end.

Definition le_res (a b : Res.Resources) : Prop := (Res.VCPUs a ≤ Res.VCPUs b ∧ Res.MemoryBytes a ≤ Res.MemoryBytes b)%Z.

Definition sum_res (l : list Res.Resources) : Res.Resources :=
  Res.mkResources (foldr (λ r n, Res.VCPUs r + n)%Z 0%Z l) (foldr (λ r n, Res.MemoryBytes r + n)%Z 0%Z l).

(** Sums of what instances hold stay far from the bounds of 64-bit
    integers. *)
Definition capacity_ok : Prop :=
  let r := Allocatable (capacity cfg) in
  (0 ≤ Res.VCPUs r < 2 ^ 62 ∧ 0 ≤ Res.MemoryBytes r < 2 ^ 62)%Z.

(** What the host could ever give an instance. *)
Definition bounded (r : Res.Resources) : Prop := le_res Res.zero r ∧ le_res r (Allocatable (capacity cfg)).

Definition limited : Prop := Unlimited (capacity cfg) = false.

(** ** What two instances must not share *)

Definition ports_apart (a b : Spec) : Prop :=
  ∀ p q, p ∈ Ports a → q ∈ Ports b → Network.PortsOverlap p q = false.

Definition volumes_apart (a b : Spec) : Prop :=
  ∀ m n, m ∈ Mounts a → n ∈ Mounts b → isVolume m = true → isVolume n = true → Source m = Source n →
    ReadOnly m = true ∧ ReadOnly n = true.

(** Each volume is mounted once. *)
Definition volumes_once (a : Spec) : Prop := NoDup (Source <$> List.filter isVolume (Mounts a)).

Definition same_claims (a b : option Spec) : Prop :=
  ∃ x y, a = Some x ∧ b = Some y ∧ Ports x = Ports y ∧ Mounts x = Mounts y.

(** ** The invariant *)

Definition status_ok (id : string) (st : Status) : Prop :=
  InstanceID st = id ∧
  (VMMPID st ≠ None → HoldsResources (Status_State st) = true ∨ Status_State st = StateStopping) ∧
  (limited → bounded (Res.mkResources (Status_VCPUs st) (Status_MemoryBytes st))).

Definition spec_ok (v : Spec) : Prop :=
  volumes_once v ∧ (0 ≤ VCPUs v ∧ 0 ≤ MemoryBytes v ∧ 0 ≤ MaxVCPUs v ∧ 0 ≤ MaxMemoryBytes v)%Z ∧
  (limited → bounded (MaxResources v)).

(** What an atomic step on other parts of the state leaves as it is. *)
Definition core (s : Host) := (Store.instances (store s), statuses s).

Record core_ok (s : Host) : Prop := {
  ok_wf : Kind.kind_wf (Store.instances (store s));
  ok_kept : Store.kept (Store.instances (store s));
  ok_names : ∀ n v, Kind.byName (Store.instances (store s)) !! n = Some v →
    generated n = false ∧ generated (ID v) = true;
  ok_specs : ∀ id v, def_of s id = Some v → spec_ok v;
  ok_statuses : ∀ id st, statuses s !! id = Some (Some st) → status_ok id st;
  ok_room : limited → ∀ l, NoDup l → le_res (sum_res (heldOf s <$> l)) (Allocatable (capacity cfg));
  ok_apart : ∀ a b va vb, a ≠ b → def_of s a = Some va → def_of s b = Some vb →
    vmst (raw s a) = true → vmst (raw s b) = true → ports_apart va vb ∧ volumes_apart va vb;
}.

(** What is frozen holds no more than an instance could, and is of an
    instance. *)
Definition frozen_ok (v : Snapshot.Snapshot) : Prop :=
  (limited → bounded (snapshotResources v)) ∧ generated (ID (Snapshot.Instance v)) = true.

Record aux_ok (s : Host) : Prop := {
  ok_indexed : Kind.indexed (Store.snapshots (store s));
  ok_snapshots : ∀ n v, Kind.byName (Store.snapshots (store s)) !! n = Some v → frozen_ok v;
  ok_snapshot_files : ∀ n v, Kind.files (Store.snapshots (store s)) !! n ≫= Kind.readDefinition = Some v → frozen_ok v;
  ok_standbys : ∀ n v, standbys s !! n = Some (Some v) → frozen_ok v;
}.

Definition I (s : Host) : Prop := core_ok s ∧ aux_ok s.

(** ** What a thread may do, and what it can rely on *)

(** An instance holds no more than it did, defined or not. *)
Definition held_less (s s' : Host) (id : string) : Prop :=
  le_res (heldOf s' id) (heldOf s id) ∧ le_res (HeldResources (raw s' id)) (HeldResources (raw s id)).

Record G (L : gset lock) (s s' : Host) : Prop := {
  g_status : ∀ id, InstanceLock id ∉ L → statuses s' !! id = statuses s !! id;
  g_new : ∀ id, def_of s id = None → NewID id ∉ L → def_of s' id = None;
  g_def : ∀ id v, InstanceLock id ∉ L → def_of s id = Some v → def_of s' id = Some v;
  g_undefined : ∀ id, def_of s' id = None → vmst (raw s' id) = true → vmst (raw s id) = true;
  g_admission : AdmissionLock ∉ L → ∀ id, (limited → held_less s s' id) ∧
    (has_vm s' id → has_vm s id ∧ same_claims (def_of s id) (def_of s' id));
}.

Record R (L : gset lock) (s s' : Host) : Prop := {
  r_status : ∀ id, InstanceLock id ∈ L → statuses s' !! id = statuses s !! id;
  r_def : ∀ id v, InstanceLock id ∈ L → def_of s id = Some v → def_of s' id = Some v;
  r_admission : AdmissionLock ∈ L → ∀ id, (limited → held_less s s' id) ∧
    (has_vm s' id → has_vm s id ∧ same_claims (def_of s id) (def_of s' id));
  r_new : ∀ id, NewID id ∈ L → def_of s id = None →
    def_of s' id = None ∧ (vmst (raw s' id) = true → vmst (raw s id) = true);
}.

Definition level (l : lock) : nat :=
  match l with NewID _ => 0 | InstanceLock _ => 1 | NetworkLock _ | AdmissionLock => 2 end.

Lemma le_res_refl a : le_res a a.
Proof. split; lia. Qed.

Lemma le_res_trans a b c : le_res a b → le_res b c → le_res a c.
Proof. unfold le_res. lia. Qed.

Lemma held_less_refl s id : held_less s s id.
Proof. split; apply le_res_refl. Qed.

Lemma held_less_trans s1 s2 s3 id : held_less s1 s2 id → held_less s2 s3 id → held_less s1 s3 id.
Proof. intros [] []. split; by eapply le_res_trans. Qed.

#[global] Instance rely_guarantee : RelyGuarantee I G R.
Proof.
  split.
  - intros L s. split; [done|done| |done]. intros _ id. split; [intros; apply held_less_refl|].
    intros Hv. split; [done|]. destruct Hv as [[v Hv] _]. by exists v, v.
  - intros L s1 s2 s3 [A1 A2 A3 A4] [B1 B2 B3 B4]. split.
    + intros id Hl. by rewrite B1, A1.
    + eauto.
    + intros Hl id. destruct (A3 Hl id) as [Ha Ha'], (B3 Hl id) as [Hb Hb']. split; [intros; eapply held_less_trans; eauto|].
      intros (Hv & x & y & E1 & E2 & P1 & M1)%Hb'. apply Ha' in Hv as (Hv & x' & y' & E1' & E2' & P2 & M2).
      split; [done|]. rewrite E2' in E1. injection E1 as <-. exists x', y. split_and!; congruence.
    + intros id Hl Hn. destruct (A4 id Hl Hn) as [Hn2 H2]. destruct (B4 id Hl Hn2) as [Hn3 H3]. auto.
  - intros L1 L2 s s' Hd _ [g1 g2 g3 g4 g5]. split.
    + intros id Hl. apply g1. set_solver.
    + intros id v Hl. apply g3. set_solver.
    + intros Hl. apply g5. set_solver.
    + intros id Hl Hn. assert (def_of s' id = None) by (apply g2; [done|set_solver]). auto.
Qed.

Hypothesis Hcap : capacity_ok.

Lemma R_trans L s1 s2 s3 : R L s1 s2 → R L s2 s3 → R L s1 s3.
Proof. apply (rely_trans I G R). Qed.

Ltac rely :=
  first [ assumption
        | match goal with H : R ?L ?b ?c |- R ?L ?a ?c => apply (R_trans L a b c); [rely|exact H] end ].

Abbreviation wpm := (wp I G R level).

Lemma status_in_ok s id : core_ok s → status_ok id (raw s id).
Proof.
  intros Hok. unfold raw, status_in. destruct (statuses s !! id) as [[st|]|] eqn:E;
    [by eapply ok_statuses|..]; (split_and!; [done..|]); intros _; unfold capacity_ok in Hcap;
    unfold bounded, le_res; simpl; lia.
Qed.

(** ** Steps that leave definitions and statuses alone *)

Lemma core_raw s s' id : core s' = core s → raw s' id = raw s id.
Proof. unfold core, raw. by intros [= _ ->]. Qed.

Lemma core_def s s' id : core s' = core s → def_of s' id = def_of s id.
Proof. unfold core, def_of. by intros [= -> _]. Qed.

Lemma core_held s s' id : core s' = core s → heldOf s' id = heldOf s id.
Proof. intros E. unfold heldOf. by rewrite (core_raw _ _ _ E), (core_def _ _ _ E). Qed.

Lemma core_held_less s s' id : core s' = core s → held_less s s' id.
Proof. intros E. unfold held_less. rewrite (core_held _ _ _ E), (core_raw _ _ _ E). split; apply le_res_refl. Qed.

Lemma core_has_vm s s' id : core s' = core s → has_vm s' id ↔ has_vm s id.
Proof. intros E. unfold has_vm. by rewrite (core_raw _ _ _ E), (core_def _ _ _ E). Qed.

Lemma core_core_ok s s' : core s' = core s → core_ok s → core_ok s'.
Proof.
  intros E [H1 H1' H2 H3 H4 H5 H6]. pose proof E as [= Ei Es].
  split; rewrite ?Ei, ?Es; [done|done|done| |done| |].
  - intros id v. rewrite (core_def _ _ _ E). apply H3.
  - intros Hl l Hd. replace (heldOf s' <$> l) with (heldOf s <$> l); [by apply H5|].
    apply list_fmap_ext. intros i x _. symmetry. by apply core_held.
  - intros a b va vb. rewrite !(core_def _ _ _ E), !(core_raw _ _ _ E). apply H6.
Qed.

Lemma core_R L s s' : core s' = core s → R L s s'.
Proof.
  intros E. pose proof E as [= Ei Es]. split.
  - intros id _. by rewrite Es.
  - intros id v _. by rewrite (core_def _ _ _ E).
  - intros _ id. split; [intros; by apply core_held_less|]. intros Hv. apply (core_has_vm _ _ _ E) in Hv.
    split; [done|]. rewrite (core_def _ _ _ E). destruct Hv as [[v Hv] _]. by exists v, v.
  - intros id _ Hn. rewrite (core_def _ _ _ E), (core_raw _ _ _ E). auto.
Qed.

Lemma core_G L s s' : core s' = core s → G L s s'.
Proof.
  intros E. pose proof E as [= Ei Es]. split.
  - intros id _. by rewrite Es.
  - intros id Hn _. by rewrite (core_def _ _ _ E).
  - intros id v _. by rewrite (core_def _ _ _ E).
  - intros id _. by rewrite (core_raw _ _ _ E).
  - intros _ id. split; [intros; by apply core_held_less|]. intros Hv. apply (core_has_vm _ _ _ E) in Hv.
    split; [done|]. rewrite (core_def _ _ _ E). destruct Hv as [[v Hv] _]. by exists v, v.
Qed.

(** A program that may run under any locks, and does no more than others
    may. *)
Definition quiet {A} (p : M A) : Prop :=
  ∀ L s (Q : A → gset lock → Host → Prop), (∀ a s', R L s s' → I s' → Q a L s') → wpm p L s Q.

(** The same of one that may take a network's lock. *)
Definition net_free (L : gset lock) : Prop := ∀ l, l ∈ L → level l < 2.

Definition neutral {A} (p : M A) : Prop :=
  ∀ L s (Q : A → gset lock → Host → Prop), net_free L → (∀ a s', R L s s' → I s' → Q a L s') → wpm p L s Q.

Lemma quiet_neutral {A} (p : M A) : quiet p → neutral p.
Proof. intros Hp L s Q _. apply Hp. Qed.

Lemma quiet_ret {A} (a : A) : quiet (mret a).
Proof. intros L s Q HQ s' Hr HI. by apply HQ. Qed.

Lemma quiet_bind {A B} (p : M A) (g : A → M B) : quiet p → (∀ a, quiet (g a)) → quiet (p ≫= g).
Proof.
  intros Hp Hg L s Q HQ. apply wp_bind; [apply _|]. apply Hp. intros a s' Hr _. apply Hg.
  intros b s2 Hr2. apply HQ. by eapply (rely_trans I G R).
Qed.

Lemma neutral_bind {A B} (p : M A) (g : A → M B) : neutral p → (∀ a, neutral (g a)) → neutral (p ≫= g).
Proof.
  intros Hp Hg L s Q Hn HQ. apply wp_bind; [apply _|]. apply Hp; [done|]. intros a s' Hr _. apply Hg; [done|].
  intros b s2 Hr2. apply HQ. by eapply (rely_trans I G R).
Qed.

Lemma quiet_atomic {B} (f : Host → B * Host) :
  (∀ s, core (f s).2 = core s) → (∀ s, aux_ok s → aux_ok (f s).2) → quiet (atomically f).
Proof.
  intros Hc Ha L s Q HQ. apply wp_atomically. intros s' Hr [HI1 HI2].
  assert (I (f s').2) as HI' by (split; [by eapply core_core_ok; [apply Hc|]|by apply Ha]).
  split_and!; [by apply core_G|done|]. intros s2 Hr2 HI2'. apply HQ; [|done].
  eapply (rely_trans I G R); [exact Hr|]. eapply (rely_trans I G R); [|exact Hr2]. by apply core_R.
Qed.

Lemma quiet_gets {B} (f : Host → B) : quiet (gets f).
Proof. apply quiet_atomic; auto. Qed.

Lemma quiet_modify (f : Host → Host) :
  (∀ s, core (f s) = core s) → (∀ s, aux_ok s → aux_ok (f s)) → quiet (modify f).
Proof. intros Hc Ha. apply quiet_atomic; auto. Qed.

Lemma quiet_ask q : quiet (ask q).
Proof.
  intros L s Q HQ a s' Hr HI s2 Hr2 HI2. apply HQ; [|done]. by eapply (rely_trans I G R).
Qed.

(** A network's lock makes no difference to what is relied on. *)
Lemma R_same (L L' : gset lock) s s' :
  (∀ l, (∀ n, l ≠ NetworkLock n) → l ∈ L ↔ l ∈ L') → R L s s' → R L' s s'.
Proof.
  intros HL [r1 r2 r3 r4]. split.
  - intros id Hl. apply r1, HL; done.
  - intros id v Hl. apply r2, HL; done.
  - intros Hl. apply r3, HL; done.
  - intros id Hl. apply r4, HL; done.
Qed.

Lemma neutral_with_network_lock {A} n (p : M A) : quiet p → neutral (with_lock (NetworkLock n) p).
Proof.
  intros Hp L s Q Hn HQ s1 Hr1 HI1. assert (NetworkLock n ∉ L) as Hnot by (intros Hl; specialize (Hn _ Hl); simpl in Hn; lia).
  split. { split; [simpl; lia|]. intros l Hl. exact (Hn l Hl). }
  apply wp_bind; [apply _|]. apply Hp. intros a s2 Hr2 HI2.
  intros s3 Hr3 HI3. split; [set_solver|].
  replace (({[NetworkLock n]} ∪ L) ∖ {[NetworkLock n]}) with L by set_solver.
  intros s4 Hr4 HI4. apply HQ; [|done].
  eapply (rely_trans I G R); [exact Hr1|]. eapply (rely_trans I G R); [|exact Hr4].
  eapply (R_same ({[NetworkLock n]} ∪ L)); [set_solver|]. by eapply (rely_trans I G R).
Qed.

Lemma neutral_ret {A} (a : A) : neutral (mret a).
Proof. apply quiet_neutral, quiet_ret. Qed.

(** Goes through a program step by step. *)
Ltac calm :=
  repeat first
    [ solve [eauto with calm]
    | progress intros
    | lazymatch goal with |- @quiet _ ?p => lazymatch p with @ask _ _ _ _ ?q => exact (quiet_ask q) end end
    | lazymatch goal with
      | |- quiet (mret _) => apply quiet_ret
      | |- quiet (gets _) => apply quiet_gets
      | |- quiet (modify _) => apply quiet_modify; [done|by intros ? []; split]
      | |- quiet (_ ≫= _) => apply quiet_bind
      | |- quiet (match ?x with _ => _ end) => destruct x
      | |- neutral (with_lock _ _) => apply neutral_with_network_lock
      | |- neutral (_ ≫= _) => apply neutral_bind
      | |- neutral (match ?x with _ => _ end) => destruct x
      end
    | lazymatch goal with |- quiet ?p => unfold_head p | |- neutral ?p => unfold_head p end
    | lazymatch goal with |- neutral _ => apply quiet_neutral end ]
with unfold_head p :=
  lazymatch p with
  | ebind _ _ => unfold ebind
  | attempt _ => unfold attempt
  | wrapping _ _ => unfold wrapping
  | ignoring _ => unfold ignoring
  | on_error _ _ => unfold on_error
  | deferred _ _ => unfold deferred
  end.

Create HintDb calm.
#[local] Hint Resolve quiet_neutral : calm.

Lemma quiet_attempt what : quiet (attempt what).
Proof. calm. Qed.

Lemma quiet_readStatus id : quiet (readStatus id).
Proof. apply quiet_gets. Qed.

Lemma quiet_onStandby instance : quiet (onStandby instance).
Proof. apply quiet_gets. Qed.

#[local] Hint Resolve quiet_attempt quiet_readStatus quiet_onStandby : calm.

Lemma quiet_statusOf instance : quiet (statusOf instance).
Proof. unfold statusOf. calm. Qed.

Lemma quiet_notifyWaiters status : quiet (notifyWaiters status).
Proof. unfold notifyWaiters. calm. Qed.

Lemma quiet_record instance action : quiet (record instance action).
Proof. unfold record. calm. Qed.

Lemma quiet_recordSnapshot snapshot action : quiet (recordSnapshot snapshot action).
Proof. unfold recordSnapshot. calm. Qed.

Lemma quiet_lookupInstance x : quiet (lookupInstance x).
Proof. apply quiet_gets. Qed.

Lemma quiet_reread instance : quiet (rereadDefinition instance).
Proof. apply quiet_gets. Qed.

Lemma quiet_stopWaker id : quiet (stopWaker id).
Proof. unfold stopWaker. calm. Qed.

#[local] Hint Resolve quiet_statusOf quiet_notifyWaiters quiet_record quiet_recordSnapshot quiet_lookupInstance quiet_reread quiet_stopWaker : calm.

Lemma aux_standbys_delete s n : aux_ok s → aux_ok (set_standbys s (base.delete n (standbys s))).
Proof. intros [H0 H1 H2 H3]. split; [done|done|done|]. intros m v Hm. simpl in Hm. apply lookup_delete_Some in Hm as [_ Hm]. eauto. Qed.

Lemma quiet_syncWaker id : quiet (syncWaker id).
Proof. unfold syncWaker. calm. Qed.

#[local] Hint Resolve quiet_syncWaker : calm.

Lemma quiet_readStandby instance : quiet (readStandby instance).
Proof. unfold readStandby. calm. Qed.

#[local] Hint Resolve quiet_readStandby : calm.

Lemma quiet_removeStandby instance : quiet (removeStandby instance).
Proof. unfold removeStandby. calm; (apply quiet_modify; [done|]); intros s; apply aux_standbys_delete. Qed.

#[local] Hint Resolve quiet_removeStandby : calm.

Lemma quiet_discardStandby instance : quiet (discardStandby instance).
Proof. unfold discardStandby. calm. Qed.

#[local] Hint Resolve quiet_discardStandby : calm.

Lemma quiet_connect instance status : quiet (connect cfg instance status).
Proof. unfold connect. calm. Qed.

#[local] Hint Resolve quiet_connect : calm.

Lemma quiet_supervise instance vmm status : quiet (supervise instance vmm status).
Proof. unfold supervise. calm. Qed.

#[local] Hint Resolve quiet_supervise : calm.

Lemma quiet_vmmOf id : quiet (vmmOf id).
Proof. unfold vmmOf. calm. Qed.

#[local] Hint Resolve quiet_vmmOf : calm.

Lemma quiet_forget id : quiet (forget id).
Proof. unfold forget. calm. Qed.

#[local] Hint Resolve quiet_forget : calm.

Lemma quiet_process_ends vmm : quiet (process_ends vmm).
Proof. unfold process_ends. calm. Qed.

#[local] Hint Resolve quiet_process_ends : calm.

Lemma quiet_process_starts vmm : quiet (process_starts vmm).
Proof. unfold process_starts. calm. Qed.

#[local] Hint Resolve quiet_process_starts : calm.

Lemma quiet_shutdownGracefully status vmm : quiet (shutdownGracefully status vmm).
Proof. unfold shutdownGracefully. calm. Qed.

#[local] Hint Resolve quiet_shutdownGracefully : calm.

Lemma quiet_syncGuest status : quiet (syncGuest status).
Proof. unfold syncGuest. calm. Qed.

#[local] Hint Resolve quiet_syncGuest : calm.

Lemma quiet_stopVMM instance status graceful : quiet (stopVMM cfg instance status graceful).
Proof. unfold stopVMM. calm. Qed.

#[local] Hint Resolve quiet_stopVMM : calm.

Lemma quiet_scheduleRestart id : quiet (scheduleRestart id).
Proof. unfold scheduleRestart. apply quiet_modify; intros s; destruct (closing s); try done. by intros []; split. Qed.

#[local] Hint Resolve quiet_scheduleRestart : calm.

Lemma quiet_cancelRestart id : quiet (cancelRestart id).
Proof. unfold cancelRestart. calm. Qed.

#[local] Hint Resolve quiet_cancelRestart : calm.

Lemma quiet_scheduleRemoval instance : quiet (scheduleRemoval instance).
Proof. unfold scheduleRemoval. calm. Qed.

#[local] Hint Resolve quiet_scheduleRemoval : calm.

Lemma quiet_allocationOf instance : quiet (allocationOf instance).
Proof. unfold allocationOf. calm. Qed.

#[local] Hint Resolve quiet_allocationOf : calm.

Lemma quiet_networkInUse others nw id : quiet (networkInUse others nw id).
Proof. induction others; cbn [networkInUse]; calm. Qed.

#[local] Hint Resolve quiet_networkInUse : calm.

Lemma quiet_unpublishPorts id : quiet (unpublishPorts id).
Proof. unfold unpublishPorts. calm. Qed.

#[local] Hint Resolve quiet_unpublishPorts : calm.

Lemma quiet_deleteTAP id : quiet (deleteTAP id).
Proof. unfold deleteTAP. calm. Qed.

#[local] Hint Resolve quiet_deleteTAP : calm.

Lemma quiet_removeTAP id : quiet (removeTAP id).
Proof. unfold removeTAP. calm. Qed.

#[local] Hint Resolve quiet_removeTAP : calm.

Lemma neutral_teardownNetwork instance : neutral (teardownNetwork cfg instance).
Proof. unfold teardownNetwork. calm. Qed.

#[local] Hint Resolve neutral_teardownNetwork : calm.

Lemma quiet_serveDNS nw : quiet (serveDNS cfg nw).
Proof. unfold serveDNS. calm. Qed.

#[local] Hint Resolve quiet_serveDNS : calm.

Lemma quiet_createTAP id up down : quiet (createTAP id up down).
Proof. unfold createTAP, addTAP. calm. Qed.

#[local] Hint Resolve quiet_createTAP : calm.

Lemma neutral_attachTAP nw instance : neutral (attachTAP cfg nw instance).
Proof. unfold attachTAP. calm. Qed.

#[local] Hint Resolve neutral_attachTAP : calm.

Lemma quiet_undoNetwork id : quiet (undoNetwork id).
Proof. unfold undoNetwork. calm. Qed.

#[local] Hint Resolve quiet_undoNetwork : calm.

Lemma quiet_publishEach id ports : quiet (publishEach id ports).
Proof. induction ports as [|p ports IH]; cbn [publishEach]; unfold publish; calm. Qed.

#[local] Hint Resolve quiet_publishEach : calm.

Lemma quiet_publishPorts instance : quiet (publishPorts instance).
Proof. unfold publishPorts. calm. Qed.

#[local] Hint Resolve quiet_publishPorts : calm.

Lemma quiet_allocate nw instance : quiet (allocate nw instance).
Proof. unfold allocate. calm. apply quiet_atomic; intros s; destruct (NetworkManager.Allocate _ _ _ _ _); [done|]. by intros []; split. Qed.

#[local] Hint Resolve quiet_allocate : calm.

Lemma neutral_setupNetwork instance : neutral (setupNetwork cfg instance).
Proof. unfold setupNetwork. calm. Qed.

#[local] Hint Resolve neutral_setupNetwork : calm.

Lemma quiet_volumeDisk name : quiet (volumeDisk cfg name).
Proof. unfold volumeDisk. calm. Qed.

#[local] Hint Resolve quiet_volumeDisk : calm.

Lemma quiet_resolveMount mount r : quiet (resolveMount cfg mount r).
Proof. unfold resolveMount. calm. Qed.

#[local] Hint Resolve quiet_resolveMount : calm.

Lemma quiet_resolveMounts_loop mounts r : quiet (resolveMounts_loop cfg mounts r).
Proof. revert r; induction mounts; cbn [resolveMounts_loop]; calm. Qed.

#[local] Hint Resolve quiet_resolveMounts_loop : calm.

Lemma quiet_resolveMounts instance : quiet (resolveMounts cfg instance).
Proof. unfold resolveMounts. calm. Qed.

#[local] Hint Resolve quiet_resolveMounts : calm.

Lemma quiet_ensureImage ref : quiet (ensureImage ref).
Proof. unfold ensureImage. calm. Qed.

#[local] Hint Resolve quiet_ensureImage : calm.

Lemma quiet_findPath what : quiet (findPath what).
Proof. unfold findPath. calm. Qed.

#[local] Hint Resolve quiet_findPath : calm.

Lemma quiet_resolveBoot instance starter : quiet (resolveBoot cfg instance starter).
Proof. unfold resolveBoot. calm. Qed.

#[local] Hint Resolve quiet_resolveBoot : calm.

Lemma quiet_for_all {A} (p : A → M unit) l : (∀ x, quiet (p x)) → quiet (for_all p l).
Proof. intros Hp. induction l; cbn [for_all]; calm. Qed.

#[local] Hint Resolve quiet_for_all : calm.

Lemma quiet_startShares_loop i shares procs fs : quiet (startShares_loop i shares procs fs).
Proof. revert i procs fs; induction shares; cbn [startShares_loop]; calm. Qed.

#[local] Hint Resolve quiet_startShares_loop : calm.

Lemma quiet_startShares instance shares : quiet (startShares cfg instance shares).
Proof. unfold startShares. calm. Qed.

#[local] Hint Resolve quiet_startShares : calm.

Lemma quiet_writeGuestDisks config : quiet (writeGuestDisks config).
Proof. unfold writeGuestDisks. calm. Qed.

#[local] Hint Resolve quiet_writeGuestDisks : calm.

Lemma quiet_startVM socket spec : quiet (startVM socket spec).
Proof. unfold startVM. calm. Qed.

#[local] Hint Resolve quiet_startVM : calm.

Lemma quiet_prepareRuntimeDir : quiet prepareRuntimeDir.
Proof. unfold prepareRuntimeDir. calm. Qed.

#[local] Hint Resolve quiet_prepareRuntimeDir : calm.

Lemma quiet_readExit id e : quiet (readExit cfg id e).
Proof. unfold readExit. calm. Qed.

#[local] Hint Resolve quiet_readExit : calm.

Lemma quiet_recordEnd instance exit decision : quiet (recordEnd instance exit decision).
Proof. unfold recordEnd. calm. Qed.

#[local] Hint Resolve quiet_recordEnd : calm.

Lemma quiet_restoreVM socket dir : quiet (restoreVM socket dir).
Proof. unfold restoreVM. calm. Qed.

#[local] Hint Resolve quiet_restoreVM : calm.

Lemma quiet_frozenGuestStatus dir : quiet (frozenGuestStatus dir).
Proof. unfold frozenGuestStatus. calm. Qed.

#[local] Hint Resolve quiet_frozenGuestStatus : calm.

Lemma quiet_endedAsItResumed instance vmm : quiet (endedAsItResumed cfg instance vmm).
Proof. unfold endedAsItResumed. calm. Qed.

#[local] Hint Resolve quiet_endedAsItResumed : calm.

Lemma quiet_toAgent instance vmm what failed : quiet (toAgent cfg instance vmm what failed).
Proof. unfold toAgent. calm. Qed.

#[local] Hint Resolve quiet_toAgent : calm.

Lemma quiet_snapshotImage : quiet snapshotImage.
Proof. unfold snapshotImage. calm. Qed.

#[local] Hint Resolve quiet_snapshotImage : calm.

Lemma quiet_snapshotVM running rounds : quiet (snapshotVM running rounds).
Proof. induction rounds; cbn [snapshotVM]; calm. Qed.

#[local] Hint Resolve quiet_snapshotVM : calm.

Lemma quiet_checkMounts mounts : quiet (checkMounts mounts).
Proof. induction mounts; cbn [checkMounts]; calm. Qed.

#[local] Hint Resolve quiet_checkMounts : calm.

Lemma quiet_checkCanStart instance : quiet (checkCanStart cfg instance).
Proof. unfold checkCanStart. calm. Qed.

#[local] Hint Resolve quiet_checkCanStart : calm.

Lemma quiet_checkCanUpdate current updated state : quiet (checkCanUpdate current updated state).
Proof. unfold checkCanUpdate. calm. Qed.

#[local] Hint Resolve quiet_checkCanUpdate : calm.

Lemma quiet_releaseAddress network id : quiet (releaseAddress network id).
Proof. unfold releaseAddress. calm. apply quiet_atomic; intros s; destruct (NetworkManager.Release _ _ _ _); [done|]. by intros []; split. Qed.

#[local] Hint Resolve quiet_releaseAddress : calm.

Lemma quiet_resizeVM held want : quiet (resizeVM held want).
Proof. unfold resizeVM. calm. Qed.

#[local] Hint Resolve quiet_resizeVM : calm.

Lemma quiet_writeMemorySnapshot rounds instance status : quiet (writeMemorySnapshot cfg rounds instance status).
Proof. unfold writeMemorySnapshot. calm. Qed.

#[local] Hint Resolve quiet_writeMemorySnapshot : calm.

Lemma quiet_takePending id pending : quiet (takePending id pending).
Proof. unfold takePending. apply quiet_atomic; intros s; destruct (closing s || _); try done. by intros []; split. Qed.

#[local] Hint Resolve quiet_takePending : calm.

Lemma quiet_currentOr instance : quiet (currentOr instance).
Proof. unfold currentOr. calm. Qed.

#[local] Hint Resolve quiet_currentOr : calm.

Lemma quiet_resumeLeftPaused instance status : quiet (resumeLeftPaused cfg instance status).
Proof. unfold resumeLeftPaused. calm. Qed.

#[local] Hint Resolve quiet_resumeLeftPaused : calm.

Lemma neutral_restoreNetwork nw : neutral (restoreNetwork cfg nw).
Proof. unfold restoreNetwork. calm. Qed.

#[local] Hint Resolve neutral_restoreNetwork : calm.

Lemma neutral_restoreAdoptedNetworks instances restored : neutral (restoreAdoptedNetworks cfg instances restored).
Proof. revert restored; induction instances; cbn [restoreAdoptedNetworks]; calm. Qed.

#[local] Hint Resolve neutral_restoreAdoptedNetworks : calm.

Lemma quiet_reconcileNetworks names live : quiet (reconcileNetworks names live).
Proof. unfold reconcileNetworks. calm. Qed.

#[local] Hint Resolve quiet_reconcileNetworks : calm.

(** ** Steps on one instance's status *)

Lemma sum_res_VCPUs r l : Res.VCPUs (sum_res (r :: l)) = (Res.VCPUs r + Res.VCPUs (sum_res l))%Z.
Proof. done. Qed.

Lemma sum_res_MemoryBytes r l : Res.MemoryBytes (sum_res (r :: l)) = (Res.MemoryBytes r + Res.MemoryBytes (sum_res l))%Z.
Proof. done. Qed.

Lemma sum_res_le l (f g : string → Res.Resources) :
  (∀ x, x ∈ l → le_res (f x) (g x)) → le_res (sum_res (f <$> l)) (sum_res (g <$> l)).
Proof.
  induction l as [|x l IH]; intros Hle; [split; simpl; lia|].
  destruct (Hle x) as [H1 H2]; [left|]. destruct IH as [H3 H4]; [intros y Hy; apply Hle; by right|].
  rewrite !fmap_cons. unfold le_res. rewrite !sum_res_VCPUs, !sum_res_MemoryBytes. lia.
Qed.

Lemma vmst_held st : vmst st = false → HeldResources st = Res.zero.
Proof. unfold vmst, HeldResources. by destruct (HoldsResources (Status_State st)). Qed.

Lemma set_status_raw s m id : raw (set_statuses s m) id = status_in m id.
Proof. done. Qed.

Lemma set_status_def s m id : def_of (set_statuses s m) id = def_of s id.
Proof. done. Qed.

(** The statuses of an instance's file, replaced or removed. *)
Definition only_differs (id : string) (m m' : gmap string (option Status)) : Prop := ∀ j, j ≠ id → m' !! j = m !! j.

Lemma only_differs_raw id s m' j : only_differs id (statuses s) m' → j ≠ id → status_in m' j = raw s j.
Proof. intros Hd Hj. unfold raw, status_in. by rewrite Hd. Qed.

(** Lowering what an instance holds. *)
Lemma lower_ok L s id m' :
  I s → InstanceLock id ∈ L → only_differs id (statuses s) m' →
  (∀ st, m' !! id = Some (Some st) → status_ok id st) →
  (limited → le_res (HeldResources (status_in m' id)) (HeldResources (raw s id))) →
  (vmst (status_in m' id) = true → vmst (raw s id) = true) →
  G L s (set_statuses s m') ∧ I (set_statuses s m').
Proof.
  intros [Hok Haux] Hl Hd Hst Hheld Hvm. set (s' := set_statuses s m').
  assert (∀ j, vmst (raw s' j) = true → vmst (raw s j) = true) as Hvm'.
  { intros j. destruct (decide (j = id)) as [->|]; [exact Hvm|]. unfold s'. by rewrite set_status_raw, (only_differs_raw id s). }
  assert (limited → ∀ j, le_res (heldOf s' j) (heldOf s j)) as Hheld'.
  { intros Hlim j. unfold heldOf, s'. rewrite set_status_def, set_status_raw. destruct (def_of s j); [|apply le_res_refl].
    destruct (decide (j = id)) as [->|]; [auto|]. rewrite (only_differs_raw id s) by done. apply le_res_refl. }
  assert (limited → ∀ j, held_less s s' j) as Hless.
  { intros Hlim j. split; [auto|]. destruct (decide (j = id)) as [->|]; [exact (Hheld Hlim)|].
    unfold s'. rewrite set_status_raw, (only_differs_raw id s) by done. apply le_res_refl. }
  split; [split|split; [split|by destruct Haux; split]].
  - intros j Hj. apply Hd. by intros ->.
  - auto.
  - auto.
  - auto.
  - intros _ j. split; [auto|]. intros [[v Hv] Hj]. split; [split; [by exists v|auto]|]. by exists v, v.
  - exact (ok_wf s Hok).
  - exact (ok_kept s Hok).
  - exact (ok_names s Hok).
  - exact (ok_specs s Hok).
  - intros j st Hj. destruct (decide (j = id)) as [->|]; [auto|]. apply (ok_statuses s Hok). rewrite <-Hd; done.
  - intros Hlim l Hnd. eapply le_res_trans; [|by apply (ok_room s Hok Hlim l)]. apply sum_res_le. auto.
  - intros a b va vb Hab Ha Hb Hva Hvb. apply (ok_apart s Hok a b); auto.
Qed.

(** Going on from a quiet, or a neutral, program. *)
Lemma wp_quiet {A B} (p : M A) (g : A → M B) L s Q :
  quiet p → (∀ a s', R L s s' → I s' → wpm (g a) L s' Q) → wpm (p ≫= g) L s Q.
Proof. intros Hp Hg. apply wp_bind; [apply _|]. by apply Hp. Qed.

Lemma wp_neutral {A B} (p : M A) (g : A → M B) L s Q :
  neutral p → net_free L → (∀ a s', R L s s' → I s' → wpm (g a) L s' Q) → wpm (p ≫= g) L s Q.
Proof. intros Hp Hn Hg. apply wp_bind; [apply _|]. by apply Hp. Qed.

Lemma wp_equiet {A B} (p : M (result A)) (g : A → M (result B)) L s Q :
  quiet p → (∀ a s', R L s s' → I s' → wpm (g a) L s' Q) → (∀ e s', R L s s' → I s' → Q (Err e) L s') →
  wpm (ebind p g) L s Q.
Proof.
  intros Hp Hg He. apply wp_quiet; [done|]. intros [a|e] s' Hr HI; [by apply Hg|].
  intros s2 Hr2 HI2. apply He; [|done]. by eapply (rely_trans I G R).
Qed.

Lemma wp_eneutral {A B} (p : M (result A)) (g : A → M (result B)) L s Q :
  neutral p → net_free L → (∀ a s', R L s s' → I s' → wpm (g a) L s' Q) → (∀ e s', R L s s' → I s' → Q (Err e) L s') →
  wpm (ebind p g) L s Q.
Proof.
  intros Hp Hn Hg He. apply wp_neutral; [done..|]. intros [a|e] s' Hr HI; [by apply Hg|].
  intros s2 Hr2 HI2. apply He; [|done]. by eapply (rely_trans I G R).
Qed.

Lemma R_raw L s s' id : InstanceLock id ∈ L → R L s s' → raw s' id = raw s id.
Proof. intros Hl Hr. unfold raw, status_in. by rewrite (r_status _ _ _ Hr). Qed.

Lemma wp_writeStatus L s st Q :
  InstanceLock (InstanceID st) ∈ L →
  (∀ s' now, R L s s' → I s' →
     let s2 := set_statuses s' (<[InstanceID st := Some (setUpdatedAt st now)]> (statuses s')) in G L s' s2 ∧ I s2) →
  (∀ e s', R L s s' → I s' → Q (Err e) L s') →
  (∀ now s', I s' → raw s' (InstanceID st) = setUpdatedAt st now →
     (∀ j v, InstanceLock j ∈ L → def_of s j = Some v → def_of s' j = Some v) → Q (Ok tt) L s') →
  wpm (writeStatus st) L s Q.
Proof.
  intros Hl Hw He Hk. unfold writeStatus.
  apply wp_equiet; [calm| |done]. intros _ s1 Hr1 HI1. apply wp_quiet; [calm|]. intros now s2 Hr2 HI2.
  assert (R L s s2) as Hr by (by eapply (rely_trans I G R)).
  apply wp_equiet; [calm| |]; [|intros e s3 Hr3 HI3; apply He; [by eapply (rely_trans I G R)|done]].
  intros _ s3 Hr3 HI3. apply wp_bind; [apply _|]. apply wp_atomically. intros s4 Hr4 HI4.
  destruct (Hw s4 now) as [HG HI5]; [by do 2 (eapply (rely_trans I G R); [|eassumption])|done|].
  split_and!; [exact HG|exact HI5|]. intros s6 Hr6 HI6 s7 Hr7 HI7. apply (Hk now); [done|..].
  - rewrite (R_raw L s6 s7), (R_raw L _ s6) by done. unfold raw, status_in. simpl. by rewrite lookup_insert_eq.
  - intros j v Hj Hv. assert (R L s s4) as Hr' by rely. apply (r_def _ _ _ Hr7), (r_def _ _ _ Hr6); [done..|].
    exact (r_def _ _ _ Hr' _ _ Hj Hv).
Qed.

Definition lowers (st st0 : Status) : Prop :=
  (limited → le_res (HeldResources st) (HeldResources st0)) ∧ (vmst st = true → vmst st0 = true).

Lemma lowers_nothing st st0 id : vmst st = false → status_ok id st0 → lowers st st0.
Proof.
  intros Hst (_ & _ & Hb). split; [|by rewrite Hst]. intros Hlim. rewrite vmst_held by done.
  unfold HeldResources. destruct (Hb Hlim) as [H1 _]. by destruct (negb _); [apply le_res_refl|].
Qed.

Lemma write_lower L s id st now :
  I s → InstanceLock id ∈ L → status_ok id st → lowers st (raw s id) →
  let s2 := set_statuses s (<[id := Some (setUpdatedAt st now)]> (statuses s)) in G L s s2 ∧ I s2.
Proof.
  intros HI Hl Hst [H1 H2]. apply (lower_ok L s id); [done|done|..].
  - intros j Hj. by rewrite lookup_insert_ne.
  - intros st'. rewrite lookup_insert_eq. by intros [= <-].
  - unfold status_in. by rewrite lookup_insert_eq.
  - unfold status_in. by rewrite lookup_insert_eq.
Qed.

(** ** Programs under an instance's lock *)

(** From this state, a program whatever becomes of it. *)
Definition runs {A} (L : gset lock) (s : Host) (p : M A) : Prop :=
  ∀ Q : A → gset lock → Host → Prop, (∀ a s', I s' → Q a L s') → wpm p L s Q.

Definition under (id : string) (L : gset lock) : Prop := InstanceLock id ∈ L ∧ net_free L.

(** From any state; the second leaves the instance's status as it was. *)
Definition tame {A} (id : string) (p : M A) : Prop := ∀ L s, under id L → runs L s p.

Definition spares {A} (id : string) (p : M A) : Prop :=
  ∀ L s (Q : A → gset lock → Host → Prop), under id L →
    (∀ a s', I s' → raw s' id = raw s id → Q a L s') → wpm p L s Q.

Lemma neutral_spares {A} id (p : M A) : neutral p → spares id p.
Proof. intros Hp L s Q [Hl Hn] HQ. apply Hp; [done|]. intros a s' Hr HI. apply HQ; [done|]. by eapply R_raw. Qed.

Lemma spares_tame {A} id (p : M A) : spares id p → tame id p.
Proof. intros Hp L s Hu Q HQ. apply Hp; auto. Qed.

Lemma tame_bind {A B} id (p : M A) (g : A → M B) : tame id p → (∀ a, tame id (g a)) → tame id (p ≫= g).
Proof. intros Hp Hg L s Hu Q HQ. apply wp_bind; [apply _|]. apply Hp; [done|]. intros a s' HI. by apply Hg. Qed.

Lemma spares_bind {A B} id (p : M A) (g : A → M B) : spares id p → (∀ a, spares id (g a)) → spares id (p ≫= g).
Proof.
  intros Hp Hg L s Q Hu HQ. apply wp_bind; [apply _|]. apply Hp; [done|]. intros a s' HI E. apply Hg; [done|].
  intros b s2 HI2 E2. apply HQ; congruence.
Qed.

Lemma runs_spares {A B} id (p : M A) (g : A → M B) L s :
  spares id p → under id L → (∀ a s', I s' → raw s' id = raw s id → runs L s' (g a)) → runs L s (p ≫= g).
Proof. intros Hp Hu Hg Q HQ. apply wp_bind; [apply _|]. apply Hp; [done|]. intros a s' HI E. by apply Hg. Qed.

Lemma runs_ret {A} L s (a : A) : runs L s (mret a).
Proof. intros Q HQ s' _ HI. by apply HQ. Qed.

Lemma runs_ekeeps {A B} id (p : M (result A)) (g : A → M (result B)) L s :
  spares id p → under id L → (∀ a s', I s' → raw s' id = raw s id → runs L s' (g a)) → runs L s (ebind p g).
Proof. intros Hp Hu Hg. eapply runs_spares; [done..|]. intros [a|e] s' HI E; [by apply Hg|apply runs_ret]. Qed.

Lemma runs_on_error {A} id (c : M unit) (p : M (result A)) L s :
  tame id c → under id L → runs L s p → runs L s (on_error c p).
Proof.
  intros Hc Hu Hp Q HQ. apply wp_bind; [apply _|]. apply Hp. intros [a|e] s' HI; [by apply runs_ret|].
  apply wp_bind; [apply _|]. apply Hc; [done|]. intros [] s2 HI2. by apply runs_ret.
Qed.

Lemma wp_gets {A B} (f : Host → A) (g : A → M B) L s Q :
  (∀ s', R L s s' → I s' → wpm (g (f s')) L s' Q) → wpm (gets f ≫= g) L s Q.
Proof.
  intros Hg. apply wp_bind; [apply _|]. apply wp_atomically. intros s' Hr HI.
  split_and!; [by apply core_G|done|]. intros s2 Hr2 HI2. simpl. eapply wp_rely; [apply _|exact Hr2|by apply Hg].
Qed.

(** Goes through a program under an instance's lock step by step. *)
Ltac tamely :=
  repeat first
    [ solve [eauto with tame]
    | progress intros
    | lazymatch goal with
      | |- tame _ (let _ := _ in _) => cbv zeta
      | |- tame _ (_ ≫= _) => apply tame_bind
      | |- tame _ (match ?x with _ => _ end) => destruct x
      | |- tame _ (ebind _ _) => unfold ebind
      | |- tame _ (wrapping _ _) => unfold wrapping
      | |- tame _ (ignoring _) => unfold ignoring
      | |- tame _ (deferred _ _) => unfold deferred
      | |- tame _ (on_error _ _) => unfold on_error
      end
    | lazymatch goal with |- tame _ _ => apply spares_tame, neutral_spares; solve [calm] end ].

Create HintDb tame.

Lemma remove_status_ok L s id :
  I s → InstanceLock id ∈ L →
  let s2 := set_statuses s (base.delete id (statuses s)) in G L s s2 ∧ I s2.
Proof.
  intros HI Hl. apply (lower_ok L s id); [done|done|..].
  - intros j Hj. by rewrite lookup_delete_ne.
  - intros st. by rewrite lookup_delete_eq.
  - unfold status_in. rewrite lookup_delete_eq. intros Hlim.
    apply (lowers_nothing (bareStatus id StateStopped None) (raw s id) id); [done|apply status_in_ok, HI|done].
  - unfold status_in. by rewrite lookup_delete_eq.
Qed.

Lemma tame_remove_status id : tame id (modify (λ s, set_statuses s (base.delete id (statuses s)))).
Proof.
  intros L s [Hl Hn] Q HQ. apply wp_atomically. intros s' Hr HI. simpl.
  destruct (remove_status_ok L s' id HI Hl) as [HG HI']. split_and!; [done..|]. intros s2 Hr2 HI2. by apply HQ.
Qed.

#[local] Hint Resolve tame_remove_status : tame.

Lemma tame_removeRuntimeDir id : tame id (removeRuntimeDir id).
Proof. unfold removeRuntimeDir. tamely. Qed.

#[local] Hint Resolve tame_removeRuntimeDir : tame.

(** A status that says an instance holds nothing can always be written. *)
Lemma tame_write_nothing id st : status_ok id st → vmst st = false → tame id (writeStatus st).
Proof.
  intros Hst Hvm L s [Hl Hn] Q HQ. pose proof Hst as [Eid _]. apply wp_writeStatus; rewrite ?Eid; [done|..].
  - intros s' now Hr HI. apply write_lower; [done..|]. eapply lowers_nothing; [done|apply status_in_ok, HI].
  - intros e s' Hr HI. by apply HQ.
  - intros now s' HI _ _. by apply HQ.
Qed.

Lemma bounded_zero : bounded Res.zero.
Proof. unfold bounded, le_res, capacity_ok in *. simpl. lia. Qed.

Lemma runs_gets {A B} (f : Host → A) (g : A → M B) L s :
  (∀ s', R L s s' → I s' → runs L s' (g (f s'))) → runs L s (gets f ≫= g).
Proof. intros Hg Q HQ. apply wp_gets. intros s' Hr HI. by apply Hg. Qed.

Lemma tame_fail id cause : tame id (fail id cause).
Proof.
  intros L s Hu. unfold fail, readStatus. apply runs_gets. intros s1 Hr1 HI1.
  destruct (status_in_ok s1 id) as (Eid & _); [apply HI1|].
  apply (tame_bind id); [|tamely|done]. apply tame_write_nothing; [|done].
  split_and!; [exact Eid|done|]. intros _. exact bounded_zero.
Qed.

Lemma endedStatus_ok instance prev exit decision now :
  status_ok (ID instance) (endedStatus instance prev exit decision now) ∧
  vmst (endedStatus instance prev exit decision now) = false.
Proof.
  unfold endedStatus. destruct (Instance.restart decision), (Exit_Clean exit), (gaveUp decision);
    (split; [|done]); (split_and!; [done|done|]); intros _; exact bounded_zero.
Qed.

Lemma tame_ended instance prev exit : tame (ID instance) (ended cfg instance prev exit).
Proof.
  unfold ended. apply tame_bind; [by apply spares_tame, neutral_spares; calm|intros _].
  apply tame_bind; [by apply spares_tame, neutral_spares; calm|intros since].
  apply tame_bind; [by apply spares_tame, neutral_spares; calm|intros now].
  edestruct endedStatus_ok. apply tame_bind; [unfold ignoring; apply tame_bind; [by apply tame_write_nothing|tamely]|].
  tamely.
Qed.

#[local] Hint Resolve tame_fail tame_ended : tame.

(** ** Steps on one instance's definition *)

Lemma def_of_spec s id v :
  Kind.kind_wf (Store.instances (store s)) →
  def_of s id = Some v ↔ Kind.byName (Store.instances (store s)) !! Name v = Some v ∧ ID v = id.
Proof.
  intros [H1 H2]. unfold def_of. split.
  - destruct (Kind.namesByID _ !! id) as [n|] eqn:Hi; [|done]. intros Hn.
    destruct (H2 _ _ Hi) as (w & Hw & Hid). rewrite Hw in Hn. injection Hn as <-.
    destruct (H1 _ _ Hw) as [E _]. simpl in *. by rewrite E.
  - intros [Hn <-]. destruct (H1 _ _ Hn) as (_ & _ & Hi & _). simpl in Hi. by rewrite Hi.
Qed.

(** Looking an instance up by an ID finds the instance with the ID. *)
Lemma lookup_def s id v :
  core_ok s → generated id = true → Store.Instance (store s) id = Ok v → def_of s id = Some v ∧ ID v = id.
Proof.
  intros Hok Hgen Hf. pose proof (ok_wf s Hok) as Hwf. apply (Kind.find_Ok _ _ _ _ Hwf) in Hf as [Hn Hx].
  destruct (ok_names s Hok _ _ Hn) as [Hng _]. simpl in *.
  destruct Hx as [Hx|Hx]; [congruence|]. split; [|done]. by apply def_of_spec.
Qed.

Lemma redefine_ok L s s' id v0 v :
  I s → InstanceLock id ∈ L → statuses s' = statuses s → aux_ok s' → Kind.kind_wf (Store.instances (store s')) →
  Store.kept (Store.instances (store s')) →
  (∀ n w, Kind.byName (Store.instances (store s')) !! n = Some w → generated n = false ∧ generated (ID w) = true) →
  def_of s id = Some v0 → (∀ j, def_of s' j = if decide (j = id) then Some v else def_of s j) →
  spec_ok v → (vmst (raw s id) = true → Ports v = Ports v0 ∧ Mounts v = Mounts v0) →
  G L s s' ∧ I s'.
Proof.
  intros [Hok _] Hl Es Haux Hwf Hkept Hnames Hv0 Hdef Hspec Hclaims.
  assert (∀ j, raw s' j = raw s j) as Hraw by (intros j; unfold raw; by rewrite Es).
  assert (∀ j, heldOf s' j = heldOf s j) as Hheld.
  { intros j. unfold heldOf. rewrite Hraw, Hdef. destruct (decide (j = id)) as [->|]; [by rewrite Hv0|done]. }
  split; [split|split; [split|done]].
  - intros j _. by rewrite Es.
  - intros j Hj _. rewrite Hdef, decide_False; [done|]. intros ->. congruence.
  - intros j w Hj. rewrite Hdef, decide_False; [done|]. by intros ->.
  - intros j _. by rewrite Hraw.
  - intros _ j. split; [intros _; unfold held_less; rewrite Hheld, Hraw; split; apply le_res_refl|].
    unfold has_vm. rewrite Hraw, Hdef.
    destruct (decide (j = id)) as [->|].
    + intros [_ Hvm]. rewrite Hv0. split; [by split|]. destruct (Hclaims Hvm). by exists v0, v.
    + intros [[w Hw] Hvm]. split; [by split|]. by exists w, w.
  - done.
  - done.
  - done.
  - intros j w. rewrite Hdef. destruct (decide (j = id)) as [->|]; [by intros [= <-]|by apply ok_specs].
  - rewrite Es. by apply ok_statuses.
  - intros Hlim l Hnd. erewrite list_fmap_ext; [by apply ok_room|]. intros i x _. apply Hheld.
  - intros a b va vb Hab. rewrite !Hdef, !Hraw. intros Ha Hb Hva Hvb.
    assert (∃ va0, def_of s a = Some va0 ∧ Ports va = Ports va0 ∧ Mounts va = Mounts va0) as (va0 & Ha0 & Pa & Ma).
    { destruct (decide (a = id)) as [->|]; [|by exists va]. injection Ha as <-. destruct (Hclaims Hva). by exists v0. }
    assert (∃ vb0, def_of s b = Some vb0 ∧ Ports vb = Ports vb0 ∧ Mounts vb = Mounts vb0) as (vb0 & Hb0 & Pb & Mb).
    { destruct (decide (b = id)) as [->|]; [|by exists vb]. injection Hb as <-. destruct (Hclaims Hvb). by exists v0. }
    unfold ports_apart, volumes_apart. rewrite Pa, Ma, Pb, Mb. by apply (ok_apart s Hok a b).
Qed.

Lemma aux_store s st m :
  Store.snapshots st = Store.snapshots (store s) → (∀ n v, m !! n = Some (Some v) → ∃ n', standbys s !! n' = Some (Some v)) →
  aux_ok s → aux_ok (set_standbys (set_store s st) m).
Proof.
  intros E Hm [H0 H1 H2 H3]. split; simpl; [rewrite E; done..|]. intros n v Hn. destruct (Hm n v Hn) as [n' Hn']. eauto.
Qed.

Lemma aux_store_only s st : Store.snapshots st = Store.snapshots (store s) → aux_ok s → aux_ok (set_store s st).
Proof. intros E [H0 H1 H2 H3]. split; simpl; [rewrite E; done..|done]. Qed.

(** [UpdateInstance] of the store. *)
Lemma update_def_ok L s e v v0 :
  I s → InstanceLock (ID v) ∈ L → def_of s (ID v) = Some v0 → Name v = Name v0 → spec_ok v →
  (vmst (raw s (ID v)) = true → Ports v = Ports v0 ∧ Mounts v = Mounts v0) →
  let s' := set_store s (Store.UpdateInstance e (store s) v).2 in G L s s' ∧ I s' ∧ is_Some (def_of s' (ID v)).
Proof.
  intros HI Hl Hv0 Hname Hspec Hclaims. pose proof HI as [Hok Haux]. pose proof (ok_wf s Hok) as Hwf.
  pose proof Hv0 as Hv0'. apply (def_of_spec s) in Hv0' as [Hb Hid]; [|done]. unfold Store.UpdateInstance.
  destruct (Kind.update _ _ _ _ _) as [r k'] eqn:E. apply Store.update_cases in E as [[-> _]|(-> & _ & _)]; simpl.
  { replace (set_store s (Store.set_instances (store s) (Store.instances (store s)))) with s
      by (by destruct s as [[]]). split; [by apply core_G|]. split; [done|by eexists]. }
  set (k' := Kind.put _ v). assert (Kind.kind_wf k') as Hwf'.
  { apply Kind.put_revise_wf; [done|]. exists v0. simpl. by rewrite Hname, Hb. }
  assert (def_of (set_store s (Store.set_instances (store s) k')) (ID v) = Some v) as Hdef.
  { apply def_of_spec; [exact Hwf'|]. simpl. split; [apply lookup_insert_eq|done]. }
  apply and_assoc. split; [|by eexists].
  apply (redefine_ok L s _ (ID v) v0 v); [done|done|done|by apply aux_store_only|exact Hwf'|by apply Store.put_kept, Hok|..];
    [|done| |done|done].
  - intros n w. simpl. intros [[<- <-]|[_ Hw]]%lookup_insert_Some; [|by apply (ok_names s Hok)].
    destruct (ok_names s Hok _ _ Hb) as [? ?]. rewrite Hname, <-Hid. done.
  - intros j. destruct (decide (j = ID v)) as [->|Hne]; [done|].
    apply option_eq. intros w. rewrite (def_of_spec s) by done.
    rewrite (def_of_spec (set_store s (Store.set_instances (store s) k'))) by exact Hwf'. simpl.
    split; intros [Hw Hj].
    + apply lookup_insert_Some in Hw as [[_ <-]|[_ Hw]]; [congruence|done].
    + split; [|done]. rewrite lookup_insert_ne; [done|]. rewrite Hname. intros E. rewrite E in Hb.
      rewrite Hb in Hw. injection Hw as ->. congruence.
Qed.

(** A definition replaced by one that makes the same claims, or of an instance
    that has no VM. *)
Lemma wp_updateInstance v v0 L s (Q : _ → gset lock → Host → Prop) :
  under (ID v) L → def_of s (ID v) = Some v0 → Name v = Name v0 → spec_ok v →
  (vmst (raw s (ID v)) = true → Ports v = Ports v0 ∧ Mounts v = Mounts v0) →
  (∀ a s', I s' → raw s' (ID v) = raw s (ID v) → is_Some (def_of s' (ID v)) → Q a L s') → wpm (updateInstance v) L s Q.
Proof.
  intros [Hl Hnf] Hv0 Hn Hs Hc HQ. unfold updateInstance. apply wp_quiet; [calm|]. intros e s1 Hr1 HI1.
  apply wp_atomically. intros s2 Hr2 HI2. assert (R L s s2) as Hr by rely.
  rewrite <-(R_raw L s s2) in Hc by done.
  pose proof (update_def_ok L s2 e v v0 HI2 Hl (r_def _ _ _ Hr _ _ Hl Hv0) Hn Hs Hc) as HGI. simpl in HGI.
  destruct (Store.UpdateInstance e (store s2) v) as [r st]. simpl in *. destruct HGI as (HG & HI3 & [w Hw]).
  split_and!; [done..|]. intros s3 Hr3 HI4. apply HQ; [done| |].
  - rewrite (R_raw L _ s3) by done. transitivity (raw s2 (ID v)); [done|]. by eapply R_raw.
  - exists w. by apply (r_def _ _ _ Hr3).
Qed.

Lemma spares_setStoppedByUser instance b :
  generated (ID instance) = true → spares (ID instance) (setStoppedByUser instance b).
Proof.
  intros Hgen L s Q Hu HQ. unfold setStoppedByUser, lookupInstance. apply wp_gets. intros s1 Hr1 HI1.
  assert (raw s1 (ID instance) = raw s (ID instance)) as E1 by (eapply R_raw; [apply Hu|done]).
  destruct (Store.Instance (store s1) (ID instance)) as [current|e] eqn:E.
  - apply lookup_def in E as [Hdef Hid]; [|apply HI1|done].
    assert (spec_ok current) as Hs by (by eapply (ok_specs s1); [apply HI1|]).
    destruct (Bool.eqb _ b).
    + intros s2 Hr2 HI2. apply HQ; [done|]. rewrite <-E1. eapply R_raw; [apply Hu|done].
    + unfold ignoring. apply wp_bind; [apply _|].
      apply (wp_updateInstance _ current); [simpl; by rewrite Hid|simpl; by rewrite Hid|done|exact Hs|done|].
      simpl. rewrite Hid. intros a s2 HI2 E2 _ s3 Hr3 HI3. apply HQ; [done|].
      rewrite (R_raw L s2 s3) by (by try apply Hu). congruence.
  - intros s2 Hr2 HI2. apply HQ; [done|]. rewrite <-E1. eapply R_raw; [apply Hu|done].
Qed.

(** ** Starting a VM *)

(** A status of an instance that holds what it was admitted with. *)
Definition holding (need : Res.Resources) (st : Status) : Prop :=
  HoldsResources (Status_State st) = true ∧ Res.mkResources (Status_VCPUs st) (Status_MemoryBytes st) = need.

Lemma holding_held need st : holding need st → HeldResources st = need ∧ vmst st = true.
Proof. intros [H1 H2]. unfold HeldResources, vmst. by rewrite H1. Qed.

Lemma runs_recordRunning L s instance vmm run :
  under (ID instance) L → holding (run_held run) (raw s (ID instance)) →
  runs L s (recordRunning cfg instance vmm run).
Proof.
  intros Hu Hh Q HQ. unfold recordRunning. apply wp_quiet; [calm|]. intros now s1 Hr1 HI1. unfold ebind, wrapping.
  rewrite <-(R_raw L s s1) in Hh by (by try apply Hu).
  set (st := runningStatus cfg instance vmm run now).
  assert (status_ok (ID instance) st) as Hst.
  { split_and!; [done|by left|]. intros Hlim. destruct (status_in_ok s1 (ID instance)) as (_ & _ & Hb); [apply HI1|].
    destruct Hh as [_ E]. specialize (Hb Hlim). rewrite E in Hb. simpl. by destruct (run_held run). }
  do 2 (apply wp_bind; [apply _|]). apply wp_writeStatus; [apply Hu|..].
  - intros s2 now2 Hr2 HI2. apply (write_lower L s2 (ID instance)); [done|apply Hu|done|].
    rewrite (R_raw L s1 s2) by (by try apply Hu). destruct (holding_held _ _ Hh) as [E1 E2].
    split; [|by rewrite E2]. intros _. rewrite E1. unfold HeldResources. simpl. destruct (run_held run). apply le_res_refl.
  - intros e s2 Hr2 HI2. intros s3 Hr3 HI3. apply runs_ret. auto.
  - intros now2 s2 HI2 _ _ s3 Hr3 HI3. simpl. apply runs_ret. auto.
Qed.

Ltac step_spares :=
  first [ eapply runs_ekeeps; [apply neutral_spares; solve [calm]|eassumption|]; intros ? ? ? ?
        | eapply runs_spares; [apply neutral_spares; solve [calm]|eassumption|]; intros ? ? ? ?
        | eapply runs_on_error; [solve [tamely]|eassumption|] ].

Lemma runs_erun {A B} (p : M (result A)) (g : A → M (result B)) L s :
  runs L s p → (∀ a s', I s' → runs L s' (g a)) → runs L s (ebind p g).
Proof.
  intros Hp Hg Q HQ. apply wp_bind; [apply _|]. apply Hp. intros [a|e] s' HI; [by apply Hg|by apply runs_ret].
Qed.

Lemma runs_boot L s instance restarts :
  under (ID instance) L → holding (Spec_Resources instance) (raw s (ID instance)) →
  runs L s (boot cfg instance restarts).
Proof.
  intros Hu Hh. unfold boot. do 8 step_spares.
  eapply runs_ekeeps; [apply neutral_spares; solve [calm]|eassumption|]. intros [fs procs] s7 HI7 E7.
  do 4 step_spares. apply runs_erun.
  - apply runs_recordRunning; [done|]. simpl. congruence.
  - intros. apply (spares_tame (ID instance)); [apply neutral_spares; calm|done].
Qed.

(** ** Admission *)

(** A status as it is observed, and as it was read. *)
Definition observed (st0 st : Status) : Prop :=
  st = st0 ∨
  ((Status_State st0 = StateStopped ∨ Status_State st0 = StateFailed) ∧ st = setState st0 StateStandby (StateError st0)).

Lemma observed_same st0 st :
  observed st0 st → HeldResources st = HeldResources st0 ∧ vmst st = vmst st0 ∧ InstanceID st = InstanceID st0 ∧
    VMMPID st = VMMPID st0 ∧ Status_VCPUs st = Status_VCPUs st0 ∧ Status_MemoryBytes st = Status_MemoryBytes st0.
Proof.
  intros [->|[Hst ->]]; [done|]. split_and!; try done.
  - unfold HeldResources. by destruct Hst as [-> | ->].
  - unfold vmst. by destruct Hst as [-> | ->].
Qed.

Lemma wp_statusOf L s instance (Q : Status → gset lock → Host → Prop) :
  (∀ st s1 s2, R L s s1 → I s1 → R L s1 s2 → I s2 → observed (raw s1 (ID instance)) st → Q st L s2) →
  wpm (statusOf instance) L s Q.
Proof.
  intros HQ. unfold statusOf, readStatus. apply wp_gets. intros s1 Hr1 HI1. fold (raw s1 (ID instance)).
  destruct (bool_decide (Status_State _ = StateStopped) || _) eqn:E.
  - unfold onStandby. apply wp_gets. intros s2 Hr2 HI2 s3 Hr3 HI3.
    apply (HQ _ s1 s3); [done|done|by eapply (rely_trans I G R)|done|].
    destruct (bool_decide (is_Some _)); [|by left]. right. split; [|done].
    apply orb_true_iff in E as [E|E]; apply bool_decide_eq_true in E; auto.
  - intros s2 Hr2 HI2. apply (HQ _ s1 s2); [done..|by left].
Qed.

Lemma sum_res_perm l l' : l ≡ₚ l' → sum_res l = sum_res l'.
Proof.
  induction 1 as [|r l l' _ IH|r r' l|]; [done| | |congruence].
  - injection IH as E1 E2. unfold sum_res in *. simpl in *. by rewrite E1, E2.
  - unfold sum_res. simpl. f_equal; lia.
Qed.

(** What is held in a list of instances is no more than in another, if what
    those not in it hold is nothing. *)
Lemma sum_res_incl (l d : list string) (f g : string → Res.Resources) :
  NoDup l → (∀ x, x ∈ l → x ∈ d → le_res (g x) (f x)) → (∀ x, x ∈ l → x ∉ d → le_res (g x) Res.zero) →
  (∀ x, x ∈ d → le_res Res.zero (f x)) → le_res (sum_res (g <$> l)) (sum_res (f <$> d)).
Proof.
  revert d; induction l as [|x l IH]; intros d Hnd Hin Hout Hpos.
  { induction d as [|y d IHd]; [apply le_res_refl|]. destruct (Hpos y) as [P1 P2]; [left|].
    destruct IHd as [S1 S2]; [set_solver..|]. rewrite fmap_cons. unfold le_res in *.
    rewrite sum_res_VCPUs, sum_res_MemoryBytes. simpl in *. lia. }
  apply NoDup_cons in Hnd as [Hx Hnd]. rewrite fmap_cons. unfold le_res. rewrite sum_res_VCPUs, sum_res_MemoryBytes.
  destruct (decide (x ∈ d)) as [Hd|Hd].
  - apply elem_of_Permutation in Hd as [d' Hd']. rewrite (sum_res_perm (f <$> d) (f <$> x :: d')) by (by rewrite Hd').
    destruct (IH d') as [S1 S2]; [done|..].
    + intros y Hy Hyd. apply Hin; [by right|]. rewrite Hd'. by right.
    + intros y Hy Hyd. apply Hout; [by right|]. rewrite Hd'. set_solver.
    + intros y Hy. apply Hpos. rewrite Hd'. by right.
    + destruct (Hin x) as [H1 H2]; [left|rewrite Hd'; left|].
      rewrite fmap_cons, sum_res_VCPUs, sum_res_MemoryBytes. lia.
  - destruct (Hout x) as [H1 H2]; [left|done|]. simpl in H1, H2.
    destruct (IH d) as [S1 S2]; [done|intros; apply Hin; [by right|done]|intros; apply Hout; [by right|done]|done|]. lia.
Qed.

(** *** Every instance, as the store lists them *)

Lemma elem_of_Instances s v : core_ok s → v ∈ Store.Instances (store s) ↔ def_of s (ID v) = Some v.
Proof.
  intros Hok. pose proof (ok_wf s Hok) as Hwf. unfold Store.Instances, Kind.all. rewrite Store.elem_of_sorted_values.
  rewrite (def_of_spec s) by done. split; [|intros [? _]; by exists (Name v)].
  intros [n Hn]. destruct Hwf as [H1 _]. destruct (H1 _ _ Hn) as [E _]. simpl in E. by rewrite E.
Qed.

Lemma omap_sublist {A} (m : gmap string A) (f : A → string) l :
  (∀ n v, m !! n = Some v → f v = n) → (f <$> omap (λ k, m !! k) l) `sublist_of` l.
Proof.
  intros Hf. induction l as [|n l IH]; [constructor|]. simpl. destruct (m !! n) as [v|] eqn:E; simpl.
  - rewrite (Hf _ _ E). by constructor.
  - by constructor.
Qed.

Lemma NoDup_Instances s : core_ok s → NoDup (ID <$> Store.Instances (store s)).
Proof.
  intros Hok. apply NoDup_fmap_2_strong.
  - intros v w Hv Hw E. apply (elem_of_Instances s) in Hv, Hw; [|done..]. rewrite E in Hv. congruence.
  - apply (NoDup_fmap_1 Name). eapply sublist_NoDup; [|apply omap_sublist].
    + unfold sorted_keys. rewrite merge_sort_Permutation. apply NoDup_elements.
    + intros n v Hn. pose proof (ok_wf s Hok) as [H1 _]. by destruct (H1 _ _ Hn).
Qed.

(** *** Room *)

Lemma heldOf_positive s id : limited → core_ok s → le_res Res.zero (heldOf s id).
Proof.
  intros Hlim Hok. unfold heldOf. destruct (def_of s id); [|apply le_res_refl].
  destruct (status_in_ok s id Hok) as (_ & _ & Hb). destruct (Hb Hlim) as [H1 _].
  unfold HeldResources. by destruct (negb _); [apply le_res_refl|].
Qed.

Lemma heldOf_raw s id : limited → core_ok s → le_res (heldOf s id) (HeldResources (raw s id)).
Proof.
  intros Hlim Hok. unfold heldOf. destruct (def_of s id); [apply le_res_refl|].
  destruct (status_in_ok s id Hok) as (_ & _ & Hb). destruct (Hb Hlim) as [H1 _].
  unfold HeldResources. by destruct (negb _); [apply le_res_refl|].
Qed.

Lemma Add_exact a b :
  le_res Res.zero a → le_res Res.zero b → (Res.VCPUs a + Res.VCPUs b < 2 ^ 63)%Z →
  (Res.MemoryBytes a + Res.MemoryBytes b < 2 ^ 63)%Z →
  Res.Add a b = Res.mkResources (Res.VCPUs a + Res.VCPUs b) (Res.MemoryBytes a + Res.MemoryBytes b).
Proof. intros [] [] ? ?. unfold Res.Add. rewrite !int64_wrap_id; [done|..]; unfold is_int64; simpl in *; lia. Qed.

(** What the loop has added up is no less than what those it has passed hold,
    and no more than what they held at first. *)
Definition counted (s0 s : Host) (d : list string) (total : Res.Resources) : Prop :=
  ∃ f, total = sum_res (f <$> d) ∧ ∀ j, j ∈ d → le_res (heldOf s j) (f j) ∧ le_res (f j) (heldOf s0 j).

Lemma counted_rely L s0 s s' d total :
  limited → AdmissionLock ∈ L → R L s s' → counted s0 s d total → counted s0 s' d total.
Proof.
  intros Hlim Hl Hr (f & E & Hf). exists f. split; [done|]. intros j Hj. destruct (Hf j Hj) as [H1 H2].
  split; [|done]. eapply le_res_trans; [|exact H1]. by apply (r_admission _ _ _ Hr).
Qed.

Lemma counted_positive s0 s d total : limited → core_ok s → counted s0 s d total → le_res Res.zero total.
Proof.
  intros Hlim Hok (f & -> & Hf). apply (sum_res_incl [] d f f); [constructor|set_solver|set_solver|].
  intros y Hy. eapply le_res_trans; [by apply (heldOf_positive s y)|by apply Hf].
Qed.

Lemma counted_add s0 s d total x h :
  limited → core_ok s0 → core_ok s → counted s0 s d total → NoDup (x :: d) →
  le_res (heldOf s x) h → le_res h (heldOf s0 x) → counted s0 s (x :: d) (Res.Add total h).
Proof.
  intros Hlim Hok0 Hok Hc Hxd Hle Hle0. pose proof (counted_positive _ _ _ _ Hlim Hok Hc) as Hpos.
  destruct Hc as (f & -> & Hf). pose proof Hxd as [Hx Hnd]%NoDup_cons.
  set (g := λ j, if decide (j = x) then h else f j). assert (g x = h) as Egx by (unfold g; by rewrite decide_True).
  assert (∀ j, j ∈ d → g j = f j) as Eg by (intros j Hj; unfold g; rewrite decide_False; [done|congruence]).
  assert (g <$> d = f <$> d) as Egd.
  { apply list_fmap_ext. intros i y Hy. apply Eg. by eapply list_elem_of_lookup_2. }
  assert (le_res (sum_res (f <$> d)) (sum_res (heldOf s0 <$> d))) as [S1 S2] by (apply sum_res_le; intros j Hj; by apply Hf).
  pose proof (ok_room s0 Hok0 Hlim (x :: d) Hxd) as [R1 R2]. rewrite fmap_cons, sum_res_VCPUs in R1.
  rewrite fmap_cons, sum_res_MemoryBytes in R2.
  assert (le_res Res.zero h) as Hh by (eapply le_res_trans; [by apply (heldOf_positive s x)|done]).
  exists g. split.
  - rewrite fmap_cons, Egx, Egd. unfold capacity_ok in Hcap. destruct Hle0. rewrite Add_exact; [|done|done|lia..].
    unfold sum_res. simpl. f_equal; lia.
  - intros j [->|Hj]%elem_of_cons; [by rewrite Egx|]. rewrite Eg by done. by apply Hf.
Qed.


(** Where the rest of the list holds nothing, what was counted is all there
    is. *)
Definition room (s : Host) (id : string) (total : Res.Resources) : Prop :=
  ∀ l, NoDup l → id ∉ l → le_res (sum_res (heldOf s <$> l)) total.

Lemma counted_room s0 s id d total :
  limited → core_ok s0 → core_ok s → (∀ j, le_res (heldOf s j) (heldOf s0 j)) → NoDup d →
  (∀ j, is_Some (def_of s0 j) → j = id ∨ j ∈ d) → counted s0 s d total →
  room s id total ∧ le_res total (Allocatable (capacity cfg)).
Proof.
  intros Hlim Hok0 Hok Hle Hnd Hall Hc. destruct Hc as (f & -> & Hf). split.
  - intros l Hl Hid. apply sum_res_incl; [done|intros x _ Hx; by apply Hf|..].
    + intros x Hx Hxd. eapply le_res_trans; [apply Hle|]. unfold heldOf.
      destruct (def_of s0 x) eqn:E; [|apply le_res_refl]. destruct (Hall x); [by eexists|congruence|done].
    + intros x Hx. eapply le_res_trans; [by apply (heldOf_positive s x)|by apply Hf].
  - eapply le_res_trans; [apply (sum_res_le _ _ (heldOf s0)); intros j Hj; by apply Hf|]. by apply ok_room.
Qed.

Lemma R_held_less L s s' id : limited → AdmissionLock ∈ L → R L s s' → held_less s s' id.
Proof. intros Hlim Hl Hr. by apply (r_admission _ _ _ Hr). Qed.

Lemma wp_allocated_loop L s0 id instances d total s (Q : Res.Resources → gset lock → Host → Prop) :
  limited → AdmissionLock ∈ L → core_ok s0 → R L s0 s → core_ok s →
  NoDup (d ++ (ID <$> instances)) → (∀ v, v ∈ instances → def_of s0 (ID v) = Some v) →
  (∀ j, is_Some (def_of s0 j) → j = id ∨ j ∈ d ∨ j ∈ ID <$> instances) → counted s0 s d total →
  (∀ total s', R L s s' → I s' → room s' id total → le_res Res.zero total → le_res total (Allocatable (capacity cfg)) → Q total L s') →
  wpm (allocated_loop instances id total) L s Q.
Proof.
  intros Hlim Hl Hok0. revert d total s.
  induction instances as [|v instances IH]; intros d total s Hr0 Hok Hnd Hin Hall Hc HQ; cbn [allocated_loop].
  - intros s' Hr HI. pose proof (counted_rely _ _ _ _ _ _ Hlim Hl Hr Hc) as Hc'. destruct HI as [Hok' Haux].
    destruct (counted_room s0 s' id d total) as [H1 H2]; [done..| | | |done|].
    + intros j. apply (R_held_less L); [done..|]. by eapply (rely_trans I G R).
    + rewrite app_nil_r in Hnd. done.
    + intros j Hj. destruct (Hall j Hj) as [|[|Hj']]; [auto..|]. by apply elem_of_nil in Hj'.
    + apply HQ; [done|done|done| |done]. by eapply counted_positive.
  - case_bool_decide as Hv.
    + apply (IH d); [done|done| | | |done|done].
      * eapply sublist_NoDup; [exact Hnd|]. rewrite fmap_cons. apply sublist_app; [done|]. by constructor.
      * intros w Hw. apply Hin. by right.
      * intros j Hj. destruct (Hall j Hj) as [|[|Hj']]; [auto..|]. rewrite fmap_cons in Hj'.
        apply elem_of_cons in Hj' as [->|]; auto.
    + apply wp_bind; [apply _|]. apply wp_statusOf. intros st s1 s2 Hr1 HI1 Hr2 HI2 Hst.
      assert (R L s s2) as Hr by (by eapply (rely_trans I G R)).
      assert (R L s0 s2) as Hr02 by (by eapply (rely_trans I G R)).
      assert (def_of s0 (ID v) = Some v) as Hdef by (apply Hin; left).
      rewrite fmap_cons in Hnd.
      assert (NoDup ((ID v :: d) ++ (ID <$> instances))) as Hnd' by (simpl; by rewrite Permutation_middle).
      destruct HI1 as [Hok1 _]. pose proof HI2 as [Hok2 _].
      apply (IH (ID v :: d)); [done|done|done|..].
      * intros w Hw. apply Hin. by right.
      * intros j Hj. destruct (Hall j Hj) as [|[|Hj']]; [auto|right; left; by right|]. rewrite fmap_cons in Hj'.
        apply elem_of_cons in Hj' as [->|]; [right; left; left|auto].
      * apply (counted_add s0); [done|done|done|by apply (counted_rely L _ s)|by apply NoDup_app in Hnd' as []|..].
        -- eapply le_res_trans; [by apply (R_held_less L s1 s2)|]. rewrite (proj1 (observed_same _ _ Hst)).
           by apply heldOf_raw.
        -- rewrite (proj1 (observed_same _ _ Hst)). replace (heldOf s0 (ID v)) with (HeldResources (raw s0 (ID v)))
             by (unfold heldOf; by rewrite Hdef). apply (R_held_less L); [done..|]. rely.
      * intros total' s3 Hr3. apply HQ. by eapply (rely_trans I G R).
Qed.

Lemma room_rely L s s' id total : limited → AdmissionLock ∈ L → R L s s' → room s id total → room s' id total.
Proof.
  intros Hlim Hl Hr Hroom l Hnd Hid. eapply le_res_trans; [|by apply Hroom]. apply sum_res_le. intros j _.
  by apply (R_held_less L).
Qed.

(** What is left with what is needed. *)
Definition fits (s : Host) (id : string) (need : Res.Resources) : Prop :=
  limited → ∃ total, room s id total ∧ (Res.VCPUs total + Res.VCPUs need ≤ Res.VCPUs (Allocatable (capacity cfg)))%Z ∧
    (Res.MemoryBytes total + Res.MemoryBytes need ≤ Res.MemoryBytes (Allocatable (capacity cfg)))%Z.

Lemma fits_rely L s s' id need : AdmissionLock ∈ L → R L s s' → fits s id need → fits s' id need.
Proof. intros Hl Hr Hf Hlim. destruct (Hf Hlim) as (total & Hroom & Hle). exists total. split; [by eapply room_rely|done]. Qed.

Lemma wp_checkRoom L s instance need (Q : result unit → gset lock → Host → Prop) :
  AdmissionLock ∈ L → (limited → bounded need) →
  (∀ e s', R L s s' → I s' → Q (Err e) L s') →
  (∀ s', R L s s' → I s' → fits s' (ID instance) need → Q (Ok tt) L s') →
  wpm (checkRoom cfg instance need) L s Q.
Proof.
  intros Hl Hneed He Hk. unfold checkRoom. destruct (Unlimited (capacity cfg)) eqn:E.
  { intros s' Hr HI. apply Hk; [done|done|]. unfold fits, limited. congruence. }
  assert (limited) as Hlim by done. destruct (Hneed Hlim) as [Hn0 Hn1]. unfold allocated.
  apply wp_bind; [apply _|]. apply wp_gets. intros s1 Hr1 HI1. pose proof HI1 as [Hok1 _].
  apply (wp_allocated_loop L s1 (ID instance) _ []); [done|done|done|apply (rely_refl I G R)|done|exact (NoDup_Instances s1 Hok1)|..].
  - intros v Hv. by apply elem_of_Instances in Hv.
  - intros j [v Hv]. right; right. apply list_elem_of_fmap. exists v. pose proof (ok_wf s1 Hok1) as Hwf.
    pose proof Hv as [_ Hid]%(def_of_spec s1); [|done]. split; [done|]. apply elem_of_Instances; [done|]. by rewrite Hid.
  - exists (λ _, Res.zero). split; [done|]. intros j Hj. by apply elem_of_nil in Hj.
  - intros total s2 Hr2 HI2 Hroom Ht0 Ht1 s3 Hr3 HI3.
    assert (R L s s3) as Hr by (by do 2 (eapply (rely_trans I G R); [|eassumption])).
    unfold capacity_ok in Hcap. destruct Ht1, Hn1. rewrite Add_exact by (done || lia). unfold refuse_if.
    destruct (negb _) eqn:Ef; [by apply He|]. apply Hk; [done|done|]. intros _. exists total. split; [by apply (room_rely L s2)|].
    unfold Res.Fits in Ef. simpl in Ef. simpl_bools. done.
Qed.

(** *** Ports and volumes *)

(** No other instance with a VM clashes with this one. *)
Definition clear_of (clash : Spec → bool) (s : Host) (id : string) : Prop :=
  ∀ j v, j ≠ id → def_of s j = Some v → vmst (raw s j) = true → clash v = false.

Lemma holds_of_vm st : vmst st = true → HoldsPortsAndVolumes (Status_State st) = true.
Proof.
  unfold vmst, HoldsPortsAndVolumes. intros [->|[-> _]%andb_true_iff]%orb_true_iff; [done|]. by rewrite orb_true_r.
Qed.

Section Others.
Context (instance : Spec) (none clash : Spec → bool) (err : error).
Hypothesis none_clash : ∀ v, none v = true → clash v = false.
Hypothesis clash_claims : ∀ v w, Ports v = Ports w → Mounts v = Mounts w → clash v = clash w.

Lemma vm_before L s s' j v :
  AdmissionLock ∈ L → R L s s' → def_of s' j = Some v → vmst (raw s' j) = true →
  ∃ v0, def_of s j = Some v0 ∧ vmst (raw s j) = true ∧ clash v0 = clash v.
Proof.
  intros Hl Hr Hv Hvm. destruct (r_admission _ _ _ Hr Hl j) as [_ H2].
  destruct H2 as [[_ Hvm'] (x & y & Ex & Ey & Ep & Em)]; [split; [by eexists|done]|].
  rewrite Hv in Ey. injection Ey as <-. exists x. split_and!; [done..|]. by apply clash_claims.
Qed.

Lemma clear_of_rely L s s' id : AdmissionLock ∈ L → R L s s' → clear_of clash s id → clear_of clash s' id.
Proof. intros Hl Hr Hc j v Hj Hv Hvm. destruct (vm_before L s s' j v) as (v0 & H0 & H1 & <-); [done..|]. by eapply Hc. Qed.

(** Those not yet looked at are all that may clash. *)
Definition left_over (s0 s : Host) (instances : list Spec) : Prop :=
  ∀ j v, j ≠ ID instance → def_of s j = Some v → vmst (raw s j) = true → clash v = true →
     ∃ v0, def_of s0 j = Some v0 ∧ v0 ∈ instances.

Lemma left_over_next L s0 s s' v instances :
  AdmissionLock ∈ L → core_ok s0 → R L s0 s → R L s s' → def_of s0 (ID v) = Some v →
  left_over s0 s (v :: instances) → ID v = ID instance ∨ clash v = false ∨ ¬ has_vm s' (ID v) →
  left_over s0 s' instances.
Proof.
  intros Hl Hok0 Hr0 Hr Hv Hleft Hpass j w Hj Hw Hvm Hclash.
  destruct (vm_before L s s' j w) as (w1 & Hw1 & Hvm1 & E1); [done..|].
  destruct (Hleft j w1) as (v0 & Hv0 & Hin); [done..|congruence|]. exists v0. split; [done|].
  apply elem_of_cons in Hin as [->|]; [exfalso|done].
  pose proof (ok_wf s0 Hok0) as Hwf. pose proof Hv0 as [_ Hid]%(def_of_spec s0); [|done]. subst j.
  destruct Hpass as [|[Hpass|Hpass]]; [done| |destruct Hpass; split; [by eexists|done]].
  destruct (vm_before L s0 s (ID v) w1) as (w0 & Hw0 & _ & E0); [done..|]. congruence.
Qed.

Lemma wp_checkOthers L s0 instances s (Q : result unit → gset lock → Host → Prop) :
  AdmissionLock ∈ L → core_ok s0 → R L s0 s →
  (∀ v, v ∈ instances → def_of s0 (ID v) = Some v) → left_over s0 s instances →
  (∀ e s', R L s s' → I s' → Q (Err e) L s') →
  (∀ s', R L s s' → I s' → clear_of clash s' (ID instance) → Q (Ok tt) L s') →
  wpm (checkOthers instance none clash err instances) L s Q.
Proof.
  intros Hl Hok0. revert s.
  induction instances as [|v instances IH]; intros s Hr0 Hin Hleft He Hk; cbn [checkOthers].
  - intros s' Hr HI. apply Hk; [done|done|]. apply (clear_of_rely L s); [done..|].
    intros j v Hj Hv Hvm. destruct (clash v) eqn:E; [|done].
    destruct (Hleft j v Hj Hv Hvm E) as (v0 & _ & Hv0). by apply elem_of_nil in Hv0.
  - assert (def_of s0 (ID v) = Some v) as Hv by (apply Hin; left).
    assert (∀ w, w ∈ instances → def_of s0 (ID w) = Some w) as Hin' by (intros w Hw; apply Hin; by right).
    destruct (bool_decide _ || _) eqn:Eskip.
    + apply IH; [done|done| |done|done]. apply (left_over_next L s0 s s v); [done..|apply (rely_refl I G R)|done|done|].
      apply orb_true_iff in Eskip as [E|E]; [left; by apply bool_decide_eq_true in E|right; left; by apply none_clash].
    + apply wp_bind; [apply _|]. apply wp_statusOf. intros st s1 s2 Hr1 HI1 Hr2 HI2 Hst.
      assert (R L s s2) as Hr by (by eapply (rely_trans I G R)).
      assert (R L s0 s1) as Hr01 by (by eapply (rely_trans I G R)).
      assert (R L s0 s2) as Hr02 by (by eapply (rely_trans I G R)).
      assert (∀ s3, R L s2 s3 → R L s s3) as Hr3 by (intros s3; by apply (rely_trans I G R)).
      destruct (negb _) eqn:Eholds; [|destruct (clash v) eqn:Eclash].
      * apply IH; [done|done| |auto|auto].
        apply (left_over_next L s0 s s2 v); [done..|]. right; right. intros Hvm.
        destruct (r_admission _ _ _ Hr2 Hl (ID v)) as [_ Hbefore]. destruct (Hbefore Hvm) as [[_ Hvm1] _].
        rewrite <-(proj1 (proj2 (observed_same _ _ Hst))) in Hvm1. apply holds_of_vm in Hvm1. by rewrite Hvm1 in Eholds.
      * intros s3 Hr4 HI3. auto.
      * apply IH; [done|done| |auto|auto]. apply (left_over_next L s0 s s2 v); [done..|]. auto.
Qed.
End Others.

Lemma existsb_false {A} (f : A → bool) l x : existsb f l = false → x ∈ l → f x = false.
Proof.
  intros He Hx. destruct (f x) eqn:E; [|done]. rewrite <-He. symmetry. apply existsb_exists. exists x.
  split; [by apply list_elem_of_In|done].
Qed.

Lemma wp_others {L s} instance none clash err (Q : result unit → gset lock → Host → Prop) :
  (∀ v, none v = true → clash v = false) → (∀ v w, Ports v = Ports w → Mounts v = Mounts w → clash v = clash w) →
  AdmissionLock ∈ L →
  (∀ e s', R L s s' → I s' → Q (Err e) L s') →
  (∀ s', R L s s' → I s' → clear_of clash s' (ID instance) → Q (Ok tt) L s') →
  wpm (instances ← gets (λ s, Store.Instances (store s)); checkOthers instance none clash err instances) L s Q.
Proof.
  intros Hnone Hclaims Hl He Hk. apply wp_gets. intros s1 Hr1 HI1. pose proof HI1 as [Hok1 _].
  apply (wp_checkOthers instance none clash err Hnone Hclaims L s1); [done|done|apply (rely_refl I G R)|..].
  - intros v Hv. by apply elem_of_Instances in Hv.
  - intros j v _ Hv _ _. exists v. split; [done|]. apply elem_of_Instances; [done|].
    pose proof Hv as [_ Hid]%(def_of_spec s1); [|apply (ok_wf s1 Hok1)]. by rewrite Hid.
  - intros e s' Hr'. apply He. rely.
  - intros s' Hr'. apply Hk. rely.
Qed.

Lemma wp_checkPorts L s instance (Q : result unit → gset lock → Host → Prop) :
  AdmissionLock ∈ L →
  (∀ e s', R L s s' → I s' → Q (Err e) L s') →
  (∀ s', R L s s' → I s' → clear_of (portsOverlap instance) s' (ID instance) → Q (Ok tt) L s') →
  wpm (checkPorts instance) L s Q.
Proof.
  intros Hl He Hk. unfold checkPorts. case_bool_decide as Hports.
  - intros s' Hr HI. apply Hk; [done..|]. intros j v _ _ _. unfold portsOverlap. by rewrite Hports.
  - apply wp_others; [| |done..].
    + intros v Hv. apply bool_decide_eq_true in Hv. unfold portsOverlap. rewrite Hv. clear Hports. by induction (Ports instance).
    + intros v w Hp _. unfold portsOverlap. by rewrite Hp.
Qed.

Lemma VolumeMount_isVolume v name m : VolumeMount v name = Some m → existsb isVolume (Mounts v) = true.
Proof.
  unfold VolumeMount. induction (Mounts v) as [|n l IH]; [done|]. simpl. unfold isVolume at 1.
  destruct (bool_decide (Mount_Type n = MountTypeVolume)); [done|]. exact IH.
Qed.

Lemma wp_checkVolumes L s instance (Q : result unit → gset lock → Host → Prop) :
  AdmissionLock ∈ L →
  (∀ e s', R L s s' → I s' → Q (Err e) L s') →
  (∀ s', R L s s' → I s' → clear_of (volumesClash instance) s' (ID instance) → Q (Ok tt) L s') →
  wpm (checkVolumes instance) L s Q.
Proof.
  intros Hl He Hk. unfold checkVolumes. destruct (existsb isVolume (Mounts instance)) eqn:Hvol; cbn [negb].
  - apply wp_others; [| |done..].
    + intros v Hv. apply negb_true_iff in Hv. unfold volumesClash. apply not_true_is_false. intros (m & _ & Hm)%existsb_exists.
      apply andb_true_iff in Hm as [_ Hm]. destruct (VolumeMount v (Source m)) eqn:E; [|done].
      apply VolumeMount_isVolume in E. congruence.
    + intros v w _ Hm. unfold volumesClash, VolumeMount. by rewrite Hm.
  - intros s' Hr HI. apply Hk; [done..|]. intros j v _ _ _. unfold volumesClash. apply not_true_is_false.
    intros (m & Hin & Hm)%existsb_exists. apply andb_true_iff in Hm as [Hm _].
    rewrite (existsb_false isVolume (Mounts instance) m) in Hm; [done|done|]. by apply list_elem_of_In.
Qed.

Lemma clear_ports instance v : portsOverlap instance v = false → ports_apart instance v.
Proof. intros Hc p q Hp Hq. pose proof (existsb_false _ _ p Hc Hp) as Hp'. by apply (existsb_false _ _ q Hp'). Qed.

Lemma VolumeMount_once v m :
  volumes_once v → m ∈ Mounts v → isVolume m = true → VolumeMount v (Source m) = Some m.
Proof.
  unfold volumes_once, VolumeMount. induction (Mounts v) as [|n l IH]; intros Hnd Hm Hv; [by apply elem_of_nil in Hm|].
  simpl in *. unfold isVolume at 1 in Hnd. destruct (bool_decide (Mount_Type n = MountTypeVolume)) eqn:En; simpl in *.
  - apply NoDup_cons in Hnd as [Hn Hnd]. apply elem_of_cons in Hm as [->|Hm]; [by rewrite bool_decide_eq_true_2|].
    destruct (bool_decide (Source n = Source m)) eqn:E; [|by apply IH]. apply bool_decide_eq_true in E. destruct Hn. rewrite E. apply list_elem_of_fmap. exists m. split; [done|].
    apply list_elem_of_In, filter_In. split; [by apply list_elem_of_In|done].
  - apply elem_of_cons in Hm as [->|Hm]; [unfold isVolume in Hv; congruence|]. by apply IH.
Qed.

Lemma clear_volumes instance v : volumes_once v → volumesClash instance v = false → volumes_apart instance v.
Proof.
  intros Honce Hc m n Hm Hn Vm Vn E. pose proof (existsb_false _ _ m Hc Hm) as Hm'. simpl in Hm'.
  rewrite Vm, E, (VolumeMount_once v n) in Hm' by done. simpl in Hm'. by destruct (ReadOnly m), (ReadOnly n).
Qed.

Lemma ports_apart_sym a b : ports_apart a b → ports_apart b a.
Proof.
  intros Hab p q Hp Hq. specialize (Hab q p Hq Hp). unfold Network.PortsOverlap in *.
  rewrite (bool_decide_ext (_ = Network.EffectiveProtocol q) (Network.EffectiveProtocol q = Network.EffectiveProtocol p)) by done.
  rewrite (bool_decide_ext (Network.HostIP p = Network.HostIP q) (Network.HostIP q = Network.HostIP p)) by done.
  rewrite Z.eqb_sym, (orb_comm (bool_decide (Network.HostIP p = ""))). exact Hab.
Qed.

Lemma volumes_apart_sym a b : volumes_apart a b → volumes_apart b a.
Proof. intros Hab m n Hm Hn Vm Vn E. destruct (Hab n m); done. Qed.

(** *** Raising what an instance holds *)

Definition apart_from_others (s : Host) (v : Spec) : Prop :=
  ∀ j w, j ≠ ID v → def_of s j = Some w → vmst (raw s j) = true → ports_apart v w ∧ volumes_apart v w.

Lemma raise_ok L s v st need now :
  I s → InstanceLock (ID v) ∈ L → AdmissionLock ∈ L → def_of s (ID v) = Some v → status_ok (ID v) st →
  holding need st → fits s (ID v) need → apart_from_others s v →
  let s2 := set_statuses s (<[ID v := Some (setUpdatedAt st now)]> (statuses s)) in G L s s2 ∧ I s2.
Proof.
  intros [Hok Haux] Hl Hla Hv Hst Hh Hfits Hapart. set (m' := <[_ := _]> _). set (s2 := set_statuses s m'). simpl.
  assert (raw s2 (ID v) = setUpdatedAt st now) as Eraw by (unfold raw, status_in; simpl; unfold m'; by rewrite lookup_insert_eq).
  assert (∀ j, j ≠ ID v → raw s2 j = raw s j) as Eother.
  { intros j Hj. apply (only_differs_raw (ID v) s m'); [|done]. intros k Hk. unfold m'. by rewrite lookup_insert_ne. }
  assert (∀ j, j ≠ ID v → heldOf s2 j = heldOf s j) as Eheld by (intros j Hj; unfold heldOf; by rewrite Eother).
  assert (heldOf s2 (ID v) = need) as Eneed.
  { unfold heldOf. rewrite Eraw. unfold s2. rewrite set_status_def, Hv. exact (proj1 (holding_held _ _ Hh)). }
  split; [split|split; [split|by destruct Haux; split]].
  - intros j Hj. unfold s2, m'. simpl. rewrite lookup_insert_ne; [done|]. by intros <-.
  - done.
  - done.
  - intros j Hj. destruct (decide (j = ID v)) as [->|]; [unfold s2 in Hj; rewrite set_status_def in Hj; congruence|by rewrite Eother].
  - done.
  - exact (ok_wf s Hok).
  - exact (ok_kept s Hok).
  - exact (ok_names s Hok).
  - exact (ok_specs s Hok).
  - intros j st'. unfold s2, m'. simpl. intros [[<- [= <-]]|[_ Hj]]%lookup_insert_Some; [done|]. by apply (ok_statuses s Hok).
  - intros Hlim l Hnd. destruct (decide (ID v ∈ l)) as [Hin|Hin].
    + apply elem_of_Permutation in Hin as [l' Hl']. rewrite (sum_res_perm _ (heldOf s2 <$> ID v :: l')) by (by rewrite Hl').
      rewrite Hl' in Hnd. apply NoDup_cons in Hnd as [Hnot Hnd]. destruct (Hfits Hlim) as (total & Hroom & H1 & H2).
      destruct (Hroom l' Hnd Hnot) as [H3 H4]. rewrite fmap_cons, Eneed.
      replace (heldOf s2 <$> l') with (heldOf s <$> l')
        by (apply list_fmap_ext; intros i x Hx; symmetry; apply Eheld; intros ->; by apply Hnot, (list_elem_of_lookup_2 _ i)).
      unfold le_res. rewrite sum_res_VCPUs, sum_res_MemoryBytes. lia.
    + replace (heldOf s2 <$> l) with (heldOf s <$> l)
        by (apply list_fmap_ext; intros i x Hx; symmetry; apply Eheld; intros ->; by apply Hin, (list_elem_of_lookup_2 _ i)).
      by apply ok_room.
  - intros a b va vb Hab Ha Hb Hva Hvb. unfold s2 in Ha, Hb. rewrite set_status_def in Ha, Hb.
    destruct (decide (a = ID v)) as [->|Hav]; [|destruct (decide (b = ID v)) as [->|Hbv]].
    + rewrite Hv in Ha. injection Ha as <-. rewrite Eother in Hvb by done. by eapply Hapart.
    + rewrite Hv in Hb. injection Hb as <-. rewrite Eother in Hva by done. destruct (Hapart a va) as [H1 H2]; [done..|].
      split; [by apply ports_apart_sym|by apply volumes_apart_sym].
    + rewrite Eother in Hva, Hvb by done. by apply (ok_apart s Hok a b).
Qed.

Lemma apart_rely L s s' v : AdmissionLock ∈ L → R L s s' → apart_from_others s v → apart_from_others s' v.
Proof.
  intros Hl Hr Ha j w Hj Hw Hvm. destruct (r_admission _ _ _ Hr Hl j) as [_ H2].
  destruct H2 as [[_ Hvm'] (x & y & Ex & Ey & Ep & Em)]; [split; [by eexists|done]|].
  rewrite Hw in Ey. injection Ey as <-. destruct (Ha j x Hj Ex Hvm') as [H1 H3].
  split; [intros p q Hp Hq; apply H1; congruence|intros m n Hm Hn; apply H3; congruence].
Qed.

Lemma wp_transition_raise L s v w to need (Q : result unit → gset lock → Host → Prop) :
  InstanceLock (ID v) ∈ L → AdmissionLock ∈ L → ID w = ID v → def_of s (ID v) = Some w → HoldsResources to = true →
  (limited → bounded need) → fits s (ID v) need → apart_from_others s w →
  (∀ e s', I s' → Q (Err e) L s') →
  (∀ s', I s' → holding need (raw s' (ID v)) → def_of s' (ID v) = Some w → Q (Ok tt) L s') →
  wpm (transitionWith v to (setResources need)) L s Q.
Proof.
  intros Hl Hla Ew Hv Hto Hneed Hfits Hapart He Hk. unfold transitionWith. apply wp_bind; [apply _|].
  apply wp_statusOf. intros st s1 s2 Hr1 HI1 Hr2 HI2 Hst.
  destruct (negb _ && _). { intros s3 _ HI3. by apply He. }
  assert (R L s s2) as Hr by rely. destruct (observed_same _ _ Hst) as (_ & _ & Eid & _).
  destruct (status_in_ok s1 (ID v) (proj1 HI1)) as (Eid' & _).
  set (st' := setResources need (setState st to None)).
  assert (InstanceID st' = ID v) as Hid by (simpl; congruence).
  assert (status_ok (ID v) st') as Hok. { split_and!; [done|by left|]. simpl. by destruct need. }
  assert (holding need st') as Hh by (split; [done|by destruct need]).
  apply wp_writeStatus; rewrite ?Hid; [done|..].
  - intros s3 now Hr3 HI3. assert (R L s s3) as Hr' by rely.
    rewrite <-Ew in *.
    apply (raise_ok L s3 w st' need now); [done|done|done|by apply (r_def _ _ _ Hr')|done|done|by eapply (fits_rely L s)|by eapply (apart_rely L s)].
  - intros e s3 _ HI3. by apply He.
  - intros now s3 HI3 E Hdef. apply Hk; [done|rewrite E; exact Hh|]. apply Hdef, (r_def _ _ _ Hr); done.
Qed.

Lemma wp_ebind {A B} (p : M (result A)) (g : A → M (result B)) L s Q :
  wpm p L s (λ r L' s', match r with
    | Ok a => wpm (g a) L' s' Q
    | Err e => ∀ s2, R L' s' s2 → I s2 → Q (Err e) L' s2
    end) → wpm (ebind p g) L s Q.
Proof.
  intros Hp. apply wp_bind; [apply _|]. eapply wp_mono; [|exact Hp]. intros [a|e] L' s' HI Hr; [exact Hr|].
  intros s2 Hr2 HI2. by apply Hr.
Qed.

Lemma R_weaken L L' s s' : L ⊆ L' → R L' s s' → R L s s'.
Proof.
  intros Hsub [r1 r2 r3 r4]. split.
  - intros id Hl. apply r1. set_solver.
  - intros id v Hl. apply r2. set_solver.
  - intros Hl. apply r3. set_solver.
  - intros id Hl. apply r4. set_solver.
Qed.

(** A program under a lock. *)
Lemma wp_with_lock {A} l (p : M A) L s (Q : A → gset lock → Host → Prop) :
  above level L l →
  (∀ s', R L s s' → I s' → wpm p ({[l]} ∪ L) s' (λ a L' s2, L' = {[l]} ∪ L ∧ ∀ s3, R L s2 s3 → I s3 → Q a L s3)) →
  wpm (with_lock l p) L s Q.
Proof.
  intros Ha Hp s1 Hr1 HI1. assert (l ∉ L) as Hnot by (intros Hl; destruct Ha as [_ Ha]; specialize (Ha _ Hl); lia).
  split; [done|]. apply wp_bind; [apply _|]. eapply wp_mono; [|by apply (Hp s1)]. intros a L' s2 HI2 [-> HQ].
  intros s3 Hr3 HI3. split; [set_solver|]. replace (({[l]} ∪ L) ∖ {[l]}) with L by set_solver.
  intros s4 Hr4 HI4. apply HQ; [|done]. eapply R_trans; [|exact Hr4]. eapply R_weaken; [|exact Hr3]. set_solver.
Qed.

Lemma admission_above L : net_free L → above level L AdmissionLock.
Proof. intros Hn. split; [simpl; lia|exact Hn]. Qed.

(** *** [admit] and [reserve] *)

Lemma runs_admit {B} L s v need (g : result unit → M B) :
  under (ID v) L → def_of s (ID v) = Some v → (limited → bounded need) →
  (∀ r s', I s' → (r = Ok tt → holding need (raw s' (ID v))) → runs L s' (g r)) →
  runs L s (admit_ cfg v need ≫= g).
Proof.
  intros [Hl Hn] Hv Hneed Hg Q HQ. apply wp_bind; [apply _|]. unfold admit_.
  apply wp_with_lock; [by apply admission_above|]. intros s1 Hr1 HI1. set (L' := {[AdmissionLock]} ∪ L).
  assert (AdmissionLock ∈ L') as Hla by set_solver. assert (InstanceLock (ID v) ∈ L') as Hl' by set_solver.
  assert (L ⊆ L') as Hsub by set_solver.
  assert (def_of s1 (ID v) = Some v) as Hv1 by (by apply (r_def _ _ _ Hr1)).
  assert (∀ e s', I s' → L' = L' ∧ ∀ s3, R L s' s3 → I s3 → wpm (g (Err e)) L s3 Q) as Herr.
  { intros e s' HI'. split; [done|]. intros s3 _ HI3. by apply Hg. }
  apply wp_equiet; [calm| |intros e s2 _ HI2; by apply Herr]. intros _ s2 Hr2 HI2.
  apply wp_ebind, wp_checkRoom; [done|done|intros e s3 _ HI3 s4 _ HI4; by apply Herr|]. intros s3 Hr3 HI3 Hfits.
  apply wp_ebind, wp_checkPorts; [done|intros e s4 _ HI4 s5 _ HI5; by apply Herr|]. intros s4 Hr4 HI4 Hports.
  apply wp_ebind, wp_checkVolumes; [done|intros e s5 _ HI5 s6 _ HI6; by apply Herr|]. intros s5 Hr5 HI5 Hvols.
  assert (R L' s1 s5) as Hr by rely.
  apply (wp_transition_raise _ _ v v); [done|done|done|by apply (r_def _ _ _ Hr)|done|done|..].
  - eapply (fits_rely L' s3); [done|rely|done].
  - intros j w Hj Hw Hvm. split.
    + apply clear_ports. eapply (clear_of_rely (portsOverlap v)); [|done|exact Hr5|exact Hports|done..].
      intros x y Hp _. unfold portsOverlap. by rewrite Hp.
    + apply clear_volumes; [|by eapply Hvols]. by eapply (ok_specs s5); [apply HI5|].
  - intros e s6 HI6. by apply Herr.
  - intros s6 HI6 Hh _. split; [done|]. intros s7 Hr7 HI7. apply Hg; [done| |done].
    intros _. by rewrite (R_raw L s6 s7).
Qed.

Lemma runs_reserve {B} L s v need (g : result unit → M B) :
  under (ID v) L → is_Some (def_of s (ID v)) → (limited → bounded need) → vmst (raw s (ID v)) = true →
  (∀ e s', I s' → runs L s' (g (Err e))) →
  (∀ s', I s' → holding need (raw s' (ID v)) → def_of s' (ID v) = def_of s (ID v) → runs L s' (g (Ok tt))) →
  runs L s (reserve cfg v need ≫= g).
Proof.
  intros [Hl Hn] [w Hv] Hneed Hvm He Hk Q HQ. apply wp_bind; [apply _|]. unfold reserve.
  apply wp_with_lock; [by apply admission_above|]. intros s1 Hr1 HI1. set (L' := {[AdmissionLock]} ∪ L).
  assert (AdmissionLock ∈ L') as Hla by set_solver. assert (InstanceLock (ID v) ∈ L') as Hl' by set_solver.
  rewrite Hv in Hk. rewrite <-(R_raw L s s1) in Hvm by done. apply (r_def _ _ _ Hr1) in Hv; [|done].
  pose proof Hv as [_ Hid]%(def_of_spec s1); [|apply (ok_wf s1 (proj1 HI1))].
  apply wp_ebind, wp_checkRoom; [done|done|..].
  { intros e s3 _ HI3 s4 _ HI4. split; [done|]. intros s5 _ HI5. by apply He. }
  intros s2 Hr2 HI2 Hfits. rewrite <-(R_raw L' s1 s2) in Hvm by done. apply (r_def _ _ _ Hr2) in Hv; [|done].
  apply (wp_transition_raise _ _ v w); [done..| | |].
  - intros j w' Hj Hw Hvm'. rewrite Hid in Hj. by apply (ok_apart s2 (proj1 HI2) (ID v) j).
  - intros e s3 HI3. split; [done|]. intros s4 _ HI4. by apply He.
  - intros s3 HI3 Hh Hv3. split; [done|]. intros s4 Hr4 HI4. apply Hk; [done|by rewrite (R_raw L s3 s4)| |done].
    by apply (r_def _ _ _ Hr4).
Qed.

(** ** Resuming a frozen guest *)

Lemma runs_bind {A B} (p : M A) (g : A → M B) L s :
  runs L s p → (∀ a s', I s' → runs L s' (g a)) → runs L s (p ≫= g).
Proof. intros Hp Hg Q HQ. apply wp_bind; [apply _|]. apply Hp. intros a s' HI. by apply Hg. Qed.

Lemma runs_ok {A B} L s (a : A) (g : A → M (result B)) : runs L s (g a) → runs L s (ebind (mret (Ok a)) g).
Proof. done. Qed.

Lemma runs_keepingOverlay {A} L s id overlay (p : M (result A)) :
  under id L → (∀ s', I s' → raw s' id = raw s id → runs L s' p) → runs L s (keepingOverlay overlay p).
Proof.
  intros Hu Hp. unfold keepingOverlay. case_bool_decide.
  - intros Q HQ. apply wp_intro; [apply _|]. intros s' Hr HI. apply Hp; [done| |done]. eapply R_raw; [apply Hu|done].
  - do 2 (eapply runs_spares; [apply neutral_spares; solve [calm]|eassumption|]; intros ? ? ? ?).
    match goal with |- runs _ _ (match ?x with _ => _ end) => destruct x as [kept|e] end; [|apply runs_ret].
    assert (∀ s', I s' → raw s' id = raw s id → runs L s' (wrapping "restore overlay disk: %w" (attempt "copy overlay disk") ?; p)) as Hrest.
    { intros s2 HI2 E2. eapply runs_ekeeps; [apply neutral_spares; solve [calm]|eassumption|]. intros ? s3 HI3 E3.
      apply Hp; congruence. }
    destruct kept; [|apply Hrest; congruence].
    eapply runs_on_error; [solve [tamely]|eassumption|]. apply Hrest; congruence.
Qed.

Lemma runs_restore {A} L s instance frozen starter image (k : Z → M (result A)) :
  under (ID instance) L → (∀ vmm s', I s' → raw s' (ID instance) = raw s (ID instance) → runs L s' (k vmm)) →
  runs L s (restore cfg instance frozen starter image k).
Proof.
  intros Hu Hk. unfold restore. do 2 step_spares. eapply runs_keepingOverlay; [done|]. intros s1 HI1 E1.
  repeat step_spares. apply Hk; congruence.
Qed.

Lemma runs_resume L s instance frozen :
  under (ID instance) L → generated (ID instance) = true → def_of s (ID instance) = Some instance →
  (limited → bounded (snapshotResources (frozen_snapshot frozen))) → runs L s (resume cfg instance frozen).
Proof.
  intros Hu Hgen Hv Hneed. unfold resume. destruct (snapshotStarter cfg _) as [starter|e]; [|apply runs_ret].
  apply runs_ok. unfold ebind at 1. apply runs_admit; [done..|]. intros [[]|e] s1 HI1 Hh; [specialize (Hh eq_refl)|apply runs_ret].
  eapply runs_spares; [by apply spares_setStoppedByUser|done|]. intros _ s2 HI2 E2.
  apply runs_bind; [|intros [[]|e] s3 HI3; [apply runs_ret|]].
  2: { apply (tame_bind (ID instance)); [apply tame_fail| |done]. intros ? L3 s4 _. apply runs_ret. }
  step_spares. apply runs_restore; [done|]. intros vmm s4 HI4 E4. apply runs_erun.
  - apply runs_recordRunning; [done|]. simpl. congruence.
  - intros. apply (spares_tame (ID instance)); [apply neutral_spares; calm|done].
Qed.

(** ** Transitions that take nothing *)

Lemma transition_lowers id st0 st to :
  status_ok id st0 → observed st0 st → (HoldsResources to = true ∧ to ≠ StateStarting) ∨ to = StateStopping →
  Status_State st = to ∨ CanTransitionTo (Status_State st) to = true →
  status_ok id (setState st to None) ∧ lowers (setState st to None) st0.
Proof.
  intros Hok Hst Hto Hfrom. pose proof Hok as (Eid & Hpid & Hb).
  destruct (observed_same _ _ Hst) as (Eheld & Evm & Ei & Ep & Ev & Em).
  assert (HoldsResources to = true → HoldsResources (Status_State st) = true) as Hholds.
  { intros H1. destruct Hto as [[_ Hne]| ->]; [|done]. destruct Hfrom as [->|Hc]; [done|].
    revert H1 Hne Hc. by destruct to, (Status_State st); vm_compute. }
  split; [split_and!|split].
  - simpl. congruence.
  - intros _. simpl. destruct Hto as [[H _]| ->]; auto.
  - intros Hlim. simpl. rewrite Ev, Em. auto.
  - intros Hlim. rewrite <-Eheld. unfold HeldResources. simpl. destruct (HoldsResources to) eqn:E; simpl.
    + rewrite Hholds by done. apply le_res_refl.
    + specialize (Hb Hlim). rewrite <-Ev, <-Em in Hb. destruct (negb _); [apply le_res_refl|apply Hb].
  - rewrite <-Evm. unfold vmst. simpl. destruct (HoldsResources to) eqn:E; [intros _; by rewrite Hholds|]. simpl.
    intros [_ Hp]%andb_true_iff. apply bool_decide_eq_true in Hp. rewrite Ep in Hp.
    destruct (Hpid Hp) as [H1|H1].
    + destruct Hst as [->|[[H2|H2] _]]; [by rewrite H1|rewrite H2 in H1; done..].
    + destruct Hst as [->|[[H2|H2] _]]; [|congruence..]. rewrite H1. simpl. by apply bool_decide_eq_true.
Qed.

Lemma tame_transition v to :
  (HoldsResources to = true ∧ to ≠ StateStarting) ∨ to = StateStopping → tame (ID v) (transition v to).
Proof.
  intros Hto L s [Hl Hn] Q HQ. unfold transition, transitionWith. apply wp_bind; [apply _|].
  apply wp_statusOf. intros st s1 s2 Hr1 HI1 Hr2 HI2 Hst.
  destruct (negb _ && _) eqn:E. { intros s3 _ HI3. by apply HQ. }
  assert (Status_State st = to ∨ CanTransitionTo (Status_State st) to = true) as Hfrom.
  { apply andb_false_iff in E as [E|E]; apply negb_false_iff in E; [left; by apply bool_decide_eq_true in E|by right]. }
  destruct (transition_lowers (ID v) (raw s1 (ID v)) st to) as [Hok Hlow]; [apply status_in_ok, HI1|done..|].
  pose proof Hok as [Eid _]. unfold id. apply wp_writeStatus; rewrite ?Eid; [done|..].
  - intros s3 now Hr3 HI3. apply write_lower; [done..|]. rewrite (R_raw L s1 s3); [done|done|rely].
  - intros e s3 _ HI3. by apply HQ.
  - intros now s3 HI3 _ _. by apply HQ.
Qed.

(** ** Programs of a defined instance *)

(** The instance's lock is held, and the definition is as it is now. *)
Definition defines (v : Spec) (L : gset lock) (s : Host) : Prop :=
  under (ID v) L ∧ generated (ID v) = true ∧ def_of s (ID v) = Some v.

Lemma defines_rely v L s s' : R L s s' → defines v L s → defines v L s'.
Proof. intros Hr (Hu & Hg & Hd). split_and!; [done..|]. apply (r_def _ _ _ Hr); [apply Hu|done]. Qed.

Lemma defines_under v L s : defines v L s → under (ID v) L.
Proof. by intros []. Qed.

Lemma runs_neutral {A B} v (p : M A) (g : A → M B) L s :
  neutral p → defines v L s → (∀ a s', R L s s' → I s' → defines v L s' → runs L s' (g a)) → runs L s (p ≫= g).
Proof.
  intros Hp Hd Hg Q HQ. apply wp_neutral; [done|apply Hd|]. intros a s' Hr HI. apply Hg; [done|done| |done].
  by eapply defines_rely.
Qed.

Lemma runs_eneutral {A B} v (p : M (result A)) (g : A → M (result B)) L s :
  neutral p → defines v L s → (∀ a s', R L s s' → I s' → defines v L s' → runs L s' (g a)) → runs L s (ebind p g).
Proof.
  intros Hp Hd Hg. eapply runs_neutral; [done..|]. intros [a|e] s' Hr HI Hd'; [by apply Hg|apply runs_ret].
Qed.

Lemma runs_deferred {A} id (c : M unit) (p : M A) L s :
  neutral c → under id L → runs L s p → runs L s (deferred c p).
Proof.
  intros Hc Hu Hp. apply runs_bind; [done|]. intros a s' HI.
  apply (spares_tame id); [apply neutral_spares|done]. apply neutral_bind; [done|]. intros _. apply neutral_ret.
Qed.

Lemma runs_tame {A} id (p : M A) L s : tame id p → under id L → runs L s p.
Proof. intros Hp. apply Hp. Qed.

Lemma runs_tame_bind {A B} v (p : M A) (g : A → M B) L s :
  tame (ID v) p → under (ID v) L → (∀ a, tame (ID v) (g a)) → runs L s (p ≫= g).
Proof. intros Hp Hu Hg. by apply (tame_bind (ID v)). Qed.

(** A lookup by the ID the lock is of. *)
Lemma runs_reread {B} id (g : Spec → M (result B)) L s :
  under id L → generated id = true →
  (∀ v s', I s' → ID v = id → defines v L s' → runs L s' (g v)) →
  runs L s (ebind (lookupInstance id) g).
Proof.
  intros Hu Hgen Hg. unfold lookupInstance, ebind. apply runs_gets. intros s1 Hr1 HI1.
  destruct (Store.Instance (store s1) id) as [v|e] eqn:E; [|apply runs_ret].
  apply lookup_def in E as [Hd Hid]; [|apply HI1|done]. apply Hg; [done|done|]. unfold defines. by rewrite Hid.
Qed.

Ltac calmly :=
  first [ eapply runs_eneutral; [solve [calm]|eassumption|]; intros ? ? ? ? ?
        | eapply runs_neutral; [solve [calm]|eassumption|]; intros ? ? ? ? ?
        | eapply runs_deferred; [solve [calm]|solve [eauto using defines_under]|]
        | apply runs_ret ].

Lemma runs_resumeStandby v L s : defines v L s → runs L s (resumeStandby cfg v).
Proof.
  intros Hd. unfold resumeStandby, readStandby, ebind. apply runs_gets. intros s1 Hr1 HI1.
  apply (defines_rely _ _ _ _ Hr1) in Hd. destruct (standbys s1 !! Name v) as [[standby|]|] eqn:E; [|apply runs_ret..].
  assert (limited → bounded (snapshotResources standby)) as Hb by (eapply (ok_standbys s1); [apply HI1|done]).
  calmly. apply runs_erun.
  - eapply runs_on_error; [solve [tamely]|eauto using defines_under|].
    match goal with H : defines v L _ |- _ => destruct H as (? & ? & ?) end. by apply runs_resume.
  - intros ? s3 HI3. apply (runs_tame (ID v)); [tamely|by apply defines_under in Hd].
Qed.

(** ** The operations *)

(** A program started with no lock that another waits for. *)
Definition safe {A} (p : M A) : Prop := ∀ L s, finished_well level L → runs L s p.

Lemma safe_locked {A} id (p : M A) : tame id p → safe (with_lock (InstanceLock id) p).
Proof.
  intros Hp L s Hidle Q HQ. apply wp_with_lock.
  { split; [simpl; lia|]. intros l Hl. rewrite (Hidle l Hl). simpl. lia. }
  intros s1 Hr1 HI1. apply Hp; [split; [set_solver|]|].
  - intros l [->%elem_of_singleton|Hl]%elem_of_union; [simpl; lia|]. rewrite (Hidle l Hl). lia.
  - intros a s2 HI2. split; [done|]. intros s3 _ HI3. by apply HQ.
Qed.

(** Not under any lock: what is neutral is safe. *)
Lemma safe_neutral {A} (p : M A) : neutral p → safe p.
Proof. intros Hp L s Hidle Q HQ. apply Hp; [intros l Hl; rewrite (Hidle l Hl); lia|]. auto. Qed.

Lemma safe_bind {A B} (p : M A) (g : A → M B) : safe p → (∀ a, safe (g a)) → safe (p ≫= g).
Proof. intros Hp Hg L s Hidle. apply runs_bind; [by apply Hp|]. intros a s' HI. by apply Hg. Qed.

Lemma safe_ret {A} (a : A) : safe (mret a).
Proof. intros L s _. apply runs_ret. Qed.

Lemma safe_ebind {A B} (p : M (result A)) (g : A → M (result B)) : safe p → (∀ a, safe (g a)) → safe (ebind p g).
Proof. intros Hp Hg. apply safe_bind; [done|]. intros [a|e]; [apply Hg|apply safe_ret]. Qed.

(** A lookup by whatever a client names an instance by. *)
Lemma safe_lookup {B} x (g : Spec → M (result B)) :
  (∀ v, generated (ID v) = true → safe (g v)) → safe (ebind (lookupInstance x) g).
Proof.
  intros Hg L s Hidle. unfold lookupInstance, ebind. apply runs_gets. intros s1 Hr1 HI1.
  destruct (Store.Instance (store s1) x) as [v|e] eqn:E; [|apply runs_ret].
  apply (Kind.find_Ok _ _ _ _ (ok_wf s1 (proj1 HI1))) in E as [E _]. apply Hg; [|done]. by apply (ok_names s1 (proj1 HI1) _ _ E).
Qed.

Lemma spec_bounded s id v : I s → def_of s id = Some v → limited → bounded (Spec_Resources v).
Proof.
  intros [Hok _] Hv Hlim. destruct (ok_specs s Hok _ _ Hv) as (_ & H1 & H2). destruct (H2 Hlim) as [_ [H3 H4]].
  simpl in *. split; split; simpl; lia.
Qed.

Lemma runs_startDefined v L s :
  I s → defines v L s →
  runs L s (admit_ cfg v (Spec_Resources v) ?;
            setStoppedByUser v false ≫= λ _,
            booted ← boot cfg v 0;
            match booted with
            | Err e => fail (ID v) e ≫= λ _, record v ActionDied ≫= λ _, mret (Err e)
            | Ok _ => mret (Ok tt)
            end).
Proof.
  intros HI (Hu & Hgen & Hd). unfold ebind at 1.
  apply runs_admit; [done|done|by eapply spec_bounded|]. intros [[]|e] s1 HI1 Hh; [specialize (Hh eq_refl)|apply runs_ret].
  eapply runs_spares; [by apply spares_setStoppedByUser|done|]. intros _ s2 HI2 E2.
  apply runs_bind; [apply runs_boot; [done|by rewrite E2]|]. intros [[]|e] s3 HI3; [apply runs_ret|].
  apply (runs_tame (ID v)); [tamely|done].
Qed.

Lemma safe_start instance : generated (ID instance) = true → safe (start cfg instance).
Proof.
  intros Hgen. apply safe_locked. intros L s Hu. apply (runs_reread (ID instance)); [done..|]. intros v s1 HI1 Ev Hd.
  calmly. calmly. destruct (IsActive _); [apply runs_ret|]. do 2 calmly.
  destruct a1; [by apply runs_resumeStandby|by apply runs_startDefined].
Qed.

Lemma safe_Start x : safe (Start cfg x).
Proof. apply safe_lookup. apply safe_start. Qed.

Lemma tame_setStoppedByUser v b : generated (ID v) = true → tame (ID v) (setStoppedByUser v b).
Proof. intros Hgen. by apply spares_tame, spares_setStoppedByUser. Qed.

Lemma tame_stopping v : tame (ID v) (transition v StateStopping).
Proof. apply tame_transition. by right. Qed.

#[local] Hint Resolve tame_setStoppedByUser tame_stopping : tame.

Lemma safe_stop instance : generated (ID instance) = true → safe (stop cfg instance).
Proof.
  intros Hgen. apply safe_locked. intros L s Hu. apply (runs_reread (ID instance)); [done..|]. intros v s1 HI1 Ev Hd.
  destruct Hd as (Hu1 & Hgen1 & _). apply (runs_tame (ID v)); [|done]. tamely.
Qed.

Lemma safe_Stop x : safe (Stop cfg x).
Proof. apply safe_lookup. apply safe_stop. Qed.

Lemma safe_setPaused instance move :
  generated (ID instance) = true → HoldsResources (to move) = true → to move ≠ StateStarting →
  safe (setPaused cfg instance move).
Proof.
  intros Hgen H1 H2. apply safe_locked. intros L s Hu. apply (runs_reread (ID instance)); [done..|]. intros v s1 HI1 Ev Hd.
  destruct Hd as (Hu1 & Hgen1 & _). apply (runs_tame (ID v)); [|done].
  assert (tame (ID v) (transition v (to move))) by (apply tame_transition; auto). tamely.
Qed.

Lemma safe_Pause x : safe (Pause cfg x).
Proof. apply safe_lookup. intros v Hv. by apply safe_setPaused. Qed.

Lemma safe_Resume x : safe (Resume cfg x).
Proof. apply safe_lookup. intros v Hv. by apply safe_setPaused. Qed.

Lemma safe_wake id : generated id = true → safe (wake cfg id).
Proof.
  intros Hgen. apply safe_locked. intros L s Hu. eapply runs_deferred; [calm|done|].
  apply (runs_reread id); [done..|]. intros v s1 HI1 Ev Hd. calmly. destruct (IsActive _); [apply runs_ret|].
  calmly. destruct a0; [by apply runs_resumeStandby|apply runs_ret].
Qed.

Lemma runs_currentOr {B} L s instance (g : Spec → M B) :
  generated (ID instance) = true → (∀ v s', I s' → ID v = ID instance → runs L s' (g v)) →
  runs L s (currentOr instance ≫= g).
Proof.
  intros Hgen Hg Q HQ. apply wp_bind; [apply _|]. unfold currentOr, lookupInstance. apply wp_gets. intros s1 Hr1 HI1.
  destruct (Store.Instance (store s1) (ID instance)) as [v|e] eqn:E; intros s2 _ HI2; [|by apply Hg].
  apply lookup_def in E as [_ Hid]; [|apply HI1|done]. by apply Hg.
Qed.

Lemma safe_handleExit instance vmm : generated (ID instance) = true → safe (handleExit cfg instance vmm).
Proof.
  intros Hgen. apply safe_locked. intros L s Hu. step_spares. destruct (negb _); [apply runs_ret|]. step_spares.
  apply runs_currentOr; [done|]. intros v s3 HI3 Ev. apply (runs_tame (ID v)); [tamely|by rewrite Ev].
Qed.

Lemma safe_handleUnhealthy instance vmm : generated (ID instance) = true → safe (handleUnhealthy cfg instance vmm).
Proof.
  intros Hgen. apply safe_locked. intros L s Hu. step_spares. destruct (negb _); [apply runs_ret|].
  apply runs_currentOr; [done|]. intros v s3 HI3 Ev. apply (runs_tame (ID v)); [tamely|by rewrite Ev].
Qed.

Lemma safe_restart id pending : generated id = true → safe (restart cfg id pending).
Proof.
  intros Hgen. apply safe_bind; [apply safe_neutral; calm|]. intros due. destruct (negb due); [apply safe_ret|].
  apply safe_locked. intros L s Hu. unfold lookupInstance. apply runs_gets. intros s1 Hr1 HI1.
  destruct (Store.Instance (store s1) id) as [v|e] eqn:E; [|apply runs_ret].
  apply lookup_def in E as [Hv Hid]; [|apply HI1|done]. subst id.
  assert (defines v L s1) as Hd by done. calmly. destruct (negb _); [apply runs_ret|].
  match goal with H : defines v L _ |- _ => destruct H as (_ & _ & Hv2) end.
  apply runs_admit; [done|done|by eapply spec_bounded|]. intros [[]|e] s3 HI3 Hh.
  - apply runs_bind; [apply runs_boot; [done|by apply Hh]|]. intros [[]|e] s4 HI4; [apply runs_ret|].
    apply (runs_tame (ID v)); [tamely|done].
  - apply (runs_tame (ID v)); [tamely|done].
Qed.

Lemma safe_recoverInstance instance : safe (recoverInstance cfg instance).
Proof. apply safe_locked. tamely. Qed.

Lemma safe_for_all {A} (p : A → M unit) l : (∀ x, x ∈ l → safe (p x)) → safe (for_all p l).
Proof.
  induction l as [|x l IH]; intros Hp; cbn [for_all]; [apply safe_ret|].
  apply safe_bind; [apply Hp; left|]. intros _. apply IH. intros y Hy. apply Hp. by right.
Qed.

Lemma safe_Recover : safe (Recover cfg).
Proof.
  unfold Recover. apply safe_bind; [apply safe_neutral; calm|]. intros instances.
  apply safe_bind; [apply safe_for_all; intros v _; apply safe_bind; [apply safe_recoverInstance|intros; apply safe_ret]|].
  intros _. apply safe_neutral. calm.
Qed.

Lemma safe_StartOnBoot : safe (StartOnBoot cfg).
Proof.
  intros L s Hidle. unfold StartOnBoot. apply runs_gets. intros s1 Hr1 HI1. apply safe_for_all; [|done]. intros v Hv.
  destruct (negb _); [apply safe_ret|]. apply safe_bind; [apply safe_neutral; calm|]. intros status.
  destruct (isStopped _); [|apply safe_ret]. apply safe_bind; [|intros; apply safe_ret].
  apply safe_start. apply elem_of_Instances in Hv; [|apply HI1].
  apply (def_of_spec s1) in Hv as [Hn _]; [|apply (ok_wf s1 (proj1 HI1))]. by apply (ok_names s1 (proj1 HI1) _ _ Hn).
Qed.

Lemma safe_Close : safe Close.
Proof. unfold Close. apply safe_neutral, quiet_neutral. calm. all: apply quiet_modify; [done|by intros s []; split]. Qed.

(** ** Definitions that go, or whose files change *)

Section Shrink.
Context (s s' : Host).
Hypothesis Hok : core_ok s.
Hypothesis Haux : aux_ok s'.
Hypothesis Hwf : Kind.kind_wf (Store.instances (store s')).
Hypothesis Hkept : Store.kept (Store.instances (store s')).
Hypothesis Hsub : ∀ n v, Kind.byName (Store.instances (store s')) !! n = Some v →
  Kind.byName (Store.instances (store s)) !! n = Some v.
Hypothesis Hst : statuses s' = statuses s.

Lemma shrink_def j v : def_of s' j = Some v → def_of s j = Some v.
Proof.
  rewrite (def_of_spec s') by exact Hwf. rewrite (def_of_spec s) by exact (ok_wf s Hok). intros [? ?]. split; [by apply Hsub|done].
Qed.

Lemma shrink_raw j : raw s' j = raw s j.
Proof. unfold raw. by rewrite Hst. Qed.

Lemma shrink_held j : limited → held_less s s' j.
Proof.
  intros Hlim. unfold held_less. rewrite shrink_raw. split; [|apply le_res_refl]. unfold heldOf.
  destruct (def_of s' j) as [v|] eqn:E.
  - rewrite (shrink_def _ _ E), shrink_raw. apply le_res_refl.
  - exact (heldOf_positive s j Hlim Hok).
Qed.

Lemma shrink_I : I s'.
Proof.
  split; [split|exact Haux].
  - exact Hwf.
  - exact Hkept.
  - intros n v Hn. by apply (ok_names s Hok), Hsub.
  - intros j v Hj. eapply (ok_specs s Hok), shrink_def, Hj.
  - intros j st. rewrite Hst. apply (ok_statuses s Hok).
  - intros Hlim l Hnd. eapply le_res_trans; [|by apply (ok_room s Hok Hlim l)]. apply sum_res_le. intros j _. by apply shrink_held.
  - intros a b va vb Hab Ha Hb. rewrite !shrink_raw. apply (ok_apart s Hok); [done|by apply shrink_def..].
Qed.

Lemma shrink_ok L :
  (∀ j v, InstanceLock j ∉ L → def_of s j = Some v → def_of s' j = Some v) → G L s s' ∧ I s'.
Proof.
  intros Hlocked. split; [split|apply shrink_I].
  - intros j _. by rewrite Hst.
  - intros j Hj _. destruct (def_of s' j) as [v|] eqn:E; [|done]. by rewrite (shrink_def _ _ E) in Hj.
  - done.
  - intros j _. by rewrite shrink_raw.
  - intros _ j. split; [by apply shrink_held|]. intros [[v Hv] Hvm]. rewrite shrink_raw in Hvm.
    pose proof (shrink_def _ _ Hv) as Hv'. split; [split; [by eexists|done]|]. rewrite Hv, Hv'. by exists v, v.
Qed.
End Shrink.

Lemma delete_def_ok L s v outcome :
  I s → InstanceLock (ID v) ∈ L → def_of s (ID v) = Some v →
  let '(r, st) := Store.DeleteInstance outcome (store s) (Name v) in
  let frozen := match outcome with
    | Store.Removed | Store.NotRemoved _ true => base.delete (Name v) (standbys s)
    | Store.NotRemoved _ false => standbys s
    end in
  let s' := set_standbys (set_store s st) frozen in G L s s' ∧ I s'.
Proof.
  intros [Hok Haux] Hl Hv. pose proof (ok_wf s Hok) as Hwf. pose proof Hv as [Hb _]%(def_of_spec s); [|done].
  assert (Store.Instance (store s) (Name v) = Ok v) as Hfind by (unfold Store.Instance, Kind.find; by rewrite Hb).
  assert (∀ n w, base.delete (Name v) (standbys s) !! n = Some (Some w) → ∃ n', standbys s !! n' = Some (Some w)) as Hfrozen.
  { intros n w [_ Hn]%lookup_delete_Some. eauto. }
  unfold Store.DeleteInstance. rewrite Hfind. destruct outcome as [|e [|]].
  - apply (shrink_ok s); [done|by apply aux_store|exact (Kind.drop_wf _ v Hwf Hb)|exact (Store.drop_kept _ v (ok_kept s Hok))| |done|].
    + intros n w Hw. simpl in Hw. by apply lookup_delete_Some in Hw as [_ Hw].
    + intros j w Hj Hw. assert (j ≠ ID v) as Hne by (by intros ->). pose proof Hw as [Hwb Hid]%(def_of_spec s); [|done].
      apply def_of_spec; [exact (Kind.drop_wf _ v Hwf Hb)|]. split; [|done]. simpl. rewrite lookup_delete_ne; [done|].
      intros E. rewrite <-E in Hwb. congruence.
  - apply (shrink_ok s); [done|by apply aux_store|done|exact (Store.unreadable_kept _ (Name v) (ok_kept s Hok))|done|done|done].
  - apply (shrink_ok s); [done|by apply aux_store; eauto|done|apply Hok|done|done|done].
Qed.

Lemma wp_removeRuntimeDir L s v Q :
  defines v L s → (∀ r s', I s' → defines v L s' → Q r L s') → wpm (removeRuntimeDir (ID v)) L s Q.
Proof.
  intros Hd HQ.
  assert (∀ s0 (g : unit → M (result unit)) r, defines v L s0 → (∀ u, g u = mret r) →
    wpm (modify (λ s, set_statuses s (base.delete (ID v) (statuses s))) ≫= g) L s0 Q) as Hremove.
  { intros s0 g r Hd0 Hg. apply wp_bind; [apply _|]. apply wp_atomically. intros s1 Hr1 HI1. simpl.
    destruct (remove_status_ok L s1 (ID v) HI1) as [HG HI2]; [apply Hd0|]. split_and!; [done..|].
    intros s2 Hr2 HI3. rewrite Hg. intros s3 Hr3 HI4. apply HQ; [done|].
    eapply defines_rely; [exact Hr3|]. eapply defines_rely; [exact Hr2|]. exact (defines_rely v L s0 s1 Hr1 Hd0). }
  unfold removeRuntimeDir. apply wp_quiet; [calm|]. intros outcome s1 Hr1 HI1.
  apply (defines_rely _ _ _ _ Hr1) in Hd. destruct outcome as [|e [|]]; [by eapply Hremove..|].
  intros s2 Hr2 HI2. apply HQ; [done|by eapply defines_rely].
Qed.

Lemma wp_deleteInstance L s v Q :
  defines v L s → (∀ r s', I s' → Q r L s') → wpm (deleteInstance (Name v)) L s Q.
Proof.
  intros Hd HQ. unfold deleteInstance. apply wp_quiet; [calm|]. intros outcome s1 Hr1 HI1.
  apply wp_atomically. intros s2 Hr2 HI2.
  assert (defines v L s2) as (Hu & Hg & Hv) by (eapply defines_rely; [exact Hr2|]; by eapply defines_rely).
  pose proof (delete_def_ok L s2 v outcome HI2 (proj1 Hu) Hv) as Hok.
  pose proof Hv as [Hb _]%(def_of_spec s2); [|apply (ok_wf s2 (proj1 HI2))].
  assert (Store.Instance (store s2) (Name v) = Ok v) as Hfind by (unfold Store.Instance, Kind.find; by rewrite Hb).
  rewrite Hfind. destruct (Store.DeleteInstance outcome (store s2) (Name v)) as [r st]. simpl in *.
  destruct Hok as [HG HI3]. split_and!; [exact HG|exact HI3|]. auto.
Qed.

Lemma runs_wp {A B} v (p : M A) (g : A → M B) L s :
  (∀ Q : A → gset lock → Host → Prop, (∀ a s', I s' → defines v L s' → Q a L s') → wpm p L s Q) →
  (∀ a s', I s' → defines v L s' → runs L s' (g a)) → runs L s (p ≫= g).
Proof. intros Hp Hg Q HQ. apply wp_bind; [apply _|]. apply Hp. intros a s' HI Hd. by apply Hg. Qed.

Lemma safe_delete instance force : generated (ID instance) = true → safe (delete cfg instance force).
Proof.
  intros Hgen. apply safe_locked. intros L s Hu. apply (runs_reread (ID instance)); [done..|]. intros v s1 HI1 Ev Hd.
  do 2 calmly. destruct (IsActive _ && _); [apply runs_ret|]. do 4 calmly.
  apply (runs_wp v); [|intros ? s5 HI5 Hd5; apply runs_erun].
  - intros Q HQ. apply wp_bind; [apply _|]. apply wp_removeRuntimeDir; [done|]. intros r s6 HI6 Hd6 s7 Hr7 HI7.
    apply HQ; [done|by eapply defines_rely].
  - apply runs_bind; [|intros; apply runs_ret]. intros Q HQ. by apply wp_deleteInstance.
  - intros ? s6 HI6. apply (runs_tame (ID v)); [tamely|by apply defines_under in Hd].
Qed.

Lemma safe_Delete x force : safe (Delete cfg x force).
Proof. apply safe_lookup. intros v Hv. by apply safe_delete. Qed.

(** ** What is frozen *)

Lemma runs_statusOf {B} v (g : Status → M B) L s :
  defines v L s →
  (∀ st s', I s' → defines v L s' → observed (raw s' (ID v)) st →
     (limited → bounded (Res.mkResources (Status_VCPUs st) (Status_MemoryBytes st))) → runs L s' (g st)) →
  runs L s (statusOf v ≫= g).
Proof.
  intros Hd Hg Q HQ. apply wp_bind; [apply _|]. apply wp_statusOf. intros st s1 s2 Hr1 HI1 Hr2 HI2 Hst.
  assert (R L s s2) as Hr by rely. apply Hg; [done|by eapply defines_rely|..|done].
  - by rewrite (R_raw L s1 s2) by (by try apply Hd).
  - destruct (observed_same _ _ Hst) as (_ & _ & _ & _ & -> & ->). by apply (status_in_ok s1 (ID v) (proj1 HI1)).
Qed.

Lemma quiet_freeze name v :
  frozen_ok v → quiet (modify (λ s, set_standbys s (<[name := Some v]> (standbys s)))).
Proof.
  intros Hv. apply quiet_modify; [done|]. intros s [H0 H1 H2 H3]. split; [done|done|done|].
  intros n w. simpl. intros [[_ [= <-]]|[_ Hn]]%lookup_insert_Some; [done|by eapply H3].
Qed.

Lemma safe_standby rounds instance idleFor : generated (ID instance) = true → safe (standby cfg rounds instance idleFor).
Proof.
  intros Hgen. apply safe_locked. intros L s Hu. apply (runs_reread (ID instance)); [done..|]. intros v s1 HI1 Ev Hd.
  calmly. apply runs_statusOf; [done|]. intros st s2 HI2 Hd2 _ Hb. destruct Hd2 as (Hu2 & Hgen2 & _).
  assert (∀ a now, frozen_ok (standbyRecord v st a now)) as Hfreeze by (by split).
  apply (runs_tame (ID v)); [|done]. pose proof quiet_freeze. tamely.
Qed.

Lemma safe_Standby rounds x : safe (Standby cfg rounds x).
Proof. apply safe_lookup. intros v Hv. by apply safe_standby. Qed.

(** ** Resizing *)

Lemma checkResize_bounded s v st want :
  I s → def_of s (ID v) = Some v → (limited → bounded (HeldResources st)) → (0 < Res.VCPUs want ∧ 0 < Res.MemoryBytes want)%Z →
  checkResize v (HeldResources st) want = Ok tt → limited → bounded want.
Proof.
  intros [Hok _] Hv Hheld Hpos Hc Hlim. destruct (ok_specs s Hok _ _ Hv) as (_ & H1 & H2).
  destruct (H2 Hlim) as [_ [H3 H4]]. destruct (Hheld Hlim) as [_ [H5 H6]]. simpl in *.
  unfold checkResize in Hc. inv_ok. simpl_bools. unfold bounded, le_res. simpl. lia.
Qed.

Lemma wp_setResources v want now L s (Q : _ → gset lock → Host → Prop) :
  I s → defines v L s → (0 < Res.VCPUs want ∧ 0 < Res.MemoryBytes want)%Z → (limited → bounded want) →
  (∀ a s', I s' → raw s' (ID v) = raw s (ID v) → is_Some (def_of s' (ID v)) → Q a L s') →
  wpm (updateInstance (withResources v want now)) L s Q.
Proof.
  intros [Hok _] (Hu & Hgen & Hv) Hpos Hb HQ. destruct (ok_specs s Hok _ _ Hv) as (H1 & H2 & H3).
  apply (wp_updateInstance _ v); [done|done|done| |done|done].
  split_and!; [done|simpl; lia..|]. intros Hlim. destruct (Hb Hlim) as [[] []]. destruct (H3 Hlim) as [[] []]. simpl in *.
  unfold bounded, le_res. simpl. lia.
Qed.

Lemma runs_resized {B} v want now (g : unit → M (result B)) L s :
  I s → defines v L s → (0 < Res.VCPUs want ∧ 0 < Res.MemoryBytes want)%Z → (limited → bounded want) →
  (∀ s', I s' → raw s' (ID v) = raw s (ID v) → is_Some (def_of s' (ID v)) → runs L s' (g tt)) →
  runs L s (ebind (wrapping "update instance %q: %w" (updateInstance (withResources v want now))) g).
Proof.
  intros HI Hd Hpos Hb Hg Q HQ. do 2 (apply wp_bind; [apply _|]). apply wp_setResources; [done..|].
  intros [[]|e] s1 HI1 E1 Hs1; intros s2 Hr2 HI2; simpl; [|by apply runs_ret].
  apply Hg; [done|..|done].
  - rewrite <-E1. apply (R_raw L); [apply Hd|done].
  - destruct Hs1 as [w Hw]. exists w. apply (r_def _ _ _ Hr2); [apply Hd|done].
Qed.

Lemma safe_resize instance want :
  generated (ID instance) = true → (0 < Res.VCPUs want ∧ 0 < Res.MemoryBytes want)%Z → safe (resize cfg instance want).
Proof.
  intros Hgen Hpos. apply safe_locked. intros L s Hu. apply (runs_reread (ID instance)); [done..|]. intros v s1 HI1 Ev Hd.
  apply runs_statusOf; [done|]. intros st s2 HI2 Hd2 Hst Hb. destruct (bool_decide (Status_State st = StateRunning)) eqn:Erun; [|apply runs_ret].
  apply bool_decide_eq_true in Erun. cbn [negb].
  assert (vmst (raw s2 (ID v)) = true ∧ (limited → bounded (HeldResources st))) as [Hvm Hheld].
  { destruct (observed_same _ _ Hst) as (_ & <- & _). unfold vmst, HeldResources. by rewrite Erun. }
  destruct (checkResize v (HeldResources st) want) as [[]|e] eqn:Ec; [apply runs_ok|apply runs_ret].
  assert (limited → bounded want) as Hwant by (eapply checkResize_bounded; [done|apply Hd2|done..]).
  case_bool_decide; [apply runs_ret|]. do 3 calmly.
  match goal with |- runs _ ?s' _ => assert (raw s' (ID v) = raw s2 (ID v)) as Eraw by (apply (R_raw L); [apply Hd2|rely]) end.
  rewrite <-Eraw in Hvm. match goal with H : defines v L ?s' |- runs _ ?s' _ => destruct H as (Hu4 & Hgen4 & Hv4) end.
  unfold ebind at 1. apply runs_reserve; [done|by eexists| |done|intros; apply runs_ret|].
  { intros Hlim. destruct (Hwant Hlim) as [[] []], (Hheld Hlim) as [[] []]. unfold bounded, le_res in *. simpl in *. lia. }
  intros s5 HI5 Hh5 Edef5. rewrite Hv4 in Edef5. assert (defines v L s5) as Hd5 by done.
  eapply runs_neutral; [solve [calm]|eassumption|]. intros resized s6 Hr6 HI6 Hd6.
  assert (vmst (raw s6 (ID v)) = true) as Hvm6.
  { rewrite (R_raw L s5 s6) by (by try apply Hu4). by apply holding_held in Hh5 as [_ ?]. }
  destruct resized as [[]|e].
  - calmly. apply runs_resized; [done..|]. intros s8 HI8 E8 Hd8. unfold ebind.
    apply runs_reserve; [done|done|done| |intros; apply runs_ret|].
    + rewrite E8. match goal with H : R L s6 _ |- _ => by rewrite (R_raw L s6 _ _ (proj1 Hu4) H) end.
    + intros s9 HI9 _ _. apply (runs_tame (ID v)); [tamely|done].
  - destruct (Is e ErrInvalidArgument).
    + apply runs_reserve; [done|by eexists; apply Hd6|done|done|intros; apply runs_ret|intros; apply runs_ret].
    + calmly. apply runs_resized; [done..|]. intros; apply runs_ret.
Qed.

Lemma safe_Resize x want : safe (Resize cfg x want).
Proof.
  unfold Resize. destruct (Res.VCPUs want <=? 0)%Z eqn:E1; [apply safe_ret|].
  destruct (Res.MemoryBytes want <=? 0)%Z eqn:E2; [apply safe_ret|]. simpl_bools.
  apply (safe_lookup x (λ v, resize cfg v want)). intros v Hv. by apply safe_resize.
Qed.

(** ** Snapshots *)

Definition snapshot_written (r : result Snapshot.Snapshot) : Prop :=
  match r with Ok v => frozen_ok v | Err _ => True end.

(** Goes through quiet steps to what is returned. *)
Ltac to_return H :=
  repeat lazymatch goal with
  | |- wpm (ebind _ _) _ _ _ => apply wp_equiet; [solve [calm]| |intros; by apply H]; intros
  | |- wpm (_ ≫= _) _ _ _ => apply wp_quiet; [solve [calm]|]; intros
  | |- wpm (mret _) _ _ _ => intros ? _ ? ; apply H; [done|first [done|split; [assumption|done]]]
  | |- wpm (match ?x with _ => _ end) _ _ _ => destruct x
  end.

Lemma wp_writeSnapshot rounds instance L s Q :
  finished_well level L → generated (ID instance) = true →
  (∀ r s', I s' → snapshot_written r → Q r L s') → wpm (writeSnapshot cfg rounds instance) L s Q.
Proof.
  intros Hidle Hgen HQ. unfold writeSnapshot. apply wp_with_lock.
  { split; [simpl; lia|]. intros l Hl. rewrite (Hidle l Hl). simpl. lia. }
  intros s1 Hr1 HI1. set (L' := {[InstanceLock (ID instance)]} ∪ L). set (Q' := λ a L0 s0, L0 = L' ∧ _).
  assert (∀ r s', I s' → snapshot_written r → Q' r L' s') as HQ'.
  { intros r s' HI' Hr. split; [done|]. intros s3 _ HI3. by apply HQ. }
  clearbody Q'. unfold rereadDefinition, ebind at 1. apply wp_gets. intros s2 Hr2 HI2.
  destruct (Store.Instance (store s2) (ID instance)) as [v|e] eqn:E; [|intros s3 _ HI3; by apply HQ'].
  apply lookup_def in E as [_ Hid]; [|apply HI2|done]. apply wp_bind; [apply _|]. apply wp_statusOf.
  intros st s3 s4 Hr3 HI3 Hr4 HI4 Hst.
  assert (limited → bounded (Res.mkResources (Status_VCPUs st) (Status_MemoryBytes st))) as Hb.
  { destruct (observed_same _ _ Hst) as (_ & _ & _ & _ & -> & ->). by apply (status_in_ok s3 (ID v) (proj1 HI3)). }
  assert (generated (ID v) = true) as Hgv by (by rewrite Hid). pose proof (λ _ : limited, bounded_zero) as Hz.
  destruct (Status_State st); to_return HQ'.
Qed.

Lemma quiet_put_snapshot e1 e2 v :
  frozen_ok v →
  quiet (atomically (λ s, let '(r, st) := Store.CreateSnapshot e1 e2 (store s) v in (r, set_store s st))).
Proof.
  intros Hv. apply quiet_atomic; intros s; destruct (Store.CreateSnapshot _ _ _ _) as [r st] eqn:E;
    apply Store.CreateSnapshot_cases in E as [[-> _]|(_ & -> & _ & _ & Hno & _)]; simpl; try done; [by intros []; split|].
  intros [H0 H1 H2 H3]. split; [exact (Kind.put_indexed _ v H0 Hno)| | |done]; intros n w.
  - intros [Hw| ->]%Store.put_lookup; [by eapply H1|done].
  - simpl. rewrite Store.read_insert. case_decide; [rewrite Kind.read_write; by intros [= <-]|apply H2].
Qed.

Lemma quiet_delete_snapshot outcome x :
  quiet (atomically (λ s, let '(r, st) := Store.DeleteSnapshot outcome (store s) x in (r, set_store s st))).
Proof.
  apply quiet_atomic; intros s; unfold Store.DeleteSnapshot; (destruct (Store.Snapshot (store s) x) as [v|e] eqn:E;
    [destruct outcome as [|e [|]]|]); simpl; try done; try (by intros []; split); intros [H0 H1 H2 H3];
    apply (Kind.find_indexed _ _ _ _ H0) in E.
  - split; [exact (Kind.drop_indexed _ v H0 E)| | |done]; intros n w; simpl.
    + intros [_ Hw]%lookup_delete_Some. by eapply H1.
    + rewrite Store.read_delete. case_decide; [done|apply H2].
  - split; [exact H0|exact H1| |done]. intros n w. simpl. rewrite Store.read_insert. case_decide; [done|apply H2].
Qed.

Lemma safe_createSnapshot rounds instance name :
  generated (ID instance) = true → safe (createSnapshot cfg rounds instance name).
Proof.
  intros Hgen. unfold createSnapshot. apply safe_bind; [apply safe_neutral; calm|]. intros started.
  apply safe_ebind; [apply safe_neutral; calm|]. intros _.
  apply safe_bind; [apply safe_neutral; calm|]. intros found.
  do 2 (apply safe_ebind; [apply safe_neutral; calm|]; intros _).
  apply safe_bind; [|intros r; apply safe_neutral; calm].
  intros L s Hidle Q HQ. apply wp_ebind, wp_writeSnapshot; [done|done|]. intros [v|e] s1 HI1 Hv; [|intros; by apply HQ].
  simpl in Hv. pose proof (λ e1 e2 w H, quiet_put_snapshot e1 e2 w H) as Hput.
  assert (∀ id n now, frozen_ok (withSnapshotName v id n now)) as Hnamed by done.
  refine (safe_neutral _ _ L s1 Hidle Q HQ). calm.
Qed.

Lemma safe_CreateSnapshot rounds x name : safe (CreateSnapshot cfg rounds x name).
Proof. apply safe_lookup. intros v Hv. by apply safe_createSnapshot. Qed.

Lemma safe_deleteSnapshot v : safe (deleteSnapshot v).
Proof. apply safe_locked. pose proof quiet_delete_snapshot. tamely. Qed.

(** A snapshot of the store. *)
Lemma safe_snapshot {B} x (g : Snapshot.Snapshot → M (result B)) :
  (∀ v, frozen_ok v → safe (g v)) → safe (ebind (gets (λ s, Store.Snapshot (store s) x)) g).
Proof.
  intros Hg L s Hidle. unfold ebind. apply runs_gets. intros s1 Hr1 [_ HI1].
  destruct (Store.Snapshot (store s1) x) as [v|e] eqn:E; [|apply runs_ret]. apply Hg; [|done].
  apply (Kind.find_indexed _ _ _ _ (ok_indexed s1 HI1)) in E. by eapply (ok_snapshots s1 HI1).
Qed.

Lemma safe_DeleteSnapshot x : safe (DeleteSnapshot x).
Proof. apply safe_snapshot. intros v _. apply safe_deleteSnapshot. Qed.

Lemma safe_restoreSnapshot snapshot : frozen_ok snapshot → safe (restoreSnapshot cfg snapshot).
Proof.
  intros [Hb Hgen]. apply safe_locked. intros L s Hu. unfold lookupInstance. apply runs_gets. intros s1 Hr1 HI1.
  destruct (Store.Instance (store s1) _) as [v|e] eqn:E; [|apply runs_ret]. apply lookup_def in E as [Hv Hid]; [|apply HI1|done].
  apply runs_ok. rewrite <-Hid in *. assert (defines v L s1) as Hd by done. calmly.
  destruct (IsActive _); [apply runs_ret|]. case_bool_decide; [apply runs_ret|]. calmly.
  apply runs_erun; [|intros; apply runs_ret]. case_bool_decide; [|case_bool_decide; [|apply runs_ret]].
  - unfold restoreMemory. destruct (negb (mountsEqual _ _)); [apply runs_ret|]. do 2 calmly.
    destruct (negb _); [apply runs_ret|]. apply runs_erun.
    + match goal with H : defines v L ?s' |- runs L ?s' _ => destruct H as (? & ? & ?) end. by apply runs_resume.
    + intros ? s4 HI4. apply (runs_tame (ID v)); [tamely|done].
  - apply (runs_tame (ID v)); [unfold restoreDisk; tamely|done].
Qed.

Lemma safe_RestoreSnapshot x : safe (RestoreSnapshot cfg x).
Proof. apply safe_snapshot. intros v Hv. by apply safe_restoreSnapshot. Qed.

(** ** Definitions that are updated, renamed or created *)

Lemma filter_isVolume l : List.filter isVolume l = filter (λ m, Mount_Type m = MountTypeVolume) l.
Proof.
  induction l as [|m l IH]; [done|]. simpl. unfold isVolume at 1. rewrite filter_cons, IH.
  case_bool_decide; [by rewrite decide_True|by rewrite decide_False].
Qed.

Lemma validated_ok v : Validate v = Ok tt → (limited → le_res (MaxResources v) (Allocatable (capacity cfg))) → spec_ok v.
Proof.
  intros Hv Hmax. apply Spec_Validate_Ok in Hv as (_ & _ & (H1 & H2 & _) & _ & H3 & H4 & _ & _ & _ & _ & Hnd & _).
  split_and!; [unfold volumes_once; by rewrite filter_isVolume|lia..|]. intros Hlim. split; [|by apply Hmax].
  split; simpl; lia.
Qed.

Lemma CheckResources_Ok r : CheckResources cfg r = Ok tt → limited → le_res r (Allocatable (capacity cfg)).
Proof.
  unfold CheckResources, limited. intros Hc Hlim. rewrite Hlim in Hc. inv_ok. simpl_bools.
  unfold Res.Fits in *. simpl_bools. by split.
Qed.

Lemma wp_checkCanStart L s v (Q : result unit → gset lock → Host → Prop) :
  (∀ e s', R L s s' → I s' → Q (Err e) L s') →
  (∀ s', R L s s' → I s' → (limited → le_res (MaxResources v) (Allocatable (capacity cfg))) → Q (Ok tt) L s') →
  wpm (checkCanStart cfg v) L s Q.
Proof.
  intros He Hk. unfold checkCanStart.
  repeat lazymatch goal with
  | |- wpm (ebind _ _) _ _ _ => apply wp_equiet; [solve [calm]| |intros; apply He; [rely|done]]; intros
  | |- wpm (_ ≫= _) _ _ _ => apply wp_quiet; [solve [calm]|]; intros
  end.
  intros sn Hrn HIn. destruct (CheckResources cfg (MaxResources v)) as [[]|e] eqn:E; [apply Hk|apply He]; [rely|done| |rely|done].
  by apply CheckResources_Ok.
Qed.

Lemma same_policies current updated :
  onlyPoliciesDiffer current updated = true → Ports updated = Ports current ∧ Mounts updated = Mounts current.
Proof. unfold onlyPoliciesDiffer. intros E. apply bool_decide_eq_true in E. by injection E. Qed.

Lemma wp_checkCanUpdate L s current updated state (Q : result unit → gset lock → Host → Prop) :
  (∀ e s', R L s s' → I s' → Q (Err e) L s') →
  (∀ s', R L s s' → I s' → state = StateStopped ∨ (Ports updated = Ports current ∧ Mounts updated = Mounts current) →
     Q (Ok tt) L s') →
  wpm (checkCanUpdate current updated state) L s Q.
Proof.
  intros He Hk. unfold checkCanUpdate. destruct (negb _ && _) eqn:E.
  { intros s' Hr HI. by apply He. }
  assert (state = StateStopped ∨ (Ports updated = Ports current ∧ Mounts updated = Mounts current)) as Hc.
  { apply andb_false_iff in E as [E|E]; apply negb_false_iff in E; [left; by apply bool_decide_eq_true in E|right].
    by apply same_policies. }
  destruct (DiskBytes updated =? DiskBytes current)%Z; [intros s' Hr HI; by apply Hk|].
  apply wp_quiet; [calm|]. intros size s1 Hr1 HI1 s2 Hr2 HI2. unfold refuse_if.
  repeat match goal with |- context [match ?x with _ => _ end] => destruct x end; first [apply He; [rely|done]|apply Hk; [rely|done|done]].
Qed.

Lemma safe_Update updated : generated (ID updated) = true → safe (Update cfg updated).
Proof.
  intros Hgen. apply safe_locked. intros L s Hu. eapply runs_deferred; [calm|done|].
  apply (runs_reread (ID updated)); [done..|]. intros v s1 HI1 Ev Hd. case_bool_decide as Hname; [|apply runs_ret]. cbn [negb].
  apply runs_statusOf; [done|]. intros st s2 HI2 Hd2 Hst _.
  destruct (Validate updated) as [[]|e] eqn:Hval; [apply runs_ok|apply runs_ret].
  intros Q HQ. apply wp_ebind, wp_checkCanUpdate; [intros e s3 _ HI3 s4 _ HI4; by apply HQ|]. intros s3 Hr3 HI3 Hc.
  apply wp_ebind, wp_checkCanStart; [intros e s4 _ HI4 s5 _ HI5; by apply HQ|]. intros s4 Hr4 HI4 Hmax.
  assert (R L s2 s4) as Hr by rely. destruct (defines_rely _ _ _ _ Hr Hd2) as (_ & _ & Hv4). rewrite Ev in *.
  do 2 (apply wp_bind; [apply _|]). apply (wp_updateInstance updated v); [done|done|done|by apply validated_ok|..].
  - intros Hvm. destruct Hc as [Hc|Hc]; [|done]. exfalso. rewrite (R_raw L s2 s4) in Hvm by (by try apply Hu).
    destruct (observed_same _ _ Hst) as (_ & Evm & _). rewrite <-Evm in Hvm. unfold vmst in Hvm. by rewrite Hc in Hvm.
  - intros r s5 HI5 _ _ s6 _ HI6. apply (runs_tame (ID updated)); [tamely|done|exact HQ].
Qed.

(** [RenameInstance] of the store, when it renames. *)
Lemma rename_def_ok L s v name fs m :
  I s → InstanceLock (ID v) ∈ L → def_of s (ID v) = Some v → generated name = false → name ≠ Name v →
  Naming.valid_name name → Kind.byName (Store.instances (store s)) !! name = None →
  Kind.namesByID (Store.instances (store s)) !! name = None →
  (∀ n w, m !! n = Some (Some w) → ∃ n', standbys s !! n' = Some (Some w)) →
  let w := withName v name in
  let k := Kind.mkKind (base.delete (Name v) (Kind.byName (Store.instances (store s)))) (Kind.namesByID (Store.instances (store s))) fs in
  Store.kept (Kind.put k w) →
  let s' := set_standbys (set_store s (Store.set_instances (store s) (Kind.put k w))) m in G L s s' ∧ I s'.
Proof.
  intros HI Hl Hv Hng Hne Hvalid Hno1 Hno2 Hm w k Hkept s'. pose proof HI as [Hok Haux]. pose proof (ok_wf s Hok) as Hwf.
  pose proof Hv as [Hb _]%(def_of_spec s); [|done].
  assert (Kind.kind_wf (Kind.put k w)) as Hwf' by (exact (Kind.rename_wf _ v w fs Hwf Hb eq_refl Hne Hvalid Hno1 Hno2)).
  assert (∀ n u, Kind.byName (Kind.put k w) !! n = Some u ↔ (n = name ∧ u = w) ∨ (n ≠ Name v ∧ n ≠ name ∧
    Kind.byName (Store.instances (store s)) !! n = Some u)) as Hby.
  { intros n u. simpl. rewrite lookup_insert_Some, lookup_delete_Some. naive_solver. }
  apply (redefine_ok L s s' (ID v) v w); [done|done|done|by apply aux_store|exact Hwf'|exact Hkept| |done| | |done].
  - intros n u Hn. apply Hby in Hn as [[-> ->]|(_ & _ & Hn)]; [|by apply (ok_names s Hok)].
    split; [done|]. by apply (ok_names s Hok _ _ Hb).
  - intros j. apply option_eq. intros u. rewrite (def_of_spec s') by exact Hwf'.
    change (Store.instances (store s')) with (Kind.put k w). rewrite Hby. destruct (decide (j = ID v)) as [->|Hj].
    + split.
      * intros [[[_ ->]|(Hn1 & _ & Hu)] Hid]; [done|]. assert (def_of s (ID v) = Some u) as Hd by (apply def_of_spec; done). congruence.
      * intros [= <-]. split; [by left|done].
    + rewrite (def_of_spec s) by done. split.
      * intros [[[_ ->]|(_ & _ & Hu)] Hid]; [|done]. by destruct Hj.
      * intros [Hu Hid]. split; [|done]. right. split_and!; [..|done]; intros E; rewrite E in Hu; congruence.
  - exact (ok_specs s Hok _ _ Hv).
Qed.

Lemma wp_renameInstance v name L s Q :
  defines v L s → generated name = false → (∀ r s', I s' → Q r L s') → wpm (renameInstance v (withName v name)) L s Q.
Proof.
  intros Hd Hng HQ. unfold renameInstance. apply wp_quiet; [calm|]. intros e1 s1 Hr1 HI1. apply wp_quiet; [calm|].
  intros e2 s2 Hr2 HI2. apply wp_atomically. intros s3 Hr3 HI3. assert (R L s s3) as Hr by rely.
  destruct (defines_rely _ _ _ _ Hr Hd) as (Hu & Hgen & Hv). pose proof HI3 as [Hok Haux]. pose proof (ok_wf s3 Hok) as Hwf.
  destruct (Store.RenameInstance e1 e2 (store s3) (ID v) (withName v name)) as [r st] eqn:E.
  set (moved := match r with Ok _ => _ | Err _ => _ end).
  assert (∀ n w, moved !! n = Some (Some w) → ∃ n', standbys s3 !! n' = Some (Some w)) as Hmoved.
  { intros n w. unfold moved. destruct r as [u|e]; [|eauto]. destruct (standbys s3 !! Name v) as [f|] eqn:Ef; [|eauto].
    intros [[_ ->]|[_ [_ Hn]%lookup_delete_Some]]%lookup_insert_Some; eauto. }
  clearbody moved. cut (G L s3 (set_standbys (set_store s3 st) moved) ∧ I (set_standbys (set_store s3 st) moved)).
  { intros [HG HI4]. split_and!; [exact HG|exact HI4|]. intros s5 _ HI5. by apply HQ. }
  apply Store.rename_cases in E; [|done|].
  2: { intros c Hc. apply lookup_def in Hc as [_ Hid]; [|done|done]. by rewrite Hid. }
  destruct E as [[_ [->|(_ & _ & c & -> & Hc & Hne & Hno)]]|(_ & _ & c & fs & -> & Hc & Hid & Hne & Hvalid & Hno1 & Hno2 & Hfs)].
  - apply (shrink_ok s3); [done|by apply aux_store|done|apply Hok|done|done|done].
  - apply (shrink_ok s3); [done|by apply aux_store|done| |done|done|done].
    exact (Store.moved_kept _ c _ (ok_kept s3 Hok) Hc Hne Hno).
  - assert (c = v) as ->.
    { assert (def_of s3 (ID c) = Some c) as Hdc by (by apply def_of_spec). simpl in Hid. rewrite <-Hid in Hdc. congruence. }
    apply (rename_def_ok L s3 v name fs moved); [done|apply Hu|done..|].
    subst fs. rewrite insert_insert_eq. exact (Store.renamed_kept _ v (withName v name) _ (ok_kept s3 Hok)).
Qed.

Lemma safe_rename instance name :
  generated (ID instance) = true → generated name = false → safe (rename instance name).
Proof.
  intros Hgen Hng. apply safe_locked. intros L s Hu. apply (runs_reread (ID instance)); [done..|]. intros v s1 HI1 Ev Hd.
  calmly. destruct (negb _); [apply runs_ret|]. case_bool_decide; [apply runs_ret|].
  apply runs_erun.
  - apply runs_bind; [|intros; apply runs_ret]. intros Q HQ. by apply wp_renameInstance.
  - intros ? s3 HI3. apply (runs_tame (ID v)); [tamely|by apply defines_under in Hd].
Qed.

Lemma safe_Rename x name : generated name = false → safe (Rename x name).
Proof. intros Hng. apply safe_lookup. intros v Hv. by apply safe_rename. Qed.

(** An ID that is new, and known to nobody else. *)
Definition unused (id : string) (L : gset lock) (s : Host) : Prop :=
  NewID id ∈ L ∧ def_of s id = None ∧ vmst (raw s id) = false.

Lemma unused_rely id L s s' : R L s s' → unused id L s → unused id L s'.
Proof.
  intros Hr (Hl & Hd & Hvm). destruct (r_new _ _ _ Hr id Hl Hd) as [Hd' Hvm']. split_and!; [done..|].
  apply not_true_is_false. intros E. rewrite Hvm' in Hvm; done.
Qed.

(** [CreateInstance] of the store, when it creates. *)
Lemma create_def_ok L s v :
  I s → unused (ID v) L s → generated (ID v) = true → ID v ≠ "" → generated (Name v) = false → spec_ok v →
  Naming.valid_name (Name v) → Kind.byName (Store.instances (store s)) !! Name v = None →
  Kind.namesByID (Store.instances (store s)) !! Name v = None →
  let s' := set_store s (Store.set_instances (store s) (Kind.put (Kind.write (Store.instances (store s)) v) v)) in
  G L s s' ∧ I s'.
Proof.
  intros [Hok Haux] (Hl & Hd & Hvm) Hgen Hne Hng Hspec Hvalid Hno1 Hno2. pose proof (ok_wf s Hok) as Hwf.
  set (k' := Kind.put _ v). intros s'. assert (Kind.fresh (Store.instances (store s)) v) as Hfresh.
  { split_and!; [done| | |].
    - simpl. intros E. rewrite E in Hgen. congruence.
    - apply eq_None_ne_Some. intros n Hn. unfold def_of in Hd. simpl in Hn. rewrite Hn in Hd.
      destruct Hwf as [_ H2]. destruct (H2 _ _ Hn) as (w & Hw & _). congruence.
    - apply eq_None_ne_Some. intros w Hw. destruct (ok_names s Hok _ _ Hw) as [E _]. simpl in E. congruence. }
  assert (Kind.kind_wf k') as Hwf' by (by apply Kind.put_fresh_wf).
  assert (∀ j, def_of s' j = if decide (j = ID v) then Some v else def_of s j) as Hdef.
  { intros j. apply option_eq. intros u. rewrite (def_of_spec s') by exact Hwf'. simpl. rewrite lookup_insert_Some.
    destruct (decide (j = ID v)) as [->|Hj]; [|rewrite (def_of_spec s) by done; split].
    - split; [|intros [= <-]; auto]. intros [[[_ ->]|[_ Hu]] Hid]; [done|].
      assert (def_of s (ID v) = Some u) as E by (by apply def_of_spec). congruence.
    - intros [[[_ <-]|[_ Hu]] Hid]; [by destruct Hj|done].
    - intros [Hu Hid]. split; [|done]. right. split; [|done]. intros E. rewrite <-E in Hu. congruence. }
  assert (∀ j, raw s' j = raw s j) as Hraw by done.
  assert (∀ j, heldOf s' j = heldOf s j) as Hheld.
  { intros j. unfold heldOf. rewrite Hraw, Hdef. destruct (decide (j = ID v)) as [->|]; [|done]. by rewrite Hd, vmst_held. }
  split; [split|split; [split|by apply aux_store_only]].
  - done.
  - intros j Hj Hnew. rewrite Hdef, decide_False; [done|]. by intros ->.
  - intros j w _ Hj. rewrite Hdef, decide_False; [done|]. intros ->. congruence.
  - done.
  - intros _ j. split; [intros _; unfold held_less; rewrite Hheld, Hraw; split; apply le_res_refl|].
    intros [[w Hw] Hj]. rewrite Hraw in Hj. rewrite Hdef in Hw |- *.
    destruct (decide (j = ID v)) as [->|]; [congruence|]. split; [split; [by eexists|done]|]. rewrite Hw. by exists w, w.
  - exact Hwf'.
  - apply Store.put_kept, Hok.
  - intros n w. simpl. intros [[<- <-]|[_ Hw]]%lookup_insert_Some; [done|by apply (ok_names s Hok)].
  - intros j w. rewrite Hdef. destruct (decide (j = ID v)); [by intros [= <-]|by apply (ok_specs s Hok)].
  - exact (ok_statuses s Hok).
  - intros Hlim l Hnd. erewrite list_fmap_ext; [by apply (ok_room s Hok)|]. intros i x _. apply Hheld.
  - intros a b va vb Hab. rewrite !Hdef, !Hraw. intros Ha Hb Hva Hvb.
    destruct (decide (a = ID v)) as [->|]; [congruence|]. destruct (decide (b = ID v)) as [->|]; [congruence|].
    by apply (ok_apart s Hok a b).
Qed.

Lemma wp_createInstance L s v Q :
  unused (ID v) L s → generated (ID v) = true → ID v ≠ "" → generated (Name v) = false → spec_ok v →
  (∀ r s', I s' → Q r L s') → wpm (createInstance v) L s Q.
Proof.
  intros Hun Hgen Hne Hng Hspec HQ. unfold createInstance. apply wp_quiet; [calm|]. intros e1 s1 Hr1 HI1.
  apply wp_quiet; [calm|]. intros e2 s2 Hr2 HI2. apply wp_atomically. intros s3 Hr3 HI3.
  assert (R L s s3) as Hr by rely. apply (unused_rely _ _ _ _ Hr) in Hun. pose proof HI3 as [Hok Haux].
  destruct (Store.CreateInstance e1 e2 (store s3) v) as [r st] eqn:E.
  cut (G L s3 (set_store s3 st) ∧ I (set_store s3 st)).
  { intros [HG HI4]. split_and!; [exact HG|exact HI4|]. intros s5 _ HI5. by apply HQ. }
  apply Store.CreateInstance_cases in E as [[-> _]|[(_ & Hno & ->)|(_ & -> & _ & Hvalid & Hno1 & Hno2)]].
  - apply (shrink_ok s3); [done|by apply aux_store_only|apply Hok|apply Hok|done|done|done].
  - apply (shrink_ok s3); [done|by apply aux_store_only|apply Hok| |done|done|done].
    exact (Store.made_kept _ _ (ok_kept s3 Hok) Hno).
  - by apply create_def_ok.
Qed.

Lemma wp_Create L s v Q :
  unused (ID v) L s → generated (ID v) = true → ID v ≠ "" → generated (Name v) = false →
  (∀ r s', I s' → Q r L s') → wpm (Create cfg v) L s Q.
Proof.
  intros Hun Hgen Hne Hng HQ. unfold Create.
  destruct (Validate v) as [[]|e] eqn:Hval; [|intros s' _ HI; by apply HQ].
  change (wpm (found ← lookupInstance (Name v); mret (refuse_if (is_ok found) (Exists "instance %q already exists")) ?;
    checkCanStart cfg v ?; resolved ←? ensureImage (ImageRef v);
    createInstance (withImageDigest v (Digest resolved)) ?;
    record (withImageDigest v (Digest resolved)) ActionCreated ≫= λ _, mret (Ok tt)) L s Q).
  apply wp_quiet; [calm|]. intros found s1 Hr1 HI1. apply wp_equiet; [calm| |intros; by apply HQ]. intros _ s2 Hr2 HI2.
  apply wp_ebind, wp_checkCanStart; [intros e s3 _ HI3 s4 _ HI4; by apply HQ|]. intros s3 Hr3 HI3 Hmax.
  apply wp_equiet; [calm| |intros; by apply HQ]. intros resolved s4 Hr4 HI4. assert (R L s s4) as Hr by rely.
  apply wp_ebind, wp_createInstance; [by apply (unused_rely (ID v) L s)|done..| |].
  - exact (validated_ok v Hval Hmax).
  - intros [[]|e] s5 HI5; [|intros s6 _ HI6; by apply HQ].
    apply wp_quiet; [calm|]. intros _ s6 _ HI6 s7 _ HI7. by apply HQ.
Qed.

(** ** Every interleaving *)

(** What may be started at any time: what clients ask for, by whatever they
    name instances and snapshots, and what the daemon does by itself. A step of
    another part of the daemon leaves instances, their statuses and what is
    frozen as they are. *)
Inductive operation : M unit → Prop :=
  | op_start x : operation (ignoring (Start cfg x))
  | op_stop x : operation (ignoring (Stop cfg x))
  | op_delete x force : operation (ignoring (Delete cfg x force))
  | op_pause x : operation (ignoring (Pause cfg x))
  | op_resume x : operation (ignoring (Resume cfg x))
  | op_put_on_standby rounds x : operation (ignoring (Standby cfg rounds x))
  | op_standby rounds instance idleFor : generated (ID instance) = true → operation (ignoring (standby cfg rounds instance idleFor))
  | op_wake id : generated id = true → operation (ignoring (wake cfg id))
  | op_update v : generated (ID v) = true → operation (ignoring (Update cfg v))
  | op_rename x name : generated name = false → operation (ignoring (Rename x name))
  | op_resize x want : operation (ignoring (Resize cfg x want))
  | op_create_snapshot rounds x name : operation (ignoring (CreateSnapshot cfg rounds x name))
  | op_delete_snapshot x : operation (ignoring (DeleteSnapshot x))
  | op_restore_snapshot x : operation (ignoring (RestoreSnapshot cfg x))
  | op_restart id pending : generated id = true → operation (restart cfg id pending)
  | op_exit instance vmm : generated (ID instance) = true → operation (handleExit cfg instance vmm)
  | op_unhealthy instance vmm : generated (ID instance) = true → operation (handleUnhealthy cfg instance vmm)
  | op_recover : operation (Recover cfg)
  | op_start_on_boot : operation (StartOnBoot cfg)
  | op_close : operation Close
  | op_elsewhere f : (∀ s, core (f s) = core s) → (∀ s, aux_ok s → aux_ok (f s)) → operation (modify f).

(** An instance is created under an ID that nothing has. *)
Inductive admissible : Host → M unit → gset lock → Prop :=
  | may_operate s p : operation p → admissible s p ∅
  | may_create s v :
      generated (ID v) = true → ID v ≠ "" → generated (Name v) = false →
      def_of s (ID v) = None → statuses s !! ID v = None →
      admissible s (ignoring (Create cfg v)) {[NewID (ID v)]}.

(** The daemon dies and is started again: what is in memory is lost, and the
    definitions are loaded from their files. *)
Definition restarted (s : Host) : Host :=
  mkHost (Store.New (store s)) (networks s) (statuses s) (standbys s) (processes s) (bridges s) (taps s) (published s)
    ∅ ∅ ∅ ∅ ∅ 0 [] (events s) false.

(** The host reboots: the runtime directory is lost too, and every process and
    network device. *)
Definition rebooted (s : Host) : Host :=
  mkHost (Store.New (store s)) (networks s) ∅ (standbys s) ∅ ∅ ∅ ∅ ∅ ∅ ∅ ∅ ∅ 0 [] (events s) false.

Definition crash (s s' : Host) : Prop := s' = restarted s ∨ s' = rebooted s.

(** A host on which no instance was ever created. *)
Definition initial (s : Host) : Prop := store s = Store.empty_store ∧ statuses s = ∅ ∧ standbys s = ∅.

Definition reaches (s : Host) (c : config) : Prop := rtc (step admissible crash) (Conc.mkConfig s []) c.

Lemma safe_ignoring {A} (p : M (result A)) : safe p → safe (ignoring p).
Proof. intros Hp. apply safe_bind; [done|]. intros _. apply safe_ret. Qed.

Lemma eq_le_res a b : a = b → le_res a b.
Proof. intros ->. apply le_res_refl. Qed.

Create HintDb safe.
#[local] Hint Resolve safe_ignoring safe_Start safe_Stop safe_Delete safe_Pause safe_Resume safe_Standby safe_standby safe_wake
  safe_Update safe_Rename safe_Resize safe_CreateSnapshot safe_DeleteSnapshot safe_RestoreSnapshot safe_restart
  safe_handleExit safe_handleUnhealthy safe_Recover safe_StartOnBoot safe_Close : safe.

Lemma operation_safe p : operation p → safe p.
Proof. destruct 1; eauto with safe. by apply safe_neutral, quiet_neutral, quiet_modify. Qed.

Lemma admissible_ok s p L : I s → admissible s p L → wpm p L s (λ _ L' _, finished_well level L').
Proof.
  intros HI [s' q Hq|s' v Hgen Hne Hng Hd Hst].
  - apply operation_safe; [done|..]; [intros l Hl; set_solver|]. intros [] s2 _ l Hl. set_solver.
  - apply wp_bind; [apply _|]. apply wp_Create; [|done..|].
    + split_and!; [set_solver|done|]. unfold raw, status_in. by rewrite Hst.
    + intros r s2 _ s3 _ _ l ->%elem_of_singleton. done.
Qed.

Lemma restarted_I s : I s → I (restarted s).
Proof.
  intros [Hok Haux]. destruct (Store.load_kept _ (ok_wf s Hok) (ok_kept s Hok)) as (Hwf & Hs & Hsub).
  apply (shrink_I s); [done| |exact Hwf|by apply Store.synced_kept|exact Hsub|done].
  destruct Haux as [H0 H1 H2 H3]. split; simpl.
  - apply Kind.load_indexed.
  - intros n v Hn. apply (proj1 (Kind.load_byName _ _ _)) in Hn as [Hn _]. by eapply H2.
  - unfold Store.loadSnapshots. rewrite Kind.load_files. exact H2.
  - exact H3.
Qed.

Lemma nothing_held s l : (∀ j, heldOf s j = Res.zero) → le_res (sum_res (heldOf s <$> l)) (Allocatable (capacity cfg)).
Proof.
  intros Hz. unfold capacity_ok in Hcap. induction l as [|x l IH]; [split; simpl; lia|].
  rewrite fmap_cons, Hz. unfold le_res. rewrite sum_res_VCPUs, sum_res_MemoryBytes. destruct IH. simpl in *. lia.
Qed.

Lemma rebooted_I s : I s → I (rebooted s).
Proof.
  intros HI. destruct (restarted_I s HI) as [[H1 H2 H3 H4 H5 H6 H7] Haux].
  assert (∀ j, raw (rebooted s) j = bareStatus j StateStopped None) as Hraw by done.
  split; [split|by destruct Haux; split]; [done|done|done|done|done| |].
  - intros _ l _. apply nothing_held. intros j. unfold heldOf. rewrite Hraw. by destruct (def_of _ j).
  - intros a b va vb _ _ _ Hvm. by rewrite Hraw in Hvm.
Qed.

Lemma crash_safe s s' : I s → crash s s' → I s'.
Proof. intros HI [->| ->]; [by apply restarted_I|by apply rebooted_I]. Qed.

Lemma initial_I s : initial s → I s.
Proof.
  intros (Es & Est & Esb).
  assert (∀ j, def_of s j = None) as Hdef by (intros j; unfold def_of; by rewrite Es).
  destruct Store.empty_ok as ((Hwf & _) & (Hsync & _) & _).
  split; split; rewrite ?Es, ?Est, ?Esb; [done|by apply Store.synced_kept|..]; intros *; rewrite ?Hdef, ?lookup_empty; try done.
  - intros _ l _. apply nothing_held. intros j. unfold heldOf. by rewrite Hdef.
Qed.

Lemma reaches_ok s c : initial s → reaches s c → config_ok I G R level c.
Proof.
  intros Hs Hc. eapply reachable_config_ok; [apply _|exact admissible_ok|exact crash_safe| |exact Hc].
  split_and!; [by apply initial_I|intros i j t u; simpl; by rewrite lookup_nil|intros t Ht; by apply elem_of_nil in Ht].
Qed.

(** C1: however operations on instances interleave, whatever the file system,
    the hypervisor and the guests answer, and wherever the daemon dies or the
    host reboots: the CPUs and the memory that instances hold, by their
    statuses, add up to no more than the host's capacity allows. *)
Theorem resources_never_exceed_capacity s c :
  initial s → reaches s c → limited →
  le_res (sum_res ((λ v, HeldResources (status_in (statuses (Conc.state c)) (ID v))) <$> Store.Instances (store (Conc.state c))))
    (Allocatable (capacity cfg)).
Proof.
  intros Hs Hc Hlim. destruct (reaches_ok s c Hs Hc) as [[Hok _] _].
  pose proof (ok_room _ Hok Hlim (ID <$> Store.Instances (store (Conc.state c))) (NoDup_Instances _ Hok)) as Hroom.
  rewrite <-list_fmap_compose in Hroom. eapply le_res_trans; [|exact Hroom]. apply eq_le_res. f_equal. apply list_fmap_ext.
  intros i v Hv. unfold compose, heldOf. apply list_elem_of_lookup_2 in Hv. apply elem_of_Instances in Hv as ->; done.
Qed.

(** C2: the same holds of host ports and volumes, for the same operations, which
    do not include forks: no two instances that start, run or are paused, or that
    stop and ran before, publish ports that overlap as the daemon compares them,
    and so none that claim a common host socket if their host addresses are
    written as the API writes them; and a volume that both mount is read-only in
    both. *)
Theorem ports_and_volumes_not_shared s c v w :
  initial s → reaches s c → v ∈ Store.Instances (store (Conc.state c)) → w ∈ Store.Instances (store (Conc.state c)) →
  ID v ≠ ID w →
  vmst (status_in (statuses (Conc.state c)) (ID v)) = true → vmst (status_in (statuses (Conc.state c)) (ID w)) = true →
  (∀ p q, p ∈ Ports v → q ∈ Ports w → Network.PortsOverlap p q = false ∧
     (Network.canonical_host p → Network.canonical_host q →
      ¬ ∃ protocol address port, Addr.is_ip4 address ∧
          Network.claims p protocol address port ∧ Network.claims q protocol address port)) ∧
  (∀ m n, m ∈ Mounts v → n ∈ Mounts w → isVolume m = true → isVolume n = true → Source m = Source n →
     ReadOnly m = true ∧ ReadOnly n = true).
Proof.
  intros Hs Hc Hv Hw Hne Hvm Hwm. destruct (reaches_ok s c Hs Hc) as [[Hok _] _].
  apply elem_of_Instances in Hv, Hw; [|done..]. destruct (ok_apart _ Hok (ID v) (ID w) v w) as [Hp Hm]; [done..|].
  split; [|done]. intros p q Hpv Hqw. pose proof (Hp p q Hpv Hqw) as Ho. split; [done|].
  intros H1 H2 H. by rewrite <-Network.PortsOverlap_canonical, Ho in H.
Qed.

(** C3: operations never deadlock: while one has not finished, some operation
    can take its next step. An instance's lock is taken before a network's or
    the admission lock, and never two of either. *)
Theorem operations_never_deadlock s c :
  initial s → reaches s c → (∃ t, t ∈ threads c ∧ unfinished t) → ∃ t, t ∈ threads c ∧ enabled (threads c) t.
Proof. intros Hs Hc. eapply no_deadlock; [apply _|]. by apply (reaches_ok s c). Qed.

(** A host that an operation ran on by itself, and then restarted. *)
Lemma reaches_exec world s0 s p L s' n :
  reaches s0 (Conc.mkConfig s []) → admissible s p L → exec world p 0 L s = Some (tt, s', n) →
  reaches s0 (Conc.mkConfig (restarted s') []).
Proof.
  intros Hs Hp He. destruct (exec_steps admissible crash world p 0 L s tt s' n He) as [L' Hsteps].
  unfold reaches in *. etrans; [exact Hs|]. eapply rtc_l; [apply (step_spawn _ _ s [] p L Hp); intros t Ht; by apply elem_of_nil in Ht|].
  eapply rtc_r; [exact Hsteps|]. apply step_crash. by left.
Qed.

End Safety.

(** ** An example

    Two instances on a host that allows 8 CPUs and 16 GiB: both are created
    and started, with the daemon restarted in between. *)

Definition example_cfg : Config :=
  Host.mkConfig "/run/dicer" "/var/lib/dicer" (λ _, [mkStarter "45.0" "console=hvc0" true])
    (mkCapacity false (Res.mkResources 8 17179869184) (Res.mkResources 8 17179869184)) true true.

Definition example_generated (id : string) : bool := bool_decide (id = "i1") || bool_decide (id = "i2").

Definition example_world (q : query) (n : nat) : answer q :=
  match q return answer q with
  | QDo _ => None
  | QRemoveAll _ => Store.Removed
  | QNow => 1000%Z
  | QImage _ => Ok (mkImage "sha256:0" "/images/0.img" ["/bin/nginx"] [] ∅ "/" "root" None)
  | QPath _ => Ok "/path"
  | QStartVM _ _ | QRestoreVM _ _ | QAttach _ | QShare _ => Ok 42%Z
  | QConnect _ => Ok (mkCapabilities true true true true)
  | QVMPaused => Ok false
  | QExits _ => true
  | QGuestStatus _ => Ok (mkGuestStatus None 1)
  | QVMMErr _ => ExitStatusUnknown
  | QAllocate => NetworkManager.mkEnv (λ _, Z.of_nat n) (Ok (0, 1, 2, 3, 4, 5)%Z) None
  | QDiskSize _ => Ok None
  | QWrites => λ _, None
  | QUnpublish => λ _, true
  | QNewID => "s1"
  end.

Definition example_host : Host :=
  mkHost Store.empty_store (NetworkManager.NewManager ∅) ∅ ∅ ∅ ∅ ∅ ∅ ∅ ∅ ∅ ∅ ∅ 0 [] [] false.

(** The kernel, the network and the volume of the example are defined. *)
Definition example_defines (s : Host) : Host :=
  set_store s (Store.mkStore (Store.instances (store s)) (Store.snapshots (store s)) (Store.networks Store.example_store)
    (Store.volumes Store.example_store) (Store.kernels Store.example_store) (Store.tokens (store s))).

Definition example_db : Spec := {|
  ID := "i2"; Name := "db"; Hostname := ""; ImageRef := "postgres"; ImageDigest := "sha256:0";
  HypervisorType := ""; HypervisorVersion := ""; KernelName := "vmlinux-6.1"; KernelArgs := "";
  VCPUs := 4; MemoryBytes := 4294967296; DiskBytes := 10737418240; NetworkName := "default"; StaticIP := "";
  MaxVCPUs := 0; MaxMemoryBytes := 0; DiskBytesPerSecond := 0; DiskIOPS := 0;
  UploadBytesPerSecond := 0; DownloadBytesPerSecond := 0; StandbyAfter := 0;
  Ports := [Network.mkPortMapping "" 5432 5432 ""]; Mounts := [];
  Env := ∅; Cmd := []; InitMode := ""; User := ""; Labels := ∅; Restart := mkRestartPolicy "no" 0;
  HealthCheck := None; CreatedAt := 1; UpdatedAt := 1; RemoveOnExit := false; StoppedByUser := false;
|}.

(** What an operation leaves, run by itself. *)
Definition after (p : M unit) (L : gset lock) (s : Host) : Host :=
  match exec example_world p 0 L s with Some (_, s', _) => restarted s' | None => s end.

Definition example_created : Host :=
  after (ignoring (Create example_cfg example_db)) {[NewID "i2"]}
    (after (ignoring (Create example_cfg example_spec)) {[NewID "i1"]} (after (modify example_defines) ∅ example_host)).

Definition example_started : Host :=
  after (ignoring (Start example_cfg "db")) ∅ (after (ignoring (Start example_cfg "web")) ∅ example_created).

Lemma after_reaches s p L :
  reaches example_cfg example_generated example_host (Conc.mkConfig s []) → admissible example_cfg example_generated s p L →
  (if exec example_world p 0 L s is Some _ then true else false) = true →
  reaches example_cfg example_generated example_host (Conc.mkConfig (after p L s) []).
Proof.
  intros Hs Hp He. unfold after. destruct (exec example_world p 0 L s) as [[[[] s'] n]|] eqn:E; [|done].
  by eapply reaches_exec.
Qed.

Lemma example_initial : initial example_host.
Proof. done. Qed.

Lemma example_capacity : capacity_ok example_cfg.
Proof. unfold capacity_ok. simpl. lia. Qed.

Lemma example_reaches_created : reaches example_cfg example_generated example_host (Conc.mkConfig example_created []).
Proof.
  apply after_reaches; [apply after_reaches; [apply after_reaches; [apply rtc_refl| |]| |]| |].
  - apply may_operate, op_elsewhere; [done|]. by intros s []; split.
  - vm_compute. reflexivity.
  - by apply (may_create example_cfg example_generated _ example_spec).
  - vm_compute. reflexivity.
  - by apply (may_create example_cfg example_generated _ example_db).
  - vm_compute. reflexivity.
Qed.

Lemma example_reaches_started : reaches example_cfg example_generated example_host (Conc.mkConfig example_started []).
Proof.
  apply after_reaches; [apply after_reaches; [exact example_reaches_created| |]| |].
  - apply may_operate, op_start.
  - vm_compute. reflexivity.
  - apply may_operate, op_start.
  - vm_compute. reflexivity.
Qed.

Lemma resources_never_exceed_capacity_witness :
  let held := sum_res ((λ v, HeldResources (status_in (statuses example_started) (ID v))) <$> Store.Instances (store example_started)) in
  held = Res.mkResources 6 5368709120 ∧ le_res held (Res.mkResources 8 17179869184).
Proof.
  split; [vm_compute; reflexivity|].
  exact (resources_never_exceed_capacity example_cfg example_generated example_capacity example_host
    (Conc.mkConfig example_started []) example_initial example_reaches_started eq_refl).
Defined.

Lemma example_instances : Store.Instances (store example_started) = [example_db; example_spec].
Proof. vm_compute. reflexivity. Qed.

Lemma ports_and_volumes_not_shared_witness :
  vmst (status_in (statuses example_started) "i1") = true ∧ vmst (status_in (statuses example_started) "i2") = true ∧
  Network.PortsOverlap (Network.mkPortMapping "" 8080 80 "") (Network.mkPortMapping "" 5432 5432 "") = false.
Proof.
  assert (vmst (status_in (statuses example_started) "i1") = true) as H1 by (vm_compute; reflexivity).
  assert (vmst (status_in (statuses example_started) "i2") = true) as H2 by (vm_compute; reflexivity).
  split; [exact H1|]. split; [exact H2|].
  revert H1 H2. generalize example_instances example_reaches_started. generalize example_started. intros s Hi Hr H1 H2.
  apply (ports_and_volumes_not_shared example_cfg example_generated example_capacity example_host
    (Conc.mkConfig s []) example_spec example_db example_initial Hr);
    [simpl; rewrite Hi; right; left|simpl; rewrite Hi; left|discriminate|exact H1|exact H2|left|left].
Defined.

Lemma operations_never_deadlock_witness :
  let start := mkThread (ignoring (Start example_cfg "web")) ∅ in
  unfinished start ∧ ∃ t, t ∈ [start] ∧ enabled [start] t.
Proof.
  intros start. assert (unfinished start) as Hun by (intros a; discriminate). split; [exact Hun|].
  generalize example_reaches_created. generalize example_created. intros s Hr.
  refine (operations_never_deadlock example_cfg example_generated example_capacity example_host
    (Conc.mkConfig s [start]) example_initial _ (ex_intro _ start (conj _ Hun))); [|left].
  eapply rtc_r; [exact Hr|].
  apply (step_spawn _ _ s [] (ignoring (Start example_cfg "web")) ∅ (may_operate _ _ _ _ (op_start _ _ "web"))).
  intros t Ht. by apply elem_of_nil in Ht.
Defined.

End Safety.
