(* ===== verification/Races.v ===== *)
(** * Two operations that interleave badly

    What [Safety] shows does not hold of everything the manager does. Each
    theorem here runs a schedule of operations, step by step, on the hosts of
    [Safety]'s example, and is a defect of the code: a fork that an update
    overtakes, and a start that is refused while a restart is pending. *)

From S2P Require Import Prelude Errdefs Naming Health Token Addr Network NetworkManager Instance Definitions FileStore Conc Host Manager Safety.

Module Races.
Import Instance Host Manager Safety.

(** ** Schedules *)

Abbreviation schedule := (list (move (S:=Host) (answer:=answer) (lock:=lock))).

(** What may be started, with forks: a fork is given an ID that nothing has,
    as a new instance is. *)
Inductive with_forks (cfg : Config) (generated : string → bool) : Host → M unit → gset lock → Prop :=
  | may_admissible s p L : admissible cfg generated s p L → with_forks cfg generated s p L
  | may_fork s x v :
      generated (ID v) = true → ID v ≠ "" → generated (Name v) = false → Validate v = Ok tt →
      def_of s (ID v) = None → statuses s !! ID v = None →
      with_forks cfg generated s (ignoring (ForkSnapshot cfg x v)) {[NewID (ID v)]}.

Definition races_generated (id : string) : bool := bool_decide (id ∈ ["i1"; "i2"; "i3"]).

(** ** A fork that an update overtakes *)

(** A copy of [example_db], under an identity of its own, with these ports. *)
Definition example_fork (ports : list Network.PortMapping) : Spec := {|
  ID := "i3"; Name := "db-2"; Hostname := Hostname example_db; ImageRef := ImageRef example_db;
  ImageDigest := ImageDigest example_db; HypervisorType := HypervisorType example_db;
  HypervisorVersion := HypervisorVersion example_db; KernelName := KernelName example_db;
  KernelArgs := KernelArgs example_db; VCPUs := 2; MemoryBytes := MemoryBytes example_db;
  DiskBytes := DiskBytes example_db; NetworkName := NetworkName example_db; StaticIP := "";
  MaxVCPUs := 0; MaxMemoryBytes := 0; DiskBytesPerSecond := 0; DiskIOPS := 0; UploadBytesPerSecond := 0;
  DownloadBytesPerSecond := 0; StandbyAfter := 0; Ports := ports; Mounts := []; Env := ∅; Cmd := []; InitMode := "";
  User := ""; Labels := ∅; Restart := mkRestartPolicy "no" 0; HealthCheck := None; CreatedAt := 2; UpdatedAt := 2;
  RemoveOnExit := false; StoppedByUser := false;
|}.

(** [example_db] runs, and a memory snapshot is taken of it. *)
Definition snapshot_moves : schedule :=
  [ Spawn (modify example_defines) ∅; Go 0 9;
    Spawn (ignoring (Create example_cfg example_db)) {[NewID "i2"]}; Go 1 999;
    Spawn (ignoring (Create example_cfg example_spec)) {[NewID "i1"]}; Go 2 999;
    Spawn (ignoring (Start example_cfg "db")) ∅; Go 3 999;
    Spawn (ignoring (CreateSnapshot example_cfg 0 "db" "snap")) ∅; Go 4 999 ].

(** The snapshot is forked with the ports of [example_spec]. Before the fork
    takes its lock, it is updated to have none; then it goes on, and
    [example_spec] is started. *)
Definition fork_moves : schedule :=
  snapshot_moves ++
  [ Spawn (ignoring (Stop example_cfg "db")) ∅; Go 5 999;
    Spawn (ignoring (ForkSnapshot example_cfg "snap" (example_fork (Ports example_spec)))) {[NewID "i3"]}; Go 6 7;
    Spawn (ignoring (Update example_cfg (example_fork []))) ∅; Go 7 999;
    Go 6 999;
    Spawn (ignoring (Start example_cfg "web")) ∅; Go 8 999 ].

(** Two instances that publish the same port. *)
Definition published_twice (s : Host) (a b : string) : bool :=
  match published s !! a, published s !! b with
  | Some ps, Some qs => existsb (λ p, existsb (Network.PortsOverlap p) qs) ps
  | _, _ => false
  end.

(** Each operation of a schedule may be started: what its start needs of the
    state is computed. *)
Ltac may_play :=
  cbn [playable app spawn]; repeat (split; [|cbn [playable spawn]]);
  first [exact Logic.I
        |apply may_fork; vm_compute; done
        |try apply may_admissible; first
           [apply may_create; vm_compute; done
           |apply may_operate; first [by constructor|apply op_elsewhere; [done|by intros ? []; split]]]].

Lemma fork_playable : playable (with_forks example_cfg races_generated) example_world fork_moves (Conc.mkConfig example_host []).
Proof. unfold fork_moves, snapshot_moves. may_play. Qed.

(** C37: a host port is published for two instances that run. A fork takes
    its lock after its definition can be seen, and goes by the definition it
    was given: an update in between that drops the fork's ports lets another
    instance publish them, and the fork publishes them too. *)
Theorem fork_overtaken_by_update_shares_ports :
  ∃ c, rtc (step (with_forks example_cfg races_generated) crash) (Conc.mkConfig example_host []) c ∧
    published_twice (Conc.state c) "i1" "i3" = true ∧
    Status_State (status_in (statuses (Conc.state c)) "i1") = StateRunning ∧
    Status_State (status_in (statuses (Conc.state c)) "i3") = StateRunning.
Proof.
  destruct (play_reaches (with_forks example_cfg races_generated) crash example_world fork_moves (Conc.mkConfig example_host [])
    (λ c, published_twice (Conc.state c) "i1" "i3" &&
       (bool_decide (Status_State (status_in (statuses (Conc.state c)) "i1") = StateRunning) &&
        bool_decide (Status_State (status_in (statuses (Conc.state c)) "i3") = StateRunning)))) as (c & Hc & Hp);
    [exact fork_playable|vm_compute; reflexivity|].
  exists c. split; [exact Hc|]. apply andb_prop in Hp as [Hp Hs]. apply andb_prop in Hs as [H1 H3].
  split; [exact Hp|]. by apply bool_decide_eq_true in H1, H3.
Qed.

(** ** A restart that is cancelled and never made *)

(** An instance of 6 of the host's 8 CPUs that restarts whenever it ends. *)
Definition example_worker : Spec := {|
  ID := "i3"; Name := "worker"; Hostname := ""; ImageRef := "worker"; ImageDigest := "sha256:0"; HypervisorType := "";
  HypervisorVersion := ""; KernelName := KernelName example_db; KernelArgs := ""; VCPUs := 6;
  MemoryBytes := MemoryBytes example_db; DiskBytes := DiskBytes example_db; NetworkName := NetworkName example_db;
  StaticIP := ""; MaxVCPUs := 0; MaxMemoryBytes := 0; DiskBytesPerSecond := 0; DiskIOPS := 0;
  UploadBytesPerSecond := 0; DownloadBytesPerSecond := 0; StandbyAfter := 0; Ports := []; Mounts := []; Env := ∅;
  Cmd := []; InitMode := ""; User := ""; Labels := ∅; Restart := mkRestartPolicy RestartModeAlways 0;
  HealthCheck := None; CreatedAt := 1; UpdatedAt := 1; RemoveOnExit := false; StoppedByUser := false;
|}.

(** The worker runs and ends, and waits to be restarted. [example_db] is
    started, and takes the room the worker had; a client's start of the worker
    is refused. *)
Definition orphan_moves : schedule :=
  [ Spawn (modify example_defines) ∅; Go 0 9;
    Spawn (ignoring (Create example_cfg example_worker)) {[NewID "i3"]}; Go 1 999;
    Spawn (ignoring (Create example_cfg example_db)) {[NewID "i2"]}; Go 2 999;
    Spawn (ignoring (Start example_cfg "worker")) ∅; Go 3 999;
    Spawn (handleExit example_cfg example_worker 42) ∅; Go 4 999;
    Spawn (ignoring (Start example_cfg "db")) ∅; Go 5 999;
    Spawn (ignoring (Start example_cfg "worker")) ∅; Go 6 999 ].

(** An instance that waits for a restart that is not pending. *)
Definition orphaned (s : Host) (id : string) : Prop :=
  Status_State (status_in (statuses s) id) = StateRestarting ∧ restarts s !! id = None ∧ closing s = false.

#[global] Instance orphaned_dec s id : Decision (orphaned s id).
Proof. unfold orphaned. apply _. Defined.

Definition idle (c : config (S:=Host) (answer:=answer) (lock:=lock)) : bool :=
  forallb (λ t, match code t with Ret _ _ => true | _ => false end) (threads c).

Lemma orphan_playable : playable (admissible example_cfg races_generated) example_world orphan_moves (Conc.mkConfig example_host []).
Proof. unfold orphan_moves. may_play. Qed.

(** C38: an instance is left to wait for a restart that nothing will make. A
    start cancels the pending restart before it is admitted; when it is
    refused, the instance is still Restarting, no operation is under way, and
    no restart is pending. *)
Theorem refused_start_orphans_the_restart :
  ∃ c, rtc (step (admissible example_cfg races_generated) crash) (Conc.mkConfig example_host []) c ∧
    idle c = true ∧ orphaned (Conc.state c) "i3".
Proof.
  destruct (play_reaches (admissible example_cfg races_generated) crash example_world orphan_moves (Conc.mkConfig example_host [])
    (λ c, idle c && bool_decide (orphaned (Conc.state c) "i3"))) as (c & Hc & Hp);
    [exact orphan_playable|vm_compute; reflexivity|].
  exists c. split; [exact Hc|]. apply andb_prop in Hp as [Hi Ho]. split; [exact Hi|]. by apply bool_decide_eq_true in Ho.
Qed.

End Races.
