(* ===== verification/Lifecycle.v ===== *)
(** * What starting and stopping an instance come to

    [Safety] is about every interleaving; this file is about one operation at
    a time, whatever the file system, the hypervisor and the guest answer it:
    a start brings the whole instance up or takes down what it brought up, and a
    stop takes the whole of it down, as far as the host does what it is asked to. *)

From S2P Require Import Prelude Errdefs Naming Health Token Addr Network NetworkManager Instance Definitions FileStore Conc Host Manager Safety.

Module Lifecycle.
Import Instance Host Manager.

(** ** What is looked at *)

(** What is on the host of an instance, its status, and the networks that are
    defined. *)
Definition view (s : Host) :=
  (taps s, published s, vmms s, processes s, statuses s, restarts s, Store.networks (store s)).

Section Lifecycle.

(** Whether the host deletes the TAP devices that it is asked to, whether it
    removes the rules of ports, and whether statuses can be written. *)
Context (cfg : Config) (deletes unpublishes writes : Prop).

(** What must be done if they are. *)
Definition must (what : string) : Prop :=
  deletes ∧ what = "delete TAP" ∨ writes ∧ (what = "mkdir runtime directory" ∨ what = "write status").

(** How the host answers. *)
Definition answers (q : query) : answer q → Prop :=
  match q return answer q → Prop with
  | QDo what => λ e : option error, must what → e = None
  | QUnpublish => λ removed : Network.PortMapping → bool, unpublishes → ∀ p, removed p = true
  | _ => λ _, True
  end.

(** What a program does, alone, and releases the locks it takes. *)
Definition does {A} (L : gset lock) (p : M A) (s : Host) (Q : A → Host → Prop) : Prop :=
  run_given answers p L s (λ a L' s', L' = L ∧ Q a s').

(** A program that leaves that as it is. *)
Definition unseen {A} (p : M A) : Prop :=
  ∀ L s (Q : A → Host → Prop), (∀ a s', view s' = view s → Q a s') → does L p s Q.

Lemma does_bind {A B} L (p : M A) (g : A → M B) s Q :
  does L p s (λ a s', does L (g a) s' Q) → does L (p ≫= g) s Q.
Proof. intros Hp. apply run_given_bind. eapply run_given_mono; [|exact Hp]. by intros a L' s' [-> H]. Qed.

Lemma does_mono {A} L (p : M A) s (Q1 Q2 : A → Host → Prop) :
  (∀ a s', Q1 a s' → Q2 a s') → does L p s Q1 → does L p s Q2.
Proof. intros HQ. apply run_given_mono. intros a L' s' [-> H]. auto. Qed.

Lemma does_with_lock {A} L l (p : M A) s Q :
  l ∉ L → does ({[l]} ∪ L) p s Q → does L (with_lock l p) s Q.
Proof.
  intros Hl Hp. apply run_given_with_lock; [done|]. eapply run_given_mono; [|exact Hp]. intros a L' s' [-> H].
  split; [set_solver|done].
Qed.

Lemma does_ret {A} L (a : A) s (Q : A → Host → Prop) : Q a s → does L (mret a) s Q.
Proof. by split. Qed.

Lemma does_ask L q s (Q : answer q → Host → Prop) : (∀ a, Q a s) → does L (ask q) s Q.
Proof. intros H a _. by split. Qed.

(** A step that may fail, unless it must not. *)
Lemma does_attempt L what s (Q : result unit → Host → Prop) :
  Q (Ok tt) s → (∀ e, ¬ must what → Q (Err e) s) → does L (attempt what) s Q.
Proof. intros HOk HErr [e|] Ha; split; [done| |done|done]. apply HErr. intros Hm. by specialize (Ha Hm). Qed.

Lemma does_atomically {B} L (f : Host → B * Host) s (Q : B → Host → Prop) : Q (f s).1 (f s).2 → does L (atomically f) s Q.
Proof. by split. Qed.

Lemma does_modify L (f : Host → Host) s (Q : unit → Host → Prop) : Q tt (f s) → does L (modify f) s Q.
Proof. by split. Qed.

(** *** Programs step by step *)

Lemma unseen_ret {A} (a : A) : unseen (mret a).
Proof. intros L s Q HQ. by apply does_ret, HQ. Qed.

Lemma unseen_bind {A B} (p : M A) (g : A → M B) : unseen p → (∀ a, unseen (g a)) → unseen (p ≫= g).
Proof.
  intros Hp Hg L s Q HQ. apply does_bind, Hp. intros a s1 E1. apply Hg. intros b s2 E2.
  apply HQ. congruence.
Qed.

Lemma unseen_atomic {B} (f : Host → B * Host) : (∀ s, view (f s).2 = view s) → unseen (atomically f).
Proof. intros Hf L s Q HQ. by apply does_atomically, HQ. Qed.

Lemma unseen_gets {B} (f : Host → B) : unseen (gets f).
Proof. by apply unseen_atomic. Qed.

Lemma unseen_modify (f : Host → Host) : (∀ s, view (f s) = view s) → unseen (modify f).
Proof. intros Hf. by apply unseen_atomic. Qed.

Lemma unseen_ask q : unseen (ask q).
Proof. intros L s Q HQ. apply does_ask. auto. Qed.

(** Goes through a program step by step. *)
Ltac blind :=
  repeat first
    [ solve [eauto with unseen]
    | progress intros
    | lazymatch goal with |- @unseen _ ?p => lazymatch p with @ask _ _ _ _ ?q => exact (unseen_ask q) end end
    | lazymatch goal with
      | |- unseen (mret _) => apply unseen_ret
      | |- unseen (gets _) => apply unseen_gets
      | |- unseen (modify _) => apply unseen_modify; done
      | |- unseen (_ ≫= _) => apply unseen_bind
      | |- unseen (match ?x with _ => _ end) => destruct x
      end
    | lazymatch goal with
      | |- unseen (ebind _ _) => unfold ebind
      | |- unseen (attempt _) => unfold attempt
      | |- unseen (wrapping _ _) => unfold wrapping
      | |- unseen (ignoring _) => unfold ignoring
      | |- unseen (on_error _ _) => unfold on_error
      | |- unseen (deferred _ _) => unfold deferred
      end ].

Create HintDb unseen.

Lemma unseen_attempt what : unseen (attempt what).
Proof. blind. Qed.

Lemma unseen_statusOf v : unseen (statusOf v).
Proof. unfold statusOf, readStatus, onStandby. blind. Qed.

Lemma unseen_onStandby v : unseen (onStandby v).
Proof. unfold onStandby. blind. Qed.

Lemma unseen_notifyWaiters st : unseen (notifyWaiters st).
Proof. unfold notifyWaiters. blind. Qed.

Lemma unseen_record v a : unseen (record v a).
Proof. unfold record. blind. Qed.

Lemma unseen_lookupInstance x : unseen (lookupInstance x).
Proof. unfold lookupInstance. blind. Qed.

Lemma unseen_stopWaker id : unseen (stopWaker id).
Proof. unfold stopWaker. blind. Qed.

#[local] Hint Resolve unseen_attempt unseen_statusOf unseen_onStandby unseen_notifyWaiters unseen_record
  unseen_lookupInstance unseen_stopWaker : unseen.

Lemma unseen_syncWaker id : unseen (syncWaker id).
Proof. unfold syncWaker. blind. Qed.

Lemma unseen_removeStandby v : unseen (removeStandby v).
Proof. unfold removeStandby. blind. Qed.

#[local] Hint Resolve unseen_syncWaker unseen_removeStandby : unseen.

Lemma unseen_discardStandby v : unseen (discardStandby v).
Proof. unfold discardStandby. blind. Qed.

Lemma unseen_connect v st : unseen (connect cfg v st).
Proof. unfold connect. blind. Qed.

Lemma unseen_updateInstance v : unseen (updateInstance v).
Proof. unfold updateInstance. blind. apply unseen_atomic. intros s. unfold Store.UpdateInstance. by destruct (Kind.update _ _ _ _ _). Qed.

#[local] Hint Resolve unseen_discardStandby unseen_connect unseen_updateInstance : unseen.

Lemma unseen_setStoppedByUser v b : unseen (setStoppedByUser v b).
Proof. unfold setStoppedByUser. blind. Qed.

Lemma unseen_scheduleRemoval v : unseen (scheduleRemoval v).
Proof. unfold scheduleRemoval. blind. Qed.

Lemma unseen_networkInUse others nw x : unseen (networkInUse others nw x).
Proof. induction others as [|o others IH]; cbn [networkInUse]; blind. Qed.

Lemma unseen_serveDNS nw : unseen (serveDNS cfg nw).
Proof. unfold serveDNS. blind. Qed.

Lemma unseen_allocate nw v : unseen (allocate nw v).
Proof.
  unfold allocate. blind. apply unseen_atomic. intros s. by destruct (NetworkManager.Allocate _ _ _ _ _).
Qed.

Lemma unseen_allocated_loop l x total : unseen (allocated_loop l x total).
Proof. revert total. induction l as [|v l IH]; intros total; cbn [allocated_loop]; blind. Qed.

Lemma unseen_checkOthers v none clash err l : unseen (checkOthers v none clash err l).
Proof. induction l as [|o l IH]; cbn [checkOthers]; blind. Qed.

#[local] Hint Resolve unseen_setStoppedByUser unseen_scheduleRemoval unseen_networkInUse unseen_serveDNS
  unseen_allocate unseen_allocated_loop unseen_checkOthers : unseen.

Lemma unseen_checkRoom v need : unseen (checkRoom cfg v need).
Proof. unfold checkRoom, allocated. blind. Qed.

Lemma unseen_checkPorts v : unseen (checkPorts v).
Proof. unfold checkPorts. blind. Qed.

Lemma unseen_checkVolumes v : unseen (checkVolumes v).
Proof. unfold checkVolumes. blind. Qed.

Lemma unseen_resolveMounts v : unseen (resolveMounts cfg v).
Proof.
  unfold resolveMounts. generalize (mkResolvedMounts [] [] []). induction (Mounts v) as [|m l IH]; intros r; cbn [resolveMounts_loop]; [blind|].
  unfold resolveMount, volumeDisk. blind.
Qed.

#[local] Hint Resolve unseen_checkRoom unseen_checkPorts unseen_checkVolumes unseen_resolveMounts : unseen.

Lemma unseen_resolveBoot v starter : unseen (resolveBoot cfg v starter).
Proof. unfold resolveBoot, findPath, ensureImage. blind. Qed.

Lemma unseen_writeGuestDisks config : unseen (writeGuestDisks config).
Proof. unfold writeGuestDisks. blind. Qed.

Lemma unseen_frozenGuestStatus dir : unseen (frozenGuestStatus dir).
Proof. unfold frozenGuestStatus. blind. Qed.

Lemma unseen_toAgent v vmm what failed : unseen (toAgent cfg v vmm what failed).
Proof. unfold toAgent, endedAsItResumed, readExit. blind. Qed.

Lemma unseen_snapshotImage : unseen snapshotImage.
Proof. unfold snapshotImage, findPath, ensureImage. blind. Qed.

#[local] Hint Resolve unseen_resolveBoot unseen_writeGuestDisks unseen_frozenGuestStatus unseen_toAgent
  unseen_snapshotImage : unseen.

(** ** An instance that is worked on *)

(** Nothing of another instance has changed. *)
Definition others_kept (id : string) (s s' : Host) : Prop :=
  ∀ j, j ≠ id → statuses s' !! j = statuses s !! j ∧ vmms s' !! j = vmms s !! j ∧
    published s' !! j = published s !! j ∧ (j ∈ taps s' ↔ j ∈ taps s) ∧ restarts s' !! j = restarts s !! j.

(** What is known of a device: that it is there, that it is not, that it is not
    if the host deletes devices, or nothing. *)
Inductive presence := There | Gone | Removed | Unknown.

Definition tap_is (id : string) (s : Host) (tap : presence) : Prop :=
  match tap with
  | There => id ∈ taps s
  | Gone => id ∉ taps s
  | Removed => deletes → id ∉ taps s
  | Unknown => True
  end.

(** The ports that are published, or that none is if the host removes rules. *)
Definition ports_are (id : string) (s : Host) (ports : option (option (list Network.PortMapping))) : Prop :=
  match ports with
  | Some ports => published s !! id = ports
  | None => unpublishes → published s !! id = None
  end.

(** From [s0], an instance that does not run is worked on: this is known of its
    TAP device and its published ports, it has these processes and no others,
    and this pending restart. *)
Record at_work (id : string) (s0 s : Host) (tap : presence) (ports : option (option (list Network.PortMapping))) (procs : gset Z)
  (pending : option nat) : Prop := {
  work_others : others_kept id s0 s;
  work_tap : tap_is id s tap;
  work_ports : ports_are id s ports;
  work_vmm : vmms s !! id = None;
  work_procs : processes s ⊆ processes s0 ∪ procs;
  work_has : procs ⊆ processes s;
  work_status : Status_State (status_in (statuses s) id) ≠ StateRunning;
  work_id : InstanceID (status_in (statuses s) id) = id;
  work_pending : restarts s !! id = pending;
}.

Lemma at_work_view id s0 s s' tap ports procs pending :
  view s' = view s → at_work id s0 s tap ports procs pending → at_work id s0 s' tap ports procs pending.
Proof.
  intros [= E1 E2 E3 E4 E5 E6 E7] [H1 H2 H3 H4 H5 H6 H7 H8 H9]. unfold tap_is, ports_are in *.
  split; unfold tap_is, ports_are; rewrite ?E1, ?E2, ?E3, ?E4, ?E5, ?E6; try done.
  intros j Hj. rewrite E1, E2, E3, E5, E6. by apply H1.
Qed.

(** What is not there has been removed. *)
Lemma at_work_removed id s0 s procs pending :
  at_work id s0 s Gone (Some None) procs pending → at_work id s0 s Removed None procs pending.
Proof. intros [H1 H2 H3 H4 H5 H6 H7 H8 H9]. split; try done; intros _; [exact H2|exact H3]. Qed.

(** An unseen program, and what follows it. *)
Lemma does_unseen {A B} L (p : M A) (g : A → M B) s Q :
  unseen p → (∀ a s', view s' = view s → does L (g a) s' Q) → does L (p ≫= g) s Q.
Proof. intros Hp Hg. apply does_bind, Hp. exact Hg. Qed.

Lemma does_eunseen {A B} L (p : M (result A)) (g : A → M (result B)) s Q :
  unseen p → (∀ a s', view s' = view s → does L (g a) s' Q) → (∀ e s', view s' = view s → Q (Err e) s') →
  does L (ebind p g) s Q.
Proof.
  intros Hp Hg He. apply does_unseen; [done|]. intros [a|e] s' E; [by apply Hg|]. by apply does_ret, He.
Qed.

Lemma does_ebind {A B} L (p : M (result A)) (g : A → M (result B)) s Q :
  does L p s (λ r s', match r with Ok a => does L (g a) s' Q | Err e => Q (Err e) s' end) → does L (ebind p g) s Q.
Proof. intros Hp. apply does_bind. eapply does_mono; [|exact Hp]. intros [a|e] s'; [done|]. intros H. by apply does_ret. Qed.

(** What [on_error] undoes. *)
Lemma does_on_error {A} L c (p : M (result A)) s Q :
  does L p s (λ r s', match r with Ok a => Q (Ok a) s' | Err e => does L c s' (λ _ s2, Q (Err e) s2) end) →
  does L (on_error c p) s Q.
Proof.
  intros Hp. apply does_bind. eapply does_mono; [|exact Hp]. intros [a|e] s' H; [by apply does_ret|].
  apply does_bind. eapply does_mono; [|exact H]. intros [] s2 H2. by apply does_ret.
Qed.

(** An instance that runs: its VMM is a process that is supervised, it has its
    TAP device and its ports, it holds these resources, and no restart is
    pending. *)
Definition published_for (v : Spec) : option (list Network.PortMapping) :=
  if bool_decide (Ports v = []) then None else Some (Ports v).

Record runs_as (v : Spec) (held : Res.Resources) (s0 s : Host) (vmm : Z) (st : Status) (supervised : bool) : Prop := {
  run_others : others_kept (ID v) s0 s;
  run_tap : ID v ∈ taps s;
  run_ports : published s !! ID v = published_for v;
  run_process : vmm ∈ processes s;
  run_status : statuses s !! ID v = Some (Some st);
  run_state : Status_State st = StateRunning;
  run_pid : VMMPID st = Some vmm;
  run_resources : HeldResources st = held;
  run_pending : restarts s !! ID v = None;
  run_supervised : supervised = true → vmms s !! ID v = Some (mkSupervised vmm
    ((λ check, Health.NewMonitor check (StartedAt st)) <$> Status_HealthCheck st));
}.

Lemma runs_as_view v held s0 s s' vmm st b : view s' = view s → runs_as v held s0 s vmm st b → runs_as v held s0 s' vmm st b.
Proof.
  intros [= E1 E2 E3 E4 E5 E6 E7] [H1 H2 H3 H4 H5 H6 H7 H8 H9 H10]. split; rewrite ?E1, ?E2, ?E3, ?E4, ?E5, ?E6; try done.
  intros j Hj. rewrite E1, E2, E3, E5, E6. by apply H1.
Qed.

(** *** Each step of the work *)

Section Steps.

Context (id : string) (s0 : Host) (L : gset lock).

Lemma status_written s st now tap ports procs pending :
  InstanceID st = id → Status_State st ≠ StateRunning → at_work id s0 s tap ports procs pending →
  at_work id s0 (set_statuses s (<[InstanceID st := Some (setUpdatedAt st now)]> (statuses s))) tap ports procs pending.
Proof.
  intros Hid Hst [H1 H2 H3 H4 H5 H6 H7 H8 H9]. rewrite Hid. split; try done; simpl.
  - intros j Hj. destruct (H1 j Hj) as (E1 & E2 & E3 & E4 & E5). split_and!; simpl; try done. by rewrite lookup_insert_ne.
  - unfold status_in. by rewrite lookup_insert_eq.
  - unfold status_in. by rewrite lookup_insert_eq.
Qed.

(** A status that is not written stays as it was, and then not all can be. *)
Lemma does_writeStatus s st tap ports procs pending (Q : result unit → Host → Prop) :
  InstanceID st = id → Status_State st ≠ StateRunning → at_work id s0 s tap ports procs pending →
  (∀ s', at_work id s0 s' tap ports procs pending → Status_State (status_in (statuses s') id) = Status_State st → Q (Ok tt) s') →
  (∀ e s', at_work id s0 s' tap ports procs pending → statuses s' = statuses s → ¬ writes → Q (Err e) s') →
  does L (writeStatus st) s Q.
Proof.
  intros Hid Hst Hw HOk HErr. unfold writeStatus. apply does_ebind, does_bind, does_attempt.
  2:{ intros e He. apply does_ret, HErr; [done..|]. intros Hwr. apply He. right. eauto. }
  apply does_ret. cbv beta iota delta [wrap_err]. apply does_unseen; [blind|]. intros now s2 E2.
  apply (at_work_view _ _ _ _ _ _ _ _ E2) in Hw. apply does_ebind, does_attempt.
  2:{ intros e He. apply HErr; [done|by injection E2|]. intros Hwr. apply He. right. eauto. }
  apply does_bind, does_modify, does_ret, HOk; [by apply status_written|]. simpl. unfold status_in. by rewrite Hid, lookup_insert_eq.
Qed.

Lemma does_removeRuntimeDir s tap ports procs pending (Q : result unit → Host → Prop) :
  at_work id s0 s tap ports procs pending → (∀ r s', at_work id s0 s' tap ports procs pending → Q r s') →
  does L (removeRuntimeDir id) s Q.
Proof.
  intros Hw HQ. assert (at_work id s0 (set_statuses s (base.delete id (statuses s))) tap ports procs pending) as Hd.
  { destruct Hw as [H1 H2 H3 H4 H5 H6 H7 H8 H9]. split; try done; simpl.
    - intros j Hj. destruct (H1 j Hj) as (E1 & E2 & E3 & E4 & E5). split_and!; simpl; try done. by rewrite lookup_delete_ne.
    - unfold status_in. by rewrite lookup_delete_eq.
    - unfold status_in. by rewrite lookup_delete_eq. }
  unfold removeRuntimeDir. apply does_bind, does_ask. intros [|e []]; apply does_bind.
  - apply does_modify, does_ret. by apply HQ.
  - apply does_modify, does_ret. by apply HQ.
  - apply does_ret, does_ret. by apply HQ.
Qed.

Lemma does_deleteTAP s tap ports procs pending (Q : result unit → Host → Prop) :
  at_work id s0 s tap ports procs pending → (∀ s', at_work id s0 s' Gone ports procs pending → Q (Ok tt) s') →
  (∀ e, ¬ deletes → Q (Err e) s) → does L (deleteTAP id) s Q.
Proof.
  intros [H1 H2 H3 H4 H5 H6 H7 H8 H9] HOk HErr. unfold deleteTAP. apply does_ebind, does_attempt.
  2:{ intros e He. apply HErr. intros Hd. apply He. left. eauto. }
  apply does_bind, does_modify, does_ret, HOk. split; try done; simpl; [|set_solver].
  intros j Hj. destruct (H1 j Hj) as (E1 & E2 & E3 & E4 & E5). split_and!; simpl; try done. rewrite <-E4. set_solver.
Qed.

(** Devices are deleted as far as the host deletes them. *)
Lemma does_removeTAP s tap ports procs pending (Q : unit → Host → Prop) :
  at_work id s0 s tap ports procs pending → (∀ s', at_work id s0 s' Removed ports procs pending → Q tt s') →
  does L (removeTAP id) s Q.
Proof.
  intros Hw HQ. unfold removeTAP. apply does_unseen; [blind|]. intros [] s1 E1. apply (at_work_view _ _ _ _ _ _ _ _ E1) in Hw.
  eapply does_bind, does_deleteTAP; [exact Hw| |].
  - intros s2 [H1 H2 H3 H4 H5 H6 H7 H8 H9]. apply does_ret, HQ. split; try done. intros _. exact H2.
  - intros e He. apply does_ret, HQ. destruct Hw as [H1 H2 H3 H4 H5 H6 H7 H8 H9]. split; try done. by intros ?%He.
Qed.

(** What is known of ports that were known to be these, once the rules are
    removed. *)
Definition cleared (ports : option (option (list Network.PortMapping))) : option (option (list Network.PortMapping)) :=
  if ports is Some None then Some None else None.

Lemma unpublished (removed : Network.PortMapping → bool) s tap ports procs pending :
  (unpublishes → ∀ p, removed p = true) → at_work id s0 s tap ports procs pending →
  at_work id s0 (set_published s (partial_alter (λ ports,
    let left := List.filter (λ p, negb (removed p)) (default [] ports) in
    if bool_decide (left = []) then None else Some left) id (published s))) tap
    (cleared ports) procs pending.
Proof.
  intros Hr [H1 H2 H3 H4 H5 H6 H7 H8 H9]. split; try done; simpl.
  - intros j Hj. destruct (H1 j Hj) as (E1 & E2 & E3 & E4 & E5). split_and!; simpl; try done. by rewrite lookup_partial_alter_ne.
  - unfold ports_are in *. simpl. rewrite lookup_partial_alter_eq.
    destruct ports as [[ports|]|]; [|by rewrite H3|]; intros Hu; rewrite bool_decide_true; try done;
      induction (default [] _) as [|p l IH]; simpl; try done; by rewrite (Hr Hu).
Qed.

Lemma does_unpublishPorts s tap ports procs pending (Q : unit → Host → Prop) :
  at_work id s0 s tap ports procs pending →
  (∀ s', at_work id s0 s' tap (cleared ports) procs pending → Q tt s') →
  does L (unpublishPorts id) s Q.
Proof.
  intros Hw HQ. unfold unpublishPorts. apply does_bind. intros removed Hr. split; [done|].
  apply does_modify, HQ. by apply unpublished.
Qed.

(** What was published is not any more, as far as the host removes it. *)
Lemma at_work_unpublished s tap ports procs pending :
  at_work id s0 s tap (cleared ports) procs pending → at_work id s0 s tap None procs pending.
Proof. destruct ports as [[ports|]|]; [done| |done]. intros [H1 H2 H3 H4 H5 H6 H7 H8 H9]. split; try done. intros _. exact H3. Qed.

Lemma does_undoNetwork s tap ports procs pending (Q : unit → Host → Prop) :
  at_work id s0 s tap ports procs pending → (∀ s', at_work id s0 s' Removed None procs pending → Q tt s') →
  does L (undoNetwork id) s Q.
Proof.
  intros Hw HQ. eapply does_bind, does_unpublishPorts; [exact Hw|]. intros s1 Hw1%at_work_unpublished.
  eapply does_removeTAP; [exact Hw1|exact HQ].
Qed.

Definition listed (ports : list Network.PortMapping) : option (list Network.PortMapping) :=
  if bool_decide (ports = []) then None else Some ports.

Lemma does_publish p s tap done_ procs pending (Q : unit → Host → Prop) :
  at_work id s0 s tap (Some (listed done_)) procs pending →
  (∀ s', at_work id s0 s' tap (Some (listed (done_ ++ [p]))) procs pending → Q tt s') → does L (publish id p) s Q.
Proof.
  intros [H1 H2 H3 H4 H5 H6 H7 H8 H9] HQ. apply does_modify, HQ. split; try done; simpl.
  - intros j Hj. destruct (H1 j Hj) as (F1 & F2 & F3 & F4 & F5). split_and!; simpl; try done. by rewrite lookup_insert_ne.
  - unfold ports_are in *. simpl. rewrite lookup_insert_eq, H3. unfold listed. rewrite (bool_decide_false (done_ ++ _ = _)) by (by destruct done_).
    f_equal. case_bool_decide as E; [by rewrite E|done].
Qed.

Lemma does_publishEach ports done_ s tap procs pending (Q : result unit → Host → Prop) :
  at_work id s0 s tap (Some (listed done_)) procs pending →
  (∀ s', at_work id s0 s' tap (Some (listed (done_ ++ ports))) procs pending → Q (Ok tt) s') →
  (∀ e s', at_work id s0 s' tap None procs pending → Q (Err e) s') → does L (publishEach id ports) s Q.
Proof.
  revert done_ s. induction ports as [|p ports IH]; intros done_ s Hw HOk HErr; cbn [publishEach].
  { apply does_ret, HOk. by rewrite app_nil_r. }
  assert (∀ e s' ports', at_work id s0 s' tap ports' procs pending → does L (unpublishPorts id) s' (λ _ s2, Q (Err e) s2)) as Hundo.
  { intros e s' ports' Hw'. eapply does_unpublishPorts; [exact Hw'|]. intros s2 Hw2%at_work_unpublished. by apply HErr. }
  apply does_ebind, does_on_error, does_bind, does_ebind, does_attempt; [|intros e _; eapply does_ret, Hundo; exact Hw].
  eapply does_bind, does_publish; [exact Hw|]. intros s1 Hw1.
  apply does_attempt; [|intros e _; eapply does_ret, Hundo; exact Hw1].
  apply does_ret. cbv beta iota delta [wrap_err]. eapply IH; [exact Hw1| |exact HErr]. intros s2 Hw2. apply HOk.
  by rewrite <-app_assoc in Hw2.
Qed.

Lemma does_publishPorts v s procs pending (Q : result unit → Host → Prop) :
  ID v = id → at_work id s0 s There (Some None) procs pending →
  (∀ s', at_work id s0 s' There (Some (published_for v)) procs pending → Q (Ok tt) s') →
  (∀ e s', at_work id s0 s' There None procs pending → Q (Err e) s') →
  does L (publishPorts v) s Q.
Proof.
  intros Hid Hw HOk HErr. unfold publishPorts. change (published_for v) with (listed (Ports v)) in *. unfold listed in HOk.
  destruct (bool_decide (Ports v = [])) eqn:Hp; [by apply does_ret, HOk|]. rewrite Hid.
  assert (∀ e s', at_work id s0 s' There (Some None) procs pending → Q (Err e) s') as HErr'.
  { intros e s' [H1 H2 H3 H4 H5 H6 H7 H8 H9]. apply HErr. split; try done. intros _. exact H3. }
  apply does_eunseen; [blind| |intros e s1 E1; apply HErr'; by eapply at_work_view]. intros [] s1 E1.
  eapply does_bind, does_unpublishPorts; [by eapply at_work_view|]. intros s2 Hw2.
  apply does_ebind, does_attempt; [|intros e _; by apply HErr'].
  eapply (does_publishEach (Ports v) []); [exact Hw2| |exact HErr]. intros s3 Hw3. apply HOk. simpl in Hw3. unfold listed in Hw3.
  by rewrite Hp in Hw3.
Qed.

Lemma does_process_starts p s tap ports procs pending (Q : unit → Host → Prop) :
  at_work id s0 s tap ports procs pending → (∀ s', at_work id s0 s' tap ports ({[p]} ∪ procs) pending → Q tt s') →
  does L (process_starts p) s Q.
Proof.
  intros [H1 H2 H3 H4 H5 H6 H7 H8 H9] HQ. apply does_modify, HQ. split; try done; simpl; set_solver.
Qed.

Lemma does_process_ends p s tap ports procs pending (Q : unit → Host → Prop) :
  at_work id s0 s tap ports procs pending → (∀ s', at_work id s0 s' tap ports (procs ∖ {[p]}) pending → Q tt s') →
  does L (process_ends p) s Q.
Proof.
  intros [H1 H2 H3 H4 H5 H6 H7 H8 H9] HQ. apply does_modify, HQ. split; try done; simpl; set_solver.
Qed.

Lemma does_processes_end l s tap ports procs pending (Q : unit → Host → Prop) :
  at_work id s0 s tap ports procs pending → (∀ s', at_work id s0 s' tap ports (procs ∖ list_to_set l) pending → Q tt s') →
  does L (for_all process_ends l) s Q.
Proof.
  revert s procs. induction l as [|p l IH]; intros s procs Hw HQ; cbn [for_all].
  - apply does_ret, HQ. by replace (procs ∖ list_to_set []) with procs by set_solver.
  - eapply does_bind, does_process_ends; [exact Hw|]. intros s1 Hw1. apply (IH s1 _ Hw1). intros s2 Hw2. apply HQ.
    by replace (procs ∖ list_to_set (p :: l)) with (procs ∖ {[p]} ∖ list_to_set l) by set_solver.
Qed.

Lemma does_recordRunning v vmm r s procs (Q : result Status → Host → Prop) :
  ID v = id → vmm ∈ procs → at_work id s0 s There (Some (published_for v)) procs None →
  (∀ st st' s', runs_as v (run_held r) s0 s' vmm st' false → StartedAt st' = StartedAt st →
     Status_HealthCheck st' = Status_HealthCheck st → Q (Ok st) s') →
  (∀ e s', at_work id s0 s' There (Some (published_for v)) procs None → Q (Err e) s') → does L (recordRunning cfg v vmm r) s Q.
Proof.
  intros Hid Hvmm Hw HOk HErr. unfold recordRunning. apply does_unseen; [blind|]. intros now s1 E1.
  apply (at_work_view _ _ _ _ _ _ _ _ E1) in Hw. unfold wrapping, writeStatus. apply does_ebind, does_bind.
  apply does_eunseen; [blind| |intros e s2 E2; apply does_ret, HErr; by eapply at_work_view]. intros [] s2 E2.
  apply does_unseen; [blind|]. intros at_ s3 E3.
  apply does_eunseen; [blind| |intros e s4 E4; apply does_ret, HErr; eapply at_work_view; [|exact Hw]; congruence].
  intros [] s4 E4. assert (view s4 = view s1) as E by congruence. apply (at_work_view _ _ _ _ _ _ _ _ E) in Hw.
  destruct Hw as [H1 H2 H3 H4 H5 H6 H7 H8 H9].
  apply does_bind, does_modify, does_ret, does_ret. cbv beta iota.
  apply does_ret, (HOk _ (setUpdatedAt (runningStatus cfg v vmm r now) at_)); [|done..].
  subst id. split; try done; simpl.
  - intros j Hj. destruct (H1 j Hj) as (F1 & F2 & F3 & F4 & F5). split_and!; simpl; try done. by rewrite lookup_insert_ne.
  - by apply H6.
  - apply lookup_insert_eq.
  - unfold HeldResources. simpl. by destruct (run_held r).
Qed.

Lemma does_supervise v held s vmm st st' (Q : unit → Host → Prop) :
  StartedAt st' = StartedAt st → Status_HealthCheck st' = Status_HealthCheck st → runs_as v held s0 s vmm st' false →
  (∀ s', runs_as v held s0 s' vmm st' true → Q tt s') → does L (supervise v vmm st) s Q.
Proof.
  intros Ea Eh [H1 H2 H3 H4 H5 H6 H7 H8 H9 H10] HQ. apply does_modify, HQ. split; try done; simpl.
  - intros j Hj. destruct (H1 j Hj) as (F1 & F2 & F3 & F4 & F5). split_and!; simpl; try done. by rewrite lookup_insert_ne.
  - intros _. by rewrite lookup_insert_eq, Ea, Eh.
Qed.

Lemma does_statusOf v s (Q : Status → Host → Prop) :
  ID v = id →
  (∀ st, InstanceID st = InstanceID (status_in (statuses s) id) →
     IsActive (Status_State st) = IsActive (Status_State (status_in (statuses s) id)) → Q st s) →
  does L (statusOf v) s Q.
Proof.
  intros Hid HQ. unfold statusOf, readStatus, onStandby. rewrite Hid. apply does_bind, does_atomically.
  set (st := status_in (statuses s) id) in *.
  destruct (bool_decide _ || _) eqn:Hs; [|by apply does_ret, HQ]. apply does_bind, does_atomically.
  destruct (bool_decide (is_Some _)); apply does_ret, HQ; [done| |done|done].
  apply orb_true_iff in Hs as [Hs|Hs]; apply bool_decide_eq_true in Hs; simpl in *; by rewrite Hs.
Qed.

Lemma does_transitionWith v to update s tap ports procs pending (Q : result unit → Host → Prop) :
  ID v = id → to ≠ StateRunning → (∀ st, InstanceID (update st) = InstanceID st ∧ Status_State (update st) = Status_State st) →
  at_work id s0 s tap ports procs pending → (∀ s', at_work id s0 s' tap ports procs pending → Q (Ok tt) s') →
  (∀ e s', at_work id s0 s' tap ports procs pending → statuses s' = statuses s → Q (Err e) s') →
  does L (transitionWith v to update) s Q.
Proof.
  intros Hid Hto Hup Hw HOk HErr. unfold transitionWith. apply does_bind, does_statusOf; [done|]. intros st Est _.
  destruct (negb _ && negb _); [by apply does_ret, HErr|].
  destruct (Hup (setState st to None)) as [E1 E2].
  eapply does_writeStatus; [|by rewrite E2|exact Hw|intros s' H _; by apply HOk|intros e s' H E _; by apply HErr].
  rewrite E1. simpl. rewrite Est. apply Hw.
Qed.

(** A failure that is written holds nothing. *)
Lemma does_fail e s tap ports procs pending (Q : unit → Host → Prop) :
  at_work id s0 s tap ports procs pending →
  (∀ s', at_work id s0 s' tap ports procs pending →
     (writes → HoldsResources (Status_State (status_in (statuses s') id)) = false) → Q tt s') →
  does L (fail id e) s Q.
Proof.
  intros Hw HQ. unfold fail, readStatus. apply does_bind, does_atomically.
  set (holds := λ s', writes → HoldsResources (Status_State (status_in (statuses s') id)) = false) in *.
  assert (∀ s1 (g : M unit), at_work id s0 s1 tap ports procs pending → holds s1 → unseen g → does L g s1 Q) as Hrest.
  { intros s1 g Hw1 Hh Hg. apply Hg. intros [] s2 E2. apply HQ; [by eapply at_work_view|].
    unfold holds. injection E2 as _ _ _ _ E5 _ _. by rewrite E5. }
  eapply does_bind, does_writeStatus; [simpl; apply Hw|done|exact Hw|..].
  - intros s1 Hw1 E1. apply Hrest; [done|by intros _; rewrite E1|]. blind.
  - intros e' s1 Hw1 _ Hno. apply Hrest; [done|by intros ?%Hno|]. blind.
Qed.

Lemma does_addTAP s ports procs pending (Q : result unit → Host → Prop) :
  at_work id s0 s Gone ports procs pending → (∀ s', at_work id s0 s' There ports procs pending → Q (Ok tt) s') →
  (∀ e s', at_work id s0 s' Unknown ports procs pending → Q (Err e) s') → does L (addTAP id) s Q.
Proof.
  intros Hw HOk HErr.
  assert (∀ e s1 s2 tap, at_work id s0 s1 tap ports procs pending → view s2 = view s1 → Q (Err e) s2) as HErr'.
  { intros e s1 s2 tap Hw1 E. apply HErr. apply (at_work_view _ _ _ _ _ _ _ _ E) in Hw1. by destruct Hw1; split. }
  unfold addTAP. apply does_eunseen; [blind| |intros e s1 E1; eapply HErr'; [exact Hw|done]]. intros [] s1 E1.
  apply (at_work_view _ _ _ _ _ _ _ _ E1) in Hw. apply does_bind, does_modify. set (s2 := set_taps _ _).
  assert (at_work id s0 s2 There ports procs pending) as Hw2.
  { destruct Hw as [H1 H2 H3 H4 H5 H6 H7 H8 H9]. split; try done; simpl; [|set_solver].
    intros j Hj. destruct (H1 j Hj) as (F1 & F2 & F3 & F4 & F5). split_and!; simpl; try done. rewrite <-F4. set_solver. }
  apply does_eunseen; [blind| |intros e s3 E3; eapply HErr'; [exact Hw2|done]]. intros [] s3 E3.
  apply does_eunseen; [blind| |intros e s4 E4; eapply HErr'; [exact Hw2|congruence]]. intros [] s4 E4.
  assert (view s4 = view s2) as E by congruence.
  apply does_attempt; [apply HOk; by eapply at_work_view|]. intros e _. by eapply HErr'.
Qed.

Lemma does_createTAP up download s ports procs pending (Q : result unit → Host → Prop) :
  at_work id s0 s Gone ports procs pending → (∀ s', at_work id s0 s' There ports procs pending → Q (Ok tt) s') →
  (∀ e s', at_work id s0 s' Unknown ports procs pending → Q (Err e) s') → does L (createTAP id up download) s Q.
Proof.
  intros Hw HOk HErr.
  assert (∀ e s1 tap, at_work id s0 s1 tap ports procs pending → Q (Err e) s1) as HErr'.
  { intros e s1 tap Hw1. apply HErr. by destruct Hw1; split. }
  unfold createTAP. apply does_eunseen; [blind| |intros e s1 E1; eapply HErr', at_work_view; done]. intros [] s1 E1.
  apply (at_work_view _ _ _ _ _ _ _ _ E1) in Hw.
  eapply does_ebind, does_bind, does_deleteTAP; [exact Hw| |intros e _; by eapply does_ret, HErr'].
  intros s2 Hw2. apply does_ret. cbv beta iota delta [wrap_err].
  eapply does_ebind, does_on_error, does_addTAP; [exact Hw2| |].
  - intros s3 Hw3. apply does_eunseen; [blind| |intros e s4 E4; eapply HErr', at_work_view; done]. intros [] s4 E4.
    apply (at_work_view _ _ _ _ _ _ _ _ E4) in Hw3.
    assert (∀ p : M (result unit), unseen p → does L p s4 Q) as Hlast.
    { intros p Hp. apply Hp. intros [[]|e] s5 E5; [apply HOk; by eapply at_work_view|]. eapply HErr', at_work_view; done. }
    apply Hlast. blind.
  - intros e s3 Hw3. eapply does_bind, does_deleteTAP; [exact Hw3| |]; intros; eapply does_ret, HErr'; done.
Qed.

End Steps.

Section Work.

Context (id : string) (s0 : Host) (L : gset lock) (Hnet : ∀ n, NetworkLock n ∉ L) (Hadm : AdmissionLock ∉ L).

Lemma does_attachTAP nw v s procs pending (Q : result bool → Host → Prop) :
  ID v = id → at_work id s0 s Gone (Some None) procs pending →
  (∀ b s', at_work id s0 s' There (Some None) procs pending → Q (Ok b) s') →
  (∀ e s', at_work id s0 s' Removed None procs pending → Q (Err e) s') → does L (attachTAP cfg nw v) s Q.
Proof.
  intros Hid Hw HOk HErr. unfold attachTAP. rewrite Hid. apply does_with_lock; [done|].
  apply does_eunseen; [blind| |intros e s1 E1; apply HErr, at_work_removed; by eapply at_work_view].
  intros [] s1 E1. apply does_unseen; [blind|]. intros [] s2 E2. rewrite E1 in E2.
  apply (at_work_view _ _ _ _ _ _ _ _ E2) in Hw. eapply does_ebind, does_on_error, does_bind, does_createTAP; [exact Hw| |].
  - intros s3 Hw3. apply does_ret. cbv beta iota delta [wrap_err]. apply does_unseen; [blind|]. intros served s4 E4.
    apply does_ret, HOk. by eapply at_work_view.
  - intros e s3 Hw3. apply does_ret. cbv beta iota delta [wrap_err]. eapply does_removeTAP; [exact Hw3|].
    intros s4 [H1 H2 H3 H4 H5 H6 H7 H8 H9]. apply HErr. split; try done. intros _. exact H3.
Qed.

Lemma does_setupNetwork v s procs pending (Q : result networkSetup → Host → Prop) :
  ID v = id → at_work id s0 s Gone (Some None) procs pending →
  (∀ setup s', at_work id s0 s' There (Some (published_for v)) procs pending → Q (Ok setup) s') →
  (∀ e s', at_work id s0 s' Removed None procs pending → Q (Err e) s') → does L (setupNetwork cfg v) s Q.
Proof.
  intros Hid Hw HOk HErr. unfold setupNetwork. rewrite Hid.
  apply does_eunseen; [blind| |intros e s1 E1; apply HErr, at_work_removed; by eapply at_work_view]. intros nw s1 E1.
  apply does_eunseen; [blind| |intros e s2 E2; apply HErr, at_work_removed; eapply at_work_view; [|exact Hw]; congruence]. intros a s2 E2.
  rewrite E1 in E2. apply (at_work_view _ _ _ _ _ _ _ _ E2) in Hw.
  eapply does_ebind, does_attachTAP; [done|exact Hw| |exact HErr]. intros serves s3 Hw3.
  assert (∀ e s' tap ports, at_work id s0 s' tap ports procs pending → does L (undoNetwork id) s' (λ _ s2, Q (Err e) s2)) as Hundo.
  { intros e s' tap ports Hw'. eapply does_undoNetwork; [exact Hw'|]. intros s5 Hw5. by apply HErr. }
  eapply does_on_error, does_ebind, does_publishPorts; [done|exact Hw3| |intros e s4 Hw4; by eapply Hundo]. intros s4 Hw4.
  apply does_eunseen; [blind| |intros e s' E; eapply Hundo, at_work_view; done]. intros m s5 E5.
  apply does_eunseen; [blind| |intros e s6 E6; eapply Hundo, at_work_view; [|exact Hw4]; congruence]. intros n s6 E6.
  apply does_ret, HOk. eapply at_work_view; [|exact Hw4]. congruence.
Qed.

(** The virtiofsd processes of an instance: all of them start, or none is
    left. *)
Lemma does_startShares v shares s tap ports pending (Q : result (list FilesystemConfig * list Z) → Host → Prop) :
  at_work id s0 s tap ports ∅ pending →
  (∀ fs procs s', at_work id s0 s' tap ports (list_to_set procs) pending → Q (Ok (fs, procs)) s') →
  (∀ e s', at_work id s0 s' tap ports ∅ pending → Q (Err e) s') → does L (startShares cfg v shares) s Q.
Proof.
  intros Hw HOk HErr. unfold startShares.
  destruct (bool_decide (length shares = 0)); [by apply does_ret, HOk|].
  destruct (sharesDirectories cfg); [|by apply does_ret, HErr].
  destruct (bool_decide (EffectiveHypervisorType v = TypeCloudHypervisor)); [|by apply does_ret, HErr]. cbn [negb].
  change (∅ : gset Z) with (list_to_set [] : gset Z) in Hw.
  revert s Hw. generalize 0 (@nil FilesystemConfig) (@nil Z). induction shares as [|d shares IH]; intros i fs procs s Hw;
    cbn [startShares_loop]; [by apply does_ret, HOk|].
  apply does_bind, does_ask. intros [p|e].
  - eapply does_bind, does_process_starts; [exact Hw|]. intros s1 Hw1. apply IH.
    by replace (list_to_set (procs ++ [p]) : gset Z) with ({[p]} ∪ list_to_set procs : gset Z) by set_solver.
  - eapply does_bind, does_processes_end; [exact Hw|]. intros s1 Hw1. apply does_ret, HErr.
    by replace (∅ : gset Z) with (list_to_set procs ∖ list_to_set procs : gset Z) by set_solver.
Qed.

(** What a start comes to. *)
Definition outcome (v : Spec) (held : Res.Resources) (r : result unit) (s : Host) : Prop :=
  match r with
  | Ok _ => ∃ vmm st, runs_as v held s0 s vmm st true
  | Err _ => at_work (ID v) s0 s Removed None ∅ None
  end.

(** At most these processes are left. *)
Definition undone (s : Host) (tap : presence) (ports : option (option (list Network.PortMapping))) (procs : gset Z) : Prop :=
  ∃ X, X ⊆ procs ∧ at_work id s0 s tap ports X None.

(** A VMM that is launched by a program that leaves nothing if it fails, and
    is killed if what follows fails. *)
Definition launches (p : M (result Z)) : Prop :=
  ∀ s tap ports procs (Q : result Z → Host → Prop), at_work id s0 s tap ports procs None →
  (∀ vmm s', at_work id s0 s' tap ports ({[vmm]} ∪ procs) None → Q (Ok vmm) s') →
  (∀ e s', at_work id s0 s' tap ports procs None → Q (Err e) s') → does L p s Q.

Lemma launches_startVM socket spec : launches (startVM socket spec).
Proof.
  intros s tap ports procs Q Hw HOk HErr. apply does_bind, does_ask. intros [vmm|e]; [|by apply does_ret, HErr].
  eapply does_bind, does_process_starts; [exact Hw|]. intros s1 Hw1. by apply does_ret, HOk.
Qed.

Lemma launches_restoreVM socket dir : launches (restoreVM socket dir).
Proof.
  intros s tap ports procs Q Hw HOk HErr. apply does_bind, does_ask. intros [vmm|e]; [|by apply does_ret, HErr].
  eapply does_bind, does_process_starts; [exact Hw|]. intros s1 Hw1. by apply does_ret, HOk.
Qed.

Lemma does_launch (p : M (result Z)) (k : Z → M (result unit)) v held s procs :
  ID v = id → launches p → at_work id s0 s There (Some (published_for v)) procs None →
  (∀ vmm s', at_work id s0 s' There (Some (published_for v)) ({[vmm]} ∪ procs) None → does L (k vmm) s' (λ r s2,
     match r with
     | Ok _ => ∃ st, runs_as v held s0 s2 vmm st true
     | Err _ => at_work id s0 s2 There (Some (published_for v)) ({[vmm]} ∪ procs) None
     end)) →
  does L (vmm ←? p; on_error (process_ends vmm) (k vmm)) s (λ r s2,
    match r with Ok _ => ∃ vmm st, runs_as v held s0 s2 vmm st true | Err _ => undone s2 There (Some (published_for v)) procs end).
Proof.
  intros Hid Hp Hw Hk. apply does_ebind. eapply Hp; [exact Hw| |intros e s1 Hw1; by exists procs].
  intros vmm s1 Hw1. apply does_on_error. eapply does_mono; [|by apply Hk]. intros [[]|e] s2; [intros [st Hst]; eauto|].
  intros Hw2. eapply does_process_ends; [exact Hw2|]. intros s3 Hw3. eexists. split; [|exact Hw3]. set_solver.
Qed.

(** Recording a run and supervising it. *)
Lemma does_recorded v vmm r s procs (before after : M unit) :
  ID v = id → vmm ∈ procs → at_work id s0 s There (Some (published_for v)) procs None → unseen before → unseen after →
  does L (status ←? recordRunning cfg v vmm r; before ≫= λ _, supervise v vmm status ≫= λ _, after ≫= λ _, mret (Ok tt)) s
    (λ res s2,
    match res with
    | Ok _ => ∃ st, runs_as v (run_held r) s0 s2 vmm st true
    | Err _ => at_work id s0 s2 There (Some (published_for v)) procs None
    end).
Proof.
  intros Hid Hvmm Hw Hb Ha. eapply does_ebind, does_recordRunning; [done|done|exact Hw| |by intros e s1 Hw1].
  intros st st' s1 Hr Ea Eh. apply does_unseen; [done|]. intros [] s2 E2.
  eapply does_bind, does_supervise; [exact Ea|exact Eh|by eapply runs_as_view|]. intros s3 Hr3.
  apply does_unseen; [done|]. intros [] s4 E4. apply does_ret. exists st'. by eapply runs_as_view.
Qed.

Lemma does_boot v restarts s :
  ID v = id → at_work id s0 s Gone (Some None) ∅ None → does L (boot cfg v restarts) s (outcome v (Spec_Resources v)).
Proof.
  intros Hid Hw. unfold boot. rewrite Hid.
  assert (∀ e s', view s' = view s → outcome v (Spec_Resources v) (Err e) s') as HErr
    by (intros e s' E; unfold outcome; rewrite Hid; apply at_work_removed; by eapply at_work_view).
  apply does_eunseen; [blind| |exact HErr]. intros starter s1 E1.
  apply does_eunseen; [blind| |intros e s2 E2; apply HErr; congruence]. intros b s2 E2.
  apply does_eunseen; [blind| |intros e s3 E3; apply HErr; congruence]. intros [] s3 E3.
  apply does_eunseen; [unfold prepareRuntimeDir; blind| |intros e s4 E4; apply HErr; congruence]. intros [] s4 E4.
  assert (view s4 = view s) as E by congruence. apply (at_work_view _ _ _ _ _ _ _ _ E) in Hw.
  assert (∀ e s', at_work id s0 s' Removed None ∅ None →
    does L (ignoring (removeRuntimeDir id)) s' (λ _ s2, outcome v (Spec_Resources v) (Err e) s2)) as Hundo.
  { intros e s' Hs'. eapply does_bind, does_removeRuntimeDir; [exact Hs'|]. intros _ s5 H5. apply does_ret.
    unfold outcome. by rewrite Hid. }
  apply does_on_error, does_eunseen; [blind| |intros e s5 E5; apply Hundo, at_work_removed; by eapply at_work_view]. intros [] s5 E5.
  eapply does_ebind, does_setupNetwork; [done|by eapply at_work_view| |exact Hundo]. intros setup s6 Hw6.
  assert (∀ e s' procs, undone s' There (Some (published_for v)) procs → procs ⊆ ∅ → does L (undoNetwork id) s' (λ _ s2,
    does L (ignoring (removeRuntimeDir id)) s2 (λ _ s3, outcome v (Spec_Resources v) (Err e) s3))) as Hdown.
  { intros e s' procs (X & HX & HwX) Hno. eapply does_undoNetwork; [exact HwX|]. intros s7 Hw7. apply Hundo.
    by replace (∅ : gset Z) with X by set_solver. }
  apply does_on_error. eapply does_ebind, does_startShares; [exact Hw6| |intros e s7 Hw7; apply (Hdown e s7 ∅); [by exists ∅|done]].
  intros fs procs s7 Hw7. apply does_on_error.
  apply does_mono with (Q1 := λ r s2, match r with
    | Ok _ => ∃ vmm st, runs_as v (Spec_Resources v) s0 s2 vmm st true
    | Err _ => undone s2 There (Some (published_for v)) (list_to_set procs) end).
  { intros [[]|e] s8 H8; [exact H8|]. destruct H8 as (X & HX & Hw8). eapply does_processes_end; [exact Hw8|].
    intros s9 Hw9. apply (Hdown e s9 (X ∖ list_to_set procs)); [by eexists|set_solver]. }
  apply does_eunseen; [blind| |intros e s8 E8; exists (list_to_set procs); split; [done|by eapply at_work_view]]. intros [] s8 E8.
  eapply does_launch; [done|apply launches_startVM|by eapply at_work_view|]. intros vmm s9 Hw9.
  pose proof (λ r, does_recorded v vmm r s9 _ (mret tt) (record v ActionStarted) Hid (proj2 (elem_of_union _ _ _) (or_introl (elem_of_singleton_2 _ _ eq_refl))) Hw9 (unseen_ret tt) (unseen_record v ActionStarted)) as Hrec.
  exact (Hrec _).
Qed.

Lemma does_admit v need s tap ports procs pending (Q : result unit → Host → Prop) :
  ID v = id → at_work id s0 s tap ports procs pending →
  (∀ s', at_work id s0 s' tap ports procs pending → Q (Ok tt) s') →
  (∀ e s', at_work id s0 s' tap ports procs pending → statuses s' = statuses s → Q (Err e) s') →
  does L (admit_ cfg v need) s Q.
Proof.
  intros Hid Hw HOk HErr. unfold admit_. apply does_with_lock; [done|].
  assert (∀ e s', view s' = view s → Q (Err e) s') as HErr'
    by (intros e s' E; apply HErr; [by eapply at_work_view|by injection E]).
  apply does_eunseen; [blind| |exact HErr']. intros _ s1 E1.
  apply does_eunseen; [blind| |intros e s2 E2; apply HErr'; congruence]. intros _ s2 E2.
  apply does_eunseen; [blind| |intros e s3 E3; apply HErr'; congruence]. intros _ s3 E3.
  apply does_eunseen; [blind| |intros e s4 E4; apply HErr'; congruence]. intros _ s4 E4.
  assert (view s4 = view s) as E by congruence.
  eapply does_transitionWith; [done|done|by intros st|by eapply at_work_view|exact HOk|].
  intros e s5 Hw5 E5. apply HErr; [done|]. rewrite E5. by injection E.
Qed.

(** *** Resumes *)

Lemma does_keepingOverlay overlay (p : M (result unit)) s (Q : result unit → Host → Prop) :
  (∀ s', view s' = view s → does L p s' Q) → (∀ e s', view s' = view s → Q (Err e) s') →
  (∀ e s1 s2, view s2 = view s1 → Q (Err e) s1 → Q (Err e) s2) → does L (keepingOverlay overlay p) s Q.
Proof.
  intros Hp He Hstable. unfold keepingOverlay. destruct (bool_decide (overlay = "")); [by apply Hp|].
  apply does_unseen; [blind|]. intros [] s1 E1. apply does_unseen; [blind|]. intros [kept|e] s2 E2.
  2:{ apply does_ret, He. congruence. }
  assert (does L (wrapping "restore overlay disk: %w" (attempt "copy overlay disk") ?; p) s2 Q) as Hrest.
  { apply does_eunseen; [blind| |intros e s3 E3; apply He; congruence]. intros [] s3 E3. apply Hp. congruence. }
  destruct kept; [|exact Hrest]. apply does_on_error. eapply does_mono; [|exact Hrest].
  intros [[]|e] s3 H3; [exact H3|]. apply unseen_bind; [blind|intros; blind|]. intros [] s4 E4. by eapply Hstable.
Qed.

Lemma does_restore v frozen starter image (k : Z → M (result unit)) held s :
  ID v = id → at_work id s0 s Gone (Some None) ∅ None →
  (∀ vmm s', at_work id s0 s' There (Some (published_for v)) ({[vmm]} ∪ ∅) None → does L (k vmm) s' (λ r s2,
     match r with
     | Ok _ => ∃ st, runs_as v held s0 s2 vmm st true
     | Err _ => at_work id s0 s2 There (Some (published_for v)) ({[vmm]} ∪ ∅) None
     end)) →
  does L (restore cfg v frozen starter image k) s (outcome v held).
Proof.
  intros Hid Hw Hk. unfold restore. rewrite Hid.
  apply does_eunseen; [unfold prepareRuntimeDir; blind| |intros e s1 E1; simpl; rewrite Hid; apply at_work_removed; by eapply at_work_view].
  intros [] s1 E1. apply (at_work_view _ _ _ _ _ _ _ _ E1) in Hw. apply does_on_error.
  apply does_mono with (Q1 := outcome v held).
  { intros [[]|e] s2 H2; [exact H2|]. simpl in H2. rewrite Hid in H2. eapply does_bind, does_removeRuntimeDir; [exact H2|].
    intros _ s3 H3. apply does_ret. simpl. by rewrite Hid. }
  apply does_keepingOverlay.
  2:{ intros e s2 E2. simpl. rewrite Hid. apply at_work_removed. by eapply at_work_view. }
  2:{ intros e s2 s3 E3. simpl. by apply at_work_view. }
  intros s2 E2. apply does_eunseen; [blind| |intros e s3 E3; simpl; rewrite Hid; apply at_work_removed; eapply at_work_view; [|exact Hw]; congruence].
  intros mounts s3 E3. rewrite E2 in E3. apply (at_work_view _ _ _ _ _ _ _ _ E3) in Hw.
  eapply does_ebind, does_setupNetwork; [done|exact Hw| |by simpl; rewrite Hid]. intros setup s4 Hw4.
  apply does_on_error. apply does_mono with (Q1 := λ r s2, match r with
    | Ok _ => ∃ vmm st, runs_as v held s0 s2 vmm st true | Err _ => undone s2 There (Some (published_for v)) ∅ end).
  { intros [[]|e] s5 H5; [exact H5|]. destruct H5 as (X & HX & Hw5). eapply does_undoNetwork; [exact Hw5|].
    intros s6 Hw6. simpl. rewrite Hid. by replace (∅ : gset Z) with X by set_solver. }
  assert (∀ (e : error) s', view s' = view s4 → undone s' There (Some (published_for v)) ∅) as Hno
    by (intros e s' E; exists ∅; split; [done|by eapply at_work_view]).
  apply does_eunseen; [blind| |exact Hno]. intros [] s5 E5.
  apply does_eunseen; [blind| |intros e s6 E6; apply (Hno e); congruence]. intros _ s6 E6.
  apply does_eunseen; [blind| |intros e s7 E7; apply (Hno e); congruence]. intros _ s7 E7.
  eapply (does_launch); [done|apply launches_restoreVM|eapply at_work_view; [|exact Hw4]; congruence|].
  intros vmm s8 Hw8.
  assert (∀ (e : error) s', view s' = view s8 → at_work id s0 s' There (Some (published_for v)) ({[vmm]} ∪ ∅) None) as Herr
    by (intros e s' E; by eapply at_work_view).
  apply does_eunseen; [blind| |exact Herr]. intros [] s9 E9.
  apply does_unseen; [blind|]. intros [] s10 E10.
  apply does_eunseen; [blind| |intros e s11 E11; apply (Herr e); congruence]. intros [] s11 E11.
  apply does_eunseen; [blind| |intros e s12 E12; apply (Herr e); congruence]. intros [] s12 E12.
  apply Hk, (Herr (New "")). congruence.
Qed.

(** The status holds nothing that it did not, if it can be written. *)
Definition settled (s : Host) : Prop :=
  writes → HoldsResources (Status_State (status_in (statuses s0) id)) = false →
  HoldsResources (Status_State (status_in (statuses s) id)) = false.

Lemma does_resume v frozen s :
  ID v = id → at_work id s0 s Gone (Some None) ∅ None → statuses s = statuses s0 →
  does L (resume cfg v frozen) s (λ r s', outcome v (snapshotResources (frozen_snapshot frozen)) r s' ∧ (is_ok r = false → settled s')).
Proof.
  intros Hid Hw Hst. unfold resume. set (held := snapshotResources _).
  assert (∀ e s', at_work id s0 s' Gone (Some None) ∅ None → statuses s' = statuses s0 →
    outcome v held (Err e) s' ∧ (is_ok (Err e : result unit) = false → settled s')) as HErr.
  { intros e s' Hw' E. split; [simpl; rewrite Hid; by apply at_work_removed|]. intros _ _. by rewrite E. }
  apply does_eunseen; [blind| |intros e s1 E1; apply HErr; [by eapply at_work_view|by injection E1 as _ _ _ _ -> _ _]].
  intros starter s1 E1. assert (statuses s1 = statuses s0) as Hst1 by (by injection E1 as _ _ _ _ -> _ _).
  apply (at_work_view _ _ _ _ _ _ _ _ E1) in Hw.
  eapply does_ebind, does_admit; [done|exact Hw| |intros e s2 Hw2 E2; apply HErr; [done|by rewrite E2]]. intros s2 Hw2.
  apply does_unseen; [blind|]. intros [] s3 E3. apply (at_work_view _ _ _ _ _ _ _ _ E3) in Hw2.
  apply does_bind, does_mono with (Q1 := outcome v held).
  { intros [[]|e] s4 H4; [by apply does_ret|]. rewrite Hid. simpl in H4. rewrite Hid in H4.
    eapply does_bind, does_fail; [exact H4|]. intros s5 Hw5 Hh. apply does_ret. split; [simpl; by rewrite Hid|].
    intros _ Hwr _. by apply Hh. }
  apply does_eunseen; [blind| |intros e s4 E4; simpl; rewrite Hid; apply at_work_removed; by eapply at_work_view]. intros image s4 E4.
  apply does_restore; [done|by eapply at_work_view|]. intros vmm s5 Hw5.
  pose proof (λ r, does_recorded v vmm r s5 _ (ignoring (attempt "remove kept overlay disk")) (mret tt) Hid
    (proj2 (elem_of_union _ _ _) (or_introl (elem_of_singleton_2 _ _ eq_refl))) Hw5) as Hrec.
  exact (Hrec (mkRunRecord _ held _ _ _ _) ltac:(blind) (unseen_ret tt)).
Qed.

End Work.

(** ** Starting *)

(** What an instance that is started holds: its resources, or those of the
    guest it has frozen on standby. *)
Definition started_with (s : Host) (v : Spec) : Res.Resources :=
  match standbys s !! Name v with
  | Some (Some frozen) => snapshotResources frozen
  | _ => Spec_Resources v
  end.

(** An instance that is down: it does not run, and nothing of it is up. *)
Definition down (s : Host) (id : string) : Prop :=
  IsActive (Status_State (status_in (statuses s) id)) = false ∧ InstanceID (status_in (statuses s) id) = id ∧
  (id ∉ taps s) ∧ published s !! id = None ∧ vmms s !! id = None.

Lemma down_at_work s id : down s id → at_work id s (set_restarts s (base.delete id (restarts s)) (lastPending s)) Gone (Some None) ∅ None.
Proof.
  intros (Ha & Hid & Ht & Hp & Hv). split; try done; simpl.
  - intros j Hj. split_and!; simpl; try done. by rewrite lookup_delete_ne.
  - set_solver.
  - intros E. by rewrite E in Ha.
  - apply lookup_delete_eq.
Qed.

(** What a start comes to, its status with it. *)
Definition started (s0 : Host) (v : Spec) (held : Res.Resources) (r : result unit) (s : Host) : Prop :=
  outcome s0 v held r s ∧ (is_ok r = false → settled (ID v) s0 s).

Lemma started_view s0 v held r s s' : view s' = view s → started s0 v held r s → started s0 v held r s'.
Proof.
  intros E [H1 H2]. split.
  - destruct r as [[]|e]; simpl in *; [|by eapply at_work_view]. destruct H1 as (vmm & st & H1). exists vmm, st. by eapply runs_as_view.
  - intros Hr. unfold settled. injection E as _ _ _ _ -> _ _. by apply H2.
Qed.

Lemma does_start s v :
  Store.Instance (store s) (ID v) = Ok v → down s (ID v) →
  does ∅ (start cfg v) s (started s v (started_with s v)).
Proof.
  intros Hv Hd. unfold start. apply does_with_lock; [set_solver|].
  assert (∀ n, NetworkLock n ∉ ({[InstanceLock (ID v)]} ∪ ∅ : gset lock)) as Hnet by set_solver.
  assert (AdmissionLock ∉ ({[InstanceLock (ID v)]} ∪ ∅ : gset lock)) as Hadm by set_solver.
  apply does_ebind. unfold rereadDefinition. apply does_atomically. cbn [fst snd]. rewrite Hv.
  assert (∀ p : M (result unit), does ({[InstanceLock (ID v)]} ∪ ∅) p s (started s v (started_with s v)) →
    does ({[InstanceLock (ID v)]} ∪ ∅) (deferred (syncWaker (ID v)) p) s (started s v (started_with s v))) as Hdefer.
  { intros p Hp. apply does_bind. eapply does_mono; [|exact Hp]. intros r s1 H1. apply does_unseen; [blind|].
    intros [] s2 E2. apply does_ret. by eapply started_view. }
  apply Hdefer, does_bind, (does_statusOf (ID v)); [done|]. intros st _ ->. rewrite (proj1 Hd).
  apply does_bind, does_modify, does_bind, does_atomically. cbn [fst snd].
  pose proof (down_at_work s (ID v) Hd) as Hw. set (s1 := set_restarts _ _ _) in *.
  assert (statuses s1 = statuses s) as Hs1 by done.
  assert (∀ e held s', at_work (ID v) s s' Gone (Some None) ∅ None → statuses s' = statuses s1 → started s v held (Err e) s') as HErr.
  { intros e held s' Hw' E. split; [by apply at_work_removed|]. intros _ _. by rewrite E, Hs1. }
  change (standbys s1) with (standbys s). unfold started_with. destruct (standbys s !! Name v) as [frozen|] eqn:Hf.
  - rewrite bool_decide_true by done. unfold resumeStandby. apply does_ebind, does_atomically. cbn [fst snd].
    change (standbys s1) with (standbys s). rewrite Hf. destruct frozen as [frozen|]; [|by apply HErr].
    apply does_unseen; [blind|]. intros [] s2 E2. apply (at_work_view _ _ _ _ _ _ _ _ E2) in Hw.
    apply does_ebind, does_on_error. eapply does_mono; [|eapply does_resume; [done|done|done|exact Hw|by injection E2 as _ _ _ _ -> _ _]].
    intros [[]|e] s3 H3; [apply does_unseen; [blind|]|apply unseen_record]; intros [] s4 E4; [apply does_ret|]; by eapply started_view.
  - rewrite bool_decide_false by (by intros []). eapply does_ebind, does_admit; [done|done|exact Hw| |intros e s2 Hw2 E2; by apply HErr].
    intros s2 Hw2. apply does_unseen; [blind|]. intros [] s3 E3.
    apply (at_work_view _ _ _ _ _ _ _ _ E3) in Hw2. apply does_bind. eapply does_mono; [|by eapply does_boot].
    intros [[]|e] s4 H4; [by apply does_ret|]. eapply does_bind, does_fail; [exact H4|]. intros s5 Hw5 Hh.
    apply does_unseen; [blind|]. intros [] s6 E6. apply does_ret. eapply started_view; [exact E6|]. split; [exact Hw5|].
    intros _ Hwr _. by apply Hh.
Qed.

(** ** Stopping *)

(** From [s0], an instance is taken down: its VMM has ended; its TAP device and
    its ports are gone, as far as the host deletes them; its status is gone. *)
Record taken_down (id : string) (s0 s : Host) (vmm_ended net_gone status_gone : bool) : Prop := {
  down_others : others_kept id s0 s;
  down_procs : processes s ⊆ processes s0;
  down_nets : Store.networks (store s) = Store.networks (store s0);
  down_pending : restarts s !! id = None;
  down_id : InstanceID (status_in (statuses s) id) = id;
  down_vmm : if vmm_ended then vmms s !! id = None ∧ ∀ x, vmms s0 !! id = Some x → vmm x ∉ processes s
             else vmms s !! id = vmms s0 !! id;
  down_net : net_gone = true → (deletes → id ∉ taps s) ∧ (unpublishes → published s !! id = None);
  down_status : status_gone = true → statuses s !! id = None;
}.

Lemma taken_down_view id s0 s s' a b c : view s' = view s → taken_down id s0 s a b c → taken_down id s0 s' a b c.
Proof.
  intros [= E1 E2 E3 E4 E5 E6 E7] [H1 H2 H3 H4 H5 H6 H7 H8]. split; rewrite ?E1, ?E2, ?E3, ?E4, ?E5, ?E6, ?E7; try done.
  intros j Hj. rewrite E1, E2, E3, E5, E6. by apply H1.
Qed.

Section Down.

Context (id : string) (s0 : Host) (L : gset lock) (Hnet : ∀ n, NetworkLock n ∉ L).

Lemma does_stopVMM v status graceful s (Q : stopOutcome → Host → Prop) :
  ID v = id → taken_down id s0 s false false false → (∀ o s', taken_down id s0 s' true false false → Q o s') →
  does L (stopVMM cfg v status graceful) s Q.
Proof.
  intros Hid Hd HQ. unfold stopVMM, vmmOf. rewrite Hid. apply does_bind, does_atomically. cbn [fst snd].
  destruct (vmms s !! id) as [x|] eqn:Hx.
  2:{ apply does_ret, HQ. destruct Hd as [H1 H2 H3 H4 H5 H6 H7 H8]. split; try done. split; [done|]. rewrite <-H6, Hx. done. }
  assert (∀ o s', view s' = view s → does L (process_ends (vmm x)) s' (λ _ s1,
    does L (mret o) s1 (λ a s2, does L (forget id ≫= λ _, mret a) s2 Q))) as Hend.
  { intros o s' E. apply (taken_down_view _ _ _ _ _ _ _ E) in Hd. destruct Hd as [H1 H2 H3 H4 H5 H6 H7 H8].
    apply does_modify, does_ret, does_bind, does_modify, does_ret, HQ. split; simpl; try done.
    - intros j Hj. destruct (H1 j Hj) as (F1 & F2 & F3 & F4 & F5). split_and!; simpl; try done. by rewrite lookup_delete_ne.
    - set_solver.
    - split; [apply lookup_delete_eq|]. intros y Hy. replace y with x; [set_solver|].
      injection E as _ _ E3 _ _ _ _. rewrite E3, Hx in H6. congruence. }
  apply does_bind, does_unseen; [unfold shutdownGracefully; destruct graceful; blind|]. intros o s1 E1.
  assert (∀ o', does L (syncGuest status ≫= λ _, hv ← connect cfg v status;
      (match hv with
       | Ok _ => attempt "shut the hypervisor down" ≫= λ _, mret tt
       | Err _ => attempt "kill the hypervisor" ≫= λ _, mret tt
       end) ≫= λ _, ask (QExits (vmm x)) ≫= λ _, process_ends (vmm x) ≫= λ _, mret o') s1
     (λ a s2, does L (forget id ≫= λ _, mret a) s2 Q)) as Hkill.
  { intros o'. apply does_unseen; [unfold syncGuest; blind|]. intros [] s2 E2. apply does_unseen; [blind|]. intros hv s3 E3.
    apply does_unseen; [blind|]. intros [] s4 E4. apply does_unseen; [blind|]. intros _ s5 E5.
    apply does_bind, Hend. congruence. }
  destruct o; [exact (Hkill _)|by apply does_bind, Hend|exact (Hkill _)|exact (Hkill _)].
Qed.

(** The network of an instance, if it is defined. *)
Definition networked (v : Spec) : bool := is_ok (Store.Network (store s0) (NetworkName v)).

Lemma does_teardownNetwork v s (Q : unit → Host → Prop) :
  ID v = id → taken_down id s0 s true false false →
  (∀ s', taken_down id s0 s' true (networked v) false → Q tt s') → does L (teardownNetwork cfg v) s Q.
Proof.
  intros Hid Hd HQ. unfold teardownNetwork, networked in *. rewrite Hid.
  apply does_bind, does_atomically. cbn [fst snd]. unfold Store.Network in *. rewrite (down_nets _ _ _ _ _ _ Hd).
  destruct (Kind.find _ _ _) as [nw|e]; [|by apply does_ret, HQ]. apply does_bind, does_bind. intros removed Hr. split; [done|].
  destruct Hd as [H1 H2 H3 H4 H5 H6 H7 H8].
  apply does_modify. set (s1 := set_published _ _).
  assert (taken_down id s0 s1 true false false ∧ (unpublishes → published s1 !! id = None)) as [Hd Hp].
  { split; [split; try done; simpl|].
    - intros j Hj. destruct (H1 j Hj) as (F1 & F2 & F3 & F4 & F5). split_and!; simpl; try done. by rewrite lookup_partial_alter_ne.
    - intros Hu. simpl. rewrite lookup_partial_alter_eq, bool_decide_true; [done|].
      induction (default [] _) as [|p l IH]; simpl; [done|]. by rewrite (Hr Hu). }
  clearbody s1. clear H1 H2 H3 H4 H5 H6 H7 H8. unfold removeTAP, deleteTAP.
  assert (∀ s2, taken_down id s0 s2 true true false → does L (with_lock (NetworkLock (Network.Name nw)) (
      others ← gets (λ s, Store.Instances (store s)); used ← networkInUse others nw id;
      if used : bool then mret tt
      else
        (if servesDNS cfg then modify (λ s, set_dnsServers s (dnsServers s ∖ {[Network.Name nw]})) else mret tt) ≫= λ _,
        deleted ← attempt "delete bridge";
        if is_ok deleted then modify (λ s, set_bridges s (bridges s ∖ {[Network.Name nw]})) else mret tt)) s2 Q) as Hrest.
  { intros s2 Hd2. apply does_with_lock; [done|]. apply does_unseen; [blind|]. intros others s3 E3.
    assert (∀ s', view s' = view s2 → Q tt s') as HQ' by (intros s' E; apply HQ; by eapply taken_down_view).
    apply does_unseen; [blind|]. intros used s4 E4. destruct used; [apply does_ret, HQ'; congruence|].
    apply does_unseen; [blind|]. intros [] s5 E5. apply does_unseen; [blind|]. intros [[]|e] s6 E6.
    + apply does_modify, HQ'. change (view s6 = view s2). congruence.
    + apply does_ret, HQ'. congruence. }
  apply does_bind, does_unseen; [blind|]. intros [] s2 E2. apply does_bind, does_ebind, does_attempt.
  - apply does_bind, does_modify, does_ret, does_ret, Hrest.
    apply (taken_down_view _ _ _ _ _ _ _ E2) in Hd. destruct Hd as [H1 H2 H3 H4 H5 H6 H7 H8]. split; try done; simpl.
    + intros j Hj. destruct (H1 j Hj) as (F1 & F2 & F3 & F4 & F5). split_and!; simpl; try done. rewrite <-F4. set_solver.
    + intros _. split; [set_solver|]. injection E2 as _ -> _ _ _ _ _. done.
  - intros e He. apply does_ret, Hrest.
    apply (taken_down_view _ _ _ _ _ _ _ E2) in Hd. destruct Hd as [H1 H2 H3 H4 H5 H6 H7 H8]. split; try done; simpl.
    intros _. split; [|by injection E2 as _ -> _ _ _ _ _]. intros Hdel. exfalso. apply He. left. eauto.
Qed.

Lemma does_transition v to s (Q : result unit → Host → Prop) :
  ID v = id → taken_down id s0 s false false false → (∀ r s', taken_down id s0 s' false false false → Q r s') →
  does L (transition v to) s Q.
Proof.
  intros Hid Hd HQ. unfold transition, transitionWith. apply does_bind, (does_statusOf id); [done|]. intros st Est _.
  assert (∀ r s', view s' = view s → Q r s') as HQ' by (intros r s' E; apply HQ; by eapply taken_down_view).
  destruct (negb _ && negb _); [by apply does_ret, HQ'|]. unfold writeStatus.
  apply does_eunseen; [blind| |intros e s1 E1; by apply HQ']. intros [] s1 E1. apply does_unseen; [blind|]. intros now s2 E2.
  apply does_eunseen; [blind| |intros e s3 E3; apply HQ'; congruence]. intros [] s3 E3.
  assert (view s3 = view s) as E by congruence. apply (taken_down_view _ _ _ _ _ _ _ E) in Hd.
  assert (InstanceID st = id) as Hst by (rewrite Est; injection E as _ _ _ _ E5 _ _; rewrite <-E5; apply Hd).
  destruct Hd as [H1 H2 H3 H4 H5 H6 H7 H8]. apply does_bind, does_modify, does_ret, HQ. simpl.
  rewrite Hst. split; try done; simpl.
  - intros j Hj. destruct (H1 j Hj) as (F1 & F2 & F3 & F4 & F5). split_and!; simpl; try done. by rewrite lookup_insert_ne.
  - unfold status_in. by rewrite lookup_insert_eq.
Qed.

Lemma does_removeStopped s net (Q : result unit → Host → Prop) :
  taken_down id s0 s true net false → (∀ s', taken_down id s0 s' true net true → Q (Ok tt) s') →
  (∀ e s', others_kept id s0 s' → Q (Err e) s') → does L (removeRuntimeDir id) s Q.
Proof.
  intros Hd HOk HErr. assert (taken_down id s0 (set_statuses s (base.delete id (statuses s))) true net true) as Hd'.
  { destruct Hd as [H1 H2 H3 H4 H5 H6 H7 H8]. split; try done; simpl.
    - intros j Hj. destruct (H1 j Hj) as (F1 & F2 & F3 & F4 & F5). split_and!; simpl; try done. by rewrite lookup_delete_ne.
    - unfold status_in. by rewrite lookup_delete_eq.
    - intros _. apply lookup_delete_eq. }
  unfold removeRuntimeDir. apply does_bind, does_ask. intros [|e []]; apply does_bind.
  - apply does_modify, does_ret. by apply HOk.
  - apply does_modify, does_ret, HErr. apply Hd'.
  - apply does_ret, does_ret, HErr. apply Hd.
Qed.

End Down.

Lemma does_stop s v :
  Store.Instance (store s) (ID v) = Ok v →
  InstanceID (status_in (statuses s) (ID v)) = ID v → IsActive (Status_State (status_in (statuses s) (ID v))) = true →
  does ∅ (stop cfg v) s (λ r s', others_kept (ID v) s s' ∧ (r = Ok tt → taken_down (ID v) s s' true (networked s v) true)).
Proof.
  intros Hv Hid Hst. unfold stop. apply does_with_lock; [set_solver|].
  set (L := {[InstanceLock (ID v)]} ∪ ∅). assert (∀ n, NetworkLock n ∉ L) as Hnet by set_solver.
  apply does_ebind. unfold rereadDefinition. apply does_atomically. cbn [fst snd]. rewrite Hv.
  apply does_bind, does_mono with (Q1 := λ r s', others_kept (ID v) s s' ∧ (r = Ok tt → taken_down (ID v) s s' true (networked s v) true)).
  { intros r s1 [H1 H2]. apply does_unseen; [blind|]. intros [] s2 E2. apply does_ret. split.
    - intros j Hj. injection E2 as E1 E2 E3 E4 E5 E6 E7. rewrite E1, E2, E3, E5, E6. by apply H1.
    - intros Hr. eapply taken_down_view; [exact E2|]. by apply H2. }
  apply does_bind, does_modify. set (s1 := set_restarts _ _ _).
  assert (taken_down (ID v) s s1 false false false) as Hd.
  { split; try done; simpl; [|apply lookup_delete_eq]. intros j Hj. split_and!; simpl; try done. by rewrite lookup_delete_ne. }
  apply does_unseen; [blind|]. intros [] s2 E2. apply (taken_down_view _ _ _ _ _ _ _ E2) in Hd.
  apply does_bind, (does_statusOf (ID v)); [done|]. intros st _ Hact.
  assert (IsActive (Status_State st) = true) as Ha by (rewrite Hact; injection E2 as _ _ _ _ E5 _ _; by rewrite E5).
  apply does_eunseen; [blind| |intros e s3 E3; split; [by eapply taken_down_view|done]]. intros [] s3 E3.
  apply (taken_down_view _ _ _ _ _ _ _ E3) in Hd.
  enough (does L (transition v StateStopping ?; stopVMM cfg v st true ≫= λ _, teardownNetwork cfg v ≫= λ _,
      wrapping "remove runtime directory: %w" (removeRuntimeDir (ID v)) ?; record v ActionStopped ≫= λ _,
      notifyWaiters (bareStatus (ID v) StateStopped None) ≫= λ _, scheduleRemoval v ≫= λ _, mret (Ok tt)) s3
    (λ r s', others_kept (ID v) s s' ∧ (r = Ok tt → taken_down (ID v) s s' true (networked s v) true)))
    by (destruct (Status_State st); done).
  eapply does_ebind, does_transition; [reflexivity|exact Hd|]. intros [[]|e] s4 Hd4; [|split; [apply Hd4|done]].
  eapply does_bind, does_stopVMM; [done|reflexivity|exact Hd4|]. intros _ s5 Hd5.
  eapply does_bind, does_teardownNetwork; [done|reflexivity|exact Hd5|]. intros s6 Hd6. cbv beta.
  eapply does_ebind, does_bind, does_removeStopped; [exact Hd6| |by intros e s7 H7; apply does_ret].
  intros s7 Hd7. apply does_ret. cbv beta iota delta [wrap_err]. 
  apply does_unseen; [blind|]. intros [] s8 E8. apply does_unseen; [blind|]. intros [] s9 E9.
  apply does_unseen; [blind|]. intros [] s10 E10. apply does_ret.
  assert (taken_down (ID v) s s10 true (networked s v) true) as Hd10 by (eapply taken_down_view; [|exact Hd7]; congruence).
  by split; [apply Hd10|].
Qed.

End Lifecycle.

(** ** Hosts that do what they are asked *)

(** The host deletes the TAP devices that it is asked to. *)
Definition deletes_devices (world : ∀ q : query, nat → answer q) : Prop := ∀ n, world (QDo "delete TAP") n = None.

(** It removes the rules of the ports that are published. *)
Definition removes_rules (world : ∀ q : query, nat → answer q) : Prop := ∀ n p, world QUnpublish n p = true.

(** Statuses can be written. *)
Definition writes_statuses (world : ∀ q : query, nat → answer q) : Prop :=
  ∀ n, world (QDo "mkdir runtime directory") n = None ∧ world (QDo "write status") n = None.

(** A host answers as it does. *)
Lemma world_answers world q n :
  answers (deletes_devices world) (removes_rules world) (writes_statuses world) q (world q n).
Proof. destruct q; try done; [|by intros H p; apply H]. intros [[H ->]|[H [-> | ->]]]; apply (H n). Qed.

(** What a start that fails leaves of an instance: nothing of another instance
    has changed; it has no VMM, no process that it did not have, no restart
    pending, and does not say that it runs. Its TAP device and its ports are gone
    if the host deletes what it is asked to, and it holds nothing that it did not
    if statuses can be written. *)
Record left_behind (world : ∀ q : query, nat → answer q) (v : Spec) (s s' : Host) : Prop := {
  left_others : others_kept (ID v) s s';
  left_vmm : vmms s' !! ID v = None;
  left_processes : processes s' ⊆ processes s;
  left_restart : restarts s' !! ID v = None;
  left_state : Status_State (status_in (statuses s') (ID v)) ≠ StateRunning;
  left_tap : deletes_devices world → ID v ∉ taps s';
  left_ports : removes_rules world → published s' !! ID v = None;
  left_held : writes_statuses world → HoldsResources (Status_State (status_in (statuses s) (ID v))) = false →
    HoldsResources (Status_State (status_in (statuses s') (ID v))) = false;
}.

(** What a stop that returns no error leaves: nothing of another instance has
    changed; the VMM has ended and is not supervised, nothing else was started,
    the status is gone and no restart is pending. If its network is defined, its
    TAP device and its ports are gone as far as the host deletes them. *)
Record brought_down (world : ∀ q : query, nat → answer q) (v : Spec) (s s' : Host) : Prop := {
  brought_vmm : vmms s' !! ID v = None;
  brought_ended : ∀ x, vmms s !! ID v = Some x → vmm x ∉ processes s';
  brought_processes : processes s' ⊆ processes s;
  brought_status : statuses s' !! ID v = None;
  brought_restart : restarts s' !! ID v = None;
  brought_tap : is_ok (Store.Network (store s) (NetworkName v)) = true → deletes_devices world → ID v ∉ taps s';
  brought_ports : is_ok (Store.Network (store s) (NetworkName v)) = true → removes_rules world → published s' !! ID v = None;
}.

Section Lives.

Context (cfg : Config).

(** C4: a start is all or nothing. Whatever the file system, the hypervisor and
    the guest answer, starting an instance that is down returns, and nothing of
    another instance changes. If it returns no error, the instance runs: a VMM
    process that is supervised, its TAP device, its ports published, a status
    that says so and holds what was admitted, and no restart pending. If it
    returns an error, there is no VMM, no process that was started and no restart
    pending; the TAP device and the published ports are gone too, unless the host
    fails to delete them, which is only logged; and the status does not say that
    it runs, and holds resources only if it did before or cannot be written. *)
Theorem start_is_all_or_nothing world n s v :
  Store.Instance (store s) (ID v) = Ok v → down s (ID v) →
  ∃ r s' n', exec world (start cfg v) n ∅ s = Some (r, s', n') ∧
    match r with
    | Ok _ => ∃ vmm st, runs_as v (started_with s v) s s' vmm st true
    | Err _ => left_behind world v s s'
    end.
Proof.
  intros Hv Hd. destruct (run_given_exec _ world _ n _ _ _ (world_answers world) (does_start cfg _ _ _ s v Hv Hd))
    as (r & s' & n' & L' & He & _ & Ho & Hs).
  exists r, s', n'. split; [exact He|]. destruct r as [[]|e]; [done|].
  destruct Ho as [H1 H2 H3 H4 H5 H6 H7 H8 H9]. split; try done; [set_solver|by apply Hs].
Qed.

(** C5: a stop takes the whole instance down. Whatever it is answered,
    stopping an instance that runs or is paused returns, and nothing of another
    instance changes. If it returns no error, the VMM has ended and is not
    supervised, the status is gone and no restart is pending; and if the network
    of the instance is defined, the TAP device and the published ports are gone,
    unless the host fails to delete them, which is only logged. *)
Theorem stop_takes_all_down world n s v :
  Store.Instance (store s) (ID v) = Ok v → InstanceID (status_in (statuses s) (ID v)) = ID v →
  IsActive (Status_State (status_in (statuses s) (ID v))) = true →
  ∃ r s' n', exec world (stop cfg v) n ∅ s = Some (r, s', n') ∧ others_kept (ID v) s s' ∧
    (r = Ok tt → brought_down world v s s').
Proof.
  intros Hv Hid Ha. destruct (run_given_exec _ world _ n _ _ _ (world_answers world) (does_stop cfg _ _ _ s v Hv Hid Ha))
    as (r & s' & n' & L' & He & _ & Ho & Hs).
  exists r, s', n'. split_and!; [exact He|exact Ho|]. intros Hr. destruct (Hs Hr) as [H1 H2 H3 H4 H5 [H6 H6'] H7 H8].
  split; try done; [by apply H8|by intros; apply H7..].
Qed.

End Lives.

(** ** An example *)

Lemma start_is_all_or_nothing_witness :
  down Safety.example_created "i1" ∧
  ∃ r s' n', exec Safety.example_world (start Safety.example_cfg example_spec) 0 ∅ Safety.example_created = Some (r, s', n') ∧
    match r with
    | Ok _ => ∃ vmm st, runs_as example_spec (started_with Safety.example_created example_spec) Safety.example_created s' vmm st true
    | Err _ => left_behind Safety.example_world example_spec Safety.example_created s'
    end.
Proof.
  assert (down Safety.example_created "i1") as Hd.
  { split_and!; [vm_compute; reflexivity|vm_compute; reflexivity| |vm_compute; reflexivity|vm_compute; reflexivity].
    apply (bool_decide_eq_false_1 _). vm_compute. reflexivity. }
  assert (Store.Instance (store Safety.example_created) "i1" = Ok example_spec) as Hv by (vm_compute; reflexivity).
  revert Hd Hv. generalize Safety.example_created. intros s Hd Hv. split; [exact Hd|].
  exact (start_is_all_or_nothing Safety.example_cfg Safety.example_world 0 s example_spec Hv Hd).
Defined.

Lemma stop_takes_all_down_witness :
  IsActive (Status_State (status_in (statuses Safety.example_started) "i2")) = true ∧
  ∃ r s' n', exec Safety.example_world (stop Safety.example_cfg Safety.example_db) 0 ∅ Safety.example_started = Some (r, s', n') ∧
    others_kept "i2" Safety.example_started s' ∧ (r = Ok tt → brought_down Safety.example_world Safety.example_db Safety.example_started s').
Proof.
  assert (IsActive (Status_State (status_in (statuses Safety.example_started) "i2")) = true) as Ha by (vm_compute; reflexivity).
  assert (InstanceID (status_in (statuses Safety.example_started) "i2") = "i2") as Hid by (vm_compute; reflexivity).
  assert (Store.Instance (store Safety.example_started) "i2" = Ok Safety.example_db) as Hv by (vm_compute; reflexivity).
  revert Ha Hid Hv. generalize Safety.example_started. intros s Ha Hid Hv. split; [exact Ha|].
  exact (stop_takes_all_down Safety.example_cfg Safety.example_world 0 s Safety.example_db Hv Hid Ha).
Defined.

End Lifecycle.
